(* ===== verification/_CoqProject ===== *)
-Q . S2P
Prelude.v
Node.v
Bitmap.v
HashMap.v
HashMapProps.v
ResizeArray.v
ArrayProps.v
KMax.v
SeqLog.v
Regions.v
Certificate.v
CertLive.v
Messages.v
PreparedCert.v
Quorum.v
ReqQueue.v
StableEstimator.v
ViewChange.v
Support.v
RepInfo.v
PrePrepare.v
Status.v
NewKey.v
StateMonad.v
Files.v
FilesProps.v
FileMsgs.v
Ends.v
Partition.v
StateMsgs.v
MetaDataCert.v
State.v
StateInv.v
StateInit.v
StateHist.v
World.v
StateProps.v
StateErrors.v
StaticRecords.v
RecordLog.v
StateFetch.v
Termination.v
PrePrepareWalk.v
NewView.v
NVInfo.v
NewViewSafety.v
NewViewLiveness.v
ViewInfo.v
FilesView.v
FilesState.v
FilesTree.v
FilesRound.v
FilesSample.v
ViewLog.v
ReplicaState.v
ViewParts.v
ViewInv.v
ReplicaStatus.v
ReplicaRecovery.v
Client.v
ClientProps.v
ClientLive.v
ClientRequest.v
Replica.v
ReplicaSample.v
FilesReplica.v
RecoveryErrors.v
ViewErrors.v
Group.v
ReplicaInv.v
ReplicaExec.v
