(* ===== verification/Prelude.v ===== *)
(** * TinyBFT in Rocq

    TinyBFT is a library for state machine replication in C++: a group of [3f + 1]
    replicas executes the requests of its clients in one order although up to [f]
    replicas are faulty.  It is a descendant of the BFT library of Castro and Liskov with
    stores of fixed size and mbedtls for the cryptography.  This development translates
    its classes (src/src) into functions and proves what they promise.  The configuration
    is the default build of the repository, except where a file says that it models a
    class of the static build (STATIC_LOG_ALLOCATOR).

    ** How the program is translated

    A class is a [Record] of its fields and a method a function on it.  Methods that may
    stop return an [outcome]: [Ret], or [Err] with the reason: [AssertFail] for
    [th_assert] and [th_fail], [Undefined] where the C++ program has no defined behaviour
    (an access outside of an array, a shift that is too wide), [OutOfFuel] for a loop cut
    by the fuel of the model.  The replica and the state manager are written in monads of
    their own: [M] (ReplicaState.v) and [ST] (StateMonad.v) thread the object through the
    calls.  What a method does to the outside (messages sent, timers, upcalls, calls back
    into the owner) is appended to a list of effects in the order of the code.

    Integers are [Z]; where the width is part of what the code does (bitmaps, identifiers,
    conversions to [int], sizes in messages) the wrap-around is written out.  Messages of
    fixed form are records, and a message whose layout the code walks (requests,
    pre-prepares, statuses, new keys) is a list of bytes.  A pointer into an array is an
    index.  The cryptographic primitives, the clock, random numbers and the upcalls of the
    application are the class [World], or section variables in the files before it.

    ** The parts

    - Containers: Bitmap.v (Bitmap.h), HashMap.v (map.h, bhash.t, buckets.t), ResizeArray.v
      (Array.t), KMax.v (K_max.h), Support.v (Set.t, ITimer.cc), SeqLog.v (Log.t, checkpoint_log.cc), Regions.v (agreement_region.cc,
      checkpoint_region.cc).
    - Nodes and messages: Node.v (Node, Principal, hmac), Messages.v (Message, Prepare,
      Commit, Checkpoint, View_change_ack, Reply), PrePrepare.v (Request, Pre_prepare),
      ViewChange.v, NewView.v, Status.v, NewKey.v, StateMsgs.v (Fetch, Data, Meta_data,
      Meta_data_d), World.v (the environment of a node).
    - Collecting messages: Certificate.v (Certificate.t), PreparedCert.v, MetaDataCert.v,
      StableEstimator.v (with Query_stable and Reply_stable), ReqQueue.v, RepInfo.v.
    - The state of the service: Partition.v (Partition, dsum), State.v (memory, checkpoints
      and digests), StateFetch.v (the transfer), StaticRecords.v and RecordLog.v (the
      records of checkpoints in the static build, and their log).
    - View changes: NVInfo.v (NV_info) and ViewInfo.v (View_info).
    - The replica: ReplicaState.v (fields, interfaces of the parts), ReplicaStatus.v,
      ReplicaRecovery.v and Replica.v (Replica.cc), ViewParts.v (View_info as a part of
      the replica).
    - Files: Files.v (encode and decode of Bitmap, Message, Certificate, Prepared_cert and
      Pre_prepare_info), FileMsgs.v (the messages in them), FilesView.v, FilesState.v and
      FilesReplica.v (shutdown and restart of View_info, State and Replica).
    - The client: Client.v (Client.cc and the calls of libbyz.cc that a client makes).  Its
      replies are collected in the certificates of Certificate.v, and its requests are those
      of PrePrepare.v, built by ReplicaRecovery.v.

    Replica.v is proved against interfaces: [Parts] lists what a replica needs of the
    objects it owns without looking into them, [WindowLog] what it needs of the log of
    checkpoints, for which SeqLog.v gives both implementations of the code, and
    [WindowLogLaws] their laws; [ViewLaws] (ViewInv.v) is what the invariant of the replica
    needs of the view information.  [CertMsg] is what the template Certificate requires of a
    message, [TreeOk] what the state manager requires of the partition tree.

    ** The theorems

    - Agreement in a view: a complete certificate holds a quorum (Certificate.v,
      PreparedCert.v), and prepared certificates of two replicas agree (Quorum.v).
    - Agreement across views: what a view-change reports (ViewLog.v), what the check of a
      new view implies (NewViewSafety.v), and when a primary waits in vain
      (NewViewLiveness.v).  Group.v runs four replicas, as examples.
    - The replica: an invariant of every reachable state (ReplicaInv.v), with what it needs
      of the view information proved in ViewInv.v; the execution of
      batches refines a function of the replicated state, so that requests are executed
      at most once (ReplicaExec.v).
    - The state: StateInv.v (the tree follows the memory), StateInit.v (the first state),
      StateHist.v (a history of operations and the snapshots it took); StateProps.v
      concludes that checkpoints are snapshots, that rollback restores the last one, that
      digests are those computed from scratch, and that no operation stops.
    - The client: what it returns is certified (ClientProps.v); enough replies of correct
      replicas are returned, whatever the faulty ones send (ClientLive.v, on CertLive.v,
      which shows it of a certificate); every node accepts its requests (ClientRequest.v).
    - Data structures: refinements of finite maps (HashMapProps.v), of lists and of windows
      (ArrayProps.v, ReqQueue.v, SeqLog.v, Regions.v, StaticRecords.v, RecordLog.v), the k-th largest element (KMax.v), bitmaps, timers.
    - Round trips of the authenticated messages (Node.v, PrePrepare.v, ViewChange.v,
      RepInfo.v, Status.v, NewKey.v, StateErrors.v).
    - Loops end: Termination.v (the state manager, for any sequence of calls and messages)
      and PrePrepareWalk.v (the requests of a received batch), with the rules of Ends.v.
    - What a restart reads of what a shutdown has written: bitmaps and certificates
      (FilesProps.v), the information on view changes (FilesView.v), the state (FilesRound.v)
      and its tree, whatever the file holds (FilesTree.v), both run in FilesSample.v; and that
      the replica never restores any of it (FilesReplica.v).
    - Where the code does not do what it means to: ViewErrors.v, RecoveryErrors.v,
      StateErrors.v, and theorems in the files of the classes.

    ** Fuel

    A loop that counts towards a bound is a [for_each] over a list of numbers.  The others
    have fuel: [K_max] as many passes as the rank asks for (KMax.v); the walk over the
    requests of a pre-prepare the size of its request area (PrePrepare.v); [iter_get] the
    number of bits (Bitmap.v); [mark_stable], which calls [process_new_view] and is called
    by it through the view information, two more than there are replicas
    ([Replica.stable_fuel]); [commit_loop] the size of the log ([Replica.commit_fuel]); the
    loop that drops queued requests the length of the queue; the ascent of a fetch one more
    than its level, and the check of the state the number of blocks and partitions
    (StateFetch.v); the loops over a hash table its slots and pairs (HashMap.v); the records that a
    restart reads one more than the length of the file (FilesState.v), as each turn takes
    the four bytes of a size from it.  Termination.v,
    PrePrepareWalk.v, KMax.v, HashMapProps.v and StaticRecords.v show that the fuel is enough; the theorems about the others hold for every outcome.

    ** What is not modelled

    - Statistics, and the allocators: objects are values, and fresh storage counts as zero.
      Of the interface libbyz.cc, the buffers and the calls that only forward to the replica.
    - The parsing of the configuration file.  Of the files of a shutdown, errors in writing.
    - The code of mbedtls and its wrappers, sockets, clocks and signals.
    - The models of the classes that use [Map] and [Array] use finite maps and lists in their
      place, which HashMapProps.v and ArrayProps.v justify.  The hash function is a parameter
      there: the undefined shift in [PartKey::hash] is not visible.
    - Overflow of 64-bit sequence numbers and views, which count up from zero.
    - The state manager is not yet connected to the replica: in [Parts] it is abstract, and
      StateFetch.v collects the calls that it makes to the replica.
    - A digest that begins with a zero word counts as zero in the code
      ([Digest::is_zero]); the theorems about State exclude such digests. *)
From stdpp Require Export prelude.
#[global] Open Scope Z_scope.

(** ** Outcomes

    [th_assert] (src/src/th_assert.h) aborts the process, and so does [th_fail].
    A C++ step therefore either returns a value, stops on a failed assertion, or
    leaves the language's defined behaviour (a read outside an array, an
    over-wide shift).  [OutOfFuel] marks a loop that was cut by the fuel of the
    model; the termination theorems show with which fuel it cannot occur. *)
Inductive failure := AssertFail | Undefined | OutOfFuel.

Inductive outcome (A : Type) :=
| Ret (a : A)
| Err (e : failure).
Arguments Ret {A} _.
Arguments Err {A} _.

#[global] Instance failure_eq_dec : EqDecision failure.
Proof. solve_decision. Defined.
#[global] Instance outcome_eq_dec `{EqDecision A} : EqDecision (outcome A).
Proof. solve_decision. Defined.

#[global] Instance outcome_ret : MRet outcome := @Ret.
#[global] Instance outcome_bind : MBind outcome := λ A B f m,
  match m with Ret a => f a | Err e => Err e end.
#[global] Instance outcome_fmap : FMap outcome := λ A B f m,
  match m with Ret a => Ret (f a) | Err e => Err e end.

Definition th_assert (b : bool) : outcome unit :=
  if b then Ret tt else Err AssertFail.

Definition of_option {A} (e : failure) (o : option A) : outcome A :=
  match o with Some a => Ret a | None => Err e end.

Lemma outcome_bind_Ret {A B} (m : outcome A) (f : A → outcome B) b :
  (m ≫= f) = Ret b ↔ ∃ a, m = Ret a ∧ f a = Ret b.
Proof. destruct m as [a|e]; cbn; split; [eauto|by intros (? & [= ->] & ?)|done|by intros (? & ? & ?)]. Qed.

Lemma th_assert_Ret b u : th_assert b = Ret u ↔ b = true.
Proof. by destruct b, u. Qed.

Lemma of_option_Ret {A} e (o : option A) a : of_option e o = Ret a ↔ o = Some a.
Proof. destruct o; cbn; split; congruence. Qed.

(** Opens every bind of a successful computation in the context. *)
Ltac invert_outcome :=
  repeat match goal with
  | H : (_ ≫= _) = Ret _ |- _ =>
      apply outcome_bind_Ret in H; destruct H as (? & ? & ?)
  | H : th_assert _ = Ret _ |- _ => apply th_assert_Ret in H
  | H : of_option _ _ = Ret _ |- _ => apply of_option_Ret in H
  | H : Ret _ = Ret _ |- _ => injection H as H; subst
  | H : mret _ = Ret _ |- _ => injection H as H; subst
  | H : Err _ = Ret _ |- _ => discriminate H
  end.

(** ** Machine integers

    [Seqno], [View] and [Long] are 64-bit signed, [Request_id] 64-bit unsigned
    (src/src/types.h); conversions to [int] and [unsigned] wrap. *)
Definition wrapU (w z : Z) : Z := z `mod` 2 ^ w.
Definition wrapS (w z : Z) : Z := (z + 2 ^ (w - 1)) `mod` 2 ^ w - 2 ^ (w - 1).
Definition to_int (z : Z) : Z := wrapS 32 z.
Definition to_unsigned (z : Z) : Z := wrapU 32 z.
Definition to_u64 (z : Z) : Z := wrapU 64 z.
Definition INT_MAX : Z := 2 ^ 31 - 1.
Definition Long_max : Z := 2 ^ 63 - 1.
Definition Seqno_max : Z := Long_max.
Definition View_max : Z := Long_max.

Lemma to_int_small z : - 2 ^ 31 ≤ z < 2 ^ 31 → to_int z = z.
Proof.
  intros H. unfold to_int, wrapS. rewrite Z.mod_small; change (2 ^ 32) with (2 * 2 ^ 31);
    change (32 - 1) with 31; lia.
Qed.

(** Evaluates the comparisons that [lia] decides. *)
Ltac zbool :=
  repeat match goal with
  | |- context [?a <? ?b] =>
      first [rewrite (proj2 (Z.ltb_lt a b)) by lia | rewrite (proj2 (Z.ltb_ge a b)) by lia]
  | |- context [?a <=? ?b] =>
      first [rewrite (proj2 (Z.leb_le a b)) by lia | rewrite (proj2 (Z.leb_gt a b)) by lia]
  | |- context [?a =? ?b] =>
      first [rewrite (proj2 (Z.eqb_eq a b)) by lia | rewrite (proj2 (Z.eqb_neq a b)) by lia]
  end; cbn [andb orb negb].

(** Turns the boolean comparisons of the context into propositions. *)
Ltac zprop :=
  repeat match goal with
  | H : (_ && _)%bool = true |- _ => apply andb_true_iff in H; destruct H
  | H : (_ || _)%bool = false |- _ => apply orb_false_iff in H; destruct H
  | H : negb _ = true |- _ => apply negb_true_iff in H
  | H : negb _ = false |- _ => apply negb_false_iff in H
  | H : (_ <? _) = true |- _ => apply Z.ltb_lt in H
  | H : (_ <? _) = false |- _ => apply Z.ltb_ge in H
  | H : (_ <=? _) = true |- _ => apply Z.leb_le in H
  | H : (_ <=? _) = false |- _ => apply Z.leb_gt in H
  | H : (_ =? _) = true |- _ => apply Z.eqb_eq in H
  | H : (_ =? _) = false |- _ => apply Z.eqb_neq in H
  | H : (_ >? _) = _ |- _ => rewrite Z.gtb_ltb in H
  | H : (_ >=? _) = _ |- _ => rewrite Z.geb_leb in H
  | H : bool_decide _ = true |- _ => apply bool_decide_eq_true in H
  | H : bool_decide _ = false |- _ => apply bool_decide_eq_false in H
  end.

(** ** Arrays

    A C++ array is a list; an access outside of it has no value. *)
Definition zget {A} (l : list A) (i : Z) : option A :=
  if decide (0 ≤ i) then l !! Z.to_nat i else None.
Definition zset {A} (l : list A) (i : Z) (x : A) : list A :=
  if decide (0 ≤ i) then <[Z.to_nat i := x]> l else l.
Definition zlen {A} (l : list A) : Z := Z.of_nat (length l).

Section arrays.
Context {A : Type}.
Implicit Types l : list A.

Lemma zget_Some_lt l i x : zget l i = Some x → 0 ≤ i < zlen l.
Proof.
  unfold zget, zlen. case_decide; [|done]. intros ?%lookup_lt_Some. lia.
Qed.

Lemma zget_is_Some l i : is_Some (zget l i) ↔ 0 ≤ i < zlen l.
Proof.
  split; [intros [x ?]; by eapply zget_Some_lt|].
  unfold zget, zlen. intros ?. rewrite decide_True by lia.
  apply lookup_lt_is_Some. lia.
Qed.

Lemma zget_lookup l i : 0 ≤ i < zlen l → ∃ x, zget l i = Some x.
Proof. intros H. by apply zget_is_Some. Qed.

Lemma zlen_zset l i x : zlen (zset l i x) = zlen l.
Proof. unfold zlen, zset. case_decide; [by rewrite length_insert|done]. Qed.

Lemma zget_zset_eq l i x : 0 ≤ i < zlen l → zget (zset l i x) i = Some x.
Proof.
  unfold zget, zset, zlen. intros ?. rewrite !decide_True by lia.
  apply list_lookup_insert_eq. lia.
Qed.

Lemma zget_zset_ne l i j x : i ≠ j → zget (zset l i x) j = zget l j.
Proof.
  unfold zget, zset. intros ?. repeat case_decide; try done.
  apply list_lookup_insert_ne. lia.
Qed.

Lemma zget_zset l i j x :
  zget (zset l i x) j =
    if decide (i = j ∧ 0 ≤ i < zlen l) then Some x else zget l j.
Proof.
  case_decide as H; [destruct H as [-> ?]; by apply zget_zset_eq|].
  destruct (decide (i = j)) as [->|]; [|by apply zget_zset_ne].
  unfold zset, zget, zlen in *. case_decide; [|done].
  rewrite list_insert_ge; [done|lia].
Qed.

Lemma zget_replicate n (x : A) i : 0 ≤ i < Z.of_nat n → zget (replicate n x) i = Some x.
Proof.
  unfold zget. intros ?. rewrite decide_True by lia.
  apply lookup_replicate_2. lia.
Qed.

Lemma zlen_replicate n (x : A) : zlen (replicate n x) = Z.of_nat n.
Proof. unfold zlen. by rewrite length_replicate. Qed.

Lemma Forall_zget (P : A → Prop) l i x : Forall P l → zget l i = Some x → P x.
Proof. unfold zget. case_decide; [apply Forall_lookup_1|done]. Qed.

Lemma Forall_zset (P : A → Prop) l i x : Forall P l → P x → Forall P (zset l i x).
Proof. unfold zset. case_decide; [apply Forall_insert|done]. Qed.

Lemma zlen_nonneg l : 0 ≤ zlen l.
Proof. unfold zlen. lia. Qed.

Lemma zlen_app l1 l2 : zlen (l1 ++ l2) = zlen l1 + zlen l2.
Proof. unfold zlen. rewrite length_app. lia. Qed.

Lemma zget_app l1 l2 j : zget (l1 ++ l2) j = if decide (j < zlen l1) then zget l1 j else zget l2 (j - zlen l1).
Proof.
  unfold zget, zlen. repeat case_decide; try done; try lia.
  - by rewrite lookup_app_l by lia.
  - rewrite lookup_app_r by lia. f_equal. lia.
Qed.
End arrays.

(** A sequence of calls on an object, and what they return. *)
Fixpoint run_calls {S O R} (f : S → O → outcome (S * R)) (s : S) (ops : list O) : outcome (S * list R) :=
  match ops with
  | [] => Ret (s, [])
  | o :: ops => '(s, r) ← f s o; '(s, rs) ← run_calls f s ops; Ret (s, r :: rs)
  end.

(** The loops of the code count upwards. *)
Lemma seqZ_snoc m n : 0 ≤ n → seqZ m (Z.succ n) = seqZ m n ++ [m + n].
Proof.
  intros Hn. replace n with (Z.of_nat (Z.to_nat n)) by lia.
  rewrite <- Nat2Z.inj_succ, seqZ_S. done.
Qed.

Lemma list_filter_ext_in {A} (P1 P2 : A → Prop) `{∀ x, Decision (P1 x)} `{∀ x, Decision (P2 x)}
    (l : list A) :
  (∀ x, x ∈ l → P1 x ↔ P2 x) → filter P1 l = filter P2 l.
Proof.
  induction l as [|x l IH]; intros Heq; [done|]. rewrite !filter_cons.
  rewrite IH by (intros y Hy; apply Heq; by right).
  destruct (Heq x); [by left|]. repeat case_decide; tauto.
Qed.

(** ** Bits *)
Lemma lor_upper k a b : 0 ≤ k → 0 ≤ a < 2 ^ k → 0 ≤ b < 2 ^ k → 0 ≤ Z.lor a b < 2 ^ k.
Proof.
  intros Hk Ha Hb. assert (0 ≤ Z.lor a b) by (apply Z.lor_nonneg; lia).
  split; [done|]. destruct (decide (Z.lor a b = 0)) as [->|]; [lia|].
  apply Z.log2_lt_cancel. rewrite Z.log2_pow2 by done. rewrite Z.log2_lor by lia.
  assert (∀ x, 0 ≤ x < 2 ^ k → 0 < k → Z.log2 x < k) as Hlog.
  { intros x Hx ?. destruct (decide (x = 0)) as [->|]; [cbn; lia|].
    apply Z.log2_lt_pow2; lia. }
  destruct (decide (k = 0)) as [->|]; [|apply Z.max_lub_lt; apply Hlog; lia].
  assert (a = 0 ∧ b = 0) as [-> ->] by lia. done.
Qed.

Lemma lor_lower a b : 0 ≤ a → 0 ≤ b → a ≤ Z.lor a b.
Proof.
  intros Ha Hb. rewrite <- (Z.lor_diag a) at 1.
  assert (Z.lor a b = a + Z.ldiff b a) as ->.
  { rewrite Z.add_nocarry_lxor.
    - apply Z.bits_inj'. intros n Hn.
      rewrite Z.lor_spec, Z.lxor_spec, Z.ldiff_spec.
      destruct (Z.testbit a n), (Z.testbit b n); done.
    - apply Z.bits_inj'. intros n Hn.
      rewrite Z.land_spec, Z.ldiff_spec, Z.bits_0.
      destruct (Z.testbit a n), (Z.testbit b n); done. }
  rewrite Z.lor_diag. assert (0 ≤ Z.ldiff b a) by (apply Z.ldiff_nonneg; lia). lia.
Qed.

Lemma ones_testbit w n : 0 ≤ n < w → Z.testbit (Z.ones w) n = true.
Proof. intros ?. apply Z.ones_spec_low. lia. Qed.

Lemma one_shiftl_testbit p i : 0 ≤ p → 0 ≤ i → Z.testbit (Z.shiftl 1 p) i = bool_decide (i = p).
Proof.
  intros Hp Hi. rewrite Z.shiftl_1_l. case_bool_decide as E.
  - subst. by apply Z.pow2_bits_true.
  - apply Z.pow2_bits_false. congruence.
Qed.

Create HintDb tbft discriminated.
Create Rewrite HintDb tbft_rw.
#[export] Hint Resolve zget_zset_eq zget_zset_ne zlen_nonneg : tbft.
#[export] Hint Rewrite @zlen_zset @zlen_replicate : tbft_rw.
