(* ===== verification/Node.v ===== *)
(** * Node: configuration, principals, MACs and authenticators

    [Config] gathers the compile-time constants of src/src/parameters.h and the
    values that the constructor of [Node] reads from the configuration file
    (src/src/Node.cc).  Module [HmacModel] is src/src/hmac.{h,cc}: the digest
    itself (mbedtls) is the parameter [hmac_md].  Module [Auth] is the
    authenticator code of [Node] and [Principal].  Module [Rid] is the request
    identifier generator. *)
From S2P Require Import Prelude.

(** ** Configuration *)
Class Config := {
  max_out : Z;                (* parameters.h: WINDOW_SIZE *)
  checkpoint_interval : Z;    (* parameters.h: CHECKPOINT_INTERVAL *)
  Max_num_replicas : Z;       (* parameters.h: MAX_NUM_REPLICAS *)
  max_faulty : Z;             (* Node::max_faulty *)
  num_principals : Z;         (* Node::num_principals *)
  node_id : Z;                (* Node::node_id *)
}.

Definition num_replicas `{Config} : Z := 3 * max_faulty + 1.
Definition threshold `{Config} : Z := num_replicas - max_faulty.

(** What the constructor of [Node] and the static assertions establish. *)
Class ConfigOk `{Config} : Prop := {
  config_interval : 0 < checkpoint_interval < max_out;
  config_max_out : max_out < 2 ^ 20;
  config_faulty : 0 ≤ max_faulty;
  config_replicas : num_replicas ≤ Max_num_replicas;
  config_max_replicas : Max_num_replicas < 2 ^ 15;
  config_id : 0 ≤ node_id < num_principals;
  config_principals : num_replicas ≤ num_principals;
}.
Arguments ConfigOk {_}.

(** The defaults of parameters.h with [f] faults, seen from node [i]. *)
Definition default_config (f i : Z) : Config := {|
  max_out := 256; checkpoint_interval := 128; Max_num_replicas := 32;
  max_faulty := f; num_principals := 3 * f + 2; node_id := i |}.

Definition is_replica `{Config} (id : Z) : bool := (0 <=? id) && (id <? num_replicas).

Lemma default_config_ok : ConfigOk (H := default_config 1 0).
Proof. split; vm_compute; intuition congruence. Qed.

Lemma is_replica_spec `{Config} i : is_replica i = true ↔ 0 ≤ i < num_replicas.
Proof. unfold is_replica. rewrite andb_true_iff, Z.leb_le, Z.ltb_lt. done. Qed.

(** [Node::primary(View)]: the cached primary for the current view, and round
    robin for the other views ([%] truncates towards zero). *)
Definition primary `{Config} (v cur_primary vi : Z) : Z :=
  if decide (vi = v) then cur_primary else Z.rem vi num_replicas.

Definition HMAC_size : Z := 32.

Definition auth_size `{Config} (id : Z) : Z :=
  let id := if id <? 0 then node_id else id in
  (if id <? num_replicas then num_replicas - 1 else num_replicas) * HMAC_size.

(** ** HMAC objects (hmac.cc) *)
Module HmacModel.
Section hmac.
(** The digest computed by mbedtls: key and data to the code, as bytes. *)
Context (hmac_md : list Z → list Z → list Z).

Record Hmac := mkHmac { initialized_ : bool; key : list Z; data : list Z }.

Definition init : Hmac := mkHmac false [] [].
Definition is_initialized (h : Hmac) : bool := initialized_ h.
Definition replace_key (h : Hmac) (k : list Z) : Hmac := mkHmac true k [].
Definition update (h : Hmac) (str : list Z) : Hmac :=
  mkHmac (initialized_ h) (key h) (data h ++ str).
Definition sum (h : Hmac) : list Z := hmac_md (key h) (data h).
Definition reset (h : Hmac) : Hmac := mkHmac (initialized_ h) (key h) [].

(** The value of a byte read through [const char *]: [char] is signed on
    x86-64, and unsigned on the 32-bit ARM, RISC-V and Xtensa targets. *)
Definition char_val (char_signed : bool) (b : Z) : Z :=
  if char_signed && (128 <=? b) then b - 256 else b.

(** [Hmac::equal]: the characters are promoted to [int], the exclusive or is
    accumulated in a [uint32_t]. *)
Definition equal_diff (char_signed : bool) (mac1 mac2 : list Z) : Z :=
  foldl (λ diff '(a, b),
      Z.lor diff (wrapU 32 (Z.lxor (char_val char_signed a) (char_val char_signed b))))
    0 (zip mac1 mac2).

Definition equal (char_signed : bool) (mac1 mac2 : list Z) : bool :=
  let diff := equal_diff char_signed mac1 mac2 in
  negb (Z.shiftr (wrapU 32 (Z.lxor diff 0 - 1)) 31 =? 0).

Definition equals (char_signed : bool) (h : Hmac) (other_mac : list Z) : bool :=
  equal char_signed (sum h) other_mac.
End hmac.

Definition byte (b : Z) : Prop := 0 ≤ b < 256.

Definition bytes (l : list Z) : Prop := Forall byte l.

(** The top bit of a byte is the sign of the promoted character. *)
Definition top_bit (b : Z) : bool := 128 <=? b.

Lemma equal_diff_cases cs d :
  0 ≤ d < 128 + (if cs : bool then 0 else 128) ∨ (cs = true ∧ 2 ^ 32 - 128 ≤ d < 2 ^ 32) →
  negb (Z.shiftr (wrapU 32 (Z.lxor d 0 - 1)) 31 =? 0) = true ↔ d = 0 ∨ 2 ^ 32 - 128 ≤ d.
Proof.
  intros Hd. rewrite Z.lxor_0_r, negb_true_iff, Z.eqb_neq, Z.shiftr_div_pow2 by lia.
  unfold wrapU. destruct (decide (d = 0)) as [->|].
  - split; [by left|intros _]. vm_compute. done.
  - rewrite Z.mod_small by (destruct cs; lia).
    destruct Hd as [Hd|[-> Hd]].
    + split; [|destruct cs; lia]. intros []. apply Z.div_small. destruct cs; lia.
    + split; [by right; lia|]. intros _. 
      assert (1 ≤ (d - 1) `div` 2 ^ 31); [|lia]. apply Z.div_le_lower_bound; lia.
Qed.

Lemma char_xor_unsigned a b :
  byte a → byte b →
  0 ≤ wrapU 32 (Z.lxor (char_val false a) (char_val false b)) < 256 ∧
  (wrapU 32 (Z.lxor (char_val false a) (char_val false b)) = 0 ↔ a = b).
Proof.
  unfold byte, char_val. cbn [andb]. intros Ha Hb.
  assert (0 ≤ Z.lxor a b < 2 ^ 8) as Hx.
  { assert (0 ≤ Z.lxor a b) by (apply Z.lxor_nonneg; lia).
    pose proof (lor_upper 8 a b ltac:(lia) ltac:(lia) ltac:(lia)).
    assert (Z.lor a b = Z.lor (Z.lxor a b) (Z.land a b)) as E.
    { apply Z.bits_inj'. intros n _. rewrite !Z.lor_spec, Z.lxor_spec, Z.land_spec.
      by destruct (Z.testbit a n), (Z.testbit b n). }
    pose proof (lor_lower (Z.lxor a b) (Z.land a b) ltac:(lia)
      ltac:(apply Z.land_nonneg; lia)). lia. }
  change (2 ^ 8) with 256 in Hx. unfold wrapU.
  rewrite Z.mod_small by lia. split; [lia|]. apply Z.lxor_eq_0_iff.
Qed.

(** Flipping the sign of both characters or of one. *)
Lemma char_xor_signed a b :
  byte a → byte b →
  let x := wrapU 32 (Z.lxor (char_val true a) (char_val true b)) in
  if decide (top_bit a = top_bit b) then 0 ≤ x < 128 ∧ (x = 0 ↔ a = b)
  else 2 ^ 32 - 128 ≤ x < 2 ^ 32.
Proof.
  unfold byte. intros Ha Hb. cbn zeta.
  assert (∀ c, 0 ≤ c < 256 → Z.shiftr (char_val true c) 7 = if top_bit c then -1 else 0) as Hsh.
  { intros c Hc. unfold char_val, top_bit. cbn [andb]. rewrite Z.shiftr_div_pow2 by lia.
    change (2 ^ 7) with 128. destruct (128 <=? c) eqn:E; [apply Z.leb_le in E|apply Z.leb_gt in E].
    - symmetry. apply (Z.div_unique _ _ _ (c - 128)); lia.
    - apply Z.div_small. lia. }
  set (y := Z.lxor (char_val true a) (char_val true b)).
  assert (Z.shiftr y 7 = if decide (top_bit a = top_bit b) then 0 else -1) as Hy.
  { unfold y. rewrite Z.shiftr_lxor, !Hsh by done.
    by destruct (top_bit a), (top_bit b). }
  assert (y = 0 ↔ a = b) as Hy0.
  { unfold y. rewrite Z.lxor_eq_0_iff. unfold char_val. cbn [andb].
    destruct (128 <=? a) eqn:E1, (128 <=? b) eqn:E2;
      rewrite ?Z.leb_le, ?Z.leb_gt in *; lia. }
  rewrite Z.shiftr_div_pow2 in Hy by lia. change (2 ^ 7) with 128 in Hy.
  pose proof (Z.div_mod y 128 ltac:(lia)). pose proof (Z.mod_pos_bound y 128 ltac:(lia)).
  unfold wrapU. destruct (decide (top_bit a = top_bit b)).
  - rewrite Z.mod_small by lia. split; [lia|done].
  - assert (y `mod` 2 ^ 32 = y + 2 ^ 32) as ->; [|lia].
    symmetry. apply (Z.mod_unique _ _ (-1)); lia.
Qed.

Lemma equal_diff_app cs l1 l2 a b :
  length l1 = length l2 →
  equal_diff cs (l1 ++ [a]) (l2 ++ [b]) =
    Z.lor (equal_diff cs l1 l2) (wrapU 32 (Z.lxor (char_val cs a) (char_val cs b))).
Proof.
  intros Hl. unfold equal_diff. rewrite zip_with_app by done. cbn. by rewrite foldl_app.
Qed.

(** Simultaneous induction from the right on two codes of the same length. *)
Lemma rev_ind2 (P : list Z → list Z → Prop) :
  P [] [] → (∀ l1 l2 a b, length l1 = length l2 → P l1 l2 → P (l1 ++ [a]) (l2 ++ [b])) →
  ∀ l1 l2, length l1 = length l2 → P l1 l2.
Proof.
  intros H0 Hs l1. induction l1 as [|a l1 IH] using rev_ind; intros l2 Hl.
  - by destruct l2.
  - destruct l2 as [|b l2 _] using rev_ind; rewrite !length_app in Hl; cbn in Hl; [lia|].
    apply Hs; [lia|]. apply IH. lia.
Qed.

Lemma bytes_app l b : bytes (l ++ [b]) ↔ bytes l ∧ byte b.
Proof. unfold bytes. by rewrite Forall_app, Forall_singleton. Qed.

Lemma equal_diff_unsigned l1 l2 :
  length l1 = length l2 → bytes l1 → bytes l2 →
  0 ≤ equal_diff false l1 l2 < 256 ∧ (equal_diff false l1 l2 = 0 ↔ l1 = l2).
Proof.
  revert l1 l2. refine (rev_ind2 (λ l1 l2, bytes l1 → bytes l2 → _) _ _); [done|].
  intros l1 l2 a b Hl IH [H1 Ha]%bytes_app [H2 Hb]%bytes_app.
  rewrite equal_diff_app by done. specialize (IH H1 H2) as [Hr He].
  pose proof (char_xor_unsigned a b Ha Hb) as [Hr' He'].
  split; [apply (lor_upper 8); lia|].
  rewrite Z.lor_eq_0_iff, He, He'. split; [by intros [-> ->]|].
  intros [? ?]%app_inj_tail. done.
Qed.

Lemma equal_diff_signed l1 l2 :
  length l1 = length l2 → bytes l1 → bytes l2 →
  let d := equal_diff true l1 l2 in
  (Forall2 (λ a b, top_bit a = top_bit b) l1 l2 ∧ 0 ≤ d < 128 ∧ (d = 0 ↔ l1 = l2)) ∨
  (¬ Forall2 (λ a b, top_bit a = top_bit b) l1 l2 ∧ 2 ^ 32 - 128 ≤ d < 2 ^ 32).
Proof.
  revert l1 l2. refine (rev_ind2 (λ l1 l2, bytes l1 → bytes l2 → _) _ _).
  { intros _ _. left. repeat split; cbn; try lia. constructor. }
  intros l1 l2 a b Hl IH [H1 Ha]%bytes_app [H2 Hb]%bytes_app.
  cbn zeta in *. rewrite equal_diff_app by done. specialize (IH H1 H2).
  pose proof (char_xor_signed a b Ha Hb) as Hx. cbn zeta in Hx.
  set (x := wrapU 32 _) in *. set (d := equal_diff true l1 l2) in *.
  assert (Forall2 (λ a b, top_bit a = top_bit b) (l1 ++ [a]) (l2 ++ [b]) ↔
    Forall2 (λ a b, top_bit a = top_bit b) l1 l2 ∧ top_bit a = top_bit b) as HF.
  { split; [|intros [? ?]; apply Forall2_app; auto].
    intros HF. apply Forall2_app_inv in HF as [? Hab]; [|done].
    by apply Forall2_cons in Hab as [? _]. }
  rewrite HF.
  assert (0 ≤ x < 2 ^ 32 ∧ 0 ≤ d < 2 ^ 32) as [Hx32 Hd32].
  { destruct (decide _) in Hx; lia. }
  pose proof (lor_upper 32 d x ltac:(lia) Hd32 Hx32) as Hup.
  destruct (decide (top_bit a = top_bit b)) as [Ht|Ht]; destruct IH as [(HFl & Hd & He)|[HFl Hd]].
  - left. destruct Hx as [Hx Hx0]. split; [done|].
    split; [apply (lor_upper 7); lia|]. rewrite Z.lor_eq_0_iff, He, Hx0.
    split; [by intros [<- <-]|]. intros [? ?]%app_inj_tail. done.
  - right. split; [tauto|]. pose proof (lor_lower d x). lia.
  - right. split; [tauto|]. rewrite Z.lor_comm in *. pose proof (lor_lower x d). lia.
  - right. split; [tauto|]. rewrite Z.lor_comm in *. pose proof (lor_lower x d). lia.
Qed.

Lemma equal_unsigned l1 l2 :
  length l1 = length l2 → bytes l1 → bytes l2 → equal false l1 l2 = true ↔ l1 = l2.
Proof.
  intros Hl H1 H2. destruct (equal_diff_unsigned l1 l2 Hl H1 H2) as [Hr He].
  unfold equal. rewrite (equal_diff_cases false) by (left; cbn; lia).
  rewrite He. split; [intros [?|?]; [done|lia]|by left].
Qed.

Lemma equal_signed l1 l2 :
  length l1 = length l2 → bytes l1 → bytes l2 →
  equal true l1 l2 = true ↔ l1 = l2 ∨ ¬ Forall2 (λ a b, top_bit a = top_bit b) l1 l2.
Proof.
  intros Hl H1 H2. pose proof (equal_diff_signed l1 l2 Hl H1 H2) as Hd. cbn zeta in Hd.
  unfold equal. rewrite (equal_diff_cases true) by (destruct Hd as [(_ & ? & _)|[_ ?]]; [left; cbn; lia|right; split; [done|lia]]).
  destruct Hd as [(Hf & ? & He)|[Hf ?]]; [|tauto].
  rewrite <- He. split; [intros [?|?]; [by left|lia]|intros [?|?]; [by left|done]].
Qed.

Lemma top_bit_differs a b : top_bit a ≠ top_bit b ↔ a < 128 ≤ b ∨ b < 128 ≤ a.
Proof.
  unfold top_bit. destruct (128 <=? a) eqn:E1, (128 <=? b) eqn:E2;
    rewrite ?Z.leb_le, ?Z.leb_gt in *; split; (done || lia).
Qed.

Lemma not_same_top_bits l1 l2 :
  length l1 = length l2 →
  ¬ Forall2 (λ a b, top_bit a = top_bit b) l1 l2 ↔
  ∃ i a b, l1 !! i = Some a ∧ l2 !! i = Some b ∧ (a < 128 ≤ b ∨ b < 128 ≤ a).
Proof.
  intros Hl. split.
  - revert l2 Hl. induction l1 as [|x l1 IH]; intros [|y l2] Hl Hn; try done.
    { destruct Hn. constructor. }
    injection Hl as Hl.
    destruct (decide (top_bit x = top_bit y)) as [Ht|Ht];
      [|apply top_bit_differs in Ht; by exists O, x, y].
    destruct (IH l2 Hl) as (i & a & b & ?); [|by exists (S i), a, b].
    intros HF. apply Hn. by constructor.
  - intros (i & a & b & Ha & Hb & Hab%top_bit_differs) HF. apply Hab.
    exact (Forall2_lookup_lr _ _ _ _ _ _ HF Ha Hb).
Qed.

Lemma equal_refl cs l : bytes l → equal cs l l = true.
Proof. intros Hl. destruct cs; [apply equal_signed|apply equal_unsigned]; auto. Qed.

End HmacModel.

(** ** Principals and authenticators (Principal.cc, Node.cc) *)
Module Auth.
Import HmacModel.

Record Principal := mkPrincipal {
  pid : Z;
  tstamp : Z;            (* last timestamp in a new-key message *)
  my_tstamp : Z;         (* local time when it was accepted *)
  last_fetch : Z;        (* last request id in a fetch message *)
  hmac_in : Hmac;
  hmac_out : Hmac;
}.

Definition zero_key : list Z := replicate (Z.to_nat 32) 0.

Definition new_principal (i : Z) : Principal :=
  mkPrincipal i 0 0 0 init (replace_key init zero_key).

Definition set_in_key (p : Principal) (k : list Z) : Principal :=
  mkPrincipal (pid p) (tstamp p) (my_tstamp p) (last_fetch p)
    (replace_key (hmac_in p) k) (hmac_out p).

(** Keys of an old new-key message are not installed. *)
Definition set_out_key (p : Principal) (k : list Z) (t now : Z) : Principal :=
  if decide (t > tstamp p) then
    mkPrincipal (pid p) t now (last_fetch p) (hmac_in p) (replace_key (hmac_out p) k)
  else p.

Definition last_tstamp (p : Principal) : Z := tstamp p.

Definition is_stale (p : Principal) (tv : Z) : bool := bool_decide (tv < my_tstamp p).

Definition last_fetch_rid (p : Principal) : Z := last_fetch p.

Definition set_last_fetch_rid (p : Principal) (r : Z) : Principal :=
  mkPrincipal (pid p) (tstamp p) (my_tstamp p) r (hmac_in p) (hmac_out p).

Section auth.
Context (hmac_md : list Z → list Z → list Z).
Context (char_signed : bool).

(** The result and the HMAC object after the call. *)
Definition verify_mac (src mac : list Z) (hmac : Hmac) : bool * Hmac :=
  if is_initialized hmac then
    let hmac := update (reset hmac) src in
    (equals hmac_md char_signed hmac mac, hmac)
  else (false, hmac).

Definition gen_mac (src : list Z) (hmac : Hmac) : list Z * Hmac :=
  let hmac := update (reset hmac) src in (sum hmac_md hmac, hmac).

Definition gen_mac_in (p : Principal) (src : list Z) : list Z := (gen_mac src (hmac_in p)).1.
Definition gen_mac_out (p : Principal) (src : list Z) : list Z := (gen_mac src (hmac_out p)).1.
Definition verify_mac_in (p : Principal) (src mac : list Z) : bool := (verify_mac src mac (hmac_in p)).1.
Definition verify_mac_out (p : Principal) (src mac : list Z) : bool := (verify_mac src mac (hmac_out p)).1.

Section node.
Context `{Config}.

Definition i_to_p (principals : list Principal) (id : Z) : option Principal :=
  if (id <? 0) || (num_principals <=? id) then None else zget principals id.

(** The loop over the replicas: one code for each but the node itself. *)
Definition gen_auth (principals : list Principal) (s : list Z) (in_ : bool) : outcome (list Z) :=
  foldl (λ dest i,
      dest ← dest;
      if decide (i = node_id) then Ret dest
      else p ← of_option Undefined (zget principals i);
           Ret (dest ++ (if in_ then gen_mac_in p s else gen_mac_out p s)))
    (Ret []) (seqZ 0 num_replicas).

(** The position of the code meant for this node in an authenticator of [i]. *)
Definition auth_offset (i : Z) : Z :=
  let offset := node_id * HMAC_size in
  if node_id >? i then offset - HMAC_size else offset.

Definition verify_auth (principals : list Principal) (i : Z) (s : list Z) (in_ : bool)
    (dest : list Z) : outcome bool :=
  _ ← th_assert (node_id <? num_replicas);
  match i_to_p principals i with
  | Some p =>
      if decide (i = node_id) then Ret false
      else
        let mac := take (Z.to_nat HMAC_size) (drop (Z.to_nat (auth_offset i)) dest) in
        let h := if in_ then hmac_in p else hmac_out p in
        (* a code that lies outside of the authenticator is read only with a key *)
        if is_initialized h && (zlen mac <? HMAC_size) then Err Undefined
        else Ret (if in_ then verify_mac_in p s mac else verify_mac_out p s mac)
  | None => Ret false
  end.
End node.
End auth.

Arguments gen_mac_in : simpl never.
Arguments gen_mac_out : simpl never.

(** *** The layout of an authenticator *)
Section layout.
Context (hmac_md : list Z → list Z → list Z).
Context (hmac_md_length : ∀ k d, length (hmac_md k d) = Z.to_nat HMAC_size).
Context `{Config}.

(** What [gen_auth] writes for the replicas of [ids]. *)
Definition macs (principals : list Principal) (s : list Z) (in_ : bool) (ids : list Z) : list Z :=
  ids ≫= λ i,
    if decide (i = node_id) then [] else
    match zget principals i with
    | Some p => if in_ then gen_mac_in hmac_md p s else gen_mac_out hmac_md p s
    | None => []
    end.

Lemma gen_mac_length s h : length ((gen_mac hmac_md s h).1) = Z.to_nat HMAC_size.
Proof. apply hmac_md_length. Qed.

Lemma gen_auth_macs ps s in_ :
  num_replicas ≤ zlen ps → gen_auth hmac_md ps s in_ = Ret (macs ps s in_ (seqZ 0 num_replicas)).
Proof.
  intros Hps. unfold gen_auth.
  assert (∀ ids acc, Forall (λ i, 0 ≤ i < zlen ps) ids →
    foldl (λ dest i, dest ← dest;
      if decide (i = node_id) then Ret dest
      else p ← of_option Undefined (zget ps i);
           Ret (dest ++ (if in_ then gen_mac_in hmac_md p s else gen_mac_out hmac_md p s)))
      (Ret acc) ids = Ret (acc ++ macs ps s in_ ids)) as Hl.
  { intros ids. induction ids as [|i ids IH]; intros acc Hf; cbn.
    { by rewrite app_nil_r. }
    inversion_clear Hf as [|? ? Hi Hf']. case_decide; cbn; [by rewrite IH|].
    destruct (zget_lookup ps i Hi) as [p ->]. cbn. by rewrite IH, <- app_assoc. }
  rewrite Hl; [done|]. apply Forall_forall. intros i Hi%elem_of_seqZ. lia.
Qed.

(** The codes before the one for replica [q]. *)
Lemma macs_length ps s in_ q :
  0 ≤ q ≤ zlen ps →
  length (macs ps s in_ (seqZ 0 q)) =
    Z.to_nat ((q - (if decide (0 ≤ node_id < q) then 1 else 0)) * HMAC_size).
Proof.
  intros [Hq0 Hq]. revert Hq. pattern q. apply natlike_ind; [|clear q Hq0; intros q Hq0 IH Hq|done].
  { intros _. case_decide; [lia|]. reflexivity. }
  rewrite seqZ_snoc by done. unfold macs in *. rewrite bind_app, length_app, IH by lia. cbn.
  rewrite app_nil_r. destruct (zget_lookup ps (0 + q)) as [p ->]; [lia|].
  unfold HMAC_size. destruct (decide (0 + q = node_id)).
  - cbn. repeat case_decide; lia.
  - assert (length (if in_ then gen_mac_in hmac_md p s else gen_mac_out hmac_md p s) = 32%nat) as ->
      by (destruct in_; apply hmac_md_length).
    repeat case_decide; lia.
Qed.

Lemma macs_app ps s in_ l1 l2 : macs ps s in_ (l1 ++ l2) = macs ps s in_ l1 ++ macs ps s in_ l2.
Proof. apply bind_app. Qed.

(** The code for replica [q] is at [auth_offset] computed by [q]. *)
Lemma macs_slot ps s in_ q p n :
  0 ≤ q < n → n ≤ zlen ps → q ≠ node_id → zget ps q = Some p → 0 ≤ node_id →
  take (Z.to_nat HMAC_size)
    (drop (Z.to_nat (q * HMAC_size - if node_id <? q then HMAC_size else 0))
       (macs ps s in_ (seqZ 0 n))) =
  (if in_ then gen_mac_in hmac_md p s else gen_mac_out hmac_md p s).
Proof.
  intros Hq Hn Hne Hp Hid.
  replace n with (q + (1 + (n - q - 1))) by lia.
  rewrite (seqZ_app _ q) by lia. rewrite (seqZ_app _ 1) by lia.
  rewrite !macs_app. rewrite drop_app_length'; cycle 1.
  { rewrite macs_length by lia. f_equal. unfold HMAC_size.
    destruct (node_id <? q) eqn:E; rewrite ?Z.ltb_lt, ?Z.ltb_ge in E; case_decide; lia. }
  replace (seqZ (0 + q) 1) with [q] by (rewrite seqZ_cons, seqZ_nil by lia; f_equal; lia).
  unfold macs at 1. cbn. rewrite decide_False by done. rewrite Hp, app_nil_r.
  apply take_app_length'. destruct in_; symmetry; apply hmac_md_length.
Qed.

Lemma macs_total ps s in_ :
  0 ≤ node_id → 0 ≤ num_replicas ≤ zlen ps →
  zlen (macs ps s in_ (seqZ 0 num_replicas)) = auth_size node_id.
Proof.
  intros Hid Hn. unfold zlen, auth_size. rewrite macs_length by lia.
  unfold HMAC_size. rewrite (proj2 (Z.ltb_ge node_id 0)) by lia.
  case_decide; destruct (node_id <? num_replicas) eqn:E;
    rewrite ?Z.ltb_lt, ?Z.ltb_ge in E; lia.
Qed.
End layout.

(** Two nodes of the same group. *)
Definition same_group (c1 c2 : Config) : Prop :=
  @max_faulty c1 = @max_faulty c2 ∧ @num_principals c1 = @num_principals c2.

Section pair.
Context (hmac_md : list Z → list Z → list Z).
Context (hmac_md_length : ∀ k d, length (hmac_md k d) = Z.to_nat HMAC_size).
Context (hmac_md_bytes : ∀ k d, bytes (hmac_md k d)).

Lemma verify_auth_gen (cs : bool) (c1 c2 : Config) ps1 ps2 p1 p2 s s' :
  ConfigOk (H := c1) → ConfigOk (H := c2) → same_group c1 c2 →
  @node_id c1 ≠ @node_id c2 → @node_id c2 < @num_replicas c2 →
  zlen ps1 = @num_principals c1 → zlen ps2 = @num_principals c2 →
  zget ps1 (@node_id c2) = Some p1 → zget ps2 (@node_id c1) = Some p2 →
  initialized_ (hmac_in p2) = true → key (hmac_in p2) = key (hmac_out p1) →
  ∃ a, gen_auth (H := c1) hmac_md ps1 s false = Ret a ∧
    zlen a = @auth_size c1 (@node_id c1) ∧
    verify_auth (H := c2) hmac_md cs ps2 (@node_id c1) s' true a =
      Ret (equal cs (hmac_md (key (hmac_in p2)) s') (hmac_md (key (hmac_in p2)) s)).
Proof.
  intros Hok1 Hok2 [Hf Hnp] Hne Hrep Hl1 Hl2 Hp1 Hp2 Hinit Hkey.
  pose proof (@config_principals c1 Hok1). pose proof (@config_principals c2 Hok2).
  pose proof (@config_id c1 Hok1). pose proof (@config_id c2 Hok2).
  assert (@num_replicas c1 = @num_replicas c2) as Hn by (unfold num_replicas; lia).
  assert (0 ≤ @num_replicas c1) by (pose proof (@config_faulty c1 Hok1); unfold num_replicas; lia).
  eexists. split_and!; [apply gen_auth_macs; lia|apply macs_total; [done|lia..]|].
  unfold verify_auth, i_to_p. zbool. cbn [th_assert mbind outcome_bind].
  rewrite Hp2, decide_False by done.
  assert (auth_offset (H := c2) (@node_id c1) =
    @node_id c2 * HMAC_size - if @node_id c1 <? @node_id c2 then HMAC_size else 0) as ->.
  { unfold auth_offset, HMAC_size. rewrite Z.gtb_ltb. destruct (_ <? _); lia. }
  rewrite (macs_slot hmac_md hmac_md_length ps1 s false (@node_id c2) p1) by (done || lia).
  unfold zlen, gen_mac_out, gen_mac. cbn [fst]. unfold sum at 1. rewrite hmac_md_length.
  unfold is_initialized. rewrite Hinit. cbn [Z.ltb andb].
  unfold verify_mac_in, verify_mac, is_initialized. rewrite Hinit. cbn.
  unfold equals, sum. cbn. by rewrite Hkey.
Qed.

(** C25: an authenticator that one node generates with its out-keys has the size
    [auth_size], and is accepted by every other replica that holds the matching
    in-key; with an unsigned [char] a replica accepts it for a message only if
    that message has the same code under the shared key. *)
Theorem auth_round_trip (cs : bool) (c1 c2 : Config) ps1 ps2 p1 p2 s :
  ConfigOk (H := c1) → ConfigOk (H := c2) → same_group c1 c2 →
  @node_id c1 ≠ @node_id c2 → @node_id c2 < @num_replicas c2 →
  zlen ps1 = @num_principals c1 → zlen ps2 = @num_principals c2 →
  zget ps1 (@node_id c2) = Some p1 → zget ps2 (@node_id c1) = Some p2 →
  initialized_ (hmac_in p2) = true → key (hmac_in p2) = key (hmac_out p1) →
  ∃ a, gen_auth (H := c1) hmac_md ps1 s false = Ret a ∧
    zlen a = @auth_size c1 (@node_id c1) ∧
    verify_auth (H := c2) hmac_md cs ps2 (@node_id c1) s true a = Ret true ∧
    (cs = false → ∀ s',
       verify_auth (H := c2) hmac_md cs ps2 (@node_id c1) s' true a = Ret true →
       hmac_md (key (hmac_in p2)) s' = hmac_md (key (hmac_in p2)) s).
Proof.
  intros Hok1 Hok2 Hg Hne Hrep Hl1 Hl2 Hp1 Hp2 Hinit Hkey.
  destruct (verify_auth_gen cs c1 c2 ps1 ps2 p1 p2 s s) as (a & Ha & Hsz & Hv); try done.
  exists a. rewrite Hv, equal_refl by apply hmac_md_bytes. split_and!; [done..|].
  intros -> s' Hs'.
  destruct (verify_auth_gen false c1 c2 ps1 ps2 p1 p2 s s') as (a' & Ha' & _ & Hv'); try done.
  rewrite Ha in Ha'. injection Ha' as <-. rewrite Hv' in Hs'. injection Hs' as Hs'.
  apply equal_unsigned in Hs'; [done| |apply hmac_md_bytes..].
  by rewrite !hmac_md_length.
Qed.
End pair.

(** A digest to evaluate the functions with. *)
Definition sample_md (k d : list Z) : list Z :=
  replicate 32 ((foldr Z.add 0 k + foldr Z.add 0 d) `mod` 256).

Definition sample_principals : list Principal :=
  (λ i, set_out_key (set_in_key (new_principal i) [1; 2]) [1; 2] 1 1) <$> seqZ 0 5.

Lemma auth_round_trip_witness :
  ∃ a, gen_auth (H := default_config 1 0) sample_md sample_principals [7; 9] false = Ret a ∧
    zlen a = 96 ∧
    verify_auth (H := default_config 1 2) sample_md false sample_principals 0 [7; 9] true a = Ret true ∧
    (false = false → ∀ s',
       verify_auth (H := default_config 1 2) sample_md false sample_principals 0 s' true a = Ret true →
       sample_md [1; 2] s' = sample_md [1; 2] [7; 9]).
Proof.
  refine (auth_round_trip sample_md _ _ false (default_config 1 0) (default_config 1 2)
    sample_principals sample_principals
    (mkPrincipal 2 1 1 0 (mkHmac true [1; 2] []) (mkHmac true [1; 2] []))
    (mkPrincipal 0 1 1 0 (mkHmac true [1; 2] []) (mkHmac true [1; 2] [])) [7; 9]
    _ _ _ _ _ _ _ _ _ _ _).
  - reflexivity.
  - intros k d. apply Forall_replicate. apply Z.mod_pos_bound. lia.
  - apply default_config_ok.
  - split; vm_compute; intuition congruence.
  - split; reflexivity.
  - discriminate.
  - reflexivity.
  - reflexivity.
  - reflexivity.
  - reflexivity.
  - reflexivity.
  - reflexivity.
  - reflexivity.
Defined.

(** [Hmac::equal], through which every authenticator is checked, compares
    codes exactly when [char] is unsigned; when [char] is signed it accepts, besides
    equal codes, every pair that differs in the top bit of some byte. *)
Theorem hmac_equal_spec (char_signed : bool) (mac1 mac2 : list Z) :
  length mac1 = length mac2 → bytes mac1 → bytes mac2 →
  equal char_signed mac1 mac2 = true ↔
    mac1 = mac2 ∨
    (char_signed = true ∧ ∃ i a b, mac1 !! i = Some a ∧ mac2 !! i = Some b ∧
       (a < 128 ≤ b ∨ b < 128 ≤ a)).
Proof.
  intros Hl H1 H2. destruct char_signed.
  - rewrite equal_signed, not_same_top_bits by done. f_equiv.
    split; [by split|by intros [_ ?]].
  - rewrite equal_unsigned by done. split; [by left|by intros [?|[? _]]].
Qed.

Lemma hmac_equal_spec_witness :
  equal true [1; 200; 3] [9; 7; 3] = true ∧ equal false [1; 200; 3] [9; 7; 3] = false ∧
  [1; 200; 3] ≠ [9; 7; 3].
Proof.
  split_and!; [|vm_compute; reflexivity|discriminate].
  apply (hmac_equal_spec true [1; 200; 3] [9; 7; 3] eq_refl).
  - repeat constructor; lia.
  - repeat constructor; lia.
  - right. split; [done|]. exists 1%nat, 200, 7. split_and!; [reflexivity|reflexivity|lia].
Defined.
End Auth.

(** ** Request identifiers (Node.cc) *)
Module Rid.
(** [new_tstamp] with the seconds and the upper bound it asserts. *)
Definition new_tstamp (tv_sec : Z) : outcome Z :=
  _ ← th_assert (tv_sec <=? INT_MAX);
  Ret (to_u64 (Z.shiftl tv_sec 32)).

(** [new_rid] returns the identifier, which is also the new [cur_rid]. *)
Definition new_rid (cur_rid tv_sec : Z) : outcome Z :=
  r ← (if decide (to_unsigned cur_rid = 2 ^ 32 - 1) then new_tstamp tv_sec else Ret cur_rid);
  Ret (to_u64 (r + 1)).

(** The identifiers of successive calls, each with the clock it reads. *)
Fixpoint new_rids (cur_rid : Z) (clock : list Z) : outcome (list Z) :=
  match clock with
  | [] => Ret []
  | t :: clock => r ← new_rid cur_rid t; rs ← new_rids r clock; Ret (r :: rs)
  end.

(** Identifiers issued in the second [t0] or later, by a clock that has advanced
    when the 2^32 identifiers of a second are used up. *)
Lemma new_rid_increases cur t :
  0 ≤ cur < 2 ^ 63 → 0 ≤ t ≤ INT_MAX →
  (to_unsigned cur = 2 ^ 32 - 1 → cur `div` 2 ^ 32 < t) →
  ∃ r, new_rid cur t = Ret r ∧ cur < r < 2 ^ 63 ∧ r `div` 2 ^ 32 ≤ Z.max t (cur `div` 2 ^ 32).
Proof.
  intros Hc Ht Hadv. unfold new_rid, to_u64, to_unsigned, wrapU, INT_MAX in *.
  pose proof (Z.div_mod cur (2 ^ 32) ltac:(lia)) as Hdm.
  pose proof (Z.mod_pos_bound cur (2 ^ 32) ltac:(lia)) as Hmb.
  case_decide as Hd.
  - specialize (Hadv Hd). unfold new_tstamp, INT_MAX, to_u64, wrapU. zbool. cbn.
    rewrite Z.shiftl_mul_pow2 by lia. eexists; split; [done|].
    rewrite (Z.mod_small (t * _)), Z.mod_small by lia. split; [lia|].
    assert ((t * 2 ^ 32 + 1) `div` 2 ^ 32 = t) as ->; [|lia].
    symmetry. apply (Z.div_unique _ _ _ 1); lia.
  - cbn. eexists; split; [done|]. assert (cur `mod` 2 ^ 32 + 1 < 2 ^ 32) by lia.
    assert (cur `div` 2 ^ 32 < 2 ^ 31) by (apply Z.div_lt_upper_bound; lia).
    rewrite Z.mod_small by lia. split; [lia|].
    assert ((cur + 1) `div` 2 ^ 32 = cur `div` 2 ^ 32) as ->; [|lia].
    symmetry. apply (Z.div_unique _ _ _ (cur `mod` 2 ^ 32 + 1)); lia.
Qed.
End Rid.
