(* ===== verification/Bitmap.v ===== *)
(** * Bitmap: arrays of booleans packed in 64-bit chunks (src/src/Bitmap.h)

    A chunk is an [unsigned long], an integer in [[0, 2^64)]; [Uint] is 32 bits
    wide.  [bits] is the abstract value of a bitmap, the list of its [num]
    booleans, and the theorems relate every operation to it. *)
From S2P Require Import Prelude.

Module BM.

Definition ChunkBits : Z := 64.

Record Bitmap := mkBitmap { num : Z; chunks : list Z; nc : Z }.

Definition all_ones : Z := Z.ones 64.

(** [~x] on a chunk. *)
Definition chunk_not (x : Z) : Z := Z.lxor x all_ones.

Definition make (sz : Z) (value : bool) : Bitmap :=
  let n := (sz + ChunkBits - 1) `div` ChunkBits in
  mkBitmap sz (replicate (Z.to_nat n) (if value then all_ones else 0)) n.

(** [operator=] copies the size and the chunks. *)
Definition copy_assign (this other : Bitmap) : Bitmap :=
  mkBitmap (num other) (chunks other) (nc other).

Definition bitSelector (i : Z) : Z := Z.shiftl 1 (i `mod` ChunkBits).
Definition valBitSelector (i : Z) (val : bool) : Z :=
  Z.shiftl (if val then 1 else 0) (i `mod` ChunkBits).

Definition clear (b : Bitmap) : Bitmap := mkBitmap (num b) (replicate (Z.to_nat (nc b)) 0) (nc b).
Definition setAll (b : Bitmap) : Bitmap :=
  mkBitmap (num b) (replicate (Z.to_nat (nc b)) all_ones) (nc b).

Definition with_chunk (b : Bitmap) (i : Z) (f : Z → Z) : outcome Bitmap :=
  _ ← th_assert (i <? num b);
  c ← of_option Undefined (zget (chunks b) (i `div` ChunkBits));
  Ret (mkBitmap (num b) (zset (chunks b) (i `div` ChunkBits) (f c)) (nc b)).

Definition test (b : Bitmap) (i : Z) : outcome bool :=
  _ ← th_assert (i <? num b);
  c ← of_option Undefined (zget (chunks b) (i `div` ChunkBits));
  Ret (negb (Z.land c (bitSelector i) =? 0)).

(** [int Bitmap::size() const] *)
Definition size (b : Bitmap) : Z := to_int (num b).

Definition set (b : Bitmap) (i : Z) : outcome Bitmap :=
  with_chunk b i (λ c, Z.lor c (bitSelector i)).

Definition assign (b : Bitmap) (i : Z) (val : bool) : outcome Bitmap :=
  with_chunk b i (λ c, Z.lor (Z.land c (chunk_not (bitSelector i))) (valBitSelector i val)).

Definition reset (b : Bitmap) (i : Z) : outcome Bitmap :=
  with_chunk b i (λ c, Z.land c (chunk_not (bitSelector i))).

(** [for (i = min; i < max; i++) f(i)] *)
Definition range_loop (f : Bitmap → Z → outcome Bitmap) (b : Bitmap) (min max : Z) : outcome Bitmap :=
  foldl (λ b i, b ← b; f b i) (Ret b) (seqZ min (max - min)).

Definition setRange (b : Bitmap) (min max : Z) : outcome Bitmap :=
  _ ← th_assert ((min <? num b) && (max <? num b));
  range_loop set b min max.

Definition resetRange (b : Bitmap) (min max : Z) : outcome Bitmap :=
  _ ← th_assert ((min <? num b) && (max <? num b));
  range_loop reset b min max.

Definition total_set (b : Bitmap) : outcome Z :=
  foldl (λ r i, r ← r; t ← test b i; Ret (if t : bool then r + 1 else r))
    (Ret 0) (seqZ 0 (size b)).

Definition operator_eq (b other : Bitmap) : bool :=
  if negb (num b =? num other) then false
  else forallb (λ i, bool_decide (zget (chunks b) i = zget (chunks other) i)) (seqZ 0 (nc b)).

Definition all_zero (b : Bitmap) : bool :=
  forallb (λ i, bool_decide (zget (chunks b) i = Some 0)) (seqZ 0 (nc b)).

(** The iterator: the searched value, the next index, and the chunk to skip. *)
Record Iter := mkIter { value : bool; index : Z; ignoreValue : Z }.

Definition make_iter (v : bool) : Iter := mkIter v 0 (if v then 0 else all_ones).

(** [Iter::get]; the answer [None] is the return value [false]. *)
Fixpoint iter_get (fuel : nat) (b : Bitmap) (it : Iter) : outcome (option Z * Iter) :=
  match fuel with
  | O => Err OutOfFuel
  | S fuel =>
      if index it <? num b then
        c ← of_option Undefined (zget (chunks b) (index it `div` ChunkBits));
        if decide (c = ignoreValue it) then
          iter_get fuel b (mkIter (value it) (to_unsigned (index it + ChunkBits)) (ignoreValue it))
        else
          this_value ← test b (index it);
          let next := mkIter (value it) (index it + 1) (ignoreValue it) in
          if eqb this_value (value it) then Ret (Some (index it), next)
          else iter_get fuel b next
      else Ret (None, it)
  end.

(** [while (it.get(i)) ...]: the indices an iterator yields. *)
Fixpoint iter_all (fuel : nat) (b : Bitmap) (it : Iter) : outcome (list Z) :=
  match fuel with
  | O => Err OutOfFuel
  | S fuel =>
      r ← iter_get (S (Z.to_nat (num b))) b it;
      match r with
      | (Some i, it) => l ← iter_all fuel b it; Ret (i :: l)
      | (None, _) => Ret []
      end
  end.

(** ** Character bitmaps: [Bits_set], [Bits_reset], [Bits_test] *)
Definition byte_bits : Z := 8.
Definition bits_upd (bmap : list Z) (i : Z) (f : Z → Z) : outcome (list Z) :=
  c ← of_option Undefined (zget bmap (i `div` byte_bits));
  Ret (zset bmap (i `div` byte_bits) (wrapU 8 (f c))).
Definition Bits_set (bmap : list Z) (i : Z) : outcome (list Z) :=
  bits_upd bmap i (λ c, Z.lor c (Z.shiftl 1 (i `mod` byte_bits))).
Definition Bits_reset (bmap : list Z) (i : Z) : outcome (list Z) :=
  bits_upd bmap i (λ c, Z.land c (Z.lnot (Z.shiftl 1 (i `mod` byte_bits)))).
Definition Bits_test (bmap : list Z) (i : Z) : outcome bool :=
  c ← of_option Undefined (zget bmap (i `div` byte_bits));
  Ret (negb (Z.land c (Z.shiftl 1 (i `mod` byte_bits)) =? 0)).

(** ** The invariant and the abstract value *)
Definition wf (b : Bitmap) : Prop :=
  0 ≤ num b ≤ 2 ^ 32 - 64 ∧ nc b = (num b + 63) `div` 64 ∧ zlen (chunks b) = nc b ∧
  Forall (λ c, 0 ≤ c < 2 ^ 64) (chunks b).

Definition bit (b : Bitmap) (i : Z) : bool :=
  match zget (chunks b) (i `div` 64) with
  | Some c => Z.testbit c (i `mod` 64)
  | None => false
  end.

Definition bits (b : Bitmap) : list bool := bit b <$> seqZ 0 (num b).

(** *** Single bits of a chunk *)
Lemma land_selector c p : 0 ≤ p → negb (Z.land c (Z.shiftl 1 p) =? 0) = Z.testbit c p.
Proof.
  intros Hp. destruct (Z.testbit c p) eqn:E.
  - apply negb_true_iff, Z.eqb_neq. intros H0.
    assert (Z.testbit (Z.land c (Z.shiftl 1 p)) p = true) as Ht; [|by rewrite H0, Z.bits_0 in Ht].
    by rewrite Z.land_spec, E, one_shiftl_testbit, bool_decide_true by done.
  - apply negb_false_iff, Z.eqb_eq. apply Z.bits_inj'. intros n Hn.
    rewrite Z.land_spec, one_shiftl_testbit, Z.bits_0 by done.
    case_bool_decide; [subst; by rewrite E|by rewrite andb_false_r].
Qed.

Lemma chunk_not_testbit c n : 0 ≤ n < 64 → Z.testbit (chunk_not c) n = negb (Z.testbit c n).
Proof.
  intros Hn. unfold chunk_not, all_ones.
  rewrite Z.lxor_spec, ones_testbit by done. apply xorb_true_r.
Qed.

Lemma chunk_range c :
  0 ≤ c < 2 ^ 64 ↔ 0 ≤ c ∧ ∀ n, 64 ≤ n → Z.testbit c n = false.
Proof.
  split.
  - intros Hc. split; [lia|]. intros n Hn. destruct (decide (c = 0)) as [->|]; [apply Z.bits_0|].
    apply Z.bits_above_log2; [lia|]. apply Z.lt_le_trans with 64; [|done].
    apply Z.log2_lt_pow2; lia.
  - intros [Hc Hb]. split; [done|]. destruct (decide (c = 0)) as [->|]; [done|].
    apply Z.log2_lt_pow2; [lia|]. apply Z.nle_gt. intros Hl.
    specialize (Hb _ Hl). rewrite Z.bit_log2 in Hb; [done|lia].
Qed.

(** The effect of the three updates on the selected bit and on the others. *)
Lemma assign_chunk c p v :
  0 ≤ c < 2 ^ 64 → 0 ≤ p < 64 →
  let c' := Z.lor (Z.land c (chunk_not (Z.shiftl 1 p))) (Z.shiftl (if v : bool then 1 else 0) p) in
  0 ≤ c' < 2 ^ 64 ∧ ∀ n, 0 ≤ n < 64 → Z.testbit c' n = if decide (n = p) then v else Z.testbit c n.
Proof.
  intros Hc Hp c'.
  assert (∀ n, 0 ≤ n → Z.testbit (Z.shiftl (if v then 1 else 0) p) n = v && bool_decide (n = p)) as Hv.
  { intros n Hn. destruct v; [by rewrite one_shiftl_testbit by lia|].
    by rewrite Z.shiftl_0_l, Z.bits_0. }
  split.
  - apply chunk_range. apply chunk_range in Hc as [Hc0 Hc]. split.
    + apply Z.lor_nonneg. split; [apply Z.land_nonneg; by left|].
      apply Z.shiftl_nonneg. by destruct v.
    + intros n Hn. unfold c'. rewrite Z.lor_spec, Z.land_spec, Hc, Hv by lia.
      rewrite bool_decide_false by lia. by rewrite andb_false_r.
  - intros n Hn. unfold c'. rewrite Z.lor_spec, Z.land_spec, Hv, chunk_not_testbit by lia.
    rewrite one_shiftl_testbit by lia. case_decide; [subst|].
    + rewrite bool_decide_true by done. by destruct (Z.testbit c p), v.
    + rewrite bool_decide_false by done. by destruct (Z.testbit c n), v.
Qed.

Lemma set_chunk c p :
  0 ≤ p < 64 → Z.lor c (Z.shiftl 1 p) =
    Z.lor (Z.land c (chunk_not (Z.shiftl 1 p))) (Z.shiftl 1 p) ∨ ¬ 0 ≤ c < 2 ^ 64.
Proof.
  intros Hp. destruct (decide (0 ≤ c < 2 ^ 64)) as [Hc|]; [left|by right].
  apply chunk_range in Hc as [_ Hc]. apply Z.bits_inj'. intros n Hn.
  rewrite !Z.lor_spec, Z.land_spec, one_shiftl_testbit by lia.
  destruct (decide (n < 64)).
  - rewrite chunk_not_testbit, one_shiftl_testbit by lia.
    by case_bool_decide; destruct (Z.testbit c n).
  - by rewrite Hc by lia.
Qed.

(** The bit that the two operations agree on. *)
Definition cbit (bmap : list Z) (i : Z) : bool :=
  match zget bmap (i `div` byte_bits) with Some c => Z.testbit c (i `mod` byte_bits) | None => false end.

Lemma Bits_test_Ret bmap i : 0 ≤ i `div` byte_bits < zlen bmap → Bits_test bmap i = Ret (cbit bmap i).
Proof.
  intros Hi. unfold Bits_test, cbit. destruct (zget_lookup bmap _ Hi) as [c ->]. cbn. f_equal.
  apply land_selector, Z.mod_pos_bound. done.
Qed.

(** A successful [Bits_set] is within the array and changes one bit. *)
Lemma Bits_set_inv bmap i b : Bits_set bmap i = Ret b →
  0 ≤ i `div` byte_bits < zlen bmap ∧ zlen b = zlen bmap ∧
  ∀ j, cbit b j = bool_decide (j = i) || cbit bmap j.
Proof.
  unfold Bits_set, bits_upd. intros E. invert_outcome.
  match goal with Hc : zget bmap _ = Some ?c |- _ => pose proof (zget_Some_lt _ _ _ Hc) as Hi; rename Hc into Hz end.
  split; [done|]. split; [apply zlen_zset|]. intros j. unfold cbit. rewrite zget_zset.
  pose proof (Z.mod_pos_bound i byte_bits ltac:(done)). pose proof (Z.mod_pos_bound j byte_bits ltac:(done)).
  pose proof (Z.div_mod i byte_bits ltac:(done)). pose proof (Z.div_mod j byte_bits ltac:(done)).
  case_decide as D.
  - destruct D as [D _]. rewrite <- D, Hz. unfold wrapU, byte_bits in *. rewrite Z.mod_pow2_bits_low by lia.
    rewrite Z.lor_spec, one_shiftl_testbit, orb_comm by lia. f_equal. apply bool_decide_ext. split; [lia|by intros ->].
  - rewrite bool_decide_eq_false_2; [done|]. intros ->. apply D. done.
Qed.

(** *** Operations on well-formed bitmaps *)
Lemma chunk_of b i : wf b → 0 ≤ i < num b →
  ∃ c, zget (chunks b) (i `div` 64) = Some c ∧ 0 ≤ c < 2 ^ 64 ∧ bit b i = Z.testbit c (i `mod` 64).
Proof.
  intros (Hn & Hnc & Hl & Hf) Hi. destruct (zget_lookup (chunks b) (i `div` 64)) as [c Hc].
  { rewrite Hl, Hnc. split; [apply Z.div_pos; lia|].
    apply Z.div_lt_upper_bound; [lia|].
    pose proof (Z.div_mod (num b + 63) 64 ltac:(lia)).
    pose proof (Z.mod_pos_bound (num b + 63) 64 ltac:(lia)). lia. }
  exists c. split; [done|]. split; [|unfold bit; by rewrite Hc].
  by apply (Forall_zget (λ c, 0 ≤ c < 2 ^ 64) _ _ _ Hf Hc).
Qed.

Lemma test_bit b i : wf b → 0 ≤ i < num b → test b i = Ret (bit b i).
Proof.
  intros Hb Hi. destruct (chunk_of b i Hb Hi) as (c & Hc & _ & ->).
  unfold test, bitSelector, ChunkBits. zbool. cbn. rewrite Hc. cbn.
  rewrite land_selector; [done|]. apply Z.mod_pos_bound. lia.
Qed.

Lemma wf_zset b i c : wf b → 0 ≤ c < 2 ^ 64 → wf (mkBitmap (num b) (zset (chunks b) i c) (nc b)).
Proof.
  intros (Hn & Hnc & Hl & Hf) Hc. split; [done|]. split; [done|].
  split; cbn; [by rewrite zlen_zset|].
  by apply Forall_zset.
Qed.

Lemma same_chunk i j :
  0 ≤ i → 0 ≤ j → i `div` 64 = j `div` 64 → i `mod` 64 = j `mod` 64 → i = j.
Proof.
  intros _ _ Hd Hm. rewrite (Z.div_mod i 64), (Z.div_mod j 64) by lia. congruence.
Qed.

Lemma assign_spec b i v : wf b → 0 ≤ i < num b →
  ∃ b', assign b i v = Ret b' ∧ wf b' ∧ num b' = num b ∧
    ∀ j, 0 ≤ j < num b → bit b' j = if decide (j = i) then v else bit b j.
Proof.
  intros Hb Hi. destruct (chunk_of b i Hb Hi) as (c & Hc & Hr & Hbit).
  pose proof (Z.mod_pos_bound i 64 ltac:(lia)) as Hm.
  destruct (assign_chunk c (i `mod` 64) v Hr Hm) as [Hr' Ht].
  unfold assign, with_chunk, bitSelector, valBitSelector, ChunkBits. zbool.
  cbn [th_assert mbind outcome_bind]. rewrite Hc. cbn [of_option mbind outcome_bind].
  eexists; split; [done|]. split; [by apply wf_zset|]. split; [done|].
  intros j Hj. pose proof (Z.mod_pos_bound j 64 ltac:(lia)). unfold bit at 1; cbn.
  apply zget_Some_lt in Hc as Hlt.
  rewrite zget_zset. case_decide as Hd.
  - destruct Hd as [Hd _]. rewrite Ht by done. unfold bit. rewrite <- Hd, Hc.
    destruct (decide (j `mod` 64 = i `mod` 64)) as [E|E].
    + assert (i = j) as -> by (apply same_chunk; lia). by rewrite decide_True.
    + rewrite decide_False; [done|]. congruence.
  - rewrite decide_False; [done|]. intros ->. apply Hd. done.
Qed.

Lemma set_assign b i : wf b → 0 ≤ i < num b → set b i = assign b i true.
Proof.
  intros Hb Hi. destruct (chunk_of b i Hb Hi) as (c & Hc & Hr & _).
  unfold set, assign, with_chunk, bitSelector, valBitSelector, ChunkBits.
  destruct (th_assert _) as [[]|]; cbn; [|done]. rewrite Hc. cbn.
  destruct (set_chunk c (i `mod` 64)) as [->|]; [apply Z.mod_pos_bound; lia|done|done].
Qed.

Lemma reset_assign b i : reset b i = assign b i false.
Proof.
  unfold reset, assign, with_chunk, valBitSelector.
  destruct (th_assert _) as [[]|]; cbn; [|done].
  destruct (zget _ _); cbn; [|done]. by rewrite Z.shiftl_0_l, Z.lor_0_r.
Qed.

(** *** The abstract value *)
Lemma lookup_bits b (i : nat) :
  bits b !! i = if decide (Z.of_nat i < num b) then Some (bit b (Z.of_nat i)) else None.
Proof.
  unfold bits. rewrite list_lookup_fmap. case_decide.
  - by rewrite lookup_seqZ_lt by done.
  - by rewrite lookup_seqZ_ge by lia.
Qed.

Lemma bits_insert b b' i v :
  num b' = num b → 0 ≤ i →
  (∀ j, 0 ≤ j < num b → bit b' j = if decide (j = i) then v else bit b j) →
  bits b' = <[Z.to_nat i := v]> (bits b).
Proof.
  intros Hn Hi Hj. apply list_eq. intros k. rewrite list_lookup_insert, !lookup_bits, Hn.
  unfold bits. rewrite length_fmap, length_seqZ.
  destruct (decide (Z.of_nat k < num b)).
  - rewrite Hj by lia. destruct (decide (Z.of_nat k = i)).
    + rewrite decide_True by lia. done.
    + rewrite decide_False by lia. done.
  - case_decide; [lia|done].
Qed.

Lemma make_spec sz v : 0 ≤ sz ≤ 2 ^ 32 - 64 →
  wf (make sz v) ∧ num (make sz v) = sz ∧ ∀ i, 0 ≤ i < sz → bit (make sz v) i = v.
Proof.
  intros Hsz. assert (0 ≤ (sz + 63) `div` 64) by (apply Z.div_pos; lia).
  assert (wf (make sz v)) as Hwf.
  { split_and!; cbn; try lia.
    - f_equal. unfold ChunkBits. lia.
    - rewrite zlen_replicate. unfold ChunkBits in *.
      replace (sz + 64 - 1) with (sz + 63) by lia. lia.
    - apply Forall_replicate. destruct v; vm_compute; split; congruence. }
  split_and!; [done..|]. intros i Hi.
  destruct (chunk_of (make sz v) i Hwf Hi) as (c & Hc & _ & ->). cbn in Hc.
  apply zget_Some_lt in Hc as Hlt. rewrite zlen_replicate in Hlt.
  rewrite zget_replicate in Hc by done. injection Hc as <-.
  pose proof (Z.mod_pos_bound i 64 ltac:(lia)).
  destruct v; [by apply ones_testbit|by apply Z.bits_0].
Qed.

Lemma clear_wf b : wf b → wf (clear b).
Proof.
  intros (Hn & Hnc & Hl & _). split; [done|]. split; [done|].
  pose proof (zlen_nonneg (chunks b)). split; cbn; [rewrite zlen_replicate; lia|].
  by apply Forall_replicate.
Qed.

Lemma bit_clear b i : 0 ≤ i → bit (clear b) i = false.
Proof.
  intros Hi. unfold bit, clear. cbn.
  destruct (zget _ _) as [c|] eqn:E; [|done].
  apply zget_Some_lt in E as Hlt. rewrite zlen_replicate in Hlt.
  rewrite zget_replicate in E by done. injection E as <-. apply Z.bits_0.
Qed.

(** *** The iterator *)
Definition ignore_of (v : bool) : Z := if v then 0 else all_ones.

(** An iterator stands at the start of a chunk or inside a chunk that holds the
    searched value. *)
Definition iter_ok (b : Bitmap) (it : Iter) : Prop :=
  ignoreValue it = ignore_of (value it) ∧ 0 ≤ index it ∧
  (index it `mod` 64 = 0 ∨ zget (chunks b) (index it `div` 64) ≠ Some (ignoreValue it)).

Definition remaining (b : Bitmap) (v : bool) (i : Z) : list Z :=
  filter (λ j, bit b j = v) (seqZ i (num b - i)).

Lemma remaining_cons b v i : 0 ≤ i < num b →
  remaining b v i = (if decide (bit b i = v) then [i] else []) ++ remaining b v (i + 1).
Proof.
  intros Hi. unfold remaining. rewrite seqZ_cons by lia. rewrite filter_cons.
  replace (Z.pred (num b - i)) with (num b - (i + 1)) by lia.
  by case_decide.
Qed.

Lemma remaining_skip b v i (n : nat) : 0 ≤ i →
  (∀ j, i ≤ j < i + Z.of_nat n → j < num b → bit b j ≠ v) →
  remaining b v i = remaining b v (i + Z.of_nat n).
Proof.
  revert i. induction n as [|n IH]; intros i Hi Hb; [by rewrite Z.add_0_r|].
  replace (i + Z.of_nat (S n)) with (i + 1 + Z.of_nat n) by lia.
  destruct (decide (i < num b)).
  - rewrite remaining_cons by lia. rewrite decide_False by (apply Hb; lia).
    apply IH; [lia|]. intros j ??. apply Hb; lia.
  - unfold remaining. by rewrite !seqZ_nil by lia.
Qed.

Lemma ignored_chunk b v i : wf b → 0 ≤ i < num b →
  zget (chunks b) (i `div` 64) = Some (ignore_of v) → bit b i ≠ v.
Proof.
  intros Hb Hi Hc. unfold bit. rewrite Hc. pose proof (Z.mod_pos_bound i 64 ltac:(lia)).
  destruct v; cbn; [by rewrite Z.bits_0|]. unfold all_ones. by rewrite ones_testbit.
Qed.

Lemma next_chunk i j : 0 ≤ i → i `mod` 64 = 0 → i ≤ j < i + 64 → j `div` 64 = i `div` 64.
Proof.
  intros Hi Hm Hj. symmetry. apply (Z.div_unique _ _ _ (j - i)); [lia|].
  pose proof (Z.div_mod i 64 ltac:(lia)). lia.
Qed.

Lemma iter_ok_next b it : wf b → iter_ok b it → 0 ≤ index it < num b →
  zget (chunks b) (index it `div` 64) ≠ Some (ignoreValue it) →
  iter_ok b (mkIter (value it) (index it + 1) (ignoreValue it)).
Proof.
  intros Hb (Hig & H0 & _) Hi Hne. split_and!; cbn; [done|lia|].
  pose proof (Z.div_mod (index it) 64 ltac:(lia)). pose proof (Z.mod_pos_bound (index it) 64 ltac:(lia)).
  destruct (decide (index it `mod` 64 = 63)).
  - left. symmetry. apply (Z.mod_unique _ _ (index it `div` 64 + 1)); lia.
  - right. assert ((index it + 1) `div` 64 = index it `div` 64) as ->; [|done].
    symmetry. apply (Z.div_unique _ _ _ (index it `mod` 64 + 1)); lia.
Qed.

Lemma iter_get_spec fuel b it : wf b → iter_ok b it →
  Z.max 0 (num b - index it) < Z.of_nat fuel →
  ∃ it', iter_get fuel b it = Ret (head (remaining b (value it) (index it)), it') ∧
    iter_ok b it' ∧ value it' = value it ∧ index it ≤ index it' ∧
    remaining b (value it) (index it') = tail (remaining b (value it) (index it)).
Proof.
  intros Hb. revert it. induction fuel as [|fuel IH]; intros it Hit Hfuel; [lia|]. cbn.
  destruct Hit as (Hig & H0 & Hpos). destruct (index it <? num b) eqn:Hlt; zprop; cycle 1.
  { exists it. unfold remaining. rewrite seqZ_nil by lia. done. }
  destruct (chunk_of b (index it) Hb) as (c & Hc & _ & _); [lia|].
  unfold ChunkBits. rewrite Hc. cbn [of_option mbind outcome_bind]. case_decide as Hci.
  - subst c. destruct Hpos as [Hm|]; [|done].
    assert (to_unsigned (index it + 64) = index it + 64) as Hu.
    { apply Z.mod_small. destruct Hb as [? _]. lia. }
    destruct (IH (mkIter (value it) (to_unsigned (index it + 64)) (ignoreValue it)))
      as (it' & -> & Hok & Hv & Hidx & Hrem); cbn in *; rewrite ?Hu in *.
    { split_and!; cbn; [done|lia|left].
      replace (index it + 64) with (index it + 1 * 64) by lia. by rewrite Z_mod_plus_full. }
    { lia. }
    rewrite (remaining_skip b (value it) (index it) 64); [exists it'; split_and!; try done; lia|done|].
    intros j Hj Hjn. apply ignored_chunk; [done|lia|].
    rewrite (next_chunk (index it)) by (done || lia). by rewrite Hc, Hig.
  - rewrite test_bit by (done || lia). cbn [mbind outcome_bind].
    set (next := mkIter _ _ _).
    assert (iter_ok b next) as Hnext.
    { apply iter_ok_next; [done|split_and!; done|lia|]. rewrite Hc. congruence. }
    rewrite (remaining_cons b (value it) (index it)) by lia.
    destruct (eqb _ _) eqn:Heq.
    + apply eqb_prop in Heq. rewrite decide_True by done. exists next. cbn. split_and!; try done. lia.
    + rewrite decide_False by (by apply eqb_false_iff). cbn [app].
      destruct (IH next Hnext) as (it' & -> & Hok & Hv & Hidx & Hrem); cbn in *; [lia|].
      exists it'. split_and!; try done. lia.
Qed.

Lemma iter_all_remaining fuel b it : wf b → iter_ok b it →
  (length (remaining b (value it) (index it)) < fuel)%nat →
  iter_all fuel b it = Ret (remaining b (value it) (index it)).
Proof.
  intros Hb. revert it. induction fuel as [|fuel IH]; intros it Hit Hfuel; [lia|].
  cbn [iter_all]. destruct Hit as (? & ? & ?).
  destruct (iter_get_spec (S (Z.to_nat (num b))) b it) as (it' & -> & Hok & Hv & _ & Hrem);
    [done|split_and!; done|lia|].
  cbn [mbind outcome_bind]. destruct (remaining b (value it) (index it)) as [|i l] eqn:E; [done|].
  cbn [head]. rewrite IH; rewrite ?Hv, ?Hrem; [done|done|cbn in *; lia].
Qed.

(** On a well-formed bitmap [assign], [set] and [reset] update exactly the
    selected boolean, [test] reads it, and all of them keep the bitmap well formed. *)
Theorem bitmap_update_spec b i v :
  wf b → 0 ≤ i < num b →
  ∃ b', assign b i v = Ret b' ∧ wf b' ∧ num b' = num b ∧
    bits b' = <[Z.to_nat i := v]> (bits b) ∧
    (if v : bool then set b i else reset b i) = Ret b' ∧
    test b' i = Ret v ∧
    ∀ j, 0 ≤ j < num b → j ≠ i → test b' j = test b j.
Proof.
  intros Hb Hi. destruct (assign_spec b i v Hb Hi) as (b' & Ha & Hb' & Hn & Hj).
  exists b'. split_and!; try done.
  - by apply bits_insert; [|lia|].
  - destruct v; [by rewrite set_assign|by rewrite reset_assign].
  - rewrite test_bit by (done || lia). by rewrite Hj, decide_True.
  - intros j ??. rewrite !test_bit by (done || lia). by rewrite Hj, decide_False.
Qed.

Lemma bitmap_update_spec_witness :
  ∃ b', assign (make 70 false) 65 true = Ret b' ∧ wf b' ∧ num b' = 70 ∧
    bits b' = <[65%nat := true]> (bits (make 70 false)) ∧
    set (make 70 false) 65 = Ret b' ∧ test b' 65 = Ret true ∧
    ∀ j, 0 ≤ j < 70 → j ≠ 65 → test b' j = test (make 70 false) j.
Proof.
  apply (bitmap_update_spec (make 70 false) 65 true); [|cbn; lia].
  apply make_spec. lia.
Defined.

(** An iterator of a bitmap yields, in increasing order and then stops, exactly
    the indices whose boolean has the searched value, although it skips chunks. *)
Theorem bitmap_iter_spec b v :
  wf b →
  iter_all (S (Z.to_nat (num b))) b (make_iter v) =
    Ret (filter (λ i, bits b !! Z.to_nat i = Some v) (seqZ 0 (num b))).
Proof.
  intros Hb. assert (iter_ok b (make_iter v)) by (split_and!; [by destruct v|cbn; lia|by left]).
  rewrite iter_all_remaining; cbn; [|done..|].
  - f_equal. unfold remaining. rewrite Z.sub_0_r. apply list_filter_ext_in.
    intros i Hi%elem_of_seqZ. rewrite lookup_bits, Z2Nat.id by lia.
    rewrite decide_True by lia. by split; [intros ->|intros [= ->]].
  - unfold remaining. eapply Nat.le_lt_trans; [apply length_filter|].
    rewrite length_seqZ. lia.
Qed.

Lemma bitmap_iter_spec_witness :
  iter_all 4 (mkBitmap 3 [5] 1) (make_iter true) =
    Ret (filter (λ i, bits (mkBitmap 3 [5] 1) !! Z.to_nat i = Some true) (seqZ 0 3)) ∧
  iter_all 4 (mkBitmap 3 [5] 1) (make_iter true) = Ret [0; 2].
Proof.
  split; [|vm_compute; reflexivity].
  apply (bitmap_iter_spec (mkBitmap 3 [5] 1) true).
  split; [cbn; lia|]. split; [reflexivity|]. split; [reflexivity|].
  cbn. apply Forall_singleton. lia.
Defined.
End BM.
