(* ===== verification/HashMap.v ===== *)
(** * HashMap: the hash table of the library (src/src/map.h, bhash.{h,t}, buckets.{h,t})

    [Map] is a hash table with chains: [Buckets] is a linked list of pairs, [BHash] an array
    of [2^(32 - right_shift)] of them.  A list of pairs stands for a chain, and a position in
    it for the pointers of a generator.  The records of checkpoints and of the blocks they
    copy are such maps; State.v uses finite maps in their place, which this file justifies.
    The product of the hash with the multiplier overflows an [int]; it is taken modulo
    [2^32], as on all machines the program is built for.  The statistics in floating point are left out. *)
From stdpp Require Import gmap.
From S2P Require Import Prelude.

Module HMap.
Section hash_map.
Context {K V : Type} `{Countable K}.
Context (hash : K → Z).          (* KEY::hash, an int *)

#[local] Abbreviation elem := (K * V)%type.
Implicit Types (b : list elem) (k : K) (v : V).

(** [HashPair::similar] *)
Definition similar (e : elem) (k : K) : bool := bool_decide (e.1 = k).

(** ** Buckets *)
Fixpoint find_loop (b : list elem) (k : K) : option elem :=
  match b with
  | [] => None
  | e :: b => if similar e k then Some e else find_loop b k
  end.
Definition bk_find (b : list elem) (k : K) : option elem :=
  match b with
  | e :: l => if similar e k then Some e else find_loop l k
  | [] => None
  end.

(** Without a test for the end of the chain. *)
Fixpoint bk_find_fast (b : list elem) (k : K) : outcome elem :=
  match b with
  | [] => Err Undefined
  | e :: b => if similar e k then Ret e else bk_find_fast b k
  end.

Definition bk_add (b : list elem) (e : elem) : outcome (list elem) :=
  _ ← th_assert (bool_decide (bk_find b e.1 = None)); Ret (e :: b).

Fixpoint replace (b : list elem) (e : elem) : option (list elem) :=
  match b with
  | [] => None
  | x :: b => if similar x e.1 then Some (e :: b) else (λ b, x :: b) <$> replace b e
  end.
Definition bk_store (b : list elem) (e : elem) : outcome (list elem * bool) :=
  match replace b e with
  | Some b => Ret (b, true)
  | None => b ← bk_add b e; Ret (b, false)
  end.

Fixpoint bk_remove (b : list elem) (k : K) : option (elem * list elem) :=
  match b with
  | [] => None
  | x :: b => if similar x k then Some (x, b) else (λ r, (r.1, x :: r.2)) <$> bk_remove b k
  end.
Definition bk_remove_fast (b : list elem) (k : K) : outcome (elem * list elem) :=
  of_option Undefined (bk_remove b k).

(** [BucketsGenerator]: what lies before [*last], the pair it stands at, and the rest. *)
Record bgen := mkGen { before : list elem; current : option elem; after : list elem }.

Definition gen_start (b : list elem) : bgen := mkGen [] None b.
Definition gen_bucket (g : bgen) : list elem := before g ++ option_list (current g) ++ after g.

Definition gen_get (g : bgen) : option elem * bgen :=
  let p := before g ++ option_list (current g) in
  match after g with
  | [] => (None, mkGen p None [])
  | e :: l => (Some e, mkGen p (Some e) l)
  end.

Definition gen_remove (g : bgen) : outcome bgen :=
  match current g with Some _ => Ret (mkGen (before g) None (after g)) | None => Err Undefined end.

(** ** BHash *)
Record BHash := mkHash { numItems : Z; numSlots : Z; right_shift : Z; buckets : list (list elem) }.

Definition BH_HASHMULT : Z := 1737350767.
Definition BH_MIN_SIZE : Z := 4.
Definition BH_MAX_DESIRED_ALPHA : Z := 3.
Definition BH_EXCESSIVE_RECIPROCAL_ALPHA : Z := 20.
Definition BH_PRECBITS : Z := 32.

Definition do_hash (sh : Z) (k : K) : Z := to_int (Z.shiftr (wrapU 32 (hash k * BH_HASHMULT)) sh).

Definition bucket_of (h : BHash) (k : K) : outcome (list elem) :=
  of_option Undefined (zget (buckets h) (do_hash (right_shift h) k)).
Definition set_bucket (h : BHash) (n : Z) (k : K) (b : list elem) : BHash :=
  mkHash n (numSlots h) (right_shift h) (zset (buckets h) (do_hash (right_shift h) k) b).

(** The loop of [sizeup]; the fuel is [right_shift] and one more. *)
Fixpoint sizeup_loop (fuel : nat) (desired slots sh : Z) : outcome (Z * Z) :=
  match fuel with
  | O => Err OutOfFuel
  | S fuel =>
      if (slots <? desired) && (0 <? sh) then sizeup_loop fuel desired (to_int (slots * 2)) (sh - 1)
      else Ret (slots, sh)
  end.
Definition sizeup (desired : Z) : outcome (Z * Z) := sizeup_loop 32 desired 2 (BH_PRECBITS - 1).

(** An array of [sizeup] many empty chains. *)
Definition fresh (desired : Z) : outcome BHash :=
  '(slots, sh) ← sizeup desired;
  if slots <? 0 then Err Undefined else Ret (mkHash 0 slots sh (replicate (Z.to_nat slots) [])).
Definition make_hint (size_hint : Z) : outcome BHash := fresh size_hint.
Definition make : outcome BHash := fresh 1.

Definition size_of (h : BHash) : Z := numItems h.

Definition find (h : BHash) (k : K) : outcome (option elem) := b ← bucket_of h k; Ret (bk_find b k).
Definition find_fast (h : BHash) (k : K) : outcome elem := b ← bucket_of h k; bk_find_fast b k.

Definition add (h : BHash) (e : elem) : outcome BHash :=
  o ← find h e.1;
  _ ← th_assert (bool_decide (o = None));
  b ← bucket_of h e.1;
  b ← bk_add b e;
  Ret (set_bucket h (numItems h + 1) e.1 b).

Definition find_or_add (h : BHash) (e : elem) : outcome (BHash * option elem) :=
  b ← bucket_of h e.1;
  match bk_find b e.1 with
  | Some e2 => Ret (h, Some e2)
  | None => b ← bk_add b e; Ret (set_bucket h (numItems h + 1) e.1 b, None)
  end.

Definition store (h : BHash) (e : elem) : outcome (BHash * bool) :=
  b ← bucket_of h e.1;
  '(b, result) ← bk_store b e;
  Ret (set_bucket h (if result : bool then numItems h else numItems h + 1) e.1 b, result).

(** The pair that was removed. *)
Definition remove (h : BHash) (k : K) : outcome (BHash * option elem) :=
  b ← bucket_of h k;
  match bk_remove b k with
  | Some (e, b) => Ret (set_bucket h (numItems h - 1) k b, Some e)
  | None => Ret (h, None)
  end.

Definition remove_fast (h : BHash) (k : K) : outcome (BHash * elem) :=
  b ← bucket_of h k;
  '(e, b) ← bk_remove_fast b k;
  Ret (set_bucket h (numItems h - 1) k b, e).

Definition clear (h : BHash) : BHash :=
  mkHash 0 (numSlots h) (right_shift h) ((λ _, []) <$> buckets h).

(** [while (g.get(e)) add(e)] *)
Fixpoint add_gen (fuel : nat) (h : BHash) (g : bgen) : outcome BHash :=
  match fuel with
  | O => Err OutOfFuel
  | S fuel =>
      match gen_get g with
      | (Some e, g) => h ← add h e; add_gen fuel h g
      | (None, _) => Ret h
      end
  end.

Fixpoint add_chains (h : BHash) (l : list (list elem)) : outcome BHash :=
  match l with
  | [] => Ret h
  | b :: l => h ← add_gen (S (length b)) h (gen_start b); add_chains h l
  end.

Definition resize (h : BHash) (desired : Z) : outcome BHash := h0 ← fresh desired; add_chains h0 (buckets h).

Definition predict (h : BHash) (desired : Z) : outcome BHash :=
  let ns := numSlots h in
  if (desired <=? ns) && (ns <? to_int (desired * BH_EXCESSIVE_RECIPROCAL_ALPHA + BH_MIN_SIZE)) then Ret h
  else if (right_shift h =? 0) && (ns <? desired) then Ret h
  else resize h desired.

Definition allowAutoResize (h : BHash) : outcome BHash := predict h (Z.quot (numItems h) BH_MAX_DESIRED_ALPHA).

(** [copy_items], the copy constructor and the assignment. *)
Definition copy (h : BHash) : outcome BHash := h0 ← fresh (numItems h); add_chains h0 (buckets h).

(** ** Generators *)
Record hgen := mkHgen { slot : Z; gen : bgen }.

Definition hgen_start (h : BHash) : outcome hgen :=
  b ← of_option Undefined (zget (buckets h) 0); Ret (mkHgen 0 (gen_start b)).

(** The loop of [get] over the next slots. *)
Fixpoint next_slot (fuel : nat) (h : BHash) (s : Z) (g : bgen) : outcome (option elem * hgen) :=
  match fuel with
  | O => Err OutOfFuel
  | S fuel =>
      let s := s + 1 in
      if s =? numSlots h then Ret (None, mkHgen (-1) g)
      else
        b ← of_option Undefined (zget (buckets h) s);
        match gen_get (gen_start b) with
        | (Some e, g) => Ret (Some e, mkHgen s g)
        | (None, g) => next_slot fuel h s g
        end
  end.

Definition hgen_get (h : BHash) (g : hgen) : outcome (option elem * hgen) :=
  match gen_get (gen g) with
  | (Some e, b) => Ret (Some e, mkHgen (slot g) b)
  | (None, b) => next_slot (S (length (buckets h))) h (slot g) b
  end.

Definition hgen_remove (h : BHash) (g : hgen) : outcome (BHash * hgen) :=
  b ← gen_remove (gen g);
  Ret (mkHash (numItems h - 1) (numSlots h) (right_shift h) (zset (buckets h) (slot g) (gen_bucket b)),
       mkHgen (slot g) b).

(** [while (g.get(k, v)) ...] with a body that may remove the pair: the pairs in order. *)
Fixpoint sweep_loop (fuel : nat) (P : elem → bool) (h : BHash) (g : hgen) : outcome (BHash * list elem) :=
  match fuel with
  | O => Err OutOfFuel
  | S fuel =>
      '(o, g) ← hgen_get h g;
      match o with
      | None => Ret (h, [])
      | Some e =>
          '(h, g) ← (if P e then hgen_remove h g else Ret (h, g));
          '(h, l) ← sweep_loop fuel P h g;
          Ret (h, e :: l)
      end
  end.
Definition sweep (P : elem → bool) (h : BHash) : outcome (BHash * list elem) :=
  g ← hgen_start h; sweep_loop (S (Z.to_nat (numItems h))) P h g.

(** ** Map

    [VALUE()] is [dflt].  A reference to a value in the table is the value. *)
Section map_operations.
Context (dflt : V).

Definition map_add1 (h : BHash) (k : K) (v : V) : outcome BHash := h ← add h (k, v); allowAutoResize h.
Definition map_find (h : BHash) (k : K) : outcome (option V) := r ← find h k; Ret (snd <$> (r : option elem)).
Definition contains (h : BHash) (k : K) : outcome bool := r ← find h k; Ret (bool_decide (is_Some r)).
Definition fetch (h : BHash) (k : K) : outcome V := r ← find_fast h k; Ret r.2.

(** The value that was there, if any: the result [true] of the code. *)
Definition map_find_or_add (h : BHash) (k : K) (v1 : V) : outcome (BHash * option V) :=
  '(h, r) ← find_or_add h (k, v1);
  match r with
  | None => h ← allowAutoResize h; Ret (h, None)
  | Some e => Ret (h, Some e.2)
  end.

Definition map_store1 (h : BHash) (k : K) (v : V) : outcome (BHash * bool) := h ← allowAutoResize h; store h (k, v).

(** What is written to [v], and the result. *)
Definition map_remove (h : BHash) (k : K) : outcome (BHash * (V * bool)) :=
  '(h, r) ← remove h k;
  Ret (h, match r with Some e => (e.2, true) | None => (dflt, false) end).
Definition map_remove_fast (h : BHash) (k : K) : outcome (BHash * V) := '(h, e) ← remove_fast h k; Ret (h, e.2).

(** [PtrMap::fetch], which does not look at what [find_fast] returns. *)
Definition ptr_fetch (h : BHash) (k : K) : outcome V := _ ← find_fast h k; Ret dflt.

(** One call on a map, and what it gives. *)
Inductive op :=
| OpAdd (k : K) (v : V)
| OpAdd1 (k : K) (v : V)
| OpFind (k : K)
| OpContains (k : K)
| OpFetch (k : K)
| OpFindOrAdd (k : K) (v : V)
| OpStore (k : K) (v : V)
| OpStore1 (k : K) (v : V)
| OpRemove (k : K)
| OpRemoveFast (k : K)
| OpClear
| OpPredict (n : Z)
| OpAutoResize
| OpCopy
| OpSize
| OpSweep (P : elem → bool).

Inductive result :=
| RUnit
| RBool (b : bool)
| RValue (v : V)
| RFound (o : option V)
| RRemoved (v : V) (b : bool)
| RSize (n : Z)
| RPairs (l : list elem).

Definition run_op (h : BHash) (o : op) : outcome (BHash * result) :=
  match o with
  | OpAdd k v => h ← add h (k, v); Ret (h, RUnit)
  | OpAdd1 k v => h ← map_add1 h k v; Ret (h, RUnit)
  | OpFind k => r ← map_find h k; Ret (h, RFound r)
  | OpContains k => b ← contains h k; Ret (h, RBool b)
  | OpFetch k => v ← fetch h k; Ret (h, RValue v)
  | OpFindOrAdd k v => '(h, r) ← map_find_or_add h k v; Ret (h, RFound r)
  | OpStore k v => '(h, b) ← store h (k, v); Ret (h, RBool b)
  | OpStore1 k v => '(h, b) ← map_store1 h k v; Ret (h, RBool b)
  | OpRemove k => '(h, (v, b)) ← map_remove h k; Ret (h, RRemoved v b)
  | OpRemoveFast k => '(h, v) ← map_remove_fast h k; Ret (h, RValue v)
  | OpClear => Ret (clear h, RUnit)
  | OpPredict n => h ← predict h n; Ret (h, RUnit)
  | OpAutoResize => h ← allowAutoResize h; Ret (h, RUnit)
  | OpCopy => h ← copy h; Ret (h, RUnit)
  | OpSize => Ret (h, RSize (size_of h))
  | OpSweep P => '(h, l) ← sweep P h; Ret (h, RPairs l)
  end.

(** What the calls do to a finite map. *)
Definition spec_op (m : gmap K V) (o : op) : outcome (gmap K V * result) :=
  match o with
  | OpAdd k v | OpAdd1 k v => if decide (m !! k = None) then Ret (<[k := v]> m, RUnit) else Err AssertFail
  | OpFind k => Ret (m, RFound (m !! k))
  | OpContains k => Ret (m, RBool (bool_decide (is_Some (m !! k))))
  | OpFetch k => match m !! k with Some v => Ret (m, RValue v) | None => Err Undefined end
  | OpFindOrAdd k v =>
      Ret (match m !! k with Some _ => m | None => <[k := v]> m end, RFound (m !! k))
  | OpStore k v | OpStore1 k v => Ret (<[k := v]> m, RBool (bool_decide (is_Some (m !! k))))
  | OpRemove k =>
      Ret (delete k m, match m !! k with Some v => RRemoved v true | None => RRemoved dflt false end)
  | OpRemoveFast k => match m !! k with Some v => Ret (delete k m, RValue v) | None => Err Undefined end
  | OpClear => Ret (∅, RUnit)
  | OpPredict _ | OpAutoResize | OpCopy => Ret (m, RUnit)
  | OpSize => Ret (m, RSize (Z.of_nat (size m)))
  | OpSweep P => Ret (filter (λ e, P e = false) m, RPairs (map_to_list m))
  end.
End map_operations.

(** Pairs come in no particular order. *)
Definition same_result (r r' : result) : Prop :=
  match r, r' with RPairs l, RPairs l' => l ≡ₚ l' | _, _ => r = r' end.

(** The sizes for which the number of slots is an [int]. *)
Definition op_bounded (o : op) : Prop := match o with OpPredict n => n ≤ 2 ^ 30 | _ => True end.

(** ** Chains *)
Lemma similar_spec e k : similar e k = true ↔ e.1 = k.
Proof. apply bool_decide_eq_true. Qed.

Lemma bk_find_loop b k : bk_find b k = find_loop b k.
Proof. by destruct b. Qed.

Lemma find_loop_Some b k e : find_loop b k = Some e → e ∈ b ∧ e.1 = k.
Proof.
  induction b as [|x b IH]; [done|]. cbn. destruct (similar x k) eqn:E.
  - intros [= <-]. split; [by left|by apply similar_spec].
  - intros [? ?]%IH. split; [by right|done].
Qed.

Lemma find_loop_None b k : find_loop b k = None ↔ k ∉ b.*1.
Proof.
  induction b as [|x b IH]; cbn; [split; [intros _; apply not_elem_of_nil|done]|].
  rewrite not_elem_of_cons. destruct (similar x k) eqn:E.
  - apply similar_spec in E. split; [done|]. by intros [[] _].
  - rewrite IH. assert (k ≠ x.1); [|tauto]. intros ->. by rewrite (proj2 (similar_spec x x.1) eq_refl) in E.
Qed.

(** A chain whose keys are distinct holds the map [m]. *)
Definition holds (b : list elem) (m : gmap K V) : Prop := NoDup b.*1 ∧ ∀ k v, (k, v) ∈ b ↔ m !! k = Some v.

Lemma holds_lookup b m k : holds b m → m !! k = snd <$> bk_find b k.
Proof.
  intros [Hnd Hb]. rewrite bk_find_loop. destruct (find_loop b k) as [[k' v]|] eqn:E; cbn.
  - apply find_loop_Some in E as [Hin Hk]. cbn in Hk. subst k'. by apply Hb.
  - apply find_loop_None in E. destruct (m !! k) as [v|] eqn:Em; [|done]. apply Hb in Em.
    destruct E. apply list_elem_of_fmap. by exists (k, v).
Qed.

Lemma holds_keys b m k : holds b m → k ∈ b.*1 ↔ is_Some (m !! k).
Proof.
  intros [_ Hb]. rewrite list_elem_of_fmap. split.
  - intros ([k' v] & -> & Hin). exists v. by apply Hb.
  - intros [v Em]. exists (k, v). split; [done|by apply Hb].
Qed.

Lemma holds_find_fast b m k : holds b m →
  bk_find_fast b k = of_option Undefined ((λ v, (k, v)) <$> m !! k).
Proof.
  intros Hb. rewrite (holds_lookup b m k Hb), bk_find_loop. clear.
  induction b as [|x b IH]; [done|]. cbn. destruct (similar x k) eqn:E; [|done]. apply similar_spec in E.
  destruct x as [k' v]. cbn in *. by subst.
Qed.

Lemma holds_add b m e : holds b m →
  bk_add b e = (if decide (m !! e.1 = None) then Ret (e :: b) else Err AssertFail) ∧
  (m !! e.1 = None → holds (e :: b) (<[e.1 := e.2]> m)).
Proof.
  intros Hb. pose proof (holds_lookup b m e.1 Hb) as El. unfold bk_add. split.
  - rewrite El. destruct (bk_find b e.1); cbn; [by rewrite decide_False|by rewrite decide_True].
  - intros En. destruct e as [k v]. cbn in *. destruct Hb as [Hnd Hb]. split.
    + cbn. apply NoDup_cons. split; [|done]. rewrite (holds_keys b m k) by done. rewrite En. by intros [? ?].
    + intros k' v'. rewrite elem_of_cons, Hb. destruct (decide (k' = k)) as [->|Hne].
      * rewrite lookup_insert_eq, En. split; [intros [[= ->]|?]; done|intros [= ->]; by left].
      * rewrite lookup_insert_ne by done. split; [intros [[= ? ?]|?]; [done|done]|by right].
Qed.

Lemma replace_None b e : replace b e = None ↔ e.1 ∉ b.*1.
Proof.
  rewrite <- find_loop_None. induction b as [|x b IH]; [done|]. cbn. destruct (similar x e.1); [done|].
  rewrite <- IH. by destruct (replace b e).
Qed.

Lemma replace_Some b e b' : replace b e = Some b' →
  b'.*1 = b.*1 ∧ ∀ x, NoDup b.*1 → x ∈ b' ↔ x = e ∨ (x ∈ b ∧ x.1 ≠ e.1).
Proof.
  revert b'. induction b as [|x b IH]; intros b' E; [done|]. cbn in E. destruct (similar x e.1) eqn:Es.
  - injection E as <-. apply similar_spec in Es. split; [cbn; by f_equal|]. intros y Hnd. cbn in Hnd.
    apply NoDup_cons in Hnd as [Hx _]. rewrite !elem_of_cons. split.
    + intros [->|Hy]; [by left|]. right. split; [by right|]. intros Ey. apply Hx. rewrite Es, <- Ey.
      by apply list_elem_of_fmap_2.
    + intros [->|[[->|Hy] Hne]]; [by left|by rewrite Es in Hne|by right].
  - destruct (replace b e) as [b1|] eqn:E1; [|done]. injection E as <-. destruct (IH b1 eq_refl) as [Ek Hb].
    split; [cbn; by rewrite Ek|]. intros y Hnd. cbn in Hnd. apply NoDup_cons in Hnd as [_ Hnd].
    rewrite !elem_of_cons, (Hb y Hnd). split; [|tauto].
    intros [->|[->|[? ?]]]; [right; split; [by left|]|by left|right; split; [by right|done]].
    intros Hx. by rewrite (proj2 (similar_spec x e.1) Hx) in Es.
Qed.

Lemma holds_store b m e : holds b m →
  ∃ b', bk_store b e = Ret (b', bool_decide (is_Some (m !! e.1))) ∧ holds b' (<[e.1 := e.2]> m).
Proof.
  intros Hb. unfold bk_store. destruct (replace b e) as [b'|] eqn:E.
  - exists b'. destruct (replace_Some b e b' E) as [Ek Hb'].
    assert (is_Some (m !! e.1)) as Hs.
    { apply (holds_keys b m); [done|]. destruct (decide (e.1 ∈ b.*1)) as [|Hn]; [done|].
      apply replace_None in Hn. congruence. }
    rewrite bool_decide_true by done. split; [done|]. destruct Hb as [Hnd Hb]. split; [by rewrite Ek|].
    intros k v. rewrite (Hb' (k, v) Hnd), Hb. destruct e as [k0 v0]. cbn. destruct (decide (k = k0)) as [->|Hne].
    + rewrite lookup_insert_eq. split; [intros [[= ->]|[_ ?]]; done|intros [= ->]; by left].
    + rewrite lookup_insert_ne by done. split; [intros [[= ? ?]|[? _]]; done|by right].
  - apply replace_None in E. rewrite (holds_keys b m) in E by done.
    assert (m !! e.1 = None) as En by (destruct (m !! e.1); [by destruct E|done]).
    destruct (holds_add b m e Hb) as [Ea Hadd]. rewrite Ea, decide_True by done. cbn. exists (e :: b).
    rewrite bool_decide_false by done. split; [done|by apply Hadd].
Qed.

Lemma bk_remove_spec b k :
  match bk_remove b k with
  | Some (e, b') => e ∈ b ∧ e.1 = k ∧ (NoDup b.*1 → NoDup b'.*1 ∧ ∀ x, x ∈ b' ↔ x ∈ b ∧ x.1 ≠ k)
  | None => k ∉ b.*1
  end.
Proof.
  induction b as [|x b IH]; cbn; [apply not_elem_of_nil|]. destruct (similar x k) eqn:Es.
  - apply similar_spec in Es. split; [by left|]. split; [done|]. intros Hnd. cbn in Hnd.
    apply NoDup_cons in Hnd as [Hx Hnd]. split; [done|]. intros y. rewrite elem_of_cons. split.
    + intros Hy. split; [by right|]. intros Ey. apply Hx. rewrite Es, <- Ey. by apply list_elem_of_fmap_2.
    + intros [[->|?] ?]; done.
  - assert (x.1 ≠ k) as Hxk by (intros Hx; by rewrite (proj2 (similar_spec x k) Hx) in Es).
    destruct (bk_remove b k) as [[e b']|]; cbn.
    + destruct IH as (Hin & Ek & Hb). split; [by right|]. split; [done|]. intros Hnd.
      apply NoDup_cons in Hnd as [Hx Hnd]. destruct (Hb Hnd) as [Hnd' Hb']. split.
      * apply NoDup_cons. split; [|done]. intros ([k' v'] & Ey & Hy)%list_elem_of_fmap. apply Hx.
        apply Hb' in Hy as [Hy _]. rewrite Ey. by apply (list_elem_of_fmap_2 fst) in Hy.
      * intros y. rewrite !elem_of_cons, Hb'. split; [|tauto]. intros [->|[? ?]]; tauto.
    + rewrite not_elem_of_cons. split; [congruence|done].
Qed.

Lemma holds_remove b m k : holds b m →
  match m !! k with
  | Some v => ∃ b', bk_remove b k = Some ((k, v), b') ∧ holds b' (delete k m)
  | None => bk_remove b k = None
  end.
Proof.
  intros Hb. pose proof (bk_remove_spec b k) as Hs. destruct (bk_remove b k) as [[[k' v'] b']|].
  - destruct Hs as (Hin & Ek & Hb'). cbn in Ek. subst k'. destruct Hb as [Hnd Hb]. rewrite (proj1 (Hb k v') Hin).
    exists b'. split; [done|]. destruct (Hb' Hnd) as [Hnd' Hel]. split; [done|]. intros k1 v1. rewrite Hel, Hb. cbn.
    rewrite lookup_delete_Some. split; [intros []|intros []]; split; congruence.
  - rewrite (holds_keys b m) in Hs by done. destruct (m !! k); [by destruct Hs|done].
Qed.

(** ** The table *)

(** What belongs into chain [i]. *)
Definition part (sh i : Z) (m : gmap K V) : gmap K V := filter (λ x, do_hash sh x.1 = i) m.

Record repr (h : BHash) (m : gmap K V) : Prop := {
  r_shift : 1 ≤ right_shift h ≤ 31;
  r_slots : numSlots h = 2 ^ (32 - right_shift h);
  r_len : zlen (buckets h) = numSlots h;
  r_bucket i b : zget (buckets h) i = Some b → holds b (part (right_shift h) i m);
  r_items : numItems h = Z.of_nat (size m);
}.

Lemma part_lookup sh i m k : part sh i m !! k = if decide (do_hash sh k = i) then m !! k else None.
Proof.
  unfold part. destruct (m !! k) as [v|] eqn:E; case_decide as D.
  - by apply map_lookup_filter_Some.
  - apply map_lookup_filter_None. right. by intros ? _.
  - apply map_lookup_filter_None. by left.
  - apply map_lookup_filter_None. by left.
Qed.

(** Chains other than that of [k] do not see a change at [k]. *)
Lemma part_other sh i m m' k : (∀ j, j ≠ k → m' !! j = m !! j) → do_hash sh k ≠ i → part sh i m' = part sh i m.
Proof.
  intros Hm Hk. apply map_eq. intros j. rewrite !part_lookup. case_decide; [|done]. apply Hm. by intros ->.
Qed.

Lemma part_insert sh m k v : part sh (do_hash sh k) (<[k := v]> m) = <[k := v]> (part sh (do_hash sh k) m).
Proof.
  apply map_eq. intros j. rewrite part_lookup. destruct (decide (j = k)) as [->|Hne].
  - by rewrite decide_True, !lookup_insert_eq.
  - by rewrite !lookup_insert_ne, part_lookup by done.
Qed.

Lemma part_delete sh m k : part sh (do_hash sh k) (delete k m) = delete k (part sh (do_hash sh k) m).
Proof.
  apply map_eq. intros j. rewrite part_lookup. destruct (decide (j = k)) as [->|Hne].
  - by rewrite decide_True, !lookup_delete_eq.
  - by rewrite !lookup_delete_ne, part_lookup by done.
Qed.

Lemma do_hash_range sh k : 1 ≤ sh ≤ 31 → 0 ≤ do_hash sh k < 2 ^ (32 - sh).
Proof.
  intros Hs. unfold do_hash, wrapU. pose proof (Z.mod_pos_bound (hash k * BH_HASHMULT) (2 ^ 32) ltac:(lia)) as Hb.
  rewrite Z.shiftr_div_pow2 by lia. set (x := _ `mod` 2 ^ 32) in *.
  assert (0 ≤ x `div` 2 ^ sh < 2 ^ (32 - sh)) as Hr.
  { split; [apply Z.div_pos; lia|]. apply Z.div_lt_upper_bound; [lia|]. rewrite <- Z.pow_add_r by lia.
    replace (sh + (32 - sh)) with 32 by lia. lia. }
  assert (2 ^ (32 - sh) ≤ 2 ^ 31) by (apply Z.pow_le_mono_r; lia). rewrite to_int_small; lia.
Qed.

Lemma bucket_of_spec h m k : repr h m →
  ∃ b, bucket_of h k = Ret b ∧ zget (buckets h) (do_hash (right_shift h) k) = Some b ∧
    holds b (part (right_shift h) (do_hash (right_shift h) k) m) ∧
    part (right_shift h) (do_hash (right_shift h) k) m !! k = m !! k.
Proof.
  intros Hr. destruct (zget_lookup (buckets h) (do_hash (right_shift h) k)) as [b Eb].
  { rewrite (r_len _ _ Hr), (r_slots _ _ Hr). by apply do_hash_range, (r_shift _ _ Hr). }
  exists b. unfold bucket_of. rewrite Eb. split; [done|]. split; [done|]. split; [by apply (r_bucket _ _ Hr)|].
  by rewrite part_lookup, decide_True.
Qed.

Lemma repr_set h m m' k b n : repr h m → (∀ j, j ≠ k → m' !! j = m !! j) →
  holds b (part (right_shift h) (do_hash (right_shift h) k) m') → n = Z.of_nat (size m') →
  repr (set_bucket h n k b) m'.
Proof.
  intros [H1 H2 H3 H4 H5] Hm Hb Hn. constructor; cbn; try done.
  - by rewrite zlen_zset.
  - intros i b' E. rewrite zget_zset in E. case_decide as D.
    + destruct D as [<- _]. by injection E as <-.
    + destruct (decide (do_hash (right_shift h) k = i)) as [Ei|Ei].
      * exfalso. apply D. split; [done|]. rewrite Ei. by eapply zget_Some_lt.
      * rewrite (part_other _ _ m m' k Hm Ei). by apply H4.
Qed.

Lemma find_spec h m k : repr h m → find h k = Ret ((λ v, (k, v)) <$> m !! k).
Proof.
  intros Hr. destruct (bucket_of_spec h m k Hr) as (b & Eb & _ & Hb & Ek). unfold find. rewrite Eb. cbn. f_equal.
  rewrite <- Ek, (holds_lookup b _ k Hb), bk_find_loop. destruct (find_loop b k) as [[k' v]|] eqn:E; [|done].
  apply find_loop_Some in E as [_ E]. cbn in *. by subst.
Qed.

Lemma find_fast_spec h m k : repr h m → find_fast h k = of_option Undefined ((λ v, (k, v)) <$> m !! k).
Proof.
  intros Hr. destruct (bucket_of_spec h m k Hr) as (b & Eb & _ & Hb & Ek). unfold find_fast. rewrite Eb. cbn.
  by rewrite (holds_find_fast b _ k Hb), Ek.
Qed.

Lemma insert_new h m e b : repr h m → holds b (part (right_shift h) (do_hash (right_shift h) e.1) m) →
  m !! e.1 = None → part (right_shift h) (do_hash (right_shift h) e.1) m !! e.1 = None →
  bk_add b e = Ret (e :: b) ∧ repr (set_bucket h (numItems h + 1) e.1 (e :: b)) (<[e.1 := e.2]> m).
Proof.
  intros Hr Hb En Ep. destruct (holds_add b _ e Hb) as [Ea Hadd]. rewrite decide_True in Ea by done. split; [done|].
  apply (repr_set h m); [done| | |].
  - intros j Hj. by apply lookup_insert_ne.
  - rewrite part_insert. by apply Hadd.
  - rewrite (r_items _ _ Hr), map_size_insert_None by done. lia.
Qed.

Lemma add_spec h m e : repr h m →
  if decide (m !! e.1 = None) then ∃ h', add h e = Ret h' ∧ repr h' (<[e.1 := e.2]> m) ∧
    right_shift h' = right_shift h
  else add h e = Err AssertFail.
Proof.
  intros Hr. unfold add. rewrite (find_spec h m e.1 Hr). cbn [mbind outcome_bind].
  destruct (bucket_of_spec h m e.1 Hr) as (b & Eb & _ & Hb & Ek).
  destruct (m !! e.1) as [v|] eqn:E; [by rewrite decide_False|]. rewrite decide_True by done.
  cbn [fmap option_fmap option_map th_assert mbind outcome_bind]. rewrite bool_decide_true by done.
  cbn [th_assert mbind outcome_bind]. rewrite Eb. cbn [mbind outcome_bind].
  destruct (insert_new h m e b Hr Hb E) as [-> ?]; [done|]. by eexists.
Qed.

Lemma find_or_add_spec h m e : repr h m →
  match m !! e.1 with
  | Some v => find_or_add h e = Ret (h, Some (e.1, v))
  | None => ∃ h', find_or_add h e = Ret (h', None) ∧ repr h' (<[e.1 := e.2]> m)
  end.
Proof.
  intros Hr. unfold find_or_add. destruct (bucket_of_spec h m e.1 Hr) as (b & Eb & _ & Hb & Ek). rewrite Eb.
  cbn [mbind outcome_bind]. pose proof (holds_lookup b _ e.1 Hb) as El. rewrite Ek in El. rewrite bk_find_loop in *.
  destruct (m !! e.1) as [v|] eqn:E.
  - destruct (find_loop b e.1) as [[k' v']|] eqn:Ef; [|done]. apply find_loop_Some in Ef as [_ Ef]. cbn in *.
    subst k'. by injection El as <-.
  - destruct (find_loop b e.1); [done|]. destruct (insert_new h m e b Hr Hb E) as [-> ?]; [done|]. by eexists.
Qed.

Lemma store_spec h m e : repr h m →
  ∃ h', store h e = Ret (h', bool_decide (is_Some (m !! e.1))) ∧ repr h' (<[e.1 := e.2]> m).
Proof.
  intros Hr. unfold store. destruct (bucket_of_spec h m e.1 Hr) as (b & Eb & _ & Hb & Ek). rewrite Eb.
  cbn [mbind outcome_bind]. destruct (holds_store b _ e Hb) as (b' & -> & Hb'). rewrite Ek. cbn [mbind outcome_bind].
  eexists. split; [done|]. apply (repr_set h m); [done| | |].
  - intros j Hj. by apply lookup_insert_ne.
  - by rewrite part_insert.
  - rewrite (r_items _ _ Hr). destruct (m !! e.1) as [v|] eqn:E.
    + rewrite bool_decide_true by by eexists. by rewrite map_size_insert_Some.
    + rewrite bool_decide_false by by intros [? ?]. rewrite map_size_insert_None by done. lia.
Qed.

Lemma remove_spec h m k : repr h m →
  match m !! k with
  | Some v => ∃ h', remove h k = Ret (h', Some (k, v)) ∧ remove_fast h k = Ret (h', (k, v)) ∧ repr h' (delete k m)
  | None => remove h k = Ret (h, None) ∧ remove_fast h k = Err Undefined
  end.
Proof.
  intros Hr. unfold remove, remove_fast. destruct (bucket_of_spec h m k Hr) as (b & Eb & _ & Hb & Ek). rewrite Eb.
  cbn [mbind outcome_bind]. pose proof (holds_remove b _ k Hb) as Hrem. rewrite Ek in Hrem. unfold bk_remove_fast.
  destruct (m !! k) as [v|] eqn:E; [|by rewrite Hrem]. destruct Hrem as (b' & -> & Hb'). cbn.
  eexists. split; [done|]. split; [done|]. apply (repr_set h m); [done| | |].
  - intros j Hj. by apply lookup_delete_ne.
  - by rewrite part_delete.
  - rewrite (r_items _ _ Hr), map_size_delete_Some by by eexists.
    assert (size m ≠ 0%nat) by (intros E0; apply map_size_empty_inv in E0; by subst). lia.
Qed.

(** ** New tables *)
Lemma sizeup_loop_spec fuel desired sh : desired ≤ 2 ^ 30 → 2 ≤ sh ≤ 31 → sh < Z.of_nat fuel →
  ∃ sh', sizeup_loop fuel desired (2 ^ (32 - sh)) sh = Ret (2 ^ (32 - sh'), sh') ∧ 2 ≤ sh' ≤ 31.
Proof.
  intros Hd. revert sh. induction fuel as [|fuel IH]; intros sh Hs Hf; [lia|]. cbn [sizeup_loop].
  destruct (2 ^ (32 - sh) <? desired) eqn:E; cbn [andb]; [|by exists sh].
  rewrite (proj2 (Z.ltb_lt 0 sh)) by lia. zprop.
  assert (sh ≠ 2) as Hne.
  { intros ->. change (2 ^ (32 - 2)) with (2 ^ 30) in E. lia. }
  assert (2 ^ (32 - sh) * 2 = 2 ^ (32 - (sh - 1))) as Ep.
  { rewrite Z.mul_comm, <- Z.pow_succ_r by lia. f_equal. lia. }
  assert (2 ^ (32 - (sh - 1)) ≤ 2 ^ 30) by (apply Z.pow_le_mono_r; lia).
  assert (0 < 2 ^ (32 - (sh - 1))) by (apply Z.pow_pos_nonneg; lia).
  rewrite Ep, to_int_small by lia. apply IH; lia.
Qed.

Lemma fresh_spec desired : desired ≤ 2 ^ 30 → ∃ h, fresh desired = Ret h ∧ repr h ∅.
Proof.
  intros Hd. unfold fresh, sizeup. change 2 with (2 ^ (32 - (BH_PRECBITS - 1))) at 1.
  destruct (sizeup_loop_spec 32 desired (BH_PRECBITS - 1) Hd) as (sh & -> & Hsh); [unfold BH_PRECBITS; lia..|].
  cbn [mbind outcome_bind]. assert (0 < 2 ^ (32 - sh)) as Hp by (apply Z.pow_pos_nonneg; lia).
  rewrite (proj2 (Z.ltb_ge _ 0)) by lia. eexists. split; [done|]. constructor; cbn; [lia|done| | |done].
  - rewrite zlen_replicate. lia.
  - intros i b E. assert (b = []) as ->.
    { unfold zget in E. case_decide; [|done]. by apply lookup_replicate in E as [-> _]. }
    split; [apply NoDup_nil_2|]. intros k v. rewrite part_lookup, lookup_empty.
    split; [by intros ?%elem_of_nil|]. by case_decide.
Qed.

Lemma clear_spec h m : repr h m → repr (clear h) ∅.
Proof.
  intros [H1 H2 H3 H4 H5]. constructor; cbn; try done.
  - unfold zlen in *. by rewrite length_fmap.
  - intros i b E. assert (b = []) as ->.
    { unfold zget in E. case_decide; [|done]. rewrite list_lookup_fmap in E. apply fmap_Some in E as (? & _ & ->). done. }
    split; [apply NoDup_nil_2|]. intros k v. rewrite part_lookup, lookup_empty.
    split; [by intros ?%elem_of_nil|]. by case_decide.
Qed.

(** ** All entries *)
Definition entries (h : BHash) : list elem := mjoin (buckets h).

Lemma NoDup_join (l : list (list elem)) (f : elem → Z) off :
  (∀ i b, zget l i = Some b → NoDup b ∧ ∀ e, e ∈ b → f e = off + i) → NoDup (mjoin l).
Proof.
  revert off. induction l as [|b l IH]; intros off Hl; [apply NoDup_nil_2|]. cbn.
  apply NoDup_app. split; [by apply (Hl 0 b)|]. split.
  - intros e He Hin. apply list_elem_of_join in Hin as (b' & Heb & Hb').
    apply list_elem_of_lookup in Hb' as [i Hi].
    destruct (Hl 0 b eq_refl) as [_ H0']. destruct (Hl (1 + Z.of_nat i) b') as [_ Hi'].
    { unfold zget. rewrite decide_True by lia. by replace (Z.to_nat (1 + Z.of_nat i)) with (S i) by lia. }
    specialize (H0' e He). specialize (Hi' e Heb). lia.
  - apply (IH (off + 1)). intros i b' E. destruct (Hl (1 + i) b') as [Hnd Hb].
    { unfold zget in *. case_decide; [|done]. rewrite decide_True by lia.
      by replace (Z.to_nat (1 + i)) with (S (Z.to_nat i)) by lia. }
    split; [done|]. intros e He. rewrite (Hb e He). lia.
Qed.

Lemma entries_perm h m : repr h m → entries h ≡ₚ map_to_list m.
Proof.
  intros Hr. assert (∀ i b e, zget (buckets h) i = Some b → e ∈ b → m !! e.1 = Some e.2 ∧ do_hash (right_shift h) e.1 = i) as Hin.
  { intros i b [k v] E He. apply (r_bucket _ _ Hr i b E) in He. rewrite part_lookup in He. cbn.
    by case_decide. }
  apply NoDup_Permutation.
  - unfold entries. apply (NoDup_join _ (λ e, do_hash (right_shift h) e.1) 0). intros i b E.
    split; [eapply NoDup_fmap_1, (r_bucket _ _ Hr i b E)|]. intros e He. by destruct (Hin i b e E He).
  - apply NoDup_map_to_list.
  - intros [k v]. rewrite elem_of_map_to_list. unfold entries. rewrite list_elem_of_join. split.
    + intros (b & He & Hb). apply list_elem_of_lookup in Hb as [i Hi]. apply (Hin (Z.of_nat i) b (k, v)); [|done].
      unfold zget. by rewrite decide_True, Nat2Z.id by lia.
    + intros Em. destruct (bucket_of_spec h m k Hr) as (b & _ & Eb & [_ Hb] & Ek). exists b. split.
      * apply Hb. by rewrite Ek.
      * unfold zget in Eb. case_decide; [|done]. by eapply list_elem_of_lookup_2.
Qed.

(** ** Rehashing *)
Definition insert_all (m : gmap K V) (l : list elem) : gmap K V := foldl (λ m e, <[e.1 := e.2]> m) m l.

Lemma insert_all_lookup l m k : NoDup l.*1 →
  insert_all m l !! k = match find_loop l k with Some e => Some e.2 | None => m !! k end.
Proof.
  revert m. induction l as [|e l IH]; intros m Hnd; [done|]. cbn in Hnd. apply NoDup_cons in Hnd as [He Hnd].
  cbn [insert_all foldl]. fold (insert_all (<[e.1 := e.2]> m) l). rewrite IH by done. cbn [find_loop].
  destruct (similar e k) eqn:Es.
  - apply similar_spec in Es. apply find_loop_None in He. rewrite Es in He |- *. rewrite He. apply lookup_insert_eq.
  - destruct (find_loop l k) as [x|] eqn:Ex; [done|]. apply lookup_insert_ne. intros Ek.
    by rewrite (proj2 (similar_spec e k) Ek) in Es.
Qed.

Lemma holds_entries m l : l ≡ₚ map_to_list m → holds l m.
Proof.
  intros Hp. split; [rewrite Hp; apply NoDup_fst_map_to_list|]. intros k v. by rewrite Hp, elem_of_map_to_list.
Qed.

Lemma insert_all_entries m l : l ≡ₚ map_to_list m → insert_all ∅ l = m.
Proof.
  intros Hh%holds_entries. apply map_eq. intros k. rewrite insert_all_lookup, lookup_empty by apply Hh.
  rewrite (holds_lookup l m k Hh), bk_find_loop. by destruct (find_loop l k).
Qed.

Lemma add_gen_spec fuel : ∀ g h m, repr h m → NoDup (after g).*1 → (∀ k, k ∈ (after g).*1 → m !! k = None) →
  (length (after g) < fuel)%nat → ∃ h', add_gen fuel h g = Ret h' ∧ repr h' (insert_all m (after g)).
Proof.
  induction fuel as [|fuel IH]; intros g h m Hr Hnd Hnew Hf; [lia|]. cbn [add_gen]. unfold gen_get.
  destruct (after g) as [|e l] eqn:Ea; [by exists h|]. cbn [length] in Hf. cbn in Hnd.
  apply NoDup_cons in Hnd as [He Hnd]. pose proof (add_spec h m e Hr) as Hadd.
  rewrite decide_True in Hadd by (apply Hnew; cbn; by left). destruct Hadd as (h1 & -> & Hr1 & _).
  cbn [mbind outcome_bind]. cbn [insert_all foldl].
  apply (IH (mkGen _ (Some e) l) h1); cbn [after]; [done|done| |lia].
  intros k Hk. rewrite lookup_insert_ne by (intros <-; done). apply Hnew. cbn. by right.
Qed.

Lemma add_chains_spec l : ∀ h m, repr h m → NoDup (mjoin l).*1 → (∀ k, k ∈ (mjoin l).*1 → m !! k = None) →
  ∃ h', add_chains h l = Ret h' ∧ repr h' (insert_all m (mjoin l)).
Proof.
  induction l as [|b l IH]; intros h m Hr Hnd Hnew; [by exists h|]. cbn [add_chains]. cbn in Hnd, Hnew.
  rewrite fmap_app in Hnd, Hnew. apply NoDup_app in Hnd as (Hb & Hdis & Hl).
  destruct (add_gen_spec (S (length b)) (gen_start b) h m Hr) as (h1 & -> & Hr1); cbn [gen_start after]; [done| |lia|].
  { intros k Hk. apply Hnew. apply elem_of_app. by left. }
  cbn [mbind outcome_bind]. cbn [gen_start after] in Hr1.
  destruct (IH h1 (insert_all m b) Hr1 Hl) as (h' & -> & Hr').
  - intros k Hk. rewrite insert_all_lookup by done.
    assert (find_loop b k = None) as -> by (apply find_loop_None; intros ?; by apply (Hdis k)).
    apply Hnew. apply elem_of_app. by right.
  - exists h'. split; [done|]. unfold insert_all in *. cbn. by rewrite foldl_app.
Qed.

Lemma rehash_spec h m desired : repr h m → desired ≤ 2 ^ 30 →
  ∃ h', (h0 ← fresh desired; add_chains h0 (buckets h)) = Ret h' ∧ repr h' m.
Proof.
  intros Hr Hd. destruct (fresh_spec desired Hd) as (h0 & -> & Hr0). cbn [mbind outcome_bind].
  pose proof (entries_perm h m Hr) as Hp. unfold entries in Hp.
  destruct (add_chains_spec (buckets h) h0 ∅ Hr0) as (h' & -> & Hr').
  - rewrite Hp. apply NoDup_fst_map_to_list.
  - intros k _. apply lookup_empty.
  - exists h'. split; [done|]. by rewrite (insert_all_entries m) in Hr'.
Qed.

Lemma predict_spec h m desired : repr h m → desired ≤ 2 ^ 30 → ∃ h', predict h desired = Ret h' ∧ repr h' m.
Proof.
  intros Hr Hd. unfold predict. destruct (_ && _); [by exists h|]. destruct (_ && _); [by exists h|].
  by apply rehash_spec.
Qed.

Lemma auto_resize_spec h m : repr h m → Z.of_nat (size m) < 2 ^ 31 → ∃ h', allowAutoResize h = Ret h' ∧ repr h' m.
Proof.
  intros Hr Hs. unfold allowAutoResize. apply predict_spec; [done|]. rewrite (r_items _ _ Hr).
  unfold BH_MAX_DESIRED_ALPHA. apply Z.quot_le_upper_bound; lia.
Qed.

Lemma copy_spec h m : repr h m → Z.of_nat (size m) ≤ 2 ^ 30 → ∃ h', copy h = Ret h' ∧ repr h' m.
Proof. intros Hr Hs. unfold copy. apply rehash_spec; [done|]. by rewrite (r_items _ _ Hr). Qed.

(** ** Sweeps *)

(** The generator stands in the chain of its slot. *)
Definition coherent (h : BHash) (g : hgen) : Prop := zget (buckets h) (slot g) = Some (gen_bucket (gen g)).

(** The pairs it has not passed. *)
Definition rest (h : BHash) (g : hgen) : list elem := after (gen g) ++ mjoin (drop (S (Z.to_nat (slot g))) (buckets h)).

(** What a call of [get] gives. *)
Definition get_result (h : BHash) (l : list elem) (r : outcome (option elem * hgen)) : Prop :=
  match l with
  | [] => ∃ g, r = Ret (None, g)
  | e :: l => ∃ g, r = Ret (Some e, g) ∧ coherent h g ∧ rest h g = l ∧ current (gen g) = Some e
  end.

Lemma drop_zget {A} (l : list A) i x : zget l i = Some x → drop (Z.to_nat i) l = x :: drop (S (Z.to_nat i)) l.
Proof. unfold zget. case_decide; [|done]. apply drop_S. Qed.

Lemma gen_get_bucket g : gen_bucket (gen_get g).2 = gen_bucket g.
Proof.
  unfold gen_bucket, gen_get. destruct (after g) as [|e l]; cbn; [by rewrite !app_nil_r|].
  by rewrite <- app_assoc.
Qed.

Lemma next_slot_spec fuel : ∀ h s g, numSlots h = zlen (buckets h) → 0 ≤ s < zlen (buckets h) →
  zlen (buckets h) - s ≤ Z.of_nat fuel →
  get_result h (mjoin (drop (S (Z.to_nat s)) (buckets h))) (next_slot fuel h s g).
Proof.
  induction fuel as [|fuel IH]; intros h s g Hn Hs Hf; [lia|]. cbn [next_slot].
  replace (S (Z.to_nat s)) with (Z.to_nat (s + 1)) by lia. destruct (Z.eqb_spec (s + 1) (numSlots h)) as [Ee|Ne].
  - rewrite drop_ge by (unfold zlen in *; lia). cbn. by eexists.
  - destruct (zget_lookup (buckets h) (s + 1)) as [b Eb]; [lia|]. rewrite (drop_zget _ _ _ Eb), Eb.
    cbn [of_option mbind outcome_bind]. destruct b as [|e b]; cbn [gen_get gen_start before current after].
    + cbn. apply IH; [done|lia..].
    + cbn. eexists. split; [done|]. done.
Qed.

Lemma hgen_get_spec h g : numSlots h = zlen (buckets h) → coherent h g → get_result h (rest h g) (hgen_get h g).
Proof.
  intros Hn Hc. unfold hgen_get, rest. destruct (gen_get (gen g)) as [o b] eqn:E.
  pose proof (gen_get_bucket (gen g)) as Eb. rewrite E in Eb. cbn in Eb. unfold gen_get in E.
  destruct (after (gen g)) as [|e l]; injection E as <- <-; cbn [app].
  - pose proof (zget_Some_lt _ _ _ Hc). apply next_slot_spec; [done|done|unfold zlen in *; lia].
  - cbn [get_result]. eexists. split; [done|]. unfold coherent, rest. cbn [slot gen]. rewrite Eb. done.
Qed.

Lemma holds_without (l1 l2 : list elem) (e : elem) m : holds (l1 ++ e :: l2) m → holds (l1 ++ l2) (delete e.1 m).
Proof.
  intros [Hnd Hb]. rewrite fmap_app, fmap_cons in Hnd.
  assert (l1.*1 ++ e.1 :: l2.*1 ≡ₚ e.1 :: (l1 ++ l2).*1) as Ep by (rewrite fmap_app; by rewrite Permutation_middle).
  rewrite Ep in Hnd. apply NoDup_cons in Hnd as [He Hnd]. split; [done|]. intros k v.
  rewrite lookup_delete_Some, <- Hb, !elem_of_app, elem_of_cons. split.
  - intros Hin. split; [|tauto]. intros <-. apply He. apply list_elem_of_fmap. exists (e.1, v).
    split; [done|]. by apply elem_of_app.
  - intros [Hne [?|[E|?]]]; [by left| |by right]. by rewrite <- E in Hne.
Qed.

Lemma hgen_remove_spec h m g e : repr h m → coherent h g → current (gen g) = Some e →
  ∃ h' g', hgen_remove h g = Ret (h', g') ∧ repr h' (delete e.1 m) ∧ coherent h' g' ∧ rest h' g' = rest h g.
Proof.
  intros Hr Hc He. unfold hgen_remove, gen_remove. rewrite He. cbn [mbind outcome_bind].
  pose proof (zget_Some_lt _ _ _ Hc) as Hlt. unfold coherent, gen_bucket in Hc. rewrite He in Hc. cbn in Hc.
  pose proof (r_bucket _ _ Hr _ _ Hc) as Hb.
  assert (do_hash (right_shift h) e.1 = slot g ∧ m !! e.1 = Some e.2) as [Eh Em].
  { destruct e as [k v]. cbn. destruct Hb as [_ Hb]. specialize (Hb k v). rewrite part_lookup in Hb.
    destruct (decide (do_hash (right_shift h) k = slot g)) as [Eh|]; [split; [done|]; apply Hb|exfalso].
    - apply elem_of_app. right. by left.
    - enough (None = Some v) by done. apply Hb. apply elem_of_app. right. by left. }
  eexists _, _. split; [done|]. cbn [gen_bucket before current after option_list]. split; [|split].
  - change (repr (mkHash (numItems h - 1) (numSlots h) (right_shift h)
      (zset (buckets h) (slot g) (before (gen g) ++ after (gen g)))) (delete e.1 m)).
    rewrite <- Eh. apply (repr_set h m); [done| | |].
    + intros j Hj. by apply lookup_delete_ne.
    + rewrite part_delete, Eh. by apply holds_without.
    + rewrite (r_items _ _ Hr), map_size_delete_Some by by eexists.
      assert (size m ≠ 0%nat) by (intros E0; apply map_size_empty_inv in E0; by subst). lia.
  - unfold coherent. cbn. by apply zget_zset_eq.
  - unfold rest. cbn. f_equal. f_equal. unfold zset. case_decide; [|done]. by rewrite drop_insert_lt by lia.
Qed.

(** The map when the pairs of [l] have been passed. *)
Definition removed (P : elem → bool) (m : gmap K V) (l : list elem) : gmap K V :=
  foldl (λ m e, if P e then delete e.1 m else m) m l.

Lemma sweep_loop_spec P fuel : ∀ h m g, repr h m → coherent h g → (length (rest h g) < fuel)%nat →
  ∃ h', sweep_loop fuel P h g = Ret (h', rest h g) ∧ repr h' (removed P m (rest h g)).
Proof.
  induction fuel as [|fuel IH]; intros h m g Hr Hc Hf; [lia|]. cbn [sweep_loop].
  pose proof (hgen_get_spec h g ltac:(by rewrite (r_len _ _ Hr)) Hc) as Hg.
  destruct (rest h g) as [|e l]; cbn [get_result] in Hg.
  - destruct Hg as [g' ->]. cbn. by exists h.
  - destruct Hg as (g' & -> & Hc' & <- & He). cbn [mbind outcome_bind]. cbn [length] in Hf.
    cbn [removed foldl]. destruct (P e).
    + destruct (hgen_remove_spec h m g' e Hr Hc' He) as (h1 & g1 & -> & Hr1 & Hc1 & E1). cbn [mbind outcome_bind].
      rewrite <- E1 in *. destruct (IH h1 (delete e.1 m) g1 Hr1 Hc1) as (h' & -> & Hr'); [lia|]. by exists h'.
    + cbn [mbind outcome_bind]. destruct (IH h m g' Hr Hc') as (h' & -> & Hr'); [lia|]. by exists h'.
Qed.

Lemma removed_lookup P l m k : NoDup l.*1 →
  removed P m l !! k = match find_loop l k with Some e => if P e then None else m !! k | None => m !! k end.
Proof.
  revert m. induction l as [|e l IH]; intros m Hnd; [done|]. cbn in Hnd. apply NoDup_cons in Hnd as [He Hnd].
  cbn [removed foldl]. fold (removed P (if P e then delete e.1 m else m) l). rewrite IH by done. cbn [find_loop].
  destruct (similar e k) eqn:Es.
  - apply similar_spec in Es. apply find_loop_None in He. rewrite Es in He |- *. rewrite He.
    destruct (P e); [apply lookup_delete_eq|done].
  - destruct (P e); [|done]. rewrite lookup_delete_ne; [done|]. intros Ek.
    by rewrite (proj2 (similar_spec e k) Ek) in Es.
Qed.

Lemma removed_entries P m l : l ≡ₚ map_to_list m → removed P m l = filter (λ e, P e = false) m.
Proof.
  intros Hp. pose proof (holds_entries m l Hp) as Hh. apply map_eq. intros k.
  rewrite removed_lookup by apply Hh. pose proof (holds_lookup l m k Hh) as El. rewrite bk_find_loop in El.
  destruct (find_loop l k) as [[k' v]|] eqn:E; cbn in El.
  - apply find_loop_Some in E as [_ E]. cbn in E. subst k'. rewrite El. destruct (P (k, v)) eqn:EP; symmetry.
    + apply map_lookup_filter_None. right. intros v' E. rewrite El in E. injection E as <-. congruence.
    + by apply map_lookup_filter_Some.
  - rewrite El. symmetry. apply map_lookup_filter_None. by left.
Qed.

Lemma sweep_spec P h m : repr h m →
  ∃ h' l, sweep P h = Ret (h', l) ∧ l ≡ₚ map_to_list m ∧ repr h' (filter (λ e, P e = false) m).
Proof.
  intros Hr. pose proof (entries_perm h m Hr) as Hp. unfold sweep, hgen_start.
  assert (0 < zlen (buckets h)) as Hlen.
  { rewrite (r_len _ _ Hr), (r_slots _ _ Hr). pose proof (r_shift _ _ Hr). apply Z.pow_pos_nonneg; lia. }
  destruct (zget_lookup (buckets h) 0) as [b Eb]; [lia|]. rewrite Eb. cbn [of_option mbind outcome_bind].
  assert (rest h (mkHgen 0 (gen_start b)) = entries h) as Erest.
  { unfold entries. pose proof (drop_zget _ _ _ Eb) as Ed. cbn in Ed. rewrite drop_0 in Ed. rewrite Ed at 1. by rewrite Ed. }
  destruct (sweep_loop_spec P (S (Z.to_nat (numItems h))) h m (mkHgen 0 (gen_start b)) Hr Eb) as (h' & E & Hr').
  - rewrite Erest, Hp, length_map_to_list, (r_items _ _ Hr). lia.
  - rewrite Erest in *. exists h', (entries h). split; [done|]. split; [done|].
    by rewrite <- (removed_entries P m (entries h) Hp).
Qed.
End hash_map.
End HMap.
