(* ===== verification/HashMapProps.v ===== *)
(** * HashMapProps: the hash table implements a finite map

    Every call on a [Map], in any order and with any function of hashing, does and returns what
    the same call does to a finite map, errors of the checks included. *)
From stdpp Require Import gmap.
From S2P Require Import Prelude HashMap.

Module HMapProps.
Import HMap.

Section refinement.
Context {K V : Type} `{Countable K} (hash : K → Z) (dflt : V).
Implicit Types (h : @BHash K V) (m : gmap K V) (o : @op K V).

(** One call: the outcome of the table, given that of the map. *)
Definition refines {A} (h : outcome (@BHash K V * A)) (eqv : A → A → Prop) (s : outcome (gmap K V * A)) : Prop :=
  match s with
  | Ret (m', r) => ∃ h' r', h = Ret (h', r') ∧ repr hash h' m' ∧ eqv r' r
  | Err e => h = Err e
  end.

Lemma same_result_refl (r : @result K V) : same_result r r.
Proof. destruct r; cbn; reflexivity. Qed.

Lemma refines_ret h m (r : @result K V) : repr hash h m → refines (Ret (h, r)) same_result (Ret (m, r)).
Proof. intros Hr. exists h, r. split; [done|]. split; [done|]. apply same_result_refl. Qed.

Lemma find_op_spec h m k : repr hash h m →
  map_find hash h k = Ret (m !! k) ∧ contains hash h k = Ret (bool_decide (is_Some (m !! k))) ∧
  fetch hash h k = of_option Undefined (m !! k).
Proof.
  intros Hr. unfold map_find, contains, fetch.
  rewrite (find_spec hash h m k Hr), (find_fast_spec hash h m k Hr). by destruct (m !! k).
Qed.

Lemma add_refines h m k v : repr hash h m → Z.of_nat (size m) < 2 ^ 30 →
  if decide (m !! k = None)
  then (∃ h', add hash h (k, v) = Ret h' ∧ repr hash h' (<[k := v]> m)) ∧
       ∃ h', map_add1 hash h k v = Ret h' ∧ repr hash h' (<[k := v]> m)
  else add hash h (k, v) = Err AssertFail ∧ map_add1 hash h k v = Err AssertFail.
Proof.
  intros Hr Hs. unfold map_add1. pose proof (add_spec hash h m (k, v) Hr) as Ha. cbn in Ha.
  case_decide as E; [|by rewrite Ha]. destruct Ha as (h' & -> & Hr' & _). split; [by exists h'|].
  cbn [mbind outcome_bind]. apply auto_resize_spec; [done|]. rewrite map_size_insert_None by done. lia.
Qed.

Lemma find_or_add_refines h m k v : repr hash h m → Z.of_nat (size m) < 2 ^ 30 →
  ∃ h', map_find_or_add hash h k v = Ret (h', m !! k) ∧
    repr hash h' (match m !! k with Some _ => m | None => <[k := v]> m end).
Proof.
  intros Hr Hs. unfold map_find_or_add. pose proof (find_or_add_spec hash h m (k, v) Hr) as Hf. cbn in Hf.
  destruct (m !! k) as [v'|] eqn:E; [rewrite Hf; by exists h|]. destruct Hf as (h1 & -> & Hr1).
  cbn [mbind outcome_bind]. destruct (auto_resize_spec hash h1 _ Hr1) as (h' & -> & Hr'); [|by exists h'].
  rewrite map_size_insert_None by done. lia.
Qed.

Lemma store_refines h m k v : repr hash h m → Z.of_nat (size m) < 2 ^ 30 →
  (∃ h', store hash h (k, v) = Ret (h', bool_decide (is_Some (m !! k))) ∧ repr hash h' (<[k := v]> m)) ∧
  ∃ h', map_store1 hash h k v = Ret (h', bool_decide (is_Some (m !! k))) ∧ repr hash h' (<[k := v]> m).
Proof.
  intros Hr Hs. split; [by apply (store_spec hash h m (k, v))|]. unfold map_store1.
  destruct (auto_resize_spec hash h m Hr) as (h1 & -> & Hr1); [lia|]. cbn [mbind outcome_bind].
  by apply (store_spec hash h1 m (k, v)).
Qed.

Lemma map_remove_refines h m k : repr hash h m →
  (∃ h', map_remove hash dflt h k =
      Ret (h', match m !! k with Some v => (v, true) | None => (dflt, false) end) ∧ repr hash h' (delete k m)) ∧
  match m !! k with
  | Some v => ∃ h', map_remove_fast hash h k = Ret (h', v) ∧ repr hash h' (delete k m)
  | None => map_remove_fast hash h k = Err Undefined
  end.
Proof.
  intros Hr. unfold map_remove, map_remove_fast. pose proof (remove_spec hash h m k Hr) as Hs.
  destruct (m !! k) as [v|] eqn:E.
  - destruct Hs as (h' & -> & -> & Hr'). cbn. split; by exists h'.
  - destruct Hs as [-> ->]. cbn. split; [|done]. exists h. by rewrite delete_id.
Qed.

Lemma run_op_refines h m o : repr hash h m → op_bounded o → Z.of_nat (size m) < 2 ^ 30 →
  refines (run_op hash dflt h o) same_result (spec_op dflt m o).
Proof.
  intros Hr Ho Hs. pose proof (λ k, find_op_spec h m k Hr) as Hf. pose proof (λ k v, add_refines h m k v Hr Hs) as Ha.
  pose proof (λ k v, store_refines h m k v Hr Hs) as Hst. pose proof (λ k, map_remove_refines h m k Hr) as Hrm.
  destruct o as [k v|k v|k|k|k|k v|k v|k v|k|k| |n| | | |P]; cbn [run_op spec_op].
  1,2: specialize (Ha k v); case_decide; [destruct Ha as [(h1 & E1 & ?) (h2 & E2 & ?)]|destruct Ha as [E1 E2]];
    rewrite ?E1, ?E2; [by apply refines_ret|done].
  1,2,3: specialize (Hf k) as (E1 & E2 & E3); rewrite ?E1, ?E2, ?E3.
  1,2: by apply refines_ret.
  - destruct (m !! k); [by apply refines_ret|done].
  - destruct (find_or_add_refines h m k v Hr Hs) as (h' & -> & ?). by apply refines_ret.
  - specialize (Hst k v) as [(h' & -> & ?) _]. by apply refines_ret.
  - specialize (Hst k v) as [_ (h' & -> & ?)]. by apply refines_ret.
  - specialize (Hrm k) as [(h' & -> & ?) _]. cbn. destruct (m !! k); by apply refines_ret.
  - specialize (Hrm k) as [_ Hrm]. destruct (m !! k); [|by rewrite Hrm]. destruct Hrm as (h' & -> & ?).
    by apply refines_ret.
  - apply refines_ret. by apply (clear_spec hash h m).
  - destruct (predict_spec hash h m n Hr Ho) as (h' & -> & ?). by apply refines_ret.
  - destruct (auto_resize_spec hash h m Hr) as (h' & -> & ?); [lia|]. by apply refines_ret.
  - destruct (copy_spec hash h m Hr) as (h' & -> & ?); [lia|]. by apply refines_ret.
  - unfold size_of. rewrite (r_items _ _ _ Hr). by apply refines_ret.
  - destruct (sweep_spec hash P h m Hr) as (h' & l & -> & Hp & Hr'). cbn. by exists h', (RPairs l).
Qed.

Lemma spec_op_size m o m' r : spec_op dflt m o = Ret (m', r) → (size m' ≤ S (size m))%nat.
Proof.
  assert (∀ k v, (size (<[k:=v]> m) ≤ S (size m))%nat) as Hi.
  { intros k v. rewrite map_size_insert. destruct (m !! k); cbn; lia. }
  assert (∀ k, (size (delete k m) ≤ S (size m))%nat) as Hd.
  { intros k. rewrite map_size_delete. destruct (m !! k); cbn; lia. }
  destruct o as [k v|k v|k|k|k|k v|k v|k v|k|k| |n| | | |P]; cbn [spec_op]; try case_decide; try destruct (m !! k);
    intros [= <- _]; rewrite ?map_size_empty; auto with arith.
  apply le_S, map_size_filter.
Qed.

Lemma run_ops_refines ops : ∀ h m, repr hash h m → Forall op_bounded ops →
  Z.of_nat (size m + length ops) ≤ 2 ^ 30 →
  refines (run_calls (run_op hash dflt) h ops) (Forall2 same_result) (run_calls (spec_op dflt) m ops).
Proof.
  induction ops as [|o ops IH]; intros h m Hr Hb Hs; [by exists h, []|]. apply Forall_cons in Hb as [Ho Hb].
  cbn [length] in Hs. cbn [run_calls]. pose proof (run_op_refines h m o Hr Ho ltac:(lia)) as Hone.
  destruct (spec_op dflt m o) as [[m1 r]|e] eqn:E; cbn in Hone; [|by rewrite Hone].
  destruct Hone as (h1 & r1 & -> & Hr1 & Hres). apply spec_op_size in E. cbn [mbind outcome_bind].
  specialize (IH h1 m1 Hr1 Hb ltac:(lia)). destruct (run_calls (spec_op dflt) m1 ops) as [[m2 rs]|e]; cbn in IH.
  - destruct IH as (h2 & rs' & -> & Hr2 & Hall). exists h2, (r1 :: rs'). by auto.
  - by rewrite IH.
Qed.

(** C21: the table refines the finite map.  A map is made with any hint of a size up to [2^30],
    and any sequence of at most [2^30] calls is run on it, whatever the hash function (the
    sizes asked for with [predict] are at most [2^30]).  Then each call gives what it gives on a
    finite map, and the table after it holds the pairs of the finite map: when the map is
    resized, copied, cleared or swept by a generator that removes pairs as well, and when a check
    stops the program.  The loops all end.  The generators yield every pair once, in any order. *)
Theorem hash_map_refines_gmap n ops :
  n ≤ 2 ^ 30 → Forall op_bounded ops → Z.of_nat (length ops) ≤ 2 ^ 30 →
  refines (h ← make_hint n; run_calls (run_op hash dflt) h ops) (Forall2 same_result)
    (run_calls (spec_op dflt) ∅ ops).
Proof.
  intros Hn Hb Hl. unfold make_hint. destruct (fresh_spec (V:=V) hash n Hn) as (h & -> & Hr). cbn [mbind outcome_bind].
  apply run_ops_refines; [done|done|]. by rewrite map_size_empty.
Qed.
End refinement.

(** ** An example: keys that collide, until the table grows; then a sweep *)
Module Sample.
Definition collide (k : Z) : Z := k `div` 8.
Definition ops : list (@op Z Z) :=
  [OpAdd 1 10; OpAdd 2 20; OpStore 2 21; OpFindOrAdd 3 30; OpAdd1 40 4; OpAdd1 50 5; OpAdd1 60 6; OpFindOrAdd 3 31;
   OpRemove 7; OpRemove 1; OpSweep (λ e, bool_decide (e.1 < 50)); OpFind 2; OpFind 50; OpCopy; OpSize].

(** What the calls on the table return. *)
Definition results : list (@result Z Z) :=
  match (h ← make_hint 1; run_calls (run_op collide 0) h ops) with Ret (_, rs) => rs | Err _ => [] end.

Lemma hash_map_refines_gmap_witness :
  refines collide (h ← make_hint 1; run_calls (run_op collide 0) h ops) (Forall2 same_result)
    (run_calls (spec_op 0) ∅ ops) ∧
  (∃ h rs, (h ← make_hint 1; run_calls (run_op collide 0) h ops) = Ret (h, rs) ∧ numSlots h = 2) ∧
  results !! 6%nat = Some RUnit ∧ results !! 7%nat = Some (RFound (Some 30)) ∧ results !! 14%nat = Some (RSize 2).
Proof.
  split; [|split; [eexists _, _; split; vm_compute; reflexivity|vm_compute; auto]].
  refine (hash_map_refines_gmap collide 0 1 ops _ _ _); [lia| |vm_compute; discriminate].
  repeat constructor.
Defined.
End Sample.
End HMapProps.
