(* ===== verification/ResizeArray.v ===== *)
(** * ResizeArray: the growing array of the library (src/src/Array.{h,t})

    [Array<T>] is a block of memory with room for [alloc_] elements of which the first
    [size_] are in use.  The tables of the request queue, of the view changes and of the timers
    are such arrays; their models use lists, which the refinement of this file justifies.
    What a new block holds is a parameter, so that no result can rest on it.  An operand that
    may be the array itself is an option, with [None] for the array. *)
From stdpp Require Import list.
From S2P Require Import Prelude.

Module Arr.
Section array.
Context {T : Type} (junk : nat → T).

Record Array := mkArray { store_ : list T; alloc_ : Z; size_ : Z }.

(** [new T[n]] *)
Definition new_T (n : Z) : outcome (list T) :=
  if n <? 0 then Err Undefined else Ret (junk <$> seq 0 (Z.to_nat n)).

Definition put (dst : list T) (j : Z) (x : T) : outcome (list T) :=
  if bool_decide (0 ≤ j < zlen dst) then Ret (zset dst j x) else Err Undefined.

(** [for (...) dst[i + off] = src[i]], [n] times from [i] on; with [None] for [src] it is [dst]. *)
Fixpoint copy_loop (n : nat) (i off : Z) (src : option (list T)) (dst : list T) : outcome (list T) :=
  match n with
  | O => Ret dst
  | S n =>
      x ← of_option Undefined (zget (default dst src) i);
      dst ← put dst (i + off) x;
      copy_loop n (i + 1) off src dst
  end.

(** [for (...) dst[i + off] = element] *)
Fixpoint fill_loop (n : nat) (i off : Z) (element : T) (dst : list T) : outcome (list T) :=
  match n with
  | O => Ret dst
  | S n => dst ← put dst (i + off) element; fill_loop n (i + 1) off element dst
  end.

Definition set_store (a : Array) (l : list T) : Array := mkArray l (alloc_ a) (size_ a).
Definition set_size (a : Array) (n : Z) : Array := mkArray (store_ a) (alloc_ a) n.

(** ** Storage *)
Definition enlarge_allocation_to (a : Array) (newsize : Z) : outcome Array :=
  let newalloc := to_int (alloc_ a * 2) in
  let newalloc := if newalloc <? newsize then newsize else newalloc in
  l ← new_T newalloc;
  l ← copy_loop (Z.to_nat (size_ a)) 0 0 (Some (store_ a)) l;
  Ret (mkArray l newalloc (size_ a)).

Definition enlarge_to (a : Array) (newsize : Z) : outcome Array :=
  a ← (if alloc_ a <? newsize then enlarge_allocation_to a newsize else Ret a);
  Ret (set_size a newsize).

Definition predict (a : Array) (new_alloc : Z) : outcome Array :=
  if alloc_ a <? new_alloc then enlarge_allocation_to a new_alloc else Ret a.

(** The store of an empty array is deleted, and may not be used again. *)
Definition reclaim (a : Array) : outcome Array :=
  if size_ a <? alloc_ a then
    if 0 <? size_ a then
      l ← new_T (size_ a);
      l ← copy_loop (Z.to_nat (size_ a)) 0 0 (Some (store_ a)) l;
      Ret (mkArray l (size_ a) (size_ a))
    else Ret (if 0 <? alloc_ a then mkArray [] 0 (size_ a) else a)
  else Ret a.

(** ** Constructors *)
Definition make : Array := mkArray [] 0 0.

Definition make_predict (n : Z) : outcome Array :=
  _ ← th_assert (0 <=? n);
  a ← enlarge_to make n;
  Ret (set_size a 0).

Definition make_array (src : list T) (s : Z) : outcome Array :=
  _ ← th_assert (0 <=? s);
  a ← enlarge_to make s;
  l ← copy_loop (Z.to_nat s) 0 0 (Some src) (store_ a);
  Ret (set_store a l).

Definition make_copy (d : Array) : outcome Array :=
  a ← enlarge_to make (size_ d);
  l ← copy_loop (Z.to_nat (size_ a)) 0 0 (Some (store_ d)) (store_ a);
  Ret (set_store a l).

Definition make_fill (element : T) (num : Z) : outcome Array :=
  _ ← th_assert (0 <=? num);
  a ← enlarge_to make num;
  l ← fill_loop (Z.to_nat num) 0 0 element (store_ a);
  Ret (set_store a l).

(** ** Operations *)

(** The size of an operand, when the array is [a]. *)
Definition size_of (a : Array) (d : option Array) : Z := size_ (default a d).

Definition assign (a : Array) (d : option Array) : outcome Array :=
  let a := set_size a 0 in
  a ← enlarge_to a (size_of a d);
  l ← copy_loop (Z.to_nat (size_ a)) 0 0 (store_ <$> d) (store_ a);
  Ret (set_store a l).

Definition slot (a : Array) (index : Z) : outcome T :=
  _ ← th_assert ((0 <=? index) && (index <? size_ a));
  of_option Undefined (zget (store_ a) index).

(** [a[index] = v] *)
Definition slot_set (a : Array) (index : Z) (v : T) : outcome Array :=
  _ ← th_assert ((0 <=? index) && (index <? size_ a));
  l ← put (store_ a) index v;
  Ret (set_store a l).

Definition high (a : Array) : outcome T :=
  _ ← th_assert (0 <? size_ a);
  of_option Undefined (zget (store_ a) (size_ a - 1)).

Definition append (a : Array) (v : T) : outcome Array :=
  a ← (if alloc_ a <=? size_ a then enlarge_allocation_to a (to_int (size_ a + 1)) else Ret a);
  l ← put (store_ a) (size_ a) v;
  Ret (mkArray l (alloc_ a) (to_int (size_ a + 1))).

Definition append_n (a : Array) (element : T) (n : Z) : outcome Array :=
  _ ← th_assert (0 <=? n);
  let oldsize := size_ a in
  a ← enlarge_to a (to_int (size_ a + n));
  l ← fill_loop (Z.to_nat n) 0 oldsize element (store_ a);
  Ret (set_store a l).

(** The size of the operand is read again for the loop. *)
Definition concat (a : Array) (d : option Array) : outcome Array :=
  let oldsize := size_ a in
  a ← enlarge_to a (to_int (size_ a + size_of a d));
  l ← copy_loop (Z.to_nat (size_of a d)) 0 oldsize (store_ <$> d) (store_ a);
  Ret (set_store a l).

Definition concat_array (a : Array) (src : list T) (s : Z) : outcome Array :=
  _ ← th_assert (0 <=? s);
  let oldsize := size_ a in
  a ← enlarge_to a (to_int (s + size_ a));
  l ← copy_loop (Z.to_nat s) 0 oldsize (Some src) (store_ a);
  Ret (set_store a l).

Definition remove (a : Array) : outcome (Array * T) :=
  let a := if 0 <? size_ a then set_size a (size_ a - 1) else a in
  x ← of_option Undefined (zget (store_ a) (size_ a));
  Ret (a, x).

Definition remove_n (a : Array) (num : Z) : outcome Array :=
  _ ← th_assert ((0 <=? num) && (num <=? size_ a));
  Ret (set_size a (size_ a - num)).

Definition clear (a : Array) : Array := set_size a 0.

Definition _enlarge_by (a : Array) (n : Z) : outcome Array :=
  _ ← th_assert (0 <=? n);
  let newsize := to_int (size_ a + n) in
  a ← (if alloc_ a <? newsize then enlarge_allocation_to a newsize else Ret a);
  Ret (set_size a newsize).

(** ** Calls *)
Inductive ctor :=
| NewEmpty
| NewPredict (n : Z)
| NewArray (src : list T) (s : Z)
| NewCopy (d : Array)
| NewFill (x : T) (n : Z).

Inductive op :=
| OpSlot (i : Z)
| OpSet (i : Z) (v : T)
| OpSize
| OpHigh
| OpAppend (v : T)
| OpAppendN (v : T) (n : Z)
| OpConcat (d : Array)
| OpConcatArray (src : list T) (s : Z)
| OpAssign (d : option Array)
| OpRemove
| OpRemoveN (n : Z)
| OpClear
| OpPredict (n : Z)
| OpReclaim
| OpEnlargeBy (n : Z).

Inductive result := RUnit | RValue (x : T) | RSize (n : Z).

Definition run_ctor (c : ctor) : outcome Array :=
  match c with
  | NewEmpty => Ret make
  | NewPredict n => make_predict n
  | NewArray src s => make_array src s
  | NewCopy d => make_copy d
  | NewFill x n => make_fill x n
  end.

Definition run_op (a : Array) (o : op) : outcome (Array * result) :=
  match o with
  | OpSlot i => x ← slot a i; Ret (a, RValue x)
  | OpSet i v => a ← slot_set a i v; Ret (a, RUnit)
  | OpSize => Ret (a, RSize (size_ a))
  | OpHigh => x ← high a; Ret (a, RValue x)
  | OpAppend v => a ← append a v; Ret (a, RUnit)
  | OpAppendN v n => a ← append_n a v n; Ret (a, RUnit)
  | OpConcat d => a ← concat a (Some d); Ret (a, RUnit)
  | OpConcatArray src s => a ← concat_array a src s; Ret (a, RUnit)
  | OpAssign d => a ← assign a d; Ret (a, RUnit)
  | OpRemove => '(a, x) ← remove a; Ret (a, RValue x)
  | OpRemoveN n => a ← remove_n a n; Ret (a, RUnit)
  | OpClear => Ret (clear a, RUnit)
  | OpPredict n => a ← predict a n; Ret (a, RUnit)
  | OpReclaim => a ← reclaim a; Ret (a, RUnit)
  | OpEnlargeBy n => a ← _enlarge_by a n; Ret (a, RUnit)
  end.

(** *** The same on lists *)

(** What is in use. *)
Definition contents (a : Array) : list T := take (Z.to_nat (size_ a)) (store_ a).

Definition after_assert {A} (b : bool) (r : A) : outcome A := if b then Ret r else Err AssertFail.

Definition spec_ctor (c : ctor) : outcome (list T) :=
  match c with
  | NewEmpty => Ret []
  | NewPredict n => after_assert (0 <=? n) []
  | NewArray src s => after_assert (0 <=? s) (take (Z.to_nat s) src)
  | NewCopy d => Ret (contents d)
  | NewFill x n => after_assert (0 <=? n) (replicate (Z.to_nat n) x)
  end.

(** Which outcomes a call on [l] may have: what [_enlarge_by] adds is not determined, nor what
    [remove] does on an empty array.  An array that is assigned to itself is emptied. *)
Definition spec_op (l : list T) (o : op) (r : outcome (list T * result)) : Prop :=
  match o with
  | OpSlot i => r = match zget l i with Some x => Ret (l, RValue x) | None => Err AssertFail end
  | OpSet i v => r = after_assert ((0 <=? i) && (i <? zlen l)) (zset l i v, RUnit)
  | OpSize => r = Ret (l, RSize (zlen l))
  | OpHigh => r = match last l with Some x => Ret (l, RValue x) | None => Err AssertFail end
  | OpAppend v => r = Ret (l ++ [v], RUnit)
  | OpAppendN v n => r = after_assert (0 <=? n) (l ++ replicate (Z.to_nat n) v, RUnit)
  | OpConcat d => r = Ret (l ++ contents d, RUnit)
  | OpConcatArray src s => r = after_assert (0 <=? s) (l ++ take (Z.to_nat s) src, RUnit)
  | OpAssign (Some d) => r = Ret (contents d, RUnit)
  | OpAssign None => r = Ret ([], RUnit)
  | OpRemove =>
      match last l with
      | Some x => r = Ret (take (length l - 1) l, RValue x)
      | None => r = Err Undefined ∨ ∃ x, r = Ret ([], RValue x)
      end
  | OpRemoveN n => r = after_assert ((0 <=? n) && (n <=? zlen l)) (take (length l - Z.to_nat n) l, RUnit)
  | OpClear => r = Ret ([], RUnit)
  | OpPredict _ | OpReclaim => r = Ret (l, RUnit)
  | OpEnlargeBy n =>
      if 0 <=? n then ∃ new, zlen new = n ∧ r = Ret (l ++ new, RUnit) else r = Err AssertFail
  end.

Fixpoint spec_ops (l : list T) (ops : list op) (r : outcome (list T * list result)) : Prop :=
  match ops with
  | [] => r = Ret (l, [])
  | o :: ops => ∃ r1, spec_op l o r1 ∧
      match r1 with
      | Err e => r = Err e
      | Ret (l, x) => ∃ r2, spec_ops l ops r2 ∧ r = ('(l, xs) ← r2; Ret (l, x :: xs))
      end
  end.
End array.
End Arr.
