(* ===== verification/ArrayProps.v ===== *)
(** * ArrayProps: the growing array implements a list

    Any sequence of calls on an [Array] does and returns what it does on a list, whatever new
    blocks of memory hold. *)
From stdpp Require Import list.
From S2P Require Import Prelude ResizeArray.

Module ArrProps.
Import Arr.

(** ** Lists by their elements *)
Section lists.
Context {A : Type}.
Implicit Types l : list A.

Lemma zget_ext l1 l2 : (∀ j, zget l1 j = zget l2 j) → l1 = l2.
Proof.
  intros Hg. apply list_eq. intros i. specialize (Hg (Z.of_nat i)). unfold zget in Hg.
  by rewrite !decide_True, Nat2Z.id in Hg by lia.
Qed.

Lemma zget_None l j : zget l j = None ↔ ¬ 0 ≤ j < zlen l.
Proof. by rewrite <- (zget_is_Some l j), <- eq_None_not_Some. Qed.

Lemma zlen_take n l : zlen (take n l) = Z.min (Z.of_nat n) (zlen l).
Proof. unfold zlen. rewrite length_take. lia. Qed.

Lemma zget_take_if n l j : zget (take n l) j = if decide (j < Z.of_nat n) then zget l j else None.
Proof.
  unfold zget. repeat case_decide; try done.
  - by rewrite lookup_take_lt by lia.
  - by rewrite lookup_take_ge by lia.
Qed.

Lemma zget_replicate_if n (x : A) j : zget (replicate n x) j = if decide (0 ≤ j < Z.of_nat n) then Some x else None.
Proof.
  case_decide; [by apply zget_replicate|]. apply zget_None. by rewrite zlen_replicate.
Qed.

Lemma last_zget l : last l = zget l (zlen l - 1).
Proof.
  rewrite last_lookup. unfold zget, zlen. case_decide; [f_equal; lia|]. by destruct l; cbn in *; [|lia].
Qed.
End lists.

Lemma to_int_le z : to_int z ≤ INT_MAX.
Proof.
  unfold to_int, wrapS, INT_MAX. pose proof (Z.mod_pos_bound (z + 2 ^ (32 - 1)) (2 ^ 32) ltac:(lia)). lia.
Qed.

Section refinement.
Context {T : Type} (junk : nat → T).
Implicit Types (a : @Array T) (l src dst st : list T) (x : T).

Record repr a l : Prop := {
  r_size : size_ a = zlen l;
  r_le : size_ a ≤ alloc_ a ≤ INT_MAX;
  r_alloc : zlen (store_ a) = alloc_ a;
  r_get j : j < zlen l → zget (store_ a) j = zget l j;
}.

Lemma repr_contents a l : repr a l → contents a = l.
Proof.
  intros [H1 H2 H3 H4]. apply zget_ext. intros j. unfold contents. rewrite zget_take_if, H1.
  pose proof (zlen_nonneg l). case_decide; [apply H4; lia|]. symmetry. apply zget_None. lia.
Qed.

(** *** Loops *)
Lemma put_spec l j x : 0 ≤ j < zlen l → put l j x = Ret (zset l j x).
Proof. intros. unfold put. by rewrite bool_decide_true. Qed.

Lemma copy_loop_spec n : ∀ i off src dst, 0 ≤ i → 0 ≤ i + off → i + Z.of_nat n ≤ zlen src →
  i + off + Z.of_nat n ≤ zlen dst →
  ∃ dst', copy_loop n i off (Some src) dst = Ret dst' ∧ zlen dst' = zlen dst ∧
    ∀ j, zget dst' j = if decide (i + off ≤ j < i + off + Z.of_nat n) then zget src (j - off) else zget dst j.
Proof.
  induction n as [|n IH]; intros i off src dst Hi Ho Hs Hd.
  { exists dst. split; [done|]. split; [done|]. intros j. by rewrite decide_False by lia. }
  cbn [copy_loop default]. destruct (zget_lookup src i) as [x Ex]; [lia|]. cbn. rewrite Ex. cbn.
  rewrite put_spec by lia. cbn. destruct (IH (i + 1) off src (zset dst (i + off) x)) as (dst' & -> & Hl & Hg);
    [lia|lia|lia|by rewrite zlen_zset; lia|].
  exists dst'. split; [done|]. rewrite zlen_zset in Hl. split; [done|]. intros j. rewrite Hg, zget_zset.
  repeat case_decide; try done; try lia. replace (j - off) with i by lia. done.
Qed.

Lemma fill_loop_spec n : ∀ i off x dst, 0 ≤ i + off → i + off + Z.of_nat n ≤ zlen dst →
  ∃ dst', fill_loop n i off x dst = Ret dst' ∧ zlen dst' = zlen dst ∧
    ∀ j, zget dst' j = if decide (i + off ≤ j < i + off + Z.of_nat n) then Some x else zget dst j.
Proof.
  induction n as [|n IH]; intros i off x dst Ho Hd.
  { exists dst. split; [done|]. split; [done|]. intros j. by rewrite decide_False by lia. }
  cbn [fill_loop]. rewrite put_spec by lia. cbn.
  destruct (IH (i + 1) off x (zset dst (i + off) x)) as (dst' & -> & Hl & Hg); [lia|by rewrite zlen_zset; lia|].
  exists dst'. split; [done|]. rewrite zlen_zset in Hl. split; [done|]. intros j. rewrite Hg, zget_zset.
  repeat case_decide; try done; lia.
Qed.

Lemma new_T_spec n : 0 ≤ n → ∃ l, new_T junk n = Ret l ∧ zlen l = n.
Proof.
  intros Hn. unfold new_T. rewrite (proj2 (Z.ltb_ge n 0)) by lia. eexists. split; [done|].
  unfold zlen. rewrite length_fmap, length_seq. lia.
Qed.

(** A block that is larger and holds the same. *)
Lemma moved_spec a l n : repr a l → zlen l ≤ n ≤ INT_MAX →
  ∃ st, (st0 ← new_T junk n; copy_loop (Z.to_nat (size_ a)) 0 0 (Some (store_ a)) st0) = Ret st ∧
    repr (mkArray st n (size_ a)) l.
Proof.
  intros [H1 H2 H3 H4] Hn. pose proof (zlen_nonneg l). destruct (new_T_spec n) as (st0 & -> & Hst); [lia|]. cbn.
  destruct (copy_loop_spec (Z.to_nat (size_ a)) 0 0 (store_ a) st0) as (st & -> & Hl & Hg); [lia..|].
  exists st. split; [done|]. constructor; cbn; [done|lia|lia|]. intros j Hj. rewrite Hg, <- H4 by done.
  case_decide; [f_equal; lia|]. rewrite (proj2 (zget_None st0 j)), (proj2 (zget_None (store_ a) j)); [done|lia..].
Qed.

Lemma enlarge_allocation_spec a l n : repr a l → alloc_ a < n ≤ INT_MAX →
  ∃ a', enlarge_allocation_to junk a n = Ret a' ∧ repr a' l ∧ n ≤ alloc_ a'.
Proof.
  intros Hr Hn. unfold enlarge_allocation_to. set (m := to_int _). set (k := if m <? n then n else m).
  assert (n ≤ k ≤ INT_MAX) as Hk.
  { assert (m ≤ INT_MAX) as Hm by apply to_int_le.
    unfold k. destruct (Z.ltb_spec m n); lia. }
  pose proof (r_size a l Hr). pose proof (r_le a l Hr).
  destruct (moved_spec a l k Hr) as (st & E & Hr'); [lia|].
  apply outcome_bind_Ret in E as (st0 & -> & E). cbn. rewrite E. cbn. eexists. split; [done|]. split; [done|]. cbn. lia.
Qed.

(** What [enlarge_to] leaves: room for [n] elements, of which those of [l] are there. *)
Record roomy a l n : Prop := {
  m_size : size_ a = n;
  m_le : n ≤ alloc_ a ≤ INT_MAX;
  m_alloc : zlen (store_ a) = alloc_ a;
  m_get j : j < zlen l → zget (store_ a) j = zget l j;
}.

Lemma enlarge_to_spec a l n : repr a l → n ≤ INT_MAX → ∃ a', enlarge_to junk a n = Ret a' ∧ roomy a' l n.
Proof.
  intros Hr Hn. unfold enlarge_to. destruct (Z.ltb_spec (alloc_ a) n) as [Hlt|Hge].
  - destruct (enlarge_allocation_spec a l n Hr) as (a1 & -> & [H1 H2 H3 H4] & Hk); [lia|]. cbn.
    eexists. split; [done|]. constructor; cbn; [done|lia|done|done].
  - destruct Hr as [H1 H2 H3 H4]. eexists. split; [done|]. constructor; cbn; [done|lia|done|done].
Qed.

(** The new elements are written behind those of [l]. *)
Lemma roomy_repr a l l2 st : roomy a l (zlen l + zlen l2) → zlen st = zlen (store_ a) →
  (∀ j, zget st j = if decide (zlen l ≤ j < zlen l + zlen l2) then zget l2 (j - zlen l) else zget (store_ a) j) →
  repr (set_store a st) (l ++ l2).
Proof.
  intros [H1 H2 H3 H4] Hl Hg. constructor; cbn; rewrite ?zlen_app; [lia|lia|lia|].
  intros j Hj. rewrite Hg, zget_app. repeat case_decide; try done; try lia. by apply H4.
Qed.

Lemma append_copy a l src n : roomy a l (zlen l + n) → 0 ≤ n ≤ zlen src →
  ∃ st, copy_loop (Z.to_nat n) 0 (zlen l) (Some src) (store_ a) = Ret st ∧
    repr (set_store a st) (l ++ take (Z.to_nat n) src).
Proof.
  intros Hm Hn. pose proof (zlen_nonneg l). pose proof (m_alloc _ _ _ Hm). pose proof (m_le _ _ _ Hm).
  destruct (copy_loop_spec (Z.to_nat n) 0 (zlen l) src (store_ a)) as (st & -> & Hl & Hg); [lia..|].
  exists st. split; [done|]. assert (zlen (take (Z.to_nat n) src) = n) as En by (rewrite zlen_take; lia).
  apply roomy_repr; [by rewrite En|done|]. intros j. rewrite Hg, zget_take_if, En.
  repeat case_decide; try done; lia.
Qed.

Lemma append_fill a l x n : roomy a l (zlen l + n) → 0 ≤ n →
  ∃ st, fill_loop (Z.to_nat n) 0 (zlen l) x (store_ a) = Ret st ∧
    repr (set_store a st) (l ++ replicate (Z.to_nat n) x).
Proof.
  intros Hm Hn. pose proof (zlen_nonneg l). pose proof (m_alloc _ _ _ Hm). pose proof (m_le _ _ _ Hm).
  destruct (fill_loop_spec (Z.to_nat n) 0 (zlen l) x (store_ a)) as (st & -> & Hl & Hg); [lia..|].
  exists st. split; [done|]. assert (zlen (replicate (Z.to_nat n) x) = n) as En by (rewrite zlen_replicate; lia).
  apply roomy_repr; [by rewrite En|done|]. intros j. rewrite Hg, zget_replicate_if, En.
  repeat case_decide; try done; lia.
Qed.

Lemma repr_shrink a l n : repr a l → 0 ≤ n ≤ zlen l → repr (set_size a n) (take (Z.to_nat n) l).
Proof.
  intros [H1 H2 H3 H4] Hn. constructor; cbn; rewrite ?zlen_take; [lia|lia|done|].
  intros j Hj. rewrite zget_take_if. rewrite decide_True by lia. apply H4. lia.
Qed.

Lemma make_repr : repr make [].
Proof. constructor; cbn; [done|unfold INT_MAX; lia|done|done]. Qed.

(** *** Calls *)

(** What the comments of Array.h require, for sizes that are ints. *)
Definition ctor_ok (c : @ctor T) : Prop :=
  match c with
  | NewEmpty => True
  | NewPredict n | NewFill _ n => n ≤ INT_MAX
  | NewArray src s => s ≤ zlen src ∧ s ≤ INT_MAX
  | NewCopy d => ∃ l, repr d l
  end.
Definition op_ok (o : @op T) : Prop :=
  match o with
  | OpConcat d | OpAssign (Some d) => ∃ l, repr d l
  | OpConcatArray src s => s ≤ zlen src
  | OpPredict n => n ≤ INT_MAX
  | _ => True
  end.

(** By how much a call may enlarge the array. *)
Definition grow (o : @op T) : Z :=
  match o with
  | OpAppend _ => 1
  | OpAppendN _ n | OpConcatArray _ n | OpEnlargeBy n => Z.max 0 n
  | OpConcat d | OpAssign (Some d) => size_ d
  | _ => 0
  end.

Definition total_growth (ops : list (@op T)) : Z := foldr (λ o s, grow o + s) 0 ops.

Lemma sum_grow_nonneg ops : Forall op_ok ops → 0 ≤ total_growth ops.
Proof.
  induction 1 as [|o ops Ho _ IH]; [done|]. unfold total_growth in *. cbn [foldr]. enough (0 ≤ grow o) by lia.
  destruct o as [| | | |v|v n|d|src n|[d|]| |n| |n| |n]; cbn; try lia; destruct Ho as [l [Hl _ _ _]];
    pose proof (zlen_nonneg l); lia.
Qed.

(** The outcome of a call, given the one on the list. *)
Definition refines {A} (r : outcome (@Array T * A)) (s : outcome (list T * A)) : Prop :=
  match s with Ret (l, x) => ∃ a, r = Ret (a, x) ∧ repr a l | Err e => r = Err e end.

Lemma contents_len d l : repr d l → zlen l = size_ d ∧ contents d = l ∧ size_ d ≤ zlen (store_ d) ∧ size_ d ≤ INT_MAX.
Proof. intros Hr. split; [|split; [by apply repr_contents|]]; destruct Hr; lia. Qed.

Lemma app_nil_repr a l : repr a l → repr a ([] ++ l).
Proof. done. Qed.

Lemma ctor_refines c : ctor_ok c →
  match spec_ctor c with Ret l => ∃ a, run_ctor junk c = Ret a ∧ repr a l | Err e => run_ctor junk c = Err e end.
Proof.
  intros Hok. pose proof make_repr as Hm. destruct c as [|n|src s|d|x n]; cbn in Hok |- *.
  - by exists make.
  - unfold make_predict, after_assert, th_assert. destruct (Z.leb_spec 0 n); [|done]. cbn.
    destruct (enlarge_to_spec make [] n Hm Hok) as (a & -> & [H1 H2 H3 H4]). cbn. eexists. split; [done|].
    constructor; cbn; [done|lia|done|done].
  - destruct Hok as [Hs Hmax]. unfold make_array, after_assert, th_assert. destruct (Z.leb_spec 0 s); [|done]. cbn.
    destruct (enlarge_to_spec make [] s Hm Hmax) as (a & -> & Hr). cbn.
    destruct (append_copy a [] src s Hr) as (st & E & Hst); [lia|]. change (zlen (A:=T) []) with 0 in E. rewrite E. cbn. by eexists.
  - destruct Hok as [l Hd]. destruct (contents_len d l Hd) as (Hl & -> & Hs & Hmax). unfold make_copy.
    destruct (enlarge_to_spec make [] (size_ d) Hm Hmax) as (a & -> & Hr). cbn. rewrite (m_size _ _ _ Hr).
    pose proof (zlen_nonneg l).
    destruct (append_copy a [] (store_ d) (size_ d) Hr) as (st & E & Hst); [lia|]. change (zlen (A:=T) []) with 0 in E. rewrite E. cbn.
    eexists. split; [done|]. fold (contents d) in Hst. by rewrite (repr_contents d l Hd) in Hst.
  - unfold make_fill, after_assert, th_assert. destruct (Z.leb_spec 0 n); [|done]. cbn.
    destruct (enlarge_to_spec make [] n Hm Hok) as (a & -> & Hr). cbn.
    destruct (append_fill a [] x n Hr) as (st & E & Hst); [lia|]. change (zlen (A:=T) []) with 0 in E. rewrite E. cbn. by eexists.
Qed.

Lemma slot_refines a l i x : repr a l →
  slot a i = match zget l i with Some y => Ret y | None => Err AssertFail end ∧
  refines (a ← slot_set a i x; Ret (a, tt)) (after_assert ((0 <=? i) && (i <? zlen l)) (zset l i x, tt)).
Proof.
  intros [H1 H2 H3 H4]. unfold slot, slot_set, after_assert, th_assert. rewrite H1.
  destruct ((0 <=? i) && (i <? zlen l)) eqn:E; zprop; cbn.
  - rewrite H4, put_spec by lia. destruct (zget_lookup l i) as [y Ey]; [lia|]. rewrite Ey. cbn. split; [done|].
    eexists. split; [done|]. constructor; cbn; rewrite ?zlen_zset; [done|lia|done|].
    intros j Hj. rewrite !zget_zset, H4 by done. repeat case_decide; try done; lia.
  - apply andb_false_iff in E. rewrite (proj2 (zget_None l i)); [done|]. destruct E; zprop; lia.
Qed.

Lemma high_refines a l : repr a l → high a = match last l with Some x => Ret x | None => Err AssertFail end.
Proof.
  intros [H1 H2 H3 H4]. unfold high, th_assert. rewrite last_zget, H1. destruct (Z.ltb_spec 0 (zlen l)); cbn.
  - rewrite H4 by lia. destruct (zget_lookup l (zlen l - 1)) as [x ->]; [lia|done].
  - by rewrite (proj2 (zget_None l _)) by lia.
Qed.

Lemma append_refines a l x : repr a l → zlen l + 1 ≤ INT_MAX →
  ∃ a', append junk a x = Ret a' ∧ repr a' (l ++ [x]).
Proof.
  intros Hr Hmax. pose proof (zlen_nonneg l). unfold append. rewrite (r_size a l Hr), to_int_small by (unfold INT_MAX in *; lia).
  assert (∃ a1, (if alloc_ a <=? zlen l then enlarge_allocation_to junk a (zlen l + 1) else Ret a) = Ret a1 ∧
    repr a1 l ∧ zlen l < alloc_ a1) as (a1 & -> & Hr1 & Hlt).
  { pose proof (r_le a l Hr). rewrite (r_size a l Hr) in *. destruct (Z.leb_spec (alloc_ a) (zlen l)); [|by exists a].
    destruct (enlarge_allocation_spec a l (zlen l + 1) Hr) as (a1 & -> & ? & ?); [lia|]. exists a1.
    split; [done|]. split; [done|]. lia. }
  destruct Hr1 as [H1 H2 H3 H4]. cbn. rewrite H1, put_spec by lia. cbn.
  rewrite to_int_small by (unfold INT_MAX in *; lia). eexists. split; [done|].
  assert (zlen [x] = 1) as E1 by done. constructor; cbn; rewrite ?zlen_app, ?zlen_zset; [lia|lia|done|].
  intros j Hj. rewrite zget_zset, zget_app. repeat case_decide; try lia; try by apply H4.
  - by replace (j - zlen l) with 0 by lia.
Qed.

Lemma append_n_refines a l x n : repr a l → zlen l + Z.max 0 n ≤ INT_MAX →
  refines (a ← append_n junk a x n; Ret (a, tt)) (after_assert (0 <=? n) (l ++ replicate (Z.to_nat n) x, tt)).
Proof.
  intros Hr Hmax. pose proof (zlen_nonneg l). unfold append_n, after_assert, th_assert.
  destruct (Z.leb_spec 0 n); [|done]. cbn. rewrite (r_size a l Hr), to_int_small by (unfold INT_MAX in *; lia).
  destruct (enlarge_to_spec a l (zlen l + n) Hr) as (a1 & -> & Hr1); [lia|]. cbn.
  destruct (append_fill a1 l x n Hr1) as (st & -> & ?); [lia|]. cbn. by eexists.
Qed.

Lemma concat_array_refines a l src n : repr a l → n ≤ zlen src → zlen l + Z.max 0 n ≤ INT_MAX →
  refines (a ← concat_array junk a src n; Ret (a, tt)) (after_assert (0 <=? n) (l ++ take (Z.to_nat n) src, tt)).
Proof.
  intros Hr Hs Hmax. pose proof (zlen_nonneg l). unfold concat_array, after_assert, th_assert.
  destruct (Z.leb_spec 0 n); [|done]. cbn. rewrite (r_size a l Hr), to_int_small by (unfold INT_MAX in *; lia).
  destruct (enlarge_to_spec a l (n + zlen l) Hr) as (a1 & -> & Hr1); [lia|]. rewrite Z.add_comm in Hr1. cbn.
  destruct (append_copy a1 l src n Hr1) as (st & -> & ?); [lia|]. cbn. by eexists.
Qed.

Lemma concat_refines a l d ld : repr a l → repr d ld → zlen l + size_ d ≤ INT_MAX →
  ∃ a', concat junk a (Some d) = Ret a' ∧ repr a' (l ++ ld).
Proof.
  intros Hr Hd Hmax. destruct (contents_len d ld Hd) as (Hl & Hc & Hs & _). pose proof (zlen_nonneg l).
  pose proof (zlen_nonneg ld). unfold concat, size_of. change (default a (Some d)) with d.
  rewrite (r_size a l Hr), to_int_small by (unfold INT_MAX in *; lia).
  destruct (enlarge_to_spec a l (zlen l + size_ d) Hr) as (a1 & -> & Hr1); [lia|]. cbn.
  destruct (append_copy a1 l (store_ d) (size_ d) Hr1) as (st & -> & Hst); [lia|]. cbn. eexists. split; [done|].
  fold (contents d) in Hst. by rewrite Hc in Hst.
Qed.

Lemma assign_refines a l d : repr a l → op_ok (OpAssign d) →
  ∃ a', assign junk a d = Ret a' ∧ repr a' (match d with Some d => contents d | None => [] end).
Proof.
  intros Hr Hok. assert (repr (set_size a 0) []) as H0.
  { pose proof (zlen_nonneg l). apply (repr_shrink a l 0 Hr). lia. }
  unfold assign, size_of. cbv zeta. destruct d as [d|].
  - change (default (set_size a 0) (Some d)) with d. destruct Hok as [ld Hd]. destruct (contents_len d ld Hd) as (Hl & Hc & Hs & Hmax). pose proof (zlen_nonneg ld).
    destruct (enlarge_to_spec (set_size a 0) [] (size_ d) H0 Hmax) as (a1 & -> & Hr1). cbn.
    rewrite (m_size _ _ _ Hr1). destruct (append_copy a1 [] (store_ d) (size_ d) Hr1) as (st & E & Hst); [lia|].
    change (zlen (A:=T) []) with 0 in E. rewrite E. cbn. by eexists.
  - change (size_ (default (set_size a 0) None)) with 0.
    destruct (enlarge_to_spec (set_size a 0) [] 0 H0) as (a1 & -> & Hr1); [unfold INT_MAX; lia|]. cbn.
    rewrite (m_size _ _ _ Hr1). cbn. eexists. split; [done|]. destruct Hr1 as [H1 H2 H3 H4].
    constructor; cbn; [done|lia|done|done].
Qed.

Lemma reclaim_refines a l : repr a l → ∃ a', reclaim junk a = Ret a' ∧ repr a' l.
Proof.
  intros Hr. unfold reclaim. pose proof Hr as [H1 H2 H3 H4]. pose proof (zlen_nonneg l).
  destruct (Z.ltb_spec (size_ a) (alloc_ a)); [|by exists a]. destruct (Z.ltb_spec 0 (size_ a)).
  - destruct (moved_spec a l (size_ a) Hr) as (st & E & Hr'); [lia|]. apply outcome_bind_Ret in E as (st0 & -> & E).
    cbn. rewrite E. cbn. by eexists.
  - rewrite (proj2 (Z.ltb_lt 0 (alloc_ a))) by lia. eexists. split; [done|]. constructor; cbn; [done|lia|done|].
    intros j Hj. rewrite (proj2 (zget_None l j)) by lia. unfold zget. by case_decide.
Qed.

Lemma predict_refines a l n : repr a l → n ≤ INT_MAX → ∃ a', predict junk a n = Ret a' ∧ repr a' l.
Proof.
  intros Hr Hn. unfold predict. destruct (Z.ltb_spec (alloc_ a) n); [|by exists a].
  destruct (enlarge_allocation_spec a l n Hr) as (a' & -> & ? & _); [lia|]. by exists a'.
Qed.

Lemma enlarge_by_refines a l n : repr a l → 0 ≤ n → zlen l + n ≤ INT_MAX →
  ∃ a' new, _enlarge_by junk a n = Ret a' ∧ zlen new = n ∧ repr a' (l ++ new).
Proof.
  intros Hr Hn Hmax. pose proof (zlen_nonneg l). unfold _enlarge_by, th_assert. rewrite (proj2 (Z.leb_le 0 n)) by done.
  cbn [mbind outcome_bind]. rewrite (r_size a l Hr), to_int_small by (unfold INT_MAX in *; lia).
  destruct (enlarge_to_spec a l (zlen l + n) Hr) as (a' & E & [H1 H2 H3 H4]); [lia|]. unfold enlarge_to in E. rewrite E.
  exists a', (take (Z.to_nat n) (drop (length l) (store_ a'))). split; [done|].
  assert (∀ j, 0 ≤ j → zget (drop (length l) (store_ a')) j = zget (store_ a') (zlen l + j)) as Hd.
  { intros j Hj. unfold zget, zlen. rewrite !decide_True, lookup_drop by lia. f_equal. lia. }
  assert (zlen (take (Z.to_nat n) (drop (length l) (store_ a'))) = n) as En.
  { rewrite zlen_take. unfold zlen in *. rewrite length_drop. lia. }
  split; [done|]. constructor; rewrite ?zlen_app, ?En; [lia|lia|done|].
  intros j Hj. rewrite zget_app. case_decide; [by apply H4|]. rewrite zget_take_if, decide_True, Hd by lia. f_equal. lia.
Qed.

Lemma remove_refines a l : repr a l →
  match last l with
  | Some x => ∃ a', remove a = Ret (a', x) ∧ repr a' (take (length l - 1) l)
  | None => remove a = Err Undefined ∨ ∃ x a', remove a = Ret (a', x) ∧ repr a' []
  end.
Proof.
  intros Hr. unfold remove. rewrite last_zget. pose proof (r_size a l Hr) as Es. pose proof (r_get a l Hr) as Hg.
  rewrite Es. destruct (Z.ltb_spec 0 (zlen l)) as [Hl|Hl].
  - destruct (zget_lookup l (zlen l - 1)) as [x Ex]; [lia|]. rewrite Ex. cbn. rewrite Hg, Ex by lia. cbn.
    eexists. split; [done|]. pose proof (repr_shrink a l (zlen l - 1) Hr ltac:(lia)) as Hs.
    by replace (Z.to_nat (zlen l - 1)) with (length l - 1)%nat in Hs by (unfold zlen; lia).
  - pose proof (zlen_nonneg l). rewrite (proj2 (zget_None l _)) by lia. destruct l; [|unfold zlen in Hl; cbn in Hl; lia].
    destruct (zget (store_ a) (size_ a)) as [x|]; cbn; [|by left]. right. by exists x, a.
Qed.

(** An outcome on the list that the call may have, and has. *)
Definition op_refined a l (o : @op T) : Prop :=
  ∃ r, spec_op l o r ∧ refines (run_op junk a o) r ∧ ∀ l' y, r = Ret (l', y) → zlen l' ≤ zlen l + grow o.

Lemma refined_ret a l o a' l' (y : @result T) : spec_op l o (Ret (l', y)) → run_op junk a o = Ret (a', y) → repr a' l' →
  zlen l' ≤ zlen l + grow o → op_refined a l o.
Proof. intros. exists (Ret (l', y)). split; [done|]. split; [by exists a'|]. by intros ? ? [= <- _]. Qed.

Lemma refined_err a l o e : spec_op l o (Err e) → run_op junk a o = Err e → op_refined a l o.
Proof. intros. exists (Err e). by split_and!. Qed.

(** A call that ends in [Ret (a, RUnit)] behind an assertion. *)
Lemma refined_assert a l o (m : outcome (@Array T)) b l' :
  run_op junk a o = (a ← m; Ret (a, RUnit)) → spec_op l o (after_assert b (l', RUnit)) →
  refines (a ← m; Ret (a, tt)) (after_assert b (l', tt)) → (b = true → zlen l' ≤ zlen l + grow o) → op_refined a l o.
Proof.
  intros Er Es Hm Hl. destruct b; cbn in *.
  - destruct Hm as (a' & E & Hr). destruct m as [a1|]; cbn in *; [|done]. injection E as ->.
    by eapply refined_ret; [| |done|apply Hl].
  - apply (refined_err _ _ _ AssertFail); [done|]. rewrite Er. destruct m; cbn in *; congruence.
Qed.

Lemma op_refines_list a l o : repr a l → op_ok o → zlen l + grow o ≤ INT_MAX → op_refined a l o.
Proof.
  intros Hr Hok Hmax. pose proof (zlen_nonneg l). destruct o as [i|i v| | |v|v n|d|src n|d| |n| |n| |n].
  - destruct (slot_refines a l i (junk 0) Hr) as [Es _]. destruct (zget l i) as [y|] eqn:E.
    + eapply refined_ret; [cbn; by rewrite E|cbn; by rewrite Es|done|cbn; lia].
    + eapply refined_err; [cbn; by rewrite E|cbn; by rewrite Es].
  - destruct (slot_refines a l i v Hr) as [_ Es]. eapply refined_assert; [done|done|done|].
    intros _. rewrite zlen_zset. cbn. lia.
  - eapply refined_ret; [done| |done|cbn; lia]. cbn. by rewrite (r_size a l Hr).
  - pose proof (high_refines a l Hr) as Eh. destruct (last l) as [y|] eqn:E.
    + eapply refined_ret; [cbn; by rewrite E|cbn; by rewrite Eh|done|cbn; lia].
    + eapply refined_err; [cbn; by rewrite E|cbn; by rewrite Eh].
  - cbn in Hmax. destruct (append_refines a l v Hr Hmax) as (a' & E & ?).
    eapply refined_ret; [done|cbn; by rewrite E|done|]. rewrite zlen_app. by change (zlen [v]) with 1.
  - eapply refined_assert; [done|done|by apply append_n_refines|]. intros ?. zprop.
    rewrite zlen_app, zlen_replicate. cbn. lia.
  - destruct Hok as [ld Hd]. destruct (concat_refines a l d ld Hr Hd Hmax) as (a' & E & Hr').
    destruct (contents_len d ld Hd) as (Hl & Hc & _). rewrite <- Hc in Hr', Hl.
    eapply refined_ret; [done|cbn; by rewrite E|done|]. rewrite zlen_app. cbn. lia.
  - eapply refined_assert; [done|done|by apply concat_array_refines|]. intros ?. zprop.
    rewrite zlen_app, zlen_take. cbn in *. lia.
  - destruct (assign_refines a l d Hr Hok) as (a' & E & Hr').
    apply (refined_ret a l _ a' (match d with Some d => contents d | None => [] end) RUnit);
      [by destruct d|cbn; by rewrite E|done|]. destruct d as [d|]; [|cbn; unfold zlen; cbn; lia].
    destruct Hok as [ld Hd]. destruct (contents_len d ld Hd) as (Hl & -> & _). cbn. lia.
  - pose proof (remove_refines a l Hr) as Hrm. destruct (last l) as [y|] eqn:E.
    + destruct Hrm as (a' & Er & Hr'). eapply refined_ret; [cbn; by rewrite E|cbn; by rewrite Er|done|].
      rewrite zlen_take. cbn. lia.
    + destruct Hrm as [Er|(y & a' & Er & Hr')].
      * eapply refined_err; [cbn; rewrite E; by left|cbn; by rewrite Er].
      * eapply refined_ret; [cbn; rewrite E; right; by exists y|cbn; by rewrite Er|done|cbn; unfold zlen; cbn; lia].
  - eapply refined_assert with (b := (0 <=? n) && (n <=? zlen l)); [done|done| |].
    + cbn. unfold remove_n, th_assert, after_assert. rewrite (r_size a l Hr).
      destruct ((0 <=? n) && (n <=? zlen l)) eqn:E; [|done]. zprop. cbn. eexists. split; [done|].
      pose proof (repr_shrink a l (zlen l - n) Hr ltac:(lia)) as Hs.
      by replace (Z.to_nat (zlen l - n)) with (length l - Z.to_nat n)%nat in Hs by (unfold zlen; lia).
    + intros _. rewrite zlen_take. cbn. lia.
  - eapply refined_ret; [done|done| |cbn; unfold zlen; cbn; lia]. apply (repr_shrink a l 0 Hr). lia.
  - destruct (predict_refines a l n Hr Hok) as (a' & E & ?). eapply refined_ret; [done|cbn; by rewrite E|done|cbn; lia].
  - destruct (reclaim_refines a l Hr) as (a' & E & ?). eapply refined_ret; [done|cbn; by rewrite E|done|cbn; lia].
  - cbn in Hmax. destruct (Z.leb_spec 0 n) as [Hn|Hn].
    + destruct (enlarge_by_refines a l n Hr Hn) as (a' & new & E & En & Hr'); [lia|].
      eapply refined_ret; [|cbn; by rewrite E|done|rewrite zlen_app; cbn; lia].
      cbn. rewrite (proj2 (Z.leb_le 0 n)) by done. by exists new.
    + apply (refined_err _ _ _ AssertFail); cbn; unfold _enlarge_by; by rewrite (proj2 (Z.leb_gt 0 n)) by lia.
Qed.

Lemma ops_refine_list ops : ∀ a l, repr a l → Forall op_ok ops → zlen l + total_growth ops ≤ INT_MAX →
  ∃ r, spec_ops l ops r ∧ refines (run_calls (run_op junk) a ops) r.
Proof.
  induction ops as [|o ops IH]; intros a l Hr Hok Hmax; [exists (Ret (l, [])); split; [done|by exists a]|].
  apply Forall_cons in Hok as [Ho Hok]. change (total_growth (o :: ops)) with (grow o + total_growth ops) in Hmax. pose proof (sum_grow_nonneg ops Hok).
  destruct (op_refines_list a l o Hr Ho) as (r1 & Hs & Hone & Hl); [lia|].
  cbn [spec_ops run_calls]. destruct r1 as [[l1 y]|e]; cbn in Hone.
  - destruct Hone as (a1 & -> & Hr1). specialize (Hl l1 y eq_refl). cbn [mbind outcome_bind].
    destruct (IH a1 l1 Hr1 Hok) as (r2 & Hs2 & H2); [lia|].
    exists ('(l, xs) ← r2; Ret (l, y :: xs)). split; [exists (Ret (l1, y)); split; [done|by exists r2]|].
    destruct r2 as [[l2 ys]|e]; cbn in H2 |- *; [|by rewrite H2]. destruct H2 as (a2 & -> & ?). by exists a2.
  - exists (Err e). split; [by exists (Err e)|]. cbn. by rewrite Hone.
Qed.

(** C24: the array refines the list.  An array is made with any of its constructors, and any
    sequence of calls is run on it.  The arguments are as the comments require, and all that is
    appended fits an [int].  Then the calls do and return what they do on a list, assertions that
    fail included, whatever the new blocks of memory hold, and the array holds the list in the
    end: growth and reclaiming of the memory lose nothing, and nothing is read or
    written outside of it.  Two cases are not as the comments say: an array that is
    assigned to itself is emptied, and [remove] on an empty array may have no defined
    behaviour. *)
Theorem array_refines_list c ops :
  ctor_ok c → Forall op_ok ops →
  match spec_ctor c with
  | Ret l => zlen l + total_growth ops ≤ INT_MAX →
      ∃ r, spec_ops l ops r ∧ refines (a ← run_ctor junk c; run_calls (run_op junk) a ops) r
  | Err e => run_ctor junk c = Err e
  end.
Proof.
  intros Hc Hops. pose proof (ctor_refines c Hc) as Hr. destruct (spec_ctor c) as [l|e]; [|done].
  intros Hmax. destruct Hr as (a & -> & Hr). by apply ops_refine_list.
Qed.
End refinement.

(** ** An example *)
Module Sample.
Definition junk (i : nat) : Z := - Z.of_nat i - 1.
Definition other : Array := mkArray [7; 8; 9] 3 2.
Definition ops : list (@op Z) :=
  [OpAppend 3; OpAppend 4; OpSet 0 5; OpConcat other; OpSlot 3; OpReclaim; OpRemove; OpAppendN 1 2; OpRemoveN 1; OpSize;
   OpEnlargeBy 2; OpHigh; OpAssign None; OpSize; OpSlot 0].

(** What the array holds after [n] of the calls. *)
Definition after_calls (n : nat) : outcome (list Z * list (@result Z)) :=
  '(a, rs) ← (a ← run_ctor junk (NewFill 2 1); run_calls (run_op junk) a (take n ops)); Ret (contents a, rs).

(** An array that is appended to itself is copied beyond its end. *)
Lemma self_concat_overruns : concat junk (mkArray [1] 1 1) None = Err Undefined.
Proof. reflexivity. Qed.

Lemma array_refines_list_witness :
  (1 + total_growth ops ≤ INT_MAX →
    ∃ r, spec_ops [2] ops r ∧ refines (a ← run_ctor junk (NewFill 2 1); run_calls (run_op junk) a ops) r) ∧
  (1 + total_growth ops ≤ INT_MAX) ∧
  (∃ rs, after_calls 10 = Ret ([5; 3; 4; 7; 1], rs) ∧ last rs = Some (RSize 5)) ∧
  (∃ rs, after_calls 14 = Ret ([], rs)) ∧
  after_calls 15 = Err AssertFail.
Proof.
  split; [|split; [vm_compute; discriminate|split; [eexists; split; vm_compute; reflexivity|
    split; [eexists; vm_compute; reflexivity|vm_compute; reflexivity]]]].
  refine (array_refines_list junk (NewFill 2 1) ops _ _); [vm_compute; discriminate|].
  repeat constructor. exists [7; 8]. constructor; [reflexivity|split; vm_compute; discriminate|reflexivity|].
  intros j Hj. unfold zget. case_decide; [|done]. assert (j = 0 ∨ j = 1) as [-> | ->]; [|reflexivity..].
  change (zlen [7; 8]) with 2 in Hj. lia.
Defined.
End Sample.
End ArrProps.
