(* ===== verification/KMax.v ===== *)
(** * K_max: the k-th largest element of an array (src/src/K_max.h)

    The selection that the view-change code uses to find views and sequence
    numbers supported by enough replicas.  The elements are 64-bit integers and
    [tmax] is their maximum.  One pass of the outer loop is [pass]; the loop
    itself takes fuel, and [K_max_loop_spec] shows that [k] passes are enough when
    [k] elements are not negative. *)
From S2P Require Import Prelude.

(** One iteration of the [for] loop. *)
Definition scan (last_max : Z) (cur : Z * Z) (cv : Z) : Z * Z :=
  let '(cur_max, cur_count) := cur in
  if cv =? cur_max then (cur_max, cur_count + 1)
  else if cur_max <? cv then
    if cv <? last_max then (cv, 1) else (cur_max, cur_count)
  else (cur_max, cur_count).

Definition pass (vector : list Z) (last_max cur_max : Z) : Z * Z :=
  foldl (scan last_max) (cur_max, 0) vector.

Fixpoint K_max_loop (fuel : nat) (k : Z) (vector : list Z) (last_max last_count cur_max : Z)
    : outcome Z :=
  if last_count <? k then
    match fuel with
    | O => Err OutOfFuel
    | S fuel =>
        let '(cur_max, cur_count) := pass vector last_max cur_max in
        K_max_loop fuel k vector cur_max (last_count + cur_count) 0
    end
  else Ret last_max.

Definition K_max (fuel : nat) (k : Z) (vector : list Z) (tmax : Z) : outcome Z :=
  K_max_loop fuel k vector tmax 0 (-1).

(** ** Counting *)
Definition count_ge (r : Z) (l : list Z) : Z := zlen (filter (λ x, r ≤ x) l).
Definition count_eq (r : Z) (l : list Z) : Z := zlen (filter (λ x, x = r) l).

Lemma count_ge_cons r x l : count_ge r (x :: l) = (if decide (r ≤ x) then 1 else 0) + count_ge r l.
Proof. unfold count_ge, zlen. rewrite filter_cons. case_decide; cbn [length]; lia. Qed.

Lemma count_eq_cons r x l : count_eq r (x :: l) = (if decide (x = r) then 1 else 0) + count_eq r l.
Proof. unfold count_eq, zlen. rewrite filter_cons. case_decide; cbn [length]; lia. Qed.

Lemma count_ge_nonneg r l : 0 ≤ count_ge r l.
Proof. apply zlen_nonneg. Qed.

Lemma count_eq_pos r l : r ∈ l → 1 ≤ count_eq r l.
Proof.
  induction l as [|x l IH]; [by intros ?%elem_of_nil|].
  rewrite count_eq_cons. intros [Hr|Hr]%elem_of_cons; [rewrite decide_True by done|].
  - unfold count_eq. pose proof (zlen_nonneg (filter (λ x, x = r) l)). lia.
  - specialize (IH Hr). case_decide; lia.
Qed.

Lemma count_eq_zero r l : (∀ x, x ∈ l → x ≠ r) → count_eq r l = 0.
Proof.
  induction l as [|x l IH]; intros Hl; [done|].
  rewrite count_eq_cons, IH by (intros y Hy; apply Hl; by right).
  rewrite decide_False; [done|]. apply Hl. by left.
Qed.

Lemma count_eq_snoc r x l : count_eq r (l ++ [x]) = count_eq r l + if decide (x = r) then 1 else 0.
Proof.
  induction l as [|y l IH]; cbn [app]; rewrite !count_eq_cons; [|lia].
  unfold count_eq. cbn. lia.
Qed.

(** If no element lies strictly between [c] and [m]. *)
Lemma count_ge_step c m l : c < m → (∀ x, x ∈ l → x < m → x ≤ c) →
  count_ge c l = count_ge m l + count_eq c l.
Proof.
  intros Hc. induction l as [|x l IH]; intros Hl; [done|].
  rewrite !count_ge_cons, count_eq_cons, IH by (intros y Hy; apply Hl; by right).
  specialize (Hl x ltac:(by left)). repeat case_decide; lia.
Qed.

Lemma count_ge_above m l : (∀ x, x ∈ l → x < m) → count_ge m l = 0.
Proof.
  induction l as [|x l IH]; intros Hl; [done|].
  rewrite count_ge_cons, IH by (intros y Hy; apply Hl; by right).
  specialize (Hl x ltac:(by left)). case_decide; lia.
Qed.

Lemma count_ge_witness a m l : count_ge m l < count_ge a l → ∃ x, x ∈ l ∧ a ≤ x < m.
Proof.
  induction l as [|x l IH]; [unfold count_ge; cbn; lia|]. rewrite !count_ge_cons. intros Hlt.
  destruct (decide (a ≤ x < m)); [exists x; split; [by left|done]|].
  destruct IH as (y & ? & ?); [repeat (case_decide; try lia)|].
  exists y. split; [by right|done].
Qed.

(** ** One pass finds the largest element below [last_max] *)
Lemma pass_spec l last_max cm0 :
  let '(cm, cc) := pass l last_max cm0 in
  cm0 ≤ cm ∧ cc = count_eq cm l ∧ (cm0 < cm → cm < last_max ∧ cm ∈ l) ∧
  (∀ x, x ∈ l → x < last_max → x ≤ cm).
Proof.
  unfold pass. induction l as [|x l IH] using rev_ind.
  { cbn. repeat split; try lia. intros x Hx. by apply elem_of_nil in Hx. }
  rewrite foldl_app. cbn. destruct (foldl _ _ l) as [cm cc].
  destruct IH as (Hge & Hcc & Hlt & Hmax).
  assert (∀ m, (∀ y, y ∈ l → y < last_max → y ≤ m) → (x < last_max → x ≤ m) →
    ∀ y, y ∈ l ++ [x] → y < last_max → y ≤ m) as Hsnoc.
  { intros m Hl Hx y [Hy| ->%list_elem_of_singleton]%elem_of_app ?; auto. }
  unfold scan. destruct (x =? cm) eqn:E1; [|destruct (cm <? x) eqn:E2; [destruct (x <? last_max) eqn:E3|]];
    zprop; rewrite count_eq_snoc; (split; [lia|]).
  - rewrite decide_True by done. split; [lia|]. split; [|apply Hsnoc; [done|lia]].
    intros ?. split; [by apply Hlt|]. apply elem_of_app. left. by apply Hlt.
  - rewrite decide_True by done. split; [|split; [|apply Hsnoc; [|lia]]].
    + rewrite count_eq_zero; [done|]. intros y Hy ->. specialize (Hmax x Hy). lia.
    + intros _. split; [done|]. apply elem_of_app. right. by apply list_elem_of_singleton.
    + intros y Hy ?. specialize (Hmax y Hy). lia.
  - rewrite decide_False by lia. split; [lia|]. split; [|apply Hsnoc; [done|lia]].
    intros ?. split; [by apply Hlt|]. apply elem_of_app. left. by apply Hlt.
  - rewrite decide_False by lia. split; [lia|]. split; [|apply Hsnoc; [done|lia]].
    intros ?. split; [by apply Hlt|]. apply elem_of_app. left. by apply Hlt.
Qed.

(** The loop, entered with the elements that are at least [last_max] counted. *)
Lemma K_max_loop_spec fuel k l last_max cm0 :
  k ≤ count_ge 0 l → 0 ≤ last_max → cm0 ≤ 0 →
  k - count_ge last_max l ≤ Z.of_nat fuel →
  (k ≤ count_ge last_max l → count_ge (last_max + 1) l < k) →
  ∃ r, K_max_loop fuel k l last_max (count_ge last_max l) cm0 = Ret r ∧
    0 ≤ r ∧ r ≤ last_max ∧ k ≤ count_ge r l ∧ count_ge (r + 1) l < k.
Proof.
  revert last_max cm0. induction fuel as [|fuel IH]; intros last_max cm0 Hk Hlm Hcm Hfuel Hlast;
    cbn; destruct (count_ge last_max l <? k) eqn:Hc; zprop; try lia;
    try (exists last_max; split_and!; auto; lia).
  pose proof (pass_spec l last_max cm0) as Hp. destruct (pass l last_max cm0) as [cm cc].
  destruct Hp as (Hge & -> & Hlt & Hmax).
  destruct (count_ge_witness 0 last_max l) as (x & Hx & Hxr); [lia|].
  pose proof (Hmax x Hx ltac:(lia)).
  assert (cm < last_max ∧ cm ∈ l) as [Hcml Hin].
  { destruct (decide (cm0 < cm)); [auto|]. assert (cm = x) as -> by lia. split; [lia|done]. }
  rewrite <- (count_ge_step cm last_max l) by auto.
  assert (count_ge (cm + 1) l = count_ge last_max l) as Hnext.
  { assert (∀ l', (∀ y, y ∈ l' → y < last_max → y ≤ cm) →
      count_ge (cm + 1) l' = count_ge last_max l') as Heq; [|by apply Heq].
    clear -Hcml. intros l'. induction l' as [|y l' IH]; intros Hl; [done|].
    rewrite !count_ge_cons, IH by (intros z Hz; apply Hl; by right).
    specialize (Hl y ltac:(by left)). repeat case_decide; lia. }
  destruct (decide (k ≤ count_ge cm l)) as [Hdone|Hmore].
  - destruct (IH cm 0) as (r & Hr & ?); try lia. exists r. split; [done|lia].
  - pose proof (count_eq_pos cm l Hin). pose proof (count_ge_step cm last_max l ltac:(lia) ltac:(auto)).
    destruct (IH cm 0) as (r & Hr & ?); try lia. exists r. split; [done|lia].
Qed.

(** C28: on an array with at least [k] non-negative elements, all below [tmax],
    [K_max] returns after at most [k] passes over the array, and its result is the
    [k]-th largest element: [k] elements reach it and fewer than [k] exceed it. *)
Theorem K_max_kth_largest fuel k l tmax :
  1 ≤ k ≤ Z.of_nat fuel → k ≤ count_ge 0 l → 0 ≤ tmax → (∀ x, x ∈ l → x < tmax) →
  ∃ r, K_max fuel k l tmax = Ret r ∧ r ∈ l ∧ 0 ≤ r ∧ k ≤ count_ge r l ∧ count_ge (r + 1) l < k.
Proof.
  intros Hk Hc Ht Hl. pose proof (count_ge_above tmax l Hl) as H0.
  destruct (K_max_loop_spec fuel k l tmax (-1)) as (r & Hr & ? & ? & ? & ?); try lia.
  exists r. rewrite H0 in Hr. split_and!; try done.
  destruct (count_ge_witness r (r + 1) l) as (x & Hx & ?); [lia|].
  by assert (r = x) as -> by lia.
Qed.

Lemma K_max_kth_largest_witness :
  (∃ r, K_max 3 3 [4; 9; 4; 7; 0] 100 = Ret r ∧ r ∈ [4; 9; 4; 7; 0] ∧ 0 ≤ r ∧
     3 ≤ count_ge r [4; 9; 4; 7; 0] ∧ count_ge (r + 1) [4; 9; 4; 7; 0] < 3) ∧
  K_max 3 3 [4; 9; 4; 7; 0] 100 = Ret 4.
Proof.
  split; [|vm_compute; reflexivity]. apply K_max_kth_largest; [lia|vm_compute; congruence|lia|].
  intros x Hx. repeat (apply elem_of_cons in Hx as [->|Hx]; [lia|]). by apply elem_of_nil in Hx.
Defined.

(** Without [k] non-negative elements the loop need not end: two elements are asked
    for, one exists, and every later pass counts nothing. *)
Lemma K_max_diverges fuel : K_max fuel 2 [5; -1; -1] 100 = Err OutOfFuel.
Proof.
  assert (∀ fuel, K_max_loop fuel 2 [5; -1; -1] 0 1 0 = Err OutOfFuel) as H0.
  { clear fuel. induction fuel as [|fuel IH]; [done|apply IH]. }
  destruct fuel as [|[|fuel]]; [done|done|apply H0].
Qed.
