(* ===== verification/SeqLog.v ===== *)
(** * SeqLog: logs indexed by sequence number

    Two structures keep one entry for each sequence number of a window that moves
    upwards: [Log] (src/src/Log.h, Log.t), a ring whose size is a power of two, and
    [CheckpointLog] (src/src/checkpoint_log.{h,cc}), a ring with one entry for each
    checkpoint.  [WindowLog] is the interface that the replica relies on and [WindowLogLaws] what it promises:
    an entry that stays in the window keeps its value when the log is truncated,
    and an entry that enters the window has been cleared. *)
From S2P Require Import Prelude Node.

(** ** The interface *)
Class WindowLog (T L : Type) := {
  wl_head : L → Z;
  wl_inb : L → Z → bool;          (* the sequence numbers that have an entry *)
  wl_slot : L → Z → option T;     (* the content of the entry *)
  wl_fetch : L → Z → outcome T;
  wl_store : L → Z → T → L;
  wl_truncate : L → Z → outcome L;
}.

(** [clear_elem] is the [clear] method of the entries. *)
Definition cleared {T} (clear_elem : T → T) (x : T) : Prop := ∃ y, x = clear_elem y.

(** [wl_ok] is the invariant of the implementation and [wl_step] its
    condition on the new head. *)
Class WindowLogLaws {T L} (clear_elem : T → T) `{WindowLog T L}
    (wl_ok : L → Prop) (wl_step : L → Z → Prop) : Prop := {
  wl_fetch_in l s : wl_ok l → wl_inb l s = true →
    ∃ x, wl_slot l s = Some x ∧ wl_fetch l s = Ret x;
  wl_fetch_out l s : wl_ok l → wl_inb l s = false → wl_fetch l s = Err AssertFail;
  wl_store_ok l s x : wl_ok l → wl_inb l s = true →
    wl_ok (wl_store l s x) ∧ wl_head (wl_store l s x) = wl_head l ∧
    (∀ t, wl_inb (wl_store l s x) t = wl_inb l t) ∧
    ∀ t, wl_inb l t = true → wl_slot (wl_store l s x) t = if decide (t = s) then Some x else wl_slot l t;
  wl_truncate_ok l nh : wl_ok l → wl_step l nh →
    ∃ l', wl_truncate l nh = Ret l' ∧ wl_ok l' ∧ wl_head l' = Z.max (wl_head l) nh ∧
      (∀ s, wl_inb l' s = true → wl_inb l s = true → wl_slot l' s = wl_slot l s) ∧
      (∀ s, wl_inb l' s = true → wl_inb l s = false →
         ∃ x, wl_slot l' s = Some x ∧ cleared clear_elem x);
}.

(** What a client observes of a truncation. *)
Lemma wl_truncate_fetch {T L} (clear_elem : T → T) `{WindowLogLaws T L clear_elem wl_ok wl_step}
    (l : L) (nh : Z) :
  wl_ok l → wl_step l nh →
  ∃ l', wl_truncate l nh = Ret l' ∧ wl_ok l' ∧ wl_head l' = Z.max (wl_head l) nh ∧
    ∀ s, wl_inb l' s = true →
      ∃ x, wl_fetch l' s = Ret x ∧
        if wl_inb l s then wl_fetch l s = Ret x else cleared clear_elem x.
Proof.
  intros Hl Hs. destruct (wl_truncate_ok l nh Hl Hs) as (l' & Ht & Hl' & Hh & Hold & Hnew).
  exists l'. split_and!; try done. intros s Hr.
  destruct (wl_fetch_in l' s Hl' Hr) as (x & Hx & Hf). exists x. split; [done|].
  destruct (wl_inb l s) eqn:Hr'.
  - destruct (wl_fetch_in l s Hl Hr') as (y & Hy & ->). rewrite Hold in Hx by done. congruence.
  - destruct (Hnew s Hr Hr') as (y & Hy & Hc). congruence.
Qed.

(** ** Clearing a series of slots *)
Section clear_slots.
Context {T : Type} (clear_elem : T → T).

Definition clear_slot (e : list T) (j : Z) : outcome (list T) :=
  x ← of_option Undefined (zget e j); Ret (zset e j (clear_elem x)).

Definition clear_slots (e : list T) (js : list Z) : outcome (list T) :=
  foldl (λ e j, e ← e; clear_slot e j) (Ret e) js.

Lemma clear_slots_spec js e :
  Forall (λ j, 0 ≤ j < zlen e) js →
  ∃ e', clear_slots e js = Ret e' ∧ zlen e' = zlen e ∧
    (∀ j, j ∉ js → zget e' j = zget e j) ∧
    (∀ j, j ∈ js → ∃ x, zget e' j = Some x ∧ cleared clear_elem x).
Proof.
  induction js as [|j js IH] using rev_ind; intros Hf.
  { exists e. split_and!; try done. by intros j ?%elem_of_nil. }
  apply Forall_app in Hf as [Hf Hj]. rewrite Forall_singleton in Hj.
  destruct (IH Hf) as (e' & He & Hl & Hout & Hin).
  destruct (zget_lookup e' j) as [x Hx]; [lia|].
  exists (zset e' j (clear_elem x)). unfold clear_slots in *. rewrite foldl_app, He. cbn.
  unfold clear_slot. rewrite Hx, zlen_zset. split_and!; [done|done| |].
  - intros k Hk. rewrite not_elem_of_app, list_elem_of_singleton in Hk. destruct Hk as [Hk Hne].
    rewrite zget_zset_ne by done. by apply Hout.
  - intros k Hk. rewrite zget_zset. case_decide as Hd.
    + eexists; split; [done|]. by exists x.
    + apply elem_of_app in Hk as [Hk|Hk]; [by apply Hin|].
      apply list_elem_of_singleton in Hk as ->. destruct Hd. rewrite Hl. done.
Qed.
End clear_slots.

(** ** Log<T> (Log.h, Log.t) *)
Module Log.
Section log.
Context {T : Type} (clear_elem : T → T).

Record t := mkLog { head : Z; max_size : Z; elems : list T; mask : Z }.

(** The constructor, for entries built by [T]'s default constructor. *)
Definition make (sz h : Z) (elem : T) : t :=
  mkLog h sz (replicate (Z.to_nat sz) elem) (sz - 1).

Definition mod_ (l : t) (s : Z) : Z := to_unsigned (Z.land s (mask l)).

Definition within_range (l : t) (seqno : Z) : bool :=
  (seqno >=? head l) && (seqno <? head l + max_size l).

Definition head_seqno (l : t) : Z := head l.
Definition max_seqno (l : t) : Z := head l + max_size l - 1.

Definition clear (l : t) (h : Z) : outcome t :=
  e ← clear_slots clear_elem (elems l) (seqZ 0 (max_size l));
  Ret (mkLog h (max_size l) e (mask l)).

Definition fetch (l : t) (seqno : Z) : outcome T :=
  _ ← th_assert (within_range l seqno);
  of_option Undefined (zget (elems l) (mod_ l seqno)).

(** Assignment through the reference that [fetch] returns. *)
Definition store (l : t) (seqno : Z) (x : T) : t :=
  mkLog (head l) (max_size l) (zset (elems l) (mod_ l seqno) x) (mask l).

(** The bounds of the loop are [int]s. *)
Definition truncate (l : t) (new_head : Z) : outcome t :=
  if new_head <=? head l then Ret l
  else
    let '(i, max) :=
      if new_head - head l >=? max_size l then (0, max_size l)
      else (to_int (head l), to_int new_head) in
    e ← clear_slots clear_elem (elems l) (mod_ l <$> seqZ i (max - i));
    Ret (mkLog new_head (max_size l) e (mask l)).

(** *** Invariant *)
Definition ok (l : t) : Prop :=
  (∃ k, 0 ≤ k < 31 ∧ max_size l = 2 ^ k) ∧ mask l = max_size l - 1 ∧
  zlen (elems l) = max_size l.

(** The distance between the heads survives the conversion to [int], or the
    whole ring is cleared. *)
Definition step (l : t) (new_head : Z) : Prop :=
  head l < new_head → new_head - head l < max_size l →
  to_int new_head - to_int (head l) = new_head - head l.

Lemma mod_spec l s : ok l → mod_ l s = s `mod` max_size l ∧ 0 ≤ mod_ l s < max_size l.
Proof.
  intros ((k & Hk & Hsz) & Hm & _). unfold mod_. rewrite Hm, Hsz.
  replace (2 ^ k - 1) with (Z.ones k) by (rewrite Z.ones_equiv; lia).
  rewrite Z.land_ones by lia. assert (0 < 2 ^ k) by (apply Z.pow_pos_nonneg; lia).
  pose proof (Z.mod_pos_bound s (2 ^ k) ltac:(lia)).
  assert (2 ^ k < 2 ^ 31) by (apply Z.pow_lt_mono_r; lia).
  unfold to_unsigned, wrapU. rewrite (Z.mod_small (_ `mod` _)) by lia. done.
Qed.

(** Numbers less than a ring apart have different slots. *)
Lemma mod_inj n a b : 0 < n → a `mod` n = b `mod` n → Z.abs (a - b) < n → a = b.
Proof.
  intros Hn Hm Hab. pose proof (Z.div_mod a n ltac:(lia)). pose proof (Z.div_mod b n ltac:(lia)).
  assert (a `div` n = b `div` n); nia.
Qed.

Lemma size_pos l : ok l → 0 < max_size l.
Proof. intros ((k & Hk & ->) & _). apply Z.pow_pos_nonneg; lia. Qed.

(** The conversion to [int] does not change the slot. *)
Lemma to_int_mod l z i : ok l → (to_int z + i) `mod` max_size l = (z + i) `mod` max_size l.
Proof.
  intros ((k & Hk & Hs) & _). rewrite Hs. unfold to_int, wrapS.
  pose proof (Z.div_mod (z + 2 ^ (32 - 1)) (2 ^ 32) ltac:(lia)) as Hd.
  replace ((z + 2 ^ (32 - 1)) `mod` 2 ^ 32 - 2 ^ (32 - 1) + i)
    with (z + i + (- ((z + 2 ^ (32 - 1)) `div` 2 ^ 32) * 2 ^ (32 - k)) * 2 ^ k).
  { apply Z_mod_plus_full. }
  rewrite <- Z.mul_assoc, <- Z.pow_add_r by lia. replace (32 - k + k) with 32 by lia. lia.
Qed.

Lemma slots_in_range l i n : ok l → Forall (λ j, 0 ≤ j < zlen (elems l)) (mod_ l <$> seqZ i n).
Proof.
  intros Hl. pose proof Hl as (_ & _ & Hlen). rewrite Hlen.
  apply Forall_fmap, Forall_forall. intros s _. by apply mod_spec.
Qed.

(** Which slots a loop over [i, i + n) clears, in terms of sequence numbers. *)
Lemma slot_cleared l i n s : ok l →
  mod_ l s ∈ mod_ l <$> seqZ i n ↔ ∃ j, i ≤ j < i + n ∧ j `mod` max_size l = s `mod` max_size l.
Proof.
  intros Hl. rewrite list_elem_of_fmap. setoid_rewrite elem_of_seqZ.
  split; intros (j & H1 & H2); exists j.
  - rewrite !(proj1 (mod_spec l _ Hl)) in H1. done.
  - rewrite !(proj1 (mod_spec l _ Hl)). done.
Qed.

Lemma truncate_spec l nh : ok l → step l nh →
  ∃ l', truncate l nh = Ret l' ∧ ok l' ∧ max_size l' = max_size l ∧ head l' = Z.max (head l) nh ∧
    (∀ s, within_range l' s = true → within_range l s = true →
       zget (elems l') (mod_ l' s) = zget (elems l) (mod_ l s)) ∧
    (∀ s, within_range l' s = true → within_range l s = false →
       ∃ x, zget (elems l') (mod_ l' s) = Some x ∧ cleared clear_elem x).
Proof.
  intros Hl Hs. pose proof (size_pos l Hl) as Hpos. unfold truncate.
  destruct (nh <=? head l) eqn:Hnh; zprop.
  { exists l. split_and!; try done; [lia| ]. intros s ??. congruence. }
  pose proof Hl as (Hk & Hmask & Hlen).
  destruct (nh - head l >=? max_size l) eqn:Hfar; zprop.
  - destruct (clear_slots_spec clear_elem (mod_ l <$> seqZ 0 (max_size l - 0)) (elems l))
      as (e & He & Hle & Hout & Hin); [by apply slots_in_range|].
    rewrite He. cbn. eexists. split_and!; [done|..]; cbn; [split_and!; cbn; congruence|done|lia| |].
    + intros s H1 H2. unfold within_range in *. cbn in *. zprop. lia.
    + intros s H1 H2. change (mod_ (mkLog nh _ e _) s) with (mod_ l s). apply Hin.
      apply slot_cleared; [done|]. exists (s `mod` max_size l).
      pose proof (Z.mod_pos_bound s (max_size l) Hpos). rewrite Z.mod_mod by lia. split; [lia|done].
  - specialize (Hs Hnh Hfar).
    destruct (clear_slots_spec clear_elem (mod_ l <$> seqZ (to_int (head l)) (to_int nh - to_int (head l)))
      (elems l)) as (e & He & Hle & Hout & Hin); [by apply slots_in_range|].
    rewrite He. cbn. eexists. split_and!; [done|..]; cbn; [split_and!; cbn; congruence|done|lia| |];
      intros s H1 H2; unfold within_range in *; cbn in *; change (mod_ (mkLog nh _ e _) s) with (mod_ l s).
    + apply Hout. rewrite slot_cleared by done. intros (j & Hj & Hm). zprop.
      replace j with (to_int (head l) + (j - to_int (head l))) in Hm by lia.
      rewrite to_int_mod in Hm by done. apply mod_inj in Hm; lia.
    + apply Hin. rewrite slot_cleared by done. zprop.
      apply andb_false_iff in H2 as [H2|H2]; zprop; [lia|].
      exists (to_int (head l) + (s - max_size l - head l)). split; [lia|].
      rewrite to_int_mod by done. replace (head l + _) with (s + (-1) * max_size l) by lia.
      apply Z_mod_plus_full.
Qed.

(** What all entries have, and keep when they are cleared, they still have after a truncation. *)
Lemma truncate_entries (P : T → Prop) l l' nh : (∀ x, P x → P (clear_elem x)) →
  Forall P (elems l) → truncate l nh = Ret l' → Forall P (elems l').
Proof.
  intros Hc HP. unfold truncate. destruct (nh <=? head l); [by intros [= <-]|].
  destruct (if _ >=? _ then _ else _) as [i mx]. intros E. apply outcome_bind_Ret in E as (e & E & El).
  injection El as <-. cbn. revert e E. induction (mod_ l <$> seqZ i (mx - i)) as [|j js IH] using rev_ind; intros e E.
  - by injection E as <-.
  - unfold clear_slots in *. rewrite foldl_app in E. cbn in E. apply outcome_bind_Ret in E as (e1 & E1 & E).
    unfold clear_slot in E. apply outcome_bind_Ret in E as (x & Ex & E). injection E as <-.
    apply of_option_Ret in Ex. pose proof (IH e1 E1) as H1'. apply Forall_zset; [done|]. apply Hc. by eapply Forall_zget.
Qed.

(** Every entry is that of a number in the window. *)
Lemma elems_fetch (P : T → Prop) l : ok l → (∀ n x, fetch l n = Ret x → P x) → Forall P (elems l).
Proof.
  intros Hl HP. pose proof (size_pos l Hl) as Hpos. apply Forall_lookup_2. intros j x Hx.
  set (n := head l + (Z.of_nat j - head l) `mod` max_size l).
  pose proof (Z.mod_pos_bound (Z.of_nat j - head l) (max_size l) Hpos) as Hm.
  apply (HP n). unfold fetch. replace (within_range l n) with true.
  2:{ unfold within_range. rewrite Z.geb_leb. by rewrite (proj2 (Z.leb_le (head l) n)), (proj2 (Z.ltb_lt n (head l + max_size l))) by lia. }
  cbn [th_assert mbind outcome_bind]. apply lookup_lt_Some in Hx as Hj.
  rewrite (proj1 (mod_spec l n Hl)). unfold n. rewrite Zplus_mod_idemp_r.
  replace (head l + (Z.of_nat j - head l)) with (Z.of_nat j) by lia.
  pose proof Hl as (_ & _ & Hlen). unfold zlen in Hlen. rewrite Z.mod_small by lia. unfold zget.
  rewrite decide_True by lia. by rewrite Nat2Z.id, Hx.
Qed.

#[export] Instance window_log : WindowLog T t := {
  wl_head := head;
  wl_inb := within_range;
  wl_slot l s := zget (elems l) (mod_ l s);
  wl_fetch := fetch;
  wl_store := store;
  wl_truncate := truncate;
}.

#[export] Instance window_log_laws : WindowLogLaws clear_elem ok step.
Proof.
  split; cbn; unfold fetch, store.
  - intros l s Hl Hs. destruct (zget_lookup (elems l) (mod_ l s)) as [x Hx].
    { pose proof Hl as (_ & _ & ->). by apply mod_spec. }
    exists x. by rewrite Hs, Hx.
  - intros l s Hl Hs. by rewrite Hs.
  - intros l s x Hl Hs. pose proof Hl as (Hk & Hm & Hlen). split_and!; [|done|done|].
    { split_and!; cbn; [done|done|by rewrite zlen_zset]. }
    intros u Hu. cbn. change (mod_ (mkLog _ _ _ _) u) with (mod_ l u).
    destruct (decide (u = s)) as [->|Hne].
    { apply zget_zset_eq. rewrite Hlen. by apply mod_spec. }
    apply zget_zset_ne. rewrite !(proj1 (mod_spec l _ Hl)). intros Hmod.
    unfold within_range in *. zprop. apply Hne. symmetry.
    apply (mod_inj (max_size l)); [by apply size_pos|done|lia].
  - intros l nh Hl Hs. destruct (truncate_spec l nh Hl Hs) as (l' & ? & ? & _ & ? & ? & ?).
    by exists l'.
Qed.

Lemma log_make_ok k h elem : 0 ≤ k < 31 → ok (make (2 ^ k) h elem).
Proof.
  intros Hk. assert (0 < 2 ^ k) by (apply Z.pow_pos_nonneg; lia).
  split_and!; cbn; [by exists k|done|]. rewrite zlen_replicate. lia.
Qed.

Lemma step_small l nh : 0 ≤ head l → nh < 2 ^ 31 → step l nh.
Proof. intros ????. rewrite !to_int_small; lia. Qed.
End log.
Arguments t : clear implicits.
Arguments mkLog {T}.

(** Truncating a [Log] advances the head, keeps every entry that stays in the
    window, and clears every entry that enters it, as long as the distance of the
    two heads survives the conversion to [int]. *)
Theorem log_truncate_window {T} (clear_elem : T → T) (l : t T) (nh : Z) :
  ok l → step l nh →
  ∃ l', truncate clear_elem l nh = Ret l' ∧ ok l' ∧ head l' = Z.max (head l) nh ∧
    ∀ s, within_range l' s = true →
      ∃ x, fetch l' s = Ret x ∧
        if within_range l s then fetch l s = Ret x else cleared clear_elem x.
Proof.
  apply (wl_truncate_fetch clear_elem (H0 := window_log_laws clear_elem)).
Qed.

Lemma log_truncate_window_witness :
  ∃ l', truncate (λ _, 0) (mkLog 5 4 [8; 5; 6; 7] 3) 7 = Ret l' ∧ ok l' ∧ head l' = 7 ∧
    ∀ s, within_range l' s = true →
      ∃ x, fetch l' s = Ret x ∧
        if within_range (mkLog 5 4 [8; 5; 6; 7] 3) s then fetch (mkLog 5 4 [8; 5; 6; 7] 3) s = Ret x
        else cleared (λ _, 0) x.
Proof.
  apply (log_truncate_window (λ _, 0) (mkLog 5 4 [8; 5; 6; 7] 3) 7).
  - split_and!; [exists 2; split; [lia|reflexivity]|reflexivity|reflexivity].
  - apply step_small; cbn; lia.
Defined.

(** When the head passes a multiple of 2^31 the loop bounds, which are [int]s,
    are out of order and the loop body never runs: the head advances, and the
    entries that enter the window keep the contents of the previous ones. *)
Theorem log_truncate_int_bounds {T} (clear_elem : T → T) (l : t T) (nh : Z) :
  0 ≤ head l < 2 ^ 31 → 2 ^ 31 ≤ nh < 2 ^ 32 → nh - head l < max_size l →
  truncate clear_elem l nh = Ret (mkLog nh (max_size l) (elems l) (mask l)) ∧
  ¬ step l nh.
Proof.
  intros Hh Hnh Hd.
  assert (to_int nh = nh - 2 ^ 32) as Hi.
  { unfold to_int, wrapS. assert ((nh + 2 ^ (32 - 1)) `mod` 2 ^ 32 = nh + 2 ^ 31 - 2 ^ 32) as ->; [|lia].
    symmetry. apply (Z.mod_unique _ _ 1); lia. }
  split.
  - unfold truncate. rewrite Z.geb_leb. zbool. rewrite Hi, to_int_small, seqZ_nil by lia. done.
  - intros Hs. specialize (Hs ltac:(lia) Hd). rewrite Hi, to_int_small in Hs by lia. lia.
Qed.

Lemma log_truncate_int_bounds_witness :
  let l := mkLog (2 ^ 31 - 2) 4 [10; 11; 12; 13] 3 in
  (truncate (λ _, 0) l (2 ^ 31 + 1) = Ret (mkLog (2 ^ 31 + 1) 4 [10; 11; 12; 13] 3) ∧
   ¬ step l (2 ^ 31 + 1)) ∧
  fetch (mkLog (2 ^ 31 + 1) 4 [10; 11; 12; 13] 3) (2 ^ 31 + 2) = Ret 12.
Proof.
  split; [|vm_compute; reflexivity].
  apply (log_truncate_int_bounds (λ _, 0) (mkLog (2 ^ 31 - 2) 4 [10; 11; 12; 13] 3)); cbn; lia.
Defined.
End Log.

(** ** CheckpointLog (checkpoint_log.h, checkpoint_log.cc) *)
Module CheckpointLog.
Section ckpt_log.
Context `{Config} {T : Type} (clear_elem : T → T).

Definition MAX_SIZE : Z := max_out `div` checkpoint_interval + 1.

Record t := mkCkptLog { head_ : Z; head_index_ : Z; certs_ : list T }.

Definition make (elem : T) : t := mkCkptLog 0 0 (replicate (Z.to_nat MAX_SIZE) elem).

Definition certificate_index (l : t) (seqno : Z) : Z :=
  to_int (to_u64 (head_index_ l + Z.quot (seqno - head_ l) checkpoint_interval) `mod` MAX_SIZE).

Definition head_seqno (l : t) : Z := head_ l.
Definition max_seqno (l : t) : Z := head_ l + max_out.

Definition within_range (l : t) (seqno : Z) : bool :=
  (seqno >=? head_ l) && (seqno <=? max_seqno l).

Definition clear (l : t) (h : Z) : outcome t :=
  _ ← th_assert (h >=? 0);
  c ← clear_slots clear_elem (certs_ l) (seqZ 0 MAX_SIZE);
  Ret (mkCkptLog h (head_index_ l) c).

Definition fetch (l : t) (seqno : Z) : outcome T :=
  _ ← th_assert (within_range l seqno);
  _ ← th_assert (Z.rem seqno checkpoint_interval =? 0);
  of_option Undefined (zget (certs_ l) (certificate_index l seqno)).

Definition store (l : t) (seqno : Z) (x : T) : t :=
  mkCkptLog (head_ l) (head_index_ l) (zset (certs_ l) (certificate_index l seqno) x).

(** The values of [checkpoint] in [truncate]'s loop. *)
Definition checkpoints_below (l : t) (new_head : Z) : list Z :=
  (λ k, head_ l + k * checkpoint_interval) <$>
    seqZ 0 ((new_head - head_ l + checkpoint_interval - 1) `div` checkpoint_interval).

Definition truncate (l : t) (new_head : Z) : outcome t :=
  if new_head <=? head_ l then Ret l
  else
    _ ← th_assert (Z.rem new_head checkpoint_interval =? 0);
    if negb (within_range l new_head) then clear l new_head
    else
      c ← clear_slots clear_elem (certs_ l) (certificate_index l <$> checkpoints_below l new_head);
      Ret (mkCkptLog new_head (certificate_index l new_head) c).

(** *** Invariant *)
Definition ok (l : t) : Prop :=
  0 ≤ head_ l < 2 ^ 62 ∧ head_ l `mod` checkpoint_interval = 0 ∧
  0 ≤ head_index_ l < MAX_SIZE ∧ zlen (certs_ l) = MAX_SIZE.

Definition step (_ : t) (new_head : Z) : Prop :=
  new_head < 2 ^ 62 ∧ new_head `mod` checkpoint_interval = 0.

Definition is_ckpt (l : t) (s : Z) : bool :=
  within_range l s && (Z.rem s checkpoint_interval =? 0).

Context `{!ConfigOk}.

Lemma max_size_bounds : 2 ≤ MAX_SIZE < 2 ^ 21 ∧ checkpoint_interval * (MAX_SIZE - 1) ≤ max_out ∧
  max_out < checkpoint_interval * MAX_SIZE.
Proof.
  pose proof config_interval as Hc. pose proof config_max_out. unfold MAX_SIZE.
  pose proof (Z_div_mod_eq_full max_out checkpoint_interval).
  pose proof (Z.mod_pos_bound max_out checkpoint_interval (proj1 Hc)).
  assert (1 ≤ max_out `div` checkpoint_interval) by (apply Z.div_le_lower_bound; lia).
  assert (max_out `div` checkpoint_interval ≤ max_out) by (apply Z.div_le_upper_bound; nia).
  nia.
Qed.

(** The checkpoints of the window are [head_ l + j * checkpoint_interval]. *)
Lemma ckpt_number l s : ok l → 0 ≤ s → Z.rem s checkpoint_interval = 0 →
  ∃ j, s = head_ l + j * checkpoint_interval.
Proof.
  intros (Hh & Hm & _) Hs Hr. pose proof config_interval.
  rewrite Z.rem_mod_nonneg in Hr by lia.
  exists (s `div` checkpoint_interval - head_ l `div` checkpoint_interval).
  pose proof (Z_div_mod_eq_full s checkpoint_interval).
  pose proof (Z_div_mod_eq_full (head_ l) checkpoint_interval). lia.
Qed.

Lemma index_spec l j : ok l → 0 ≤ j < 2 ^ 40 →
  certificate_index l (head_ l + j * checkpoint_interval) = (head_index_ l + j) `mod` MAX_SIZE.
Proof.
  intros (Hh & Hm & Hi & _) Hj. pose proof config_interval. pose proof max_size_bounds as (Hms & _).
  unfold certificate_index. replace (_ + j * _ - _) with (j * checkpoint_interval) by lia.
  rewrite Z.quot_mul by lia. unfold to_u64, wrapU. rewrite (Z.mod_small _ (2 ^ 64)) by lia.
  assert (0 < MAX_SIZE) as Hpos by lia. pose proof (Z.mod_pos_bound (head_index_ l + j) MAX_SIZE Hpos).
  apply to_int_small. lia.
Qed.

Lemma index_bound l j : ok l → 0 ≤ j < 2 ^ 40 →
  0 ≤ certificate_index l (head_ l + j * checkpoint_interval) < zlen (certs_ l).
Proof.
  intros Hl Hj. rewrite index_spec by done. destruct Hl as (_ & _ & _ & ->).
  pose proof max_size_bounds. apply Z.mod_pos_bound. lia.
Qed.

Lemma in_window l j :
  within_range l (head_ l + j * checkpoint_interval) = true ↔ 0 ≤ j < MAX_SIZE.
Proof.
  pose proof config_interval. pose proof max_size_bounds as (_ & Hlo & Hhi).
  unfold within_range, max_seqno. rewrite Z.geb_leb, andb_true_iff, !Z.leb_le.
  split; intros Hj; nia.
Qed.

Lemma is_ckpt_number l s : ok l → is_ckpt l s = true →
  ∃ j, 0 ≤ j < MAX_SIZE ∧ s = head_ l + j * checkpoint_interval.
Proof.
  intros Hl Hs. unfold is_ckpt in Hs. apply andb_true_iff in Hs as [Hw Hr]. zprop.
  assert (0 ≤ s).
  { unfold within_range in Hw. zprop. destruct Hl as (? & _). lia. }
  destruct (ckpt_number l s Hl) as [j ->]; [done..|]. exists j. split; [by apply in_window in Hw|done].
Qed.

Lemma rem_ckpt l j : ok l → 0 ≤ j → Z.rem (head_ l + j * checkpoint_interval) checkpoint_interval = 0.
Proof.
  intros (? & Hm & _) Hj. pose proof config_interval.
  rewrite Z.rem_mod_nonneg by nia. by rewrite Z_mod_plus_full.
Qed.

Lemma truncate_far l nh : ok l → step l nh → head_ l < nh → within_range l nh = false →
  ∃ l', truncate l nh = Ret l' ∧ ok l' ∧ head_ l' = nh ∧
    ∀ j, 0 ≤ j < MAX_SIZE → ∃ x,
      zget (certs_ l') (certificate_index l' (nh + j * checkpoint_interval)) = Some x ∧
      cleared clear_elem x.
Proof.
  intros Hl [Hnh Hm] Hlt Hw. pose proof Hl as (Hh & _ & Hi & Hlen). pose proof config_interval.
  pose proof max_size_bounds as (Hms & _).
  unfold truncate, clear. rewrite Hw, Z.geb_leb, Z.rem_mod_nonneg by lia. rewrite Hm. zbool.
  cbn [th_assert mbind outcome_bind].
  destruct (clear_slots_spec clear_elem (seqZ 0 MAX_SIZE) (certs_ l)) as (c & Hc & Hlc & _ & Hin).
  { apply Forall_seqZ. intros k ?. lia. }
  rewrite Hc. cbn. eexists. split; [done|].
  assert (ok (mkCkptLog nh (head_index_ l) c)) as Hok by (split_and!; cbn; try done; lia).
  split; [exact Hok|]. split; [done|]. intros j Hj. cbn. apply Hin.
  assert (0 ≤ j < 2 ^ 40) as Hj' by lia.
  pose proof (index_bound _ j Hok Hj') as Hb. cbn in Hb.
  apply elem_of_seqZ. lia.
Qed.

Lemma truncate_near l m : ok l → head_ l + m * checkpoint_interval < 2 ^ 62 → 0 < m < MAX_SIZE →
  ∃ l', truncate l (head_ l + m * checkpoint_interval) = Ret l' ∧ ok l' ∧
    head_ l' = head_ l + m * checkpoint_interval ∧
    ∀ j, 0 ≤ j < MAX_SIZE →
      let s := head_ l' + j * checkpoint_interval in
      if decide (m + j < MAX_SIZE)
      then zget (certs_ l') (certificate_index l' s) = zget (certs_ l) (certificate_index l s)
      else ∃ x, zget (certs_ l') (certificate_index l' s) = Some x ∧ cleared clear_elem x.
Proof.
  intros Hl Hnh Hm. pose proof Hl as (Hh & Ha & Hi & Hlen). pose proof config_interval.
  pose proof max_size_bounds as (Hms & _).
  unfold truncate. rewrite rem_ckpt by (done || lia). rewrite (proj2 (in_window l m)) by lia.
  rewrite (proj2 (Z.leb_gt _ _)) by nia. cbn [th_assert mbind outcome_bind negb Z.eqb].
  assert (certificate_index l <$> checkpoints_below l (head_ l + m * checkpoint_interval) =
    (λ j, (head_index_ l + j) `mod` MAX_SIZE) <$> seqZ 0 m) as ->.
  { unfold checkpoints_below. replace (_ - head_ l + _ - 1)
      with (m * checkpoint_interval + (checkpoint_interval - 1)) by lia.
    rewrite Z.div_add_l, (Z.div_small (_ - 1)) by lia. rewrite Z.add_0_r, <- list_fmap_compose.
    apply list_fmap_ext. intros k j Hj%list_elem_of_lookup_2%elem_of_seqZ. cbn.
    apply index_spec; [done|lia]. }
  destruct (clear_slots_spec clear_elem ((λ j, (head_index_ l + j) `mod` MAX_SIZE) <$> seqZ 0 m) (certs_ l))
    as (c & Hc & Hlc & Hout & Hin).
  { apply Forall_fmap, Forall_seqZ. intros k Hk. cbn. rewrite Hlen. apply Z.mod_pos_bound. lia. }
  rewrite Hc, index_spec by (done || lia). cbn [mbind outcome_bind]. eexists. split; [done|].
  assert (ok (mkCkptLog (head_ l + m * checkpoint_interval) ((head_index_ l + m) `mod` MAX_SIZE) c)) as Hok.
  { split_and!; cbn; [nia|done|by rewrite Z_mod_plus_full|apply Z.mod_pos_bound; lia|
      apply Z.mod_pos_bound; lia|congruence]. }
  split; [exact Hok|]. split; [done|]. intros j Hj. cbn [head_ certs_].
  set (s := head_ l + m * checkpoint_interval + j * checkpoint_interval).
  assert (certificate_index (mkCkptLog (head_ l + m * checkpoint_interval)
    ((head_index_ l + m) `mod` MAX_SIZE) c) s = (head_index_ l + (m + j)) `mod` MAX_SIZE) as ->.
  { pose proof (index_spec _ j Hok ltac:(lia)) as Hj'. cbn [head_ head_index_] in Hj'.
    unfold s. rewrite Hj'. by rewrite Zplus_mod_idemp_l, Z.add_assoc. }
  case_decide as Hin'.
  - replace s with (head_ l + (m + j) * checkpoint_interval) by (unfold s; lia).
    rewrite index_spec by (done || lia). apply Hout. rewrite list_elem_of_fmap.
    intros (k & Hk & Hkr%elem_of_seqZ). apply Log.mod_inj in Hk; lia.
  - apply Hin, list_elem_of_fmap. exists (m + j - MAX_SIZE). split; [|apply elem_of_seqZ; lia].
    replace (head_index_ l + (m + j)) with (head_index_ l + (m + j - MAX_SIZE) + 1 * MAX_SIZE) by lia.
    apply Z_mod_plus_full.
Qed.

#[export] Instance window_log : WindowLog T t := {
  wl_head := head_;
  wl_inb := is_ckpt;
  wl_slot l s := zget (certs_ l) (certificate_index l s);
  wl_fetch := fetch;
  wl_store := store;
  wl_truncate := truncate;
}.

#[export] Instance window_log_laws : WindowLogLaws clear_elem ok step.
Proof.
  pose proof config_interval. pose proof max_size_bounds as (Hms & _).
  split; cbn; unfold fetch, store.
  - intros l s Hl Hs. destruct (is_ckpt_number l s Hl Hs) as (j & Hj & ->).
    destruct (zget_lookup (certs_ l) (certificate_index l (head_ l + j * checkpoint_interval)))
      as [x Hx]; [apply index_bound; [done|lia]|].
    exists x. unfold is_ckpt in Hs. apply andb_true_iff in Hs as [-> ->]. cbn. by rewrite Hx.
  - intros l s Hl Hs. unfold is_ckpt in Hs. apply andb_false_iff in Hs as [->| ->]; [done|].
    by destruct (within_range l s).
  - intros l s x Hl Hs. destruct (is_ckpt_number l s Hl Hs) as (j & Hj & ->).
    pose proof Hl as (? & ? & ? & Hlen).
    split; [split_and!; cbn; rewrite ?zlen_zset; lia|]. split; [done|]. split; [done|].
    intros u Hu. destruct (is_ckpt_number l u Hl Hu) as (k & Hk & ->).
    change (certificate_index (mkCkptLog _ _ _)) with (certificate_index l). cbn [certs_].
    rewrite zget_zset, !index_spec by (done || lia).
    destruct (decide (j = k)) as [->|Hne].
    + rewrite !decide_True; [done|done|]. rewrite Hlen. split; [done|]. apply Z.mod_pos_bound; lia.
    + rewrite !decide_False; [done|nia|]. intros [Hmod _]. apply Hne. apply Log.mod_inj in Hmod; lia.
  - intros l nh Hl Hst. destruct (decide (nh ≤ head_ l)) as [Hle|Hlt].
    { exists l. unfold truncate. rewrite (proj2 (Z.leb_le _ _)) by done.
      split; [done|]. split; [done|]. split; [lia|]. split; [done|]. intros. congruence. }
    rewrite Z.max_r by lia. pose proof Hst as [Hnh Hmod]. pose proof Hl as (Hh & Hha & _).
    destruct (within_range l nh) eqn:Hw.
    + destruct (ckpt_number l nh Hl) as [m ->]; [lia|rewrite Z.rem_mod_nonneg; lia|].
      apply in_window in Hw as Hm.
      destruct (truncate_near l m) as (l' & Ht & Hl' & Hhd & Hj); [done|lia|nia|].
      exists l'. do 3 (split; [done|]). split; intros s Hs1 Hs2;
        destruct (is_ckpt_number l' s Hl' Hs1) as (j & Hjr & ->); specialize (Hj j Hjr); cbn zeta in Hj.
      * case_decide; [done|]. destruct (is_ckpt_number l _ Hl Hs2) as (k & ? & ?). nia.
      * case_decide as Hd; [|done]. exfalso. rewrite Hhd in Hs2.
        replace (head_ l + m * checkpoint_interval + j * checkpoint_interval)
          with (head_ l + (m + j) * checkpoint_interval) in Hs2 by lia.
        unfold is_ckpt in Hs2. rewrite rem_ckpt, (proj2 (in_window l _)) in Hs2 by (done || lia). done.
    + destruct (truncate_far l nh) as (l' & Ht & Hl' & Hhd & Hj); [done..|lia|done|].
      exists l'. do 3 (split; [done|]). split; intros s Hs1 Hs2;
        destruct (is_ckpt_number l' s Hl' Hs1) as (j & Hjr & ->).
      * destruct (is_ckpt_number l _ Hl Hs2) as (k & ? & Hk).
        assert (nh = head_ l + (k - j) * checkpoint_interval) as Hnk by lia.
        rewrite Hnk in Hw. assert (¬ 0 ≤ k - j < MAX_SIZE) as Hn; [|nia].
        rewrite <- (in_window l). by rewrite Hw.
      * rewrite Hhd. by apply Hj.
Qed.
End ckpt_log.
Arguments t : clear implicits.
Arguments mkCkptLog {T}.

(** Truncating a [CheckpointLog] to a checkpoint, however far, succeeds, advances
    the head, keeps the certificates of the checkpoints that stay in the window and
    clears those of the checkpoints that enter it; the ring index never leaves the
    array. *)
Theorem ckpt_log_truncate_window `{Config} {T} (Hc : ConfigOk) (clear_elem : T → T) (l : t T) (nh : Z) :
  ok l → nh < 2 ^ 62 → nh `mod` checkpoint_interval = 0 →
  ∃ l', truncate clear_elem l nh = Ret l' ∧ ok l' ∧ head_ l' = Z.max (head_ l) nh ∧
    ∀ s, is_ckpt l' s = true →
      ∃ x, fetch l' s = Ret x ∧
        if is_ckpt l s then fetch l s = Ret x else cleared clear_elem x.
Proof.
  intros Hl Hn Hm. by apply (wl_truncate_fetch clear_elem (H0 := window_log_laws clear_elem)).
Qed.

Lemma ckpt_log_truncate_window_witness :
  let c := default_config 1 0 in
  let l := mkCkptLog 128 1 [20; 21; 22] in
  ∃ l', truncate (λ _, 0) l 256 = Ret l' ∧ ok l' ∧ head_ l' = Z.max 128 256 ∧
    ∀ s, is_ckpt l' s = true →
      ∃ x, fetch l' s = Ret x ∧ if is_ckpt l s then fetch l s = Ret x else cleared (λ _, 0) x.
Proof.
  intros c l. apply (ckpt_log_truncate_window default_config_ok (λ _, 0) l 256).
  - split_and!; vm_compute; intuition congruence.
  - vm_compute. reflexivity.
  - vm_compute. reflexivity.
Defined.
End CheckpointLog.
