(* ===== verification/Regions.v ===== *)
(** * Regions: the static message stores of the TinyBFT build

    With [STATIC_LOG_ALLOCATOR] the messages of the agreement and checkpoint
    certificates live in static arrays: Module [Agreement] is
    src/src/agreement_region.cc and Module [CkptRegion] src/src/checkpoint_region.cc.
    Each store keeps the window of sequence numbers it covers ([head]) and the
    array index of its first slice ([head_index]).  The messages are parameters
    with the accessors that the stores use. *)
From S2P Require Import Prelude Node.

(** ** agreement_region.cc *)
Module Agreement.
Section agreement.
Context `{Config} {PP P C : Type}.
Context (pp_seqno pp_size : PP → Z) (p_seqno : P → Z) (c_seqno : C → Z).
Context (Max_message_size : Z).

(** Message.h: [constexpr int F = MAX_NUM_REPLICAS / 3]. *)
Definition F : Z := Max_num_replicas `div` 3.

Record AgreementSlice := mkSlice {
  pre_prepare_block : PP;
  prepares_ : list P;
  commits_ : list C;
}.

Record region := mkRegion { slices : list AgreementSlice; head : Z; head_index : Z }.

(** The static initialisation, over slices with arbitrary contents. *)
Definition init (s : list AgreementSlice) : region := mkRegion s 1 0.

Definition max_seqno (r : region) : Z := head r + max_out - 1.

(** [size_t] arithmetic. *)
Definition cert_index (r : region) (n : Z) : Z := to_u64 (head_index r + (n - head r)) `mod` max_out.

Definition within_range (r : region) (seqno : Z) : bool :=
  (seqno >=? head r) && (seqno <=? max_seqno r).

Definition slice (r : region) (n : Z) : outcome AgreementSlice :=
  of_option Undefined (zget (slices r) (cert_index r n)).

Definition set_slice (r : region) (n : Z) (s : AgreementSlice) : region :=
  mkRegion (zset (slices r) (cert_index r n) s) (head r) (head_index r).

Definition load_pre_prepare (r : region) (n : Z) : outcome PP :=
  _ ← th_assert (within_range r n);
  s ← slice r n; Ret (pre_prepare_block s).

Definition store_pre_prepare (r : region) (pp : PP) : outcome region :=
  _ ← th_assert (within_range r (pp_seqno pp));
  _ ← th_assert (pp_size pp <=? Max_message_size);
  s ← slice r (pp_seqno pp);
  Ret (set_slice r (pp_seqno pp) (mkSlice pp (prepares_ s) (commits_ s))).

Definition load_prepare (r : region) (n i : Z) : outcome P :=
  _ ← th_assert (within_range r n);
  _ ← th_assert (i <? F + 1);
  s ← slice r n; of_option Undefined (zget (prepares_ s) i).

Definition store_prepare (r : region) (p : P) (i : Z) : outcome region :=
  _ ← th_assert (within_range r (p_seqno p));
  _ ← th_assert (i <? F + 1);
  s ← slice r (p_seqno p);
  Ret (set_slice r (p_seqno p) (mkSlice (pre_prepare_block s) (zset (prepares_ s) i p) (commits_ s))).

Definition load_commit (r : region) (n i : Z) : outcome C :=
  _ ← th_assert (within_range r n);
  _ ← th_assert (i <? F + 1);
  s ← slice r n; of_option Undefined (zget (commits_ s) i).

Definition store_commit (r : region) (c : C) (i : Z) : outcome region :=
  _ ← th_assert (within_range r (c_seqno c));
  _ ← th_assert (i <? F + 1);
  s ← slice r (c_seqno c);
  Ret (set_slice r (c_seqno c) (mkSlice (pre_prepare_block s) (prepares_ s) (zset (commits_ s) i c))).

Definition truncate (r : region) (new_head : Z) : region :=
  if new_head <=? head r then r
  else if negb (within_range r new_head) then mkRegion (slices r) new_head 0
  else mkRegion (slices r) new_head (new_head `mod` max_out).

(** *** Where the slice of a sequence number is *)
Definition ok (r : region) : Prop :=
  0 ≤ head r < 2 ^ 62 ∧ 0 ≤ head_index r < max_out ∧ zlen (slices r) = max_out.

(** The index [truncate] computes is that of a region in which sequence number [n]
    has the slice [n mod max_out]. *)
Definition aligned (r : region) : Prop := head_index r = head r `mod` max_out.

Context `{!ConfigOk}.

Lemma max_out_pos : 1 < max_out < 2 ^ 20.
Proof. pose proof config_interval. pose proof config_max_out. lia. Qed.

Lemma cert_index_spec r n : ok r → within_range r n = true →
  cert_index r n = (head_index r + (n - head r)) `mod` max_out.
Proof.
  intros (Hh & Hi & _) Hn. unfold within_range, max_seqno in Hn. zprop.
  pose proof max_out_pos. unfold cert_index, to_u64, wrapU. by rewrite (Z.mod_small _ (2 ^ 64)) by lia.
Qed.

Lemma cert_index_bound r n : ok r → 0 ≤ cert_index r n < max_out.
Proof. intros _. pose proof max_out_pos. apply Z.mod_pos_bound. lia. Qed.

Lemma cert_index_aligned r n : ok r → aligned r → within_range r n = true →
  cert_index r n = n `mod` max_out.
Proof.
  intros Hr Ha Hn. rewrite cert_index_spec, Ha by done.
  rewrite Zplus_mod_idemp_l. f_equal. lia.
Qed.

Lemma ok_truncate r nh : ok r → nh < 2 ^ 62 → ok (truncate r nh).
Proof.
  intros (Hh & Hi & Hl) Hn. pose proof max_out_pos. unfold truncate.
  destruct (nh <=? head r) eqn:E; [done|]. zprop.
  destruct (negb _); split_and!; cbn; try done; try lia.
  - apply Z.mod_pos_bound. lia.
  - apply Z.mod_pos_bound. lia.
Qed.

Lemma region_truncate_near r nh : head r < nh → within_range r nh = true →
  truncate r nh = mkRegion (slices r) nh (nh `mod` max_out).
Proof. intros Hn Hw. unfold truncate. rewrite Hw. by zbool. Qed.

(** Slices of different sequence numbers of the window are different. *)
Lemma cert_index_inj r n m : ok r → within_range r n = true → within_range r m = true →
  cert_index r n = cert_index r m → n = m.
Proof.
  intros Hr Hn Hm. rewrite !cert_index_spec by done. unfold within_range, max_seqno in *. zprop.
  pose proof max_out_pos as Hpos. intros He.
  pose proof (Z_div_mod_eq_full (head_index r + (n - head r)) max_out).
  pose proof (Z_div_mod_eq_full (head_index r + (m - head r)) max_out).
  assert ((head_index r + (n - head r)) `div` max_out = (head_index r + (m - head r)) `div` max_out); nia.
Qed.

Lemma load_pre_prepare_slot r n : within_range r n = true →
  load_pre_prepare r n = of_option Undefined (pre_prepare_block <$> zget (slices r) (cert_index r n)).
Proof. intros Hn. unfold load_pre_prepare, slice. rewrite Hn. cbn. by destruct (zget _ _). Qed.

Lemma store_load_pre_prepare r pp n : ok r → within_range r n = true →
  within_range r (pp_seqno pp) = true → pp_size pp ≤ Max_message_size →
  ∃ r', store_pre_prepare r pp = Ret r' ∧ ok r' ∧ head r' = head r ∧
    load_pre_prepare r' n = if decide (n = pp_seqno pp) then Ret pp else load_pre_prepare r n.
Proof.
  intros Hr Hn Hpp Hsz. pose proof Hr as (Hh & Hi & Hl).
  unfold store_pre_prepare. rewrite Hpp. zbool. cbn [th_assert mbind outcome_bind].
  pose proof (cert_index_bound r (pp_seqno pp) Hr) as Hb.
  destruct (zget_lookup (slices r) (cert_index r (pp_seqno pp))) as [s Hs]; [lia|].
  unfold slice. rewrite Hs. cbn [of_option mbind outcome_bind]. eexists. split; [done|].
  split; [split_and!; cbn; rewrite ?zlen_zset; lia|]. split; [done|].
  rewrite !load_pre_prepare_slot by done. cbn [set_slice slices].
  change (cert_index (set_slice _ _ _) n) with (cert_index r n). rewrite zget_zset.
  destruct (decide (n = pp_seqno pp)) as [->|Hne].
  - by rewrite decide_True by lia.
  - rewrite decide_False; [done|]. intros [He _]. apply Hne. by eapply cert_index_inj.
Qed.
End agreement.

(** Once the region is aligned, storing a pre-prepare and truncating to a
    sequence number of the window behave as a finite map: the message last stored
    for a number that is still in the window is the one loaded. *)
Theorem agreement_store_truncate_load `{Config} {PP P C} (Hc : ConfigOk) (pp_seqno pp_size : PP → Z)
    (Max_message_size : Z) (r : region (PP := PP) (P := P) (C := C)) (pp : PP) (nh n : Z) :
  ok r → aligned r → nh < 2 ^ 62 → nh ≤ max_seqno r →
  within_range r (pp_seqno pp) = true → pp_size pp ≤ Max_message_size →
  within_range r n = true → within_range (truncate r nh) n = true →
  ∃ r', store_pre_prepare pp_seqno pp_size Max_message_size r pp = Ret r' ∧
    aligned (truncate r' nh) ∧
    load_pre_prepare (truncate r' nh) n =
      if decide (n = pp_seqno pp) then Ret pp else load_pre_prepare r n.
Proof.
  intros Hr Ha Hnh Hmax Hpp Hsz Hn Hn'.
  destruct (store_load_pre_prepare pp_seqno pp_size Max_message_size r pp n)
    as (r' & Hs & Hr' & Hh & Hload); [done..|].
  exists r'. split; [done|].
  assert (head_index r' = head_index r) as Hidx.
  { unfold store_pre_prepare in Hs. invert_outcome. done. }
  assert (aligned r') as Ha' by (unfold aligned in *; congruence).
  assert (within_range r' n = true) as Hnr by (unfold within_range, max_seqno in *; by rewrite Hh).
  rewrite <- Hload. destruct (decide (nh ≤ head r')) as [Hle|Hlt].
  { unfold truncate. rewrite (proj2 (Z.leb_le _ _)) by done. done. }
  assert (within_range r' nh = true) as Hw.
  { unfold within_range, max_seqno in *. rewrite Hh in *. zprop. rewrite Z.geb_leb. by zbool. }
  rewrite region_truncate_near by (done || lia).
  set (t := mkRegion _ _ _).
  assert (within_range t n = true) as Hnt.
  { unfold t, within_range, max_seqno in *. cbn. rewrite Hh in *. rewrite region_truncate_near in Hn'; [done|lia|].
    unfold within_range, max_seqno. done. }
  split; [done|]. rewrite !load_pre_prepare_slot by done.
  rewrite (cert_index_aligned t n), (cert_index_aligned r' n); try done.
  unfold t. rewrite <- region_truncate_near by (done || lia). by apply ok_truncate.
Qed.

(** A configuration with a window of four numbers, to evaluate regions. *)
Definition small_config : Config := {|
  max_out := 4; checkpoint_interval := 2; Max_num_replicas := 4;
  max_faulty := 1; num_principals := 5; node_id := 0 |}.

Lemma small_config_ok : ConfigOk (H := small_config).
Proof. split; vm_compute; intuition congruence. Qed.

(** Messages are pairs of a sequence number and a content. *)
Definition sample_slice (n : Z) : AgreementSlice (PP := Z * Z) (P := Z) (C := Z) :=
  mkSlice (n, n) [] [].

Lemma agreement_store_truncate_load_witness :
  let c := small_config in
  let r := mkRegion (sample_slice <$> [8; 5; 6; 7]) 5 1 in
  ∃ r', store_pre_prepare fst snd 100 r (7, 70) = Ret r' ∧ aligned (truncate r' 6) ∧
    load_pre_prepare (truncate r' 6) 7 =
      if decide (7 = 7) then Ret (7, 70) else load_pre_prepare r 7.
Proof.
  intros c r. apply (agreement_store_truncate_load small_config_ok fst snd 100 r (7, 70) 6 7).
  - split_and!; vm_compute; intuition congruence.
  - vm_compute. reflexivity.
  - vm_compute. reflexivity.
  - vm_compute. congruence.
  - vm_compute. reflexivity.
  - vm_compute. congruence.
  - vm_compute. reflexivity.
  - vm_compute. reflexivity.
Defined.

(** The region starts with sequence number 1 in slice 0, but the first
    truncation inside the window moves every number to slice [n mod max_out]: from
    then on the region loads for [n] the pre-prepare that was stored for [n + 1]. *)
Theorem agreement_first_truncate_shifts `{Config} {PP P C} (Hc : ConfigOk)
    (r : region (PP := PP) (P := P) (C := C)) (nh n : Z) :
  ok r → head r = 1 → head_index r = 0 → 1 < nh ≤ n → n < max_out →
  load_pre_prepare (truncate r nh) n = load_pre_prepare r (n + 1).
Proof.
  intros Hr Hh Hi Hnh Hn. pose proof max_out_pos as Hpos.
  assert (∀ m, 1 ≤ m ≤ max_out → within_range r m = true) as Hin.
  { intros m Hm. unfold within_range, max_seqno. rewrite Hh, Z.geb_leb. by zbool. }
  rewrite region_truncate_near by (apply Hin || lia; lia).
  assert (ok (truncate r nh)) as Ht by (apply ok_truncate; [done|lia]).
  rewrite region_truncate_near in Ht by (apply Hin || lia; lia).
  rewrite !load_pre_prepare_slot; [|apply Hin; lia|].
  - rewrite (cert_index_aligned _ n Ht), cert_index_spec, Hh, Hi; [|done|apply Hin; lia|done|].
    + cbn. do 3 f_equal. f_equal. lia.
    + unfold within_range, max_seqno. cbn. rewrite Z.geb_leb. by zbool.
  - unfold within_range, max_seqno. cbn. rewrite Z.geb_leb. by zbool.
Qed.

Lemma agreement_first_truncate_shifts_witness :
  let c := small_config in
  let r := mkRegion (sample_slice <$> [1; 2; 3; 4]) 1 0 in
  load_pre_prepare (truncate r 3) 3 = load_pre_prepare r 4 ∧
  load_pre_prepare r 4 = Ret (4, 4).
Proof.
  intros c r. split; [|vm_compute; reflexivity].
  apply (agreement_first_truncate_shifts small_config_ok r 3 3).
  - split_and!; vm_compute; intuition congruence.
  - reflexivity.
  - reflexivity.
  - lia.
  - vm_compute. reflexivity.
Defined.
End Agreement.

(** ** checkpoint_region.cc *)
Module CkptRegion.
Section ckpt_region.
Context `{Config} {M : Type} (seqno size id : M → Z) (stable : M → bool).
Context (CHECKPOINT_SIZE : Z).

Definition NUM_CERTS : Z := max_out `div` checkpoint_interval + 1.

Record region := mkRegion {
  checkpoint_certs : list (list M);
  above_window_checkpoints : list M;
  head : Z;
  head_index : Z;
}.

Definition init (certs : list (list M)) (above : list M) : region := mkRegion certs above 0 0.

Definition max_seqno (r : region) : Z := head r + max_out.

Definition within_range (r : region) (s : Z) : bool := (s >=? head r) && (s <=? max_seqno r).

Definition certificate_index (r : region) (s : Z) : outcome Z :=
  _ ← th_assert (within_range r s);
  Ret (to_u64 (head_index r + Z.quot (s - head r) checkpoint_interval) `mod` NUM_CERTS).

Definition replica_index (replica_id : Z) : Z :=
  if replica_id <=? node_id then replica_id else replica_id - 1.

Definition load_checkpoint (r : region) (s i : Z) : outcome M :=
  _ ← th_assert (within_range r s);
  cert ← certificate_index r s;
  c ← of_option Undefined (zget (checkpoint_certs r) cert);
  of_option Undefined (zget c i).

Definition store_checkpoint (r : region) (m : M) (i : Z) : outcome region :=
  _ ← th_assert (within_range r (seqno m));
  _ ← th_assert (size m <=? CHECKPOINT_SIZE);
  cert_index ← certificate_index r (seqno m);
  c ← of_option Undefined (zget (checkpoint_certs r) cert_index);
  _ ← of_option Undefined (zget c i);
  Ret (mkRegion (zset (checkpoint_certs r) cert_index (zset c i m))
    (above_window_checkpoints r) (head r) (head_index r)).

Definition load_above_window (r : region) (replica_id : Z) : outcome M :=
  _ ← th_assert (negb (replica_id =? node_id) && (replica_id <? Max_num_replicas));
  of_option Undefined (zget (above_window_checkpoints r) (replica_index replica_id)).

Definition store_above_window (r : region) (m : M) : outcome region :=
  _ ← th_assert (id m >=? Max_num_replicas);
  _ ← th_assert ((seqno m >? max_seqno r) || stable m);
  let i := replica_index (id m) in
  _ ← of_option Undefined (zget (above_window_checkpoints r) i);
  Ret (mkRegion (checkpoint_certs r) (zset (above_window_checkpoints r) i m) (head r) (head_index r)).

Definition truncate (r : region) (new_head : Z) : outcome region :=
  if new_head <=? head_index r then Ret r
  else
    _ ← th_assert (Z.rem new_head checkpoint_interval =? 0);
    if negb (within_range r new_head)
    then Ret (mkRegion (checkpoint_certs r) (above_window_checkpoints r) new_head 0)
    else
      i ← certificate_index r new_head;
      Ret (mkRegion (checkpoint_certs r) (above_window_checkpoints r) new_head i).

Definition ok (r : region) : Prop :=
  0 ≤ head r < 2 ^ 62 ∧ head r `mod` checkpoint_interval = 0 ∧ 0 ≤ head_index r < NUM_CERTS ∧
  zlen (checkpoint_certs r) = NUM_CERTS ∧
  zlen (above_window_checkpoints r) = Max_num_replicas - 1.

(** Checkpoint number [j] of the window. *)
Definition number (r : region) (j : Z) : Z := head r + j * checkpoint_interval.

Context `{!ConfigOk}.

Lemma num_certs_bounds : 2 ≤ NUM_CERTS < 2 ^ 21 ∧ checkpoint_interval * (NUM_CERTS - 1) ≤ max_out ∧
  max_out < checkpoint_interval * NUM_CERTS.
Proof.
  pose proof config_interval as Hc. pose proof config_max_out. unfold NUM_CERTS.
  pose proof (Z_div_mod_eq_full max_out checkpoint_interval).
  pose proof (Z.mod_pos_bound max_out checkpoint_interval (proj1 Hc)).
  assert (1 ≤ max_out `div` checkpoint_interval) by (apply Z.div_le_lower_bound; lia).
  assert (max_out `div` checkpoint_interval ≤ max_out) by (apply Z.div_le_upper_bound; nia).
  nia.
Qed.

Lemma number_in_window r j : within_range r (number r j) = true ↔ 0 ≤ j < NUM_CERTS.
Proof.
  pose proof config_interval. pose proof num_certs_bounds as (_ & Hlo & Hhi).
  unfold within_range, max_seqno, number. rewrite Z.geb_leb, andb_true_iff, !Z.leb_le.
  split; intros Hj; nia.
Qed.

Lemma certificate_index_number r j : ok r → 0 ≤ j < NUM_CERTS →
  certificate_index r (number r j) = Ret ((head_index r + j) `mod` NUM_CERTS).
Proof.
  intros (Hh & _ & Hi & _) Hj. pose proof config_interval. pose proof num_certs_bounds as (Hn & _).
  unfold certificate_index. rewrite (proj2 (number_in_window r j) Hj). cbn. do 2 f_equal.
  unfold number. replace (_ - head r) with (j * checkpoint_interval) by lia.
  rewrite Z.quot_mul by lia. apply Z.mod_small. lia.
Qed.

Lemma load_checkpoint_number r j i : ok r → 0 ≤ j < NUM_CERTS →
  load_checkpoint r (number r j) i =
    (c ← of_option Undefined (zget (checkpoint_certs r) ((head_index r + j) `mod` NUM_CERTS));
     of_option Undefined (zget c i)).
Proof.
  intros Hr Hj. unfold load_checkpoint.
  by rewrite (proj2 (number_in_window r j) Hj), certificate_index_number.
Qed.

Lemma truncate_number r m : ok r → 0 < m < NUM_CERTS → number r m < 2 ^ 62 → head_index r < number r m →
  ∃ r', truncate r (number r m) = Ret r' ∧ ok r' ∧ head r' = number r m ∧
    head_index r' = (head_index r + m) `mod` NUM_CERTS ∧ checkpoint_certs r' = checkpoint_certs r.
Proof.
  intros Hr Hm Hn Hlt. pose proof Hr as (Hh & Ha & Hi & Hl & Hab).
  pose proof config_interval. pose proof num_certs_bounds as (Hnc & _).
  assert (number r m `mod` checkpoint_interval = 0) as Hal by (unfold number; by rewrite Z_mod_plus_full).
  assert (0 ≤ number r m) by (unfold number; nia).
  unfold truncate. rewrite (proj2 (number_in_window r m)), Z.rem_mod_nonneg, Hal, certificate_index_number
    by (done || lia).
  zbool. cbn. eexists. split; [done|].
  assert (0 ≤ (head_index r + m) `mod` NUM_CERTS < NUM_CERTS) by (apply Z.mod_pos_bound; lia).
  split; [by split_and!; cbn; lia|done].
Qed.
End ckpt_region.

(** Truncating the checkpoint region to a later checkpoint of the window keeps
    every message of the checkpoints that stay in the window. *)
Theorem ckpt_region_truncate_load `{Config} {M} (Hc : ConfigOk) (r : region (M := M)) (m j i : Z) :
  ok r → 0 < m < NUM_CERTS → number r m < 2 ^ 62 → head_index r < number r m → m ≤ j < NUM_CERTS →
  ∃ r', truncate r (number r m) = Ret r' ∧ ok r' ∧ head r' = number r m ∧
    load_checkpoint r' (number r j) i = load_checkpoint r (number r j) i.
Proof.
  intros Hr Hm Hn Hlt Hj. destruct (truncate_number r m Hr Hm Hn Hlt) as (r' & Ht & Hr' & Hh & Hi & Hcs).
  exists r'. do 3 (split; [done|]).
  assert (number r j = number r' (j - m)) as Hnj by (unfold number in *; rewrite Hh; lia).
  rewrite (load_checkpoint_number r j) by (done || lia).
  rewrite Hnj, (load_checkpoint_number r' (j - m)) by (done || lia).
  rewrite Hi, Hcs, Zplus_mod_idemp_l.
  by replace (head_index r + m + (j - m)) with (head_index r + j) by lia.
Qed.

Lemma ckpt_region_truncate_load_witness :
  let c := Agreement.small_config in
  let r := mkRegion [[1]; [2]; [3]] [0; 0; 0] 4 1 in
  ∃ r', truncate r 6 = Ret r' ∧ ok r' ∧ head r' = 6 ∧ load_checkpoint r' 8 0 = load_checkpoint r 8 0.
Proof.
  intros c r. apply (ckpt_region_truncate_load Agreement.small_config_ok r 1 2 0).
  - split_and!; vm_compute; intuition congruence.
  - vm_compute. split; reflexivity.
  - vm_compute. reflexivity.
  - vm_compute. reflexivity.
  - vm_compute. split; [congruence|reflexivity].
Defined.

(** A checkpoint message of a replica cannot be stored above the window: the
    assertion on the identifier fails for every valid one, whatever the message. *)
Theorem ckpt_region_store_above_window_aborts `{Config} {M} (seqno id : M → Z) (stable : M → bool)
    (Hc : ConfigOk) (r : region) (m : M) :
  is_replica (id m) = true → store_above_window seqno id stable r m = Err AssertFail.
Proof.
  intros Hid%is_replica_spec. pose proof config_replicas. unfold store_above_window.
  rewrite Z.geb_leb, (proj2 (Z.leb_gt _ _)); [done|]. eapply Z.lt_le_trans; [apply Hid|done].
Qed.

Lemma ckpt_region_store_above_window_aborts_witness :
  is_replica (H := Agreement.small_config) 2 = true ∧
  store_above_window (H := Agreement.small_config) fst snd (λ _, true)
    (mkRegion [] [(0, 0); (0, 0); (0, 0)] 0 0) (100, 2) = Err AssertFail.
Proof.
  split; [reflexivity|].
  apply (ckpt_region_store_above_window_aborts (H := Agreement.small_config) fst snd (λ _, true)
    Agreement.small_config_ok (mkRegion [] [(0, 0); (0, 0); (0, 0)] 0 0) (100, 2)).
  reflexivity.
Defined.
End CkptRegion.
