(* ===== verification/Certificate.v ===== *)
(** * Certificate: collecting matching messages from distinct replicas
    (src/src/Certificate.h, src/src/Certificate.t)

    The template is modelled over a type of messages [T] with the methods it
    requires ([CertMsg]); [verify] depends on the session keys of the node and is
    a parameter.  The pointer [c] into [vals] is an index; the pointer [mym] is
    the message itself, which is the one [vals] holds at [c].  The model is that of
    the default build, without STATIC_LOG_ALLOCATOR: a deleted message is dropped. *)
From stdpp Require Import gmap.
From S2P Require Import Prelude Node Bitmap.

(** ** The interface of certified messages *)
Class CertMsg (T : Type) := {
  msg_id : T → Z;
  msg_match : T → T → outcome bool;   (* [a->match(b)], which may assert *)
  msg_full : T → bool;
}.

(** What a message votes for.  Matching messages vote for the same value; [match]
    itself need be neither symmetric nor transitive (that of [Reply] is not). *)
Class CertVal (T V : Type) `{CertMsg T} := {
  msg_val : T → V;
  match_val a b : msg_match a b = Ret true → msg_val a = msg_val b;
}.

Module Cert.
Section certificate.
Context `{Config} {T : Type} `{CertMsg T} `{EqDecision T}.
Context (verify : T → bool).

Record Message_val := mkVal { m : option T; count : Z }.

Definition null_val : Message_val := mkVal None 0.

Record Certificate := mkCert {
  bmap : BM.Bitmap;              (* replicas whose message is in this *)
  vals : list Message_val;    (* the distinct message values *)
  max_size : Z;
  cur_size : Z;
  correct : Z;
  c : option Z;               (* index of the correct value *)
  complete : Z;
  mym : option T;             (* my message *)
  t_sent : Z;
}.

(** The constructor: [complete] is [2f+1] unless it is given. *)
Definition make (comp : Z) : Certificate :=
  mkCert (BM.make Max_num_replicas false)
    (replicate (Z.to_nat (max_faulty + 1)) null_val) (max_faulty + 1) 0 (max_faulty + 1)
    None (if comp =? 0 then max_faulty * 2 + 1 else comp) None 0.

Definition with_bmap (x : Certificate) (b : BM.Bitmap) : Certificate :=
  mkCert b (vals x) (max_size x) (cur_size x) (correct x) (c x) (complete x) (mym x) (t_sent x).

(** The fields that the voting code changes. *)
Definition with_vals (x : Certificate) (v : list Message_val) (sz : Z) (i : option Z) : Certificate :=
  mkCert (bmap x) v (max_size x) sz (correct x) i (complete x) (mym x) (t_sent x).

Definition val_at (x : Certificate) (i : Z) : outcome Message_val :=
  of_option Undefined (zget (vals x) i).

Definition msg_of (v : Message_val) : outcome T := of_option Undefined (m v).

Definition mine (x : Certificate) : option T := mym x.

Definition cvalue (x : Certificate) : option T :=
  match c x with
  | Some i => match zget (vals x) i with Some v => m v | None => None end
  | None => None
  end.

Definition num_correct (x : Certificate) : Z :=
  match c x with
  | Some i => match zget (vals x) i with Some v => count v | None => 0 end
  | None => 0
  end.

Definition is_complete (x : Certificate) : bool := num_correct x >=? complete x.

Definition make_complete (x : Certificate) : Certificate :=
  match c x with
  | Some i =>
      match zget (vals x) i with
      | Some v => with_vals x (zset (vals x) i (mkVal (m v) (complete x))) (cur_size x) (c x)
      | None => x
      end
  | None => x
  end.

Definition is_empty (x : Certificate) : bool := BM.all_zero (bmap x).

(** [for (i = from; i < to; i++) vals[i].clear()] *)
Definition clear_vals (v : list Message_val) (from to : Z) : list Message_val :=
  foldl (λ v i, zset v i null_val) v (seqZ from (to - from)).

Definition clear (x : Certificate) : Certificate :=
  mkCert (BM.clear (bmap x)) (clear_vals (vals x) 0 (cur_size x)) (max_size x) 0 (correct x)
    None (complete x) None 0.

(** The search for a value that matches [mg]. *)
Fixpoint find_match (v : list Message_val) (i : Z) (n : nat) (mg : T) : outcome (option Z) :=
  match n with
  | O => Ret None
  | S n =>
      val ← of_option Undefined (zget v i);
      vm ← msg_of val;
      b ← msg_match vm mg;
      if b : bool then Ret (Some i) else find_match v (i + 1) n mg
  end.

(** [if (!val.m->full() && m->full()) val.m = m] *)
Definition keep_full (old new : T) : T := if negb (msg_full old) && msg_full new then new else old.

(** The part of [add] behind the authentication of a fresh vote. *)
Definition count_vote (x : Certificate) (mg : T) : outcome (bool * Certificate) :=
  match c x with
  | Some i =>
      val ← val_at x i; cm ← msg_of val;
      Ret (true, with_vals x (zset (vals x) i (mkVal (Some (keep_full cm mg)) (count val + 1)))
                   (cur_size x) (c x))
  | None =>
      r ← find_match (vals x) 0 (Z.to_nat (cur_size x)) mg;
      match r with
      | Some i =>
          val ← val_at x i; vm ← msg_of val;
          Ret (true, with_vals x (zset (vals x) i (mkVal (Some (keep_full vm mg)) (count val + 1)))
                       (cur_size x) (if count val + 1 >=? correct x then Some i else None))
      | None =>
          if cur_size x <? max_size x then
            _ ← val_at x (cur_size x);
            Ret (true, with_vals x (zset (vals x) (cur_size x) (mkVal (Some mg) 1)) (cur_size x + 1) None)
          else Ret (false, clear x)
      end
  end.

(** [c == nullptr || (c->count < complete && c->m->match(m))] *)
Definition accepts_value (x : Certificate) (mg : T) : outcome bool :=
  match c x with
  | None => Ret true
  | Some i =>
      val ← val_at x i;
      if count val <? complete x then cm ← msg_of val; msg_match cm mg else Ret false
  end.

Definition add (x : Certificate) (mg : T) : outcome (bool * Certificate) :=
  let id := msg_id mg in
  if is_replica id then
    t ← BM.test (bmap x) id;
    if t : bool then Ret (false, x)
    else
      a ← accepts_value x mg;
      if a && verify mg then
        _ ← th_assert (negb (id =? node_id));
        b ← BM.set (bmap x) id;
        count_vote (with_bmap x b) mg
      else if verify mg then
        b ← BM.set (bmap x) id; Ret (false, with_bmap x b)
      else Ret (false, x)
  else Ret (false, x).

(** The value my message is counted for: the correct one, one that matches, or
    the first slot with its count restarted. *)
Definition my_value (x : Certificate) (mg : T) : outcome (Z * list Message_val) :=
  match c x with
  | Some i => Ret (i, vals x)
  | None =>
      r ← find_match (vals x) 0 (Z.to_nat (cur_size x)) mg;
      match r with
      | Some i => Ret (i, vals x)
      | None =>
          v ← val_at x 0; Ret (0, zset (vals x) 0 (mkVal (m v) 0))
      end
  end.

Definition add_mine (x : Certificate) (mg : T) (now : Z) : outcome (bool * Certificate) :=
  _ ← th_assert (msg_id mg =? node_id);
  _ ← th_assert (msg_full mg);
  ok ← match c x with
       | Some i => val ← val_at x i; cm ← msg_of val; msg_match cm mg
       | None => Ret true
       end;
  if ok : bool then
    '(i, v) ← my_value x mg;
    val ← of_option Undefined (zget v i);
    sz ← (if decide (m val = None) then _ ← th_assert (cur_size x =? 0); Ret 1 else Ret (cur_size x));
    Ret (true, mkCert (bmap x) (zset v i (mkVal (Some mg) (count val + 1))) (max_size x) sz (correct x)
                 (Some i) (complete x) (Some mg) now)
  else Ret (false, x).

(** The message of this node was changed in place and sent again at [t]: the certificate
    holds it as [mym] and as its value. *)
Definition resend (x : Certificate) (mg : T) (t : Z) : Certificate :=
  let v := match c x with
    | Some i => match zget (vals x) i with
                | Some val => zset (vals x) i (mkVal (Some mg) (count val))
                | None => vals x
                end
    | None => vals x
    end in
  mkCert (bmap x) v (max_size x) (cur_size x) (correct x) (c x) (complete x) (Some mg) t.

Definition mark_stale (x : Certificate) : outcome Certificate :=
  if is_complete x then Ret x
  else
    match mym x with
    | Some mg =>
        i ← of_option Undefined (c x);
        val ← val_at x i;
        _ ← th_assert (bool_decide (m val = Some mg));
        let v := zset (zset (vals x) i null_val) 0 (mkVal (Some mg) 1) in
        Ret (mkCert (BM.clear (bmap x)) (clear_vals v 1 (cur_size x)) (max_size x) 1 (correct x)
               (Some 0) (complete x) (mym x) (t_sent x))
    | None =>
        Ret (mkCert (BM.clear (bmap x)) (clear_vals (vals x) 0 (cur_size x)) (max_size x) 0 (correct x)
               None (complete x) (mym x) (t_sent x))
    end.

Definition cvalue_clear (x : Certificate) : option T * Certificate :=
  match c x with
  | None => (None, x)
  | Some i => (cvalue x, clear x)
  end.

(** [Val_iter]: the values and their counts, in order. *)
Definition val_iter_get (x : Certificate) (next : Z) : option (option T * Z) * Z :=
  if next <? cur_size x then
    match zget (vals x) next with
    | Some v => (Some (m v, count v), next + 1)
    | None => (None, next)
    end
  else (None, next).

(** ** The invariant

    [hs] is the list of the messages offered so far.  A slot of [vals] is backed by a
    set of replicas at least as large as its count, each of which sent a message
    that was authenticated (or is the node's own) and matches the slot's value. *)
Context {V : Type} `{!CertVal T V}.

Definition voted (hs : list T) (q : Z) (mg : T) : Prop :=
  ∃ m', m' ∈ hs ∧ msg_id m' = q ∧ msg_val m' = msg_val mg ∧
    ((is_replica q = true ∧ verify m' = true) ∨ q = node_id).

Definition slot_ok (hs : list T) (S : gset Z) (v : Message_val) : Prop :=
  ∃ mg, m v = Some mg ∧ count v ≤ Z.of_nat (size S) ∧ ∀ q, q ∈ S → voted hs q mg.

(** A supporter's vote is in the bitmap, or is the node's own and for [c]. *)
Definition recorded (x : Certificate) (i q : Z) : Prop :=
  (BM.bit (bmap x) q = true ∧ q ≠ node_id) ∨ (q = node_id ∧ c x = Some i ∧ mym x ≠ None).

Record cert_ok (hs : list T) (x : Certificate) (S : Z → gset Z) : Prop := mkCertOk {
  ok_wf : BM.wf (bmap x);
  ok_num : BM.num (bmap x) = Max_num_replicas;
  ok_max : max_size x = max_faulty + 1 ∧ correct x = max_faulty + 1 ∧ zlen (vals x) = max_faulty + 1;
  ok_cur : 0 ≤ cur_size x ≤ max_size x;
  ok_slots i : 0 ≤ i < cur_size x → ∃ v, zget (vals x) i = Some v ∧ slot_ok hs (S i) v;
  ok_rest i : cur_size x ≤ i < max_size x → zget (vals x) i = Some null_val;
  ok_c i : c x = Some i → 0 ≤ i < cur_size x;
  ok_mine mg : mym x = Some mg →
    mg ∈ hs ∧ msg_id mg = node_id ∧ msg_full mg = true ∧
    ∃ i k, c x = Some i ∧ zget (vals x) i = Some (mkVal (Some mg) k);
  ok_recorded i q : 0 ≤ i < cur_size x → q ∈ S i → recorded x i q;
}.

Definition upd (S : Z → gset Z) (i : Z) (s : gset Z) : Z → gset Z :=
  λ j, if decide (j = i) then s else S j.

Context `{!ConfigOk}.

Lemma voted_mono hs hs' q mg : (∀ x, x ∈ hs → x ∈ hs') → voted hs q mg → voted hs' q mg.
Proof. intros Hs (m' & ? & ?). exists m'. eauto. Qed.

Lemma voted_same hs q a b : voted hs q a → msg_val a = msg_val b → voted hs q b.
Proof. intros (m' & ? & ? & Hm & ?) Hab. exists m'. by rewrite <- Hab. Qed.

Lemma slot_ok_mono hs hs' S v : (∀ x, x ∈ hs → x ∈ hs') → slot_ok hs S v → slot_ok hs' S v.
Proof.
  intros Hs (mg & ? & ? & Hv). exists mg. split_and!; try done.
  intros q Hq. eapply voted_mono; eauto.
Qed.

Lemma cert_ok_mono hs hs' x S : (∀ y, y ∈ hs → y ∈ hs') → cert_ok hs x S → cert_ok hs' x S.
Proof.
  intros Hs [????????]. split; try done.
  - intros i Hi. destruct (ok_slots0 i Hi) as (v & ? & ?). exists v. split; [done|].
    by eapply slot_ok_mono.
  - intros mg Hm. destruct (ok_mine0 mg Hm) as (? & ?). split; [by apply Hs|done].
Qed.

(** One more vote for a slot. *)
Lemma slot_ok_vote hs S old new k id mg :
  slot_ok hs S (mkVal (Some old) k) → msg_match old mg = Ret true → (new = old ∨ new = mg) →
  mg ∈ hs → msg_id mg = id → ((is_replica id = true ∧ verify mg = true) ∨ id = node_id) →
  id ∉ S → slot_ok hs (S ∪ {[id]}) (mkVal (Some new) (k + 1)).
Proof.
  intros (old' & [= <-] & Hk & Hv) Hm Hnew Hin Hid Hauth Hnot. cbn in Hk.
  exists new. split; [done|]. split.
  { cbn. rewrite size_union, size_singleton by set_solver. lia. }
  intros q [Hq| ->%elem_of_singleton]%elem_of_union.
  - destruct Hnew as [->| ->]; [by apply Hv|].
    by eapply voted_same; [apply Hv|apply match_val].
  - exists mg. split_and!; try done. by destruct Hnew as [->| ->]; [symmetry; apply match_val|].
Qed.

Lemma slot_ok_first hs mg id :
  mg ∈ hs → msg_id mg = id → ((is_replica id = true ∧ verify mg = true) ∨ id = node_id) →
  slot_ok hs {[id]} (mkVal (Some mg) 1).
Proof.
  intros Hin Hid Ha. exists mg. split; [done|]. split; [cbn; rewrite size_singleton; lia|].
  intros q ->%elem_of_singleton. by exists mg.
Qed.

(** *** Loops over [vals] *)
Lemma clear_vals_get v a b i :
  zget (clear_vals v a b) i = if decide (a ≤ i < b ∧ 0 ≤ i < zlen v) then Some null_val else zget v i.
Proof.
  unfold clear_vals. destruct (decide (a < b)) as [Hab|Hab]; cycle 1.
  { rewrite seqZ_nil by lia. rewrite decide_False by lia. done. }
  replace (b - a) with (Z.of_nat (Z.to_nat (b - a))) by lia.
  assert (b = a + Z.of_nat (Z.to_nat (b - a))) as Hb by lia.
  revert Hb. generalize (Z.to_nat (b - a)). intros n Hb. clear Hab. subst b.
  induction n as [|n IH]; [rewrite decide_False by lia; done|].
  rewrite seqZ_S, foldl_app. cbn. rewrite zget_zset.
  assert (∀ l, zlen (foldl (λ v i, zset v i null_val) v l) = zlen v) as ->.
  { intros l. induction l as [|j l IHl] using rev_ind; [done|]. by rewrite foldl_app; cbn; rewrite zlen_zset. }
  rewrite IH. repeat case_decide; try done; lia.
Qed.

Lemma clear_vals_len v a b : zlen (clear_vals v a b) = zlen v.
Proof.
  unfold clear_vals. generalize (seqZ a (b - a)). intros l.
  induction l as [|j l IHl] using rev_ind; [done|]. by rewrite foldl_app; cbn; rewrite zlen_zset.
Qed.

Lemma find_match_spec v i n mg r : find_match v i n mg = Ret r →
  match r with
  | Some j => i ≤ j < i + Z.of_nat n ∧
      ∃ k vm, zget v j = Some (mkVal (Some vm) k) ∧ msg_match vm mg = Ret true
  | None => True
  end.
Proof.
  revert i. induction n as [|n IH]; intros i Hf; cbn in Hf; [by invert_outcome|].
  apply outcome_bind_Ret in Hf as ([vm k] & Hv & Hf). apply of_option_Ret in Hv.
  unfold msg_of in Hf. cbn in Hf. destruct vm as [vm|]; [|done]. cbn in Hf.
  apply outcome_bind_Ret in Hf as ([] & Hm & Hf).
  - injection Hf as <-. split; [lia|]. by exists k, vm.
  - apply IH in Hf. destruct r as [j|]; [|done]. destruct Hf as [? ?]. split; [lia|done].
Qed.

(** *** Preservation *)
Lemma replica_in_bitmap q : is_replica q = true → 0 ≤ q < Max_num_replicas.
Proof.
  intros Hq%is_replica_spec. pose proof config_replicas as Hr.
  split; [apply Hq|]. eapply Z.lt_le_trans; [apply Hq|exact Hr].
Qed.

Lemma set_vote x id b :
  BM.wf (bmap x) → BM.num (bmap x) = Max_num_replicas → is_replica id = true →
  BM.set (bmap x) id = Ret b →
  BM.wf b ∧ BM.num b = Max_num_replicas ∧
  ∀ q, is_replica q = true → BM.bit b q = if decide (q = id) then true else BM.bit (bmap x) q.
Proof.
  intros Hwf Hn Hid%replica_in_bitmap Hs.
  rewrite BM.set_assign in Hs by (done || lia).
  destruct (BM.assign_spec (bmap x) id true Hwf ltac:(lia)) as (b' & Hb & Hwf' & Hn' & Hbit).
  rewrite Hb in Hs. injection Hs as ->. split_and!; [done|lia|].
  intros q Hq%replica_in_bitmap. apply Hbit. lia.
Qed.

Lemma set_defined x id :
  BM.wf (bmap x) → BM.num (bmap x) = Max_num_replicas → is_replica id = true →
  ∃ b, BM.set (bmap x) id = Ret b.
Proof.
  intros Hwf Hn Hid%replica_in_bitmap. rewrite BM.set_assign by (done || lia).
  destruct (BM.assign_spec (bmap x) id true Hwf ltac:(lia)) as (b & ? & _). by exists b.
Qed.

(** A supporter other than the node is a replica. *)
Lemma voted_replica hs q mg : voted hs q mg → q ≠ node_id → is_replica q = true.
Proof. by intros (m' & _ & _ & _ & [[? _]|?]). Qed.

Lemma slot_supporter hs x S i q : cert_ok hs x S → 0 ≤ i < cur_size x → q ∈ S i → q ≠ node_id →
  is_replica q = true ∧ BM.bit (bmap x) q = true.
Proof.
  intros Hok Hi Hq Hne. destruct (ok_slots _ _ _ Hok i Hi) as (v & _ & mg & _ & _ & Hv).
  split; [by eapply voted_replica; [apply Hv|]|].
  destruct (ok_recorded _ _ _ Hok i q Hi Hq) as [[? _]|[? _]]; done.
Qed.

Lemma keep_full_cases old new : keep_full old new = old ∨ keep_full old new = new.
Proof. unfold keep_full. destruct (_ && _); auto. Qed.

Lemma keep_full_mine old new : msg_full old = true → keep_full old new = old.
Proof. intros Hf. unfold keep_full. by rewrite Hf. Qed.

Lemma vote_slot hs x S mg b i k old ci :
  cert_ok hs x S → mg ∈ hs → is_replica (msg_id mg) = true → verify mg = true → msg_id mg ≠ node_id →
  BM.bit (bmap x) (msg_id mg) = false → BM.set (bmap x) (msg_id mg) = Ret b →
  0 ≤ i < cur_size x → zget (vals x) i = Some (mkVal (Some old) k) → msg_match old mg = Ret true →
  (∀ j, c x = Some j → ci = Some j) → (∀ j, ci = Some j → 0 ≤ j < cur_size x) →
  cert_ok hs
    (with_vals (with_bmap x b) (zset (vals x) i (mkVal (Some (keep_full old mg)) (k + 1))) (cur_size x) ci)
    (upd S i (S i ∪ {[msg_id mg]})).
Proof.
  intros Hok Hin Hrep Hver Hne Hbit Hset Hi Hv Hm Hci Hcr.
  destruct (set_vote x _ b (ok_wf _ _ _ Hok) (ok_num _ _ _ Hok) Hrep Hset) as (Hwf & Hnum & Hbits).
  assert (msg_id mg ∉ S i) as Hnot.
  { intros Hq. destruct (slot_supporter _ _ _ _ _ Hok Hi Hq Hne) as [_ ?]. congruence. }
  pose proof (ok_cur _ _ _ Hok) as Hcur. pose proof (ok_max _ _ _ Hok) as (Hmax & Hcor & Hlen).
  split; cbn; try done.
  - by rewrite zlen_zset.
  - intros j Hj. rewrite zget_zset. case_decide as Hd.
    + destruct Hd as [<- _]. eexists. split; [done|]. unfold upd. rewrite decide_True by done.
      destruct (ok_slots _ _ _ Hok i Hi) as (v & Hv' & Hs). rewrite Hv in Hv'. injection Hv' as <-.
      eapply slot_ok_vote; eauto using keep_full_cases.
    + unfold upd. rewrite decide_False by (intros ->; apply Hd; lia). apply (ok_slots _ _ _ Hok j Hj).
  - intros j Hj. rewrite zget_zset_ne by lia. by apply (ok_rest _ _ _ Hok).
  - intros mg' Hmy. destruct (ok_mine _ _ _ Hok mg' Hmy) as (? & ? & Hf & i' & k' & Hc & Hv').
    split_and!; try done. rewrite (Hci _ Hc). destruct (decide (i = i')) as [<-|Hii].
    + rewrite Hv in Hv'. injection Hv' as -> ->. exists i, (k' + 1).
      rewrite keep_full_mine by done. split; [done|]. apply zget_zset_eq. lia.
    + exists i', k'. split; [done|]. by rewrite zget_zset_ne.
  - intros j q Hj Hq. unfold recorded. cbn. unfold upd in Hq.
    assert (q ∈ S j ∨ q = msg_id mg) as [Hq'|Hq'].
    { destruct (decide (j = i)) as [->|]; [|by left].
      apply elem_of_union in Hq as [?|?%elem_of_singleton]; auto. }
    + destruct (decide (q = node_id)) as [->|Hqn].
      * destruct (ok_recorded _ _ _ Hok j node_id Hj Hq') as [[_ ?]|(_ & Hc & ?)]; [done|].
        right. split; [done|]. split; [by apply Hci|done].
      * destruct (slot_supporter _ _ _ _ _ Hok Hj Hq' Hqn) as [Hr Hb]. left.
        rewrite Hbits by done. clear Hq. split; [by case_decide|done].
    + subst q. left. rewrite Hbits by done. split; [by rewrite decide_True|done].
Qed.

Lemma new_slot hs x S mg b :
  cert_ok hs x S → mg ∈ hs → is_replica (msg_id mg) = true → verify mg = true → msg_id mg ≠ node_id →
  BM.set (bmap x) (msg_id mg) = Ret b → c x = None → cur_size x < max_size x →
  cert_ok hs
    (with_vals (with_bmap x b) (zset (vals x) (cur_size x) (mkVal (Some mg) 1)) (cur_size x + 1) None)
    (upd S (cur_size x) {[msg_id mg]}).
Proof.
  intros Hok Hin Hrep Hver Hne Hset Hc Hroom.
  destruct (set_vote x _ b (ok_wf _ _ _ Hok) (ok_num _ _ _ Hok) Hrep Hset) as (Hwf & Hnum & Hbits).
  pose proof (ok_cur _ _ _ Hok) as Hcur. pose proof (ok_max _ _ _ Hok) as (Hmax & Hcor & Hlen).
  split; cbn; try done; try lia.
  - by rewrite zlen_zset.
  - intros j Hj. rewrite zget_zset. unfold upd. case_decide as Hd.
    + destruct Hd as [<- _]. eexists. split; [done|]. rewrite decide_True by done.
      apply slot_ok_first; auto.
    + rewrite decide_False by lia. apply (ok_slots _ _ _ Hok j). lia.
  - intros j Hj. rewrite zget_zset_ne by lia. apply (ok_rest _ _ _ Hok). lia.
  - intros mg' Hmy. destruct (ok_mine _ _ _ Hok mg' Hmy) as (_ & _ & _ & i' & k' & Hc' & _). congruence.
  - intros j q Hj Hq. unfold recorded, upd in *. cbn. case_decide as Hd.
    + apply elem_of_singleton in Hq as ->. left. rewrite Hbits by done. by rewrite decide_True.
    + assert (q ≠ node_id) as Hqn.
      { intros ->. destruct (ok_recorded _ _ _ Hok j node_id ltac:(lia) Hq) as [[_ ?]|(_ & ? & _)];
          [done|congruence]. }
      destruct (slot_supporter _ _ _ j q Hok ltac:(lia) Hq Hqn) as [Hr Hb]. left.
      rewrite Hbits by done. split; [by case_decide|done].
Qed.

Lemma clear_ok hs x S : cert_ok hs x S → cert_ok hs (clear x) (λ _, ∅).
Proof.
  intros Hok. pose proof (ok_cur _ _ _ Hok) as Hcur. pose proof (ok_max _ _ _ Hok) as (Hmax & Hcor & Hlen).
  split; cbn; try done; try lia.
  - apply BM.clear_wf. apply (ok_wf _ _ _ Hok).
  - apply (ok_num _ _ _ Hok).
  - by rewrite clear_vals_len.
  - intros i Hi. rewrite clear_vals_get. case_decide; [done|]. apply (ok_rest _ _ _ Hok). lia.
Qed.

(** A certificate in which only the bitmap has gained votes. *)
Lemma extra_vote_ok hs x S id b :
  cert_ok hs x S → is_replica id = true → BM.set (bmap x) id = Ret b → cert_ok hs (with_bmap x b) S.
Proof.
  intros Hok Hrep Hset.
  destruct (set_vote x _ b (ok_wf _ _ _ Hok) (ok_num _ _ _ Hok) Hrep Hset) as (Hwf & Hnum & Hbits).
  pose proof Hok as [????????]. split; cbn; try done.
  intros j q Hj Hq. unfold recorded. cbn.
  destruct (ok_recorded0 j q Hj Hq) as [[Hb Hne]|?]; [left|by right].
  destruct (slot_supporter _ _ _ _ _ Hok Hj Hq Hne) as [Hr _]. rewrite Hbits by done.
  split; [by case_decide|done].
Qed.

Lemma accepts_value_match x mg i : accepts_value x mg = Ret true → c x = Some i →
  ∃ k cm, zget (vals x) i = Some (mkVal (Some cm) k) ∧ k < complete x ∧ msg_match cm mg = Ret true.
Proof.
  unfold accepts_value, val_at, msg_of. intros Ha Hc. rewrite Hc in Ha.
  invert_outcome. destruct x0 as [cm k]; cbn in *.
  destruct (k <? complete x) eqn:Hk; [|done]. zprop. invert_outcome. subst. by exists k, x0.
Qed.

Lemma count_vote_ok hs x S mg b r x' :
  cert_ok hs x S → mg ∈ hs → is_replica (msg_id mg) = true → verify mg = true → msg_id mg ≠ node_id →
  BM.bit (bmap x) (msg_id mg) = false → BM.set (bmap x) (msg_id mg) = Ret b →
  accepts_value x mg = Ret true →
  count_vote (with_bmap x b) mg = Ret (r, x') → ∃ S', cert_ok hs x' S'.
Proof.
  intros Hok Hin Hrep Hver Hne Hbit Hset Hacc Hcv. pose proof (ok_max _ _ _ Hok) as (Hmax & Hcor & Hlen).
  unfold count_vote in Hcv. cbn in Hcv. destruct (c x) as [i|] eqn:Hc.
  - destruct (accepts_value_match x mg i Hacc Hc) as (k & cm & Hv & Hk & Hm).
    unfold val_at, msg_of in Hcv. cbn in Hcv. rewrite Hv in Hcv. cbn in Hcv. injection Hcv as <- <-.
    eexists. eapply (vote_slot hs x S mg b i k cm (Some i)); try done.
    + by apply (ok_c _ _ _ Hok).
    + by rewrite Hc.
    + intros j [= <-]. by apply (ok_c _ _ _ Hok).
  - apply outcome_bind_Ret in Hcv as (o & Hf & Hcv). apply find_match_spec in Hf.
    destruct o as [i|].
    + destruct Hf as (Hi & k & vm & Hv & Hm). pose proof (ok_cur _ _ _ Hok).
      unfold val_at, msg_of in Hcv. cbn in Hcv. rewrite Hv in Hcv. cbn in Hcv. injection Hcv as <- <-.
      eexists. eapply (vote_slot hs x S mg b i k vm); try done; [lia|by rewrite Hc|].
      intros j Hj. destruct (k + 1 >=? correct x); [injection Hj as <-; lia|done].
    + destruct (cur_size x <? max_size x) eqn:Hroom; zprop.
      * invert_outcome. subst. eexists. by eapply new_slot.
      * invert_outcome. subst. eexists. eapply clear_ok, extra_vote_ok; done.
Qed.

Lemma add_ok hs x S mg r x' : cert_ok hs x S → add x mg = Ret (r, x') → ∃ S', cert_ok (mg :: hs) x' S'.
Proof.
  intros Hok Ha. unfold add in Ha.
  assert (cert_ok (mg :: hs) x S) as Hok' by (eapply cert_ok_mono; [|done]; by right).
  destruct (is_replica (msg_id mg)) eqn:Hrep; [|injection Ha as <- <-; by exists S].
  rewrite BM.test_bit in Ha; [|apply (ok_wf _ _ _ Hok)|rewrite (ok_num _ _ _ Hok); by apply replica_in_bitmap].
  cbn in Ha. destruct (BM.bit (bmap x) (msg_id mg)) eqn:Hbit; [injection Ha as <- <-; by exists S|].
  apply outcome_bind_Ret in Ha as (acc & Hacc & Ha). destruct (verify mg) eqn:Hver.
  - destruct acc; cbn in Ha.
    + apply outcome_bind_Ret in Ha as ([] & Hne & Ha). apply th_assert_Ret, negb_true_iff, Z.eqb_neq in Hne.
      apply outcome_bind_Ret in Ha as (b & Hset & Ha).
      eapply (count_vote_ok (mg :: hs) x S mg b); try done. by left.
    + apply outcome_bind_Ret in Ha as (b & Hset & Ha). injection Ha as <- <-.
      exists S. by eapply extra_vote_ok.
  - rewrite andb_false_r in Ha. injection Ha as <- <-. by exists S.
Qed.

(** *** The node's own message *)
Lemma mine_slot hs x S mg now i v k sz :
  cert_ok hs x S → mg ∈ hs → msg_id mg = node_id → msg_full mg = true → mym x = None →
  zlen v = zlen (vals x) → 0 ≤ i < sz → cur_size x ≤ sz ≤ max_size x →
  (∀ j, j ≠ i → zget v j = zget (vals x) j) →
  (sz ≠ cur_size x → sz = 1 ∧ cur_size x = 0 ∧ i = 0) →
  (k = 0 ∨
    ∃ old, 0 ≤ i < cur_size x ∧ zget (vals x) i = Some (mkVal (Some old) k) ∧
      msg_match old mg = Ret true) →
  ∃ S', cert_ok hs
    (mkCert (bmap x) (zset v i (mkVal (Some mg) (k + 1))) (max_size x) sz (correct x)
       (Some i) (complete x) (Some mg) now) S'.
Proof.
  intros Hok Hin Hid Hfull Hmy Hvl Hi Hsz Hoth Hgrow Hcase.
  pose proof (ok_cur _ _ _ Hok) as Hcur. pose proof (ok_max _ _ _ Hok) as (Hmax & Hcor & Hlen).
  assert (∀ j, 0 ≤ j < cur_size x → node_id ∉ S j) as Hnot.
  { intros j Hj Hq. by destruct (ok_recorded _ _ _ Hok j node_id Hj Hq) as [[_ ?]|(_ & _ & ?)]. }
  assert (∃ Si, slot_ok hs Si (mkVal (Some mg) (k + 1)) ∧
    ∀ q, q ∈ Si → q = node_id ∨ (0 ≤ i < cur_size x ∧ q ∈ S i)) as (Si & HSi & Hsub).
  { destruct Hcase as [->|(old & Hir & Hv & Hm)].
    - exists {[node_id]}. split; [by apply slot_ok_first; auto|].
      intros q ->%elem_of_singleton. by left.
    - exists (S i ∪ {[node_id]}). split.
      + destruct (ok_slots _ _ _ Hok i Hir) as (v' & Hv' & Hs). rewrite Hv in Hv'. injection Hv' as <-.
        eapply (slot_ok_vote hs (S i) old mg k node_id mg); auto.
      + intros q [?| ->%elem_of_singleton]%elem_of_union; auto. }
  exists (upd S i Si). split; cbn; try done; try apply Hok.
  - rewrite zlen_zset. lia.
  - lia.
  - intros j Hj. unfold upd. destruct (decide (j = i)) as [->|Hne].
    + rewrite zget_zset_eq by lia. eexists; split; done.
    + rewrite zget_zset_ne, Hoth by done. apply (ok_slots _ _ _ Hok). lia.
  - intros j Hj. rewrite zget_zset_ne, Hoth by lia. apply (ok_rest _ _ _ Hok). lia.
  - intros j [= <-]. done.
  - intros mg' [= <-]. split_and!; try done. exists i, (k + 1). split; [done|].
    apply zget_zset_eq. lia.
  - intros j q Hj Hq. unfold recorded, upd in *. cbn. destruct (decide (j = i)) as [->|Hne].
    + destruct (Hsub q Hq) as [->|[Hir Hq']]; [by right|]. left.
      destruct (ok_recorded _ _ _ Hok i q Hir Hq') as [?|(_ & _ & ?)]; done.
    + left. assert (0 ≤ j < cur_size x) as Hj' by lia.
      destruct (ok_recorded _ _ _ Hok j q Hj' Hq) as [?|(_ & _ & ?)]; done.
Qed.

Lemma add_mine_ok hs x S mg now r x' :
  cert_ok hs x S → mym x = None → add_mine x mg now = Ret (r, x') → ∃ S', cert_ok (mg :: hs) x' S'.
Proof.
  intros Hok Hmy Ha. unfold add_mine in Ha.
  assert (cert_ok (mg :: hs) x S) as Hok' by (eapply cert_ok_mono; [|done]; by right).
  assert (mg ∈ mg :: hs) as Hin by (by left).
  apply outcome_bind_Ret in Ha as ([] & Hid & Ha). apply th_assert_Ret, Z.eqb_eq in Hid.
  apply outcome_bind_Ret in Ha as ([] & Hfull & Ha). apply th_assert_Ret in Hfull.
  apply outcome_bind_Ret in Ha as (acc & Hacc & Ha).
  destruct acc; [|injection Ha as <- <-; by exists S].
  apply outcome_bind_Ret in Ha as ([i v] & Hmv & Ha).
  apply outcome_bind_Ret in Ha as ([cm k] & Hv & Ha). apply of_option_Ret in Hv.
  apply outcome_bind_Ret in Ha as (sz & Hsz & Ha). injection Ha as <- <-. cbn in *.
  pose proof (ok_cur _ _ _ Hok) as Hcur. pose proof (ok_max _ _ _ Hok) as (Hmax & Hcor & Hlen).
  pose proof config_faulty.
  assert (∀ j old, 0 ≤ j < cur_size x → zget (vals x) j = Some (mkVal (Some old) k) → cm = Some old →
    i = j → v = vals x → msg_match old mg = Ret true →
    ∃ S', cert_ok (mg :: hs) (mkCert (bmap x) (zset v i (mkVal (Some mg) (k + 1))) (max_size x) sz (correct x)
       (Some i) (complete x) (Some mg) now) S') as Hmatched.
  { intros j old Hj Hvj -> -> -> Hm. rewrite decide_False in Hsz by done. injection Hsz as <-.
    eapply (mine_slot (mg :: hs) x S mg now j (vals x) k); try done; [lia|].
    right. by exists old. }
  unfold my_value in Hmv. destruct (c x) as [i'|] eqn:Hc.
  - injection Hmv as <- <-. unfold val_at, msg_of in Hacc. rewrite Hv in Hacc. cbn in Hacc.
    destruct cm as [old|]; [|done]. cbn in Hacc.
    eapply (Hmatched i' old); try done. by apply (ok_c _ _ _ Hok).
  - apply outcome_bind_Ret in Hmv as (o & Hf & Hmv). apply find_match_spec in Hf. destruct o as [i'|].
    + injection Hmv as <- <-. destruct Hf as (Hi & k' & old & Hv' & Hm).
      rewrite Hv in Hv'. injection Hv' as -> ->. eapply (Hmatched i' old); try done. lia.
    + apply outcome_bind_Ret in Hmv as (v0 & Hv0 & Hmv). apply of_option_Ret in Hv0. injection Hmv as <- <-.
      rewrite zget_zset_eq in Hv by (apply zget_Some_lt in Hv0; lia). injection Hv as <- <-.
      eapply (mine_slot (mg :: hs) x S mg now 0 _ 0); try done.
      * by rewrite zlen_zset.
      * case_decide; [invert_outcome; lia|]. injection Hsz as <-.
        destruct (decide (cur_size x = 0)) as [E|]; [|lia].
        assert (zget (vals x) 0 = Some null_val) as Hn by (apply (ok_rest _ _ _ Hok); lia).
        rewrite Hv0 in Hn. by injection Hn as ->.
      * case_decide; [invert_outcome; zprop; lia|]. injection Hsz as <-. lia.
      * intros j Hj. by rewrite zget_zset_ne.
      * case_decide; [invert_outcome; zprop; lia|]. injection Hsz as <-. done.
      * by left.
Qed.

Lemma mark_stale_ok hs x S x' : cert_ok hs x S → mark_stale x = Ret x' → ∃ S', cert_ok hs x' S'.
Proof.
  intros Hok Hst. unfold mark_stale in Hst.
  destruct (is_complete x); [injection Hst as <-; by exists S|].
  pose proof (ok_cur _ _ _ Hok) as Hcur. pose proof (ok_max _ _ _ Hok) as (Hmax & Hcor & Hlen).
  destruct (mym x) as [mg|] eqn:Hmy.
  - destruct (ok_mine _ _ _ Hok mg Hmy) as (Hin & Hid & Hf & i & k & Hc & Hv).
    pose proof (ok_c _ _ _ Hok i Hc) as Hi.
    rewrite Hc in Hst. unfold val_at in Hst. cbn in Hst. rewrite Hv in Hst. cbn in Hst.
    rewrite bool_decide_true in Hst by done. cbn in Hst. injection Hst as <-.
    exists (upd (λ _, ∅) 0 {[node_id]}). split; cbn; try done; try apply Hok.
    + apply BM.clear_wf, Hok.
    + by rewrite clear_vals_len, !zlen_zset.
    + lia.
    + intros j Hj. assert (j = 0) as -> by lia. rewrite clear_vals_get, decide_False by lia.
      rewrite zget_zset_eq by (rewrite zlen_zset; lia). eexists; split; [done|].
      unfold upd. rewrite decide_True by done. apply slot_ok_first; auto.
    + intros j Hj. rewrite clear_vals_get, !zlen_zset. case_decide; [done|].
      rewrite zget_zset_ne by lia. rewrite zget_zset. case_decide; [done|].
      apply (ok_rest _ _ _ Hok). lia.
    + intros j [= <-]. lia.
    + intros mg' Hmg'. injection Hmg' as <-. split_and!; try done.
      exists 0, 1. split; [done|]. rewrite clear_vals_get, decide_False by lia.
      apply zget_zset_eq. rewrite zlen_zset. lia.
    + intros j q Hj Hq. assert (j = 0) as -> by lia. unfold upd in Hq. rewrite decide_True in Hq by done.
      apply elem_of_singleton in Hq as ->. by right.
  - injection Hst as <-. exists (λ _, ∅).
    split; cbn; try done; try apply Hok; try lia.
    + apply BM.clear_wf, Hok.
    + by rewrite clear_vals_len.
    + intros j Hj. rewrite clear_vals_get. case_decide; [done|]. apply (ok_rest _ _ _ Hok). lia.
Qed.

Lemma make_ok comp : cert_ok [] (make comp) (λ _, ∅).
Proof.
  pose proof config_faulty as Hf. pose proof config_max_replicas as Hm. pose proof config_replicas as Hr.
  unfold num_replicas in Hr.
  destruct (BM.make_spec Max_num_replicas false) as (Hwf & Hn & _).
  { split; [|change (2 ^ 32 - 64) with 4294967232; change (2 ^ 15) with 32768 in Hm]; lia. }
  split; cbn; try done; try lia.
  - rewrite zlen_replicate. lia.
  - intros i Hi. apply zget_replicate. lia.
Qed.

(** ** Reachable certificates

    The operations a node performs on a certificate, with the messages offered so
    far; [make_complete] is left out, because it replaces votes by a decision taken
    elsewhere.  [add_mine] requires that the node has no message in it. *)
Inductive reaches (comp : Z) : list T → Certificate → Prop :=
| reach_new : reaches comp [] (make comp)
| reach_add hs x mg r x' : reaches comp hs x → add x mg = Ret (r, x') → reaches comp (mg :: hs) x'
| reach_mine hs x mg now r x' : reaches comp hs x → mine x = None → add_mine x mg now = Ret (r, x') →
    reaches comp (mg :: hs) x'
| reach_stale hs x x' : reaches comp hs x → mark_stale x = Ret x' → reaches comp hs x'
| reach_clear hs x : reaches comp hs x → reaches comp hs (clear x)
| reach_cvalue_clear hs x : reaches comp hs x → reaches comp hs (cvalue_clear x).2.

Lemma reaches_ok comp hs x : reaches comp hs x → ∃ S, cert_ok hs x S.
Proof.
  induction 1 as [|hs x mg r x' _ [S IH]|hs x mg now r x' _ [S IH]|hs x x' _ [S IH]|hs x _ [S IH]|hs x _ [S IH]].
  - eexists. apply make_ok.
  - by eapply add_ok.
  - by eapply add_mine_ok.
  - by eapply mark_stale_ok.
  - eexists. by apply clear_ok with S.
  - unfold cvalue_clear. destruct (c x); [eexists; by apply clear_ok with S|by exists S].
Qed.

(** *** The threshold never changes *)
Definition threshold_of (comp : Z) : Z := if comp =? 0 then max_faulty * 2 + 1 else comp.

Lemma count_vote_complete x mg r x' : count_vote x mg = Ret (r, x') → complete x' = complete x.
Proof.
  unfold count_vote. destruct (c x).
  - intros Hc. by invert_outcome.
  - intros Hc. apply outcome_bind_Ret in Hc as ([i|] & _ & Hc); [by invert_outcome|].
    destruct (_ <? _) in Hc; by invert_outcome.
Qed.

Lemma add_complete x mg r x' : add x mg = Ret (r, x') → complete x' = complete x.
Proof.
  unfold add. destruct (is_replica _); [|by intros [= _ <-]]. intros Ha.
  apply outcome_bind_Ret in Ha as ([] & _ & Ha); [by injection Ha as _ <-|].
  apply outcome_bind_Ret in Ha as (a & _ & Ha). destruct (a && verify mg).
  - apply outcome_bind_Ret in Ha as (u & _ & Ha). apply outcome_bind_Ret in Ha as (b & _ & Ha).
    by apply count_vote_complete in Ha.
  - destruct (verify mg); [by invert_outcome|by injection Ha as _ <-].
Qed.

Lemma add_mine_complete x mg now r x' : add_mine x mg now = Ret (r, x') → complete x' = complete x.
Proof.
  unfold add_mine. intros Ha. apply outcome_bind_Ret in Ha as (? & _ & Ha).
  apply outcome_bind_Ret in Ha as (? & _ & Ha). apply outcome_bind_Ret in Ha as ([] & _ & Ha).
  - apply outcome_bind_Ret in Ha as ([i v] & _ & Ha). by invert_outcome.
  - by injection Ha as _ <-.
Qed.

Lemma mark_stale_complete x x' : mark_stale x = Ret x' → complete x' = complete x.
Proof.
  unfold mark_stale. destruct (is_complete x); [by intros [= <-]|].
  destruct (mym x); intros Hs; by invert_outcome.
Qed.

Lemma reaches_complete comp hs x : reaches comp hs x → complete x = threshold_of comp.
Proof.
  induction 1 as [|hs x mg r x' _ IH Ha|hs x mg now r x' _ IH _ Ha|hs x x' _ IH Hs|hs x _ IH|hs x _ IH].
  - done.
  - by rewrite (add_complete _ _ _ _ Ha).
  - by rewrite (add_mine_complete _ _ _ _ _ Ha).
  - by rewrite (mark_stale_complete _ _ Hs).
  - done.
  - unfold cvalue_clear. by destruct (c x).
Qed.

(** The votes behind the correct value. *)
Lemma cvalue_backed hs x S : cert_ok hs x S → 0 < num_correct x →
  ∃ v (Q : gset Z), cvalue x = Some v ∧ num_correct x ≤ Z.of_nat (size Q) ∧
    ∀ q, q ∈ Q → voted hs q v.
Proof.
  intros Hok Hn. unfold num_correct, cvalue in *. destruct (c x) as [i|] eqn:Hc; [|done].
  destruct (ok_slots _ _ _ Hok i (ok_c _ _ _ Hok i Hc)) as ([vm k] & Hv & mg & Hm & Hk & Hvote).
  rewrite Hv in *. cbn in *. subst vm. by exists mg, (S i).
Qed.

(** *** Totality *)
Lemma find_match_total hs x S mg n : cert_ok hs x S →
  (∀ a, ∃ b, msg_match a mg = Ret b) →
  ∀ i, 0 ≤ i → i + Z.of_nat n ≤ cur_size x → ∃ o, find_match (vals x) i n mg = Ret o.
Proof.
  intros Hok Hm. induction n as [|n IH]; intros i Hi Hn; [by eexists|]. cbn.
  destruct (ok_slots _ _ _ Hok i ltac:(lia)) as ([vm k] & Hv & w & Hw & _). cbn in Hw. subst vm.
  rewrite Hv. cbn. destruct (Hm w) as [[] ->]; cbn; [by eexists|]. apply IH; lia.
Qed.

Lemma count_vote_total hs x S mg : cert_ok hs x S → (∀ a, ∃ b, msg_match a mg = Ret b) →
  ∃ r x', count_vote x mg = Ret (r, x').
Proof.
  intros Hok Hm. pose proof (ok_cur _ _ _ Hok). pose proof (ok_max _ _ _ Hok) as (Hmax & Hcor & Hlen).
  assert (∀ i, 0 ≤ i < cur_size x → ∃ k w, zget (vals x) i = Some (mkVal (Some w) k)) as Hslot.
  { intros i Hi. destruct (ok_slots _ _ _ Hok i Hi) as ([vm k] & Hv & w & Hw & _). cbn in Hw. subst vm.
    by exists k, w. }
  unfold count_vote, val_at. destruct (c x) as [i|] eqn:Hc.
  - destruct (Hslot i (ok_c _ _ _ Hok i Hc)) as (k & w & ->). cbn. by do 2 eexists.
  - destruct (find_match_total hs x S mg (Z.to_nat (cur_size x)) Hok Hm 0) as [o Ho]; [lia..|].
    rewrite Ho. cbn. apply find_match_spec in Ho. destruct o as [i|].
    + destruct Ho as (? & k & w & -> & _). cbn. by do 2 eexists.
    + destruct (cur_size x <? max_size x) eqn:Hroom; zprop; [|by do 2 eexists].
      destruct (zget_lookup (vals x) (cur_size x)) as [v ->]; [lia|]. cbn. by do 2 eexists.
Qed.

Lemma add_total hs x S mg : cert_ok hs x S → (∀ a, ∃ b, msg_match a mg = Ret b) →
  (verify mg = true → msg_id mg ≠ node_id) → ∃ r x', add x mg = Ret (r, x').
Proof.
  intros Hok Hm Hself. unfold add. destruct (is_replica (msg_id mg)) eqn:Hrep; [|by do 2 eexists].
  rewrite BM.test_bit;
    [|apply (ok_wf _ _ _ Hok)|rewrite (ok_num _ _ _ Hok); by apply replica_in_bitmap].
  cbn. destruct (BM.bit _ _); [by do 2 eexists|].
  assert (∃ a, accepts_value x mg = Ret a) as [a ->].
  { unfold accepts_value, val_at. destruct (c x) as [i|] eqn:Hc; [|by eexists].
    destruct (ok_slots _ _ _ Hok i (ok_c _ _ _ Hok i Hc)) as ([vm k] & -> & w & Hw & _). cbn in Hw. subst vm.
    cbn. destruct (k <? complete x); [apply Hm|by eexists]. }
  destruct (set_defined x (msg_id mg) (ok_wf _ _ _ Hok) (ok_num _ _ _ Hok) Hrep) as [b Hb].
  cbn. destruct (verify mg) eqn:Hver; rewrite ?andb_true_r, ?andb_false_r; [|by do 2 eexists].
  rewrite Hb. destruct a; [|by do 2 eexists].
  rewrite (proj2 (Z.eqb_neq _ _)) by auto. cbn.
  by eapply count_vote_total, Hm; eapply extra_vote_ok.
Qed.

(** *** Matching messages complete a certificate *)
Fixpoint add_all (x : Certificate) (l : list T) : outcome Certificate :=
  match l with
  | [] => Ret x
  | mg :: l => '(_, x') ← add x mg; add_all x' l
  end.

(** After [n] matching votes and nothing else. *)
Definition unanimous (hs : list T) (x : Certificate) (comp n : Z) (ids : list Z) (v : T) : Prop :=
  (∃ S, cert_ok hs x S) ∧ complete x = comp ∧ cur_size x = 1 ∧
  zget (vals x) 0 = Some (mkVal (Some v) n) ∧
  c x = (if n >=? correct x then Some 0 else None) ∧
  ∀ q, is_replica q = true → BM.bit (bmap x) q = bool_decide (q ∈ ids).

Definition fresh_vote (ids : list Z) (mg : T) : Prop :=
  is_replica (msg_id mg) = true ∧ verify mg = true ∧ msg_id mg ≠ node_id ∧ msg_id mg ∉ ids.

Lemma bit_after x id b ids : BM.wf (bmap x) → BM.num (bmap x) = Max_num_replicas →
  is_replica id = true → BM.set (bmap x) id = Ret b →
  (∀ q, is_replica q = true → BM.bit (bmap x) q = bool_decide (q ∈ ids)) →
  ∀ q, is_replica q = true → BM.bit b q = bool_decide (q ∈ id :: ids).
Proof.
  intros Hwf Hn Hrep Hset Hids q Hq. destruct (set_vote x id b Hwf Hn Hrep Hset) as (_ & _ & Hb).
  rewrite Hb, Hids by done. case_decide as E; symmetry.
  - apply bool_decide_eq_true. subst. by left.
  - apply bool_decide_ext. rewrite elem_of_cons. tauto.
Qed.

Lemma unanimous_first comp mg : 1 ≤ max_faulty → 1 ≤ comp → fresh_vote [] mg →
  ∃ x, add (make comp) mg = Ret (true, x) ∧ unanimous [mg] x comp 1 [msg_id mg] mg.
Proof.
  intros Hfaulty Hcomp (Hrep & Hver & Hne & _). pose proof (make_ok comp) as Hok. pose proof config_faulty.
  assert (∀ q, is_replica q = true → BM.bit (bmap (make comp)) q = bool_decide (q ∈ @nil Z)) as H0'.
  { intros q Hq%replica_in_bitmap. rewrite bool_decide_false by apply not_elem_of_nil.
    pose proof config_max_replicas as Hm. change (2 ^ 15) with 32768 in Hm.
    destruct (BM.make_spec Max_num_replicas false) as (_ & _ & Hz); [change (2 ^ 32 - 64) with 4294967232; lia|].
    by apply Hz. }
  destruct (set_defined (make comp) _ (ok_wf _ _ _ Hok) (ok_num _ _ _ Hok) Hrep) as [b Hb].
  assert (add (make comp) mg = Ret (true, with_vals (with_bmap (make comp) b)
     (zset (vals (make comp)) 0 (mkVal (Some mg) 1)) 1 None)) as Hadd.
  { unfold add. rewrite Hrep, BM.test_bit;
      [|apply (ok_wf _ _ _ Hok)|rewrite (ok_num _ _ _ Hok); by apply replica_in_bitmap].
    cbn [mbind outcome_bind]. rewrite H0' by done. rewrite bool_decide_false by apply not_elem_of_nil.
    cbn [accepts_value make c mbind outcome_bind]. rewrite Hver. cbn [andb].
    rewrite (proj2 (Z.eqb_neq _ _)) by done. cbn [negb th_assert mbind outcome_bind].
    change (bmap (mkCert _ _ _ _ _ _ _ _ _)) with (bmap (make comp)). rewrite Hb.
    cbn [mbind outcome_bind]. unfold count_vote, val_at. cbn. zbool.
    rewrite zget_replicate by lia. done. }
  eexists. split; [exact Hadd|]. split.
  { eapply add_ok; [apply make_ok|exact Hadd]. }
  cbn. rewrite zget_zset_eq by (rewrite zlen_replicate; lia).
  pose proof (ok_wf _ _ _ Hok) as Hwf. pose proof (ok_num _ _ _ Hok) as Hnum.
  split; [by zbool|]. split; [done|]. split; [done|].
  split; [rewrite Z.geb_leb; by zbool|]. by apply (bit_after (make comp)).
Qed.

Lemma unanimous_next hs x comp n ids v mg :
  1 ≤ n < comp → unanimous hs x comp n ids v → fresh_vote ids mg → msg_match v mg = Ret true →
  ∃ x' v', add x mg = Ret (true, x') ∧ unanimous (mg :: hs) x' comp (n + 1) (msg_id mg :: ids) v' ∧
    (v' = v ∨ v' = mg).
Proof.
  intros Hn ([S Hok] & Hcomp & Hcur & Hv & Hc & Hbits) (Hrep & Hver & Hne & Hfresh) Hm.
  pose proof (ok_wf _ _ _ Hok) as Hwf. pose proof (ok_num _ _ _ Hok) as Hnum.
  pose proof (ok_max _ _ _ Hok) as (Hmax & Hcor & Hlen). pose proof config_faulty.
  destruct (set_defined x _ Hwf Hnum Hrep) as [b Hb].
  set (x' := with_vals (with_bmap x b) (zset (vals x) 0 (mkVal (Some (keep_full v mg)) (n + 1))) 1
    (if n + 1 >=? correct x then Some 0 else None)).
  assert (add x mg = Ret (true, x')) as Hadd.
  { unfold add. rewrite Hrep, BM.test_bit by (done || rewrite Hnum; by apply replica_in_bitmap).
    cbn [mbind outcome_bind]. rewrite Hbits, bool_decide_false by done.
    assert (accepts_value x mg = Ret true) as ->.
    { unfold accepts_value, val_at. rewrite Hc. destruct (n >=? correct x); [|done].
      rewrite Hv. cbn. by zbool. }
    rewrite Hver. cbn [andb mbind outcome_bind]. rewrite (proj2 (Z.eqb_neq _ _)) by done.
    cbn [negb th_assert mbind outcome_bind]. rewrite Hb. cbn [mbind outcome_bind].
    unfold count_vote, val_at, x'. cbn. rewrite Hc, Hcur. destruct (n >=? correct x) eqn:Hge.
    - rewrite Hv. cbn. rewrite Z.geb_leb in *. zprop. by zbool.
    - change (Z.to_nat 1) with 1%nat. cbn. rewrite Hv. cbn. rewrite Hm. cbn. rewrite Hv. done. }
  exists x', (keep_full v mg). split; [done|]. split; [|apply keep_full_cases].
  split; [by eapply add_ok|]. cbn. split; [done|]. split; [done|].
  split; [apply zget_zset_eq; lia|]. split; [done|]. by apply (bit_after x).
Qed.

(** Votes in any order: pairwise matching, from distinct other replicas. *)
Definition votes (l : list T) : Prop :=
  NoDup (msg_id <$> l) ∧
  (∀ mg, mg ∈ l → is_replica (msg_id mg) = true ∧ verify mg = true ∧ msg_id mg ≠ node_id) ∧
  (∀ a b, a ∈ l → b ∈ l → msg_match a b = Ret true).

Lemma unanimous_all hs x comp n ids v l :
  1 ≤ n → n + zlen l ≤ comp → unanimous hs x comp n ids v → votes l →
  (∀ mg, mg ∈ l → (msg_id mg ∉ ids) ∧ msg_match v mg = Ret true) →
  ∃ x' hs' ids' v', add_all x l = Ret x' ∧ unanimous hs' x' comp (n + zlen l) ids' v' ∧ (v' = v ∨ v' ∈ l).
Proof.
  revert hs x n ids v. induction l as [|mg l IH]; intros hs x n ids v Hn Hlen Hu (Hnd & Hauth & Hmm) Hfresh.
  { exists x, hs, ids, v. rewrite Z.add_0_r. auto. }
  unfold zlen in Hlen. cbn [length] in Hlen.
  destruct (Hfresh mg ltac:(by left)) as [Hni Hm]. destruct (Hauth mg ltac:(by left)) as (? & ? & ?).
  destruct (unanimous_next hs x comp n ids v mg) as (x' & v' & Hadd & Hu' & Hv'); [lia|done|done|done|].
  cbn in Hnd. apply NoDup_cons in Hnd as [Hnot Hnd].
  destruct (IH (mg :: hs) x' (n + 1) (msg_id mg :: ids) v') as (x2 & hs2 & ids2 & v2 & Ha & Hu2 & Hv2);
    [lia|unfold zlen; lia|done| | |].
  - split_and!; [done| |]; intros; [apply Hauth|apply Hmm]; by right.
  - intros mg' Hin. split.
    + intros [Heq|Hin']%elem_of_cons; [|by apply (Hfresh mg'); [right|]].
      apply Hnot. rewrite <- Heq. by apply list_elem_of_fmap_2.
    + destruct Hv' as [->| ->]; [by apply Hfresh; right|apply Hmm; by (left + right)].
  - exists x2, hs2, ids2, v2. cbn. rewrite Hadd. cbn. split; [done|]. split.
    + unfold zlen in *. cbn [length]. by replace (n + Z.of_nat (S (length l)))
        with (n + 1 + Z.of_nat (length l)) by lia.
    + destruct Hv2 as [->|?]; [destruct Hv' as [->| ->]; [by left|right; by left]|right; by right].
Qed.

(** ** Properties *)

(** The quorum of a complete certificate. *)
Lemma complete_quorum comp hs x : reaches comp hs x → 0 < threshold_of comp → is_complete x = true →
  ∃ v (Q : gset Z), cvalue x = Some v ∧ threshold_of comp ≤ Z.of_nat (size Q) ∧
    ∀ q, q ∈ Q → voted hs q v.
Proof.
  intros Hr Ht Hc. unfold is_complete in Hc. rewrite Z.geb_leb, (reaches_complete comp hs x Hr) in Hc.
  apply Z.leb_le in Hc. destruct (reaches_ok comp hs x Hr) as [S Hok].
  destruct (cvalue_backed hs x S Hok) as (v & Q & Hv & Hsz & HQ); [lia|].
  exists v, Q. split_and!; try done. lia.
Qed.

(** C4: in every certificate a node can reach, the messages counted for the correct
    value come from at least [num_correct] distinct principals, each of which sent a
    message for the same value that was either authenticated as a replica's or
    is the node's own; so a complete certificate is backed by a quorum of the
    size it was created with, whatever was added, rejected, discarded or re-added. *)
Theorem certificate_quorum (comp : Z) (hs : list T) (x : Certificate) :
  reaches comp hs x → 0 < num_correct x →
  ∃ v (Q : gset Z), cvalue x = Some v ∧ num_correct x ≤ Z.of_nat (size Q) ∧
    (is_complete x = true → threshold_of comp ≤ Z.of_nat (size Q)) ∧
    ∀ q, q ∈ Q → ∃ mg, mg ∈ hs ∧ msg_id mg = q ∧ msg_val mg = msg_val v ∧
      ((is_replica q = true ∧ verify mg = true) ∨ q = node_id).
Proof.
  intros Hr Hn. destruct (reaches_ok comp hs x Hr) as [S Hok].
  destruct (cvalue_backed hs x S Hok Hn) as (v & Q & Hv & Hsz & HQ).
  exists v, Q. split_and!; try done. unfold is_complete. rewrite Z.geb_leb.
  rewrite (reaches_complete comp hs x Hr). intros ?%Z.leb_le. lia.
Qed.

(** [add] never fails on a reachable certificate: no stored pointer is null, no
    index leaves its array and no assertion fails, provided that matching is defined
    for the message and that the node rejects messages signed with its own name. *)
Theorem certificate_add_total (comp : Z) (hs : list T) (x : Certificate) (mg : T) :
  reaches comp hs x → (∀ a, ∃ b, msg_match a mg = Ret b) →
  (verify mg = true → msg_id mg ≠ node_id) → ∃ r x', add x mg = Ret (r, x').
Proof. intros [S Hok]%reaches_ok Hm Hself. by eapply add_total. Qed.

(** Matching authenticated messages of [comp] distinct other replicas complete a
    new certificate, in whichever order they arrive, and its value is one of them. *)
Theorem certificate_completes (comp : Z) (l : list T) :
  1 ≤ max_faulty → max_faulty + 1 ≤ comp → zlen l = comp → votes l →
  ∃ x v, add_all (make comp) l = Ret x ∧ is_complete x = true ∧ cvalue x = Some v ∧ v ∈ l.
Proof.
  intros Hf Hcomp Hlen Hvotes. pose proof Hvotes as (Hnd & Hauth & Hmm).
  destruct l as [|mg l]; [unfold zlen in Hlen; cbn in Hlen; lia|].
  destruct (Hauth mg ltac:(by left)) as (Hrep & Hver & Hne).
  destruct (unanimous_first comp mg) as (x & Hadd & Hu); [done|lia| |].
  { split_and!; try done. apply not_elem_of_nil. }
  cbn in Hnd. apply NoDup_cons in Hnd as [Hnot Hnd].
  destruct (unanimous_all [mg] x comp 1 [msg_id mg] mg l) as (x' & hs' & ids' & v & Ha & Hu' & Hv);
    [lia|unfold zlen in *; cbn in Hlen; lia|done| | |].
  - split_and!; [done| |]; intros; [apply Hauth|apply Hmm]; by right.
  - intros mg' Hin. split; [|apply Hmm; by (left + right)].
    intros Heq%list_elem_of_singleton. apply Hnot. rewrite <- Heq. by apply list_elem_of_fmap_2.
  - exists x', v. cbn. rewrite Hadd. cbn. split; [done|].
    destruct Hu' as ((S & Hok) & Hco & _ & Hv0 & Hc & _).
    pose proof (ok_max _ _ _ Hok) as (_ & Hcor & _).
    assert (1 + zlen l = comp) as Hn by (unfold zlen in *; cbn in Hlen; lia).
    rewrite Hn in *. rewrite Hcor in Hc. rewrite Z.geb_leb in Hc.
    rewrite (proj2 (Z.leb_le _ _)) in Hc by lia.
    unfold is_complete, num_correct, cvalue. rewrite Hc, Hv0, Hco. cbn. split; [rewrite Z.geb_leb; by zbool|].
    split; [done|]. destruct Hv as [->|?]; [by left|by right].
Qed.
End certificate.
Arguments Message_val : clear implicits.
Arguments Certificate : clear implicits.

(** *** Concrete inputs: messages are pairs of a sender and a value *)
#[export] Instance sample_msg : CertMsg (Z * Z) := {
  msg_id := fst;
  msg_match a b := Ret (bool_decide (a.2 = b.2));
  msg_full _ := true;
}.

Lemma sample_match_val (a b : Z * Z) : msg_match a b = Ret true → a.2 = b.2.
Proof. cbn. by intros [= ?%bool_decide_eq_true]. Qed.

#[export] Instance sample_val : CertVal (Z * Z) Z := { msg_val := snd; match_val := sample_match_val }.

Definition sample_verify (mg : Z * Z) : bool := negb (mg.1 =? 0).

(** Votes of replicas 1, 2 and 3 for the value 7. *)
Definition sample_votes : list (Z * Z) := [(2, 7); (1, 7); (3, 7)].

Definition sample_step (x : Certificate (Z * Z)) (mg : Z * Z) : Certificate (Z * Z) :=
  match add (H := default_config 1 0) sample_verify x mg with Ret (_, x') => x' | Err _ => x end.

Definition sample_cert : Certificate (Z * Z) :=
  foldl sample_step (make (H := default_config 1 0) 0) [(2, 7); (1, 9); (1, 7); (3, 7)].

Lemma sample_cert_reaches :
  reaches (H := default_config 1 0) sample_verify 0 [(3, 7); (1, 7); (1, 9); (2, 7)] sample_cert.
Proof.
  assert (∀ hs x mg, reaches (H := default_config 1 0) sample_verify 0 hs x →
    is_Some (match add (H := default_config 1 0) sample_verify x mg with Ret r => Some r | Err _ => None end) →
    reaches (H := default_config 1 0) sample_verify 0 (mg :: hs) (sample_step x mg)) as Hstep.
  { intros hs x mg Hr Hs. unfold sample_step. destruct (add _ x mg) as [[r x']|] eqn:E; [|by destruct Hs].
    by eapply reach_add. }
  unfold sample_cert. cbn [foldl].
  do 4 (apply Hstep; [|vm_compute; by eexists]). apply reach_new.
Qed.

Lemma certificate_quorum_witness :
  ∃ v (Q : gset Z), cvalue sample_cert = Some v ∧ num_correct sample_cert ≤ Z.of_nat (size Q) ∧
    (is_complete sample_cert = true → threshold_of (H := default_config 1 0) 0 ≤ Z.of_nat (size Q)) ∧
    ∀ q, q ∈ Q → ∃ mg, mg ∈ [(3, 7); (1, 7); (1, 9); (2, 7)] ∧ msg_id mg = q ∧
      msg_val mg = msg_val v ∧
      ((is_replica (H := default_config 1 0) q = true ∧ sample_verify mg = true) ∨
       q = node_id (Config := default_config 1 0)).
Proof.
  pose proof default_config_ok as Hc.
  apply (certificate_quorum (H := default_config 1 0) sample_verify 0
    [(3, 7); (1, 7); (1, 9); (2, 7)] sample_cert).
  - exact sample_cert_reaches.
  - vm_compute. reflexivity.
Defined.

Lemma certificate_add_total_witness :
  ∃ r x', add (H := default_config 1 0) sample_verify sample_cert (1, 8) = Ret (r, x').
Proof.
  pose proof default_config_ok as Hc.
  apply (certificate_add_total (H := default_config 1 0) sample_verify 0
    [(3, 7); (1, 7); (1, 9); (2, 7)] sample_cert (1, 8)).
  - exact sample_cert_reaches.
  - intros a. eexists. reflexivity.
  - cbn. discriminate.
Defined.

Lemma certificate_completes_witness :
  ∃ x v, add_all (H := default_config 1 0) sample_verify (make (H := default_config 1 0) 3) sample_votes = Ret x ∧
    is_complete x = true ∧ cvalue x = Some v ∧ v ∈ sample_votes.
Proof.
  pose proof default_config_ok as Hc.
  apply (certificate_completes (H := default_config 1 0) sample_verify 3 sample_votes).
  - cbn. lia.
  - cbn. lia.
  - reflexivity.
  - split_and!.
    + refine (bool_decide_unpack _ _). vm_compute. exact I.
    + unfold sample_votes. intros mg Hmg.
      repeat (apply elem_of_cons in Hmg as [->|Hmg]; [cbn; split_and!; done|]).
      by apply elem_of_nil in Hmg.
    + unfold sample_votes. intros a b Ha Hb.
      repeat (apply elem_of_cons in Ha as [->|Ha];
        [repeat (apply elem_of_cons in Hb as [->|Hb]; [reflexivity|]); by apply elem_of_nil in Hb|]).
      by apply elem_of_nil in Ha.
Defined.
End Cert.
