(* ===== verification/CertLive.v ===== *)
(** * CertLive: a certificate completes in spite of faulty replicas (src/src/Certificate.t)

    [Cert.add] is followed through any sequence of messages of at most [f] faulty replicas
    and of others that agree.  The votes that [add] accepts are recorded in a list of
    ballots, at most one for a replica; the slots of the certificate are the values of the
    ballots with their counts, until one value is correct.  No faulty value ever reaches
    [f + 1] votes, and the [f + 1] slots are enough for all values that occur. *)
From stdpp Require Import gmap.
From S2P Require Import Prelude Node Bitmap Certificate.

Module CertLive.
Import Cert.

(** ** Ballots: replicas and the values they voted for *)
Section ballots.
Context {V : Type} `{EqDecision V}.
Implicit Types (B : list (Z * V)) (F : gset Z).

Definition ballots_for (w : V) (B : list (Z * V)) : list (Z * V) := filter (λ b, b.2 = w) B.
Definition tally (w : V) (B : list (Z * V)) : Z := zlen (ballots_for w B).

Lemma tally_cons w q w' B : tally w ((q, w') :: B) = tally w B + (if decide (w' = w) then 1 else 0).
Proof.
  unfold tally, ballots_for, zlen. rewrite filter_cons. cbn. case_decide; cbn [length]; lia.
Qed.

(** All voters outside [F] voted for [d], and nobody twice. *)
Record fair (F : gset Z) (d : V) (B : list (Z * V)) : Prop := {
  fair_ids : NoDup B.*1;
  fair_votes q w : (q, w) ∈ B → q ∈ F ∨ w = d;
}.

Lemma NoDup_set_size (l : list Z) F : NoDup l → (∀ q, q ∈ l → q ∈ F) → zlen l ≤ Z.of_nat (size F).
Proof.
  intros Hnd Hl. unfold zlen. apply inj_le. rewrite <- (size_list_to_set (C := gset Z) l) by done.
  apply subseteq_size. intros q Hq%elem_of_list_to_set. by apply Hl.
Qed.

Lemma filter_ids (P : Z * V → Prop) `{∀ b, Decision (P b)} B : NoDup B.*1 → NoDup (filter P B).*1.
Proof.
  intros Hnd. eapply sublist_NoDup; [done|]. apply fmap_sublist, sublist_filter.
Qed.

(** Ballots against [d] come from [F]. *)
Lemma ballots_against F d B (P : Z * V → Prop) `{∀ b, Decision (P b)} :
  fair F d B → (∀ b, P b → b.2 ≠ d) → zlen (filter P B) ≤ Z.of_nat (size F).
Proof.
  intros [Hids Hv] HP. assert (zlen (filter P B) = zlen (filter P B).*1) as ->.
  { unfold zlen. by rewrite length_fmap. }
  apply NoDup_set_size; [by apply filter_ids|]. intros q ([q' w] & -> & Hb)%list_elem_of_fmap.
  apply list_elem_of_filter in Hb as [Hp Hb]. destruct (Hv _ _ Hb) as [?| ->]; [done|].
  by destruct (HP _ Hp).
Qed.

Lemma tally_against F d B w : fair F d B → w ≠ d → tally w B ≤ Z.of_nat (size F).
Proof. intros HB Hw. apply (ballots_against F d B); [done|]. by intros b ->. Qed.

(** The values that occur are at most one more than the faulty voters. *)
Lemma values_bound F d B (W : list V) :
  fair F d B → NoDup W → (∀ w, w ∈ W → w ∈ B.*2) → zlen W ≤ Z.of_nat (size F) + 1.
Proof.
  intros HB Hnd HW.
  assert (zlen (filter (λ w, w ≠ d) W) ≤ Z.of_nat (size F)) as Hbad.
  { etrans; [|by apply (ballots_against F d B (λ b, b.2 ≠ d))].
    assert (zlen (filter (λ b : Z * V, b.2 ≠ d) B) = zlen (filter (λ b : Z * V, b.2 ≠ d) B).*2) as ->.
    { unfold zlen. by rewrite length_fmap. }
    unfold zlen. apply inj_le, submseteq_length, NoDup_submseteq; [by apply NoDup_filter|].
    intros w [Hw Hin]%list_elem_of_filter. apply HW in Hin. apply list_elem_of_fmap in Hin as ([q w'] & -> & Hb).
    apply list_elem_of_fmap. exists (q, w'). split; [done|]. by apply list_elem_of_filter. }
  assert (zlen (filter (λ w, w = d) W) ≤ 1) as Hgood.
  { pose proof (NoDup_filter (λ w, w = d) W Hnd) as Hf.
    assert (∀ w, w ∈ filter (λ w, w = d) W → w = d) as Heq by (by intros w [? _]%list_elem_of_filter).
    destruct (filter (λ w, w = d) W) as [|a [|b l]]; [done..|]. exfalso.
    assert (a = b) as -> by (rewrite (Heq a), (Heq b) by (by repeat (left || right)); done).
    apply NoDup_cons in Hf as [Hf _]. apply Hf. by left. }
  assert (zlen W = zlen (filter (λ w, w ≠ d) W) + zlen (filter (λ w, w = d) W)) as ->; [|lia].
  clear. induction W as [|w W IH]; [done|]. rewrite !filter_cons. unfold zlen in *.
  destruct (decide (w = d)) as [E|E]; [rewrite decide_False by tauto|rewrite decide_True by done];
    cbn [length] in *; lia.
Qed.
End ballots.

(** ** The certificate and its ballots *)
Section live.
Context `{Config} `{!ConfigOk} {T V : Type} `{CertMsg T} `{EqDecision T} `{EqDecision V} `{!CertVal T V}.
Context (verify : T → bool) (kind : T → Prop).

(** The messages of one kind match when they vote for the same value. *)
Context (Hmatch : ∀ a b, kind a → kind b → msg_match a b = Ret (bool_decide (msg_val a = msg_val b))).
Context (Hself : ∀ mg, verify mg = true → msg_id mg ≠ node_id).

(** No value is correct: the slots hold the values of the ballots. *)
Record counting (x : Certificate T) (B : list (Z * V)) (L : list T) : Prop := {
  cn_c : c x = None;
  cn_size : cur_size x = zlen L;
  cn_vals i mg : zget L i = Some mg → zget (vals x) i = Some (mkVal (Some mg) (tally (msg_val mg) B));
  cn_nodup : NoDup (msg_val <$> L);
  cn_values w : w ∈ msg_val <$> L ↔ w ∈ B.*2;
  cn_kind : Forall kind L;
  cn_small w : tally w B ≤ max_faulty;
}.

(** One value is correct; it is counted until the certificate is complete. *)
Definition decided (d : V) (x : Certificate T) (B : list (Z * V)) : Prop :=
  ∃ i mg k, c x = Some i ∧ zget (vals x) i = Some (mkVal (Some mg) k) ∧ kind mg ∧ msg_val mg = d ∧
    (complete x ≤ k ∨ k = tally d B).

Record follows (comp : Z) (d : V) (x : Certificate T) (B : list (Z * V)) : Prop := {
  fo_ok : ∃ hs S, cert_ok verify hs x S;
  fo_complete : complete x = comp;
  fo_bits q : is_replica q = true → BM.bit (bmap x) q = bool_decide (q ∈ B.*1);
  fo_votes : (∃ L, counting x B L) ∨ decided d x B;
}.

(** The search for a matching value. *)
Lemma find_match_slots (v : list (Message_val T)) (L : list T) mg (f : T → Z) :
  kind mg → Forall kind L → (∀ i m, zget L i = Some m → zget v i = Some (mkVal (Some m) (f m))) →
  ∃ o, find_match v 0 (length L) mg = Ret o ∧
    match o with
    | Some i => ∃ m, zget L i = Some m ∧ msg_val m = msg_val mg
    | None => msg_val mg ∉ msg_val <$> L
    end.
Proof.
  intros Hk HL Hv.
  assert (∀ n i, i + Z.of_nat n = zlen L → 0 ≤ i →
    (∀ j m, j < i → zget L j = Some m → msg_val m ≠ msg_val mg) →
    ∃ o, find_match v i n mg = Ret o ∧
      match o with
      | Some i => ∃ m, zget L i = Some m ∧ msg_val m = msg_val mg
      | None => ∀ j m, zget L j = Some m → msg_val m ≠ msg_val mg
      end) as G.
  { induction n as [|n IH]; intros i Hi Hi0 Hno; cbn [find_match].
    - exists None. split; [done|]. intros j m Hj. apply (Hno j m); [|done].
      pose proof (zget_Some_lt _ _ _ Hj). lia.
    - destruct (zget_lookup L i) as [m Em]; [lia|]. rewrite (Hv i m Em).
      unfold msg_of. cbn [of_option mbind outcome_bind Cert.m].
      rewrite Hmatch by (done || by eapply Forall_zget in Em). cbn [mbind outcome_bind].
      case_bool_decide as E; [exists (Some i); split; [done|]; by exists m|].
      apply IH; [lia|lia|]. intros j m' Hj Ej. destruct (decide (j = i)) as [->|]; [congruence|].
      apply (Hno j m'); [lia|done]. }
  destruct (G (length L) 0) as (o & E & Ho); [unfold zlen; lia|lia| |].
  { intros j m Hj Ej. pose proof (zget_Some_lt _ _ _ Ej). lia. }
  exists o. split; [done|]. destruct o as [i|]; [done|].
  intros (m & Em & [i Hi]%list_elem_of_lookup)%list_elem_of_fmap.
  apply (Ho (Z.of_nat i) m); [|done]. unfold zget. by rewrite decide_True, Nat2Z.id by lia.
Qed.

Lemma counting_inj x B L i j a b : counting x B L → zget L i = Some a → zget L j = Some b →
  msg_val a = msg_val b → i = j.
Proof.
  intros HC Ha Hb Hv. pose proof (zget_Some_lt _ _ _ Ha). pose proof (zget_Some_lt _ _ _ Hb).
  unfold zget in Ha, Hb. rewrite decide_True in Ha by lia. rewrite decide_True in Hb by lia.
  assert (Z.to_nat i = Z.to_nat j); [|lia].
  eapply NoDup_lookup; [apply (cn_nodup _ _ _ HC)| |]; rewrite list_lookup_fmap; [by rewrite Ha|].
  rewrite Hb. cbn. by rewrite Hv.
Qed.

Lemma keep_full_val a b : msg_val a = msg_val b → kind a → kind b →
  msg_val (keep_full a b) = msg_val b ∧ kind (keep_full a b).
Proof. intros E Ha Hb. by destruct (keep_full_cases a b) as [-> | ->]. Qed.

Lemma fmap_zset_same (L : list T) i a b : zget L i = Some a → msg_val b = msg_val a →
  msg_val <$> zset L i b = msg_val <$> L.
Proof.
  intros Ha Hv. unfold zget, zset in *. case_decide; [|done].
  rewrite list_fmap_insert, Hv. apply list_insert_id. by rewrite list_lookup_fmap, Ha.
Qed.

(** ** Completion *)
Lemma follows_value d comp x B : max_faulty + 1 ≤ comp → follows comp d x B → is_complete x = true →
  ∃ v, cvalue x = Some v ∧ kind v ∧ msg_val v = d.
Proof.
  intros Hcomp [_ Hc _ Hv] E. unfold is_complete, num_correct in E. rewrite Hc, Z.geb_leb in E. zprop.
  destruct Hv as [[L HC]|(i & mg & k & Hci & Hvi & ? & ? & _)].
  - rewrite (cn_c _ _ _ HC) in E. pose proof config_faulty. lia.
  - exists mg. unfold cvalue. rewrite Hci, Hvi. done.
Qed.

Lemma follows_complete d comp x B : max_faulty + 1 ≤ comp → follows comp d x B → comp ≤ tally d B →
  is_complete x = true.
Proof.
  intros Hcomp [_ Hc _ Hv] Ht. unfold is_complete, num_correct. rewrite Hc, Z.geb_leb. apply Z.leb_le.
  destruct Hv as [[L HC]|(i & mg & k & Hci & Hvi & _ & _ & Hk)].
  - pose proof (cn_small _ _ _ HC d). lia.
  - rewrite Hci, Hvi. cbn. lia.
Qed.

(** A certificate without votes. *)
Lemma follows_start d comp x hs S : cert_ok verify hs x S → complete x = comp → cur_size x = 0 → c x = None →
  (∀ q, is_replica q = true → BM.bit (bmap x) q = false) → follows comp d x [].
Proof.
  intros Hok Hcomp Hcur Hc Hbits. split; [by eexists _, _|done|intros q Hq; by apply Hbits|].
  left. exists []. constructor; try done.
  - intros i mg E. apply zget_Some_lt in E. unfold zlen in E. cbn in E. lia.
  - apply NoDup_nil_2.
  - intros w. unfold tally, zlen. cbn. apply config_faulty.
Qed.

Lemma make_follows d comp : comp ≠ 0 → follows comp d (make comp) [].
Proof.
  intros Hcomp. eapply follows_start; [by apply make_ok|cbn; by rewrite (proj2 (Z.eqb_neq _ _))|done|done|].
  intros q Hq%replica_in_bitmap. pose proof config_max_replicas as Hm. change (2 ^ 15) with 32768 in Hm.
  destruct (BM.make_spec Max_num_replicas false) as (_ & _ & Hz); [change (2 ^ 32 - 64) with 4294967232; lia|].
  by apply Hz.
Qed.

Context (F : gset Z) (d : V) (HF : Z.of_nat (size F) ≤ max_faulty) (Hf1 : 1 ≤ max_faulty).

(** A vote for a value that has a slot. *)
Lemma vote_counting hs S x B L mg b i m :
  cert_ok verify hs x S → counting x B L → kind mg → fair F d ((msg_id mg, msg_val mg) :: B) →
  zget L i = Some m → msg_val m = msg_val mg →
  let k := tally (msg_val m) B in
  let x' := with_vals (with_bmap x b) (zset (vals x) i (mkVal (Some (keep_full m mg)) (k + 1))) (cur_size x)
    (if k + 1 >=? correct x then Some i else None) in
  (∃ L', counting x' ((msg_id mg, msg_val mg) :: B) L') ∨ decided d x' ((msg_id mg, msg_val mg) :: B).
Proof.
  intros Hok HC Hk Hfair Em Ev k x'. pose proof (ok_max _ _ _ _ Hok) as (_ & Hcor & _).
  pose proof (zget_Some_lt _ _ _ (cn_vals _ _ _ HC _ _ Em)) as Hi.
  destruct (keep_full_val m mg) as [Ew Hw]; [done|by eapply Forall_zget in Em; [|apply (cn_kind _ _ _ HC)]|done|].
  assert (tally (msg_val mg) ((msg_id mg, msg_val mg) :: B) = k + 1) as Ek.
  { rewrite tally_cons, decide_True by done. unfold k. by rewrite Ev. }
  unfold x'. rewrite Hcor. destruct (k + 1 >=? max_faulty + 1) eqn:Ec; rewrite Z.geb_leb in Ec; zprop.
  - right. exists i, (keep_full m mg), (k + 1). split; [done|]. split; [by apply zget_zset_eq|]. split; [done|].
    split; [|right; rewrite <- Ek; destruct (decide (msg_val mg = d)) as [->|Hne]; [done|]].
    + rewrite Ew. destruct (decide (msg_val mg = d)) as [|Hne]; [done|].
      pose proof (tally_against F d _ _ Hfair Hne). lia.
    + pose proof (tally_against F d _ _ Hfair Hne). lia.
  - left. exists (zset L i (keep_full m mg)).
    assert (msg_val <$> zset L i (keep_full m mg) = msg_val <$> L) as EL
      by (apply (fmap_zset_same L i m); [done|congruence]).
    constructor; cbn.
    + done.
    + rewrite zlen_zset. apply (cn_size _ _ _ HC).
    + intros j m' Ej. destruct (decide (j = i)) as [->|Hj].
      * rewrite zget_zset_eq in Ej by (by eapply zget_Some_lt). injection Ej as <-.
        by rewrite zget_zset_eq, Ew, Ek.
      * rewrite zget_zset_ne in Ej by done. rewrite zget_zset_ne by done.
        rewrite (cn_vals _ _ _ HC _ _ Ej), tally_cons, decide_False, Z.add_0_r; [done|].
        intros E. apply Hj. eapply counting_inj; [done..|]. congruence.
    + rewrite EL. apply (cn_nodup _ _ _ HC).
    + intros w. rewrite EL. cbn. rewrite elem_of_cons, <- (cn_values _ _ _ HC). split; [by right|].
      intros [->|]; [|done]. rewrite <- Ev. apply list_elem_of_fmap. exists m. split; [done|].
      unfold zget in Em. case_decide; [|done]. by eapply list_elem_of_lookup_2.
    + apply Forall_zset; [apply (cn_kind _ _ _ HC)|done].
    + intros w. rewrite tally_cons. case_decide as E; [|pose proof (cn_small _ _ _ HC w); lia].
      subst w. rewrite tally_cons, decide_True in Ek by done. lia.
Qed.

(** A vote for a new value. *)
Lemma vote_new hs S x B L mg b :
  cert_ok verify hs x S → counting x B L → kind mg → fair F d ((msg_id mg, msg_val mg) :: B) →
  msg_val mg ∉ msg_val <$> L →
  cur_size x < max_size x ∧
  counting (with_vals (with_bmap x b) (zset (vals x) (cur_size x) (mkVal (Some mg) 1)) (cur_size x + 1) None)
    ((msg_id mg, msg_val mg) :: B) (L ++ [mg]).
Proof.
  intros Hok HC Hk Hfair Hnew. pose proof (ok_max _ _ _ _ Hok) as (Hmax & _ & Hlen).
  pose proof (cn_size _ _ _ HC) as Hcur.
  assert (msg_val <$> L ++ [mg] = (msg_val <$> L) ++ [msg_val mg]) as EL by by rewrite fmap_app.
  assert (NoDup (msg_val <$> L ++ [mg])) as Hnd.
  { rewrite EL. apply NoDup_app. split; [apply (cn_nodup _ _ _ HC)|]. split; [|apply NoDup_singleton].
    by intros w Hw ->%list_elem_of_singleton. }
  assert (∀ w, w ∈ msg_val <$> L ++ [mg] ↔ w ∈ ((msg_id mg, msg_val mg) :: B).*2) as Hvals.
  { intros w. rewrite EL, elem_of_app, list_elem_of_singleton, (cn_values _ _ _ HC). cbn.
    rewrite elem_of_cons. tauto. }
  assert (cur_size x < max_size x) as Hroom.
  { pose proof (values_bound F d _ (msg_val <$> L ++ [mg]) Hfair Hnd (λ w, proj1 (Hvals w))) as Hb.
    rewrite EL in Hb. unfold zlen in *. rewrite length_app, length_fmap in Hb. cbn in Hb. lia. }
  assert (tally (msg_val mg) B = 0) as Et.
  { unfold tally, ballots_for. destruct (filter _ B) as [|[q w] l] eqn:E; [done|]. exfalso. apply Hnew.
    assert ((q, w) ∈ filter (λ b : Z * V, b.2 = msg_val mg) B) as [Hw Hin]%list_elem_of_filter by (rewrite E; by left).
    cbn in Hw. subst w. apply (cn_values _ _ _ HC). apply list_elem_of_fmap. by exists (q, msg_val mg). }
  pose proof (zlen_nonneg L). split; [done|]. constructor; cbn; [done|..].
  - unfold zlen in *. rewrite length_app. cbn. lia.
  - intros j m' Ej. pose proof (zget_Some_lt _ _ _ Ej) as Hj. unfold zlen in Hj. rewrite length_app in Hj. cbn in Hj.
    unfold zget in Ej. rewrite decide_True in Ej by lia.
    destruct (decide (j = zlen L)) as [->|Hne].
    + rewrite <- Hcur, zget_zset_eq by lia. unfold zlen in Ej.
      rewrite lookup_app_r, Nat2Z.id, Nat.sub_diag in Ej by lia. injection Ej as <-.
      by rewrite tally_cons, decide_True, Et by done.
    + unfold zlen in *. rewrite zget_zset_ne by lia. rewrite lookup_app_l in Ej by lia.
      assert (zget L j = Some m') as Ej' by (unfold zget; by rewrite decide_True by lia).
      rewrite (cn_vals _ _ _ HC _ _ Ej'), tally_cons, decide_False, Z.add_0_r; [done|].
      intros E. apply Hnew. rewrite E. apply list_elem_of_fmap. exists m'. split; [done|]. by eapply list_elem_of_lookup_2.
  - done.
  - done.
  - apply Forall_app. split; [apply (cn_kind _ _ _ HC)|by apply Forall_singleton].
  - intros w. rewrite tally_cons. case_decide as E; [subst w; lia|]. pose proof (cn_small _ _ _ HC w). lia.
Qed.

(** The ballots after [add]. *)
Definition cast (B : list (Z * V)) (mg : T) : list (Z * V) :=
  if is_replica (msg_id mg) && negb (bool_decide (msg_id mg ∈ B.*1)) && verify mg
  then (msg_id mg, msg_val mg) :: B else B.

Lemma cast_fair B mg : fair F d B → (verify mg = true → msg_id mg ∈ F ∨ msg_val mg = d) → fair F d (cast B mg).
Proof.
  intros [Hids Hv] Hmg. unfold cast. destruct (_ && verify mg) eqn:E; [|done].
  apply andb_true_iff in E as [[_ E%negb_true_iff%bool_decide_eq_false]%andb_true_iff Ever]. split.
  - cbn. by apply NoDup_cons.
  - intros q w [[= -> ->]|Hin]%elem_of_cons; [by apply Hmg|by eapply Hv].
Qed.

Lemma decided_vote x B mg b : decided d x B → accepts_value x mg = Ret true → kind mg →
  ∃ x', count_vote (with_bmap x b) mg = Ret (true, x') ∧ bmap x' = b ∧ complete x' = complete x ∧
    decided d x' ((msg_id mg, msg_val mg) :: B).
Proof.
  intros (i & cm & k & Hc & Hv & Hcm & Ed & Hk) Ha Hmg.
  destruct (accepts_value_match x mg i Ha Hc) as (k' & cm' & Hv' & Hlt & Hm).
  rewrite Hv in Hv'. injection Hv' as <- <-. destruct Hk as [Hk|Hk]; [lia|].
  apply match_val in Hm as Em. destruct (keep_full_val cm mg Em Hcm Hmg) as [Ew Hw].
  unfold count_vote. cbn. rewrite Hc. unfold val_at. cbn. rewrite Hv. cbn. eexists. split; [done|].
  split; [done|]. split; [done|]. exists i, (keep_full cm mg), (k + 1). cbn. split; [done|].
  split; [eapply zget_zset_eq, zget_Some_lt; done|]. split; [done|]. split; [congruence|]. right.
  rewrite tally_cons, decide_True by congruence. lia.
Qed.

Lemma counting_vote hs S x B L mg b :
  cert_ok verify hs x S → counting x B L → kind mg → fair F d ((msg_id mg, msg_val mg) :: B) →
  ∃ x', count_vote (with_bmap x b) mg = Ret (true, x') ∧ bmap x' = b ∧ complete x' = complete x ∧
    ((∃ L', counting x' ((msg_id mg, msg_val mg) :: B) L') ∨ decided d x' ((msg_id mg, msg_val mg) :: B)).
Proof.
  intros Hok HC Hmg Hfair. pose proof (ok_max _ _ _ _ Hok) as (Hmax & _ & Hlen). pose proof (ok_cur _ _ _ _ Hok).
  unfold count_vote. cbn. rewrite (cn_c _ _ _ HC), (cn_size _ _ _ HC).
  assert (Z.to_nat (zlen L) = length L) as -> by (unfold zlen; lia).
  destruct (find_match_slots (vals x) L mg (λ m, tally (msg_val m) B) Hmg (cn_kind _ _ _ HC) (cn_vals _ _ _ HC))
    as (o & E & Ho). rewrite E. cbn [mbind outcome_bind]. destruct o as [i|].
  - destruct Ho as (m & Em & Ev). unfold val_at. cbn. rewrite (cn_vals _ _ _ HC _ _ Em). cbn.
    eexists. split; [done|]. split; [done|]. split; [done|]. rewrite <- (cn_size _ _ _ HC).
    by eapply vote_counting.
  - destruct (vote_new hs S x B L mg b Hok HC Hmg Hfair Ho) as [Hroom HC'].
    rewrite <- (cn_size _ _ _ HC), (proj2 (Z.ltb_lt _ _)) by done. unfold val_at. cbn.
    destruct (zget_lookup (vals x) (cur_size x)) as [y ->]; [lia|]. cbn.
    eexists. split; [done|]. split; [done|]. split; [done|]. left. by eexists.
Qed.

Lemma add_follows comp x B mg : follows comp d x B → fair F d B → kind mg →
  (verify mg = true → msg_id mg ∈ F ∨ msg_val mg = d) →
  ∃ r x', add verify x mg = Ret (r, x') ∧ follows comp d x' (cast B mg).
Proof.
  intros Hfol Hfair Hmg Hhon. pose proof Hfol as [(hs & S & Hok) Hcomp Hbits Hvotes].
  pose proof (ok_wf _ _ _ _ Hok) as Hwf. pose proof (ok_num _ _ _ _ Hok) as Hnum.
  pose proof (cast_fair B mg Hfair Hhon) as Hfair'. unfold cast in *.
  assert (∀ r x', add verify x mg = Ret (r, x') → ∃ hs S, cert_ok verify hs x' S) as Hok'.
  { intros r x' E. destruct (add_ok verify hs x S mg r x' Hok E) as [S' ?]. by eexists _, S'. }
  unfold add in *. destruct (is_replica (msg_id mg)) eqn:Hrep; [|by exists false, x]. cbn [andb] in *.
  rewrite BM.test_bit in * by (done || rewrite Hnum; by apply replica_in_bitmap).
  cbn [mbind outcome_bind] in *. rewrite Hbits in * by done.
  case_bool_decide as Hin; cbn [negb andb] in *; [by exists false, x|].
  destruct (set_defined x _ Hwf Hnum Hrep) as [b Hb].
  pose proof (bit_after x _ b _ Hwf Hnum Hrep Hb Hbits) as Hbits'.
  assert (∃ a, accepts_value x mg = Ret a) as [a Ea].
  { unfold accepts_value. destruct Hvotes as [[L HC]|(i & cm & k & Hc & Hv & Hcm & _)]; [by rewrite (cn_c _ _ _ HC); eexists|].
    rewrite Hc. unfold val_at. rewrite Hv. cbn. destruct (k <? _); [|by eexists]. rewrite Hmatch by done. by eexists. }
  rewrite Ea in *. cbn [mbind outcome_bind] in *.
  destruct (verify mg) eqn:Ever; rewrite ?andb_true_r, ?andb_false_r in *; [|by exists false, x].
  rewrite Hb in *. destruct a.
  - rewrite (proj2 (Z.eqb_neq (msg_id mg) node_id)) in * by auto. cbn [negb th_assert mbind outcome_bind] in *.
    destruct Hvotes as [[L HC]|Hd].
    + destruct (counting_vote hs S x B L mg b Hok HC Hmg Hfair') as (x' & E & Eb & Ec & Hv'). rewrite E in *.
      exists true, x'. split; [done|]. split; [by eapply Hok'|congruence|by rewrite Eb|done].
    + destruct (decided_vote x B mg b Hd Ea Hmg) as (x' & E & Eb & Ec & Hv'). rewrite E in *.
      exists true, x'. split; [done|]. split; [by eapply Hok'|congruence|by rewrite Eb|by right].
  - cbn [mbind outcome_bind] in *. eexists _, _. split; [done|]. split; [by eapply Hok'|done|by apply Hbits'|].
    right. destruct Hvotes as [[L HC]|(i & cm & k & Hc & Hv & Hcm & Ed & Hk)].
    { unfold accepts_value in Ea. by rewrite (cn_c _ _ _ HC) in Ea. }
    exists i, cm, k. cbn. do 4 (split; [done|]). destruct Hk as [?|Hk]; [by left|].
    unfold accepts_value, val_at in Ea. rewrite Hc, Hv in Ea. cbn in Ea.
    destruct (k <? complete x) eqn:Elt; zprop; [|left; lia]. right.
    rewrite Hmatch in Ea by done. injection Ea as Ea%bool_decide_eq_false.
    rewrite tally_cons, decide_False by congruence. lia.
Qed.

Lemma tally_reaches B (G : gset Z) :
  fair F d B → (∀ q, q ∈ G → q ∈ B.*1 ∧ q ∉ F) → Z.of_nat (size G) ≤ tally d B.
Proof.
  intros [Hids Hv] HG. unfold tally, ballots_for.
  assert (zlen (filter (λ b : Z * V, b.2 = d) B) = zlen (filter (λ b : Z * V, b.2 = d) B).*1) as ->.
  { unfold zlen. by rewrite length_fmap. }
  unfold zlen. apply inj_le. rewrite <- (size_list_to_set (C := gset Z)) by by apply filter_ids.
  apply subseteq_size. intros q Hq. apply HG in Hq as [([q' w] & -> & Hin)%list_elem_of_fmap HnF].
  destruct (Hv _ _ Hin) as [?| ->]; [done|]. apply elem_of_list_to_set, list_elem_of_fmap.
  exists (q', d). split; [done|]. by apply list_elem_of_filter.
Qed.

Lemma cast_mono B mg q : q ∈ B.*1 → q ∈ (cast B mg).*1.
Proof. unfold cast. destruct (_ && _); [|done]. by right. Qed.

Lemma cast_voter B mg : is_replica (msg_id mg) = true → verify mg = true → msg_id mg ∈ (cast B mg).*1.
Proof.
  intros Hr Hv. unfold cast. rewrite Hr, Hv, andb_true_r. cbn.
  case_bool_decide; cbn [negb]; [done|by left].
Qed.

Lemma add_all_follows comp l x B : follows comp d x B → fair F d B →
  (∀ mg, mg ∈ l → kind mg ∧ (verify mg = true → msg_id mg ∈ F ∨ msg_val mg = d)) →
  ∃ x', add_all verify x l = Ret x' ∧ follows comp d x' (foldl cast B l) ∧ fair F d (foldl cast B l).
Proof.
  revert x B. induction l as [|mg l IH]; intros x B Hx HB Hl; [by exists x|].
  destruct (Hl mg ltac:(by left)) as [Hk Hh].
  destruct (add_follows comp x B mg Hx HB Hk Hh) as (r & x' & E & Hx'). cbn. rewrite E. cbn [mbind outcome_bind].
  apply IH; [done|by apply cast_fair|]. intros; apply Hl. by right.
Qed.

Lemma cast_all_mono l B q : q ∈ B.*1 → q ∈ (foldl cast B l).*1.
Proof. revert B. induction l as [|mg l IH]; intros B Hq; [done|]. by apply IH, cast_mono. Qed.

Lemma cast_all_voter l B mg : mg ∈ l → is_replica (msg_id mg) = true → verify mg = true →
  msg_id mg ∈ (foldl cast B l).*1.
Proof.
  intros Hin Hr Hv. revert B. induction l as [|mg' l IH]; intros B; [by apply elem_of_nil in Hin|].
  apply elem_of_cons in Hin as [<-|Hin]; cbn [foldl]; [by apply cast_all_mono, cast_voter|by apply IH].
Qed.
End live.

(** C10: a certificate completes whatever the faulty replicas send.  When all but at most
    [f] replicas vote for the value [d], and those replicas that do not belong to the
    faulty ones and whose vote arrives are as many as the certificate requires, then after
    any sequence of messages that contains their votes, in any order and with any others
    between, [add] has not failed, the certificate is complete and its value is [d]. *)
Theorem certificate_completes_despite_faults `{Config} `{!ConfigOk} {T V : Type} `{CertMsg T} `{EqDecision T}
    `{EqDecision V} `{!CertVal T V} (verify : T → bool) (kind : T → Prop) (F G : gset Z) (d : V) (comp : Z) (l : list T) :
  (∀ a b, kind a → kind b → msg_match a b = Ret (bool_decide (msg_val a = msg_val b))) →
  (∀ mg, verify mg = true → msg_id mg ≠ node_id) →
  1 ≤ max_faulty → Z.of_nat (size F) ≤ max_faulty →
  max_faulty + 1 ≤ comp ∧ comp ≤ Z.of_nat (size G) →
  (∀ mg, mg ∈ l → kind mg ∧ (verify mg = true → msg_id mg ∈ F ∨ msg_val mg = d)) →
  (∀ q, q ∈ G → (q ∉ F) ∧ is_replica q = true ∧ ∃ mg, mg ∈ l ∧ msg_id mg = q ∧ verify mg = true) →
  ∃ x v, add_all verify (make comp) l = Ret x ∧ is_complete x = true ∧ cvalue x = Some v ∧ msg_val v = d.
Proof.
  intros Hmatch Hself Hf HF Hcomp Hl HG.
  destruct (add_all_follows verify kind Hmatch Hself F d HF Hf comp l (make comp) []) as (x & E & Hx & HB);
    [apply make_follows; lia| |done|].
  { split; [constructor|]. by intros q w ?%elem_of_nil. }
  assert (is_complete x = true) as Hc.
  { apply (follows_complete verify kind d comp x _ (proj1 Hcomp) Hx). etrans; [apply Hcomp|].
    eapply tally_reaches; [exact HB|]. intros q (HnF & Hr & mg & Hin & <- & Hv)%HG.
    split; [by apply cast_all_voter|done]. }
  destruct (follows_value verify kind d comp x _ (proj1 Hcomp) Hx Hc) as (v & Ev & _ & Hd).
  by exists x, v.
Qed.

(** Replica 1 votes twice, and each time for another value than the others. *)
Lemma certificate_completes_despite_faults_witness :
  let c := default_config 1 0 in
  ∃ x v, add_all (H := c) sample_verify (make (H := c) 2) [(1, 9); (2, 7); (1, 8); (3, 7)] = Ret x ∧
    is_complete x = true ∧ cvalue x = Some v ∧ msg_val v = 7.
Proof.
  cbn zeta. pose proof default_config_ok as Hc.
  refine (certificate_completes_despite_faults (H := default_config 1 0) sample_verify (λ _, True) {[1]} {[2; 3]} 7 2
    [(1, 9); (2, 7); (1, 8); (3, 7)] _ _ _ _ _ _ _).
  - done.
  - intros [i w] E Hid. cbn in Hid. subst i. done.
  - cbn. lia.
  - vm_compute. discriminate.
  - vm_compute. split; discriminate.
  - intros mg Hmg. split; [done|]. intros _.
    repeat (apply elem_of_cons in Hmg as [->|Hmg]; [first [by left; apply elem_of_singleton|by right]|]).
    by apply elem_of_nil in Hmg.
  - intros q [->%elem_of_singleton| ->%elem_of_singleton]%elem_of_union.
    + split; [by intros ?%elem_of_singleton|]. split; [done|]. exists (2, 7). split; [right; by left|done].
    + split; [by intros ?%elem_of_singleton|]. split; [done|]. exists (3, 7). split; [by do 3 right; left|done].
Defined.
End CertLive.
