(* ===== verification/Messages.v ===== *)
(** * Messages: the authenticated messages of the agreement protocol

    Module [Msg] holds the framing shared by all messages (src/src/Message.h,
    Message.cc, the alignment macros of Log_allocator.h), [Dig] the comparison of
    digests (src/src/Digest.h), and the other modules one message type each:
    Prepare, Commit, Checkpoint, View_change_ack and Reply, with their
    constructors, [verify] and [match].  The bytes that a code authenticates are
    those of the fixed part of the message, in the order of its struct; digests of
    data (SHA-256 of mbedtls) are parameters. *)
From S2P Require Import Prelude Node Certificate.
Import HmacModel Auth.

(** ** Message framing *)
Module Msg.
Definition ALIGNMENT : Z := 8.
Definition ALIGNED (sz : Z) : bool := to_u64 sz `mod` ALIGNMENT =? 0.
Definition ALIGNED_SIZE (sz : Z) : Z :=
  if ALIGNED sz then sz else sz - Z.rem sz ALIGNMENT + ALIGNMENT.

(** The header of a received message, and the capacity of the object that holds
    it ([-1] when it does not own its storage). *)
Record Message := mkMessage { tag : Z; extra : Z; size : Z; max_size : Z }.

Definition has_tag (m : Message) (t sz : Z) : bool :=
  if (max_size m >=? 0) && (size m >? max_size m) then false
  else negb (negb (tag m =? t) || (size m <? sz) || negb (ALIGNED (size m))).

Definition msize (m : Message) : Z := if max_size m >=? 0 then max_size m else size m.

Definition set_size (m : Message) (sz : Z) : outcome Message :=
  _ ← th_assert ((max_size m <? 0) || (ALIGNED_SIZE sz <=? max_size m));
  Ret (mkMessage (tag m) (extra m) (ALIGNED_SIZE sz) (max_size m)).

(** [convert(src, len, t, sz, m)] on a header read at the address [src]. *)
Definition convert (src : Z) (hdr : Message) (len t sz : Z) : bool :=
  if len <? 8 then false
  else if negb (ALIGNED src) then false
  else has_tag (mkMessage (tag hdr) (extra hdr) (size hdr) (-1)) t sz.

Definition Prepare_tag : Z := 4.
Definition Commit_tag : Z := 5.
Definition Checkpoint_tag : Z := 6.
Definition View_change_ack_tag : Z := 10.

(** Little-endian encoding of an integer in [n] bytes. *)
Definition le (n : nat) (z : Z) : list Z := (λ i, (z `div` 2 ^ (8 * i)) `mod` 256) <$> seqZ 0 (Z.of_nat n).

Definition header_bytes (tag extra size : Z) : list Z := le 2 tag ++ le 2 extra ++ le 4 size.

Lemma le_length n z : length (le n z) = n.
Proof. unfold le. rewrite length_fmap, length_seqZ. lia. Qed.

Lemma aligned_size_spec sz : 0 ≤ sz < 2 ^ 31 →
  sz ≤ ALIGNED_SIZE sz < sz + 8 ∧ ALIGNED_SIZE sz `mod` 8 = 0.
Proof.
  intros Hsz. unfold ALIGNED_SIZE, ALIGNED, ALIGNMENT, to_u64, wrapU.
  rewrite (Z.mod_small sz) by lia. pose proof (Z.mod_pos_bound sz 8 ltac:(lia)).
  destruct (sz `mod` 8 =? 0) eqn:E; zprop; [lia|].
  rewrite Z.rem_mod_nonneg by lia. split; [lia|].
  rewrite (Z.div_mod sz 8) at 1 by lia.
  replace (8 * (sz `div` 8) + sz `mod` 8 - sz `mod` 8 + 8) with ((sz `div` 8 + 1) * 8) by lia.
  by apply Z.mod_mul.
Qed.

(** Rounding a size up to the alignment yields the least multiple of eight that
    is not smaller, so that [set_size] on a message with room for it succeeds, never
    shrinks the message and leaves it aligned for embedded messages. *)
Theorem set_size_aligned (m : Message) (sz : Z) :
  0 ≤ sz < 2 ^ 31 → max_size m `mod` 8 = 0 → sz ≤ max_size m →
  ∃ m', set_size m sz = Ret m' ∧ sz ≤ size m' < sz + 8 ∧ size m' ≤ max_size m ∧
    ALIGNED (size m') = true ∧ has_tag m' (tag m) sz = true.
Proof.
  intros Hsz Hmax Hroom. destruct (aligned_size_spec sz Hsz) as [Hr Hm].
  assert (ALIGNED_SIZE sz ≤ max_size m) as Hle.
  { pose proof (Z_div_mod_eq_full (max_size m) 8). pose proof (Z_div_mod_eq_full (ALIGNED_SIZE sz) 8). lia. }
  unfold set_size. rewrite (proj2 (Z.leb_le _ _)) by done. rewrite orb_true_r. cbn.
  eexists. split; [done|]. cbn. split; [lia|]. split; [done|].
  assert (ALIGNED (ALIGNED_SIZE sz) = true) as Ha.
  { unfold ALIGNED at 1, ALIGNMENT, to_u64, wrapU. rewrite (Z.mod_small _ (2 ^ 64)) by lia.
    by apply Z.eqb_eq. }
  split; [done|]. unfold has_tag. cbn. rewrite Ha, Z.gtb_ltb, Z.eqb_refl.
  rewrite (proj2 (Z.ltb_ge _ _)) by lia. rewrite andb_false_r. by zbool.
Qed.

Lemma set_size_aligned_witness :
  ∃ m', set_size (mkMessage 4 0 0 64) 41 = Ret m' ∧ 41 ≤ size m' < 41 + 8 ∧ size m' ≤ 64 ∧
    ALIGNED (size m') = true ∧ has_tag m' 4 41 = true.
Proof.
  apply (set_size_aligned (mkMessage 4 0 0 64) 41); cbn; try lia. reflexivity.
Defined.

(** [convert] accepts an embedded message whenever its header is consistent:
    the number of bytes that are available, [len], bounds only the header and never
    the size that the embedded message claims. *)
Theorem convert_ignores_length (src : Z) (hdr : Message) (len t sz : Z) :
  8 ≤ len → ALIGNED src = true → tag hdr = t → sz ≤ size hdr → ALIGNED (size hdr) = true →
  convert src hdr len t sz = true.
Proof.
  intros Hlen Hsrc Ht Hsz Ha. unfold convert, has_tag. cbn. rewrite Hsrc, Ha, Ht, Z.eqb_refl.
  rewrite (proj2 (Z.ltb_ge _ _)) by lia. cbn. by rewrite (proj2 (Z.ltb_ge _ _)) by lia.
Qed.

(** A request that claims a megabyte inside of sixteen bytes. *)
Lemma convert_ignores_length_witness : convert 4096 (mkMessage 1 0 1048576 0) 16 1 56 = true.
Proof. apply convert_ignores_length; cbn; [lia|reflexivity|reflexivity|lia|reflexivity]. Defined.
End Msg.

(** ** Digests *)
Module Dig.
Definition num_words : nat := 8.

Definition words_okb (l : list Z) : bool :=
  (length l =? num_words)%nat && forallb (λ w, (0 <=? w) && (w <? 2 ^ 32)) l.

(** Eight 32-bit words. *)
Record Digest := mkDigest { d : list Z; d_ok : words_okb d = true }.

Definition zero : Digest := mkDigest (replicate num_words 0) eq_refl.
Definition is_zero (x : Digest) : bool := match d x with w :: _ => w =? 0 | [] => false end.

(** The accumulated difference of the words. *)
Definition word_diff (diff : Z) (l l' : list Z) : Z :=
  foldl (λ diff '(a, b), Z.lor diff (Z.lxor a b)) diff (zip l l').

Definition operator_eq (x y : Digest) : bool :=
  negb (Z.shiftr (to_u64 (Z.lxor (word_diff 0 (d x) (d y)) 0 - 1)) 63 =? 0).

Definition hash (x : Digest) : Z := to_int (match d x with w :: _ => w | [] => 0 end).

Definition bytes_of (x : Digest) : list Z := d x ≫= Msg.le 4.

Definition word (w : Z) : Prop := 0 ≤ w < 2 ^ 32.

Lemma digest_wf (x : Digest) : length (d x) = num_words ∧ Forall word (d x).
Proof.
  destruct x as [l Hl]. cbn. unfold words_okb in Hl. apply andb_true_iff in Hl as [Hlen Hf].
  split; [by apply Nat.eqb_eq|]. apply Forall_forall. intros w Hw.
  rewrite forallb_forall in Hf. specialize (Hf w). rewrite <- list_elem_of_In in Hf.
  specialize (Hf Hw). zprop. done.
Qed.

Lemma digest_eq (x y : Digest) : d x = d y → x = y.
Proof. destruct x as [l Hl], y as [l' Hl']. cbn. intros ->. f_equal. apply proof_irrel. Qed.

#[global] Instance digest_eq_dec : EqDecision Digest.
Proof.
  intros x y. destruct (decide (d x = d y)) as [He|Hne]; [left; by apply digest_eq|right; congruence].
Defined.

Lemma lxor_range a b : word a → word b → word (Z.lxor a b) ∧ (Z.lxor a b = 0 ↔ a = b).
Proof.
  unfold word. intros Ha Hb. split; [|apply Z.lxor_eq_0_iff].
  assert (0 ≤ Z.lxor a b) by (apply Z.lxor_nonneg; lia).
  pose proof (lor_upper 32 a b ltac:(lia) ltac:(lia) ltac:(lia)).
  assert (Z.lor a b = Z.lor (Z.lxor a b) (Z.land a b)) as E.
  { apply Z.bits_inj'. intros n _. rewrite !Z.lor_spec, Z.lxor_spec, Z.land_spec.
    by destruct (Z.testbit a n), (Z.testbit b n). }
  pose proof (lor_lower (Z.lxor a b) (Z.land a b) ltac:(lia) ltac:(apply Z.land_nonneg; lia)). lia.
Qed.

Lemma word_diff_spec l l' acc : length l = length l' → Forall word l → Forall word l' → word acc →
  word (word_diff acc l l') ∧ (word_diff acc l l' = 0 ↔ acc = 0 ∧ l = l').
Proof.
  unfold word_diff. revert l' acc.
  induction l as [|a l IH]; intros [|b l'] acc Hl Hd Hx Hacc; try done.
  { cbn. split; [done|]. split; [done|by intros [? _]]. }
  apply Forall_cons in Hd as [Ha Hd']. apply Forall_cons in Hx as [Hb Hx'].
  destruct (lxor_range a b Ha Hb) as [Hr He]. cbn.
  assert (word (Z.lor acc (Z.lxor a b))) as Hacc' by (apply (lor_upper 32); [lia|apply Hacc|apply Hr]).
  injection Hl as Hl. destruct (IH l' _ Hl Hd' Hx' Hacc') as [Hw Hz]. split; [done|].
  rewrite Hz, Z.lor_eq_0_iff, He. split.
  - by intros [[-> ->] ->].
  - by intros [-> [= -> ->]].
Qed.

(** Digests compare equal exactly when they are: no difference is lost, because the
    words are unsigned and the comparison is done on 64 bits. *)
Lemma operator_eq_spec x y : operator_eq x y = true ↔ x = y.
Proof.
  destruct (digest_wf x) as [Hl1 Hd], (digest_wf y) as [Hl2 Hx]. unfold operator_eq.
  destruct (word_diff_spec (d x) (d y) 0) as [Hw Hz]; [congruence|done|done|unfold word; lia|].
  set (r := word_diff _ _ _) in *. rewrite Z.lxor_0_r, negb_true_iff, Z.eqb_neq, Z.shiftr_div_pow2 by lia.
  unfold word in Hw. unfold to_u64, wrapU. destruct (decide (r = 0)) as [E|E].
  - rewrite E. split; [intros _; by apply digest_eq, Hz|by vm_compute].
  - rewrite Z.mod_small by lia. rewrite Z.div_small by lia. split; [done|].
    intros ->. destruct E. by apply Hz.
Qed.
#[global] Opaque operator_eq.
End Dig.

(** ** Authentication of the fixed part of a message *)
Section messages.
Context (hmac_md : list Z → list Z → list Z) (char_signed : bool).
Context `{Config}.

(** The node state that [verify] consults: the principals with their keys, and
    the primary of a view. *)
Record keys := mkKeys { principals : list Principal; primary_of : Z → Z }.

(** [size() - sizeof(rep) >= auth_size(id)] and the authenticator check. *)
Definition verify_authenticator (k : keys) (id size rep_size : Z) (rep auth : list Z) : outcome bool :=
  if size - rep_size <? auth_size id then Ret false
  else verify_auth hmac_md char_signed (principals k) id rep true auth.

Definition verify_point_mac (k : keys) (id size rep_size : Z) (rep auth : list Z) : outcome bool :=
  if size - rep_size <? HMAC_size then Ret false
  else
    p ← of_option Undefined (i_to_p (principals k) id);
    Ret (verify_mac_in hmac_md char_signed p rep (take (Z.to_nat HMAC_size) auth)).

(** *** Prepare (Prepare.h, Prepare.cc) *)
Record Prepare := mkPrepare {
  p_extra : Z; p_size : Z; p_view : Z; p_seqno : Z; p_digest : Dig.Digest; p_id : Z;
  p_auth : list Z;   (* the bytes behind the fixed part *)
}.

Definition sizeof_Prepare_rep : Z := 64.

Definition prepare_bytes (m : Prepare) : list Z :=
  Msg.header_bytes Msg.Prepare_tag (p_extra m) (p_size m) ++ Msg.le 8 (p_view m) ++ Msg.le 8 (p_seqno m) ++
  Dig.bytes_of (p_digest m) ++ Msg.le 4 (p_id m) ++ Msg.le 4 0.

(** The constructor, for all replicas ([dst] null) or for one of them. *)
Definition new_prepare (k : keys) (v s : Z) (d : Dig.Digest) (dst : option Principal) : outcome Prepare :=
  match dst with
  | None =>
      let m := mkPrepare 0 (Msg.ALIGNED_SIZE (sizeof_Prepare_rep + auth_size (-1))) v s d node_id [] in
      a ← gen_auth hmac_md (principals k) (prepare_bytes m) false;
      Ret (mkPrepare 0 (p_size m) v s d node_id a)
  | Some p =>
      let m := mkPrepare 1 (Msg.ALIGNED_SIZE (sizeof_Prepare_rep + HMAC_size)) v s d node_id [] in
      Ret (mkPrepare 1 (p_size m) v s d node_id (gen_mac_out hmac_md p (prepare_bytes m)))
  end.

Definition prepare_is_proof (m : Prepare) : bool := negb (p_extra m =? 0).

Definition prepare_re_authenticate (k : keys) (m : Prepare) (p : option Principal) : outcome Prepare :=
  let set a := mkPrepare (p_extra m) (p_size m) (p_view m) (p_seqno m) (p_digest m) (p_id m) a in
  if p_extra m =? 0 then
    a ← gen_auth hmac_md (principals k) (prepare_bytes m) false; Ret (set a)
  else p ← of_option Undefined p; Ret (set (gen_mac_out hmac_md p (prepare_bytes m))).

Definition prepare_verify (k : keys) (m : Prepare) : outcome bool :=
  if negb (is_replica (p_id m)) || (p_id m =? node_id) then Ret false
  else if p_extra m =? 0 then
    if primary_of k (p_view m) =? p_id m then Ret false
    else verify_authenticator k (p_id m) (p_size m) sizeof_Prepare_rep (prepare_bytes m) (p_auth m)
  else verify_point_mac k (p_id m) (p_size m) sizeof_Prepare_rep (prepare_bytes m) (p_auth m).

Definition prepare_match (m p : Prepare) : outcome bool :=
  _ ← th_assert ((p_view m =? p_view p) && (p_seqno m =? p_seqno p));
  Ret (Dig.operator_eq (p_digest m) (p_digest p)).

(** *** Commit (Commit.h, Commit.cc) *)
Record Commit := mkCommit {
  c_extra : Z; c_size : Z; c_view : Z; c_seqno : Z; c_id : Z; c_auth : list Z;
}.

Definition sizeof_Commit_rep : Z := 32.

Definition commit_bytes (m : Commit) : list Z :=
  Msg.header_bytes Msg.Commit_tag (c_extra m) (c_size m) ++ Msg.le 8 (c_view m) ++ Msg.le 8 (c_seqno m) ++
  Msg.le 4 (c_id m) ++ Msg.le 4 0.

Definition new_commit (k : keys) (v s : Z) : outcome Commit :=
  let m := mkCommit 0 (Msg.ALIGNED_SIZE (sizeof_Commit_rep + auth_size (-1))) v s node_id [] in
  a ← gen_auth hmac_md (principals k) (commit_bytes m) false;
  Ret (mkCommit 0 (c_size m) v s node_id a).

Definition commit_re_authenticate (k : keys) (m : Commit) : outcome Commit :=
  a ← gen_auth hmac_md (principals k) (commit_bytes m) false;
  Ret (mkCommit (c_extra m) (c_size m) (c_view m) (c_seqno m) (c_id m) a).

Definition commit_verify (k : keys) (m : Commit) : outcome bool :=
  if negb (is_replica (c_id m)) || (c_id m =? node_id) then Ret false
  else verify_authenticator k (c_id m) (c_size m) sizeof_Commit_rep (commit_bytes m) (c_auth m).

Definition commit_match (m c : Commit) : outcome bool :=
  _ ← th_assert ((c_view m =? c_view c) && (c_seqno m =? c_seqno c));
  Ret ((c_view m =? c_view c) && (c_seqno m =? c_seqno c)).

(** *** Checkpoint (Checkpoint.h, Checkpoint.cc) *)
Record Checkpoint := mkCheckpoint {
  k_extra : Z; k_size : Z; k_seqno : Z; k_digest : Dig.Digest; k_id : Z; k_auth : list Z;
}.

Definition sizeof_Checkpoint_rep : Z := 56.

Definition checkpoint_bytes (m : Checkpoint) : list Z :=
  Msg.header_bytes Msg.Checkpoint_tag (k_extra m) (k_size m) ++ Msg.le 8 (k_seqno m) ++
  Dig.bytes_of (k_digest m) ++ Msg.le 4 (k_id m) ++ Msg.le 4 0.

Definition checkpoint_stable (m : Checkpoint) : bool := k_extra m =? 1.

Definition new_checkpoint (k : keys) (s : Z) (d : Dig.Digest) (stable : bool) : outcome Checkpoint :=
  let e := if stable then 1 else 0 in
  let m := mkCheckpoint e (Msg.ALIGNED_SIZE (sizeof_Checkpoint_rep + auth_size (-1))) s d node_id [] in
  a ← gen_auth hmac_md (principals k) (checkpoint_bytes m) false;
  Ret (mkCheckpoint e (k_size m) s d node_id a).

Definition checkpoint_re_authenticate (k : keys) (m : Checkpoint) (stable : bool) : outcome Checkpoint :=
  let e := if stable then 1 else k_extra m in
  let m := mkCheckpoint e (k_size m) (k_seqno m) (k_digest m) (k_id m) [] in
  a ← gen_auth hmac_md (principals k) (checkpoint_bytes m) false;
  Ret (mkCheckpoint e (k_size m) (k_seqno m) (k_digest m) (k_id m) a).

Definition checkpoint_verify (k : keys) (m : Checkpoint) : outcome bool :=
  if negb (is_replica (k_id m)) then Ret false
  else verify_authenticator k (k_id m) (k_size m) sizeof_Checkpoint_rep (checkpoint_bytes m) (k_auth m).

Definition checkpoint_match (m c : Checkpoint) : outcome bool :=
  _ ← th_assert (k_seqno m =? k_seqno c);
  Ret (Dig.operator_eq (k_digest m) (k_digest c)).

(** *** View_change_ack (View_change_ack.h, View_change_ack.cc) *)
Record View_change_ack := mkVcAck {
  a_extra : Z; a_size : Z; a_view : Z; a_id : Z; a_vcid : Z; a_vcd : Dig.Digest; a_mac : list Z;
}.

Definition sizeof_View_change_ack_rep : Z := 56.

(** The class itself: a vtable-free object of a pointer and an [int]. *)
Definition sizeof_View_change_ack : Z := 16.

Definition vc_ack_bytes (m : View_change_ack) : list Z :=
  Msg.header_bytes Msg.View_change_ack_tag (a_extra m) (a_size m) ++ Msg.le 8 (a_view m) ++
  Msg.le 4 (a_id m) ++ Msg.le 4 (a_vcid m) ++ Dig.bytes_of (a_vcd m).

Definition new_vc_ack (k : keys) (v vcid : Z) (vcd : Dig.Digest) : outcome View_change_ack :=
  let m := mkVcAck 0 (Msg.ALIGNED_SIZE (sizeof_View_change_ack_rep + HMAC_size)) v node_id vcid vcd [] in
  p ← of_option Undefined (i_to_p (principals k) (primary_of k v));
  Ret (mkVcAck 0 (a_size m) v node_id vcid vcd (gen_mac_out hmac_md p (vc_ack_bytes m))).

Definition vc_ack_re_authenticate (m : View_change_ack) (p : Principal) : View_change_ack :=
  mkVcAck (a_extra m) (a_size m) (a_view m) (a_id m) (a_vcid m) (a_vcd m) (gen_mac_out hmac_md p (vc_ack_bytes m)).

Definition vc_ack_verify (k : keys) (m : View_change_ack) : outcome bool :=
  if negb (is_replica (a_id m)) || (a_id m =? node_id) || (a_id m =? a_vcid m) ||
     (primary_of k (a_view m) =? a_id m) then Ret false
  else if (a_view m <=? 0) || negb (is_replica (a_vcid m)) then Ret false
  else if a_size m - sizeof_View_change_ack <? HMAC_size then Ret false
  else
    p ← of_option Undefined (i_to_p (principals k) (a_id m));
    if is_initialized (hmac_in p) && (zlen (a_mac m) <? HMAC_size) then Err Undefined
    else Ret (verify_mac_in hmac_md char_signed p (vc_ack_bytes m) (take (Z.to_nat HMAC_size) (a_mac m))).

Definition vc_ack_match (m p : View_change_ack) : outcome bool :=
  _ ← th_assert (a_view m =? a_view p);
  Ret ((a_vcid m =? a_vcid p) && Dig.operator_eq (a_vcd m) (a_vcd p)).

(** *** Reply (Reply.h, Reply.cc) *)
Context (digest_of : list Z → Dig.Digest).

Record Reply := mkReply {
  r_extra : Z; r_size : Z; r_view : Z; r_rid : Z; r_digest : Dig.Digest; r_replica : Z;
  r_reply_size : Z;   (* negative: the reply is not full *)
  r_body : list Z;    (* the reply and the code *)
}.

Definition sizeof_Reply_rep : Z := 64.
Definition Reply_tag : Z := 2.

Definition reply_bytes (r : Reply) : list Z :=
  Msg.header_bytes Reply_tag (r_extra r) (r_size r) ++ Msg.le 8 (r_view r) ++ Msg.le 8 (r_rid r) ++
  Dig.bytes_of (r_digest r) ++ Msg.le 4 (r_replica r) ++ Msg.le 4 (r_reply_size r).

Definition reply_full (r : Reply) : bool := r_reply_size r >=? 0.
Definition reply_is_tentative (r : Reply) : bool := negb (r_extra r =? 0).

(** [authenticate] on a message whose body already holds the reply. *)
Definition reply_authenticate (p : Principal) (max_size : Z) (r : Reply) (act_len : Z) (tentative : bool)
    : outcome Reply :=
  _ ← th_assert (act_len <=? max_size - sizeof_Reply_rep - HMAC_size);
  let body := take (Z.to_nat act_len) (r_body r) in
  let r := mkReply (if tentative then 1 else r_extra r)
             (Msg.ALIGNED_SIZE (sizeof_Reply_rep + act_len + HMAC_size)) (r_view r) (r_rid r)
             (digest_of body) (r_replica r) act_len body in
  Ret (mkReply (r_extra r) (r_size r) (r_view r) (r_rid r) (r_digest r) (r_replica r) (r_reply_size r)
         (body ++ gen_mac_out hmac_md p (reply_bytes r))).

Definition reply_mac_bytes (r : Reply) (rep_size : Z) : list Z :=
  take (Z.to_nat HMAC_size) (drop (Z.to_nat rep_size) (r_body r)).

Definition reply_verify (k : keys) (r : Reply) : outcome bool :=
  if negb (is_replica (r_replica r)) then Ret false
  else
    let rep_size := if reply_full r then r_reply_size r else 0 in
    if r_size r - sizeof_Reply_rep - rep_size <? HMAC_size then Ret false
    else if reply_full r &&
            negb (Dig.operator_eq (digest_of (take (Z.to_nat rep_size) (r_body r))) (r_digest r))
    then Ret false
    else
      p ← of_option Undefined (i_to_p (principals k) (r_replica r));
      Ret (verify_mac_in hmac_md char_signed p (reply_bytes r) (reply_mac_bytes r rep_size)).

Definition reply_match (r r' : Reply) : bool :=
  Dig.operator_eq (r_digest r) (r_digest r') &&
  (negb (reply_is_tentative r) || reply_is_tentative r' || (r_view r =? r_view r')).
End messages.

(** ** Certified messages *)
#[export] Instance prepare_eq_dec : EqDecision Prepare.
Proof. solve_decision. Defined.
#[export] Instance commit_eq_dec : EqDecision Commit.
Proof. solve_decision. Defined.
#[export] Instance checkpoint_eq_dec : EqDecision Checkpoint.
Proof. solve_decision. Defined.

#[export] Instance prepare_msg : CertMsg Prepare :=
  { msg_id := p_id; msg_match := prepare_match; msg_full _ := true }.
#[export] Instance commit_msg : CertMsg Commit :=
  { msg_id := c_id; msg_match := commit_match; msg_full _ := true }.
#[export] Instance checkpoint_msg : CertMsg Checkpoint :=
  { msg_id := k_id; msg_match := checkpoint_match; msg_full _ := true }.
#[export] Instance reply_msg : CertMsg Reply :=
  { msg_id := r_replica; msg_match r r' := Ret (reply_match r r'); msg_full := reply_full }.

(** What the messages vote for. *)
Definition commit_value (m : Commit) : Z * Z := (c_view m, c_seqno m).
Definition prepare_value (m : Prepare) : Z * Z * Dig.Digest := (p_view m, p_seqno m, p_digest m).
Definition checkpoint_value (m : Checkpoint) : Z * Dig.Digest := (k_seqno m, k_digest m).

Lemma commit_match_spec a b : commit_match a b = Ret true ↔ commit_value a = commit_value b.
Proof.
  unfold commit_match, commit_value. destruct (_ && _) eqn:E; cbn [th_assert mbind outcome_bind].
  - apply andb_true_iff in E as [E1%Z.eqb_eq E2%Z.eqb_eq]. by rewrite E1, E2.
  - split; [done|]. intros He. injection He as H1 H2. by rewrite H1, H2, !Z.eqb_refl in E.
Qed.

Lemma digest_eqb_Ret x y : Ret (Dig.operator_eq x y) = Ret true ↔ x = y.
Proof. rewrite <- Dig.operator_eq_spec. split; [by intros [= ->]|by intros ->]. Qed.

Lemma prepare_match_spec a b : prepare_match a b = Ret true ↔ prepare_value a = prepare_value b.
Proof.
  unfold prepare_match, prepare_value. destruct (_ && _) eqn:E; cbn [th_assert mbind outcome_bind].
  - apply andb_true_iff in E as [E1%Z.eqb_eq E2%Z.eqb_eq]. rewrite digest_eqb_Ret, E1, E2.
    split; [by intros ->|intros He; by injection He].
  - split; [done|]. intros He. injection He as H1 H2 _. by rewrite H1, H2, !Z.eqb_refl in E.
Qed.

Lemma checkpoint_match_spec a b : checkpoint_match a b = Ret true ↔ checkpoint_value a = checkpoint_value b.
Proof.
  unfold checkpoint_match, checkpoint_value. destruct (_ =? _) eqn:E; cbn [th_assert mbind outcome_bind].
  - apply Z.eqb_eq in E. rewrite digest_eqb_Ret, E. split; [by intros ->|intros He; by injection He].
  - split; [done|]. intros He. injection He as H1 _. by rewrite H1, Z.eqb_refl in E.
Qed.

Lemma reply_match_val a b : msg_match a b = Ret true → r_digest a = r_digest b.
Proof.
  change (msg_match a b) with (Ret (reply_match a b)).
  assert (∀ c : bool, Ret c = Ret true → c = true) as Hinj by congruence.
  intros Hm%Hinj. apply andb_true_iff in Hm as [Hd _]. by apply Dig.operator_eq_spec.
Qed.

#[export] Instance commit_val : CertVal Commit (Z * Z) :=
  { msg_val := commit_value; match_val a b := proj1 (commit_match_spec a b) }.
#[export] Instance prepare_val : CertVal Prepare (Z * Z * Dig.Digest) :=
  { msg_val := prepare_value; match_val a b := proj1 (prepare_match_spec a b) }.
#[export] Instance checkpoint_val : CertVal Checkpoint (Z * Dig.Digest) :=
  { msg_val := checkpoint_value; match_val a b := proj1 (checkpoint_match_spec a b) }.
#[export] Instance reply_val : CertVal Reply Dig.Digest :=
  { msg_val := r_digest; match_val := reply_match_val }.

(** ** Properties *)

(** Two replicas with a shared session key, in the direction from the first to the
    second. *)
Record linked (c1 c2 : Config) (ps1 ps2 : list Principal) : Prop := {
  l_ok1 : ConfigOk (H := c1);
  l_ok2 : ConfigOk (H := c2);
  l_group : same_group c1 c2;
  l_ne : @node_id c1 ≠ @node_id c2;
  l_rep1 : @node_id c1 < @num_replicas c1;
  l_rep2 : @node_id c2 < @num_replicas c2;
  l_len1 : zlen ps1 = @num_principals c1;
  l_len2 : zlen ps2 = @num_principals c2;
  l_keys : ∃ p1 p2, zget ps1 (@node_id c2) = Some p1 ∧ zget ps2 (@node_id c1) = Some p2 ∧
    initialized_ (hmac_in p2) = true ∧ key (hmac_in p2) = key (hmac_out p1);
}.

Section round_trip.
Context (hmac_md : list Z → list Z → list Z) (char_signed : bool).
Context (hmac_md_length : ∀ k d, length (hmac_md k d) = Z.to_nat HMAC_size).
Context (hmac_md_bytes : ∀ k d, bytes (hmac_md k d)).
Context (c1 c2 : Config) (k1 k2 : keys).
Context (Hlink : linked c1 c2 (principals k1) (principals k2)).

Lemma sender_is_replica : is_replica (H := c2) (@node_id c1) = true.
Proof.
  apply is_replica_spec. destruct Hlink as [Hok1 Hok2 [Hf _] _ Hr1 _ _ _ _].
  pose proof (@config_id c1 Hok1). unfold num_replicas in *. rewrite <- Hf. lia.
Qed.

Lemma authenticator_accepted rep rep_size size :
  @auth_size c1 (-1) ≤ size - rep_size →
  ∃ a, gen_auth (H := c1) hmac_md (principals k1) rep false = Ret a ∧
    verify_authenticator (H := c2) hmac_md char_signed k2 (@node_id c1) size rep_size rep a = Ret true.
Proof.
  intros Hsz. destruct Hlink as [Hok1 Hok2 Hg Hne Hr1 Hr2 Hl1 Hl2 (p1 & p2 & Hp1 & Hp2 & Hi & Hk)].
  destruct (verify_auth_gen hmac_md hmac_md_length char_signed c1 c2
    (principals k1) (principals k2) p1 p2 rep rep) as (a & Ha & _ & Hv); try done.
  exists a. split; [done|]. unfold verify_authenticator.
  assert (@auth_size c2 (@node_id c1) = @auth_size c1 (-1)) as Hau.
  { pose proof (@config_id c1 Hok1). destruct Hg as [Hf _].
    assert (@num_replicas c2 = @num_replicas c1) as Hn by (unfold num_replicas; by rewrite Hf).
    unfold auth_size. rewrite Hn. change (-1 <? 0) with true. cbv iota.
    rewrite (proj2 (Z.ltb_ge (@node_id c1) 0)) by lia. done. }
  rewrite Hau, (proj2 (Z.ltb_ge _ _)) by done. rewrite Hv, equal_refl; [done|apply hmac_md_bytes].
Qed.

Lemma auth_size_pos : 0 ≤ @auth_size c1 (-1) < 2 ^ 30 ∧ @auth_size c1 (-1) `mod` 8 = 0.
Proof.
  destruct Hlink as [Hok1 _ _ _ Hr1 _ _ _ _].
  pose proof (@config_id c1 Hok1). pose proof (@config_faulty c1 Hok1).
  pose proof (@config_replicas c1 Hok1). pose proof (@config_max_replicas c1 Hok1).
  unfold auth_size, HMAC_size. change (-1 <? 0) with true. cbv iota.
  rewrite (proj2 (Z.ltb_lt (@node_id c1) _)) by done.
  unfold num_replicas in *. split; [lia|].
  replace ((3 * @max_faulty c1 + 1 - 1) * 32) with ((12 * @max_faulty c1) * 8) by lia.
  apply Z.mod_mul. lia.
Qed.

Lemma room_for_auth rep_size : 0 ≤ rep_size < 2 ^ 30 →
  @auth_size c1 (-1) ≤ Msg.ALIGNED_SIZE (rep_size + @auth_size c1 (-1)) - rep_size.
Proof.
  intros Hr. pose proof auth_size_pos as [Ha _].
  destruct (Msg.aligned_size_spec (rep_size + @auth_size c1 (-1))) as [Hs _]; lia.
Qed.
End round_trip.

(** A prepare, commit or checkpoint message that a replica creates for all
    replicas passes [verify] at every other replica that holds its session key
    (a prepare, unless its sender is the primary of its view). *)
Theorem messages_verify_at_receiver hmac_md (char_signed : bool) (c1 c2 : Config) (k1 k2 : keys) :
  (∀ k d, length (hmac_md k d) = Z.to_nat HMAC_size) → (∀ k d, bytes (hmac_md k d)) →
  linked c1 c2 (principals k1) (principals k2) →
  (∀ v s d, primary_of k2 v ≠ @node_id c1 →
     ∃ m, new_prepare (H := c1) hmac_md k1 v s d None = Ret m ∧
       prepare_verify (H := c2) hmac_md char_signed k2 m = Ret true) ∧
  (∀ v s, ∃ m, new_commit (H := c1) hmac_md k1 v s = Ret m ∧
     commit_verify (H := c2) hmac_md char_signed k2 m = Ret true) ∧
  (∀ s d st, ∃ m, new_checkpoint (H := c1) hmac_md k1 s d st = Ret m ∧
     checkpoint_verify (H := c2) hmac_md char_signed k2 m = Ret true).
Proof.
  intros Hlen Hb Hl. pose proof (sender_is_replica c1 c2 k1 k2 Hl) as Hrep.
  pose proof (l_ne _ _ _ _ Hl) as Hne.
  split_and!.
  - intros v s d Hp. unfold new_prepare.
    destruct (authenticator_accepted hmac_md char_signed Hlen Hb c1 c2 k1 k2 Hl
      (prepare_bytes (mkPrepare 0 (Msg.ALIGNED_SIZE (sizeof_Prepare_rep + @auth_size c1 (-1))) v s d (@node_id c1) []))
      sizeof_Prepare_rep (Msg.ALIGNED_SIZE (sizeof_Prepare_rep + @auth_size c1 (-1)))) as (a & -> & Hv).
    { apply (room_for_auth c1 c2 k1 k2 Hl). unfold sizeof_Prepare_rep. lia. }
    cbn. eexists. split; [done|]. unfold prepare_verify. cbn. rewrite Hrep.
    rewrite !(proj2 (Z.eqb_neq _ _)) by done. exact Hv.
  - intros v s. unfold new_commit.
    destruct (authenticator_accepted hmac_md char_signed Hlen Hb c1 c2 k1 k2 Hl
      (commit_bytes (mkCommit 0 (Msg.ALIGNED_SIZE (sizeof_Commit_rep + @auth_size c1 (-1))) v s (@node_id c1) []))
      sizeof_Commit_rep (Msg.ALIGNED_SIZE (sizeof_Commit_rep + @auth_size c1 (-1)))) as (a & -> & Hv).
    { apply (room_for_auth c1 c2 k1 k2 Hl). unfold sizeof_Commit_rep. lia. }
    cbn. eexists. split; [done|]. unfold commit_verify. cbn. rewrite Hrep.
    rewrite (proj2 (Z.eqb_neq _ _)) by done. exact Hv.
  - intros s d st. unfold new_checkpoint.
    destruct (authenticator_accepted hmac_md char_signed Hlen Hb c1 c2 k1 k2 Hl
      (checkpoint_bytes (mkCheckpoint (if st then 1 else 0)
        (Msg.ALIGNED_SIZE (sizeof_Checkpoint_rep + @auth_size c1 (-1))) s d (@node_id c1) []))
      sizeof_Checkpoint_rep (Msg.ALIGNED_SIZE (sizeof_Checkpoint_rep + @auth_size c1 (-1)))) as (a & -> & Hv).
    { apply (room_for_auth c1 c2 k1 k2 Hl). unfold sizeof_Checkpoint_rep. lia. }
    cbn. eexists. split; [done|]. unfold checkpoint_verify. cbn. rewrite Hrep. exact Hv.
Qed.

Definition sample_keys (primary : Z) : keys := mkKeys sample_principals (λ _, primary).

Lemma sample_linked :
  linked (default_config 1 1) (default_config 1 2) sample_principals sample_principals.
Proof.
  split; [split; vm_compute; intuition congruence|split; vm_compute; intuition congruence|
    split; reflexivity|discriminate|reflexivity|reflexivity|reflexivity|reflexivity|].
  do 2 eexists. split; [reflexivity|]. split; [reflexivity|]. split; reflexivity.
Qed.

Lemma messages_verify_at_receiver_witness :
  (∀ v s d, primary_of (sample_keys 0) v ≠ 1 →
     ∃ m, new_prepare (H := default_config 1 1) sample_md (sample_keys 0) v s d None = Ret m ∧
       prepare_verify (H := default_config 1 2) sample_md true (sample_keys 0) m = Ret true) ∧
  (∀ v s, ∃ m, new_commit (H := default_config 1 1) sample_md (sample_keys 0) v s = Ret m ∧
     commit_verify (H := default_config 1 2) sample_md true (sample_keys 0) m = Ret true) ∧
  (∀ s d st, ∃ m, new_checkpoint (H := default_config 1 1) sample_md (sample_keys 0) s d st = Ret m ∧
     checkpoint_verify (H := default_config 1 2) sample_md true (sample_keys 0) m = Ret true).
Proof.
  apply (messages_verify_at_receiver sample_md true (default_config 1 1) (default_config 1 2)
    (sample_keys 0) (sample_keys 0)).
  - reflexivity.
  - intros k d. apply Forall_replicate. apply Z.mod_pos_bound. lia.
  - exact sample_linked.
Defined.

(** Whatever the keys, a prepare that passes [verify] names a replica other than
    the receiver; one that is addressed to all replicas does not name the primary of
    its view either, while one sent as a proof may.  The same holds of commits and of
    the other checks on identifiers. *)
Theorem verify_rejects_own_names hmac_md (char_signed : bool) `{Config} (k : keys) :
  (∀ m, prepare_verify hmac_md char_signed k m = Ret true →
     is_replica (p_id m) = true ∧ p_id m ≠ node_id ∧
     (prepare_is_proof m = false → primary_of k (p_view m) ≠ p_id m)) ∧
  (∀ m, commit_verify hmac_md char_signed k m = Ret true → is_replica (c_id m) = true ∧ c_id m ≠ node_id) ∧
  (∀ m, checkpoint_verify hmac_md char_signed k m = Ret true → is_replica (k_id m) = true ∧ k_id m ≠ node_id).
Proof.
  split_and!.
  - intros m. unfold prepare_verify, prepare_is_proof.
    destruct (is_replica (p_id m)) eqn:Hr; [|done]. destruct (p_id m =? node_id) eqn:Hn; [done|]. cbn [negb orb].
    apply Z.eqb_neq in Hn. destruct (p_extra m =? 0); [|by intros _].
    destruct (primary_of k (p_view m) =? p_id m) eqn:Hp; [done|]. apply Z.eqb_neq in Hp. by intros _.
  - intros m. unfold commit_verify.
    destruct (is_replica (c_id m)) eqn:Hr; [|done]. destruct (c_id m =? node_id) eqn:Hn; [done|].
    apply Z.eqb_neq in Hn. by intros _.
  - intros m. unfold checkpoint_verify.
    destruct (is_replica (k_id m)) eqn:Hr; [|done]. cbn [negb]. intros Hv. split; [done|]. intros He.
    unfold verify_authenticator, verify_auth in Hv. destruct (_ <? _) in Hv; [done|].
    apply outcome_bind_Ret in Hv as (u & _ & Hv).
    destruct (i_to_p _ _); [|done]. rewrite decide_True in Hv by done. done.
Qed.

(** The size check of a view-change acknowledgement measures the class instead of
    its contents, so it never fails on a message long enough for the fixed part:
    one that carries no code at all is read behind its end. *)
Theorem vc_ack_verify_reads_past_end hmac_md (char_signed : bool) `{Config} (k : keys)
    (m : View_change_ack) (p : Principal) :
  is_replica (a_id m) = true → a_id m ≠ node_id → a_id m ≠ a_vcid m →
  primary_of k (a_view m) ≠ a_id m → 0 < a_view m → is_replica (a_vcid m) = true →
  a_size m = sizeof_View_change_ack_rep → a_mac m = [] →
  i_to_p (principals k) (a_id m) = Some p → is_initialized (hmac_in p) = true →
  vc_ack_verify hmac_md char_signed k m = Err Undefined.
Proof.
  intros Hr Hn Hv Hp Hview Hvr Hsz Hmac Hip Hinit. unfold vc_ack_verify.
  rewrite Hr, Hvr, !(proj2 (Z.eqb_neq _ _)), (proj2 (Z.leb_gt _ _)) by done. cbn [negb orb].
  rewrite Hsz, Hip, Hmac. cbn. by rewrite Hinit.
Qed.

Lemma vc_ack_verify_reads_past_end_witness :
  vc_ack_verify (H := default_config 1 2) sample_md true (sample_keys 1)
    (mkVcAck 0 56 1 0 3 Dig.zero []) = Err Undefined.
Proof.
  refine (vc_ack_verify_reads_past_end sample_md true (H := default_config 1 2) (sample_keys 1)
    (mkVcAck 0 56 1 0 3 Dig.zero [])
    (mkPrincipal 0 1 1 0 (mkHmac true [1; 2] []) (mkHmac true [1; 2] [])) _ _ _ _ _ _ _ _ _ _);
    try reflexivity; discriminate.
Defined.
