(* ===== verification/PreparedCert.v ===== *)
(** * PreparedCert: the pre-prepare of a sequence number and its prepares
    (src/src/Prepared_cert.h, src/src/Prepared_cert.cc)

    The pre-prepare message is a parameter with the accessors that the code uses
    ([PrePrepareMsg]) and its two verification modes: [pp_verify] checks the sender,
    the digest and the requests, [pp_verify_NRC] leaves the requests unchecked.
    [prim] is [Node::primary(View)] and [cur_prim] [Node::primary()]. *)
From stdpp Require Import gmap.
From S2P Require Import Prelude Node Bitmap Certificate Messages.

Class PrePrepareMsg (PP : Type) := {
  pp_view : PP → Z;
  pp_seqno : PP → Z;
  pp_digest : PP → Dig.Digest;
}.

Module PCert.
Section prepared_cert.
Context `{Config} {PP : Type} `{PrePrepareMsg PP}.
Context (verify : Prepare → bool) (pp_verify pp_verify_NRC : PP → bool).
Context (prim : Z → Z) (cur_prim : Z).

(** [Pre_prepare::match] *)
Definition pp_match (m : PP) (p : Prepare) : outcome bool :=
  _ ← th_assert ((pp_view m =? p_view p) && (pp_seqno m =? p_seqno p));
  Ret (Dig.operator_eq (pp_digest m) (p_digest p)).

Record Prepared_cert := mkPCert {
  pc : Cert.Certificate Prepare;
  pp : option PP;
  t_sent : Z;
  primary : bool;         (* true iff pp was added with add_mine *)
}.

Definition make : Prepared_cert := mkPCert (Cert.make (max_faulty * 2)) None 0 false.

Definition with_pc (x : Prepared_cert) (c : Cert.Certificate Prepare) : Prepared_cert :=
  mkPCert c (pp x) (t_sent x) (primary x).
Definition with_pp (x : Prepared_cert) (m : option PP) : Prepared_cert :=
  mkPCert (pc x) m (t_sent x) (primary x).

Definition add_prepare (x : Prepared_cert) (m : Prepare) : outcome (bool * Prepared_cert) :=
  '(r, c) ← Cert.add verify (pc x) m; Ret (r, with_pc x c).

Definition add_mine_prepare (x : Prepared_cert) (m : Prepare) (now : Z) : outcome (bool * Prepared_cert) :=
  _ ← th_assert (negb (node_id =? prim (p_view m)));
  '(r, c) ← Cert.add_mine (pc x) m now; Ret (r, with_pc x c).

Definition add_mine_pp (x : Prepared_cert) (m : PP) (now : Z) : outcome (bool * Prepared_cert) :=
  _ ← th_assert (node_id =? prim (pp_view m));
  _ ← th_assert (bool_decide (is_Some (pp x) → False));
  Ret (true, mkPCert (pc x) (Some m) now true).

Definition add_old (x : Prepared_cert) (m : PP) : outcome Prepared_cert :=
  _ ← th_assert (bool_decide (is_Some (pp x) → False));
  Ret (with_pp x (Some m)).

Definition my_prepare (x : Prepared_cert) : option Prepare := Cert.mine (pc x).
Definition my_pre_prepare (x : Prepared_cert) : option PP := if primary x then pp x else None.
Definition num_correct (x : Prepared_cert) : Z := Cert.num_correct (pc x).

Definition is_complete (x : Prepared_cert) : outcome bool :=
  match pp x with
  | None => Ret false
  | Some m =>
      if Cert.is_complete (pc x) then
        v ← of_option Undefined (Cert.cvalue (pc x)); pp_match m v
      else Ret false
  end.

Definition is_pp_complete (x : Prepared_cert) : bool := bool_decide (is_Some (pp x)).
Definition pre_prepare (x : Prepared_cert) : option PP := pp x.
Definition rem_pre_prepare (x : Prepared_cert) : option PP * Prepared_cert := (pp x, with_pp x None).
Definition prepare (x : Prepared_cert) : option Prepare := Cert.cvalue (pc x).

(** The loops over [Val_iter]: is there a value with [f] votes that matches [m]? *)
Fixpoint has_value (n : nat) (c : Cert.Certificate Prepare) (next : Z) (m : PP) : outcome bool :=
  match n with
  | O => Ret false
  | S n =>
      match Cert.val_iter_get c next with
      | (None, _) => Ret false
      | (Some (val, vc), next) =>
          ok ← (if vc >=? max_faulty then v ← of_option Undefined val; pp_match m v else Ret false);
          if ok : bool then Ret true else has_value n c next m
      end
  end.

Definition value_loop (c : Cert.Certificate Prepare) (m : PP) : outcome bool :=
  has_value (S (Z.to_nat (Cert.cur_size c))) c 0 m.

Definition is_pp_correct (x : Prepared_cert) : outcome bool :=
  match pp x with Some m => value_loop (pc x) m | None => Ret false end.

Definition add_pp (x : Prepared_cert) (m : PP) : outcome (bool * Prepared_cert) :=
  match pp x with
  | Some _ => Ret (false, x)
  | None =>
      match Cert.mine (pc x) with
      | None =>
          if pp_verify m then Ret (true, with_pp x (Some m))
          else if pp_verify_NRC m then
            ok ← value_loop (pc x) m;
            if ok : bool then Ret (true, with_pp x (Some m)) else Ret (false, x)
          else Ret (false, x)
      | Some p =>
          b ← pp_match m p;
          if b && pp_verify_NRC m then Ret (true, with_pp x (Some m)) else Ret (false, x)
      end
  end.

Definition mark_stale (x : Prepared_cert) : outcome Prepared_cert :=
  b ← is_complete x;
  if b : bool then Ret x
  else
    c ← Cert.mark_stale (pc x);
    Ret (mkPCert c (if cur_prim =? node_id then pp x else None) (t_sent x) (primary x)).

Definition clear (x : Prepared_cert) : Prepared_cert := mkPCert (Cert.clear (pc x)) None 0 false.

Definition is_empty (x : Prepared_cert) : bool := bool_decide (pp x = None) && Cert.is_empty (pc x).

(** ** Reachable certificates *)
Inductive reaches : list Prepare → list PP → Prepared_cert → Prop :=
| reach_new : reaches [] [] make
| reach_prepare hs ps x m r x' : reaches hs ps x → add_prepare x m = Ret (r, x') → reaches (m :: hs) ps x'
| reach_mine_prepare hs ps x m now r x' : reaches hs ps x → my_prepare x = None →
    add_mine_prepare x m now = Ret (r, x') → reaches (m :: hs) ps x'
| reach_pp hs ps x m r x' : reaches hs ps x → add_pp x m = Ret (r, x') → reaches hs (m :: ps) x'
| reach_mine_pp hs ps x m now r x' : reaches hs ps x → add_mine_pp x m now = Ret (r, x') →
    reaches hs (m :: ps) x'
| reach_old hs ps x m x' : reaches hs ps x → add_old x m = Ret x' → reaches hs (m :: ps) x'
| reach_rem hs ps x : reaches hs ps x → reaches hs ps (rem_pre_prepare x).2
| reach_stale hs ps x x' : reaches hs ps x → mark_stale x = Ret x' → reaches hs ps x'
| reach_clear hs ps x : reaches hs ps x → reaches hs ps (clear x).

Lemma reaches_pc hs ps x : reaches hs ps x → Cert.reaches verify (max_faulty * 2) hs (pc x).
Proof.
  induction 1 as [|hs ps x m r x' _ IH Ha|hs ps x m now r x' _ IH Hm Ha|hs ps x m r x' _ IH Ha|
    hs ps x m now r x' _ IH Ha|hs ps x m x' _ IH Ha|hs ps x _ IH|hs ps x x' _ IH Hs|hs ps x _ IH].
  - constructor.
  - apply outcome_bind_Ret in Ha as ([r' c] & Ha & He). injection He as <- <-.
    by eapply Cert.reach_add.
  - apply outcome_bind_Ret in Ha as (u & _ & Ha).
    apply outcome_bind_Ret in Ha as ([r' c] & Ha & He). injection He as <- <-.
    by eapply Cert.reach_mine.
  - assert (pc x' = pc x) as ->; [|done]. unfold add_pp in Ha.
    destruct (pp x); [by injection Ha as _ <-|]. destruct (Cert.mine (pc x)).
    + apply outcome_bind_Ret in Ha as (b & _ & Ha). destruct (b && _); by injection Ha as _ <-.
    + destruct (pp_verify m); [by injection Ha as _ <-|].
      destruct (pp_verify_NRC m); [|by injection Ha as _ <-].
      apply outcome_bind_Ret in Ha as ([] & _ & Ha); by injection Ha as _ <-.
  - unfold add_mine_pp in Ha. by invert_outcome.
  - unfold add_old in Ha. by invert_outcome.
  - done.
  - apply outcome_bind_Ret in Hs as ([] & _ & Hs); [by injection Hs as <-|].
    apply outcome_bind_Ret in Hs as (c & Hc & He). injection He as <-. by eapply Cert.reach_stale.
  - by apply Cert.reach_clear.
Qed.

Lemma pp_match_spec m p : pp_match m p = Ret true ↔
  prepare_value p = (pp_view m, pp_seqno m, pp_digest m).
Proof.
  unfold pp_match, prepare_value. destruct (_ && _) eqn:E; cbn [th_assert mbind outcome_bind].
  - apply andb_true_iff in E as [E1%Z.eqb_eq E2%Z.eqb_eq]. rewrite digest_eqb_Ret, E1, E2.
    split; [by intros ->|intros He; by injection He].
  - split; [done|]. intros He. injection He as H1 H2 _. by rewrite H1, H2, !Z.eqb_refl in E.
Qed.

(** *** The iteration over the values *)
Lemma has_value_spec n c next m : has_value n c next m = Ret true →
  ∃ i v k, zget (Cert.vals c) i = Some (Cert.mkVal (Some v) k) ∧ max_faulty ≤ k ∧
    next ≤ i < Cert.cur_size c ∧ prepare_value v = (pp_view m, pp_seqno m, pp_digest m).
Proof.
  revert next. induction n as [|n IH]; intros next Hv; cbn in Hv; [done|].
  unfold Cert.val_iter_get in Hv. destruct (next <? _) eqn:Hlt; [|done]. apply Z.ltb_lt in Hlt.
  destruct (zget (Cert.vals c) next) as [[vm k]|] eqn:Hget; [|done]. cbn in Hv.
  apply outcome_bind_Ret in Hv as ([] & Hok & Hv).
  - destruct (k >=? max_faulty) eqn:Hk; [|done]. zprop. destruct vm as [v|]; [|done]. cbn in Hok.
    exists next, v, k. do 2 (split; [done|]). split; [lia|]. by apply pp_match_spec.
  - destruct (IH (next + 1) Hv) as (i & v & k' & ? & ? & ? & ?). exists i, v, k'. do 2 (split; [done|]). split; [lia|done].
Qed.
End prepared_cert.
Arguments Prepared_cert : clear implicits.

(** The quorum behind a complete certificate. *)
Lemma prepared_quorum `{Config} {PP} `{PrePrepareMsg PP} (Hc : ConfigOk)
    (verify : Prepare → bool) (pp_verify pp_verify_NRC : PP → bool) (prim : Z → Z) (cur_prim : Z)
    (hs : list Prepare) (ps : list PP) (x : Prepared_cert PP) :
  1 ≤ max_faulty → reaches verify pp_verify pp_verify_NRC prim cur_prim hs ps x →
  is_complete x = Ret true →
  ∃ m (Q : gset Z), pre_prepare x = Some m ∧ 2 * max_faulty ≤ Z.of_nat (size Q) ∧
    ∀ q, q ∈ Q → ∃ p, p ∈ hs ∧ p_id p = q ∧ prepare_value p = (pp_view m, pp_seqno m, pp_digest m) ∧
      ((is_replica q = true ∧ verify p = true) ∨ q = node_id).
Proof.
  intros Hf Hr%reaches_pc Hcomp. unfold is_complete in Hcomp.
  destruct (pp x) as [m|] eqn:Hpp; [|done].
  destruct (Cert.is_complete (pc x)) eqn:Hcc; [|done].
  apply outcome_bind_Ret in Hcomp as (v & Hv & Hm). apply of_option_Ret in Hv.
  assert (Cert.threshold_of (max_faulty * 2) = max_faulty * 2) as Ht.
  { unfold Cert.threshold_of. by zbool. }
  destruct (Cert.complete_quorum verify _ hs (pc x) Hr) as (v' & Q & Hv' & Hsz & HQ); [lia|done|].
  rewrite Hv in Hv'. injection Hv' as <-. exists m, Q. split; [done|]. split; [lia|].
  intros q Hq. destruct (HQ q Hq) as (p & Hp & Hid & Hval & Ha). exists p. split_and!; try done.
  transitivity (prepare_value v); [exact Hval|]. by apply pp_match_spec.
Qed.

(** C5: a prepared certificate that is complete holds a pre-prepare and is backed by
    prepares of at least [2f] distinct principals for exactly its view, sequence
    number and digest, each authenticated as a replica's or the node's own: with the
    sender of the pre-prepare they are the [2f+1] replicas of a quorum. *)
Theorem prepared_cert_quorum `{Config} {PP} `{PrePrepareMsg PP} (Hc : ConfigOk)
    (verify : Prepare → bool) (pp_verify pp_verify_NRC : PP → bool) (prim : Z → Z) (cur_prim : Z)
    (hs : list Prepare) (ps : list PP) (x : Prepared_cert PP) :
  1 ≤ max_faulty → reaches verify pp_verify pp_verify_NRC prim cur_prim hs ps x →
  is_complete x = Ret true →
  ∃ m (Q : gset Z), pre_prepare x = Some m ∧ 2 * max_faulty ≤ Z.of_nat (size Q) ∧
    ∀ q, q ∈ Q → ∃ p, p ∈ hs ∧ p_id p = q ∧ prepare_value p = (pp_view m, pp_seqno m, pp_digest m) ∧
      ((is_replica q = true ∧ verify p = true) ∨ q = node_id).
Proof. intros. by eapply prepared_quorum. Qed.

(** [add] of a pre-prepare accepts it in exactly three situations, none of which
    overwrites a pre-prepare: it is fully verified and this node has not prepared;
    it is verified but for its requests, and [f] replicas vouch for it by prepares
    with its value; or it agrees with the prepare this node has sent. *)
Theorem prepared_cert_add_pp `{Config} {PP} `{PrePrepareMsg PP}
    (pp_verify pp_verify_NRC : PP → bool) (x x' : Prepared_cert PP) (m : PP) (r : bool) :
  add_pp pp_verify pp_verify_NRC x m = Ret (r, x') →
  pc x' = pc x ∧
  if r then
    pre_prepare x = None ∧ pre_prepare x' = Some m ∧
    match my_prepare x with
    | Some p => prepare_value p = (pp_view m, pp_seqno m, pp_digest m) ∧ pp_verify_NRC m = true
    | None => pp_verify m = true ∨
        (pp_verify_NRC m = true ∧
         ∃ i v k, zget (Cert.vals (pc x)) i = Some (Cert.mkVal (Some v) k) ∧ max_faulty ≤ k ∧
           0 ≤ i < Cert.cur_size (pc x) ∧ prepare_value v = (pp_view m, pp_seqno m, pp_digest m))
    end
  else x' = x.
Proof.
  unfold add_pp, my_prepare, pre_prepare. intros Ha.
  destruct (pp x) eqn:Hpp; [by injection Ha as <- <-|].
  destruct (Cert.mine (pc x)) as [p|] eqn:Hmine.
  - apply outcome_bind_Ret in Ha as (b & Hb & Ha). destruct (b && pp_verify_NRC m) eqn:E.
    + injection Ha as <- <-. apply andb_true_iff in E as [-> E]. split_and!; try done.
      by apply pp_match_spec.
    + by injection Ha as <- <-.
  - destruct (pp_verify m) eqn:Ev; [injection Ha as <- <-; by auto|].
    destruct (pp_verify_NRC m) eqn:En; [|by injection Ha as <- <-].
    apply outcome_bind_Ret in Ha as ([] & Hl & Ha); injection Ha as <- <-; [|done].
    split_and!; try done. right. split; [done|]. by apply has_value_spec in Hl.
Qed.

(** *** Concrete inputs *)
#[global] Instance sample_pp : PrePrepareMsg (Z * Z * Dig.Digest) :=
  { pp_view m := m.1.1; pp_seqno m := m.1.2; pp_digest := snd }.

Definition sample_prepare (id : Z) : Prepare := mkPrepare 0 160 0 5 Dig.zero id [].

(** Replica [i] with the pre-prepare of sequence number 5 and prepares of [a] and [b]. *)
Definition sample_at (i a b : Z) : Prepared_cert (Z * Z * Dig.Digest) :=
  let c := default_config 1 i in
  let add x id := match add_prepare (H := c) (λ _, true) x (sample_prepare id) with
                  | Ret (_, x') => x' | Err _ => x end in
  match add_pp (H := c) (λ _, true) (λ _, true) (add (add (make (H := c)) a) b) (0, 5, Dig.zero) with
  | Ret (_, x') => x'
  | Err _ => make (H := c)
  end.

Definition sample_x : Prepared_cert (Z * Z * Dig.Digest) := sample_at 2 1 3.

Definition sample_reaches (i a b : Z) : Prop :=
  reaches (H := default_config 1 i) (λ _, true) (λ _, true) (λ _, true) (λ _, 0) 0
    [sample_prepare b; sample_prepare a] [(0, 5, Dig.zero)] (sample_at i a b).

Ltac sample_reach i a b :=
  unfold sample_reaches, sample_at;
  set (x1 := match add_prepare (H := default_config 1 i) _ make (sample_prepare a) with
             | Ret (_, x') => x' | Err _ => make end);
  set (x2 := match add_prepare (H := default_config 1 i) _ x1 (sample_prepare b) with
             | Ret (_, x') => x' | Err _ => x1 end);
  eapply (reach_pp _ _ _ _ _ _ _ x2 _ true); [|vm_compute; reflexivity];
  eapply (reach_prepare _ _ _ _ _ _ _ x1 _ true); [|vm_compute; reflexivity];
  eapply (reach_prepare _ _ _ _ _ _ _ (make (H := default_config 1 i)) _ true); [|vm_compute; reflexivity];
  apply reach_new.

Lemma sample_x_reaches : sample_reaches 2 1 3.
Proof. sample_reach 2 1 3. Qed.

Lemma sample_y_reaches : sample_reaches 3 1 2.
Proof. sample_reach 3 1 2. Qed.

Lemma prepared_cert_quorum_witness :
  ∃ m (Q : gset Z), pre_prepare sample_x = Some m ∧ 2 * 1 ≤ Z.of_nat (size Q) ∧
    ∀ q, q ∈ Q → ∃ p, p ∈ [sample_prepare 3; sample_prepare 1] ∧ p_id p = q ∧
      prepare_value p = (pp_view m, pp_seqno m, pp_digest m) ∧
      ((is_replica (H := default_config 1 2) q = true ∧ true = true) ∨ q = 2).
Proof.
  refine (prepared_cert_quorum (H := default_config 1 2) _ (λ _, true) (λ _, true) (λ _, true) (λ _, 0) 0
    [sample_prepare 3; sample_prepare 1] [(0, 5, Dig.zero)] sample_x _ sample_x_reaches _).
  - split; vm_compute; intuition congruence.
  - vm_compute. congruence.
  - vm_compute. reflexivity.
Defined.

Lemma prepared_cert_add_pp_witness :
  let c := default_config 1 2 in
  let x := make (H := c) in let m := (0, 5, Dig.zero) in
  pc (with_pp x (Some m)) = pc x ∧
  (pre_prepare x = None ∧ pre_prepare (with_pp x (Some m)) = Some m ∧
   match my_prepare x with
   | Some p => prepare_value p = (pp_view m, pp_seqno m, pp_digest m) ∧ true = true
   | None => true = true ∨
       (true = true ∧
        ∃ i v k, zget (Cert.vals (pc x)) i = Some (Cert.mkVal (Some v) k) ∧ 1 ≤ k ∧
          0 ≤ i < Cert.cur_size (pc x) ∧ prepare_value v = (pp_view m, pp_seqno m, pp_digest m))
   end).
Proof.
  exact (prepared_cert_add_pp (H := default_config 1 2) (λ _, true) (λ _, true)
    (make (H := default_config 1 2)) (with_pp (make (H := default_config 1 2)) (Some (0, 5, Dig.zero)))
    (0, 5, Dig.zero) true eq_refl).
Defined.
End PCert.
