(* ===== verification/Quorum.v ===== *)
(** * Quorum: what complete certificates of two replicas imply about each other

    The certificates of Certificate.v and PreparedCert.v live at one node.  Here the
    certificates of two nodes of a group meet: at most [max_faulty] of the
    [3 * max_faulty + 1] replicas are faulty, and a replica that is not faulty stands
    by one digest for each view and sequence number.  Unforgeability of the message
    codes enters as the hypothesis that an authenticated message of such a replica
    was indeed said by it. *)
From stdpp Require Import gmap.
From S2P Require Import Prelude Node Bitmap Certificate Messages PreparedCert.

(** ** Quorums *)
Section quorums.
Context `{Config}.

Definition replica_set : gset Z := list_to_set (seqZ 0 num_replicas).

Lemma elem_of_replicas q : q ∈ replica_set ↔ is_replica q = true.
Proof. unfold replica_set. rewrite elem_of_list_to_set, elem_of_seqZ, is_replica_spec. lia. Qed.

Lemma replica_set_size : 0 ≤ max_faulty → Z.of_nat (size replica_set) = num_replicas.
Proof.
  intros Hf. unfold replica_set. rewrite size_list_to_set by apply NoDup_seqZ.
  rewrite length_seqZ. unfold num_replicas. lia.
Qed.

(** Two sets of [2f+1] replicas share one that is not faulty. *)
Lemma quorum_intersection (Q1 Q2 faulty : gset Z) :
  0 ≤ max_faulty → Q1 ⊆ replica_set → Q2 ⊆ replica_set →
  threshold ≤ Z.of_nat (size Q1) → threshold ≤ Z.of_nat (size Q2) →
  Z.of_nat (size faulty) ≤ max_faulty → ∃ q, q ∈ Q1 ∧ q ∈ Q2 ∧ q ∉ faulty.
Proof.
  intros Hf H1 H2 Hs1 Hs2 Hfa. pose proof (replica_set_size Hf) as Hn.
  unfold threshold, num_replicas in *.
  assert (Q2 ∪ Q1 ⊆ replica_set) as Hsub by (intros x [?|?]%elem_of_union; auto).
  apply subseteq_size in Hsub. rewrite size_union_alt, size_difference_alt in Hsub.
  assert (size (Q1 ∩ Q2) ≤ size Q1)%nat as Hi.
  { apply subseteq_size. intros x [? _]%elem_of_intersection. done. }
  destruct (set_choose_or_empty ((Q1 ∩ Q2) ∖ faulty)) as [[q Hq]|He].
  - apply elem_of_difference in Hq as [[? ?]%elem_of_intersection ?]. by exists q.
  - assert (Q1 ∩ Q2 ⊆ faulty) as Hs.
    { intros x Hx. destruct (decide (x ∈ faulty)) as [|Hx']; [done|].
      assert (x ∈ (Q1 ∩ Q2) ∖ faulty) as Hin by by apply elem_of_difference.
      by apply He, not_elem_of_empty in Hin. }
    apply subseteq_size in Hs. lia.
Qed.
End quorums.

(** ** What is said in the group *)
Definition value : Type := Z * Z * Dig.Digest.

(** A node with a prepared certificate and the pre-prepare in it. *)
Record holder {PP : Type} `{PrePrepareMsg PP} := mkHolder {
  h_config : Config;
  h_verify : Prepare → bool;
  h_pp_verify : PP → bool;
  h_pp_verify_NRC : PP → bool;
  h_prim : Z → Z;
  h_cur_prim : Z;
  h_prepares : list Prepare;
  h_pps : list PP;
  h_cert : PCert.Prepared_cert PP;
  h_pp : PP;
}.
Arguments holder PP {_}.

Section agreement.
Context {PP : Type} `{PrePrepareMsg PP}.
(** The faulty replicas, and which replica vouches for which value (the primary
    of a view by a pre-prepare, the others by prepares). *)
Context (faulty : gset Z) (says : Z → value → Prop) (primary : Z → Z).

Definition pp_value (m : PP) : value := (pp_view m, pp_seqno m, pp_digest m).

Definition reaches_complete (h : holder PP) : Prop :=
  PCert.reaches (H := h_config h) (h_verify h) (h_pp_verify h) (h_pp_verify_NRC h) (h_prim h) (h_cur_prim h)
    (h_prepares h) (h_pps h) (h_cert h) ∧
  PCert.is_complete (h_cert h) = Ret true ∧
  PCert.pre_prepare (h_cert h) = Some (h_pp h).

(** What the handlers of the node and the message codes guarantee: prepares of the
    primary are not added, the node is a replica, and the messages of correct
    replicas that were authenticated (or are the node's own) were said by them. *)
Record trusted (h : holder PP) : Prop := {
  t_ok : ConfigOk (H := h_config h);
  t_self : @is_replica (h_config h) (@node_id (h_config h)) = true;
  t_not_primary p : p ∈ h_prepares h → p_id p ≠ primary (pp_view (h_pp h));
  t_prepares p : p ∈ h_prepares h → p_id p ∉ faulty →
    (@is_replica (h_config h) (p_id p) = true ∧ h_verify h p = true) ∨ p_id p = @node_id (h_config h) →
    says (p_id p) (prepare_value p);
  t_pp : primary (pp_view (h_pp h)) ∉ faulty → says (primary (pp_view (h_pp h))) (pp_value (h_pp h));
  t_primary : @is_replica (h_config h) (primary (pp_view (h_pp h))) = true;
}.

(** Every member of the quorum of a holder vouches for its value, if it is correct. *)
Lemma holder_quorum (h : holder PP) :
  1 ≤ @max_faulty (h_config h) → reaches_complete h → trusted h →
  ∃ Q : gset Z, Q ⊆ @replica_set (h_config h) ∧ @threshold (h_config h) ≤ Z.of_nat (size Q) ∧
    ∀ q, q ∈ Q → q ∉ faulty → says q (pp_value (h_pp h)).
Proof.
  intros Hf (Hr & Hc & Hpp) [Hok Hself Hnp Hsays Hspp Hprim].
  destruct h as [c ver ppv nrc prim cp hs ps x m]. cbn in *.
  destruct (PCert.prepared_quorum (H := c) Hok ver ppv nrc prim cp hs ps x Hf Hr Hc)
    as (m' & Q & Hm' & Hsz & HQ).
  rewrite Hpp in Hm'. injection Hm' as <-.
  assert (∀ q, q ∈ Q → q ≠ primary (pp_view m)) as Hqp.
  { intros q Hq. destruct (HQ q Hq) as (p & Hp & <- & _). by apply Hnp. }
  exists (Q ∪ {[primary (pp_view m)]}). split_and!.
  - intros q [Hq| ->%elem_of_singleton]%elem_of_union; [|by apply elem_of_replicas].
    destruct (HQ q Hq) as (p & _ & _ & _ & [[Hrep _]| ->]); by apply elem_of_replicas.
  - rewrite size_union, size_singleton.
    + unfold threshold, num_replicas. lia.
    + intros q Hq Hq'%elem_of_singleton. by apply (Hqp q).
  - intros q [Hq| ->%elem_of_singleton]%elem_of_union Hnf; [|by apply Hspp].
    destruct (HQ q Hq) as (p & Hp & <- & Hval & Ha). unfold pp_value. rewrite <- Hval. by apply Hsays.
Qed.
End agreement.

(** C1: agreement within a view: if the prepared certificates of two nodes are
    complete for the same view and sequence number, their pre-prepares carry the same
    digest, although up to [max_faulty] replicas, the primary among them, say
    whatever they like. *)
Theorem prepared_certificates_agree {PP} `{PrePrepareMsg PP} (faulty : gset Z)
    (says : Z → value → Prop) (primary : Z → Z) (h1 h2 : holder PP) :
  1 ≤ @max_faulty (h_config h1) → @max_faulty (h_config h1) = @max_faulty (h_config h2) →
  Z.of_nat (size faulty) ≤ @max_faulty (h_config h1) →
  (∀ q v s d d', q ∉ faulty → says q (v, s, d) → says q (v, s, d') → d = d') →
  reaches_complete h1 → reaches_complete h2 →
  trusted faulty says primary h1 → trusted faulty says primary h2 →
  pp_view (h_pp h1) = pp_view (h_pp h2) → pp_seqno (h_pp h1) = pp_seqno (h_pp h2) →
  pp_digest (h_pp h1) = pp_digest (h_pp h2).
Proof.
  intros Hf Hsame Hfa Hcons Hr1 Hr2 Ht1 Ht2 Hv Hs.
  destruct (holder_quorum faulty says primary h1) as (Q1 & Hsub1 & Hsz1 & HQ1); [done..|].
  destruct (holder_quorum faulty says primary h2) as (Q2 & Hsub2 & Hsz2 & HQ2); [lia|done..|].
  assert (@replica_set (h_config h2) = @replica_set (h_config h1)) as Hrs.
  { unfold replica_set, num_replicas. by rewrite Hsame. }
  assert (@threshold (h_config h2) = @threshold (h_config h1)) as Hth.
  { unfold threshold, num_replicas. by rewrite Hsame. }
  rewrite Hrs in Hsub2. rewrite Hth in Hsz2.
  destruct (quorum_intersection (H := h_config h1) Q1 Q2 faulty) as (q & Hq1 & Hq2 & Hnf); try done; [lia|].
  apply (Hcons q (pp_view (h_pp h1)) (pp_seqno (h_pp h1))); [done|by apply HQ1|].
  rewrite Hv, Hs. by apply HQ2.
Qed.

(** *** Concrete inputs: replicas 2 and 3 of four, with primary 0 *)
Definition sample_holder (i a b : Z) : holder (Z * Z * Dig.Digest) :=
  mkHolder _ _ (default_config 1 i) (λ _, true) (λ _, true) (λ _, true) (λ _, 0) 0
    [PCert.sample_prepare b; PCert.sample_prepare a] [(0, 5, Dig.zero)] (PCert.sample_at i a b) (0, 5, Dig.zero).

Definition sample_says (_ : Z) (v : value) : Prop := v = (0, 5, Dig.zero).

Lemma sample_trusted i a b : ConfigOk (H := default_config 1 i) → 0 ≤ i < 4 → a ≠ 0 → b ≠ 0 →
  trusted {[1]} sample_says (λ _, 0) (sample_holder i a b).
Proof.
  intros Hok Hi Ha Hb.
  assert (∀ p, p ∈ [PCert.sample_prepare b; PCert.sample_prepare a] →
    p_id p ≠ 0 ∧ prepare_value p = (0, 5, Dig.zero)) as Hp.
  { intros p Hp. repeat (apply elem_of_cons in Hp as [->|Hp]; [done|]). by apply elem_of_nil in Hp. }
  split; cbn; try done.
  - apply is_replica_spec. done.
  - intros p Hin. by apply Hp.
  - intros p Hin _ _. by apply Hp.
Qed.

Lemma prepared_certificates_agree_witness :
  pp_digest (h_pp (sample_holder 2 1 3)) = pp_digest (h_pp (sample_holder 3 1 2)).
Proof.
  refine (prepared_certificates_agree {[1]} sample_says (λ _, 0) (sample_holder 2 1 3) (sample_holder 3 1 2)
    _ _ _ _ _ _ _ _ _ _).
  - vm_compute. congruence.
  - reflexivity.
  - rewrite size_singleton. cbn. lia.
  - unfold sample_says. intros q v s d d' _ Hd Hd'. congruence.
  - split; [exact PCert.sample_x_reaches|]. split; vm_compute; reflexivity.
  - split; [exact PCert.sample_y_reaches|]. split; vm_compute; reflexivity.
  - apply sample_trusted; [split; vm_compute; intuition congruence|lia|done|done].
  - apply sample_trusted; [split; vm_compute; intuition congruence|lia|done|done].
  - reflexivity.
  - reflexivity.
Defined.
