(* ===== verification/ReqQueue.v ===== *)
(** * Req_queue: the queue of client requests (src/src/Req_queue.{h,cc})

    One node per principal in an array, linked through [next] and [prev] into a
    doubly linked list; a pointer to a node is the index of the node.  [queue_rep]
    relates the linked representation to a list of requests in arrival order, and
    the refinement theorems show that every operation implements its counterpart
    on lists ([Spec]). *)
From S2P Require Import Prelude Node.

(** What the queue reads from a request (src/src/Request.h). *)
Class RequestMsg (R : Type) := {
  client_id : R → Z;
  request_id : R → Z;
  req_size : R → Z;
}.

Module RQ.
Section req_queue.
Context `{Config} {R : Type} `{RequestMsg R}.

Record PNode := mkPNode {
  r : option R;
  next : option Z;
  prev : option Z;
  out_rid : Z;
  out_v : Z;
}.

Record Req_queue := mkRq {
  reqs : list PNode;
  head : option Z;
  tail : option Z;
  nelems : Z;
  nbytes : Z;
}.

Definition pnode_clear (n : PNode) : PNode := mkPNode None None None 0 (-1).

(** [reqs[i]]: [Array::operator[]] checks the index. *)
Definition node_at (q : Req_queue) (i : Z) : outcome PNode := of_option AssertFail (zget (reqs q) i).

Definition set_node (q : Req_queue) (i : Z) (n : PNode) : Req_queue :=
  mkRq (zset (reqs q) i n) (head q) (tail q) (nelems q) (nbytes q).
Definition set_head (q : Req_queue) (h : option Z) : Req_queue :=
  mkRq (reqs q) h (tail q) (nelems q) (nbytes q).
Definition set_tail (q : Req_queue) (h : option Z) : Req_queue :=
  mkRq (reqs q) (head q) h (nelems q) (nbytes q).
Definition set_counts (q : Req_queue) (n b : Z) : Req_queue :=
  mkRq (reqs q) (head q) (tail q) n b.
Definition with_r (n : PNode) (x : option R) : PNode :=
  mkPNode x (next n) (prev n) (out_rid n) (out_v n).
Definition with_next (n : PNode) (x : option Z) : PNode :=
  mkPNode (r n) x (prev n) (out_rid n) (out_v n).
Definition with_prev (n : PNode) (x : option Z) : PNode :=
  mkPNode (r n) (next n) x (out_rid n) (out_v n).

(** Assignment through a pointer to a node. *)
Definition update_node (q : Req_queue) (i : Z) (f : PNode → PNode) : outcome Req_queue :=
  n ← of_option Undefined (zget (reqs q) i); Ret (set_node q i (f n)).

Definition make : Req_queue :=
  mkRq (replicate (Z.to_nat num_principals) (pnode_clear (mkPNode None None None 0 (-1))))
    None None 0 0.

Definition size (q : Req_queue) : Z := nelems q.
Definition num_bytes (q : Req_queue) : Z := nbytes q.

Definition first (q : Req_queue) : outcome (option R) :=
  match head q with
  | Some h =>
      n ← of_option Undefined (zget (reqs q) h);
      _ ← th_assert (bool_decide (is_Some (r n)));
      Ret (r n)
  | None => Ret None
  end.

Definition first_client (q : Req_queue) (cid : Z) : outcome (option R) :=
  cn ← node_at q cid; Ret (r cn).

Definition in_progress (q : Req_queue) (cid rid v : Z) : outcome (Req_queue * bool) :=
  cn ← node_at q cid;
  if (out_rid cn <? rid) || (out_v cn <? v)
  then Ret (set_node q cid (mkPNode (r cn) (next cn) (prev cn) rid v), false)
  else Ret (q, true).

(** [remove(int cid, Request_id rid)] *)
Definition remove_client (q : Req_queue) (cid rid : Z) : outcome (Req_queue * bool) :=
  cn ← node_at q cid;
  match r cn with
  | Some m =>
      if request_id m <=? rid then
        let q := set_counts q (nelems q - 1) (nbytes q - req_size m) in
        let q := set_node q cid (with_r cn None) in
        '(q, ret) ← match prev cn with
          | None =>
              _ ← th_assert (bool_decide (head q = Some cid));
              Ret (set_head q (next cn), true)
          | Some p =>
              q ← update_node q p (λ n, with_next n (next cn));
              Ret (q, false)
          end;
        q ← match next cn with
          | None =>
              _ ← th_assert (bool_decide (tail q = Some cid));
              Ret (set_tail q (prev cn))
          | Some x => update_node q x (λ n, with_prev n (prev cn))
          end;
        Ret (q, ret)
      else Ret (q, false)
  | None => Ret (q, false)
  end.

(** The part of [append] after the test for an older request. *)
Definition append_tail (q : Req_queue) (m : R) : outcome Req_queue :=
  let cid := client_id m in
  q ← update_node q cid (λ n, with_r n (Some m));
  let q := set_counts q (nelems q + 1) (nbytes q + req_size m) in
  match head q with
  | None =>
      let q := set_tail (set_head q (Some cid)) (Some cid) in
      update_node q cid (λ n, with_next (with_prev n None) None)
  | Some _ =>
      t ← of_option Undefined (tail q);
      q ← update_node q t (λ n, with_next n (Some cid));
      q ← update_node q cid (λ n, with_next (with_prev n (Some t)) None);
      Ret (set_tail q (Some cid))
  end.

Definition append (q : Req_queue) (m : R) : outcome (Req_queue * bool) :=
  let cid := client_id m in
  let rid := request_id m in
  cn ← node_at q cid;
  match r cn with
  | Some m' =>
      if request_id m' <? rid then
        '(q, _) ← remove_client q cid rid;
        q ← append_tail q m;
        Ret (q, true)
      else Ret (q, false)
  | None => q ← append_tail q m; Ret (q, true)
  end.

(** [remove()] *)
Definition remove (q : Req_queue) : outcome (Req_queue * option R) :=
  match head q with
  | None => Ret (q, None)
  | Some h =>
      hn ← of_option Undefined (zget (reqs q) h);
      ret ← of_option AssertFail (r hn);
      let q := set_node q h (with_r hn None) in
      let q := set_head q (next hn) in
      q ← match head q with
        | Some h' => update_node q h' (λ n, with_prev n None)
        | None => Ret (set_tail q None)
        end;
      Ret (set_counts q (nelems q - 1) (nbytes q - req_size ret), Some ret)
  end.

(** [for (i = 0; i < node->np(); i++) reqs[i].clear()] *)
Definition clear (q : Req_queue) : outcome Req_queue :=
  q ← foldl (λ acc i, q ← acc; n ← node_at q i; Ret (set_node q i (pnode_clear n)))
        (Ret q) (seqZ 0 num_principals);
  Ret (mkRq (reqs q) None None 0 0).

(** ** Abstract queue *)
Definition total_bytes (l : list R) : Z := foldr (λ m s, req_size m + s) 0 l.

Definition spec_in_queue (l : list R) (cid : Z) : option R :=
  list_find (λ m, client_id m = cid) l ≫= λ p, Some (p.2).

Definition spec_remove_client (l : list R) (cid rid : Z) : list R :=
  filter (λ m, ¬ (client_id m = cid ∧ request_id m ≤ rid)) l.

Definition spec_append (l : list R) (m : R) : list R * bool :=
  match spec_in_queue l (client_id m) with
  | Some m' =>
      if request_id m' <? request_id m
      then (spec_remove_client l (client_id m) (request_id m) ++ [m], true)
      else (l, false)
  | None => (l ++ [m], true)
  end.

(** ** Representation invariant

    [lseg ns p l e]: the nodes of [l] are linked, the first one pointing back to
    [p] and the last one forward to [e]. *)
Definition front (l : list R) (e : option Z) : option Z :=
  match l with [] => e | m :: _ => Some (client_id m) end.
Definition back (p : option Z) (l : list R) : option Z :=
  match last l with None => p | Some m => Some (client_id m) end.

Fixpoint lseg (ns : list PNode) (p : option Z) (l : list R) (e : option Z) : Prop :=
  match l with
  | [] => True
  | m :: l =>
      (∃ n, zget ns (client_id m) = Some n ∧ r n = Some m ∧ prev n = p ∧ next n = front l e)
      ∧ lseg ns (Some (client_id m)) l e
  end.

Record queue_rep (q : Req_queue) (l : list R) : Prop := {
  rep_len : zlen (reqs q) = num_principals;
  rep_nodup : NoDup (client_id <$> l);
  rep_seg : lseg (reqs q) None l None;
  rep_only : ∀ c n m, zget (reqs q) c = Some n → r n = Some m → m ∈ l ∧ client_id m = c;
  rep_head : head q = front l None;
  rep_tail : tail q = back None l;
  rep_nelems : nelems q = zlen l;
  rep_nbytes : nbytes q = total_bytes l;
}.

(** ** Linked segments *)
Definition alter_node (ns : list PNode) (i : Z) (f : PNode → PNode) : list PNode :=
  match zget ns i with Some n => zset ns i (f n) | None => ns end.

Definition alter_opt (ns : list PNode) (i : option Z) (f : PNode → PNode) : list PNode :=
  match i with Some i => alter_node ns i f | None => ns end.

Lemma zget_alter ns i j f :
  zget (alter_node ns i f) j = if decide (i = j) then f <$> zget ns j else zget ns j.
Proof.
  unfold alter_node. destruct (zget ns i) as [n|] eqn:E.
  - case_decide as D; [subst j|by apply zget_zset_ne].
    rewrite zget_zset_eq by by eapply zget_Some_lt. by rewrite E.
  - case_decide as D; [subst j; by rewrite E|done].
Qed.

Lemma zlen_alter ns i f : zlen (alter_node ns i f) = zlen ns.
Proof. unfold alter_node. destruct (zget ns i); [by rewrite zlen_zset|done]. Qed.

Lemma zlen_alter_opt ns i f : zlen (alter_opt ns i f) = zlen ns.
Proof. destruct i; [apply zlen_alter|done]. Qed.

Lemma update_node_alter q i f :
  is_Some (zget (reqs q) i) →
  update_node q i f =
    Ret (mkRq (alter_node (reqs q) i f) (head q) (tail q) (nelems q) (nbytes q)).
Proof. intros [n E]. unfold update_node, alter_node, set_node. by rewrite E. Qed.

Lemma lseg_app ns p l1 l2 e :
  lseg ns p (l1 ++ l2) e ↔ lseg ns p l1 (front l2 e) ∧ lseg ns (back p l1) l2 e.
Proof.
  revert p. induction l1 as [|m l1 IH]; intros p; cbn [lseg app].
  - unfold back. cbn. tauto.
  - rewrite IH. assert (back (Some (client_id m)) l1 = back p (m :: l1)) as ->.
    { unfold back. destruct l1 as [|m' l1]; [done|].
      change (last (m :: m' :: l1)) with (last (m' :: l1)).
      destruct (last (m' :: l1)) eqn:E; [done|]. by apply last_None in E. }
    assert (front (l1 ++ l2) e = front l1 (front l2 e)) as -> by (by destruct l1).
    tauto.
Qed.

Lemma lseg_frame ns ns' p l e :
  (∀ m, m ∈ l → zget ns' (client_id m) = zget ns (client_id m)) →
  lseg ns p l e → lseg ns' p l e.
Proof.
  revert p. induction l as [|m l IH]; intros p Hf; [done|]. cbn [lseg].
  intros [(n & E & Hn) Hl]. split.
  - exists n. rewrite Hf by by left. done.
  - apply IH; [|done]. intros x Hx. apply Hf. by right.
Qed.

Lemma lseg_frame_zset ns p l e i n :
  i ∉ client_id <$> l → lseg ns p l e → lseg (zset ns i n) p l e.
Proof.
  intros Hi. apply lseg_frame. intros m Hm. apply zget_zset_ne. intros ->.
  apply Hi. by apply list_elem_of_fmap_2.
Qed.

Lemma lseg_frame_alter ns p l e i f :
  (∀ c, i = Some c → c ∉ client_id <$> l) → lseg ns p l e → lseg (alter_opt ns i f) p l e.
Proof.
  destruct i as [i|]; [|done]. intros Hi. apply lseg_frame. intros m Hm. cbn.
  rewrite zget_alter, decide_False; [done|]. intros ->.
  destruct (Hi _ eq_refl). by apply list_elem_of_fmap_2.
Qed.

Lemma lseg_relink_next ns l e e' :
  NoDup (client_id <$> l) → lseg ns None l e →
  lseg (alter_opt ns (back None l) (λ n, with_next n e')) None l e'.
Proof.
  destruct l as [|m l _] using rev_ind; [done|].
  rewrite fmap_app, NoDup_app. intros (_ & Hdis & _).
  assert (back None (l ++ [m]) = Some (client_id m)) as -> by (unfold back; by rewrite last_snoc).
  rewrite !lseg_app. intros [Hl [(n & E & ? & ? & ?) _]]. split.
  - apply lseg_frame_alter; [|done]. intros c [= <-] Hc. apply (Hdis _ Hc). cbn. by left.
  - split; [|done]. cbn. rewrite zget_alter, decide_True, E by done. cbn. by eexists.
Qed.

Lemma lseg_relink_prev ns p p' l :
  NoDup (client_id <$> l) → lseg ns p l None →
  lseg (alter_opt ns (front l None) (λ n, with_prev n p')) p' l None.
Proof.
  destruct l as [|m l]; [done|]. rewrite fmap_cons, NoDup_cons. intros [Hm _].
  intros [(n & E & ? & ? & ?) Hl]. split.
  - cbn. rewrite zget_alter, decide_True, E by done. cbn. by eexists.
  - apply lseg_frame_alter; [|done]. cbn. by intros c [= <-].
Qed.

Lemma lseg_is_Some ns p l e m : lseg ns p l e → m ∈ l → is_Some (zget ns (client_id m)).
Proof.
  intros Hl (l1 & l2 & ->)%list_elem_of_split. apply lseg_app in Hl as [_ [(n & -> & _) _]].
  by eexists.
Qed.

Lemma back_is_Some ns l e i :
  lseg ns None l e → back None l = Some i → is_Some (zget ns i) ∧ i ∈ client_id <$> l.
Proof.
  unfold back. intros Hl. destruct (last l) as [m|] eqn:E; [|done]. intros [= <-].
  apply last_Some_elem_of in E. split; [by eapply lseg_is_Some|by apply list_elem_of_fmap_2].
Qed.

Lemma front_is_Some ns p l i :
  lseg ns p l None → front l None = Some i → is_Some (zget ns i) ∧ i ∈ client_id <$> l.
Proof.
  destruct l as [|m l]; [done|]. intros Hl [= <-]. split; [eapply lseg_is_Some; [done|by left]|].
  by left.
Qed.

Lemma list_filter_all {A} (P : A → Prop) `{∀ x, Decision (P x)} (l : list A) :
  Forall P l → filter P l = l.
Proof. induction 1 as [|x l ? ? IH]; [done|]. by rewrite filter_cons_True, IH. Qed.

Lemma total_bytes_app l1 l2 : total_bytes (l1 ++ l2) = total_bytes l1 + total_bytes l2.
Proof. unfold total_bytes. induction l1 as [|m l1 IH]; cbn in *; lia. Qed.

(** ** The operations on a represented queue *)
Lemma rep_lookup q l m :
  queue_rep q l → m ∈ l → ∃ n, zget (reqs q) (client_id m) = Some n ∧ r n = Some m.
Proof.
  intros Hq (l1 & l2 & ->)%list_elem_of_split.
  pose proof (rep_seg _ _ Hq) as [_ [(n & ? & ? & _) _]]%lseg_app. eauto.
Qed.

Lemma rep_client q l cid n :
  queue_rep q l → zget (reqs q) cid = Some n → spec_in_queue l cid = r n.
Proof.
  intros Hq E. unfold spec_in_queue.
  destruct (list_find (λ m, client_id m = cid) l) as [[i m]|] eqn:Ef; cbn.
  - apply list_find_Some in Ef as (Hi & <- & _).
    apply list_elem_of_lookup_2 in Hi. destruct (rep_lookup _ _ _ Hq Hi) as (n' & E' & <-).
    congruence.
  - rewrite list_find_None, Forall_forall in Ef.
    destruct (r n) as [m|] eqn:Er; [|done].
    destruct (rep_only _ _ Hq _ _ _ E Er) as [Hm Hc]. by destruct (Ef _ Hm).
Qed.

(** Unlinking a request from the middle. *)
Definition unlink (ns : list PNode) (cid : Z) (p nx : option Z) : list PNode :=
  alter_opt (alter_opt (alter_node ns cid (λ n, with_r n None)) p (λ n, with_next n nx))
    nx (λ n, with_prev n p).

Lemma unlink_seg ns l1 m l2 :
  NoDup (client_id <$> l1 ++ m :: l2) → lseg ns None (l1 ++ m :: l2) None →
  lseg (unlink ns (client_id m) (back None l1) (front l2 None)) None (l1 ++ l2) None.
Proof.
  intros Hnd Hl. apply lseg_app in Hl as [H1 [_ H2]]. cbn [front] in H1.
  rewrite fmap_app, fmap_cons, NoDup_app, NoDup_cons in Hnd.
  destruct Hnd as (N1 & Nd & Nm & N2).
  apply (lseg_frame_alter _ _ _ _ (Some (client_id m)) (λ n, with_r n None)) in H1;
    [|intros ? [= <-] Hin; apply (Nd _ Hin); by left].
  apply (lseg_frame_alter _ _ _ _ (Some (client_id m)) (λ n, with_r n None)) in H2;
    [|by intros ? [= <-]].
  apply lseg_app. unfold unlink. split.
  - pose proof (lseg_relink_next _ _ _ (front l2 None) N1 H1) as H1'.
    apply lseg_frame_alter; [|exact H1'].
    intros c Hc Hin. destruct (front_is_Some _ _ _ _ H2 Hc) as [_ ?].
    apply (Nd _ Hin). by right.
  - eapply lseg_relink_prev; [done|]. apply lseg_frame_alter; [|done].
    intros c Hc Hin. destruct (back_is_Some _ _ _ _ H1 Hc) as [_ Hb].
    apply (Nd _ Hb). by right.
Qed.

Lemma zget_alter_opt_r ns i f c n :
  (∀ n, r (f n) = r n) → zget (alter_opt ns i f) c = Some n →
  ∃ n', zget ns c = Some n' ∧ r n = r n'.
Proof.
  intros Hf. destruct i as [i|]; cbn; [|by eauto]. rewrite zget_alter. case_decide; [|by eauto].
  destruct (zget ns c) as [n'|]; [|done]. intros [= <-]. eauto.
Qed.

Lemma zget_unlink ns cid p nx c n m :
  zget (unlink ns cid p nx) c = Some n → r n = Some m →
  c ≠ cid ∧ ∃ n', zget ns c = Some n' ∧ r n' = Some m.
Proof.
  intros (n1 & E1 & R1)%zget_alter_opt_r Hr; [|done].
  apply zget_alter_opt_r in E1 as (n2 & E2 & R2); [|done].
  rewrite zget_alter in E2. rewrite Hr, R2 in R1. case_decide as D.
  - destruct (zget ns c); [|done]. injection E2 as <-. done.
  - split; [congruence|]. by exists n2.
Qed.

Lemma remove_client_unlink q l1 m l2 rid :
  queue_rep q (l1 ++ m :: l2) → request_id m ≤ rid →
  remove_client q (client_id m) rid =
    Ret (mkRq (unlink (reqs q) (client_id m) (back None l1) (front l2 None))
           (front (l1 ++ l2) None) (back None (l1 ++ l2)) (nelems q - 1) (nbytes q - req_size m),
         bool_decide (l1 = [])).
Proof.
  intros Hq Hr. pose proof (rep_seg _ _ Hq) as Hl. pose proof (rep_nodup _ _ Hq) as Hnd.
  pose proof (rep_head _ _ Hq) as Hh. pose proof (rep_tail _ _ Hq) as Ht.
  apply lseg_app in Hl as [H1 [(n & E & Er & Ep & En) H2]].
  unfold remove_client, node_at. rewrite E. cbn -[last]. rewrite Er, Ep, En.
  rewrite (proj2 (Z.leb_le _ _)) by done. unfold set_node. cbn -[last].
  assert (zset (reqs q) (client_id m) (with_r n None) =
    alter_node (reqs q) (client_id m) (λ n, with_r n None)) as -> by (unfold alter_node; by rewrite E).
  assert (∀ i f g, is_Some (zget (reqs q) i) →
    is_Some (zget (alter_opt (alter_node (reqs q) (client_id m) f) (back None l1) g) i)) as Hsome.
  { intros i f g ?. apply zget_is_Some. rewrite zlen_alter_opt, zlen_alter. by apply zget_is_Some. }
  assert (∀ x, front l2 None = Some x → is_Some (zget (reqs q) x)) as Hx
    by (intros x Hx; by eapply front_is_Some).
  unfold unlink. destruct l1 as [|m1 l1 _] using rev_ind.
  - rewrite Hh. cbn. rewrite bool_decide_true by done. cbn.
    destruct l2 as [|m2 l2]; cbn in *.
    + rewrite Ht. cbn. by rewrite bool_decide_true by done.
    + rewrite update_node_alter by (apply (Hsome _ _ (λ n, n)); eauto). cbn.
      rewrite Ht. by destruct l2.
  - assert (back None (l1 ++ [m1]) = Some (client_id m1)) as Eb by (unfold back; by rewrite last_snoc).
    rewrite Eb. rewrite update_node_alter; cycle 1.
    { cbn. apply zget_is_Some. rewrite zlen_alter. apply zget_is_Some.
      eapply lseg_is_Some; [exact H1|]. apply elem_of_app. right. by left. }
    rewrite (bool_decide_false (l1 ++ [m1] = [])) by by destruct l1.
    assert (front ((l1 ++ [m1]) ++ l2) None = head q) as -> by (rewrite Hh; by destruct l1).
    rewrite Eb in Hsome. destruct l2 as [|m2 l2]; cbn.
    + rewrite bool_decide_true; [by rewrite app_nil_r, Eb|].
      rewrite Ht. unfold back. by rewrite last_snoc.
    + rewrite update_node_alter by (apply Hsome; eauto). cbn. do 3 f_equal.
      rewrite Ht. unfold back. by rewrite !last_app_cons.
Qed.

Lemma unlink_rep q l1 m l2 h t :
  queue_rep q (l1 ++ m :: l2) → h = front (l1 ++ l2) None → t = back None (l1 ++ l2) →
  queue_rep (mkRq (unlink (reqs q) (client_id m) (back None l1) (front l2 None)) h t
               (nelems q - 1) (nbytes q - req_size m)) (l1 ++ l2).
Proof.
  intros Hq -> ->. pose proof (rep_nodup _ _ Hq) as Hnd. constructor; cbn [reqs head tail nelems nbytes].
  - unfold unlink. rewrite !zlen_alter_opt, zlen_alter. apply Hq.
  - rewrite fmap_app in *. rewrite fmap_cons in Hnd. apply NoDup_app in Hnd as (? & Hd & Hn).
    apply NoDup_cons in Hn as [_ ?]. apply NoDup_app. split; [done|]. split; [|done].
    intros x Hx Hx'. apply (Hd _ Hx). by right.
  - apply unlink_seg; [done|apply Hq].
  - intros c n m' E Er. destruct (zget_unlink _ _ _ _ _ _ _ E Er) as (Hc & n' & E' & Er').
    destruct (rep_only _ _ Hq _ _ _ E' Er') as [Hm' <-]. split; [|done].
    apply elem_of_app in Hm' as [|[->|]%elem_of_cons]; [apply elem_of_app; by left|done|].
    apply elem_of_app; by right.
  - done.
  - done.
  - rewrite (rep_nelems _ _ Hq), !zlen_app. unfold zlen. cbn [length]. lia.
  - rewrite (rep_nbytes _ _ Hq), !total_bytes_app. unfold total_bytes. cbn [foldr]. lia.
Qed.

Lemma spec_remove_split l1 m l2 rid :
  NoDup (client_id <$> l1 ++ m :: l2) → request_id m ≤ rid →
  spec_remove_client (l1 ++ m :: l2) (client_id m) rid = l1 ++ l2.
Proof.
  intros Hnd Hr. unfold spec_remove_client. rewrite filter_app, filter_cons_False by tauto.
  rewrite fmap_app, fmap_cons, NoDup_app, NoDup_cons in Hnd.
  destruct Hnd as (_ & Hd & Hm & _).
  f_equal; apply list_filter_all; apply Forall_forall; intros x Hx [Hc _].
  - apply (Hd (client_id x)); [by apply list_elem_of_fmap_2|]. rewrite Hc. by left.
  - apply Hm. rewrite <- Hc. by apply list_elem_of_fmap_2.
Qed.

Lemma remove_client_cases q l cid rid :
  queue_rep q l → 0 ≤ cid < num_principals →
  (∃ l1 m l2, l = l1 ++ m :: l2 ∧ client_id m = cid ∧ request_id m ≤ rid) ∨
  (remove_client q cid rid = Ret (q, false) ∧ spec_remove_client l cid rid = l).
Proof.
  intros Hq Hc. rewrite <- (rep_len _ _ Hq) in Hc. apply zget_lookup in Hc as [n E].
  unfold remove_client, node_at. rewrite E. cbn.
  assert (∀ m, m ∈ l → client_id m = cid → r n = Some m) as Huniq.
  { intros m Hm <-. destruct (rep_lookup _ _ _ Hq Hm) as (n' & ? & ?). congruence. }
  destruct (r n) as [m|] eqn:Er.
  - destruct (rep_only _ _ Hq _ _ _ E Er) as [Hm Hcid].
    destruct (Z.leb_spec (request_id m) rid).
    + left. apply list_elem_of_split in Hm as (l1 & l2 & ->). eauto 10.
    + right. split; [done|]. apply list_filter_all, Forall_forall.
      intros x Hx [Hxc Hxr]. pose proof (Huniq _ Hx Hxc) as [= <-]. lia.
  - right. split; [done|]. apply list_filter_all, Forall_forall.
    intros x Hx [Hxc Hxr]. by pose proof (Huniq _ Hx Hxc).
Qed.

Lemma append_tail_rep q l m :
  queue_rep q l → 0 ≤ client_id m < num_principals → client_id m ∉ client_id <$> l →
  ∃ q', append_tail q m = Ret q' ∧ queue_rep q' (l ++ [m]).
Proof.
  intros Hq Hc Hnew. rewrite <- (rep_len _ _ Hq) in Hc. apply zget_lookup in Hc as [n E].
  pose proof (rep_seg _ _ Hq) as Hl.
  assert (∀ f, lseg (alter_node (reqs q) (client_id m) f) None l None) as Hl1.
  { intros f. apply (lseg_frame_alter _ _ _ _ (Some (client_id m))); [|done].
    by intros ? [= <-]. }
  set (p := back None l).
  set (ns' := alter_node (alter_opt (alter_node (reqs q) (client_id m) (λ n, with_r n (Some m))) p
    (λ n, with_next n (Some (client_id m)))) (client_id m) (λ n, with_next (with_prev n p) None)).
  exists (mkRq ns' (match head q with None => Some (client_id m) | h => h end)
    (Some (client_id m)) (nelems q + 1) (nbytes q + req_size m)).
  assert (∀ i f, is_Some (zget (reqs q) i) →
    is_Some (zget (alter_node (reqs q) (client_id m) f) i)) as Hs1.
  { intros i f ?. apply zget_is_Some. rewrite zlen_alter. by apply zget_is_Some. }
  assert (∀ c, p = Some c → is_Some (zget (reqs q) c) ∧ c ≠ client_id m) as Hp.
  { intros c Hb. destruct (back_is_Some _ _ _ _ Hl Hb) as [? Hin]. split; [done|].
    by intros ->. }
  split.
  { unfold append_tail. rewrite update_node_alter by by eexists. cbn -[last].
    destruct l as [|m0 l0] eqn:El; rewrite (rep_head _ _ Hq); cbn -[last].
    - rewrite update_node_alter by (apply Hs1; by eexists). done.
    - rewrite (rep_tail _ _ Hq), <- El. fold p in Hp |- *. unfold ns'. subst p.
      destruct (back None l) as [t|] eqn:Et; rewrite <- El, Et in *; cbn -[last]; cycle 1.
      { unfold back in Et. destruct (last l) eqn:Elast; [done|].
        apply last_None in Elast. congruence. }
      destruct (Hp t eq_refl) as [? _].
      rewrite update_node_alter by by apply Hs1. cbn -[last].
      rewrite update_node_alter; [done|]. apply zget_is_Some. cbn. rewrite !zlen_alter.
      apply zget_is_Some. by eexists. }
  assert (∀ c n' m', zget ns' c = Some n' → r n' = Some m' →
    (c = client_id m ∧ m' = m) ∨ (c ≠ client_id m ∧ ∃ n0, zget (reqs q) c = Some n0 ∧ r n0 = Some m')) as Honly.
  { intros c n' m' E' R'. unfold ns' in E'. 
    apply (zget_alter_opt_r _ (Some (client_id m))) in E' as (n1 & E1 & R1); [|done].
    apply zget_alter_opt_r in E1 as (n2 & E2 & R2); [|done].
    rewrite zget_alter in E2. case_decide as D; [subst c|].
    - left. rewrite E in E2. injection E2 as <-. cbn in R2. split; congruence.
    - right. split; [done|]. exists n2. split; [done|congruence]. }
  constructor; cbn [reqs head tail nelems nbytes].
  - unfold ns'. rewrite zlen_alter, zlen_alter_opt, zlen_alter. apply Hq.
  - rewrite fmap_app. apply NoDup_app. split; [apply Hq|]. split; [|apply NoDup_singleton].
    intros x Hx Hx'. apply list_elem_of_singleton in Hx' as ->. done.
  - apply lseg_app. split.
    + apply (lseg_frame_alter _ _ _ _ (Some (client_id m))); [by intros ? [= <-]|].
      pose proof (lseg_relink_next _ _ _ (Some (client_id m)) (rep_nodup _ _ Hq)
        (Hl1 (λ n, with_r n (Some m)))) as Hl2. exact Hl2.
    + split; [|done]. cbn [front]. fold p. unfold ns'. rewrite zget_alter, decide_True by done.
      exists (with_next (with_prev (with_r n (Some m)) p) None). split; [|done].
      destruct p as [t|] eqn:Et; cbn [alter_opt].
      * rewrite zget_alter, decide_False by by apply Hp.
        rewrite zget_alter, decide_True, E by done. done.
      * rewrite zget_alter, decide_True, E by done. done.
  - intros c n' m' E' R'. destruct (Honly _ _ _ E' R') as [[-> ->]|(? & n0 & E0 & R0)].
    + split; [|done]. apply elem_of_app. right. by left.
    + destruct (rep_only _ _ Hq _ _ _ E0 R0) as [? ?]. split; [|done]. apply elem_of_app. by left.
  - rewrite (rep_head _ _ Hq). by destruct l.
  - unfold back. by rewrite last_snoc.
  - rewrite (rep_nelems _ _ Hq), zlen_app. done.
  - rewrite (rep_nbytes _ _ Hq), total_bytes_app. cbn. lia.
Qed.

Definition marks_agree (q : Req_queue) (marks : Z → Z * Z) : Prop :=
  ∀ c n, zget (reqs q) c = Some n → (out_rid n, out_v n) = marks c.

Lemma marks_set_node q marks i n n0 :
  marks_agree q marks → zget (reqs q) i = Some n0 →
  out_rid n = out_rid n0 → out_v n = out_v n0 → marks_agree (set_node q i n) marks.
Proof.
  intros Hm E H1 H2 c n' E'. cbn in E'. rewrite zget_zset in E'. case_decide as D; [|by eapply Hm].
  destruct D as [-> _]. injection E' as <-. rewrite H1, H2. by eapply Hm.
Qed.

Lemma marks_update q q' marks i f :
  marks_agree q marks → (∀ n, out_rid (f n) = out_rid n ∧ out_v (f n) = out_v n) →
  update_node q i f = Ret q' → marks_agree q' marks.
Proof.
  unfold update_node. intros Hm Hf E. invert_outcome. eapply marks_set_node; [done..| |]; apply Hf.
Qed.

(** Linking never touches the marks of [in_progress]. *)
Ltac marks_solve :=
  repeat match goal with
  | |- marks_agree (set_head ?q _) ?m => change (marks_agree q m)
  | |- marks_agree (set_tail ?q _) ?m => change (marks_agree q m)
  | |- marks_agree (set_counts ?q _ _) ?m => change (marks_agree q m)
  | E : update_node ?q0 ?i ?f = Ret ?q |- marks_agree ?q ?m =>
      apply (λ Hm, marks_update q0 q m i f Hm (λ _, conj eq_refl eq_refl) E)
  | |- marks_agree (set_node _ _ _) _ => eapply marks_set_node; [|eassumption|reflexivity|reflexivity]
  end; try done.

Lemma remove_client_marks q cid rid q' b marks :
  marks_agree q marks → remove_client q cid rid = Ret (q', b) → marks_agree q' marks.
Proof.
  unfold remove_client, node_at. intros Hm E. invert_outcome.
  destruct (r _) as [m|]; [|by simplify_eq]. destruct (_ <=? _); [|by simplify_eq].
  invert_outcome. repeat (case_match; invert_outcome; simplify_eq); marks_solve.
Qed.

Lemma append_tail_marks q m q' marks :
  marks_agree q marks → append_tail q m = Ret q' → marks_agree q' marks.
Proof.
  unfold append_tail. intros Hm E. invert_outcome. case_match; invert_outcome; marks_solve.
Qed.

Lemma append_marks q m q' b marks :
  marks_agree q marks → append q m = Ret (q', b) → marks_agree q' marks.
Proof.
  unfold append. intros Hm E. invert_outcome. repeat (case_match; invert_outcome; simplify_eq); try done.
  - eapply append_tail_marks; [|done]. by eapply remove_client_marks.
  - by eapply append_tail_marks.
Qed.

Lemma remove_marks q q' o marks :
  marks_agree q marks → remove q = Ret (q', o) → marks_agree q' marks.
Proof.
  unfold remove. intros Hm E. repeat (case_match; invert_outcome; simplify_eq); marks_solve.
Qed.

Lemma clear_loop q l :
  Forall (λ i, 0 ≤ i < zlen (reqs q)) l →
  ∃ q', foldl (λ acc i, q ← acc; n ← node_at q i; Ret (set_node q i (pnode_clear n))) (Ret q) l = Ret q'
    ∧ zlen (reqs q') = zlen (reqs q)
    ∧ ∀ i, i ∈ l → zget (reqs q') i = Some (pnode_clear (mkPNode None None None 0 (-1))).
Proof.
  induction l as [|i l IH] using rev_ind.
  - exists q. split; [done|]. split; [done|]. by intros i ?%elem_of_nil.
  - rewrite Forall_app, Forall_singleton. intros [Hl Hi].
    destruct (IH Hl) as (q' & IH1 & IH2 & IH3). rewrite foldl_app. cbn [foldl]. rewrite IH1. cbn.
    unfold node_at. rewrite <- IH2 in Hi.
    destruct (zget_lookup _ _ Hi) as [n ->]. cbn. eexists. split; [done|].
    split; [by cbn; rewrite zlen_zset|].
    intros j Hj. cbn. rewrite zget_zset. case_decide as D; [done|].
    apply IH3. apply elem_of_app in Hj as [?|Hj]; [done|]. apply list_elem_of_singleton in Hj as ->. by destruct D.
Qed.

Lemma init_rep ns :
  zlen ns = num_principals →
  (∀ i, 0 ≤ i < num_principals → zget ns i = Some (pnode_clear (mkPNode None None None 0 (-1)))) →
  queue_rep (mkRq ns None None 0 0) [] ∧ marks_agree (mkRq ns None None 0 0) (λ _, (0, -1)).
Proof.
  intros Hlen Hns.
  assert (∀ c n, zget ns c = Some n → n = pnode_clear (mkPNode None None None 0 (-1))) as Hall.
  { intros c n E. pose proof (zget_Some_lt _ _ _ E) as Hc. rewrite Hlen in Hc.
    rewrite Hns in E by done. by injection E. }
  split; [|by intros c n ->%Hall].
  constructor; cbn; try done; [constructor|].
  by intros c n m ->%Hall.
Qed.

(** ** The queue as a FIFO list

    An abstract queue is the list of its requests in arrival order and the last
    marks of [in_progress]. *)
Record Spec := mkSpec { items : list R; marks : Z → Z * Z }.

Definition spec_make : Spec := mkSpec [] (λ _, (0, -1)).

Inductive op :=
| OAppend (m : R) | ORemove | ORemoveClient (cid rid : Z) | OInProgress (cid rid v : Z)
| OClear | OFirst | OFirstClient (cid : Z) | OSize | ONumBytes.
Inductive result := RBool (b : bool) | RReq (o : option R) | RInt (z : Z) | RUnit.

Definition op_ok (o : op) : Prop :=
  match o with
  | OAppend m => 0 ≤ client_id m < num_principals
  | ORemoveClient cid _ | OInProgress cid _ _ | OFirstClient cid => 0 ≤ cid < num_principals
  | _ => True
  end.

Definition step (q : Req_queue) (o : op) : outcome (Req_queue * result) :=
  match o with
  | OAppend m => '(q, b) ← append q m; Ret (q, RBool b)
  | ORemove => '(q, x) ← remove q; Ret (q, RReq x)
  | ORemoveClient cid rid => '(q, b) ← remove_client q cid rid; Ret (q, RBool b)
  | OInProgress cid rid v => '(q, b) ← in_progress q cid rid v; Ret (q, RBool b)
  | OClear => q ← clear q; Ret (q, RUnit)
  | OFirst => x ← first q; Ret (q, RReq x)
  | OFirstClient cid => x ← first_client q cid; Ret (q, RReq x)
  | OSize => Ret (q, RInt (size q))
  | ONumBytes => Ret (q, RInt (num_bytes q))
  end.

Definition spec_step (s : Spec) (o : op) : Spec * result :=
  let l := items s in
  match o with
  | OAppend m => let '(l', b) := spec_append l m in (mkSpec l' (marks s), RBool b)
  | ORemove => (mkSpec (list.tail l) (marks s), RReq (list.head l))
  | ORemoveClient cid rid =>
      (mkSpec (spec_remove_client l cid rid) (marks s),
       RBool match l with m :: _ => bool_decide (client_id m = cid ∧ request_id m ≤ rid) | [] => false end)
  | OInProgress cid rid v =>
      let '(orid, ov) := marks s cid in
      if (orid <? rid) || (ov <? v) then 
        (mkSpec l (λ c, if decide (c = cid) then (rid, v) else marks s c), RBool false)
      else (s, RBool true)
  | OClear => (spec_make, RUnit)
  | OFirst => (s, RReq (list.head l))
  | OFirstClient cid => (s, RReq (spec_in_queue l cid))
  | OSize => (s, RInt (zlen l))
  | ONumBytes => (s, RInt (total_bytes l))
  end.

Fixpoint run (q : Req_queue) (os : list op) : outcome (Req_queue * list result) :=
  match os with
  | [] => Ret (q, [])
  | o :: os => '(q, x) ← step q o; '(q, xs) ← run q os; Ret (q, x :: xs)
  end.

Fixpoint spec_run (s : Spec) (os : list op) : Spec * list result :=
  match os with
  | [] => (s, [])
  | o :: os =>
      let '(s, x) := spec_step s o in
      let '(s, xs) := spec_run s os in
      (s, x :: xs)
  end.

Definition represents (q : Req_queue) (s : Spec) : Prop :=
  queue_rep q (items s) ∧ marks_agree q (marks s).

Lemma spec_remove_head l cid rid m l1 l2 :
  NoDup (client_id <$> l) → l = l1 ++ m :: l2 → client_id m = cid → request_id m ≤ rid →
  bool_decide (l1 = []) =
    match l with m :: _ => bool_decide (client_id m = cid ∧ request_id m ≤ rid) | [] => false end.
Proof.
  intros Hnd -> <- Hr. destruct l1 as [|m1 l1]; cbn; [by rewrite !bool_decide_true by done|].
  rewrite bool_decide_false; [done|].
  intros [Hc _].
  cbn in Hnd. apply NoDup_cons in Hnd as [Hnd _]. apply Hnd. rewrite Hc, fmap_app, fmap_cons.
  apply elem_of_app. right. by left.
Qed.

Lemma remove_client_rep q l cid rid :
  queue_rep q l → 0 ≤ cid < num_principals →
  ∃ q' b, remove_client q cid rid = Ret (q', b) ∧ queue_rep q' (spec_remove_client l cid rid) ∧
    b = match l with m :: _ => bool_decide (client_id m = cid ∧ request_id m ≤ rid) | [] => false end.
Proof.
  intros Hq Hc. pose proof (rep_nodup _ _ Hq) as Hnd.
  destruct (remove_client_cases _ _ _ rid Hq Hc) as [(l1 & m & l2 & El & <- & Hr)|[E1 E2]].
  - pose proof (spec_remove_head _ _ _ _ _ _ Hnd El eq_refl Hr) as Hb. subst l.
    rewrite (remove_client_unlink _ _ _ _ _ Hq Hr), spec_remove_split by done.
    do 2 eexists. split; [done|]. split; [by apply unlink_rep|done].
  - exists q, false. rewrite E2. split; [done|]. split; [done|].
    destruct l as [|m l]; [done|]. rewrite bool_decide_false; [done|]. intros Hm.
    unfold spec_remove_client in E2. rewrite filter_cons_False in E2 by tauto.
    apply (f_equal length) in E2. pose proof (length_filter (λ m, ¬ (client_id m = cid ∧ request_id m ≤ rid)) l).
    cbn in E2. lia.
Qed.

Lemma append_rep q l m :
  queue_rep q l → 0 ≤ client_id m < num_principals →
  ∃ q', append q m = Ret (q', (spec_append l m).2) ∧ queue_rep q' (spec_append l m).1.
Proof.
  intros Hq Hc. pose proof Hc as Hc'. rewrite <- (rep_len _ _ Hq) in Hc'.
  apply zget_lookup in Hc' as [n E]. unfold append, spec_append, node_at. rewrite E. cbn.
  rewrite (rep_client _ _ _ _ Hq E).
  destruct (r n) as [m'|] eqn:Er; cycle 1.
  - destruct (append_tail_rep q l m Hq Hc) as (q' & -> & ?); [|by eexists].
    intros (m' & Heq & Hm')%list_elem_of_fmap. destruct (rep_lookup _ _ _ Hq Hm') as (n' & ? & ?).
    congruence.
  - destruct (request_id m' <? request_id m) eqn:Elt; [|by eexists]. zprop.
    destruct (remove_client_rep q l (client_id m) (request_id m) Hq Hc) as (q1 & b & -> & Hq1 & _). cbn.
    destruct (append_tail_rep q1 _ m Hq1 Hc) as (q' & -> & ?); [|by eexists].
    intros (m1 & Heq & (Hno & Hm1)%list_elem_of_filter)%list_elem_of_fmap.
    destruct (rep_lookup _ _ _ Hq Hm1) as (n' & ? & ?). apply Hno. split; [done|].
    assert (m1 = m') as -> by congruence. lia.
Qed.

Lemma remove_rep q l :
  queue_rep q l →
  ∃ q', remove q = Ret (q', list.head l) ∧ queue_rep q' (list.tail l).
Proof.
  intros Hq. unfold remove. rewrite (rep_head _ _ Hq). destruct l as [|m l]; cbn; [by eexists|].
  pose proof (rep_seg _ _ Hq) as [(n & E & Er & Ep & En) Hl]. cbn [front] in *.
  rewrite E. cbn. rewrite Er. cbn. rewrite En.
  pose proof (unlink_rep q [] m l _ _ Hq eq_refl eq_refl) as Hrep. unfold unlink in Hrep. cbn in Hrep.
  unfold alter_node in Hrep at 1. rewrite E in Hrep.
  destruct l as [|m2 l]; cbn in *; [by eexists|].
  rewrite update_node_alter; cbn.
  { unfold alter_node in Hrep at 1. eexists. split; [done|].
    assert (tail q = back None (m2 :: l)) as -> by (rewrite (rep_tail _ _ Hq); by destruct l).
    exact Hrep. }
  apply zget_is_Some. rewrite zlen_zset. apply zget_is_Some. destruct Hl as [(n2 & -> & _) _].
  by eexists.
Qed.

Lemma first_rep q l : queue_rep q l → first q = Ret (list.head l).
Proof.
  intros Hq. unfold first. rewrite (rep_head _ _ Hq). destruct l as [|m l]; [done|].
  destruct (rep_lookup _ _ m Hq) as (n & E & Er); [by left|]. cbn. rewrite E. cbn. by rewrite Er.
Qed.

Lemma clear_rep q l :
  queue_rep q l → ∃ q', clear q = Ret q' ∧ queue_rep q' [] ∧ marks_agree q' (λ _, (0, -1)).
Proof.
  intros Hq. unfold clear.
  destruct (clear_loop q (seqZ 0 num_principals)) as (q' & -> & Hlen & Hcl).
  { apply Forall_forall. intros i Hi%elem_of_seqZ. rewrite (rep_len _ _ Hq). lia. }
  cbn. eexists. split; [done|]. apply init_rep; [by rewrite Hlen, (rep_len _ _ Hq)|].
  intros i Hi. apply Hcl, elem_of_seqZ. lia.
Qed.

Lemma lseg_marks ns p l e i n a b :
  zget ns i = Some n → lseg ns p l e →
  lseg (zset ns i (mkPNode (r n) (next n) (prev n) a b)) p l e.
Proof.
  intros E. revert p. induction l as [|m l IH]; intros p; [done|]. cbn [lseg].
  intros [(n' & E' & Hn') Hl]. split; [|by apply IH]. rewrite zget_zset. case_decide as D.
  - destruct D as [-> _]. rewrite E in E'. injection E' as <-. by eexists.
  - by eexists.
Qed.

Lemma in_progress_rep q s cid rid v :
  represents q s → 0 ≤ cid < num_principals →
  ∃ q', step q (OInProgress cid rid v) = Ret (q', (spec_step s (OInProgress cid rid v)).2) ∧
    represents q' (spec_step s (OInProgress cid rid v)).1.
Proof.
  intros [Hq Hm] Hc. rewrite <- (rep_len _ _ Hq) in Hc. pose proof (zget_lookup _ _ Hc) as [n E].
  cbn. unfold in_progress, node_at. rewrite E. cbn. rewrite <- (Hm _ _ E).
  destruct ((out_rid n <? rid) || (out_v n <? v)); cbn; [|by eexists].
  eexists. split; [done|]. unfold represents. cbn. split; [constructor; cbn; try apply Hq|].
  - rewrite zlen_zset. apply Hq.
  - apply lseg_marks; [done|apply Hq].
  - intros c n' m'. rewrite zget_zset. case_decide as D.
    + destruct D as [-> _]. intros [= <-]. intros Hrm; apply (rep_only _ _ Hq _ n); [|exact Hrm]. done.
    + apply (rep_only _ _ Hq).
  - intros c n'. cbn. rewrite zget_zset. case_decide as D.
    + destruct D as [-> _]. intros [= <-]. by rewrite decide_True.
    + intros E'. rewrite decide_False; [by apply Hm|]. intros ->. by destruct D.
Qed.

Lemma step_refines q s o :
  represents q s → op_ok o →
  ∃ q', step q o = Ret (q', (spec_step s o).2) ∧ represents q' (spec_step s o).1.
Proof.
  intros Hrep Hok. destruct (Hrep) as [Hq Hm]. destruct o as [m| |cid rid|cid rid v| | |cid| |].
  - destruct (append_rep _ _ m Hq Hok) as (q' & E & Hq'). cbn. rewrite E. cbn.
    pose proof (append_marks _ _ _ _ _ Hm E). destruct (spec_append (items s) m). cbn in *.
    by exists q'.
  - destruct (remove_rep _ _ Hq) as (q' & E & Hq'). cbn. rewrite E. exists q'.
    split; [done|]. split; [done|]. by eapply remove_marks.
  - destruct (remove_client_rep _ _ cid rid Hq Hok) as (q' & b & E & Hq' & Hb).
    cbn [step]. rewrite E. exists q'. split; [by rewrite Hb|]. split; [done|].
    by eapply remove_client_marks.
  - by apply in_progress_rep.
  - destruct (clear_rep _ _ Hq) as (q' & E & ? & ?). cbn. rewrite E. by exists q'.
  - cbn. rewrite (first_rep _ _ Hq). by exists q.
  - cbn in *. pose proof Hok as Hc. rewrite <- (rep_len _ _ Hq) in Hc.
    apply zget_lookup in Hc as [n E]. unfold first_client, node_at. rewrite E. cbn.
    rewrite (rep_client _ _ _ _ Hq E). by exists q.
  - cbn. unfold size. rewrite (rep_nelems _ _ Hq). by exists q.
  - cbn. unfold num_bytes. rewrite (rep_nbytes _ _ Hq). by exists q.
Qed.

Lemma run_refines q s os :
  represents q s → Forall op_ok os →
  ∃ q', run q os = Ret (q', (spec_run s os).2) ∧ represents q' (spec_run s os).1.
Proof.
  intros Hrep Hos. revert q s Hrep. induction Hos as [|o os Ho _ IH]; intros q s Hrep.
  - by exists q.
  - destruct (step_refines _ _ _ Hrep Ho) as (q1 & E1 & Hrep1).
    destruct (IH _ _ Hrep1) as (q2 & E2 & Hrep2). cbn. rewrite E1. cbn. rewrite E2.
    exists q2. destruct (spec_step s o) as [s1 x]. cbn in *. by destruct (spec_run s1 os).
Qed.

Lemma make_represents : 0 ≤ num_principals → represents make spec_make.
Proof.
  intros Hnp. apply init_rep; [rewrite zlen_replicate; lia|].
  intros i Hi. apply zget_replicate. lia.
Qed.

(** C15: the linked queue of requests implements a FIFO list with at most one
    request per client.  Every sequence of operations with client numbers of the
    configuration, started on the queue of the constructor, runs without a failed
    assertion or a dangling pointer and returns what the list returns: [append]
    replaces an older request of the same client by putting the new one at the
    end and refuses one that is not newer, [remove] pops the oldest request,
    [remove(cid, rid)] drops a request not newer than [rid] and reports whether
    it was the first one, [in_progress] answers from the last mark of the client. *)
Theorem req_queue_refines_fifo os :
  0 ≤ num_principals → Forall op_ok os →
  ∃ q, run make os = Ret (q, (spec_run spec_make os).2) ∧ represents q (spec_run spec_make os).1.
Proof. intros Hnp Hos. apply run_refines; [by apply make_represents|done]. Qed.
End req_queue.

(** Requests as triples, for the witnesses. *)
#[export] Instance triple_request : RequestMsg (Z * Z * Z) := {|
  client_id := λ m, m.1.1; request_id := λ m, m.1.2; req_size := λ m, m.2 |}.

Definition sample_ops : list (@op (Z * Z * Z)) :=
  [OAppend (1, 10, 80); OAppend (2, 7, 48); OAppend (3, 5, 64); OAppend (1, 9, 80);
   OAppend (1, 11, 96); OFirst; ORemoveClient 3 5; ORemoveClient 2 8; OSize; ONumBytes;
   OInProgress 1 11 0; OInProgress 1 11 0; OInProgress 1 11 1; ORemove; ORemove; OClear].

Lemma req_queue_refines_fifo_witness :
  ∃ q, run (H := default_config 1 0) (make (H := default_config 1 0)) sample_ops =
    Ret (q, [RBool true; RBool true; RBool true; RBool false; RBool true; RReq (Some (2, 7, 48));
             RBool false; RBool true; RInt 1; RInt 96;
             RBool false; RBool true; RBool false; RReq (Some (1, 11, 96)); RReq None; RUnit]).
Proof.
  destruct (req_queue_refines_fifo (H := default_config 1 0) sample_ops) as (q & E & _);
    [vm_compute; discriminate | repeat constructor; vm_compute; intuition congruence |].
  exists q. rewrite E. vm_compute. reflexivity.
Defined.
End RQ.
