(* ===== verification/StableEstimator.v ===== *)
(** * Stable_estimator: where did the others stop?

    A recovering replica asks for the last stable checkpoint and the last prepared
    sequence number of every replica (src/src/Query_stable.cc, Reply_stable.cc) and
    estimates the largest checkpoint that can be stable at a correct replica
    (src/src/Stable_estimator.{h,cc}). *)
From S2P Require Import Prelude Node KMax Certificate Messages.
Import HmacModel Auth.

Module SE.
(** ** Messages *)
Section messages.
Context (hmac_md : list Z → list Z → list Z) (char_signed : bool).
Context `{Config}.

Record Reply_stable := mkReplyStable {
  rs_extra : Z; rs_size : Z; rs_lc : Z; rs_lp : Z; rs_id : Z; rs_nonce : Z; rs_mac : list Z }.

Definition Query_stable_tag : Z := 16.
Definition Reply_stable_tag : Z := 17.
Definition sizeof_Reply_stable_rep : Z := 32.

Definition reply_stable_bytes (m : Reply_stable) : list Z :=
  Msg.header_bytes Reply_stable_tag (rs_extra m) (rs_size m) ++ Msg.le 8 (rs_lc m) ++
  Msg.le 8 (rs_lp m) ++ Msg.le 4 (rs_id m) ++ Msg.le 4 (rs_nonce m).

Definition new_reply_stable (lc lp n : Z) (p : Principal) : Reply_stable :=
  let m := mkReplyStable 0 (Msg.ALIGNED_SIZE (sizeof_Reply_stable_rep + HMAC_size)) lc lp node_id n [] in
  mkReplyStable 0 (rs_size m) lc lp node_id n (gen_mac_out hmac_md p (reply_stable_bytes m)).

Definition reply_stable_re_authenticate (m : Reply_stable) (p : Principal) : Reply_stable :=
  mkReplyStable (rs_extra m) (rs_size m) (rs_lc m) (rs_lp m) (rs_id m) (rs_nonce m)
    (gen_mac_out hmac_md p (reply_stable_bytes m)).

Definition reply_stable_verify (k : keys) (m : Reply_stable) : outcome bool :=
  if negb (is_replica (rs_id m)) then Ret false
  else if negb (Z.rem (rs_lc m) checkpoint_interval =? 0) || (rs_lp m <? rs_lc m) then Ret false
  else if rs_size m - sizeof_Reply_stable_rep <? HMAC_size then Ret false
  else
    match i_to_p (principals k) (rs_id m) with
    | Some p => Ret (verify_mac_in hmac_md char_signed p (reply_stable_bytes m)
                       (take (Z.to_nat HMAC_size) (rs_mac m)))
    | None => Ret false
    end.

Record Query_stable := mkQueryStable {
  qs_extra : Z; qs_size : Z; qs_id : Z; qs_nonce : Z; qs_auth : list Z }.

Definition sizeof_Query_stable_rep : Z := 16.

Definition query_stable_bytes (m : Query_stable) : list Z :=
  Msg.header_bytes Query_stable_tag (qs_extra m) (qs_size m) ++ Msg.le 4 (qs_id m) ++ Msg.le 4 (qs_nonce m).

(** The nonce is [random_int()]. *)
Definition new_query_stable (k : keys) (nonce : Z) : outcome Query_stable :=
  let m := mkQueryStable 0 (Msg.ALIGNED_SIZE (sizeof_Query_stable_rep + auth_size (-1))) node_id nonce [] in
  a ← gen_auth hmac_md (principals k) (query_stable_bytes m) false;
  Ret (mkQueryStable 0 (qs_size m) node_id nonce a).

Definition query_stable_re_authenticate (k : keys) (m : Query_stable) : outcome Query_stable :=
  a ← gen_auth hmac_md (principals k) (query_stable_bytes m) false;
  Ret (mkQueryStable (qs_extra m) (qs_size m) (qs_id m) (qs_nonce m) a).

Definition query_stable_verify (k : keys) (m : Query_stable) : outcome bool :=
  if negb (is_replica (qs_id m)) then Ret false
  else if qs_size m - sizeof_Query_stable_rep <? auth_size (qs_id m) then Ret false
  else verify_auth hmac_md char_signed (principals k) (qs_id m) (query_stable_bytes m) true (qs_auth m).
End messages.

(** ** The estimator *)
Section estimator.
Context `{Config}.

Record Val := mkVal { lc : Z; lec : Z; gep : Z; lp : Z }.
Record Stable_estimator := mkSe { vals : list Val; est : Z }.

Definition val_clear : Val := mkVal Seqno_max 0 0 (-1).
Definition make : Stable_estimator := mkSe (replicate (Z.to_nat num_replicas) val_clear) (-1).
Definition estimate (s : Stable_estimator) : Z := est s.

Definition nge : Z := max_faulty + 1.
Definition nle : Z := 2 * max_faulty + 1.
Definition val_complete (v : Val) : bool := (nle <=? lec v) && (nge <=? gep v).

Definition bump (b : bool) (z : Z) : Z := if b then z + 1 else z.

(** The body of the loop for [i] different from [id]: the other value and the
    value of the sender, in the order of the code. *)
Definition visit_other (mlc mlp oc op : Z) (v : Val) : Val :=
  let v := mkVal (lc v) (bump ((lc v <? oc) && (mlc <=? lc v)) (lec v)) (gep v) (lp v) in
  let v := mkVal (lc v) (lec v) (bump ((op <? lc v) && (lc v <=? mlp)) (gep v)) (lp v) in
  mkVal (lc v) (lec v) (bump (mlc <=? lp v) (gep v)) (lp v).
Definition visit_own (mlc : Z) (v val : Val) : Val :=
  mkVal (lc val) (bump (lc v <=? mlc) (lec val)) (gep val) (lp val).

Fixpoint add_loop (id mlc mlp oc op : Z) (l : list Z) (s : Stable_estimator) : outcome Stable_estimator :=
  match l with
  | [] => Ret s
  | i :: l =>
      if i =? id then add_loop id mlc mlp oc op l s
      else
        v ← of_option Undefined (zget (vals s) i);
        val ← of_option Undefined (zget (vals s) id);
        let vs := zset (zset (vals s) id (visit_own mlc v val)) i (visit_other mlc mlp oc op v) in
        if val_complete (visit_other mlc mlp oc op v) then Ret (mkSe vs (lc v))
        else add_loop id mlc mlp oc op l (mkSe vs (est s))
  end.

(** What the message changes in the value of its sender. *)
Definition note_lc (mlc : Z) (v : Val) : Val :=
  if mlc <? lc v then mkVal mlc 1 1 (lp v) else v.
Definition note_lp (mlp : Z) (v : Val) : Val :=
  if lp v <? mlp then mkVal (lc v) (lec v) (gep v) mlp else v.

(** [add], with the result of [m->verify()]; the sequence numbers are narrowed to
    [int]. *)
Definition add (s : Stable_estimator) (m : Reply_stable) (mine verified : bool)
    : outcome (Stable_estimator * bool) :=
  if mine || verified then
    let id := rs_id m in
    let mlc := to_int (rs_lc m) in
    let mlp := to_int (rs_lp m) in
    val ← of_option Undefined (zget (vals s) id);
    let oc := if mlc <? lc val then lc val else Seqno_max in
    let op := if lp val <? mlp then lp val else -1 in
    let s := mkSe (zset (vals s) id (note_lp mlp (note_lc mlc val))) (est s) in
    s ← add_loop id mlc mlp oc op (seqZ 0 num_replicas) s;
    val ← of_option Undefined (zget (vals s) id);
    let s := if (est s <? 0) && val_complete val then mkSe (vals s) (lc val) else s in
    Ret (s, 0 <=? est s)
  else Ret (s, 0 <=? est s).

Definition mark_stale (s : Stable_estimator) : Stable_estimator :=
  mkSe (replicate (Z.to_nat num_replicas) val_clear) (est s).
Definition clear (s : Stable_estimator) : Stable_estimator := mkSe (vals (mark_stale s)) (-1).

(** The division truncates towards zero. *)
Definition low_estimate (fuel : nat) (s : Stable_estimator) : outcome Z :=
  mlp ← K_max fuel (max_faulty + 1) (lp <$> vals s) Seqno_max;
  Ret (Z.quot (mlp - max_out + checkpoint_interval - 2) checkpoint_interval * checkpoint_interval).

(** Adding one verified message after the other. *)
Fixpoint add_all (s : Stable_estimator) (ms : list Reply_stable) : outcome Stable_estimator :=
  match ms with
  | [] => Ret s
  | m :: ms => '(s, _) ← add s m false true; add_all s ms
  end.

(** ** One pass over the values *)
Definition reports (vs : list Val) (id mlc i : Z) : bool :=
  negb (i =? id) && match zget vs i with Some v => lc v <=? mlc | None => false end.

Definition lc_at (vs : list Val) (i : Z) : option Z := lc <$> zget vs i.

Lemma reports_ext vs vs' id mlc i : lc_at vs i = lc_at vs' i → reports vs id mlc i = reports vs' id mlc i.
Proof.
  unfold reports, lc_at. intros E. destruct (zget vs i), (zget vs' i); cbn in E; try done. by injection E as ->.
Qed.

Lemma filter_reports_cons vs vs' id mlc i l v :
  zget vs i = Some v → i ≠ id → (∀ j, j ∈ l → j ≠ id → lc_at vs' j = lc_at vs j) →
  zlen (filter (reports vs id mlc) (i :: l)) =
    (if lc v <=? mlc then 1 else 0) + zlen (filter (reports vs' id mlc) l).
Proof.
  intros Ev Hi Hext.
  assert (filter (reports vs' id mlc) l = filter (reports vs id mlc) l) as ->.
  { apply list_filter_ext_in. intros j Hj. destruct (decide (j = id)) as [->|Hne].
    - unfold reports. by rewrite Z.eqb_refl.
    - by rewrite (reports_ext vs' vs) by auto. }
  rewrite filter_cons.
  assert (reports vs id mlc i = (lc v <=? mlc)) as ->.
  { unfold reports. by rewrite Ev, (proj2 (Z.eqb_neq _ _)). }
  destruct (lc v <=? mlc); case_decide as D; unfold zlen; cbn [length]; try lia.
  - by destruct D.
  - by destruct D.
Qed.

Definition pass_result (id mlc mlp oc op : Z) (l : list Z) (s s' : Stable_estimator) : Prop :=
  est s' = est s ∧ zlen (vals s') = zlen (vals s) ∧
  (∀ i, i ≠ id → zget (vals s') i =
     if decide (i ∈ l) then visit_other mlc mlp oc op <$> zget (vals s) i else zget (vals s) i) ∧
  (∀ val, zget (vals s) id = Some val → zget (vals s') id =
     Some (mkVal (lc val) (lec val + zlen (filter (reports (vals s) id mlc) l)) (gep val) (lp val))).

Lemma add_loop_spec id mlc mlp oc op l s :
  NoDup l → Forall (λ i, 0 ≤ i < zlen (vals s)) l → 0 ≤ id < zlen (vals s) →
  ∃ s', add_loop id mlc mlp oc op l s = Ret s' ∧
    (pass_result id mlc mlp oc op l s s' ∨
     ∃ i v, (i ∈ l) ∧ i ≠ id ∧ zget (vals s) i = Some v ∧ val_complete (visit_other mlc mlp oc op v) = true ∧
       est s' = lc v ∧ is_Some (zget (vals s') id)).
Proof.
  intros Hnd. revert s. induction Hnd as [|i l Hi Hnd IH]; intros s Hl Hid.
  { exists s. split; [done|]. left. split; [done|]. split; [done|]. split.
    - intros i _. rewrite decide_False; [done|]. by intros ?%elem_of_nil.
    - intros [a b c e] E. cbn. by rewrite E, Z.add_0_r. }
  apply Forall_cons in Hl as [Hil Hl]. cbn [add_loop]. destruct (i =? id) eqn:Ei; zprop.
  - subst i. destruct (IH s Hl Hid) as (s' & E & Hs'). exists s'. split; [done|].
    destruct Hs' as [(H1 & H2 & H3 & H4)|(j & w & Hj & ?)]; [left|right; exists j, w; split; [by right|done]]. split; [done|]. split; [done|]. split.
    + intros j Hj. rewrite H3 by done.
      destruct (decide (j ∈ l)) as [?|Hn], (decide (j ∈ id :: l)) as [Hin|Hn']; try done.
      * destruct Hn'. by right.
      * by apply elem_of_cons in Hin as [->|].
    + intros val Ev. rewrite (H4 _ Ev). rewrite filter_cons_False; [done|].
      unfold reports. rewrite Z.eqb_refl. by intros [].
  - destruct (zget_lookup _ _ Hil) as [v Ev], (zget_lookup _ _ Hid) as [val Eval].
    rewrite Ev, Eval. cbn [mbind outcome_bind of_option].
    set (vs := zset (zset (vals s) id (visit_own mlc v val)) i (visit_other mlc mlp oc op v)).
    assert (zlen vs = zlen (vals s)) as Hlen by (unfold vs; by rewrite !zlen_zset).
    assert (zget vs id = Some (visit_own mlc v val)) as Gid.
    { unfold vs. rewrite zget_zset_ne by done. by apply zget_zset_eq. }
    destruct (val_complete _) eqn:Ec.
    { eexists. split; [done|]. right. exists i, v. split; [by left|]. split; [done|]. split; [done|]. split; [done|].
      split; [done|]. cbn [vals]. rewrite Gid. by eexists. }
    destruct (IH (mkSe vs (est s))) as (s' & E & Hs'); cbn [vals]; [by rewrite Hlen..|].
    exists s'. split; [done|].
    assert (∀ j, j ≠ id → zget vs j = if decide (j = i) then Some (visit_other mlc mlp oc op v)
      else zget (vals s) j) as Gj.
    { intros j Hj. unfold vs. case_decide as D; [subst j|rewrite !zget_zset_ne by done; done].
      apply zget_zset_eq. by rewrite zlen_zset. }
    destruct Hs' as [(H1 & H2 & H3 & H4)|(j & w & Hjl & Hj & Ew & Hc & He)]; cbn [vals est] in *.
    + left. split; [done|]. split; [by rewrite H2|]. split.
      * intros j Hj. rewrite H3, Gj by done. destruct (decide (j = i)) as [->|Hji].
        -- rewrite decide_False by done. rewrite decide_True by by left. by rewrite Ev.
        -- destruct (decide (j ∈ l)) as [?|Hn], (decide (j ∈ i :: l)) as [Hin|Hn']; try done.
           ++ destruct Hn'. by right.
           ++ by apply elem_of_cons in Hin as [->|].
      * intros val' Ev'. assert (val' = val) as -> by congruence. rewrite (H4 _ Gid).
        rewrite (filter_reports_cons _ vs _ _ _ _ v); [|done|done|].
        -- unfold visit_own, bump. cbn. do 2 f_equal. destruct (lc v <=? mlc); lia.
        -- intros j Hj Hne. unfold lc_at. rewrite Gj, decide_False by (done || by intros ->). done.
    + right. rewrite Gj, decide_False in Ew by (done || by intros ->).
      exists j, w. split; [by right|done].
Qed.

(** ** The counts of distinct reports *)
Definition report_ok (m : Reply_stable) : Prop :=
  is_replica (rs_id m) = true ∧ 0 ≤ rs_lc m < 2 ^ 31 ∧ 0 ≤ rs_lp m < 2 ^ 31.

(** The number of reports whose last checkpoint is at most [c]. *)
Definition below (ms : list Reply_stable) (c : Z) : Z := zlen (filter (λ m, rs_lc m ≤ c) ms).

Record counted (ms : list Reply_stable) (s : Stable_estimator) : Prop := {
  counted_len : zlen (vals s) = num_replicas;
  counted_est : est s = -1;
  counted_heard : ∀ m, m ∈ ms → ∃ v, zget (vals s) (rs_id m) = Some v ∧
    lc v = rs_lc m ∧ lec v = below ms (rs_lc m);
  counted_unheard : ∀ i, 0 ≤ i < num_replicas → (i ∉ rs_id <$> ms) → zget (vals s) i = Some val_clear;
}.

Lemma below_snoc ms m c : below (ms ++ [m]) c = below ms c + if rs_lc m <=? c then 1 else 0.
Proof.
  unfold below, zlen. rewrite filter_app, length_app, filter_cons, filter_nil.
  destruct (Z.leb_spec (rs_lc m) c); [rewrite decide_True by done|rewrite decide_False by lia]; cbn; lia.
Qed.

Lemma reports_count ms s id mlc :
  NoDup (rs_id <$> ms) → Forall report_ok ms → counted ms s → (id ∉ rs_id <$> ms) → mlc < Seqno_max →
  zlen (filter (reports (vals s) id mlc) (seqZ 0 num_replicas)) = below ms mlc.
Proof.
  intros Hnd Hok Hc Hid Hmlc. unfold below, zlen. f_equal.
  rewrite <- (length_fmap rs_id (filter _ ms)). apply Permutation_length, NoDup_Permutation.
  - apply NoDup_filter, NoDup_seqZ.
  - clear -Hnd. induction ms as [|m ms IH]; [constructor|].
    rewrite fmap_cons, NoDup_cons in Hnd. destruct Hnd as [Hm Hnd]. rewrite filter_cons.
    case_decide; [|by apply IH]. rewrite fmap_cons, NoDup_cons. split; [|by apply IH].
    intros (m' & Heq & [_ Hin]%list_elem_of_filter)%list_elem_of_fmap. apply Hm. rewrite Heq.
    by apply list_elem_of_fmap_2.
  - intros i. rewrite list_elem_of_filter, elem_of_seqZ, list_elem_of_fmap. unfold reports. split.
    + intros [Hr Hi]. destruct (decide (i ∈ rs_id <$> ms)) as [Hin|Hnin].
      * apply list_elem_of_fmap in Hin as (m & -> & Hm). exists m. split; [done|].
        apply list_elem_of_filter. split; [|done].
        destruct (counted_heard _ _ Hc _ Hm) as (v & E & <- & _). rewrite E in Hr.
        apply Is_true_true, andb_true_iff in Hr as [_ Hr]. by zprop.
      * rewrite (counted_unheard _ _ Hc) in Hr by (done || lia). cbn in Hr.
        apply Is_true_true, andb_true_iff in Hr as [_ Hr]. zprop. lia.
    + intros (m & -> & [Hlc Hm]%list_elem_of_filter). split.
      * destruct (counted_heard _ _ Hc _ Hm) as (v & -> & -> & _). apply Is_true_true, andb_true_iff.
        split; [|by apply Z.leb_le]. apply negb_true_iff, Z.eqb_neq. intros Heq. apply Hid.
        rewrite <- Heq. by apply list_elem_of_fmap_2.
      * rewrite Forall_forall in Hok. destruct (Hok _ Hm) as [Hr%is_replica_spec _]. lia.
Qed.

Lemma visit_other_heard mlc mlp v :
  lc v < Seqno_max → lec (visit_other mlc mlp Seqno_max (-1) v) = lec v + (if mlc <=? lc v then 1 else 0).
Proof.
  intros Hv. unfold visit_other. cbn [lec lc lp gep]. rewrite (proj2 (Z.ltb_lt _ _)) by done. cbn [andb].
  unfold bump. destruct (mlc <=? lc v); lia.
Qed.

Lemma visit_other_unheard mlc mlp :
  0 ≤ mlc → mlp < 2 ^ 31 → visit_other mlc mlp Seqno_max (-1) val_clear = val_clear.
Proof.
  intros Hc Hp. unfold visit_other, val_clear. cbn [lec lc lp gep].
  assert (2 ^ 31 < Seqno_max) by by vm_compute.
  rewrite (proj2 (Z.ltb_ge Seqno_max Seqno_max)) by lia.
  rewrite (proj2 (Z.leb_gt Seqno_max mlp)) by lia. rewrite andb_false_r.
  rewrite (proj2 (Z.leb_gt mlc (-1))) by lia. done.
Qed.

(** The state in which the loop starts when the sender was not heard before. *)
Definition start (m : Reply_stable) (s : Stable_estimator) : Stable_estimator :=
  mkSe (zset (vals s) (rs_id m) (mkVal (rs_lc m) 1 1 (rs_lp m))) (est s).

Lemma Seqno_max_big : 2 ^ 31 < Seqno_max.
Proof. by vm_compute. Qed.

Section fresh.
Context (ms : list Reply_stable) (m : Reply_stable) (s : Stable_estimator).
Context (Hnd : NoDup (rs_id <$> ms)) (Hnew : rs_id m ∉ rs_id <$> ms).
Context (Hok : Forall report_ok ms) (Hm : report_ok m) (Hc : counted ms s).

Lemma fresh_other m' : m' ∈ ms → rs_id m' ≠ rs_id m ∧ 0 ≤ rs_id m' < num_replicas ∧ 0 ≤ rs_lc m' < 2 ^ 31.
Proof.
  intros Hm'. rewrite Forall_forall in Hok. destruct (Hok _ Hm') as (?%is_replica_spec & ? & _).
  split; [|lia]. intros Heq. apply Hnew. rewrite <- Heq. by apply list_elem_of_fmap_2.
Qed.

Lemma start_get i : zget (vals (start m s)) i =
  if decide (i = rs_id m) then Some (mkVal (rs_lc m) 1 1 (rs_lp m)) else zget (vals s) i.
Proof.
  destruct Hm as (Hid%is_replica_spec & _). cbn. case_decide as D; [subst i|by apply zget_zset_ne].
  apply zget_zset_eq. by rewrite (counted_len _ _ Hc).
Qed.

Lemma add_fresh :
  add s m false true =
    (s1 ← add_loop (rs_id m) (rs_lc m) (rs_lp m) Seqno_max (-1) (seqZ 0 num_replicas) (start m s);
     val ← of_option Undefined (zget (vals s1) (rs_id m));
     let s1 := if (est s1 <? 0) && val_complete val then mkSe (vals s1) (lc val) else s1 in
     Ret (s1, 0 <=? est s1)).
Proof.
  destruct Hm as (Hid%is_replica_spec & Hlc & Hlp). pose proof Seqno_max_big.
  unfold add. cbn [orb]. rewrite !to_int_small, (counted_unheard _ _ Hc) by (done || lia).
  cbn [mbind outcome_bind of_option lc lp val_clear].
  unfold note_lc. cbn [lc lp val_clear]. rewrite !(proj2 (Z.ltb_lt (rs_lc m) _)) by lia.
  unfold note_lp. cbn [lc lp lec gep]. by rewrite !(proj2 (Z.ltb_lt (-1) _)) by lia.
Qed.

Lemma heard_visited m' v :
  m' ∈ ms → zget (vals s) (rs_id m') = Some v →
  lc v = rs_lc m' ∧
  lec (visit_other (rs_lc m) (rs_lp m) Seqno_max (-1) v) = below (ms ++ [m]) (rs_lc m').
Proof.
  intros Hm' Ev. destruct (counted_heard _ _ Hc _ Hm') as (v' & Ev' & El & Ec).
  assert (v' = v) as -> by congruence. split; [done|].
  destruct (fresh_other _ Hm') as (_ & _ & ?). pose proof Seqno_max_big.
  rewrite visit_other_heard by lia. by rewrite below_snoc, Ec, El.
Qed.

Lemma start_count :
  1 + zlen (filter (reports (vals (start m s)) (rs_id m) (rs_lc m)) (seqZ 0 num_replicas)) =
    below (ms ++ [m]) (rs_lc m).
Proof.
  destruct Hm as (_ & Hlc & _). pose proof Seqno_max_big.
  assert (filter (reports (vals (start m s)) (rs_id m) (rs_lc m)) (seqZ 0 num_replicas) =
    filter (reports (vals s) (rs_id m) (rs_lc m)) (seqZ 0 num_replicas)) as ->.
  { apply list_filter_ext_in. intros i _. destruct (decide (i = rs_id m)) as [->|Hne].
    - unfold reports. by rewrite Z.eqb_refl.
    - rewrite (reports_ext _ (vals s)); [done|]. unfold lc_at. by rewrite start_get, decide_False. }
  rewrite (reports_count ms) by (done || lia). rewrite below_snoc, Z.leb_refl. lia.
Qed.

Lemma pass_counted s1 own :
  pass_result (rs_id m) (rs_lc m) (rs_lp m) Seqno_max (-1) (seqZ 0 num_replicas) (start m s) s1 →
  zget (vals s1) (rs_id m) = Some own → lc own = rs_lc m → lec own = below (ms ++ [m]) (rs_lc m) →
  counted (ms ++ [m]) s1.
Proof.
  destruct Hm as (Hid%is_replica_spec & Hlc & Hlp). intros (Hest & Hl1 & Hoth & _) Eown Elc Elec.
  assert (∀ i, 0 ≤ i < num_replicas → i ≠ rs_id m → zget (vals s1) i =
    visit_other (rs_lc m) (rs_lp m) Seqno_max (-1) <$> zget (vals s) i) as Hget.
  { intros i Hi Hne. rewrite Hoth, decide_True by (done || apply elem_of_seqZ; lia).
    by rewrite start_get, decide_False. }
  constructor.
  - rewrite Hl1. cbn. rewrite zlen_zset. apply Hc.
  - rewrite Hest. apply Hc.
  - intros m' [Hm'|Hm'%list_elem_of_singleton]%elem_of_app; [|subst m'; by exists own].
    destruct (counted_heard _ _ Hc _ Hm') as (v & Ev & _), (fresh_other _ Hm') as (? & ? & _).
    rewrite Hget, Ev by done. cbn. eexists. split; [done|]. exact (heard_visited _ _ Hm' Ev).
  - intros i Hi Hnin. rewrite fmap_app in Hnin.
    assert (i ≠ rs_id m) as Hne by (intros ->; apply Hnin, elem_of_app; right; by left).
    rewrite Hget, (counted_unheard _ _ Hc) by (done || (intros ?; apply Hnin, elem_of_app; by left)).
    cbn. f_equal. apply visit_other_unheard; lia.
Qed.

Lemma visited_complete i v :
  0 ≤ max_faulty → 0 ≤ i < num_replicas → i ≠ rs_id m → zget (vals s) i = Some v →
  val_complete (visit_other (rs_lc m) (rs_lp m) Seqno_max (-1) v) = true →
  0 ≤ lc v ∧ nle ≤ below (ms ++ [m]) (lc v).
Proof.
  destruct Hm as (_ & Hlc & Hlp). intros Hf Hi Hne Ev Hcomp. unfold val_complete in Hcomp. zprop.
  destruct (decide (i ∈ rs_id <$> ms)) as [Hin|Hnin].
  - apply list_elem_of_fmap in Hin as (m' & -> & Hm'). destruct (heard_visited _ _ Hm' Ev) as [Elc Elec].
    destruct (fresh_other _ Hm') as (_ & _ & ?). rewrite Elc. lia.
  - rewrite (counted_unheard _ _ Hc) in Ev by done. injection Ev as <-.
    rewrite visit_other_unheard in * by lia. unfold nle in *. cbn in *. lia.
Qed.

Lemma add_counted : 0 ≤ max_faulty →
  ∃ s', add s m false true = Ret (s', 0 <=? est s') ∧
    (counted (ms ++ [m]) s' ∨ (0 ≤ est s' ∧ nle ≤ below (ms ++ [m]) (est s'))).
Proof.
  intros Hf. rewrite add_fresh. pose proof Hm as (Hid%is_replica_spec & Hlc & _).
  assert (zlen (vals (start m s)) = num_replicas) as Hlen by (cbn; rewrite zlen_zset; apply Hc).
  destruct (add_loop_spec (rs_id m) (rs_lc m) (rs_lp m) Seqno_max (-1) (seqZ 0 num_replicas) (start m s))
    as (s1 & -> & H1); [apply NoDup_seqZ| |by rewrite Hlen|].
  { apply Forall_forall. intros i Hi%elem_of_seqZ. rewrite Hlen. lia. }
  cbn [mbind outcome_bind].
  destruct H1 as [Hp|(i & v & Hil%elem_of_seqZ & Hi & Ev & Hcomp & He & [own Ho])].
  - pose proof Hp as (Hest & _ & _ & Hown). specialize (Hown _ ltac:(by rewrite start_get, decide_True)).
    cbn [lc lec gep lp] in Hown. rewrite start_count in Hown. rewrite Hown, Hest. cbn [start est].
    rewrite (counted_est _ _ Hc). cbn [mbind outcome_bind of_option Z.ltb andb Z.compare].
    destruct (val_complete _) eqn:Ecomp; (eexists; split; [done|]).
    + right. unfold val_complete in Ecomp. cbn [lec lc est] in *. zprop. lia.
    + left. by eapply pass_counted.
  - rewrite Ho. cbn [mbind outcome_bind of_option]. rewrite start_get, decide_False in Ev by done.
    destruct (visited_complete i v Hf ltac:(lia) Hi Ev Hcomp).
    rewrite He, (proj2 (Z.ltb_ge (lc v) 0)) by lia. cbn [andb]. exists s1. split; [done|]. right. by rewrite He.
Qed.
End fresh.

Lemma add_all_app s0 l l' : add_all s0 (l ++ l') = (s ← add_all s0 l; add_all s l').
Proof.
  revert s0. induction l as [|y l IH]; intros s0; [done|]. cbn [app add_all].
  destruct (add s0 y false true) as [[s2 ?]|]; [apply IH|done].
Qed.

Lemma make_counted : 0 ≤ max_faulty → counted [] make.
Proof.
  intros Hf. assert (0 ≤ num_replicas) by (unfold num_replicas; lia). constructor; cbn.
  - rewrite zlen_replicate. lia.
  - done.
  - by intros m ?%elem_of_nil.
  - intros i Hi _. apply zget_replicate. lia.
Qed.

(** C26: as long as every replica reports once, an estimate is only announced with
    the support of a quorum: the additions never fail, and when [add] first
    returns true the estimate [c] is such that at least [2f+1] replicas reported
    a last checkpoint of at most [c]. *)
Theorem estimate_has_quorum ms m :
  0 ≤ max_faulty → NoDup (rs_id <$> ms ++ [m]) → Forall report_ok (ms ++ [m]) →
  (∀ k s, add_all make (take k ms) = Ret s → est s < 0) →
  ∃ s s' b, add_all make ms = Ret s ∧ add s m false true = Ret (s', b) ∧ b = (0 <=? est s') ∧
    (b = true → nle ≤ below (ms ++ [m]) (est s')).
Proof.
  intros Hf Hnd Hok Hpre.
  assert (∀ k, (k ≤ length ms)%nat → ∃ s, add_all make (take k ms) = Ret s ∧ counted (take k ms) s) as Hall.
  { induction k as [|k IH]; intros Hk; [exists make; split; [done|by apply make_counted]|].
    destruct IH as (s & E & Hc); [lia|].
    destruct (lookup_lt_is_Some_2 ms k) as [x Hx]; [lia|]. rewrite (take_S_r _ _ _ Hx).
    assert (ms = take k ms ++ x :: drop (S k) ms) as Hsplit by (by rewrite take_drop_middle).
    rewrite Hsplit in Hnd, Hok. rewrite <- app_assoc, fmap_app, NoDup_app in Hnd.
    destruct Hnd as (N1 & N2 & _). rewrite <- app_assoc, Forall_app in Hok. destruct Hok as [O1 O2].
    cbn [app] in N2, O2. apply Forall_cons in O2 as [O2 _].
    destruct (add_counted (take k ms) x s) as (s' & E' & Hs'); try done.
    { intros Hin. apply (N2 _ Hin). by left. }
    assert (add_all make (take k ms ++ [x]) = Ret s') as Eall.
    { rewrite add_all_app, E. cbn [mbind outcome_bind add_all]. by rewrite E'. }
    exists s'. split; [done|]. destruct Hs' as [?|[Hest _]]; [done|].
    specialize (Hpre (S k) s'). rewrite (take_S_r _ _ _ Hx) in Hpre. specialize (Hpre Eall). lia. }
  destruct (Hall (length ms)) as (s & E & Hc); [lia|]. rewrite firstn_all in E, Hc.
  rewrite fmap_app, NoDup_app in Hnd. destruct Hnd as (N1 & N2 & _).
  apply Forall_app in Hok as [O1 O2]. rewrite Forall_singleton in O2.
  destruct (add_counted ms m s) as (s' & E' & Hs'); try done.
  { intros Hin. apply (N2 _ Hin). by left. }
  exists s, s', (0 <=? est s'). split_and!; try done. intros Hb. zprop.
  destruct Hs' as [Hc'|[_ ?]]; [|done]. pose proof (counted_est _ _ Hc'). lia.
Qed.
End estimator.

(** Reports for the examples. *)
Definition report (id c p : Z) : Reply_stable := mkReplyStable 0 64 c p id 0 [].

(** Two reports that decide nothing, and a third with which the estimate is 256. *)
Lemma estimate_has_quorum_witness :
  let c := default_config 1 3 in
  ∃ s s', add_all (H := c) (make (H := c)) [report 0 256 256; report 1 128 200] = Ret s ∧ est s = -1 ∧
    add (H := c) s (report 2 128 200) false true = Ret (s', true) ∧ est s' = 256 ∧
    nle (H := c) ≤ below [report 0 256 256; report 1 128 200; report 2 128 200] 256.
Proof.
  cbn zeta. destruct (estimate_has_quorum (H := default_config 1 3) [report 0 256 256; report 1 128 200]
    (report 2 128 200)) as (s & s' & b & Es & Ea & Hb & Hq).
  - by vm_compute.
  - apply (bool_decide_unpack _). by vm_compute.
  - repeat constructor; vm_compute; intuition congruence.
  - intros [|[|k]] s; cbn [take]; rewrite ?take_nil; vm_compute; by intros [= <-].
  - exists s, s'. assert (est s = -1 ∧ est s' = 256 ∧ b = true) as (E1 & E2 & ->).
    { vm_compute in Es. injection Es as <-. vm_compute in Ea. by injection Ea as <- <-. }
    split; [exact Es|]. split; [exact E1|]. split; [exact Ea|]. split; [exact E2|].
    specialize (Hq eq_refl). rewrite E2 in Hq. exact Hq.
Defined.

(** Runs [add] on symbolic sequence numbers. *)
Ltac eval_add :=
  unfold add; cbn [rs_id rs_lc rs_lp report orb]; rewrite !to_int_small by lia;
  repeat (progress (lazy -[Z.ltb Z.leb Seqno_max]; zbool)); reflexivity.

(** The check that [f+1] replicas have prepared up to the estimate is not one.
    With one fault, a single replica that claims to have prepared the sequence
    number [x] makes [x] the estimate of the group as soon as two other replicas
    report anything lower: their reports are added to the count of replicas that
    reached [x], although neither has prepared it. *)
Theorem estimate_from_one_replica x l1 l2 p1 p2 :
  0 ≤ l1 ≤ p1 → 0 ≤ l2 ≤ p2 → p1 < x → p2 < x → x < 2 ^ 31 →
  ∃ s, add_all (H := default_config 1 3) (make (H := default_config 1 3))
         [report 0 x x; report 1 l1 p1; report 2 l2 p2] = Ret s ∧ est s = x.
Proof.
  intros H1 H2 Hp1 Hp2 Hx. pose proof Seqno_max_big as Hbig. set (c := default_config 1 3).
  set (s1 := mkSe [mkVal x 1 1 x; val_clear; val_clear; val_clear] (-1)).
  set (s2 := mkSe [mkVal x 2 2 x; mkVal l1 1 1 p1; val_clear; val_clear] (-1)).
  assert (add (H := c) (make (H := c)) (report 0 x x) false true = Ret (s1, false)) as E1 by eval_add.
  assert (add (H := c) s1 (report 1 l1 p1) false true = Ret (s2, false)) as E2 by eval_add.
  assert (∃ s, add (H := c) s2 (report 2 l2 p2) false true = Ret (s, true) ∧ est s = x) as (s & E3 & Hs)
    by (eexists; split; [eval_add|done]).
  exists s. split; [|done]. cbn [add_all]. rewrite E1. cbn [mbind outcome_bind]. rewrite E2.
  cbn [mbind outcome_bind]. by rewrite E3.
Qed.

Lemma estimate_from_one_replica_witness :
  ∃ s, add_all (H := default_config 1 3) (make (H := default_config 1 3))
         [report 0 1280000 1280000; report 1 128 200; report 2 128 200] = Ret s ∧ est s = 1280000.
Proof. apply estimate_from_one_replica; lia. Defined.
End SE.
