(* ===== verification/ViewChange.v ===== *)
(** * View_change: the message that carries a replica's state to a new view

    src/src/View_change.{h,cc}.  The message lists the digests of the checkpoints
    and, for every sequence number of the window above the last stable checkpoint,
    what the sender knows of the request.  A bitmap inside the message tells which
    requests prepared; its accessors shift an [int]. *)
From S2P Require Import Prelude Node Certificate Messages.
Import HmacModel Auth.

Module VC.
Section view_change.
Context `{Config}.

Definition View_change_tag : Z := 8.

Record Req_info := mkReqInfo { lv : Z; v : Z; d : Dig.Digest }.

(** [chunks] is the member [prepared]; [info] is the array behind the fixed part, as
    far as it is stored; [auth] are the bytes behind the requests. *)
Record View_change := mkVc {
  extra : Z; size : Z;
  view : Z; ls : Z; ckpts : list Dig.Digest; id : Z; n_ckpts : Z; n_reqs : Z;
  chunks : list Z; digest : Dig.Digest;
  info : list Req_info; auth : list Z;
}.

Definition max_ckpts : Z := Z.quot max_out checkpoint_interval + 1.
Definition prepared_size : Z := Z.quot (max_out + 64 - 1) 64.
Definition sizeof_View_change_rep : Z := 8 + 16 + 32 * max_ckpts + 8 + 8 * prepared_size + 32.
Definition sizeof_Req_info : Z := 48.

Definition set_ckpts m c n :=
  mkVc (extra m) (size m) (view m) (ls m) c (id m) n (n_reqs m) (chunks m) (digest m) (info m) (auth m).
Definition set_chunks m c :=
  mkVc (extra m) (size m) (view m) (ls m) (ckpts m) (id m) (n_ckpts m) (n_reqs m) c (digest m) (info m) (auth m).
Definition set_info m i n :=
  mkVc (extra m) (size m) (view m) (ls m) (ckpts m) (id m) (n_ckpts m) n (chunks m) (digest m) i (auth m).
Definition set_digest m x :=
  mkVc (extra m) (size m) (view m) (ls m) (ckpts m) (id m) (n_ckpts m) (n_reqs m) (chunks m) x (info m) (auth m).
Definition set_auth m sz a :=
  mkVc (extra m) sz (view m) (ls m) (ckpts m) (id m) (n_ckpts m) (n_reqs m) (chunks m) (digest m) (info m) a.

(** [1 << k] on [int], converted to [uint64_t]: the sign bit is extended, and a
    shift by 32 or more is undefined. *)
Definition int_one_shl (k : Z) : outcome Z :=
  if k <? 0 then Err Undefined
  else if k <? 31 then Ret (Z.shiftl 1 k)
  else if k =? 31 then Ret (2 ^ 64 - 2 ^ 31)
  else Err Undefined.

Definition mark (m : View_change) (index : Z) : outcome View_change :=
  _ ← th_assert ((0 <=? index) && (index <? prepared_size * 64));
  chunk ← of_option Undefined (zget (chunks m) (Z.quot index 64));
  bit ← int_one_shl (Z.rem index 64);
  Ret (set_chunks m (zset (chunks m) (Z.quot index 64) (Z.lor chunk bit))).

Definition test (m : View_change) (index : Z) : outcome bool :=
  _ ← th_assert ((0 <=? index) && (index <? prepared_size * 64));
  chunk ← of_option Undefined (zget (chunks m) (Z.quot index 64));
  bit ← int_one_shl (Z.rem index 64);
  Ret (negb (Z.land chunk bit =? 0)).

(** [init] on storage with the bitmap [old] and the requests [junk]: [bzero] clears
    [prepared_size * sizeof(unsigned)] bytes. *)
Fixpoint bzero_chunks (bytes : Z) (old : list Z) : list Z :=
  match old with
  | [] => []
  | c :: old =>
      (if 8 <=? bytes then 0 else if 0 <? bytes then c - c `mod` 2 ^ (8 * bytes) else c)
        :: bzero_chunks (bytes - 8) old
  end.

Definition init (old : list Z) (junk : list Req_info) (vw stable i : Z) : View_change :=
  mkVc 0 0 vw stable (replicate (Z.to_nat max_ckpts) Dig.zero) i 0 0
    (bzero_chunks (prepared_size * 4) old) Dig.zero junk [].

Definition last_stable (m : View_change) : Z := ls m.
Definition max_seqno (m : View_change) : Z := ls m + n_reqs m.

Definition last_ckpt (m : View_change) : outcome (option (Dig.Digest * Z)) :=
  if 0 <? n_ckpts m then
    x ← of_option Undefined (zget (ckpts m) (n_ckpts m - 1));
    _ ← th_assert (negb (Dig.operator_eq x Dig.zero));
    Ret (Some (x, (n_ckpts m - 1) * checkpoint_interval + ls m))
  else Ret None.

Definition add_checkpoint (m : View_change) (n : Z) (x : Dig.Digest) : outcome View_change :=
  _ ← th_assert (Z.rem n checkpoint_interval =? 0);
  _ ← th_assert ((last_stable m <=? n) && (n <=? last_stable m + max_out));
  let index := Z.quot (n - last_stable m) checkpoint_interval in
  _ ← of_option Undefined (zget (ckpts m) index);
  let m := set_ckpts m (zset (ckpts m) index x) (n_ckpts m) in
  Ret (if n_ckpts m <=? index then set_ckpts m (ckpts m) (index + 1) else m).

(** The entries between the old and the new end become null requests. *)
Definition fill_holes (i : list Req_info) (from to : Z) : list Req_info :=
  foldl (λ i k, match zget i k with Some r => zset i k (mkReqInfo (-1) (-1) (d r)) | None => i end)
    i (seqZ from (to - from)).

Definition add_request (m : View_change) (n vw lvw : Z) (x : Dig.Digest) (prepared : bool)
    : outcome View_change :=
  _ ← th_assert ((last_stable m <? n) && (n <=? last_stable m + max_out));
  _ ← th_assert ((vw <? view m) && (lvw <? view m));
  let index := n - last_stable m - 1 in
  m ← (if prepared then mark m index else Ret m);
  _ ← of_option Undefined (zget (info m) index);
  let m := set_info m (zset (info m) index (mkReqInfo lvw vw x)) (n_reqs m) in
  Ret (if n_reqs m <=? index
       then set_info m (fill_holes (info m) (n_reqs m) index) (index + 1)
       else m).

Definition ckpt (m : View_change) (n : Z) : outcome (option Dig.Digest) :=
  if negb (Z.rem n checkpoint_interval =? 0) || (n <? last_stable m) then Ret None
  else
    let index := to_int (Z.quot (n - last_stable m) checkpoint_interval) in
    if n_ckpts m <=? index then Ret None
    else
      x ← of_option Undefined (zget (ckpts m) index);
      if Dig.is_zero x then Ret None else Ret (Some x).

Definition proofs (m : View_change) (n : Z) : outcome (option (Req_info * bool)) :=
  let index := to_int (n - last_stable m - 1) in
  if (index <? 0) || (n_reqs m <=? index) then Ret None
  else
    ri ← of_option Undefined (zget (info m) index);
    if v ri <? 0 then Ret None
    else prepared ← test m index; Ret (Some (ri, prepared)).

Definition req (m : View_change) (n : Z) : outcome (Z * Dig.Digest) :=
  _ ← th_assert (last_stable m <? n);
  let index := to_int (n - last_stable m - 1) in
  if n_reqs m <=? index then Ret (-1, Dig.zero)
  else
    t ← test m index;
    if (t : bool) then ri ← of_option Undefined (zget (info m) index); Ret (v ri, d ri)
    else Ret (-1, Dig.zero).

(** ** Well-formed messages *)
Record vc_ok (m : View_change) : Prop := {
  vc_view : 0 < view m;
  vc_ls : 0 ≤ ls m;
  vc_ckpts : zlen (ckpts m) = max_ckpts;
  vc_nck : 0 ≤ n_ckpts m ≤ max_ckpts;
  vc_chunks : zlen (chunks m) = prepared_size;
  vc_info : max_out ≤ zlen (info m);
  vc_nreqs : 0 ≤ n_reqs m ≤ max_out;
  vc_reqs : ∀ i r, 0 ≤ i < n_reqs m → zget (info m) i = Some r → lv r < view m ∧ v r < view m;
}.

(** The bits that the shift of an [int] can address alone. *)
Definition addressable (index : Z) : Prop := Z.rem index 64 < 31.

Definition prepared_bit (m : View_change) (index : Z) : bool :=
  match zget (chunks m) (Z.quot index 64) with
  | Some c => Z.testbit c (Z.rem index 64)
  | None => false
  end.

Lemma land_shiftl_testbit c k : 0 ≤ k → negb (Z.land c (Z.shiftl 1 k) =? 0) = Z.testbit c k.
Proof.
  intros Hk. destruct (Z.testbit c k) eqn:E.
  - apply negb_true_iff, Z.eqb_neq. intros H0. apply (f_equal (λ z, Z.testbit z k)) in H0.
    rewrite Z.land_spec, E, one_shiftl_testbit, bool_decide_true, Z.bits_0 in H0 by done. done.
  - apply negb_false_iff, Z.eqb_eq, Z.bits_inj'. intros i Hi.
    rewrite Z.land_spec, one_shiftl_testbit, Z.bits_0 by done. case_bool_decide; [subst i; by rewrite E|].
    apply andb_false_r.
Qed.

Lemma index_bounds `{!ConfigOk} index :
  0 ≤ index < max_out → 0 ≤ Z.quot index 64 < prepared_size ∧ 0 ≤ Z.rem index 64 < 64 ∧
  index = 64 * Z.quot index 64 + Z.rem index 64 ∧ index < prepared_size * 64.
Proof.
  intros Hi. unfold prepared_size. pose proof (Z.quot_rem' index 64).
  pose proof (Z.rem_bound_pos index 64). pose proof (Z.quot_rem' (max_out + 64 - 1) 64).
  pose proof (Z.rem_bound_pos (max_out + 64 - 1) 64).
  pose proof (Z.quot_pos index 64). lia.
Qed.

Lemma chunk_index q k :
  0 ≤ q → 0 ≤ k < 64 → Z.quot (64 * q + k) 64 = q ∧ Z.rem (64 * q + k) 64 = k.
Proof.
  intros Hq Hk. rewrite Z.quot_div_nonneg, Z.rem_mod_nonneg by lia.
  split; symmetry; [apply (Z.div_unique _ _ _ k)|apply (Z.mod_unique _ _ q)]; lia.
Qed.

Lemma test_spec `{!ConfigOk} m index :
  vc_ok m → 0 ≤ index < max_out → addressable index → test m index = Ret (prepared_bit m index).
Proof.
  intros Hm Hi Ha. destruct (index_bounds _ Hi) as (Hq & Hr & _ & Hlt). unfold test, prepared_bit.
  zbool. cbn [th_assert mbind outcome_bind]. rewrite <- (vc_chunks _ Hm) in Hq.
  apply zget_lookup in Hq as [c ->]. cbn [of_option]. unfold int_one_shl, addressable in *.
  zbool. by rewrite <- land_shiftl_testbit by lia.
Qed.

Lemma mark_spec `{!ConfigOk} m index :
  vc_ok m → 0 ≤ index < max_out → addressable index →
  ∃ c, mark m index = Ret (set_chunks m c) ∧ zlen c = zlen (chunks m) ∧
    ∀ j, 0 ≤ j < max_out → prepared_bit (set_chunks m c) j = bool_decide (j = index) || prepared_bit m j.
Proof.
  intros Hm Hi Ha. destruct (index_bounds _ Hi) as (Hq & Hr & Hd & Hlt). unfold mark.
  zbool. cbn [th_assert mbind outcome_bind]. rewrite <- (vc_chunks _ Hm) in Hq.
  pose proof (zget_lookup _ _ Hq) as [c E]. rewrite E. cbn [of_option]. unfold int_one_shl, addressable in *.
  zbool. eexists. split; [done|]. split; [apply zlen_zset|]. intros j Hj.
  destruct (index_bounds _ Hj) as (_ & Hrj & Hdj & _).
  unfold prepared_bit. cbn [chunks set_chunks]. rewrite zget_zset. case_decide as D.
  - destruct D as [Heq _]. rewrite <- Heq, E, Z.lor_spec, one_shiftl_testbit, orb_comm by lia.
    f_equal. apply bool_decide_ext. lia.
  - rewrite bool_decide_false; [done|]. intros ->. by destruct D.
Qed.

(** *** Requests *)
Lemma fill_holes_nat i from (n : nat) :
  from + Z.of_nat n ≤ zlen i → 0 ≤ from →
  zlen (fill_holes i from (from + Z.of_nat n)) = zlen i ∧
  ∀ k, zget (fill_holes i from (from + Z.of_nat n)) k =
    if decide (from ≤ k < from + Z.of_nat n) then (λ r, mkReqInfo (-1) (-1) (d r)) <$> zget i k
    else zget i k.
Proof.
  intros Hlen Hf. unfold fill_holes. revert Hlen.
  replace (from + Z.of_nat n - from) with (Z.of_nat n) by lia. induction n as [|n IH]; intros Hlen.
  { cbn. split; [done|]. intros k. by rewrite decide_False by lia. }
  destruct IH as [IH1 IH2]; [lia|]. rewrite Nat2Z.inj_succ, seqZ_snoc, foldl_app by lia. cbn [foldl].
  set (l := foldl _ i (seqZ from (Z.of_nat n))) in *.
  destruct (zget_lookup i (from + Z.of_nat n)) as [r Er]; [lia|].
  assert (zget l (from + Z.of_nat n) = Some r) as El by (by rewrite IH2, decide_False by lia).
  rewrite El. split; [by rewrite zlen_zset|]. intros k. rewrite zget_zset, IH1.
  destruct (decide (from + Z.of_nat n = k ∧ 0 ≤ from + Z.of_nat n < zlen i)) as [[<- _]|Hne].
  - rewrite decide_True by lia. by rewrite Er.
  - rewrite IH2. repeat case_decide; done || lia.
Qed.

Lemma fill_holes_spec i from to :
  0 ≤ from ≤ to → to ≤ zlen i →
  zlen (fill_holes i from to) = zlen i ∧
  ∀ k, zget (fill_holes i from to) k =
    if decide (from ≤ k < to) then (λ r, mkReqInfo (-1) (-1) (d r)) <$> zget i k else zget i k.
Proof.
  intros Hft Hto. replace to with (from + Z.of_nat (Z.to_nat (to - from))) by lia.
  apply fill_holes_nat; lia.
Qed.


(** The sequence numbers that a message covers, as indices. *)
Definition in_window (m : View_change) (n : Z) : Prop := ls m < n ≤ ls m + max_out.

Lemma window_index `{!ConfigOk} m n :
  in_window m n → to_int (n - ls m - 1) = n - ls m - 1 ∧ 0 ≤ n - ls m - 1 < max_out.
Proof.
  unfold in_window. intros Hn. pose proof config_max_out. split; [apply to_int_small|]; lia.
Qed.

Lemma proofs_at `{!ConfigOk} m n :
  vc_ok m → in_window m n → addressable (n - ls m - 1) →
  proofs m n = Ret (if n_reqs m <=? n - ls m - 1 then None
    else match zget (info m) (n - ls m - 1) with
         | Some ri => if v ri <? 0 then None else Some (ri, prepared_bit m (n - ls m - 1))
         | None => None
         end).
Proof.
  intros Hm Hn Ha. destruct (window_index _ _ Hn) as [Hi Hr]. unfold proofs, last_stable. rewrite Hi.
  zbool. destruct (n_reqs m <=? _) eqn:E; [done|]. zprop.
  destruct (zget_lookup (info m) (n - ls m - 1)) as [ri ->]; [pose proof (vc_info _ Hm); lia|].
  cbn [of_option mbind outcome_bind]. destruct (v ri <? 0); [done|]. by rewrite test_spec.
Qed.

(** [add_request] in terms of the fields it writes. *)
Definition put_request (m : View_change) (index : Z) (ri : Req_info) (cs : list Z) : View_change :=
  let m := set_chunks m cs in
  let i := zset (info m) index ri in
  if n_reqs m <=? index then set_info m (fill_holes i (n_reqs m) index) (index + 1) else set_info m i (n_reqs m).

Lemma add_request_eq `{!ConfigOk} m n vw lvw x prepared :
  vc_ok m → in_window m n → vw < view m → lvw < view m →
  (prepared = true → addressable (n - ls m - 1)) →
  ∃ cs, add_request m n vw lvw x prepared = Ret (put_request m (n - ls m - 1) (mkReqInfo lvw vw x) cs) ∧
    zlen cs = zlen (chunks m) ∧
    ∀ j, 0 ≤ j < max_out → prepared_bit (set_chunks m cs) j =
      (prepared && bool_decide (j = n - ls m - 1)) || prepared_bit m j.
Proof.
  intros Hm Hn Hvw Hlvw Ha. destruct (window_index _ _ Hn) as [_ Hi]. unfold in_window in Hn.
  unfold add_request, last_stable. zbool. cbn [th_assert mbind outcome_bind].
  destruct (zget_lookup (info m) (n - ls m - 1)) as [old E]; [pose proof (vc_info _ Hm); lia|].
  destruct prepared.
  - destruct (mark_spec m (n - ls m - 1) Hm Hi (Ha eq_refl)) as (cs & -> & Hlen & Hbits).
    cbn [mbind outcome_bind info set_chunks]. rewrite E. cbn [of_option].
    exists cs. split; [|by split]. unfold put_request. cbn. by destruct (n_reqs m <=? _).
  - cbn [mbind outcome_bind]. rewrite E. cbn [of_option]. exists (chunks m).
    split; [unfold put_request; cbn; by destruct m, (_ <=? _)|]. split; [done|]. intros j _. by destruct m.
Qed.

Lemma put_request_info `{!ConfigOk} m index ri cs :
  vc_ok m → 0 ≤ index < max_out →
  zlen (info (put_request m index ri cs)) = zlen (info m) ∧
  n_reqs (put_request m index ri cs) = Z.max (n_reqs m) (index + 1) ∧
  ∀ k, zget (info (put_request m index ri cs)) k =
    if decide (k = index) then Some ri
    else if decide (n_reqs m ≤ k < index) then (λ r, mkReqInfo (-1) (-1) (d r)) <$> zget (info m) k
    else zget (info m) k.
Proof.
  intros Hm Hi. pose proof (vc_info _ Hm). pose proof (vc_nreqs _ Hm).
  assert (∀ k, k ≠ index → zget (zset (info m) index ri) k = zget (info m) k) as Hne
    by (intros k ?; by apply zget_zset_ne).
  assert (zget (zset (info m) index ri) index = Some ri) as Heq by (apply zget_zset_eq; lia).
  unfold put_request. cbn [n_reqs info set_chunks]. destruct (n_reqs m <=? index) eqn:E; zprop; cbn [info n_reqs set_info].
  - destruct (fill_holes_spec (zset (info m) index ri) (n_reqs m) index) as [F1 F2];
      [lia|rewrite zlen_zset; lia|].
    rewrite F1, zlen_zset. split; [done|]. split; [lia|]. intros k. rewrite F2.
    destruct (decide (k = index)) as [->|]; [by rewrite decide_False by lia|].
    by rewrite !Hne by done.
  - rewrite zlen_zset. split; [done|]. split; [lia|]. intros k.
    destruct (decide (k = index)) as [->|]; [done|]. rewrite decide_False by lia. by apply Hne.
Qed.

Lemma put_request_other m index ri cs :
  let m' := put_request m index ri cs in
  view m' = view m ∧ ls m' = ls m ∧ ckpts m' = ckpts m ∧ n_ckpts m' = n_ckpts m ∧ chunks m' = cs ∧ id m' = id m.
Proof. unfold put_request. cbn. by destruct (n_reqs m <=? index). Qed.

Lemma put_request_ok `{!ConfigOk} m index ri cs :
  vc_ok m → 0 ≤ index < max_out → lv ri < view m → v ri < view m → zlen cs = zlen (chunks m) →
  vc_ok (put_request m index ri cs).
Proof.
  intros Hm Hi Hlv Hv Hcs. destruct (put_request_info m index ri cs Hm Hi) as (P1 & P2 & P3).
  destruct (put_request_other m index ri cs) as (O1 & O2 & O3 & O4 & O5 & _). pose proof (vc_view _ Hm).
  constructor; rewrite ?O1, ?O2, ?O3, ?O4, ?O5, ?P1, ?P2; try apply Hm.
  - rewrite Hcs. apply Hm.
  - pose proof (vc_nreqs _ Hm). lia.
  - intros i r Hir. rewrite P3. destruct (decide (i = index)); [by intros [= <-]|].
    case_decide.
    + destruct (zget (info m) i); cbn; [intros [= <-]; cbn; lia|done].
    + intros Er. apply (vc_reqs _ Hm i); [lia|done].
Qed.

(** What [add_request] records is what the receivers of a view-change read.  On
    a well-formed message and for a sequence number of its window whose bit the
    shift of an [int] can address, [add_request] succeeds and keeps the message
    well formed; [proofs] then returns the recorded view, last view and digest, with
    the prepared mark, while the answer for every other sequence number stays what
    it was and the numbers that were skipped are null requests. *)
Theorem add_request_proofs `{!ConfigOk} m n vw lvw x prepared :
  vc_ok m → in_window m n → 0 ≤ vw < view m → lvw < view m → addressable (n - ls m - 1) →
  ∃ m', add_request m n vw lvw x prepared = Ret m' ∧ vc_ok m' ∧
    proofs m' n = Ret (Some (mkReqInfo lvw vw x, prepared || prepared_bit m (n - ls m - 1))) ∧
    max_seqno m' = Z.max (max_seqno m) n ∧
    ∀ n', in_window m n' → n' ≠ n → addressable (n' - ls m - 1) → proofs m' n' = proofs m n'.
Proof.
  intros Hm Hn Hvw Hlvw Ha. destruct (window_index _ _ Hn) as [_ Hi].
  destruct (add_request_eq m n vw lvw x prepared Hm Hn ltac:(lia) Hlvw (λ _, Ha)) as (cs & E & Hcs & Hbits).
  set (m' := put_request m (n - ls m - 1) (mkReqInfo lvw vw x) cs) in *.
  pose proof (put_request_ok m (n - ls m - 1) (mkReqInfo lvw vw x) cs Hm Hi Hlvw (proj2 Hvw) Hcs) as Hm'.
  destruct (put_request_info m (n - ls m - 1) (mkReqInfo lvw vw x) cs Hm Hi) as (_ & P2 & P3).
  destruct (put_request_other m (n - ls m - 1) (mkReqInfo lvw vw x) cs) as (O1 & O2 & O3 & O4 & O5 & _).
  fold m' in Hm', P2, P3, O1, O2, O3, O4, O5.
  assert (∀ j, 0 ≤ j < max_out → prepared_bit m' j =
    (prepared && bool_decide (j = n - ls m - 1)) || prepared_bit m j) as Hbit.
  { intros j Hj. rewrite <- Hbits by done. unfold prepared_bit. by rewrite O5. }
  exists m'. split; [done|]. split; [done|]. split; [|split].
  - rewrite proofs_at; unfold in_window; rewrite ?O2; [|done|done|done].
    rewrite P2, P3, (proj2 (Z.leb_gt _ _)), decide_True by (done || lia). cbn [v].
    rewrite (proj2 (Z.ltb_ge _ _)) by lia. rewrite Hbit, bool_decide_true, andb_true_r by done. done.
  - unfold max_seqno. rewrite O2, P2. lia.
  - intros n' Hn' Hne Ha'. destruct (window_index _ _ Hn') as [_ Hi'].
    rewrite !proofs_at; unfold in_window; rewrite ?O2; try done.
    rewrite P2, P3, Hbit, (bool_decide_false (_ = _)), andb_false_r, decide_False by (done || lia). cbn [orb].
    f_equal. destruct (decide (n_reqs m ≤ n' - ls m - 1)) as [Hge|Hlt].
    + rewrite (proj2 (Z.leb_le (n_reqs m) _)) by done. destruct (Z.max _ _ <=? _) eqn:E'; [done|]. zprop.
      rewrite decide_True by lia. by destruct (zget (info m) _).
    + rewrite !(proj2 (Z.leb_gt _ _)), decide_False by lia. done.
Qed.

(** The bitmap of prepared requests cannot be used for half of the window.  When
    the index of a prepared request is at least 32 modulo 64, [add_request] shifts an
    [int] by more than its width; when it is 31 modulo 64, the sign bit is extended
    and every later request of the group of 64 is marked as prepared too. *)
Theorem prepared_mark_overflows `{!ConfigOk} m n vw lvw x :
  vc_ok m → in_window m n → vw < view m → lvw < view m → 31 ≤ Z.rem (n - ls m - 1) 64 →
  (Z.rem (n - ls m - 1) 64 = 31 →
     ∃ m', add_request m n vw lvw x true = Ret m' ∧
       ∀ k, 31 ≤ k < 64 → prepared_bit m' (64 * Z.quot (n - ls m - 1) 64 + k) = true) ∧
  (31 < Z.rem (n - ls m - 1) 64 → add_request m n vw lvw x true = Err Undefined).
Proof.
  intros Hm Hn Hvw Hlvw Hr. destruct (window_index _ _ Hn) as [_ Hi]. unfold in_window in Hn.
  destruct (index_bounds _ Hi) as (Hq & Hr' & _ & Hlt).
  assert (0 ≤ Z.quot (n - ls m - 1) 64 < zlen (chunks m)) as Hq' by by rewrite (vc_chunks _ Hm).
  destruct (zget_lookup _ _ Hq') as [c Ec].
  unfold add_request, last_stable, mark. zbool. cbn [th_assert mbind outcome_bind]. rewrite Ec.
  cbn [of_option mbind outcome_bind]. unfold int_one_shl. split; intros H31.
  - zbool. cbn [mbind outcome_bind info set_chunks].
    destruct (zget_lookup (info m) (n - ls m - 1)) as [old E]; [pose proof (vc_info _ Hm); lia|].
    rewrite E. cbn [of_option mbind outcome_bind]. eexists. split; [done|]. intros k Hk.
    set (cs := zset _ _ _).
    assert (∀ m' j, chunks m' = cs → j = 64 * Z.quot (n - ls m - 1) 64 + k → prepared_bit m' j = true) as Hbit.
    { intros m' j Hcs ->. unfold prepared_bit.
      destruct (chunk_index (Z.quot (n - ls m - 1) 64) k) as [-> ->]; [lia..|].
      rewrite Hcs. unfold cs. rewrite zget_zset_eq by done. rewrite Z.lor_spec. apply orb_true_iff. right.
      change (2 ^ 64 - 2 ^ 31) with (Z.shiftl (Z.ones 33) 31).
      rewrite Z.shiftl_spec by lia. apply Z.ones_spec_low. lia. }
    apply Hbit; [|done]. cbn [n_reqs set_info set_chunks]. by destruct (n_reqs m <=? _).
  - zbool. done.
Qed.

(** *** Checkpoints *)

(** [ckpt] returns the digests that [add_checkpoint] records: for a multiple of
    the checkpoint interval between the last stable checkpoint and the end of the
    window, [add_checkpoint] succeeds and keeps the message well formed, [ckpt] then
    yields the digest, and the other checkpoints are unchanged. *)
Theorem add_checkpoint_ckpt `{!ConfigOk} m i x :
  vc_ok m → Z.rem (ls m) checkpoint_interval = 0 → 0 ≤ i < max_ckpts → Dig.is_zero x = false →
  let n := ls m + i * checkpoint_interval in
  ∃ m', add_checkpoint m n x = Ret m' ∧ vc_ok m' ∧ ckpt m' n = Ret (Some x) ∧
    ∀ j, 0 ≤ j < max_ckpts → j ≠ i →
      (n_ckpts m ≤ j → zget (ckpts m) j = Some Dig.zero) →
      ckpt m' (ls m + j * checkpoint_interval) = ckpt m (ls m + j * checkpoint_interval).
Proof.
  intros Hm Hls Hi Hx n. pose proof config_interval as Hci. pose proof config_max_out as Hmo.
  pose proof (vc_ls _ Hm) as Hls0. pose proof (vc_nck _ Hm) as Hnck.
  assert (max_ckpts ≤ max_out + 1) as Hmc.
  { unfold max_ckpts. rewrite Z.quot_div_nonneg by lia.
    pose proof (Z.div_le_upper_bound max_out checkpoint_interval max_out). nia. }
  assert (∀ j, 0 ≤ j → Z.rem (ls m + j * checkpoint_interval) checkpoint_interval = 0) as Hrem.
  { intros j Hj. by rewrite Z.rem_add by nia. }
  assert (∀ j, 0 ≤ j < max_ckpts →
    Z.quot (ls m + j * checkpoint_interval - ls m) checkpoint_interval = j ∧ to_int j = j) as Hquot.
  { intros j Hj. replace (ls m + _ - ls m) with (j * checkpoint_interval) by lia.
    rewrite Z.quot_mul by lia. split; [done|]. apply to_int_small. lia. }
  assert (i * checkpoint_interval ≤ max_out) as Hend.
  { unfold max_ckpts in Hi. rewrite Z.quot_div_nonneg in Hi by lia.
    pose proof (Z_div_mod_eq_full max_out checkpoint_interval).
    pose proof (Z.mod_pos_bound max_out checkpoint_interval). nia. }
  destruct (Hquot i Hi) as [Hqi Hti].
  destruct (zget_lookup (ckpts m) i) as [old Eold]; [by rewrite (vc_ckpts _ Hm)|].
  unfold add_checkpoint, last_stable, n. rewrite Hrem, Hqi by lia.
  assert (0 ≤ i * checkpoint_interval) by nia. zbool. cbn [th_assert mbind outcome_bind Z.eqb].
  rewrite Eold. cbn [of_option mbind outcome_bind].
  set (cs := zset (ckpts m) i x).
  set (m' := set_ckpts m cs (Z.max (n_ckpts m) (i + 1))).
  assert ((if n_ckpts (set_ckpts m cs (n_ckpts m)) <=? i
    then set_ckpts (set_ckpts m cs (n_ckpts m)) (ckpts (set_ckpts m cs (n_ckpts m))) (i + 1)
    else set_ckpts m cs (n_ckpts m)) = m') as ->.
  { unfold m'. cbn. destruct (n_ckpts m <=? i) eqn:E; zprop; unfold set_ckpts; cbn; f_equal; lia. }
  exists m'. split; [done|]. split; [|split].
  - constructor; cbn; try apply Hm; [unfold cs; rewrite zlen_zset; apply Hm|lia].
  - unfold ckpt, last_stable. cbn [ls n_ckpts ckpts m' set_ckpts]. rewrite Hrem, Hqi, Hti by lia. zbool.
    cbn [Z.eqb]. unfold cs. rewrite zget_zset_eq by (rewrite (vc_ckpts _ Hm); lia).
    cbn [of_option mbind outcome_bind]. by rewrite Hx.
  - intros j Hj Hne Hzero. destruct (Hquot j Hj) as [Hqj Htj]. assert (0 ≤ j * checkpoint_interval) by nia.
    unfold ckpt, last_stable. cbn [ls n_ckpts ckpts m' set_ckpts]. rewrite Hrem, Hqj, Htj by lia. zbool.
    cbn [Z.eqb]. unfold cs. rewrite zget_zset_ne by done.
    destruct (n_ckpts m <=? j) eqn:E; zprop; [|by rewrite (proj2 (Z.leb_gt _ _)) by lia].
    destruct (Z.max _ _ <=? j); [done|]. by rewrite Hzero.
Qed.

(** *** Authentication *)
Context (hmac_md : list Z → list Z → list Z) (char_signed : bool).
Context (digest_of : list Z → Dig.Digest).

Definition req_info_bytes (r : Req_info) : list Z :=
  Msg.le 8 (lv r) ++ Msg.le 8 (v r) ++ Dig.bytes_of (d r).

Definition body_size (m : View_change) : Z := sizeof_View_change_rep + sizeof_Req_info * n_reqs m.

(** The bytes of the message up to the authenticator. *)
Definition body_bytes (m : View_change) : list Z :=
  Msg.header_bytes View_change_tag (extra m) (size m) ++ Msg.le 8 (view m) ++ Msg.le 8 (ls m) ++
  (ckpts m ≫= Dig.bytes_of) ++ Msg.le 4 (id m) ++ Msg.le 2 (n_ckpts m) ++ Msg.le 2 (n_reqs m) ++
  (chunks m ≫= Msg.le 8) ++ Dig.bytes_of (digest m) ++
  (take (Z.to_nat (n_reqs m)) (info m) ≫= req_info_bytes).

Definition re_authenticate (k : keys) (m : View_change) : outcome View_change :=
  _ ← th_assert ((0 <=? n_reqs m) && (n_reqs m <=? max_out) && (0 <? view m));
  _ ← th_assert ((0 <=? n_ckpts m) && (n_ckpts m <=? max_ckpts));
  _ ← (if n_ckpts m =? 0 then Ret tt
       else x ← of_option Undefined (zget (ckpts m) (n_ckpts m - 1));
            th_assert (negb (Dig.operator_eq x Dig.zero)));
  _ ← th_assert ((0 <=? last_stable m) && (Z.rem (last_stable m) checkpoint_interval =? 0));
  let m := set_auth m (Msg.ALIGNED_SIZE (body_size m + auth_size (-1))) [] in
  let m := set_digest m Dig.zero in
  let m := set_digest m (digest_of (body_bytes m)) in
  a ← gen_auth hmac_md (principals k) (body_bytes m) false;
  Ret (set_auth m (size m) a).

Definition verify_digest (m : View_change) : bool :=
  Dig.operator_eq (digest m) (digest_of (body_bytes (set_digest m Dig.zero))).

Fixpoint infos_ok (vw : Z) (l : list Z) (i : list Req_info) : outcome bool :=
  match l with
  | [] => Ret true
  | k :: l =>
      ri ← of_option Undefined (zget i k);
      if (vw <=? lv ri) || (vw <=? v ri) then Ret false else infos_ok vw l i
  end.

Definition verify (k : keys) (m : View_change) : outcome bool :=
  let nreqs := n_reqs m in
  if negb (is_replica (id m)) || (nreqs <? 0) || (max_out <? nreqs) || (view m <=? 0) then Ret false
  else
    let nckpts := n_ckpts m in
    if (nckpts <? 0) || (max_ckpts <? nckpts) then Ret false
    else
      last_null ← (if 0 <? nckpts
        then x ← of_option Undefined (zget (ckpts m) (nckpts - 1)); Ret (Dig.is_zero x)
        else Ret false);
      if (last_null : bool) then Ret false
      else if (last_stable m <? 0) || negb (Z.rem (last_stable m) checkpoint_interval =? 0) then Ret false
      else if size m - body_size m <? auth_size (id m) then Ret false
      else
        ok ← infos_ok (view m) (seqZ 0 nreqs) (info m);
        if negb ok then Ret false
        else if negb (verify_digest m) then Ret false
        else
          a ← verify_auth hmac_md char_signed (principals k) (id m) (body_bytes m) true (auth m);
          Ret a.
End view_change.

(** ** Round trip *)
Lemma infos_ok_true vw l i :
  (∀ k, k ∈ l → ∃ r, zget i k = Some r ∧ lv r < vw ∧ v r < vw) → infos_ok vw l i = Ret true.
Proof.
  induction l as [|k l IH]; intros Hl; [done|]. cbn [infos_ok].
  destruct (Hl k) as (r & -> & H1 & H2); [by left|]. cbn [of_option mbind outcome_bind]. zbool.
  apply IH. intros k' Hk'. apply Hl. by right.
Qed.

Lemma not_zero_digest x : Dig.is_zero x = false → Dig.operator_eq x Dig.zero = false.
Proof.
  intros Hx. destruct (Dig.operator_eq x Dig.zero) eqn:E; [|done].
  apply Dig.operator_eq_spec in E as ->. done.
Qed.

(** What [View_info::view_change] guarantees of the message it sends. *)
Record sendable `{Config} (m : View_change) : Prop := {
  send_ok : vc_ok m;
  send_id : id m = node_id;
  send_ls : Z.rem (ls m) checkpoint_interval = 0;
  send_ckpt : ∀ x, 0 < n_ckpts m → zget (ckpts m) (n_ckpts m - 1) = Some x → Dig.is_zero x = false;
}.

Section authentication.
Context (hmac_md : list Z → list Z → list Z) (char_signed : bool).
Context (digest_of : list Z → Dig.Digest).
Context (c1 c2 : Config) (k1 k2 : keys).
Context (Hlen : ∀ k d, length (hmac_md k d) = Z.to_nat HMAC_size) (Hb : ∀ k d, bytes (hmac_md k d)).
Context (Hl : linked c1 c2 (principals k1) (principals k2)).
Context (Hmo : @max_out c2 = @max_out c1) (Hci : @checkpoint_interval c2 = @checkpoint_interval c1).

Definition signed (m : View_change) : View_change :=
  let m := set_digest (set_auth m (Msg.ALIGNED_SIZE (@body_size c1 m + @auth_size c1 (-1))) []) Dig.zero in
  set_digest m (digest_of (body_bytes m)).

Lemma re_authenticate_eq m :
  sendable (H := c1) m →
  re_authenticate (H := c1) hmac_md digest_of k1 m =
    (a ← gen_auth (H := c1) hmac_md (principals k1) (body_bytes (signed m)) false;
     Ret (set_auth (signed m) (size (signed m)) a)).
Proof.
  intros [Hok Hid Hls Hck]. pose proof (vc_view _ (H := c1) Hok). pose proof (vc_nreqs _ (H := c1) Hok).
  pose proof (vc_nck _ (H := c1) Hok) as Hn. pose proof (vc_ls _ (H := c1) Hok).
  unfold re_authenticate, last_stable. zbool. cbn [th_assert mbind outcome_bind].
  destruct (n_ckpts m =? 0) eqn:E; zprop; cbn [mbind outcome_bind Z.eqb]; [done|].
  destruct (zget_lookup (ckpts m) (n_ckpts m - 1)) as [x Ex]; [rewrite (vc_ckpts _ (H := c1) Hok); lia|].
  rewrite Ex. cbn [of_option mbind outcome_bind]. rewrite not_zero_digest by (eapply Hck; [lia|done]). done.
Qed.

Lemma signed_digest m a : verify_digest digest_of (set_auth (signed m) (size (signed m)) a) = true.
Proof. by apply Dig.operator_eq_spec. Qed.

(** Every check of [verify] but the authenticator passes on a signed message. *)
Lemma verify_signed m a :
  sendable (H := c1) m → @auth_size c2 (id m) ≤ size (signed m) - @body_size c2 m →
  is_replica (H := c2) (id m) = true →
  verify (H := c2) hmac_md char_signed digest_of k2 (set_auth (signed m) (size (signed m)) a) =
    verify_auth (H := c2) hmac_md char_signed (principals k2) (id m) (body_bytes (signed m)) true a.
Proof.
  intros [Hok Hid Hls Hck] Hsz Hrep.
  pose proof (vc_view _ (H := c1) Hok). pose proof (vc_nreqs _ (H := c1) Hok) as Hnr.
  pose proof (vc_nck _ (H := c1) Hok) as Hn. pose proof (vc_ls _ (H := c1) Hok).
  pose proof (vc_info _ (H := c1) Hok) as Hinfo.
  assert (@max_ckpts c2 = @max_ckpts c1) as Hmc by (unfold max_ckpts; by rewrite Hmo, Hci).
  unfold verify. rewrite signed_digest. unfold last_stable.
  change (id (set_auth _ _ _)) with (id m). change (n_reqs (set_auth _ _ _)) with (n_reqs m).
  change (view (set_auth _ _ _)) with (view m). change (n_ckpts (set_auth _ _ _)) with (n_ckpts m).
  change (ckpts (set_auth _ _ _)) with (ckpts m). change (ls (set_auth _ _ _)) with (ls m).
  change (info (set_auth _ _ _)) with (info m). change (@body_size c2 (set_auth _ _ _)) with (@body_size c2 m).
  change (size (set_auth _ (size (signed m)) _)) with (size (signed m)).
  change (body_bytes (set_auth _ _ _)) with (body_bytes (signed m)).
  change (VC.auth (set_auth _ _ a)) with a.
  rewrite Hrep, Hmo, Hci, Hmc, Hls. zbool.
  assert (infos_ok (view m) (seqZ 0 (n_reqs m)) (info m) = Ret true) as ->.
  { apply infos_ok_true. intros k Hk%elem_of_seqZ.
    destruct (zget_lookup (info m) k) as [r Er]; [lia|]. exists r. split; [done|].
    apply (vc_reqs _ (H := c1) Hok k); [lia|done]. }
  assert ((if 0 <? n_ckpts m
    then x ← of_option Undefined (zget (ckpts m) (n_ckpts m - 1)); Ret (Dig.is_zero x)
    else Ret false) = Ret false) as ->.
  { destruct (0 <? n_ckpts m) eqn:E; [|done]. zprop.
    destruct (zget_lookup (ckpts m) (n_ckpts m - 1)) as [x Ex]; [rewrite (vc_ckpts _ (H := c1) Hok); lia|].
    rewrite Ex. cbn. f_equal. by eapply Hck. }
  cbn [mbind outcome_bind negb Z.eqb orb]. by destruct (verify_auth _ _ _ _ _ _ _).
Qed.

Lemma body_size_bounds m : sendable (H := c1) m → 0 ≤ @body_size c1 m < 2 ^ 30.
Proof.
  intros [Hok _ _ _]. pose proof (vc_nreqs _ (H := c1) Hok). pose proof (l_ok1 _ _ _ _ Hl) as Hc1.
  pose proof (@config_max_out c1 Hc1). pose proof (@config_interval c1 Hc1).
  assert (0 ≤ @max_ckpts c1 ≤ 2 ^ 20 ∧ 0 ≤ @prepared_size c1 ≤ 2 ^ 20) as [? ?].
  { unfold max_ckpts, prepared_size. rewrite !Z.quot_div_nonneg by lia.
    assert (@max_out c1 `div` @checkpoint_interval c1 ≤ @max_out c1)
      by (apply Z.div_le_upper_bound; nia).
    pose proof (Z.div_pos (@max_out c1) (@checkpoint_interval c1)).
    assert ((@max_out c1 + 64 - 1) `div` 64 ≤ @max_out c1) by (apply Z.div_le_upper_bound; nia).
    pose proof (Z.div_pos (@max_out c1 + 64 - 1) 64). lia. }
  unfold body_size, sizeof_View_change_rep, sizeof_Req_info. lia.
Qed.
End authentication.

(** C18: a view-change that a replica builds and authenticates is accepted by every
    other replica of the group that holds its session key: [re_authenticate] succeeds
    on a well-formed message whose last checkpoint digest is not null, and [verify]
    at the receiver passes all its checks (the bounds, the views of the requests, the
    digest of the message and the authenticator). *)
Theorem view_change_verifies hmac_md (char_signed : bool) digest_of (c1 c2 : Config) (k1 k2 : keys) m :
  (∀ k d, length (hmac_md k d) = Z.to_nat HMAC_size) → (∀ k d, bytes (hmac_md k d)) →
  linked c1 c2 (principals k1) (principals k2) →
  @max_out c2 = @max_out c1 → @checkpoint_interval c2 = @checkpoint_interval c1 →
  sendable (H := c1) m →
  ∃ m', re_authenticate (H := c1) hmac_md digest_of k1 m = Ret m' ∧
    verify (H := c2) hmac_md char_signed digest_of k2 m' = Ret true.
Proof.
  intros Hlen Hb Hl Hmo Hci Hm. rewrite re_authenticate_eq by done.
  pose proof (body_size_bounds c1 c2 k1 k2 Hl m Hm) as Hbs.
  pose proof (room_for_auth c1 c2 k1 k2 Hl (@body_size c1 m) Hbs) as Hroom.
  destruct (authenticator_accepted hmac_md char_signed Hlen Hb c1 c2 k1 k2 Hl
    (body_bytes (signed digest_of c1 m)) (@body_size c1 m) (size (signed digest_of c1 m)) Hroom)
    as (a & -> & Hv).
  cbn [mbind outcome_bind]. eexists. split; [done|].
  unfold verify_authenticator in Hv. destruct (_ <? _) eqn:Esz; [done|]. zprop.
  assert (@body_size c2 m = @body_size c1 m) as Hbeq.
  { unfold body_size, sizeof_View_change_rep, max_ckpts, prepared_size. by rewrite Hmo, Hci. }
  rewrite (verify_signed hmac_md char_signed digest_of c1 c2 k2 Hmo Hci); rewrite ?(send_id _ Hm); try done.
  - by rewrite Hbeq.
  - apply (sender_is_replica c1 c2 k1 k2 Hl).
Qed.

(** [init] leaves half of the bitmap as it finds it: in storage that was used
    before, with the default window, every request of the upper half of the window
    keeps its old mark while those of the lower half are cleared. *)
Theorem init_keeps_stale_marks (c0 c1 c2 c3 : Z) junk vw stable i index :
  0 ≤ index < 256 →
  prepared_bit (init (H := default_config 1 0) [c0; c1; c2; c3] junk vw stable i) index =
    if index <? 128 then false else prepared_bit (mkVc 0 0 vw stable [] i 0 0 [c0; c1; c2; c3] Dig.zero [] []) index.
Proof.
  intros Hi. unfold init. change (bzero_chunks _ _) with [0; 0; c2; c3]. unfold prepared_bit. cbn [chunks].
  assert (∃ q, Z.quot index 64 = q ∧ (q = 0 ∨ q = 1 ∨ q = 2 ∨ q = 3) ∧ 64 * q ≤ index < 64 * q + 64)
    as (q & Eq & Hq & Hr).
  { exists (Z.quot index 64). pose proof (Z.quot_rem' index 64). pose proof (Z.rem_bound_pos index 64). lia. }
  rewrite Eq. destruct Hq as [Hq|[Hq|[Hq|Hq]]]; subst q; rewrite Hq in *.
  - rewrite (proj2 (Z.ltb_lt _ _)) by lia. apply Z.testbit_0_l.
  - rewrite (proj2 (Z.ltb_lt _ _)) by lia. apply Z.testbit_0_l.
  - by rewrite (proj2 (Z.ltb_ge _ _)) by lia.
  - by rewrite (proj2 (Z.ltb_ge _ _)) by lia.
Qed.

Lemma init_keeps_stale_marks_witness :
  prepared_bit (init (H := default_config 1 0) [0; 0; 0; 4] [] 1 0 1) 194 = true.
Proof. rewrite (init_keeps_stale_marks 0 0 0 4 [] 1 0 1 194); [reflexivity|lia]. Defined.

(** A message for the examples: view 2, one checkpoint and one request. *)
Definition sample_digest : Dig.Digest := Dig.mkDigest (replicate 8 7) eq_refl.

Definition sample_vc : View_change :=
  let c := default_config 1 1 in
  mkVc 0 0 2 128 [sample_digest; Dig.zero; Dig.zero] 1 1 1 [1; 0; 0; 0] Dig.zero
    (mkReqInfo 1 1 sample_digest :: replicate 255 (mkReqInfo 0 0 Dig.zero)) [].

Lemma sample_vc_ok : vc_ok (H := default_config 1 1) sample_vc.
Proof.
  constructor; try (vm_compute; intuition congruence).
  intros i r Hi Er. cbn in Hi. assert (i = 0) as -> by lia. injection Er as <-. cbn. lia.
Qed.

Lemma sample_config_ok i : 0 ≤ i < 5 → ConfigOk (H := default_config 1 i).
Proof. intros Hi. split; try (vm_compute; intuition congruence). cbn. lia. Qed.

Lemma add_request_proofs_witness :
  let c := default_config 1 1 in
  ∃ m', add_request (H := c) sample_vc 150 1 0 sample_digest true = Ret m' ∧ vc_ok (H := c) m' ∧
    proofs (H := c) m' 150 = Ret (Some (mkReqInfo 0 1 sample_digest, true)) ∧
    max_seqno m' = 150 ∧
    ∀ n', in_window (H := c) sample_vc n' → n' ≠ 150 → addressable (n' - 128 - 1) →
      proofs (H := c) m' n' = proofs (H := c) sample_vc n'.
Proof.
  intros c. refine (add_request_proofs (H := c) (H0 := sample_config_ok 1 _) sample_vc 150 1 0 sample_digest true
    sample_vc_ok _ _ _ _); try (vm_compute; intuition congruence).
Defined.

Lemma prepared_mark_overflows_witness :
  let c := default_config 1 1 in
  add_request (H := c) sample_vc 180 1 0 sample_digest true = Err Undefined.
Proof.
  intros c. refine (proj2 (prepared_mark_overflows (H := c) (H0 := sample_config_ok 1 _) sample_vc 180 1 0
    sample_digest sample_vc_ok _ _ _ _) _); try (vm_compute; intuition congruence).
Defined.

Lemma add_checkpoint_ckpt_witness :
  let c := default_config 1 1 in
  ∃ m', add_checkpoint (H := c) sample_vc 256 sample_digest = Ret m' ∧ vc_ok (H := c) m' ∧
    ckpt (H := c) m' 256 = Ret (Some sample_digest) ∧
    ∀ j, 0 ≤ j < 3 → j ≠ 1 → (1 ≤ j → zget (ckpts sample_vc) j = Some Dig.zero) →
      ckpt (H := c) m' (128 + j * 128) = ckpt (H := c) sample_vc (128 + j * 128).
Proof.
  intros c. refine (add_checkpoint_ckpt (H := c) (H0 := sample_config_ok 1 _) sample_vc 1 sample_digest
    sample_vc_ok _ _ _); try (vm_compute; intuition congruence).
Defined.

Lemma view_change_verifies_witness :
  ∃ m', re_authenticate (H := default_config 1 1) sample_md (λ _, sample_digest) (sample_keys 0) sample_vc = Ret m' ∧
    verify (H := default_config 1 2) sample_md true (λ _, sample_digest) (sample_keys 0) m' = Ret true.
Proof.
  apply (view_change_verifies sample_md true (λ _, sample_digest) (default_config 1 1) (default_config 1 2)
    (sample_keys 0) (sample_keys 0)); try reflexivity.
  - intros k x. apply Forall_replicate. apply Z.mod_pos_bound. lia.
  - exact sample_linked.
  - constructor; [exact sample_vc_ok|reflexivity|reflexivity|].
    intros x _ Ex. injection Ex as <-. reflexivity.
Defined.
End VC.
