(* ===== verification/Support.v ===== *)
(** * Support: the set of messages by sender and the timers

    Module [ZSet] is the template [Set] (src/src/Set.h, Set.t), a partial map from
    identifiers to messages with a cached size.  Module [ITimer] is the timer of
    src/src/ITimer.{h,cc} in the configuration that reads the cycle counter: all
    timers share a lower bound on their deadlines, so that the loop over the timers
    only runs when one of them may have expired. *)
From S2P Require Import Prelude Node.

(** ** Set<T> *)
Module ZSet.
Section set.
Context {T : Type} (t_id : T → Z).

Record t := mkSet { max_size : Z; elems : list (option T); cur_size : Z }.

Definition make (sz : Z) : t := mkSet sz (replicate (Z.to_nat sz) None) 0.
Definition size (s : t) : Z := cur_size s.

Definition elem_at (s : t) (i : Z) : outcome (option T) := of_option Undefined (zget (elems s) i).

Definition store (s : t) (e : T) : outcome (t * bool) :=
  if (max_size s <=? t_id e) || (t_id e <? 0) then Ret (s, false)
  else
    o ← elem_at s (t_id e);
    match o with
    | Some _ => Ret (s, false)
    | None => Ret (mkSet (max_size s) (zset (elems s) (t_id e) (Some e)) (cur_size s + 1), true)
    end.

Definition fetch (s : t) (id : Z) : outcome (option T) :=
  if (max_size s <=? id) || (id <? 0) then Ret None else elem_at s id.

Definition remove (s : t) (id : Z) : outcome (t * option T) :=
  if (max_size s <=? id) || (id <? 0) then Ret (s, None)
  else
    o ← elem_at s id;
    match o with
    | None => Ret (s, None)
    | Some e => Ret (mkSet (max_size s) (zset (elems s) id None) (cur_size s - 1), Some e)
    end.

(** [clear] leaves the size alone. *)
Definition clear (s : t) : t := mkSet (max_size s) ((λ _, None) <$> elems s) (cur_size s).

(** The set as a function, and what it means for the size to be right. *)
Definition entry (l : list (option T)) (id : Z) : option T := match zget l id with Some o => o | None => None end.
Definition lookup (s : t) (id : Z) : option T := entry (elems s) id.
Definition one (o : option T) : Z := match o with Some _ => 1 | None => 0 end.
Definition count (l : list (option T)) : Z := foldr (λ o n, one o + n) 0 l.

Record ok (s : t) : Prop := {
  ok_len : zlen (elems s) = max_size s;
  ok_size : cur_size s = count (elems s);
  ok_id : ∀ i e, lookup s i = Some e → t_id e = i;
}.

Lemma count_zset l i o o' : zget l i = Some o → count (zset l i o') = count l - one o + one o'.
Proof.
  unfold zget, zset, count. case_decide; [|done]. generalize (Z.to_nat i).
  intros n. revert n. induction l as [|x l IH]; intros [|n] Hn; try done.
  - injection Hn as ->. cbn. lia.
  - change (<[S n:=o']> (x :: l)) with (x :: <[n:=o']> l). cbn [foldr]. rewrite (IH n Hn). lia.
Qed.

Lemma zset_make_ok sz : 0 ≤ sz → ok (make sz).
Proof.
  intros Hsz. constructor; cbn.
  - rewrite zlen_replicate. lia.
  - unfold count. generalize (Z.to_nat sz). intros n. induction n as [|n IH]; [done|].
    cbn. by rewrite <- IH.
  - intros i e. unfold lookup, entry. cbn. unfold zget. case_decide; [|done].
    destruct (replicate _ _ !! Z.to_nat i) as [o|] eqn:E; [|done].
    by apply lookup_replicate_1 in E as [-> _].
Qed.

Lemma store_ok s e : ok s →
  ∃ s', store s e = Ret (s', bool_decide (0 ≤ t_id e < max_size s ∧ lookup s (t_id e) = None)) ∧ ok s' ∧
    max_size s' = max_size s ∧
    ∀ i, lookup s' i = if decide (i = t_id e ∧ 0 ≤ i < max_size s ∧ lookup s i = None) then Some e else lookup s i.
Proof.
  intros [Hlen Hsz Hid]. unfold store, elem_at.
  destruct ((max_size s <=? t_id e) || (t_id e <? 0)) eqn:Eb.
  { apply orb_true_iff in Eb. exists s. rewrite bool_decide_false by (destruct Eb; zprop; lia).
    split; [done|]. split; [done|]. split; [done|]. intros i. rewrite decide_False; [done|].
    destruct Eb; zprop; lia. }
  zprop. destruct (zget_lookup (elems s) (t_id e)) as [o Eo]; [lia|].
  rewrite Eo. cbn. assert (lookup s (t_id e) = o) as El by (unfold lookup, entry; by rewrite Eo).
  rewrite El. destruct o as [x|].
  - exists s. rewrite bool_decide_false by (by intros [_ ?]). split; [done|]. split; [done|]. split; [done|].
    intros i. rewrite decide_False; [done|]. intros (-> & _ & Hn). congruence.
  - eexists. rewrite bool_decide_true by (split; [lia|done]). split; [done|].
    assert (∀ i, lookup (mkSet (max_size s) (zset (elems s) (t_id e) (Some e)) (cur_size s + 1)) i =
      if decide (i = t_id e ∧ 0 ≤ i < max_size s ∧ lookup s i = None) then Some e else lookup s i) as Hl.
    { intros i. unfold lookup, entry at 1. cbn. rewrite zget_zset, Hlen.
      destruct (decide (t_id e = i ∧ 0 ≤ t_id e < max_size s)) as [[<- ?]|Hn].
      - rewrite decide_True by done. done.
      - rewrite decide_False; [done|]. intros (-> & ? & _). by apply Hn. }
    split; [|by split]. constructor; cbn.
    + by rewrite zlen_zset.
    + rewrite (count_zset _ _ _ _ Eo), Hsz. cbn. lia.
    + intros i y. rewrite Hl. case_decide as D; [intros [= <-]; by destruct D as [-> _]|apply Hid].
Qed.

Lemma remove_ok s id : ok s →
  ∃ s', remove s id = Ret (s', lookup s id) ∧ ok s' ∧ max_size s' = max_size s ∧
    (∀ i, lookup s' i = if decide (i = id) then None else lookup s i) ∧
    size s' = size s - one (lookup s id).
Proof.
  intros [Hlen Hsz Hid]. unfold remove, elem_at, size.
  destruct ((max_size s <=? id) || (id <? 0)) eqn:Eb.
  { assert (lookup s id = None) as ->.
    { unfold lookup, entry. destruct (zget (elems s) id) eqn:E; [|done].
      apply zget_Some_lt in E. apply orb_true_iff in Eb. destruct Eb; zprop; lia. }
    exists s. split; [done|]. split; [done|]. split; [done|]. split; [|cbn; lia].
    intros i. case_decide; [|done]. subst i. unfold lookup, entry. destruct (zget (elems s) id) eqn:E; [|done].
    apply zget_Some_lt in E. apply orb_true_iff in Eb. destruct Eb; zprop; lia. }
  zprop. destruct (zget_lookup (elems s) id) as [o Eo]; [lia|].
  assert (lookup s id = o) as El by (unfold lookup, entry; by rewrite Eo).
  rewrite Eo, El. cbn. destruct o as [x|].
  - eexists. split; [done|]. cbn.
    assert (∀ i, lookup (mkSet (max_size s) (zset (elems s) id None) (cur_size s - 1)) i =
      if decide (i = id) then None else lookup s i) as Hl.
    { intros i. unfold lookup, entry. cbn. rewrite zget_zset. case_decide as D1; case_decide as D2; try done; [destruct D1 as [<- _]; by destruct D2|].
      subst i. destruct (zget (elems s) id) eqn:E; [|done]. apply zget_Some_lt in E. tauto. }
    split; [|done]. constructor; cbn.
    + by rewrite zlen_zset.
    + rewrite (count_zset _ _ _ _ Eo), Hsz. cbn. lia.
    + intros i y. rewrite Hl. case_decide; [done|apply Hid].
  - exists s. split; [done|]. split; [done|]. split; [done|]. split; [|cbn; lia].
    intros i. case_decide; [by subst i|done].
Qed.

Inductive reaches (sz : Z) : t → Prop :=
| reach_new : reaches sz (make sz)
| reach_store s e s' b : reaches sz s → store s e = Ret (s', b) → reaches sz s'
| reach_remove s id s' o : reaches sz s → remove s id = Ret (s', o) → reaches sz s'.

Lemma zset_reaches_ok sz s : 0 ≤ sz → reaches sz s → ok s ∧ max_size s = sz.
Proof.
  intros Hsz. induction 1 as [|s e s' b _ [IH1 IH2] E|s id s' o _ [IH1 IH2] E]; [by split; [apply zset_make_ok|]|..].
  - destruct (store_ok s e IH1) as (x & Ex & ? & ? & _). rewrite E in Ex. injection Ex as <- _.
    split; [done|congruence].
  - destruct (remove_ok s id IH1) as (x & Ex & ? & ? & _). rewrite E in Ex. injection Ex as <- _.
    split; [done|congruence].
Qed.

Lemma count_ids l :
  count l = zlen (filter (λ i, is_Some (entry l i)) (seqZ 0 (zlen l))).
Proof.
  induction l as [|x l IH] using rev_ind; [done|].
  assert (count (l ++ [x]) = count l + one x) as ->.
  { unfold count. rewrite foldr_app. cbn. clear. induction l as [|y l IH]; cbn in *; lia. }
  unfold zlen at 2. rewrite length_app. cbn [length].
  replace (Z.of_nat (length l + 1)) with (Z.succ (Z.of_nat (length l))) by lia.
  rewrite seqZ_snoc, filter_app by lia. unfold zlen at 1. rewrite length_app.
  assert (entry (l ++ [x]) (Z.of_nat (length l)) = x) as Ex.
  { unfold entry, zget. rewrite decide_True, Nat2Z.id by lia. by rewrite list_lookup_middle. }
  rewrite (list_filter_ext_in _ (λ i, is_Some (entry l i))); cycle 1.
  { intros i Hi%elem_of_seqZ. unfold entry, zget. case_decide; [|done]. rewrite lookup_app_l by lia. done. }
  rewrite IH, filter_cons, Z.add_0_l, Ex. unfold zlen. destruct x as [x|]; cbn [one].
  - rewrite decide_True by by eexists. cbn. lia.
  - rewrite decide_False by by intros []. cbn. lia.
Qed.
End set.

(** In a set that is only changed through [store] and [remove], the cached size is
    the number of identifiers with an element, and every element is filed under its
    own identifier, so that [size() > f()] counts distinct senders. *)
Theorem set_size_counts_senders {T} (t_id : T → Z) (sz : Z) (s : t) :
  0 ≤ sz → reaches t_id sz s →
  size s = zlen (filter (λ i, is_Some (lookup s i)) (seqZ 0 sz)) ∧
  ∀ i e, fetch s i = Ret (Some e) → t_id e = i ∧ 0 ≤ i < sz.
Proof.
  intros Hsz Hr. destruct (zset_reaches_ok t_id sz s Hsz Hr) as [[Hlen Hs Hid] Hm]. split.
  - unfold size. by rewrite Hs, count_ids, Hlen, Hm.
  - intros i e. unfold fetch, elem_at. destruct ((max_size s <=? i) || (i <? 0)) eqn:Eb; [done|]. zprop.
    intros Ef. invert_outcome. split; [|lia]. apply Hid. unfold lookup, entry. by rewrite Ef.
Qed.

Lemma set_size_counts_senders_witness :
  ∃ s, store fst (make 4) (2, 7) = Ret (s, true) ∧
    size s = zlen (filter (λ i, is_Some (lookup s i)) (seqZ 0 4)) ∧
    ∀ i e, fetch s i = Ret (Some e) → fst (e : Z * Z) = i ∧ 0 ≤ i < 4.
Proof.
  eexists. split; [reflexivity|]. apply (set_size_counts_senders (@fst Z Z) 4); [lia|].
  eapply (reach_store _ _ (make 4) (2, 7)); [constructor|reflexivity].
Defined.
End ZSet.

(** ** ITimer *)
Module ITimer.
Inductive timer_state := stopped | running | expired.
#[global] Instance timer_state_eq_dec : EqDecision timer_state.
Proof. solve_decision. Defined.

Record timer := mkTimer { state : timer_state; period : Z; deadline : Z }.

(** All timers and the static [min_deadline]. *)
Record timers := mkTimers { ts : list timer; min_deadline : Z }.

Section itimer.
Context (clock_mhz : Z).

(** [new ITimer(t, h)] appends a timer. *)
Definition make (w : timers) (t : Z) : timers :=
  mkTimers (ts w ++ [mkTimer stopped (t * clock_mhz * 1000) 0]) (min_deadline w).

Definition timer_at (w : timers) (i : Z) : outcome timer := of_option Undefined (zget (ts w) i).
Definition set_timer (w : timers) (i : Z) (t : timer) : timers := mkTimers (zset (ts w) i t) (min_deadline w).

Definition restart (w : timers) (i now : Z) : outcome timers :=
  t ← timer_at w i;
  if bool_decide (state t = running) then Ret w
  else
    let d := now + period t in
    Ret (mkTimers (zset (ts w) i (mkTimer running (period t) d))
           (if d <? min_deadline w then d else min_deadline w)).

Definition start (w : timers) (i now : Z) : outcome timers :=
  t ← timer_at w i;
  if bool_decide (state t = stopped) then restart w i now else Ret w.

Definition adjust (w : timers) (i t : Z) : outcome timers :=
  x ← timer_at w i; Ret (set_timer w i (mkTimer (state x) (t * clock_mhz * 1000) (deadline x))).

Definition stop (w : timers) (i : Z) : outcome timers :=
  t ← timer_at w i;
  if bool_decide (state t = running) then Ret (set_timer w i (mkTimer stopped (period t) (deadline t)))
  else Ret w.

Definition restop (w : timers) (i : Z) : outcome timers :=
  t ← timer_at w i; Ret (set_timer w i (mkTimer stopped (period t) (deadline t))).

(** The handlers act on the timers through these operations. *)
Inductive timer_op := Start (i now : Z) | Restart (i now : Z) | Adjust (i t : Z) | Stop (i : Z) | Restop (i : Z).

Definition apply_op (w : timers) (o : timer_op) : outcome timers :=
  match o with
  | Start i now => start w i now
  | Restart i now => restart w i now
  | Adjust i t => adjust w i t
  | Stop i => stop w i
  | Restop i => restop w i
  end.

Fixpoint apply_ops (w : timers) (os : list timer_op) : outcome timers :=
  match os with
  | [] => Ret w
  | o :: os => w ← apply_op w o; apply_ops w os
  end.

Context (handler : Z → list timer_op).

(** The body of the loop; the second component lists the handlers that ran. *)
Definition visit (current : Z) (w : timers) (i : Z) : outcome (timers * list Z) :=
  t ← timer_at w i;
  if bool_decide (state t = running) then
    if deadline t <? current then
      w ← apply_ops (set_timer w i (mkTimer expired (period t) (deadline t))) (handler i);
      Ret (w, [i])
    else Ret (mkTimers (ts w) (if deadline t <? min_deadline w then deadline t else min_deadline w), [])
  else Ret (w, []).

Fixpoint visit_all (current : Z) (w : timers) (l : list Z) : outcome (timers * list Z) :=
  match l with
  | [] => Ret (w, [])
  | i :: l => '(w, h) ← visit current w i; '(w, h') ← visit_all current w l; Ret (w, h ++ h')
  end.

Definition handle_timeouts_slow (w : timers) (current : Z) : outcome (timers * list Z) :=
  visit_all current (mkTimers (ts w) Long_max) (seqZ 0 (zlen (ts w))).

Definition handle_timeouts (w : timers) (current : Z) : outcome (timers * list Z) :=
  if current <? min_deadline w then Ret (w, []) else handle_timeouts_slow w current.

(** ** The lower bound on the deadlines *)

(** The running timers among the first [k] are covered by the bound. *)
Definition covered (k : Z) (w : timers) : Prop :=
  ∀ i t, i < k → zget (ts w) i = Some t → state t = running → min_deadline w ≤ deadline t.

Definition target (o : timer_op) : Z :=
  match o with Start i _ | Restart i _ | Adjust i _ | Stop i | Restop i => i end.

(** The indices that the operations may use. *)
Definition ops_ok (n : Z) (os : list timer_op) : Prop := Forall (λ o, 0 ≤ target o < n) os.

Lemma covered_set k w i t t0 :
  covered k w → zget (ts w) i = Some t0 → (state t = running → state t0 = running ∧ deadline t = deadline t0) →
  covered k (set_timer w i t).
Proof.
  intros Hc E0 Ht j x Hj. cbn. rewrite zget_zset. case_decide as D; [|by apply Hc].
  destruct D as [<- _]. intros [= <-] Hr. destruct (Ht Hr) as [Hr0 ->]. by eapply Hc.
Qed.

Lemma restart_covered k w i now :
  covered k w → 0 ≤ i < zlen (ts w) →
  ∃ w', restart w i now = Ret w' ∧ covered k w' ∧ zlen (ts w') = zlen (ts w) ∧
    (∀ j, j ≠ i → zget (ts w') j = zget (ts w) j) ∧
    (∀ t, zget (ts w) i = Some t → state t ≠ running → ∀ t', zget (ts w') i = Some t' → min_deadline w' ≤ deadline t').
Proof.
  intros Hc Hi. destruct (zget_lookup _ _ Hi) as [t E]. unfold restart, timer_at. rewrite E.
  cbn [of_option mbind outcome_bind]. case_bool_decide as Er.
  { exists w. split; [done|]. split; [done|]. split; [done|]. split; [done|]. intros t' [= <-]. done. }
  eexists. split; [done|]. split; [|split; [by cbn; rewrite zlen_zset|split]].
  - intros j x Hj. cbn. rewrite zget_zset. case_decide as D.
    + intros [= <-] _. cbn. destruct (_ <? _) eqn:El; zprop; lia.
    + intros Ex Hr. pose proof (Hc j x Hj Ex Hr). cbn. destruct (_ <? _) eqn:El; zprop; lia.
  - intros j Hj. cbn. by apply zget_zset_ne.
  - intros t' _ _ x. cbn. rewrite zget_zset_eq by done. intros [= <-]. cbn. destruct (_ <? _) eqn:El; zprop; lia.
Qed.

Lemma apply_op_covered k w o :
  covered k w → 0 ≤ target o < zlen (ts w) →
  ∃ w', apply_op w o = Ret w' ∧ covered k w' ∧ zlen (ts w') = zlen (ts w) ∧
    ∀ j, j ≠ target o → zget (ts w') j = zget (ts w) j.
Proof.
  intros Hc Hi. destruct (zget_lookup _ _ Hi) as [t E].
  assert (∀ x, (state x = running → state t = running ∧ deadline x = deadline t) →
    ∃ w', Ret (set_timer w (target o) x) = Ret w' ∧ covered k w' ∧ zlen (ts w') = zlen (ts w) ∧
      ∀ j, j ≠ target o → zget (ts w') j = zget (ts w) j) as Hset.
  { intros x Hx. eexists. split; [done|]. split; [by eapply covered_set|].
    split; [cbn; by rewrite zlen_zset|]. intros j Hj. cbn. by apply zget_zset_ne. }
  destruct o as [i now|i now|i a|i|i]; cbn [apply_op target] in *.
  - unfold start, timer_at. rewrite E. cbn [of_option mbind outcome_bind]. case_bool_decide.
    + destruct (restart_covered k w i now Hc Hi) as (w' & ? & ? & ? & ? & _). eauto 10.
    + exists w. done.
  - destruct (restart_covered k w i now Hc Hi) as (w' & ? & ? & ? & ? & _). eauto 10.
  - unfold adjust, timer_at. rewrite E. cbn [of_option mbind outcome_bind]. by apply Hset.
  - unfold stop, timer_at. rewrite E. cbn [of_option mbind outcome_bind].
    case_bool_decide; [by apply Hset|by exists w].
  - unfold restop, timer_at. rewrite E. cbn [of_option mbind outcome_bind]. by apply Hset.
Qed.

Lemma apply_ops_covered k w os :
  covered k w → ops_ok (zlen (ts w)) os →
  ∃ w', apply_ops w os = Ret w' ∧ covered k w' ∧ zlen (ts w') = zlen (ts w) ∧
    ∀ j, Forall (λ o, target o ≠ j) os → zget (ts w') j = zget (ts w) j.
Proof.
  intros Hc Hos. revert w Hc Hos. induction os as [|o os IH]; intros w Hc Hos; [by exists w|].
  apply Forall_cons in Hos as [Ho Hos]. destruct (apply_op_covered k w o Hc Ho) as (w1 & E1 & C1 & L1 & F1).
  rewrite <- L1 in Hos. destruct (IH w1 C1 Hos) as (w2 & E2 & C2 & L2 & F2).
  exists w2. cbn. rewrite E1. cbn. rewrite E2. split; [done|]. split; [done|]. split; [congruence|].
  intros j [Hj Hjs]%Forall_cons. rewrite F2 by done. by apply F1.
Qed.

Lemma visit_covered current w i :
  covered i w → 0 ≤ i < zlen (ts w) → ops_ok (zlen (ts w)) (handler i) →
  ∃ w' h, visit current w i = Ret (w', h) ∧ covered (i + 1) w' ∧ zlen (ts w') = zlen (ts w) ∧
    (∀ j, j ≠ i → Forall (λ o, target o ≠ j) (handler i) → zget (ts w') j = zget (ts w) j) ∧
    ∀ t, zget (ts w) i = Some t → state t = running → deadline t < current → i ∈ h.
Proof.
  intros Hc Hi Hh. destruct (zget_lookup _ _ Hi) as [t E]. unfold visit, timer_at. rewrite E.
  cbn [of_option mbind outcome_bind]. case_bool_decide as Er; [destruct (deadline t <? current) eqn:Ed; zprop|].
  - set (w0 := set_timer w i (mkTimer expired (period t) (deadline t))).
    assert (covered (i + 1) w0) as Hc0.
    { intros j x Hj. cbn. rewrite zget_zset. case_decide as D; [by intros [= <-]|].
      intros Ex Hr. apply (Hc j x); [|done..]. destruct (decide (j = i)) as [->|]; [|lia].
      exfalso. apply D. split; [done|]. by eapply zget_Some_lt. }
    assert (zlen (ts w0) = zlen (ts w)) as L0 by (cbn; by rewrite zlen_zset).
    destruct (apply_ops_covered (i + 1) w0 (handler i) Hc0) as (w' & E' & C' & L' & F'); [by rewrite L0|].
    exists w', [i]. rewrite E'. split; [done|]. split; [done|]. split; [congruence|]. split.
    + intros j Hj Hos. rewrite F' by done. cbn. by apply zget_zset_ne.
    + intros t' _ _ _. by left.
  - eexists _, _. split; [done|]. split; [|split; [done|split; [done|]]].
    + intros j x Hj Ex Hr. cbn in *. destruct (decide (j = i)) as [->|].
      * assert (x = t) as -> by congruence. destruct (_ <? _) eqn:El; zprop; lia.
      * pose proof (Hc j x ltac:(lia) Ex Hr). destruct (_ <? _) eqn:El; zprop; lia.
    + intros t' [= <-]. lia.
  - eexists _, _. split; [done|]. split; [|split; [done|split; [done|]]].
    + intros j x Hj Ex Hr. destruct (decide (j = i)) as [->|]; [congruence|]. apply (Hc j x); [lia|done..].
    + by intros t' [= <-].
Qed.

Lemma visit_all_covered current n i w :
  covered i w → 0 ≤ i → i + Z.of_nat n = zlen (ts w) → (∀ j, ops_ok (zlen (ts w)) (handler j)) →
  ∃ w' h, visit_all current w (seqZ i (Z.of_nat n)) = Ret (w', h) ∧ covered (zlen (ts w')) w' ∧
    zlen (ts w') = zlen (ts w) ∧
    ∀ k t, i ≤ k → zget (ts w) k = Some t → state t = running → deadline t < current →
      (∀ j, j ≠ k → Forall (λ o, target o ≠ k) (handler j)) → k ∈ h.
Proof.
  revert i w. induction n as [|n IH]; intros i w Hc Hi Hn Hh.
  { exists w, []. split; [done|]. replace (zlen (ts w)) with i by lia. split; [done|]. split; [done|].
    intros k t Hk Et. apply zget_Some_lt in Et. lia. }
  rewrite seqZ_cons by lia. rewrite Nat2Z.inj_succ, Z.pred_succ. change (Z.succ i) with (i + 1). cbn [visit_all].
  destruct (visit_covered current w i Hc ltac:(lia) (Hh i)) as (w1 & h1 & E1 & C1 & L1 & F1 & X1).
  destruct (IH (i + 1) w1 C1 ltac:(lia) ltac:(lia)) as (w2 & h2 & E2 & C2 & L2 & X2); [intros j; by rewrite L1|].
  rewrite E1. cbn [mbind outcome_bind]. rewrite E2. cbn [mbind outcome_bind].
  exists w2, (h1 ++ h2). split; [done|]. split; [done|]. split; [congruence|].
  intros k t Hk Et Hr Hd Ho. apply elem_of_app. destruct (decide (k = i)) as [->|Hne].
  - left. by eapply X1.
  - right. apply (X2 k t); [lia| |done..]. rewrite F1; [done|done|]. by apply Ho.
Qed.
End itimer.

Definition clock_ok (w : timers) : Prop := covered (zlen (ts w)) w.

(** C29: no timeout is missed by the shared lower bound.  If the bound covers the running
    timers, [handle_timeouts] returns, the bound covers them again, and every running
    timer whose deadline has passed has its handler called, unless the handler of
    another timer acted on it. *)
Theorem timeouts_are_handled clock_mhz (handler : Z → list timer_op) (w : timers) (current : Z) :
  clock_ok w → (∀ j, ops_ok (zlen (ts w)) (handler j)) →
  ∃ w' h, handle_timeouts clock_mhz handler w current = Ret (w', h) ∧ clock_ok w' ∧
    zlen (ts w') = zlen (ts w) ∧
    ∀ k t, zget (ts w) k = Some t → state t = running → deadline t < current →
      (∀ j, j ≠ k → Forall (λ o, target o ≠ k) (handler j)) → k ∈ h.
Proof.
  intros Hc Hh. unfold handle_timeouts. destruct (current <? min_deadline w) eqn:Em; zprop.
  - exists w, []. split; [done|]. split; [done|]. split; [done|]. intros k t Et Hr Hd _.
    pose proof (zget_Some_lt _ _ _ Et) as Hk. pose proof (Hc k t ltac:(lia) Et Hr). lia.
  - unfold handle_timeouts_slow. set (w0 := mkTimers (ts w) Long_max).
    destruct (visit_all_covered clock_mhz handler current (Z.to_nat (zlen (ts w))) 0 w0) as
      (w' & h & E & C & L & X).
    + intros j t Hj Et. apply zget_Some_lt in Et. lia.
    + lia.
    + cbn. pose proof (zlen_nonneg (ts w)). lia.
    + exact Hh.
    + rewrite Z2Nat.id in E by apply zlen_nonneg. exists w', h. split; [done|]. split; [done|].
      split; [done|]. intros k t Et. apply X; [|done]. by apply zget_Some_lt in Et as [? _].
Qed.

(** Two timers; the first one has expired and its handler restarts it. *)
Lemma timeouts_are_handled_witness :
  ∃ w' h, handle_timeouts 1 (λ i, if i =? 0 then [Restart 0 50] else [])
      (mkTimers [mkTimer running 100 40; mkTimer running 100 90] 40) 50 = Ret (w', h) ∧ clock_ok w' ∧
    zlen (ts w') = 2 ∧
    ∀ k t, zget [mkTimer running 100 40; mkTimer running 100 90] k = Some t → state t = running →
      deadline t < 50 → (∀ j, j ≠ k → Forall (λ o, target o ≠ k) (if j =? 0 then [Restart 0 50] else [])) → k ∈ h.
Proof.
  apply (timeouts_are_handled 1 (λ i, if i =? 0 then [Restart 0 50] else [])
    (mkTimers [mkTimer running 100 40; mkTimer running 100 90] 40) 50).
  - intros i t Hi. cbn in *. unfold zget. case_decide; [|done].
    destruct (Z.to_nat i) as [|[|n]]; cbn; [intros [= <-]; cbn; lia..|done].
  - intros j. destruct (j =? 0); repeat constructor; vm_compute; intuition congruence.
Defined.
End ITimer.
