(* ===== verification/RepInfo.v ===== *)
(** * Rep_info: the last reply of every principal (src/src/Rep_info.{h,cc})

    The replies are part of the replicated state: between two calls the fields that
    differ from replica to replica (view, sender, tentative mark and code) are zero.
    [send_reply] fills them in, sends the message and clears them again.  The rest
    of src/src/Reply.cc that the replica uses (empty replies, [copy], [commit],
    [re_authenticate]) is at the start. *)
From S2P Require Import Prelude Node Certificate Messages ReqQueue.
Import HmacModel Auth.

Module RI.
Section rep_info.
Context (hmac_md : list Z → list Z → list Z) (char_signed : bool).
Context (digest_of : list Z → Dig.Digest).
Context `{Config}.

(** *** Replies (Reply.cc) *)
Definition with_body (r : Reply) (b : list Z) : Reply :=
  mkReply (r_extra r) (r_size r) (r_view r) (r_rid r) (r_digest r) (r_replica r) (r_reply_size r) b.

Definition new_empty_reply (v rid replica : Z) (d : Dig.Digest) (p : Principal) (tentative : bool) : Reply :=
  let r := mkReply (if tentative then 1 else 0) (Msg.ALIGNED_SIZE (sizeof_Reply_rep + HMAC_size)) v rid d replica (-1) [] in
  with_body r (gen_mac_out hmac_md p (reply_bytes r)).

Definition new_full_reply (v rid replica : Z) : Reply :=
  mkReply 0 (Msg.ALIGNED_SIZE sizeof_Reply_rep) v rid Dig.zero replica 0 [].

Definition reply_copy (r : Reply) (id : Z) : Reply :=
  mkReply (r_extra r) (r_size r) (r_view r) (r_rid r) (r_digest r) id (r_reply_size r) (r_body r).

Definition reply_re_authenticate (r : Reply) (p : Principal) : Reply :=
  with_body r (take (Z.to_nat (r_reply_size r)) (r_body r) ++ gen_mac_out hmac_md p (reply_bytes r)).

Definition reply_commit (r : Reply) (p : Principal) : Reply :=
  if r_extra r =? 0 then r
  else reply_re_authenticate
    (mkReply 0 (r_size r) (r_view r) (r_rid r) (r_digest r) (r_replica r) (r_reply_size r) (r_body r)) p.

(** *** State *)
Definition MAX_REPLY_SIZE : Z := 8192.
Definition Max_rep_size : Z := MAX_REPLY_SIZE + sizeof_Reply_rep + HMAC_size.

Record Rinfo := mkRinfo { tentative : bool; lsent : Z }.
Record Rep_info := mkRi { nps : Z; reps : list Reply; ireps : list Rinfo }.

Definition zeroTime : Z := 0.

(** The entry that the constructor writes into cleared memory. *)
Definition null_reply : Reply := mkReply 0 0 0 0 Dig.zero 0 (-1) [].

(** The constructor on memory whose first word is [old_nps] and whose replies are
    [old]; the test of the tags of the old replies is [tags_ok]. *)
Definition make (n old_nps : Z) (old : list Reply) (tags_ok : bool) : outcome Rep_info :=
  _ ← th_assert (negb (n =? 0));
  rs ← (if negb (old_nps =? 0)
        then _ ← th_assert (n =? old_nps); _ ← th_assert tags_ok; Ret old
        else Ret (replicate (Z.to_nat n) null_reply));
  Ret (mkRi n rs (replicate (Z.to_nat n) (mkRinfo true zeroTime))).

Definition size (x : Rep_info) : Z := (nps x + 1) * Max_rep_size.

(** [reps[pid]] and [ireps[pid]] check the index. *)
Definition reply (x : Rep_info) (pid : Z) : outcome Reply := of_option AssertFail (zget (reps x) pid).
Definition info (x : Rep_info) (pid : Z) : outcome Rinfo := of_option AssertFail (zget (ireps x) pid).
Definition set_reply (x : Rep_info) (pid : Z) (r : Reply) : Rep_info :=
  mkRi (nps x) (zset (reps x) pid r) (ireps x).
Definition set_info (x : Rep_info) (pid : Z) (i : Rinfo) : Rep_info :=
  mkRi (nps x) (reps x) (zset (ireps x) pid i).

Definition req_id (x : Rep_info) (pid : Z) : outcome Z := r ← reply x pid; Ret (r_rid r).
Definition digest (x : Rep_info) (pid : Z) : outcome Dig.Digest := r ← reply x pid; Ret (r_digest r).
Definition is_committed (x : Rep_info) (pid : Z) : outcome bool := i ← info x pid; Ret (negb (tentative i)).

Definition commit_reply (x : Rep_info) (pid : Z) : outcome Rep_info :=
  _ ← info x pid; Ret (set_info x pid (mkRinfo false zeroTime)).

(** [new_reply] also returns the room for the reply. *)
Definition new_reply (x : Rep_info) (pid : Z) : outcome (Rep_info * Z) :=
  r ← reply x pid;
  _ ← info x pid;
  let x := set_info x pid (mkRinfo true zeroTime) in
  let r := mkReply (r_extra r) (r_size r) (r_view r) (r_rid r) (r_digest r) (r_replica r) (-1) (r_body r) in
  Ret (set_reply x pid r, Max_rep_size - sizeof_Reply_rep - HMAC_size).

(** [end_reply] on a buffer that holds [data]. *)
Definition end_reply (x : Rep_info) (pid rid : Z) (data : list Z) : outcome Rep_info :=
  r ← reply x pid;
  _ ← th_assert (r_reply_size r =? -1);
  let sz := zlen data in
  let old_size := sizeof_Reply_rep + sz in
  Ret (set_reply x pid (mkReply (r_extra r) (Msg.ALIGNED_SIZE (old_size + HMAC_size)) (r_view r) rid
         (digest_of data) (r_replica r) sz (data ++ replicate (Z.to_nat HMAC_size) 0))).

(** What [send_reply] does with the message. *)
Inductive effect :=
| ESend (r : Reply) (pid : Z)       (* node->send *)
| EHandle (r : Reply).              (* replica->handle(r, true) *)

(** [diffTime] in microseconds, from the cycle counter. *)
Definition diffTime (clock_mhz t1 t2 : Z) : Z := Z.quot (t1 - t2) clock_mhz.

Definition reply_data (r : Reply) : list Z := take (Z.to_nat (r_reply_size r)) (r_body r).

Definition send_reply (clock_mhz : Z) (ps : list Principal) (x : Rep_info) (pid v id : Z) (tent : bool) (now : Z)
    : outcome (Rep_info * option effect) :=
  r ← reply x pid;
  _ ← th_assert (negb (r_reply_size r =? -1));
  _ ← th_assert ((r_extra r =? 0) && (r_view r =? 0) && (r_replica r =? 0));
  i ← info x pid;
  let i := if negb tent && tentative i then mkRinfo false zeroTime else i in
  let x := set_info x pid i in
  if negb (lsent i =? zeroTime) && (diffTime clock_mhz now (lsent i) <=? 10000) then Ret (x, None)
  else
    let x := if negb (lsent i =? zeroTime) then set_info x pid (mkRinfo (tentative i) now) else x in
    let m := mkReply (if tentative i then 1 else r_extra r) (r_size r) v (r_rid r) (r_digest r) id
               (r_reply_size r) (r_body r) in
    p ← of_option Undefined (i_to_p ps pid);
    let e := if negb (pid =? node_id)
      then ESend (with_body m (reply_data r ++ gen_mac_out hmac_md p (reply_bytes m))) pid
      else EHandle m in
    Ret (set_reply x pid (mkReply 0 (r_size r) 0 (r_rid r) (r_digest r) 0 (r_reply_size r)
           (reply_data r ++ replicate (Z.to_nat HMAC_size) 0)), Some e).

(** [new_state] commits every reply and drops the requests that it answers; the
    request queue only needs the accessors of a request. *)
Fixpoint new_state_loop {R} `{RequestMsg R} (x : Rep_info) (q : RQ.Req_queue) (first : bool) (l : list Z)
    : outcome (Rep_info * @RQ.Req_queue R * bool) :=
  match l with
  | [] => Ret (x, q, first)
  | i :: l =>
      x ← commit_reply x i;
      rid ← req_id x i;
      '(q, b) ← RQ.remove_client q i rid;
      new_state_loop x q (b || first) l
  end.

Definition new_state {R} `{RequestMsg R} (x : Rep_info) (q : RQ.Req_queue) :=
  new_state_loop x q false (seqZ 0 (nps x)).

(** ** Invariant *)
Definition canonical (r : Reply) : Prop := r_extra r = 0 ∧ r_view r = 0 ∧ r_replica r = 0.

Record ri_ok (x : Rep_info) : Prop := {
  ri_reps : zlen (reps x) = nps x;
  ri_ireps : zlen (ireps x) = nps x;
  ri_canonical : Forall canonical (reps x);
  ri_lsent : Forall (λ i, lsent i = zeroTime) (ireps x);
}.

Lemma zset_same {A} (l : list A) i a : zget l i = Some a → zset l i a = l.
Proof. unfold zget, zset. case_decide; [apply list_insert_id|done]. Qed.

Lemma canonical_set x pid r :
  ri_ok x → canonical r → ri_ok (set_reply x pid r).
Proof.
  intros [H1 H2 H3 H4] Hr. constructor; cbn; [by rewrite zlen_zset|done| |done].
  by apply Forall_zset.
Qed.

Lemma lsent_set x pid b : ri_ok x → ri_ok (set_info x pid (mkRinfo b zeroTime)).
Proof.
  intros [H1 H2 H3 H4]. constructor; cbn; [done|by rewrite zlen_zset|done|]. by apply Forall_zset.
Qed.

Lemma ri_lookup x pid : ri_ok x → 0 ≤ pid < nps x →
  ∃ r i, reply x pid = Ret r ∧ info x pid = Ret i ∧ canonical r ∧ lsent i = zeroTime ∧
    zget (reps x) pid = Some r ∧ zget (ireps x) pid = Some i.
Proof.
  intros [H1 H2 H3 H4] Hp. destruct (zget_lookup (reps x) pid) as [r Er]; [by rewrite H1|].
  destruct (zget_lookup (ireps x) pid) as [i Ei]; [by rewrite H2|]. exists r, i.
  unfold reply, info. rewrite Er, Ei. split; [done|]. split; [done|].
  split; [by eapply Forall_zget in H3|]. split; [by eapply Forall_zget in H4|done].
Qed.

Lemma new_reply_eq x pid : ri_ok x → 0 ≤ pid < nps x →
  ∃ x' r, new_reply x pid = Ret (x', MAX_REPLY_SIZE) ∧ ri_ok x' ∧ nps x' = nps x ∧
    zget (reps x') pid = Some r ∧ r_reply_size r = -1 ∧ canonical r ∧
    zget (ireps x') pid = Some (mkRinfo true zeroTime).
Proof.
  intros Hx Hp. destruct (ri_lookup x pid Hx Hp) as (r & i & Er & Ei & Hr & _ & _ & Gi).
  unfold new_reply. rewrite Er, Ei. cbn [mbind outcome_bind]. do 2 eexists. split; [done|].
  split; [apply canonical_set; [by apply lsent_set|done]|]. split; [done|]. cbn.
  rewrite !zget_zset_eq by (rewrite ?(ri_reps _ Hx), ?(ri_ireps _ Hx); done). done.
Qed.

(** The reply that a call of [new_reply] and [end_reply] stores. *)
Definition stored (rid : Z) (data : list Z) (r : Reply) : Reply :=
  mkReply 0 (Msg.ALIGNED_SIZE (sizeof_Reply_rep + zlen data + HMAC_size)) 0 rid (digest_of data) 0 (zlen data)
    (data ++ replicate (Z.to_nat HMAC_size) 0).

Lemma end_reply_eq x pid rid data r : ri_ok x → 0 ≤ pid < nps x →
  zget (reps x) pid = Some r → r_reply_size r = -1 →
  end_reply x pid rid data = Ret (set_reply x pid (stored rid data r)) ∧
  ri_ok (set_reply x pid (stored rid data r)).
Proof.
  intros Hx Hp Er Hsz. split; [|by apply canonical_set].
  destruct (ri_lookup x pid Hx Hp) as (r' & i & Er' & _ & Hr & _ & Gr & _).
  unfold end_reply. rewrite Er'. assert (r' = r) as -> by congruence. cbn [mbind outcome_bind].
  rewrite Hsz. cbn [Z.eqb th_assert mbind outcome_bind]. destruct Hr as (He & Hv & Hrep).
  by rewrite He, Hv, Hrep.
Qed.

(** [send_reply] on an entry with a reply: the state afterwards and the effect. *)
Definition outgoing (r : Reply) (v id : Z) (tent : bool) : Reply :=
  mkReply (if tent then 1 else 0) (r_size r) v (r_rid r) (r_digest r) id (r_reply_size r) (r_body r).

Lemma send_reply_eq clock ps x pid v id tent now r i p :
  ri_ok x → zget (reps x) pid = Some r → zget (ireps x) pid = Some i → r_reply_size r ≠ -1 →
  i_to_p ps pid = Some p →
  let t := tent && tentative i in
  let m := outgoing r v id t in
  ∃ x', send_reply clock ps x pid v id tent now = Ret (x', Some
      (if negb (pid =? node_id)
       then ESend (with_body m (reply_data r ++ gen_mac_out hmac_md p (reply_bytes m))) pid else EHandle m)) ∧
    ri_ok x' ∧ nps x' = nps x ∧ zget (ireps x') pid = Some (mkRinfo t zeroTime) ∧
    reps x' = zset (reps x) pid (with_body r (reply_data r ++ replicate (Z.to_nat HMAC_size) 0)).
Proof.
  intros Hx Er Ei Hsz Hp t m. pose proof (Forall_zget _ _ _ _ (ri_canonical _ Hx) Er) as (He & Hv & Hrep).
  pose proof (Forall_zget _ _ _ _ (ri_lsent _ Hx) Ei) as Hl. cbn in Hl.
  unfold send_reply, reply, info. rewrite Er, Ei. cbn [of_option mbind outcome_bind].
  rewrite (proj2 (Z.eqb_neq (r_reply_size r) (-1))) by done. cbn [negb th_assert mbind outcome_bind].
  rewrite He, Hv, Hrep. cbn [Z.eqb andb th_assert mbind outcome_bind].
  set (i' := if negb tent && tentative i then mkRinfo false zeroTime else i).
  assert (i' = mkRinfo t zeroTime) as ->.
  { unfold i', t. destruct i as [b ls]. cbn [lsent] in Hl. rewrite Hl. by destruct b, tent. }
  cbn [lsent tentative]. change (negb (zeroTime =? zeroTime)) with false. cbn [andb]. rewrite Hp.
  cbn [of_option mbind outcome_bind]. eexists. split; [done|].
  assert (mkReply 0 (r_size r) 0 (r_rid r) (r_digest r) 0 (r_reply_size r)
    (reply_data r ++ replicate (Z.to_nat HMAC_size) 0) =
    with_body r (reply_data r ++ replicate (Z.to_nat HMAC_size) 0)) as ->.
  { unfold with_body. by rewrite He, Hv, Hrep. }
  split; [|split; [done|split; [|done]]].
  - apply canonical_set; [by apply lsent_set|]. done.
  - cbn. apply zget_zset_eq. by eapply zget_Some_lt.
Qed.

Lemma make_ri_ok n t x : 0 ≤ n → make n 0 [] t = Ret x → ri_ok x ∧ nps x = n ∧
  reps x = replicate (Z.to_nat n) null_reply.
Proof.
  intros Hn E. unfold make in E. cbn [Z.eqb negb] in E. invert_outcome.
  split; [|done]. constructor; cbn; [rewrite zlen_replicate; lia|rewrite zlen_replicate; lia|..];
    by apply Forall_replicate.
Qed.

(** Objects that are built in cleared memory. *)
Inductive reaches (ps : list Principal) (clock n : Z) : Rep_info → Prop :=
| reach_new t x : make n 0 [] t = Ret x → reaches ps clock n x
| reach_new_reply x pid x' sz : reaches ps clock n x → new_reply x pid = Ret (x', sz) → reaches ps clock n x'
| reach_end_reply x pid rid data x' : reaches ps clock n x → end_reply x pid rid data = Ret x' →
    reaches ps clock n x'
| reach_commit x pid x' : reaches ps clock n x → commit_reply x pid = Ret x' → reaches ps clock n x'
| reach_send x pid v id t now x' e : reaches ps clock n x →
    send_reply clock ps x pid v id t now = Ret (x', e) → reaches ps clock n x'.

Lemma reply_bounds x pid r : ri_ok x → reply x pid = Ret r → 0 ≤ pid < nps x ∧ zget (reps x) pid = Some r.
Proof.
  intros Hx E. unfold reply in E. invert_outcome. split; [|done].
  rewrite <- (ri_reps _ Hx). by eapply zget_Some_lt.
Qed.

Lemma send_reply_inv clock ps x pid v id t now x' e :
  ri_ok x → send_reply clock ps x pid v id t now = Ret (x', e) → ri_ok x' ∧ nps x' = nps x ∧ is_Some e.
Proof.
  intros Hx E. pose proof E as E0. unfold send_reply in E0. invert_outcome.
  match goal with Er : reply x pid = Ret ?r |- _ => destruct (reply_bounds _ _ _ Hx Er) as [Hp Gr] end.
  destruct (ri_lookup x pid Hx Hp) as (r & i & _ & _ & Hr & Hl & Gr' & Gi).
  destruct (i_to_p ps pid) as [p|] eqn:Ep.
  - zprop. destruct (send_reply_eq clock ps x pid v id t now r i p Hx Gr' Gi) as (y & E2 & ? & ? & _);
      [congruence|done|]. rewrite E in E2. injection E2 as <- ->. split; [done|]. split; [done|]. by eexists.
  - exfalso. match goal with H : (if ?c then _ else _) = Ret _ |- _ => destruct c eqn:Ec end; [|invert_outcome; done].
    apply andb_true_iff in Ec as [Ec _]. unfold info in *. invert_outcome.
    match goal with H : zget (ireps x) pid = Some ?a |- _ => assert (a = i) as -> by congruence end.
    revert Ec. cbn beta in Hl. destruct (negb t && tentative i); [done|]. by rewrite Hl.
Qed.

Lemma reaches_ri_ok ps clock n x : 0 ≤ n → reaches ps clock n x → ri_ok x ∧ nps x = n.
Proof.
  intros Hn. induction 1 as [t x E|x pid x' sz _ [IH1 IH2] E|x pid rid data x' _ [IH1 IH2] E|
    x pid x' _ [IH1 IH2] E|x pid v id t now x' e _ [IH1 IH2] E].
  - by destruct (make_ri_ok n t x Hn E) as (? & ? & _).
  - pose proof E as E0. unfold new_reply in E0. invert_outcome.
    match goal with Er : reply x pid = Ret ?r |- _ => destruct (reply_bounds _ _ _ IH1 Er) as [Hp Gr] end.
    destruct (new_reply_eq x pid IH1 Hp) as (y & r1 & E1 & ? & ? & _). rewrite E in E1.
    injection E1 as E1. subst y. split; [done|congruence].
  - destruct (reply x pid) as [r|] eqn:Er; [|by unfold end_reply in E; rewrite Er in E].
    destruct (reply_bounds _ _ _ IH1 Er) as [Hp Gr].
    destruct (r_reply_size r =? -1) eqn:Es; cycle 1.
    { unfold end_reply in E. rewrite Er in E. cbn [mbind outcome_bind] in E. by rewrite Es in E. }
    zprop. destruct (end_reply_eq x pid rid data r IH1 Hp Gr Es) as [E1 ?]. rewrite E1 in E.
    by assert (set_reply x pid (stored rid data r) = x') as <- by congruence.
  - unfold commit_reply in E. invert_outcome. split; [by apply lsent_set|done].
  - destruct (send_reply_inv _ _ _ _ _ _ _ _ _ _ IH1 E) as (? & ? & _). split; [done|congruence].
Qed.
End rep_info.

(** C22: a reply that a replica stores is the reply that the client accepts.  On a
    well-formed object, [new_reply] and [end_reply] record the request identifier
    and the digest of the data; a following [send_reply] sends a full reply with
    these, the current view and the tentative mark, which passes [verify] at a client
    that holds the session key; and sending leaves the stored replies as they were, so
    that they stay identical on all replicas. *)
Theorem stored_reply_verifies hmac_md (char_signed : bool) digest_of (c1 c2 : Config) (ps : list Principal)
    (k : keys) x pid rid data clock v t now p q :
  (∀ k d, length (hmac_md k d) = Z.to_nat HMAC_size) → (∀ k d, bytes (hmac_md k d)) →
  ri_ok x → 0 ≤ pid < nps x → pid ≠ @node_id c1 → zlen data ≤ MAX_REPLY_SIZE →
  is_replica (H := c2) (@node_id c1) = true →
  i_to_p (H := c1) ps pid = Some p → i_to_p (H := c2) (principals k) (@node_id c1) = Some q →
  initialized_ (hmac_in q) = true → key (hmac_in q) = key (hmac_out p) →
  ∃ x1 x2 x3 m, new_reply x pid = Ret (x1, MAX_REPLY_SIZE) ∧
    end_reply digest_of x1 pid rid data = Ret x2 ∧
    req_id x2 pid = Ret rid ∧ digest x2 pid = Ret (digest_of data) ∧
    send_reply hmac_md (H := c1) clock ps x2 pid v (@node_id c1) t now = Ret (x3, Some (ESend m pid)) ∧
    reps x3 = reps x2 ∧ ri_ok x3 ∧
    r_rid m = rid ∧ r_view m = v ∧ reply_data m = data ∧ reply_is_tentative m = t ∧
    reply_verify hmac_md char_signed (H := c2) digest_of k m = Ret true.
Proof.
  intros Hlen Hb Hx Hp Hne Hsz Hrep Hip Hiq Hinit Hkey.
  destruct (new_reply_eq x pid Hx Hp) as (x1 & r & E1 & Hx1 & Hn1 & Gr & Hr1 & _ & Gi).
  rewrite <- Hn1 in Hp. destruct (end_reply_eq digest_of x1 pid rid data r Hx1 Hp Gr Hr1) as [E2 Hx2].
  set (s := stored digest_of rid data r) in *. set (x2 := set_reply x1 pid s) in *.
  assert (zget (reps x2) pid = Some s) as Gs by (cbn; apply zget_zset_eq; by rewrite (ri_reps _ Hx1)).
  pose proof (zlen_nonneg data) as Hd.
  destruct (send_reply_eq hmac_md (H := c1) clock ps x2 pid v (@node_id c1) t now s (mkRinfo true zeroTime) p
    Hx2 Gs Gi) as (x3 & E3 & Hx3 & _ & _ & Hreps); [cbn; lia|done|].
  rewrite (proj2 (Z.eqb_neq pid (@node_id c1))) in E3 by done. cbn [negb tentative] in E3. rewrite andb_true_r in E3.
  assert (reply_data s = data) as Hdata.
  { unfold reply_data. cbn. unfold zlen. rewrite Nat2Z.id. by apply take_app_length. }
  rewrite Hdata in E3, Hreps.
  do 4 eexists. split; [exact E1|]. split; [exact E2|].
  split; [unfold req_id, reply; by rewrite Gs|]. split; [unfold digest, reply; by rewrite Gs|].
  split; [exact E3|]. split; [|split; [done|]].
  { rewrite Hreps. by apply zset_same. }
  split; [done|]. split; [done|]. split; [unfold reply_data; cbn; unfold zlen; rewrite Nat2Z.id; by apply take_app_length|].
  split; [by destruct t|]. set (m := with_body _ _).
  assert (reply_full m = true) as Hfull by (unfold reply_full; cbn; apply Z.geb_le; lia).
  unfold reply_verify. rewrite Hfull. cbn [r_replica r_size r_reply_size r_body r_digest m with_body outgoing s stored].
  rewrite Hrep. cbn [negb].
  destruct (Msg.aligned_size_spec (sizeof_Reply_rep + zlen data + HMAC_size)) as [Hal _].
  { unfold sizeof_Reply_rep, HMAC_size, MAX_REPLY_SIZE in *. lia. }
  rewrite (proj2 (Z.ltb_ge _ _)) by lia.
  assert (take (Z.to_nat (zlen data)) (data ++ gen_mac_out hmac_md p (reply_bytes (outgoing s v (@node_id c1) t))) = data)
    as -> by (unfold zlen; rewrite Nat2Z.id; by apply take_app_length).
  rewrite (proj2 (Dig.operator_eq_spec _ _) eq_refl). cbn [andb negb]. rewrite Hiq. cbn [of_option mbind outcome_bind].
  f_equal. unfold reply_mac_bytes, verify_mac_in, verify_mac, gen_mac_out, gen_mac, is_initialized. rewrite Hinit.
  cbn [fst]. change (reply_bytes m) with (reply_bytes (outgoing s v (@node_id c1) t)).
  cbn [r_body m with_body]. unfold zlen. rewrite Nat2Z.id, drop_app_length. unfold gen_mac_out, gen_mac. cbn [fst].
  unfold sum. rewrite take_ge by (rewrite Hlen; done). unfold equals, sum. cbn [HmacModel.key HmacModel.data update reset].
  rewrite Hkey. apply equal_refl, Hb.
Qed.

Lemma stored_reply_verifies_witness :
  let c1 := default_config 1 1 in
  let x := mkRi 5 (replicate 5 null_reply) (replicate 5 (mkRinfo true 0)) in
  let p := mkPrincipal 4 1 1 0 (mkHmac true [4; 1] []) (mkHmac true [1; 4] []) in
  let q := mkPrincipal 1 1 1 0 (mkHmac true [1; 4] []) (mkHmac true [4; 1] []) in
  let dg := λ _ : list Z, Dig.zero in
  ∃ x1 x2 x3 m, new_reply x 4 = Ret (x1, 8192) ∧ end_reply dg x1 4 9 [1; 2; 3] = Ret x2 ∧
    req_id x2 4 = Ret 9 ∧ digest x2 4 = Ret Dig.zero ∧
    send_reply sample_md (H := c1) 1000 [q; q; q; q; p] x2 4 0 1 true 77 = Ret (x3, Some (ESend m 4)) ∧
    reps x3 = reps x2 ∧ ri_ok x3 ∧
    r_rid m = 9 ∧ r_view m = 0 ∧ reply_data m = [1; 2; 3] ∧ reply_is_tentative m = true ∧
    reply_verify sample_md true (H := default_config 1 4) dg (mkKeys [q; q; q; q; p] (λ _, 0)) m = Ret true.
Proof.
  refine (stored_reply_verifies sample_md true (λ _, Dig.zero) (default_config 1 1) (default_config 1 4)
    [mkPrincipal 1 1 1 0 (mkHmac true [1; 4] []) (mkHmac true [4; 1] []);
     mkPrincipal 1 1 1 0 (mkHmac true [1; 4] []) (mkHmac true [4; 1] []);
     mkPrincipal 1 1 1 0 (mkHmac true [1; 4] []) (mkHmac true [4; 1] []);
     mkPrincipal 1 1 1 0 (mkHmac true [1; 4] []) (mkHmac true [4; 1] []);
     mkPrincipal 4 1 1 0 (mkHmac true [4; 1] []) (mkHmac true [1; 4] [])] _
    (mkRi 5 (replicate 5 null_reply) (replicate 5 (mkRinfo true 0))) 4 9 [1; 2; 3] 1000 0 true 77
    _ _ _ _ _ _ _ _ _ _ _ _ _); try reflexivity; try (vm_compute; intuition congruence).
  - intros k d. apply Forall_replicate. apply Z.mod_pos_bound. lia.
  - constructor; try reflexivity; repeat constructor.
Defined.

(** Retransmissions are not limited.  The time of the last transmission is only
    stored when it is already non-zero, and nothing else makes it non-zero: in every
    object that was built in cleared memory, whatever the calls, [send_reply] either
    fails or sends, no matter how recently the same reply was sent. *)
Theorem retransmission_never_limited hmac_md digest_of `{Config} ps clock n x pid v id t now x' e :
  0 ≤ n → reaches hmac_md digest_of ps clock n x →
  send_reply hmac_md clock ps x pid v id t now = Ret (x', e) → is_Some e.
Proof.
  intros Hn Hr E. destruct (reaches_ri_ok _ _ _ _ _ _ Hn Hr) as [Hx _].
  by destruct (send_reply_inv _ _ _ _ _ _ _ _ _ _ _ Hx E) as (_ & _ & ?).
Qed.

Lemma retransmission_never_limited_witness :
  let c := default_config 1 1 in
  let q := mkPrincipal 1 1 1 0 (mkHmac true [1; 4] []) (mkHmac true [4; 1] []) in
  let x := mkRi 1 [mkReply 0 104 0 9 Dig.zero 0 3 ([1; 2; 3] ++ replicate 32 0)] [mkRinfo true 0] in
  ∃ x' e, send_reply sample_md (H := c) 1000 [q] x 0 2 1 true 5 = Ret (x', e) ∧ is_Some e.
Proof.
  cbn zeta. do 2 eexists. split; [reflexivity|].
  refine (retransmission_never_limited sample_md (λ _, Dig.zero) (H := default_config 1 1)
    [mkPrincipal 1 1 1 0 (mkHmac true [1; 4] []) (mkHmac true [4; 1] [])] 1000 1
    (mkRi 1 [mkReply 0 104 0 9 Dig.zero 0 3 ([1; 2; 3] ++ replicate 32 0)] [mkRinfo true 0])
    0 2 1 true 5 _ _ _ _ _); [lia| |reflexivity].
  apply reach_end_reply with (x := mkRi 1 [null_reply] [mkRinfo true 0]) (pid := 0) (rid := 9) (data := [1; 2; 3]);
    [|reflexivity].
  apply reach_new_reply with (x := mkRi 1 [null_reply] [mkRinfo true 0]) (pid := 0) (sz := 8192); [|reflexivity].
  apply reach_new with (t := true). reflexivity.
Defined.

(** Before the first reply to a principal its cached request identifier is zero and
    [send_reply] aborts.  A retransmission is triggered by a request whose identifier
    equals the cached one, so an authenticated request that carries the identifier
    zero stops a replica that has not answered its sender yet. *)
Theorem first_request_zero_aborts hmac_md `{Config} n tags x pid clock ps v id t now :
  0 ≤ pid < n → make n 0 [] tags = Ret x →
  req_id x pid = Ret 0 ∧ send_reply hmac_md clock ps x pid v id t now = Err AssertFail.
Proof.
  intros Hp E. destruct (make_ri_ok n tags x ltac:(lia) E) as (Hx & Hn & Hr).
  assert (reply x pid = Ret null_reply) as Er.
  { unfold reply. rewrite Hr, zget_replicate by lia. done. }
  split; [unfold req_id; by rewrite Er|]. unfold send_reply. by rewrite Er.
Qed.

Lemma first_request_zero_aborts_witness :
  ∃ x, make 5 0 [] true = Ret x ∧ req_id x 4 = Ret 0 ∧
    send_reply (H := default_config 1 1) sample_md 1000 [] x 4 0 1 true 5 = Err AssertFail.
Proof.
  eexists. split; [reflexivity|].
  apply (first_request_zero_aborts sample_md (H := default_config 1 1) 5 true); [lia|reflexivity].
Defined.

(** *** [new_state] *)
Section new_state.
Context `{Config} {R : Type} `{RequestMsg R}.

(** The cached reply of its client answers the request. *)
Definition answered (x : Rep_info) (m : R) : bool :=
  match zget (reps x) (client_id m) with Some r => request_id m <=? r_rid r | None => false end.

Lemma new_state_loop_spec x q first l is_ :
  ri_ok x → RQ.queue_rep q l → Forall (λ i, 0 ≤ i < nps x ∧ 0 ≤ i < num_principals) is_ →
  ∃ x' q' b, new_state_loop x q first is_ = Ret (x', q', b) ∧ ri_ok x' ∧ reps x' = reps x ∧ nps x' = nps x ∧
    RQ.queue_rep q' (filter (λ m, ¬ (client_id m ∈ is_ ∧ answered x m = true)) l) ∧
    ∀ pid, is_committed x' pid = if decide (pid ∈ is_) then Ret true else is_committed x pid.
Proof.
  intros Hx Hq Hi. revert x q first l Hx Hq Hi. induction is_ as [|i is_ IH]; intros x q first l Hx Hq Hi.
  - exists x, q, first. split; [done|]. split; [done|]. split; [done|]. split; [done|]. split.
    + rewrite RQ.list_filter_all; [done|]. apply Forall_forall. intros m _ [Hm _]. by apply elem_of_nil in Hm.
    + intros pid. rewrite decide_False; [done|]. by intros ?%elem_of_nil.
  - apply Forall_cons in Hi as [[Hi Hip] His]. destruct (ri_lookup x i Hx Hi) as (r & inf & Er & Ei & _ & _ & Gr & Gi).
    cbn [new_state_loop]. unfold commit_reply. rewrite Ei. cbn [mbind outcome_bind].
    set (x1 := set_info x i (mkRinfo false zeroTime)).
    assert (ri_ok x1) as Hx1 by by apply lsent_set.
    assert (req_id x1 i = Ret (r_rid r)) as -> by (unfold req_id, reply; cbn; by rewrite Gr).
    cbn [mbind outcome_bind].
    destruct (RQ.remove_client_rep q l i (r_rid r) Hq Hip) as (q1 & b1 & E1 & Hq1 & _). rewrite E1.
    cbn [mbind outcome_bind].
    destruct (IH x1 q1 (b1 || first) _ Hx1 Hq1 His) as (x' & q' & b & E & Hx' & Hr' & Hn' & Hq' & Hc').
    exists x', q', b. split; [done|]. split; [done|]. split; [done|]. split; [done|]. split.
    + unfold RQ.spec_remove_client in Hq'. rewrite list_filter_filter in Hq'.
      rewrite (list_filter_ext_in _ (λ m, ¬ (client_id m ∈ is_ ∧ answered x1 m = true) ∧
        ¬ (client_id m = i ∧ request_id m ≤ r_rid r))); [done|].
      intros m _. rewrite elem_of_cons. unfold answered. cbn [reps x1 set_info].
      destruct (decide (client_id m = i)) as [->|]; [|tauto].
      rewrite Gr, Z.leb_le. tauto.
    + intros pid. rewrite Hc'. destruct (decide (pid ∈ is_)) as [Hin|Hnin].
      { rewrite decide_True; [done|]. by right. }
      unfold is_committed, info. cbn [ireps x1 set_info]. rewrite zget_zset.
      destruct (decide (pid = i)) as [->|Hne].
      * rewrite (decide_True (P := i ∈ _)) by by left. rewrite (decide_True (P := i = i ∧ _)); [done|].
        split; [done|]. by eapply zget_Some_lt.
      * rewrite (decide_False (P := pid ∈ _)) by (by intros [?|?]%elem_of_cons).
        rewrite decide_False; [done|]. by intros [-> _].
Qed.
End new_state.

(** After a state transfer, [new_state] marks every cached reply as committed and
    removes exactly the requests that the new replies answer: the queue keeps, in
    order, the requests whose identifier is larger than the cached one of their
    client. *)
Theorem new_state_drops_answered `{Config} {R} `{RequestMsg R} (x : Rep_info) (q : RQ.Req_queue) (l : list R) :
  ri_ok x → nps x = num_principals → RQ.queue_rep q l →
  ∃ x' q' b, new_state x q = Ret (x', q', b) ∧ ri_ok x' ∧ reps x' = reps x ∧
    RQ.queue_rep q' (filter (λ m, answered x m = false) l) ∧
    ∀ pid, 0 ≤ pid < nps x → is_committed x' pid = Ret true.
Proof.
  intros Hx Hn Hq. destruct (new_state_loop_spec x q false l (seqZ 0 (nps x)) Hx Hq) as
    (x' & q' & b & E & Hx' & Hr & _ & Hq' & Hc).
  { apply Forall_forall. intros i Hi%elem_of_seqZ. lia. }
  exists x', q', b. split; [done|]. split; [done|]. split; [done|]. split.
  - rewrite (list_filter_ext_in _ (λ m, answered x m = false)) in Hq'; [done|].
    intros m Hm. rewrite elem_of_seqZ. destruct (answered x m) eqn:Ea; [|intuition congruence].
    split; [|done]. intros Hno. destruct Hno. split; [|done].
    unfold answered in Ea. destruct (zget (reps x) (client_id m)) eqn:E1; [|done].
    apply zget_Some_lt in E1. rewrite (ri_reps _ Hx) in E1. lia.
  - intros pid Hp. rewrite Hc, decide_True; [done|]. apply elem_of_seqZ. lia.
Qed.

#[local] Existing Instance RQ.triple_request.

(** A queue with one request of client 4, and a table with the reply to it. *)
Definition sample_request : Z * Z * Z := (4, 9, 80).

Definition sample_queue : @RQ.Req_queue (Z * Z * Z) :=
  match RQ.append (RQ.make (H := default_config 1 1)) sample_request with
  | Ret (q, _) => q
  | Err _ => RQ.make (H := default_config 1 1)
  end.

Definition sample_ri : Rep_info :=
  mkRi 5 (replicate 4 null_reply ++ [mkReply 0 104 0 9 Dig.zero 0 0 []]) (replicate 5 (mkRinfo true 0)).

Lemma sample_queue_rep : RQ.queue_rep (H := default_config 1 1) sample_queue [sample_request].
Proof.
  destruct (RQ.append_rep (H := default_config 1 1) (RQ.make (H := default_config 1 1)) [] sample_request)
    as (q & E & Hq).
  - apply RQ.make_represents. vm_compute. congruence.
  - vm_compute. intuition congruence.
  - unfold sample_queue. rewrite E. exact Hq.
Qed.

Lemma sample_ri_ok : ri_ok sample_ri.
Proof. constructor; try reflexivity; repeat constructor. Qed.

Lemma new_state_drops_answered_witness :
  ∃ x' q' b, new_state sample_ri sample_queue = Ret (x', q', b) ∧ ri_ok x' ∧ reps x' = reps sample_ri ∧
    RQ.queue_rep (H := default_config 1 1) q' [] ∧ ∀ pid, 0 ≤ pid < 5 → is_committed x' pid = Ret true.
Proof.
  exact (new_state_drops_answered (H := default_config 1 1) sample_ri sample_queue [sample_request]
    sample_ri_ok eq_refl sample_queue_rep).
Defined.
End RI.
