(* ===== verification/PrePrepare.v ===== *)
(** * PrePrepare: client requests and the batches of the primary

    Module [Req] is src/src/Request.{h,cc} and [Principal::verify_signature], module
    [PP] is src/src/Pre_prepare.{h,cc}.  A pre-prepare embeds its requests as bytes:
    they are found again by walking from header to header, so both messages are
    modelled on their bytes.  A pointer to a request is the list of the bytes from
    its header on; what lies behind the buffer has no value.  Digests and
    signatures (mbedtls) and the non-deterministic choices (the application) are
    parameters. *)
From S2P Require Import Prelude Node Certificate Messages PreparedCert ReqQueue.
Import HmacModel Auth.

(** ** Reading little-endian integers *)
Definition from_le (l : list Z) : Z := foldr (λ b acc, b + 256 * acc) 0 l.
Definition rd (off n : nat) (b : list Z) : Z := from_le (take n (drop off b)).

Lemma le_S n z : Msg.le (S n) z = z `mod` 256 :: Msg.le n (z `div` 256).
Proof.
  unfold Msg.le. rewrite Nat2Z.inj_succ, seqZ_cons by lia. rewrite fmap_cons, Z.pred_succ. f_equal.
  - by rewrite Z.mul_0_r, Z.pow_0_r, Z.div_1_r.
  - change (Z.succ 0) with (1 + 0). rewrite <- fmap_add_seqZ, <- list_fmap_compose. apply list_fmap_ext.
    intros i x Hx%list_elem_of_lookup_2%elem_of_seqZ. cbn. f_equal. rewrite Z.div_div by lia. f_equal.
    change 256 with (2 ^ 8). rewrite <- Z.pow_add_r by lia. f_equal. lia.
Qed.

Lemma from_le_le n z : from_le (Msg.le n z) = z `mod` 2 ^ (8 * Z.of_nat n).
Proof.
  revert z. induction n as [|n IH]; intros z; [by rewrite Z.mod_1_r|].
  rewrite le_S. cbn [from_le foldr]. fold (from_le (Msg.le n (z `div` 256))). rewrite IH.
  replace (2 ^ (8 * Z.of_nat (S n))) with (256 * 2 ^ (8 * Z.of_nat n)).
  - rewrite Z.rem_mul_r by (try apply Z.pow_nonzero; lia). lia.
  - change 256 with (2 ^ 8). rewrite <- Z.pow_add_r by lia. f_equal. lia.
Qed.

Lemma rd_le off n z l1 l2 :
  length l1 = off → rd off n (l1 ++ Msg.le n z ++ l2) = z `mod` 2 ^ (8 * Z.of_nat n).
Proof.
  intros <-. unfold rd. rewrite drop_app_length, take_app_length', from_le_le; [done|by rewrite Msg.le_length].
Qed.

Lemma wrapS_mod w z : 0 < w → - 2 ^ (w - 1) ≤ z < 2 ^ (w - 1) → wrapS w (z `mod` 2 ^ w) = z.
Proof.
  intros Hw Hz. unfold wrapS. assert (2 ^ w = 2 * 2 ^ (w - 1)) as Hp.
  { rewrite <- Z.pow_succ_r by lia. f_equal. lia. }
  rewrite Zplus_mod_idemp_l. rewrite Z.mod_small; lia.
Qed.

(** ** Requests *)
Module Req.
Section request.
Context (digest_of : list Z → Dig.Digest).
(** The public-key operations of mbedtls: the size of the signatures of a principal,
    and the verification of a signature. *)
Context (sig_size : Z → Z) (pk_verify : Z → list Z → list Z → bool).
Context `{Config}.

Record Request := mkRequest {
  extra : Z; size : Z; od : Dig.Digest; replier : Z; command_size : Z; cid : Z; rid : Z;
  rest : list Z;      (* the bytes behind the fixed part *)
}.

Definition Request_tag : Z := 1.
Definition sizeof_Request_rep : Z := 56.

Definition header (q : Request) : list Z :=
  Msg.header_bytes Request_tag (extra q) (size q) ++ Dig.bytes_of (od q) ++
  Msg.le 2 (replier q) ++ Msg.le 2 (command_size q) ++ Msg.le 4 (cid q) ++ Msg.le 8 (rid q).

(** The bytes of the message. *)
Definition contents (q : Request) : list Z := take (Z.to_nat (size q)) (header q ++ rest q).

Definition digest_at (b : list Z) : Dig.Digest :=
  let l := (λ i : nat, rd (8 + 4 * i)%nat 4 b) <$> seq 0 8 in
  match decide (Dig.words_okb l = true) with
  | left p => Dig.mkDigest l p
  | right _ => Dig.zero
  end.

(** [Request((Request_rep * )b)], and the tag that the header carries. *)
Definition at_ (b : list Z) : outcome Request :=
  _ ← (if (56 <=? zlen b) then Ret tt else Err Undefined);
  Ret (mkRequest (wrapS 16 (rd 2 2 b)) (wrapS 32 (rd 4 4 b)) (digest_at b) (wrapS 16 (rd 40 2 b))
         (wrapS 16 (rd 42 2 b)) (wrapS 32 (rd 44 4 b)) (rd 48 8 b) (drop 56 b)).
Definition tag_at (b : list Z) : Z := wrapS 16 (rd 0 2 b).

(** [convert(next, max_len, req)] for a pointer at the distance [off] from aligned
    memory. *)
Definition convert (off : Z) (b : list Z) (max_len : Z) : outcome (option Request) :=
  if max_len <? 8 then Ret None
  else
    _ ← (if (8 <=? zlen b) then Ret tt else Err Undefined);
    if Msg.convert off (Msg.mkMessage (tag_at b) (wrapS 16 (rd 2 2 b)) (wrapS 32 (rd 4 4 b)) (-1))
         max_len Request_tag sizeof_Request_rep
    then q ← at_ b; Ret (Some q)
    else Ret None.

Definition is_read_only (q : Request) : bool := Z.testbit (extra q) 0.
Definition is_recovery (q : Request) : bool := Z.testbit (extra q) 2.

Definition command (q : Request) : outcome (list Z) :=
  if (0 <=? command_size q) && (command_size q <=? zlen (rest q))
  then Ret (take (Z.to_nat (command_size q)) (rest q)) else Err Undefined.

(** The digest covers the client, the identifier and the command; its length is
    computed in [size_t]. *)
Definition comp_digest (q : Request) : outcome Dig.Digest :=
  let n := to_u64 (4 + 8 + command_size q) in
  let b := Msg.le 4 (cid q) ++ Msg.le 8 (rid q) ++ rest q in
  if n <=? zlen b then Ret (digest_of (take (Z.to_nat n) b)) else Err Undefined.

(** [Principal::verify_signature] on the bytes at the signature. *)
Definition verify_signature (pid : Z) (src sig : list Z) (allow_self : bool) : outcome bool :=
  if (pid =? node_id) && negb allow_self then Ret false
  else if zlen sig <? 4 then Err Undefined
  else
    let signature_len := rd 0 4 sig in
    if sig_size pid <? signature_len + 4 then Ret false
    else if zlen sig <? 4 + signature_len then Err Undefined
    else Ret (pk_verify pid src (take (Z.to_nat signature_len) (drop 4 sig))).

Definition verify (q : Request) : outcome bool :=
  let old_size := to_u64 (sizeof_Request_rep + command_size q) in
  d ← comp_digest q;
  if (0 <=? cid q) && (cid q <? num_principals) && Dig.operator_eq d (od q) then
    if sig_size (cid q) <=? to_u64 (size q - old_size) then
      if (0 <=? command_size q) && (command_size q <=? zlen (rest q))
      then verify_signature (cid q) (header q) (drop (Z.to_nat (command_size q)) (rest q)) true
      else Err Undefined
    else Ret false
  else Ret false.
End request.
#[export] Instance request_msg : RequestMsg Request := {| client_id := cid; request_id := rid; req_size := size |}.

(** *** Decoding inverts encoding *)
Record well_formed (q : Request) : Prop := {
  wf_extra : - 2 ^ 15 ≤ extra q < 2 ^ 15;
  wf_size : 56 ≤ size q < 2 ^ 31;
  wf_aligned : size q `mod` 8 = 0;
  wf_replier : - 2 ^ 15 ≤ replier q < 2 ^ 15;
  wf_command : 0 ≤ command_size q < 2 ^ 15;
  wf_cid : - 2 ^ 31 ≤ cid q < 2 ^ 31;
  wf_rid : 0 ≤ rid q < 2 ^ 64;
  wf_rest : zlen (rest q) = size q - 56;
}.

Lemma words_bytes_length l : length (l ≫= Msg.le 4) = (4 * length l)%nat.
Proof. induction l as [|w l IH]; [done|]. cbn. rewrite length_app, Msg.le_length, IH. lia. Qed.

Lemma bytes_of_length x : length (Dig.bytes_of x) = 32%nat.
Proof. unfold Dig.bytes_of. rewrite words_bytes_length. by rewrite (proj1 (Dig.digest_wf x)). Qed.

Lemma words_rd l1 l l2 :
  Forall Dig.word l →
  (λ i : nat, rd (length l1 + 4 * i)%nat 4 (l1 ++ (l ≫= Msg.le 4) ++ l2)) <$> seq 0 (length l) = l.
Proof.
  revert l1. induction l as [|w l IH]; intros l1 Hl; [done|].
  apply Forall_cons in Hl as [Hw Hl]. cbn [length seq fmap list_fmap mbind list_bind]. f_equal.
  - rewrite <- app_assoc, (rd_le _ _ w l1) by lia. unfold Dig.word in Hw. by rewrite Z.mod_small.
  - rewrite <- seq_shift, <- list_fmap_compose.
    etransitivity; [|exact (IH (l1 ++ Msg.le 4 w) Hl)]. apply list_fmap_ext. intros i x Hx. cbn.
    rewrite <- !app_assoc, length_app, Msg.le_length. f_equal. lia.
Qed.

Lemma digest_at_bytes l1 x l2 : length l1 = 8%nat → digest_at (l1 ++ Dig.bytes_of x ++ l2) = x.
Proof.
  intros Hl. destruct (Dig.digest_wf x) as [Hlen Hw]. unfold digest_at, Dig.bytes_of.
  pose proof (words_rd l1 (Dig.d x) l2 Hw) as E. rewrite Hl, Hlen in E. change Dig.num_words with 8%nat in E.
  case_decide as D.
  - apply Dig.digest_eq. cbn. exact E.
  - destruct D. rewrite E. by destruct x.
Qed.

Lemma rd_skip k off n l1 l2 : length l1 = k → rd (k + off) n (l1 ++ l2) = rd off n l2.
Proof.
  intros Hl. unfold rd. rewrite drop_app_ge by lia. do 3 f_equal. lia.
Qed.

Lemma rd_here n z l : rd 0 n (Msg.le n z ++ l) = z `mod` 2 ^ (8 * Z.of_nat n).
Proof. apply (rd_le 0 n z []). done. Qed.

Lemma header_length q : length (header q) = 56%nat.
Proof.
  unfold header, Msg.header_bytes. rewrite !length_app, !Msg.le_length, bytes_of_length. done.
Qed.

Lemma header_fields q r :
  well_formed q →
  let b := header q ++ r in
  tag_at b = Request_tag ∧ wrapS 16 (rd 2 2 b) = extra q ∧ wrapS 32 (rd 4 4 b) = size q ∧
  digest_at b = od q ∧ wrapS 16 (rd 40 2 b) = replier q ∧ wrapS 16 (rd 42 2 b) = command_size q ∧
  wrapS 32 (rd 44 4 b) = cid q ∧ rd 48 8 b = rid q.
Proof.
  intros Hq. unfold header, Msg.header_bytes. cbn zeta. rewrite <- !app_assoc.
  pose proof (wf_extra _ Hq). pose proof (wf_size _ Hq). pose proof (wf_replier _ Hq).
  pose proof (wf_command _ Hq). pose proof (wf_cid _ Hq). pose proof (wf_rid _ Hq).
  pose proof (λ n z, Msg.le_length n z) as Hle. pose proof (bytes_of_length (od q)) as Hd.
  assert (∀ w z, 0 < w → - 2 ^ (w - 1) ≤ z < 2 ^ (w - 1) → wrapS w (z `mod` 2 ^ w) = z) as Hw
    by (intros; by apply wrapS_mod).
  split; [|split; [|split; [|split; [|split; [|split; [|split]]]]]].
  - unfold tag_at. rewrite rd_here. apply Hw; unfold Request_tag; lia.
  - rewrite (rd_skip 2 0), rd_here by done. apply Hw; lia.
  - rewrite (rd_skip 2 2), (rd_skip 2 0), rd_here by done. apply Hw; lia.
  - rewrite !app_assoc. rewrite <- (app_assoc _ (Dig.bytes_of (od q))). rewrite <- !(app_assoc _ _ r).
    rewrite <- !app_assoc. rewrite (app_assoc (Msg.le 2 _) (Msg.le 2 _)), (app_assoc _ (Msg.le 4 (size q))).
    apply digest_at_bytes. by rewrite !length_app, !Hle.
  - rewrite (rd_skip 2 38), (rd_skip 2 36), (rd_skip 4 32), (rd_skip 32 0), rd_here by done. apply Hw; lia.
  - rewrite (rd_skip 2 40), (rd_skip 2 38), (rd_skip 4 34), (rd_skip 32 2), (rd_skip 2 0), rd_here by done.
    apply Hw; lia.
  - rewrite (rd_skip 2 42), (rd_skip 2 40), (rd_skip 4 36), (rd_skip 32 4), (rd_skip 2 2), (rd_skip 2 0), rd_here
      by done. apply Hw; lia.
  - rewrite (rd_skip 2 46), (rd_skip 2 44), (rd_skip 4 40), (rd_skip 32 8), (rd_skip 2 6), (rd_skip 2 4),
      (rd_skip 4 0), rd_here by done. apply Z.mod_small. lia.
Qed.

(** The request that is found at the bytes of [q] followed by [more]. *)
Definition followed_by (q : Request) (more : list Z) : Request :=
  mkRequest (extra q) (size q) (od q) (replier q) (command_size q) (cid q) (rid q) (rest q ++ more).

Lemma contents_eq q : well_formed q → contents q = header q ++ rest q ∧ zlen (contents q) = size q.
Proof.
  intros Hq. pose proof (wf_rest _ Hq). pose proof (wf_size _ Hq). pose proof (header_length q).
  assert (contents q = header q ++ rest q) as ->.
  { unfold contents. apply take_ge. rewrite length_app. unfold zlen in *. lia. }
  split; [done|]. unfold zlen in *. rewrite length_app. lia.
Qed.

Lemma at_contents q more : well_formed q → at_ (contents q ++ more) = Ret (followed_by q more).
Proof.
  intros Hq. destruct (contents_eq q Hq) as [-> _]. rewrite <- app_assoc. unfold at_.
  destruct (header_fields q (rest q ++ more) Hq) as (_ & -> & -> & -> & -> & -> & -> & ->).
  pose proof (header_length q). rewrite (proj2 (Z.leb_le _ _)) by (unfold zlen; rewrite length_app; lia).
  cbn [mbind outcome_bind]. unfold followed_by. do 3 f_equal. by apply drop_app_length'.
Qed.

Lemma convert_contents q more off max_len :
  well_formed q → Msg.ALIGNED off = true → 8 ≤ max_len →
  convert off (contents q ++ more) max_len = Ret (Some (followed_by q more)).
Proof.
  intros Hq Hoff Hmax. pose proof (wf_size _ Hq). unfold convert.
  rewrite (proj2 (Z.ltb_ge _ _)) by done. destruct (contents_eq q Hq) as [_ Hlen].
  rewrite (proj2 (Z.leb_le _ _)) by (unfold zlen in *; rewrite length_app; lia). cbn [mbind outcome_bind].
  rewrite at_contents by done.
  destruct (contents_eq q Hq) as [Ec _]. rewrite Ec, <- app_assoc.
  destruct (header_fields q (rest q ++ more) Hq) as (-> & -> & -> & _).
  assert (Msg.ALIGNED (size q) = true) as Ha.
  { unfold Msg.ALIGNED, Msg.ALIGNMENT, to_u64, wrapU. rewrite (Z.mod_small (size q)) by lia.
    by rewrite (wf_aligned _ Hq). }
  unfold Msg.convert, Msg.has_tag, sizeof_Request_rep. cbn [Msg.size Msg.max_size Msg.tag].
  rewrite (proj2 (Z.ltb_ge _ _)) by lia. rewrite Hoff, Ha, Z.eqb_refl. cbn [negb andb orb].
  rewrite (proj2 (Z.ltb_ge (size q) 56)) by lia. done.
Qed.
End Req.

(** ** Pre-prepare messages *)
Module PP.
Import Req.
Section pre_prepare.
Context (hmac_md : list Z → list Z → list Z) (char_signed : bool).
Context (digest_of : list Z → Dig.Digest).
Context (sig_size : Z → Z) (pk_verify : Z → list Z → list Z → bool).
Context `{Config}.

Record Pre_prepare := mkPp {
  extra : Z; size : Z; view : Z; seqno : Z; digest : Dig.Digest; rset_size : Z; non_det_size : Z;
  body : list Z;     (* requests, choices and authenticator *)
}.

Definition Pre_prepare_tag : Z := 3.
Definition sizeof_Pre_prepare_rep : Z := 64.
Definition Max_message_size : Z := 9000.

Definition header_bytes (m : Pre_prepare) : list Z :=
  Msg.header_bytes Pre_prepare_tag (extra m) (size m) ++ Msg.le 8 (view m) ++ Msg.le 8 (seqno m) ++
  Dig.bytes_of (digest m) ++ Msg.le 4 (rset_size m) ++ Msg.le 2 (non_det_size m) ++ Msg.le 2 0.

(** [n] bytes of the message from [off], which may be negative. *)
Definition bytes_at (m : Pre_prepare) (off n : Z) : outcome (list Z) :=
  let b := header_bytes m ++ body m in
  let o := sizeof_Pre_prepare_rep + off in
  if (0 <=? o) && (0 <=? n) && (o + n <=? zlen b)
  then Ret (take (Z.to_nat n) (drop (Z.to_nat o) b)) else Err Undefined.

(** [non_det_choices()] is the offset behind the requests. *)
Definition non_det_choices (m : Pre_prepare) : outcome Z :=
  _ ← th_assert (Msg.ALIGNED (rset_size m)); Ret (rset_size m).

Definition choices (m : Pre_prepare) : outcome (Z * Z) := o ← non_det_choices m; Ret (o, non_det_size m).

(** *** [fill] *)

(** The upcall that chooses the non-deterministic input, and the room for it. *)
Context (compute_non_det : Z → list Z) (max_nd_bytes : Z).

(** The requests that fit behind [next]; [acc] are their bytes and digests. *)
Fixpoint take_requests (fuel : nat) (reqs : RQ.Req_queue) (next max_req : Z) (b : list Z) (ds : list Dig.Digest)
    : outcome (RQ.Req_queue * Z * list Z * list Dig.Digest) :=
  match fuel with
  | O => Err OutOfFuel
  | S fuel =>
      r ← RQ.first reqs;
      match r with
      | None => Ret (reqs, next, b, ds)
      | Some q =>
          if max_req <? next + Req.size q then Ret (reqs, next, b, ds)
          else
            let next := next + Req.size q in
            _ ← th_assert (Msg.ALIGNED next);
            '(reqs, _) ← RQ.remove reqs;
            take_requests fuel reqs next max_req (b ++ contents q) (ds ++ [od q])
      end
  end.

(** The digest of a batch. *)
Definition batch_digest (ds : list Dig.Digest) (nd : list Z) : Dig.Digest :=
  digest_of ((ds ≫= Dig.bytes_of) ++ nd).

(** [fill] in storage of [msz] bytes. *)
Definition fill (fuel : nat) (ps : list Principal) (msz v s : Z) (reqs : RQ.Req_queue)
    : outcome (Pre_prepare * RQ.Req_queue) :=
  let max_req := msz - sizeof_Pre_prepare_rep - max_nd_bytes - auth_size (-1) in
  '(reqs, next, b, ds) ← take_requests fuel reqs 0 max_req [] [];
  _ ← th_assert (0 <=? next);
  nd ← (if 0 <? next
        then let nd := compute_non_det s in _ ← th_assert (Msg.ALIGNED (zlen nd)); Ret nd
        else Ret []);
  let nds := wrapS 16 (zlen nd) in
  let old_size := sizeof_Pre_prepare_rep + next + nds in
  _ ← th_assert (Msg.ALIGNED_SIZE (old_size + auth_size (-1)) <=? msz);
  let m := mkPp 0 (Msg.ALIGNED_SIZE (old_size + auth_size (-1))) v s (batch_digest ds nd) next nds (b ++ nd) in
  a ← gen_auth hmac_md ps (header_bytes m) false;
  Ret (mkPp 0 (size m) v s (digest m) next nds (b ++ nd ++ a), reqs).

Definition clone (m : Pre_prepare) (v : Z) : Pre_prepare :=
  mkPp (extra m) (size m) v (seqno m) (digest m) (rset_size m) (non_det_size m) (body m).

(** [re_authenticate] writes the authenticator behind the choices. *)
Definition re_authenticate (ps : list Principal) (m : Pre_prepare) : outcome Pre_prepare :=
  o ← non_det_choices m;
  a ← gen_auth hmac_md ps (header_bytes m) false;
  let p := Z.to_nat (o + non_det_size m) in
  if zlen (body m) <? o + non_det_size m + zlen a then Err Undefined
  else Ret (mkPp (extra m) (size m) (view m) (seqno m) (digest m) (rset_size m) (non_det_size m)
              (take p (body m) ++ a ++ drop (p + length a) (body m))).

(** *** Verification *)

(** The walk over the embedded requests: their digests, if each of them is accepted. *)
Fixpoint walk (fuel : nat) (accept : Request → outcome bool) (m : Pre_prepare) (next : Z) (ds : list Dig.Digest)
    : outcome (option (list Dig.Digest)) :=
  if rset_size m <=? next then Ret (Some ds)
  else
    match fuel with
    | O => Err OutOfFuel
    | S fuel =>
        r ← convert next (drop (Z.to_nat next) (body m)) (to_unsigned (rset_size m - next));
        match r with
        | None => Ret None
        | Some q =>
            ok ← accept q;
            if (ok : bool) then walk fuel accept m (next + Req.size q) (ds ++ [od q]) else Ret None
        end
    end.

Definition NAC : Z := 1.
Definition NRC : Z := 2.

(** Each request takes at least 56 bytes. *)
Definition walk_fuel (m : Pre_prepare) : nat := Z.to_nat (rset_size m).

Definition check_digest (primary_of : Z → Z) (m : Pre_prepare) : outcome bool :=
  let min_size := to_int (sizeof_Pre_prepare_rep + rset_size m + non_det_size m + auth_size (primary_of (view m))) in
  if min_size <=? size m then
    ds ← walk (walk_fuel m) (λ _, Ret true) m 0 [];
    match ds with
    | None => Ret false
    | Some ds =>
        o ← non_det_choices m;
        nd ← bytes_at m o (to_u64 (non_det_size m));
        Ret (Dig.operator_eq (batch_digest ds nd) (digest m))
    end
  else Ret false.

(** [req.verify() || replica->has_req(...)] *)
Definition accept_request (mode : Z) (has_req : Z → Dig.Digest → outcome bool) (q : Request) : outcome bool :=
  if mode =? NRC then Ret true
  else
    ok ← Req.verify digest_of sig_size pk_verify q;
    if (ok : bool) then Ret true else has_req (cid q) (od q).

Definition verify (ps : list Principal) (primary_of : Z → Z) (has_req : Z → Dig.Digest → outcome bool)
    (mode : Z) (m : Pre_prepare) : outcome bool :=
  let sender := primary_of (view m) in
  let sz := to_int (rset_size m + non_det_size m) in
  if to_int (sizeof_Pre_prepare_rep + sz + auth_size sender) <=? size m then
    ds ← walk (walk_fuel m) (accept_request mode has_req) m 0 [];
    match ds with
    | None => Ret false
    | Some ds =>
        o ← non_det_choices m;
        nd ← bytes_at m o (to_u64 (non_det_size m));
        if Dig.operator_eq (batch_digest ds nd) (digest m) then
          if mode =? NAC then Ret true
          else
            a ← bytes_at m sz (size m - sizeof_Pre_prepare_rep - sz);
            verify_auth hmac_md char_signed ps sender (header_bytes m) true a
        else Ret false
    end
  else Ret false.

(** [Replica::has_req] on the queue of the replica. *)
Definition has_req (rqueue : RQ.Req_queue) (cid : Z) (d : Dig.Digest) : outcome bool :=
  r ← RQ.first_client rqueue cid;
  Ret (match r with Some q => Dig.operator_eq (od q) d | None => false end).

(** *** [Requests_iter]: the requests that will be executed *)
Fixpoint requests (fuel : nat) (m : Pre_prepare) (next_req : Z) : outcome (list Request) :=
  if rset_size m <=? next_req then Ret []
  else
    match fuel with
    | O => Err OutOfFuel
    | S fuel =>
        q ← at_ (drop (Z.to_nat next_req) (body m));
        qs ← requests fuel m (next_req + Req.size q);
        Ret (q :: qs)
    end.

Definition Requests_iter (m : Pre_prepare) : outcome (list Request) := requests (walk_fuel m) m 0.

(** ** The walk over the bytes of a batch *)
Definition batch_bytes (l : list Request) : list Z := l ≫= contents.

(** The requests of [l] as they are found in front of [more]. *)
Fixpoint found (l : list Request) (more : list Z) : list Request :=
  match l with
  | [] => []
  | q :: l => followed_by q (batch_bytes l ++ more) :: found l more
  end.

Lemma batch_bytes_len l : Forall well_formed l → zlen (batch_bytes l) = RQ.total_bytes l.
Proof.
  induction 1 as [|q l Hq _ IH]; [done|]. destruct (contents_eq q Hq) as [_ Hc].
  change (zlen (contents q ++ batch_bytes l) = Req.size q + RQ.total_bytes l).
  rewrite zlen_app, IH, Hc. done.
Qed.

Lemma total_bytes_bound l : Forall well_formed l → 56 * zlen l ≤ RQ.total_bytes l ∧ RQ.total_bytes l `mod` 8 = 0.
Proof.
  induction 1 as [|q l Hq _ IH]; [done|]. destruct IH as [IH1 IH2].
  pose proof (wf_size _ Hq). pose proof (wf_aligned _ Hq).
  change (RQ.total_bytes (q :: l)) with (Req.size q + RQ.total_bytes l).
  unfold zlen in *. cbn [length]. split; [lia|]. rewrite Z.add_mod, IH2, wf_aligned by (done || lia). done.
Qed.

Lemma total_bytes_mid (l1 l2 : list Request) q :
  RQ.total_bytes (l1 ++ q :: l2) = RQ.total_bytes l1 + (Req.size q + RQ.total_bytes l2).
Proof. by rewrite RQ.total_bytes_app. Qed.

Lemma total_bytes_snoc (l1 : list Request) q : RQ.total_bytes (l1 ++ [q]) = RQ.total_bytes l1 + Req.size q.
Proof. rewrite RQ.total_bytes_app. change (RQ.total_bytes [q]) with (Req.size q + 0). lia. Qed.

Lemma ALIGNED_mod z : 0 ≤ z < 2 ^ 64 → Msg.ALIGNED z = true ↔ z `mod` 8 = 0.
Proof.
  intros Hz. unfold Msg.ALIGNED, Msg.ALIGNMENT, to_u64, wrapU. rewrite (Z.mod_small z) by done. apply Z.eqb_eq.
Qed.

(** A message whose body starts with the requests of [l]. *)
Definition carries (m : Pre_prepare) (l : list Request) (tl : list Z) : Prop :=
  body m = batch_bytes l ++ tl ∧ rset_size m = RQ.total_bytes l ∧ RQ.total_bytes l < 2 ^ 31 ∧ Forall well_formed l.

Lemma drop_batch (l1 l2 : list Request) tl n :
  Forall well_formed l1 → n = RQ.total_bytes l1 →
  drop (Z.to_nat n) (batch_bytes (l1 ++ l2) ++ tl) = batch_bytes l2 ++ tl.
Proof.
  intros Hl ->. unfold batch_bytes. rewrite bind_app, <- app_assoc. apply drop_app_length'.
  pose proof (batch_bytes_len l1 Hl) as Hlen. unfold zlen, batch_bytes in Hlen. lia.
Qed.

Lemma walk_batch fuel accept m l1 l2 tl :
  carries m (l1 ++ l2) tl → (length l2 <= fuel)%nat →
  (∀ q, q ∈ found l2 tl → accept q = Ret true) →
  walk fuel accept m (RQ.total_bytes l1) (od <$> l1) = Ret (Some (od <$> (l1 ++ l2))).
Proof.
  intros (Hb & Hr & Hmax & Hwf). apply Forall_app in Hwf as [Hw1 Hw2].
  revert fuel l1 Hb Hr Hmax Hw1. induction Hw2 as [|q l2 Hq Hw2 IH]; intros fuel l1 Hb Hr Hmax Hw1 Hf Ha.
  - rewrite app_nil_r in *. destruct fuel; cbn; rewrite Hr, Z.leb_refl; done.
  - destruct fuel as [|fuel]; [cbn in Hf; lia|]. cbn [walk].
    destruct (total_bytes_bound l1 Hw1) as [Hp1 Ha1]. destruct (total_bytes_bound l2 Hw2) as [Hp2 _].
    pose proof (wf_size _ Hq) as Hs. pose proof (zlen_nonneg l1). pose proof (zlen_nonneg l2).
    rewrite total_bytes_mid in Hmax, Hr.
    rewrite (proj2 (Z.leb_gt _ _)) by lia. rewrite Hb, drop_batch by done. cbn [batch_bytes mbind list_bind].
    rewrite <- app_assoc. rewrite (convert_contents q _ _ _ Hq); cycle 1.
    { apply ALIGNED_mod; [lia|done]. }
    { unfold to_unsigned, wrapU. rewrite Z.mod_small by lia. lia. }
    cbn [mbind outcome_bind]. rewrite Ha by by left. cbn [Req.size followed_by od].
    specialize (IH fuel (l1 ++ [q])). rewrite total_bytes_snoc, fmap_app in IH. cbn [fmap list_fmap] in IH.
    replace (l1 ++ q :: l2) with ((l1 ++ [q]) ++ l2) by by rewrite <- app_assoc.
    apply IH.
    + by rewrite <- app_assoc.
    + rewrite <- app_assoc. cbn [app]. rewrite total_bytes_mid. lia.
    + rewrite <- app_assoc. cbn [app]. rewrite total_bytes_mid. lia.
    + apply Forall_app. split; [done|]. by apply Forall_singleton.
    + cbn in Hf. lia.
    + intros x Hx. apply Ha. by right.
Qed.

Lemma requests_batch fuel m l1 l2 tl :
  carries m (l1 ++ l2) tl → (length l2 <= fuel)%nat →
  requests fuel m (RQ.total_bytes l1) = Ret (found l2 tl).
Proof.
  intros (Hb & Hr & Hmax & Hwf). apply Forall_app in Hwf as [Hw1 Hw2].
  clear Hmax. revert fuel l1 Hb Hr Hw1. induction Hw2 as [|q l2 Hq Hw2 IH]; intros fuel l1 Hb Hr Hw1 Hf.
  - rewrite app_nil_r in *. destruct fuel; cbn; by rewrite Hr, Z.leb_refl.
  - destruct fuel as [|fuel]; [cbn in Hf; lia|]. cbn [requests].
    destruct (total_bytes_bound l2 Hw2) as [Hp2 _]. pose proof (wf_size _ Hq) as Hs. pose proof (zlen_nonneg l2).
    pose proof Hr as Hr'. rewrite total_bytes_mid in Hr'.
    rewrite (proj2 (Z.leb_gt _ _)) by lia. rewrite Hb, drop_batch by done. cbn [batch_bytes mbind list_bind].
    rewrite <- app_assoc, (at_contents q _ Hq). cbn [mbind outcome_bind Req.size followed_by].
    specialize (IH fuel (l1 ++ [q])). rewrite total_bytes_snoc in IH. rewrite IH; [done|..].
    + by rewrite <- app_assoc.
    + by rewrite <- app_assoc.
    + apply Forall_app. split; [done|]. by apply Forall_singleton.
    + cbn in Hf. lia.
Qed.

(** ** The batch of the primary *)
Lemma take_requests_spec fuel reqs l next max_req b ds :
  RQ.queue_rep reqs l → Forall well_formed l → 0 ≤ next → next `mod` 8 = 0 → max_req < 2 ^ 31 →
  (length l < fuel)%nat →
  ∃ l1 l2 reqs', l = l1 ++ l2 ∧
    take_requests fuel reqs next max_req b ds =
      Ret (reqs', next + RQ.total_bytes l1, b ++ batch_bytes l1, ds ++ (od <$> l1)) ∧
    RQ.queue_rep reqs' l2 ∧ (l1 ≠ [] → next + RQ.total_bytes l1 ≤ max_req) ∧
    ∀ q l', l2 = q :: l' → max_req < next + RQ.total_bytes l1 + Req.size q.
Proof.
  intros Hq Hwf Hn Ha Hmax. revert reqs l next b ds Hq Hwf Hn Ha. induction fuel as [|fuel IH];
    intros reqs l next b ds Hq Hwf Hn Ha Hf; [lia|]. cbn [take_requests].
  rewrite (RQ.first_rep _ _ Hq). cbn [mbind outcome_bind]. destruct l as [|q l]; cbn [list.head].
  { exists [], [], reqs. rewrite Z.add_0_r, !app_nil_r. done. }
  apply Forall_cons in Hwf as [Hwq Hwf]. pose proof (wf_size _ Hwq). pose proof (wf_aligned _ Hwq).
  destruct (max_req <? next + Req.size q) eqn:Efit; zprop.
  { exists [], (q :: l), reqs. rewrite Z.add_0_r, !app_nil_r. split; [done|]. split; [done|]. split; [done|].
    split; [done|]. intros q' l' [= <- _]. cbn. lia. }
  assert ((next + Req.size q) `mod` 8 = 0) as Ha'.
  { rewrite Z.add_mod by lia. replace (Req.size q `mod` 8) with 0. by rewrite Ha. }
  rewrite (proj2 (ALIGNED_mod (next + Req.size q) ltac:(lia)) Ha'). cbn [th_assert mbind outcome_bind].
  destruct (RQ.remove_rep _ _ Hq) as (reqs1 & -> & Hq1). cbn [list.tail mbind outcome_bind] in *.
  destruct (IH reqs1 l (next + Req.size q) (b ++ contents q) (ds ++ [od q]) Hq1 Hwf ltac:(lia) Ha'
    ltac:(cbn in Hf; lia)) as (l1 & l2 & reqs' & -> & E & Hr & Hle & Hnext).
  exists (q :: l1), l2, reqs'. split; [done|].
  change (RQ.total_bytes (q :: l1)) with (Req.size q + RQ.total_bytes l1).
  rewrite E, <- !app_assoc, Z.add_assoc. split; [done|]. split; [done|]. split.
  - intros _. destruct l1 as [|q1 l1]; [cbn; lia|by apply Hle].
  - intros q' l' Heq. apply (Hnext q' l' Heq).
Qed.

(** Bytes behind a message do not change its verification. *)
Lemma verify_followed q more :
  well_formed q → Req.verify digest_of sig_size pk_verify q = Ret true →
  Req.verify digest_of sig_size pk_verify (followed_by q more) = Ret true.
Proof.
  intros Hq. pose proof (wf_command _ Hq). pose proof (wf_rest _ Hq). pose proof (wf_size _ Hq).
  unfold Req.verify, comp_digest.
  change (header (followed_by q more)) with (header q).
  cbn [cid rid rest command_size od Req.size followed_by].
  set (n := to_u64 (4 + 8 + command_size q)). set (b := Msg.le 4 (cid q) ++ Msg.le 8 (rid q) ++ rest q).
  assert (Msg.le 4 (cid q) ++ Msg.le 8 (rid q) ++ rest q ++ more = b ++ more) as ->
    by (unfold b; by rewrite <- !app_assoc).
  destruct (n <=? zlen b) eqn:En; [|done]. zprop. cbn [mbind outcome_bind].
  assert ((n <=? zlen (b ++ more)) = true) as ->.
  { apply Z.leb_le. rewrite zlen_app. pose proof (zlen_nonneg more). lia. }
  cbn [mbind outcome_bind]. rewrite take_app_le by (unfold zlen in *; lia).
  destruct (_ && Dig.operator_eq _ _); [|done]. destruct (_ <=? to_u64 _); [|done].
  rewrite (proj2 (Z.leb_le 0 _)) by lia. cbn [andb].
  destruct (command_size q <=? zlen (rest q)) eqn:Ec; [|done]. zprop.
  rewrite (proj2 (Z.leb_le _ _)) by (rewrite zlen_app; pose proof (zlen_nonneg more); lia).
  rewrite drop_app_le by (unfold zlen in *; lia). set (sg := drop _ (rest q)).
  unfold verify_signature. rewrite andb_false_r. destruct (zlen sg <? 4) eqn:E4; [done|]. zprop.
  rewrite (proj2 (Z.ltb_ge (zlen (sg ++ more)) 4)) by (rewrite zlen_app; pose proof (zlen_nonneg more); lia).
  assert (rd 0 4 (sg ++ more) = rd 0 4 sg) as ->.
  { unfold rd. rewrite !drop_0. rewrite take_app_le; [done|]. unfold zlen in *. lia. }
  destruct (_ <? _); [done|]. destruct (zlen sg <? 4 + _) eqn:E5; [done|]. zprop.
  rewrite (proj2 (Z.ltb_ge _ _)) by (rewrite zlen_app; pose proof (zlen_nonneg more); lia).
  rewrite drop_app_le by (unfold zlen in *; lia).
  rewrite take_app_le; [done|]. rewrite length_drop. unfold zlen in *. lia.
Qed.

Lemma accept_found mode hr l more :
  Forall well_formed l → Forall (λ q, Req.verify digest_of sig_size pk_verify q = Ret true) l →
  ∀ q, q ∈ found l more → accept_request mode hr q = Ret true.
Proof.
  intros Hwf. revert more. induction Hwf as [|q l Hq _ IH]; intros more Hv x Hx; [by apply elem_of_nil in Hx|].
  apply Forall_cons in Hv as [Hvq Hv]. cbn [found] in Hx. apply elem_of_cons in Hx as [->|Hx]; [|by eapply IH].
  unfold accept_request. destruct (mode =? NRC); [done|]. by rewrite verify_followed.
Qed.

Lemma header_bytes_length m : zlen (header_bytes m) = 64.
Proof.
  unfold header_bytes, Msg.header_bytes, zlen. rewrite !length_app, !Msg.le_length, bytes_of_length. done.
Qed.

Lemma bytes_at_body m off n a b c :
  body m = a ++ b ++ c → off = zlen a → n = zlen b → bytes_at m off n = Ret b.
Proof.
  intros Hb -> ->. pose proof (header_bytes_length m) as Hh. pose proof (zlen_nonneg a). pose proof (zlen_nonneg b).
  pose proof (zlen_nonneg c). unfold bytes_at, sizeof_Pre_prepare_rep. rewrite Hb, !zlen_app, Hh. zbool.
  assert (Z.to_nat (64 + zlen a) = length (header_bytes m ++ a)) as ->.
  { rewrite length_app. unfold zlen in *. lia. }
  rewrite app_assoc, drop_app_length. unfold zlen. rewrite Nat2Z.id. by rewrite take_app_length.
Qed.

(** What [fill] builds from the requests [l1], the choices [nd] and the code [a]. *)
Definition filled (v s : Z) (l1 : list Request) (nd a : list Z) : Pre_prepare :=
  mkPp 0 (Msg.ALIGNED_SIZE (sizeof_Pre_prepare_rep + RQ.total_bytes l1 + zlen nd + auth_size (-1))) v s
    (batch_digest (od <$> l1) nd) (RQ.total_bytes l1) (zlen nd) (batch_bytes l1 ++ nd ++ a).

Definition choices_for (s : Z) (l1 : list Request) : list Z :=
  match l1 with [] => [] | _ => compute_non_det s end.

Lemma fill_spec fuel ps msz v s reqs l :
  RQ.queue_rep reqs l → Forall well_formed l → (length l < fuel)%nat →
  zlen (compute_non_det s) `mod` 8 = 0 → zlen (compute_non_det s) ≤ max_nd_bytes < 2 ^ 15 →
  msz `mod` 8 = 0 → 0 ≤ auth_size (-1) → 64 + max_nd_bytes + auth_size (-1) ≤ msz < 2 ^ 31 →
  (∀ h, ∃ a, gen_auth hmac_md ps h false = Ret a) →
  ∃ l1 l2 reqs' a, l = l1 ++ l2 ∧
    let m := filled v s l1 (choices_for s l1) a in
    fill fuel ps msz v s reqs = Ret (m, reqs') ∧ RQ.queue_rep reqs' l2 ∧
    gen_auth hmac_md ps (header_bytes m) false = Ret a ∧
    RQ.total_bytes l1 ≤ msz - 64 - max_nd_bytes - auth_size (-1) ∧
    ∀ q l', l2 = q :: l' → msz < 64 + RQ.total_bytes l1 + Req.size q + max_nd_bytes + auth_size (-1).
Proof.
  intros Hq Hwf Hf Hnd Hmax Hmsz Hau Hroom Hgen. pose proof (zlen_nonneg (compute_non_det s)).
  unfold fill, sizeof_Pre_prepare_rep.
  destruct (take_requests_spec fuel reqs l 0 (msz - 64 - max_nd_bytes - auth_size (-1)) [] [] Hq Hwf)
    as (l1 & l2 & reqs' & -> & -> & Hr & Hle & Hnext); [lia|done|lia|done|].
  apply Forall_app in Hwf as [Hw1 Hw2]. destruct (total_bytes_bound l1 Hw1) as [Hp1 Ha1].
  pose proof (zlen_nonneg l1). rewrite Z.add_0_l in *. cbn [app mbind outcome_bind].
  rewrite (proj2 (Z.leb_le 0 _)) by lia. cbn [th_assert mbind outcome_bind].
  set (nd := choices_for s l1).
  assert ((if 0 <? RQ.total_bytes l1
    then _ ← th_assert (Msg.ALIGNED (zlen (compute_non_det s))); Ret (compute_non_det s)
    else Ret []) = Ret nd) as ->.
  { unfold nd. destruct l1 as [|q l1]; [done|]. unfold zlen in Hp1. cbn [length] in Hp1.
    rewrite (proj2 (Z.ltb_lt _ _)) by lia.
    assert (Msg.ALIGNED (zlen (compute_non_det s)) = true) as -> by (apply ALIGNED_mod; lia). done. }
  assert (0 ≤ zlen nd ≤ max_nd_bytes) as Hndl by (unfold nd; destruct l1; cbn [choices_for]; [change (zlen (@nil Z)) with 0; lia|lia]).
  cbn [mbind outcome_bind]. assert (wrapS 16 (zlen nd) = zlen nd) as ->.
  { unfold wrapS. rewrite Z.mod_small; lia. }
  assert (RQ.total_bytes l1 ≤ msz - 64 - max_nd_bytes - auth_size (-1)) as Hfit.
  { destruct l1; [cbn; lia|by apply Hle]. }
  destruct (Msg.aligned_size_spec (64 + RQ.total_bytes l1 + zlen nd + auth_size (-1))) as [Hal1 Hal2]; [lia|].
  cbn [mbind outcome_bind]. rewrite (proj2 (Z.leb_le _ msz)); cycle 1.
  { pose proof (Z_div_mod_eq_full msz 8).
    pose proof (Z_div_mod_eq_full (Msg.ALIGNED_SIZE (64 + RQ.total_bytes l1 + zlen nd + auth_size (-1))) 8). lia. }
  cbn [th_assert mbind outcome_bind].
  destruct (Hgen (header_bytes (filled v s l1 nd []))) as [a Ea].
  exists l1, l2, reqs', a. split; [done|]. cbn zeta. fold nd.
  change (header_bytes (mkPp 0 _ v s _ _ _ _)) with (header_bytes (filled v s l1 nd [])).
  rewrite Ea. split; [done|]. split; [done|]. split; [exact Ea|]. split; [done|].
  intros q l' Hl'. specialize (Hnext q l' Hl'). lia.
Qed.

(** Verification of a filled message whose authenticator is accepted. *)
Lemma verify_filled ps primary_of hr mode v s l1 nd a m :
  m = mkPp 0 (sizeof_Pre_prepare_rep + RQ.total_bytes l1 + zlen nd + zlen a) v s
    (batch_digest (od <$> l1) nd) (RQ.total_bytes l1) (zlen nd) (batch_bytes l1 ++ nd ++ a) →
  Forall well_formed l1 → (∀ q, q ∈ found l1 (nd ++ a) → accept_request mode hr q = Ret true) →
  zlen nd `mod` 8 = 0 → size m < 2 ^ 31 → auth_size (primary_of v) ≤ zlen a → 0 ≤ auth_size (primary_of v) →
  verify_auth hmac_md char_signed ps (primary_of v) (header_bytes m) true a = Ret true →
  verify ps primary_of hr mode m = Ret true ∧ check_digest primary_of m = Ret true ∧
  Requests_iter m = Ret (found l1 (nd ++ a)).
Proof.
  intros Hm Hwf Hacc Hnd Hsz Hau Hau0 Hv.
  destruct (total_bytes_bound l1 Hwf) as [Hp Ha]. pose proof (zlen_nonneg l1).
  pose proof (zlen_nonneg nd). pose proof (zlen_nonneg a).
  pose proof (batch_bytes_len l1 Hwf) as Hbl.
  assert (size m = 64 + RQ.total_bytes l1 + zlen nd + zlen a) as Hsize by by rewrite Hm.
  assert (view m = v ∧ digest m = batch_digest (od <$> l1) nd ∧ rset_size m = RQ.total_bytes l1 ∧
    non_det_size m = zlen nd ∧ body m = batch_bytes l1 ++ nd ++ a) as (Hvw & Hd & Hr & Hn & Hb) by by rewrite Hm.
  assert (carries m ([] ++ l1) (nd ++ a)) as Hc.
  { split; [by rewrite Hb|]. split; [by rewrite Hr|]. cbn [app]. split; [lia|done]. }
  assert (length l1 <= walk_fuel m)%nat as Hfuel by (unfold walk_fuel; rewrite Hr; unfold zlen in *; lia).
  assert (Msg.ALIGNED (RQ.total_bytes l1) = true) as Hal by (apply ALIGNED_mod; [lia|done]).
  assert (to_u64 (zlen nd) = zlen nd) as Hu by (unfold to_u64, wrapU; apply Z.mod_small; lia).
  assert (walk (walk_fuel m) (accept_request mode hr) m 0 [] = Ret (Some (od <$> l1))) as W1
    by exact (walk_batch (walk_fuel m) (accept_request mode hr) m [] l1 (nd ++ a) Hc Hfuel Hacc).
  assert (walk (walk_fuel m) (λ _, Ret true) m 0 [] = Ret (Some (od <$> l1))) as W2
    by exact (walk_batch (walk_fuel m) (λ _, Ret true) m [] l1 (nd ++ a) Hc Hfuel (λ _ _, eq_refl)).
  assert (requests (walk_fuel m) m 0 = Ret (found l1 (nd ++ a))) as W3
    by exact (requests_batch (walk_fuel m) m [] l1 (nd ++ a) Hc Hfuel).
  unfold verify, check_digest, Requests_iter, sizeof_Pre_prepare_rep. rewrite Hvw, Hr, Hn, Hsize, W1, W2, W3.
  rewrite (to_int_small (RQ.total_bytes l1 + zlen nd)) by lia. rewrite !to_int_small by lia.
  rewrite !(proj2 (Z.leb_le _ _)) by lia.
  cbn [mbind outcome_bind app]. unfold non_det_choices. rewrite Hr, Hal. cbn [th_assert mbind outcome_bind].
  assert (bytes_at m (RQ.total_bytes l1) (zlen nd) = Ret nd) as Hch
    by (apply (bytes_at_body m _ _ (batch_bytes l1) nd a Hb); [symmetry; exact Hbl|reflexivity]).
  rewrite Hu, Hch. cbn [mbind outcome_bind].
  rewrite Hd, (proj2 (Dig.operator_eq_spec _ _) eq_refl). split; [|done].
  destruct (mode =? NAC); [done|].
  rewrite (bytes_at_body m _ _ (batch_bytes l1 ++ nd) a []); [cbn [mbind outcome_bind]; exact Hv|..].
  - by rewrite app_nil_r, <- app_assoc.
  - rewrite zlen_app. lia.
  - lia.
Qed.
End pre_prepare.

Lemma authenticator_sent hmac_md (char_signed : bool) (c1 c2 : Config) (k1 k2 : keys) rep :
  (∀ k d, length (hmac_md k d) = Z.to_nat HMAC_size) → (∀ k d, bytes (hmac_md k d)) →
  linked c1 c2 (principals k1) (principals k2) →
  ∃ a, gen_auth (H := c1) hmac_md (principals k1) rep false = Ret a ∧ zlen a = @auth_size c1 (-1) ∧
    verify_auth (H := c2) hmac_md char_signed (principals k2) (@node_id c1) rep true a = Ret true.
Proof.
  intros Hlen Hb [Hok1 Hok2 Hg Hne Hr1 Hr2 Hl1 Hl2 (p1 & p2 & Hp1 & Hp2 & Hi & Hk)].
  destruct (verify_auth_gen hmac_md Hlen char_signed c1 c2
    (principals k1) (principals k2) p1 p2 rep rep) as (a & Ha & Hla & Hv); try done.
  exists a. split; [done|]. split.
  - rewrite Hla. pose proof (@config_id c1 Hok1). unfold auth_size. change (-1 <? 0) with true. cbv iota.
    by rewrite (proj2 (Z.ltb_ge (@node_id c1) 0)) by lia.
  - rewrite Hv, equal_refl; [done|apply Hb].
Qed.

(** C11: the primary's pre-prepare carries its batch.  [fill] takes the longest prefix of
    the queue that fits, in order, and leaves the rest; the message passes [verify]
    (in every mode) and [check_digest] at a backup that accepts the requests and
    holds the session key, and the iterator that execution uses finds exactly the
    requests of the prefix. *)
Theorem preprepare_carries_batch hmac_md (char_signed : bool) digest_of sig_size pk_verify compute_non_det
    max_nd_bytes (c1 c2 : Config) (k1 k2 : keys) primary_of hr mode fuel msz v s reqs l :
  (∀ k d, length (hmac_md k d) = Z.to_nat HMAC_size) → (∀ k d, bytes (hmac_md k d)) →
  linked c1 c2 (principals k1) (principals k2) → primary_of v = @node_id c1 →
  RQ.queue_rep (H := c1) reqs l → Forall well_formed l → (length l < fuel)%nat →
  Forall (λ q, Req.verify (H := c2) digest_of sig_size pk_verify q = Ret true) l →
  zlen (compute_non_det s) `mod` 8 = 0 → zlen (compute_non_det s) ≤ max_nd_bytes < 2 ^ 15 →
  msz `mod` 8 = 0 → 64 + max_nd_bytes + @auth_size c1 (-1) ≤ msz < 2 ^ 31 →
  ∃ l1 l2 reqs' m tl, l = l1 ++ l2 ∧
    fill (H := c1) hmac_md digest_of compute_non_det max_nd_bytes fuel (principals k1) msz v s reqs = Ret (m, reqs') ∧
    RQ.queue_rep (H := c1) reqs' l2 ∧ view m = v ∧ seqno m = s ∧
    verify (H := c2) hmac_md char_signed digest_of sig_size pk_verify (principals k2) primary_of hr mode m = Ret true ∧
    check_digest (H := c2) digest_of primary_of m = Ret true ∧
    Requests_iter m = Ret (found l1 tl) ∧
    ∀ q l', l2 = q :: l' → msz < 64 + RQ.total_bytes l1 + Req.size q + max_nd_bytes + @auth_size c1 (-1).
Proof.
  intros Hlen Hb Hl Hp Hq Hwf Hf Hver Hnd Hmax Hmsz Hroom.
  destruct (auth_size_pos c1 c2 k1 k2 Hl) as [Hau Hau8].
  destruct (fill_spec hmac_md digest_of (H := c1) compute_non_det max_nd_bytes fuel (principals k1) msz v s reqs l)
    as (l1 & l2 & reqs' & a & -> & Hfill & Hrep & Hgen & Hfit & Hnext); try done; [lia| |].
  { intros h. destruct (authenticator_sent hmac_md char_signed c1 c2 k1 k2 h Hlen Hb Hl) as (a & ? & _). by exists a. }
  apply Forall_app in Hwf as [Hw1 _]. apply Forall_app in Hver as [Hv1 _].
  destruct (total_bytes_bound l1 Hw1) as [Hp1 Ha1]. pose proof (zlen_nonneg l1).
  set (nd := choices_for compute_non_det s l1) in *.
  assert (0 ≤ zlen nd ≤ max_nd_bytes ∧ zlen nd `mod` 8 = 0) as [Hndl Hnd8].
  { pose proof (zlen_nonneg (compute_non_det s)). unfold nd.
    destruct l1; cbn [choices_for]; [split; [change (zlen (@nil Z)) with 0; lia|done]|split; [lia|done]]. }
  cbn zeta in Hfill, Hgen. set (m := filled (H := c1) digest_of v s l1 nd a) in *.
  destruct (authenticator_sent hmac_md char_signed c1 c2 k1 k2 (header_bytes m) Hlen Hb Hl) as (a' & Ea & Hla & Hva).
  assert (a' = a) as -> by congruence.
  destruct (Msg.aligned_size_spec (64 + RQ.total_bytes l1 + zlen nd + @auth_size c1 (-1))) as [Hal1 Hal2]; [lia|].
  assert (Msg.ALIGNED_SIZE (64 + RQ.total_bytes l1 + zlen nd + @auth_size c1 (-1)) =
    64 + RQ.total_bytes l1 + zlen nd + @auth_size c1 (-1)) as Hexact.
  { pose proof (Z_div_mod_eq_full (Msg.ALIGNED_SIZE (64 + RQ.total_bytes l1 + zlen nd + @auth_size c1 (-1))) 8).
    pose proof (Z_div_mod_eq_full (RQ.total_bytes l1) 8). pose proof (Z_div_mod_eq_full (zlen nd) 8).
    pose proof (Z_div_mod_eq_full (@auth_size c1 (-1)) 8). lia. }
  assert (@auth_size c2 (@node_id c1) = @auth_size c1 (-1)) as Hau2.
  { destruct Hl as [Hok1 _ [Hfa _] _ Hr1 _ _ _ _]. pose proof (@config_id c1 Hok1).
    unfold auth_size, num_replicas. rewrite <- Hfa. change (-1 <? 0) with true. cbv iota.
    by rewrite (proj2 (Z.ltb_ge (@node_id c1) 0)) by lia. }
  destruct (verify_filled hmac_md char_signed digest_of sig_size pk_verify (H := c2) (principals k2) primary_of
    hr mode v s l1 nd a m) as (V1 & V2 & V3); rewrite ?Hp, ?Hau2; try done; try lia.
  - unfold m, filled, sizeof_Pre_prepare_rep. by rewrite Hexact, Hla.
  - by apply accept_found.
  - unfold m, filled. cbn [size]. unfold sizeof_Pre_prepare_rep. lia.
  - by exists l1, l2, reqs', m, (nd ++ a).
Qed.

(** *** What the digest does not cover *)
Definition with_bytes (m : Pre_prepare) (b : list Z) : Pre_prepare :=
  mkPp (extra m) (size m) (view m) (seqno m) (digest m) (rset_size m) (non_det_size m) b.

Lemma bytes_at_tail m c tl off n :
  body m = c ++ tl → zlen c ≤ off →
  bytes_at m off n =
    (if (0 <=? n) && (off - zlen c + n <=? zlen tl)
     then Ret (take (Z.to_nat n) (drop (Z.to_nat (off - zlen c)) tl)) else Err Undefined).
Proof.
  intros Hb Hoff. pose proof (header_bytes_length m) as Hh. pose proof (zlen_nonneg c).
  unfold bytes_at, sizeof_Pre_prepare_rep. rewrite Hb, !zlen_app, Hh.
  rewrite (proj2 (Z.leb_le 0 (64 + off))) by lia. cbn [andb].
  assert ((64 + off + n <=? 64 + (zlen c + zlen tl)) = (off - zlen c + n <=? zlen tl)) as ->.
  { destruct (Z.leb_spec (off - zlen c + n) (zlen tl)); [apply Z.leb_le|apply Z.leb_gt]; lia. }
  rewrite app_assoc. destruct (_ && _); [|done]. f_equal. f_equal.
  assert (Z.to_nat (64 + off) = (length (header_bytes m ++ c) + Z.to_nat (off - zlen c))%nat) as ->.
  { rewrite length_app. unfold zlen in *. lia. }
  by rewrite drop_app_add.
Qed.

(** C12: an accepted pre-prepare does not determine the command that is executed.  Take a
    genuine pre-prepare with one request [q] that a backup accepts, and put in place
    of [q] any request [q'] of the same length that names the same client and claims
    the same digest.  If the backup has [q] in its queue, it accepts the altered
    message too, without a valid signature of the client: the authenticator covers the
    fixed part only, and the digest only what the requests claim.  Both messages have
    the same digest, but the iterator yields the command of [q']. *)
Theorem queued_request_substituted hmac_md char_signed digest_of sig_size pk_verify `{Config}
    ps primary_of rqueue m q q' tl b :
  carries m [q] tl → well_formed q' → Req.size q' = Req.size q → cid q' = cid q → od q' = od q →
  Req.verify digest_of sig_size pk_verify q = Ret true →
  Req.verify digest_of sig_size pk_verify (followed_by q' tl) = Ret b →
  RQ.first_client rqueue (cid q) = Ret (Some q) → 0 ≤ non_det_size m < 2 ^ 15 →
  Req.size q < 2 ^ 30 →
  verify hmac_md char_signed digest_of sig_size pk_verify ps primary_of (has_req rqueue) 0 m = Ret true →
  let m' := with_bytes m (contents q' ++ tl) in
  verify hmac_md char_signed digest_of sig_size pk_verify ps primary_of (has_req rqueue) 0 m' = Ret true ∧
  digest m' = digest m ∧ header_bytes m' = header_bytes m ∧ Requests_iter m' = Ret [followed_by q' tl].
Proof.
  intros Hc Hq' Hsz Hcid Hod Hv Hv' Hqueue Hnds Hq30 Hver m'.
  pose proof Hc as (Hb & Hr & Hmax & Hwf). pose proof (Forall_inv Hwf) as Hq.
  change (RQ.total_bytes [q]) with (Req.size q + 0) in *. rewrite Z.add_0_r in *.
  change (batch_bytes [q]) with (contents q ++ []) in Hb. rewrite app_nil_r in Hb.
  destruct (contents_eq q Hq) as [_ Hl], (contents_eq q' Hq') as [_ Hl']. pose proof (wf_size _ Hq).
  assert (carries m' ([] ++ [q']) tl) as Hc'.
  { split; [cbn [body m' with_bytes]; by change (batch_bytes ([] ++ [q'])) with (contents q' ++ []); rewrite app_nil_r|].
    change (RQ.total_bytes ([] ++ [q'])) with (Req.size q' + 0). rewrite Z.add_0_r, Hsz.
    split; [done|]. split; [done|]. by constructor. }
  assert (1 <= walk_fuel m)%nat as Hfuel by (unfold walk_fuel; rewrite Hr; lia).
  assert (walk (walk_fuel m) (accept_request digest_of sig_size pk_verify 0 (has_req rqueue)) m 0 [] =
    Ret (Some [od q])) as W.
  { apply (walk_batch (walk_fuel m) _ m [] [q] tl Hc Hfuel).
    apply (accept_found digest_of sig_size pk_verify 0 (has_req rqueue) [q] tl); by constructor. }
  assert (walk (walk_fuel m) (accept_request digest_of sig_size pk_verify 0 (has_req rqueue)) m' 0 [] =
    Ret (Some [od q'])) as W'.
  { apply (walk_batch (walk_fuel m) _ m' [] [q'] tl Hc' Hfuel). intros x Hx.
    cbn [found batch_bytes mbind list_bind app] in Hx. apply list_elem_of_singleton in Hx as ->.
    unfold accept_request. cbn [Z.eqb NRC Pos.eqb]. rewrite Hv'. cbn [mbind outcome_bind]. destruct b; [done|].
    unfold has_req. cbn [cid od followed_by]. rewrite Hcid, Hqueue, Hod. cbn [mbind outcome_bind].
    by rewrite (proj2 (Dig.operator_eq_spec _ _) eq_refl). }
  split; [|split; [done|split; [done|]]]; cycle 1.
  { exact (requests_batch (walk_fuel m') m' [] [q'] tl Hc' Hfuel). }
  assert (∀ off n, Req.size q ≤ off → bytes_at m' off n = bytes_at m off n) as Hbytes.
  { intros off n Hoff. rewrite (bytes_at_tail m (contents q) tl), (bytes_at_tail m' (contents q') tl) by (done || lia).
    by rewrite Hl, Hl', Hsz. }
  unfold verify, non_det_choices in *. change (walk_fuel m') with (walk_fuel m).
  change (rset_size m') with (rset_size m). change (non_det_size m') with (non_det_size m).
  change (view m') with (view m). change (size m') with (size m). change (digest m') with (digest m).
  change (header_bytes m') with (header_bytes m).
  rewrite W in Hver. rewrite W', Hod. destruct (_ <=? size m); [|done]. cbn [mbind outcome_bind] in *.
  rewrite Hr in *. destruct (th_assert _) as [u|]; [|done]. cbn [mbind outcome_bind] in *.
  rewrite (Hbytes (Req.size q)) by lia. destruct (bytes_at m (Req.size q) _) as [nd|]; [|done]. cbn [mbind outcome_bind] in *.
  destruct (Dig.operator_eq _ _); [|done]. change (0 =? NAC) with false in *. cbv iota in *.
  rewrite Hbytes; [done|]. rewrite to_int_small by lia. lia.
Qed.

(** The first thing that the handler of pre-prepares does is to call [choices], before
    any check; a message whose [rset_size] is not a multiple of eight makes it abort,
    whoever sent it. *)
Theorem unaligned_rset_size_aborts m : 0 ≤ rset_size m < 2 ^ 31 →
  (choices m = Err AssertFail ↔ rset_size m `mod` 8 ≠ 0).
Proof.
  intros Hr. unfold choices, non_det_choices. pose proof (ALIGNED_mod (rset_size m) ltac:(lia)) as Ha.
  destruct (Msg.ALIGNED (rset_size m)); cbn; split; intros Hx; try done; intuition congruence.
Qed.

(** *** Examples: a request of client 4, and one that claims its digest *)
Definition sample_digest_of (l : list Z) : Dig.Digest :=
  match decide (Dig.words_okb (replicate 8 (foldr Z.add 0 l `mod` 2 ^ 32)) = true) with
  | left p => Dig.mkDigest _ p
  | right _ => Dig.zero
  end.

Definition sample_pk (_ : Z) (_ _ : list Z) : bool := true.

Definition sample_command (c : Z) : list Z := [c; 0; 0; 0; 0; 0; 0; 0] ++ replicate 8 0.

Definition sample_request (c od : Z) : Request :=
  mkRequest 0 72 (sample_digest_of [od]) (-1) 8 4 9 (sample_command c).

Lemma sample_request_wf c x : well_formed (sample_request c x).
Proof. constructor; vm_compute; intuition congruence. Qed.

Definition sample_rqueue (c : Config) : @RQ.Req_queue Request :=
  match RQ.append (RQ.make (H := c)) (sample_request 5 18) with Ret (q, _) => q | Err _ => RQ.make (H := c) end.

Lemma sample_rqueue_rep i : RQ.queue_rep (H := default_config 1 i) (sample_rqueue (default_config 1 i)) [sample_request 5 18].
Proof.
  destruct (RQ.append_rep (H := default_config 1 i) (RQ.make (H := default_config 1 i)) [] (sample_request 5 18))
    as (q & E & Hq).
  - apply RQ.make_represents. vm_compute. congruence.
  - vm_compute. intuition congruence.
  - unfold sample_rqueue. rewrite E. exact Hq.
Qed.

Definition sample_pp : outcome (Pre_prepare * @RQ.Req_queue Request) :=
  fill (H := default_config 1 1) sample_md sample_digest_of (λ _, replicate 8 3) 8 2 sample_principals 9000 0 1
    (sample_rqueue (default_config 1 1)).

Lemma preprepare_carries_batch_witness :
  let c1 := default_config 1 1 in let c2 := default_config 1 2 in
  ∃ l1 l2 reqs' m tl, [sample_request 5 18] = l1 ++ l2 ∧ sample_pp = Ret (m, reqs') ∧
    RQ.queue_rep (H := c1) reqs' l2 ∧ view m = 0 ∧ seqno m = 1 ∧
    verify (H := c2) sample_md true sample_digest_of (λ _, 8) sample_pk sample_principals (λ _, 1)
      (λ _ _, Ret false) 0 m = Ret true ∧
    check_digest (H := c2) sample_digest_of (λ _, 1) m = Ret true ∧
    Requests_iter m = Ret (found l1 tl) ∧
    ∀ q l', l2 = q :: l' → 9000 < 64 + RQ.total_bytes l1 + Req.size q + 8 + @auth_size c1 (-1).
Proof.
  intros c1 c2.
  apply (preprepare_carries_batch sample_md true sample_digest_of (λ _, 8) sample_pk (λ _, replicate 8 3) 8 c1 c2
    (sample_keys 1) (sample_keys 1) (λ _, 1) (λ _ _, Ret false) 0 2 9000 0 1 (sample_rqueue c1)
    [sample_request 5 18]).
  - reflexivity.
  - intros k d. apply Forall_replicate. apply Z.mod_pos_bound. lia.
  - exact sample_linked.
  - reflexivity.
  - exact (sample_rqueue_rep 1).
  - constructor; [apply sample_request_wf|constructor].
  - apply Nat.ltb_lt. reflexivity.
  - constructor; [vm_compute; reflexivity|constructor].
  - reflexivity.
  - vm_compute; intuition congruence.
  - reflexivity.
  - vm_compute; intuition congruence.
Defined.

Definition sample_m : Pre_prepare :=
  match sample_pp with Ret (m, _) => m | Err _ => mkPp 0 0 0 0 Dig.zero 0 0 [] end.

Lemma queued_request_substituted_witness :
  let c2 := default_config 1 2 in
  let q' := sample_request 6 18 in
  let m' := with_bytes sample_m (contents q' ++ drop 72 (body sample_m)) in
  Req.verify (H := c2) sample_digest_of (λ _, 8) sample_pk q' = Ret false ∧
  verify (H := c2) sample_md true sample_digest_of (λ _, 8) sample_pk sample_principals (λ _, 1)
    (has_req (sample_rqueue c2)) 0 m' = Ret true ∧
  digest m' = digest sample_m ∧ header_bytes m' = header_bytes sample_m ∧
  Requests_iter m' = Ret [followed_by q' (drop 72 (body sample_m))].
Proof.
  intros c2 q' m'. split; [vm_compute; reflexivity|].
  apply (queued_request_substituted sample_md true sample_digest_of (λ _, 8) sample_pk (H := c2) sample_principals
    (λ _, 1) (sample_rqueue c2) sample_m (sample_request 5 18) q' (drop 72 (body sample_m)) false).
  - split; [vm_compute; reflexivity|]. split; [vm_compute; reflexivity|]. split; [vm_compute; reflexivity|].
    constructor; [apply sample_request_wf|constructor].
  - apply sample_request_wf.
  - reflexivity.
  - reflexivity.
  - reflexivity.
  - vm_compute. reflexivity.
  - vm_compute. reflexivity.
  - vm_compute. reflexivity.
  - vm_compute. intuition congruence.
  - vm_compute. reflexivity.
  - vm_compute. reflexivity.
Defined.

Lemma unaligned_rset_size_aborts_witness :
  choices (mkPp 0 72 0 1 Dig.zero 1 0 [0; 0; 0; 0; 0; 0; 0; 0]) = Err AssertFail.
Proof. apply unaligned_rset_size_aborts; vm_compute; intuition congruence. Defined.
End PP.
