(* ===== verification/Status.v ===== *)
(** * Status: what a replica tells the others about its progress (src/src/Status.{h,cc})

    The message on bytes: behind the fixed part follow, with the information of the new
    view, the bitmaps of prepared and of committed batches, and otherwise the bitmap of
    the view-changes and the array of the missing pre-prepares; the authenticator is
    behind them.  The bit of a batch is its distance from the last executed one, which
    starts at one: [status_bitmaps_arrive] shows what this means for the last bit. *)
From S2P Require Import Prelude Node Bitmap Certificate Messages PrePrepare.
Import HmacModel Auth.

Module Stat.
(** ** Bytes of a buffer *)

(** Writes in a buffer; a write that leaves it is undefined. *)
Definition poke (off : Z) (l b : list Z) : outcome (list Z) :=
  if (0 <=? off) && (off + zlen l <=? zlen b)
  then Ret (take (Z.to_nat off) b ++ l ++ drop (Z.to_nat (off + zlen l)) b)
  else Err Undefined.

Definition peek (off : Z) (n : nat) (b : list Z) : outcome Z :=
  if (0 <=? off) && (off + Z.of_nat n <=? zlen b) then Ret (rd (Z.to_nat off) n b) else Err Undefined.

Definition bzero (off n : Z) (b : list Z) : outcome (list Z) :=
  if 0 <=? n then poke off (replicate (Z.to_nat n) 0) b else Err Undefined.

Section status.
Context `{Config}.

(** ** The message *)
Record Status := mkStatus {
  extra : Z; size : Z;
  view : Z; last_stable : Z; last_executed : Z; id : Z; sz : Z; brsz : Z;
  body : list Z;      (* the bytes behind the fixed part *)
}.

Definition Status_tag : Z := 7.
Definition sizeof_Status_rep : Z := 40.
Definition sizeof_PP_info : Z := 24.
Definition sizeof_BR_info : Z := 16.
Definition vcs_size : Z := Z.quot (Max_num_replicas + 7) 8.
Definition to_short (z : Z) : Z := wrapS 16 z.

Definition has_nv_info (m : Status) : bool := negb (Z.land (extra m) 1 =? 0).
Definition has_nv_m (m : Status) : bool := negb (Z.land (extra m) 2 =? 0).

Definition set_body (m : Status) (b : list Z) : Status :=
  mkStatus (extra m) (size m) (view m) (last_stable m) (last_executed m) (id m) (sz m) (brsz m) b.
Definition set_counts (m : Status) (s br : Z) : Status :=
  mkStatus (extra m) (size m) (view m) (last_stable m) (last_executed m) (id m) s br (body m).
Definition set_size (m : Status) (n : Z) : Status :=
  mkStatus (extra m) n (view m) (last_stable m) (last_executed m) (id m) (sz m) (brsz m) (body m).

(** The constructor, on the contents that the storage happens to have. *)
Definition make (storage : list Z) (v ls le : Z) (hnvi hnvm : bool) : outcome Status :=
  let m := mkStatus (Z.lor (if hnvi then 1 else 0) (if hnvm then 2 else 0)) PP.Max_message_size v ls le node_id 0 0 storage in
  if hnvi then
    let n := to_short (Z.quot (ls + max_out - le + 7) 8) in
    b ← bzero 0 n storage; b ← bzero n n b;
    Ret (set_counts (set_body m b) n 0)
  else b ← bzero 0 vcs_size storage; Ret (set_body m b).

(** *** Bitmaps of batches *)
Definition mark (n off : Z) (m : Status) : outcome Status :=
  let offset := to_int (n - last_executed m) in
  if (0 <? offset) && (offset <=? max_out) then b ← BM.Bits_set (body m) (8 * off + offset); Ret (set_body m b)
  else Ret m.

Definition test (n off : Z) (m : Status) : outcome bool :=
  let offset := to_int (n - last_executed m) in
  if (0 <? offset) && (offset <=? max_out) then BM.Bits_test (body m) (8 * off + offset) else Ret false.

Definition mark_prepared (m : Status) (n : Z) : outcome Status := _ ← th_assert (has_nv_info m); mark n 0 m.
Definition mark_committed (m : Status) (n : Z) : outcome Status := _ ← th_assert (has_nv_info m); mark n (sz m) m.
Definition is_prepared (m : Status) (n : Z) : outcome bool := _ ← th_assert (has_nv_info m); test n 0 m.
Definition is_committed (m : Status) (n : Z) : outcome bool := _ ← th_assert (has_nv_info m); test n (sz m) m.

Definition add_breqs (m : Status) (n brs : Z) : outcome Status :=
  _ ← th_assert (has_nv_info m);
  _ ← th_assert ((last_executed m <? n) && (n <=? last_stable m + max_out));
  let off := 2 * sz m + sizeof_BR_info * brsz m in
  _ ← th_assert (sizeof_Status_rep + off <? PP.Max_message_size);
  b ← poke off (Msg.le 8 n ++ Msg.le 8 brs) (body m);
  Ret (set_counts (set_body m b) (sz m) (to_short (brsz m + 1))).

(** *** View-changes and missing pre-prepares *)
Definition mark_vcs (m : Status) (i : Z) : outcome Status :=
  _ ← th_assert (negb (has_nv_info m));
  _ ← th_assert ((0 <=? i) && (i <? vcs_size * 8));
  b ← BM.Bits_set (body m) i; Ret (set_body m b).

Definition has_vc (m : Status) (i : Z) : outcome bool :=
  _ ← th_assert (negb (has_nv_info m));
  _ ← th_assert ((0 <=? i) && (i <? vcs_size * 8));
  BM.Bits_test (body m) i.

Definition append_pps (m : Status) (v n mreqs : Z) (proof : bool) : outcome Status :=
  _ ← th_assert (negb (has_nv_info m));
  let off := vcs_size + sizeof_PP_info * sz m in
  _ ← th_assert (sizeof_Status_rep + off <? PP.Max_message_size);
  b ← poke off (Msg.le 8 v ++ Msg.le 4 (to_int (n - last_stable m)) ++ Msg.le 4 (if proof then 1 else 0) ++ Msg.le 8 mreqs)
        (body m);
  Ret (set_counts (set_body m b) (to_short (sz m + 1)) (brsz m)).

(** [PPS_iter::get] at position [next]: view, number, big requests, proof. *)
Definition pps_at (m : Status) (next : Z) : outcome (Z * Z * Z * bool) :=
  let off := vcs_size + sizeof_PP_info * next in
  v ← peek off 8 (body m);
  n ← peek (off + 8) 4 (body m);
  proof ← peek (off + 12) 4 (body m);
  mreqs ← peek (off + 16) 8 (body m);
  Ret (wrapS 64 v, wrapS 32 n + last_stable m, wrapS 64 mreqs, negb (proof =? 0)).

(** What a [PPS_iter] and a [BRS_iter] yield. *)
Fixpoint collect {A} (f : Z → outcome A) (l : list Z) : outcome (list A) :=
  match l with [] => Ret [] | i :: l => x ← f i; xs ← collect f l; Ret (x :: xs) end.

Definition pps (m : Status) : outcome (list (Z * Z * Z * bool)) :=
  _ ← th_assert (negb (has_nv_info m)); collect (pps_at m) (seqZ 0 (sz m)).

Definition brs_at (m : Status) (next : Z) : outcome (Z * Z) :=
  let off := 2 * sz m + sizeof_BR_info * next in
  n ← peek off 8 (body m);
  brs ← peek (off + 8) 8 (body m);
  Ret (wrapS 64 n, wrapS 64 brs).
Definition brs (m : Status) : outcome (list (Z * Z)) :=
  _ ← th_assert (has_nv_info m); collect (brs_at m) (seqZ 0 (brsz m)).

(** *** Authentication *)
Definition old_size (m : Status) : Z :=
  to_int (sizeof_Status_rep +
    if has_nv_info m then sz m * 2 + brsz m * sizeof_BR_info else vcs_size + sz m * sizeof_PP_info).

Definition rep_bytes (m : Status) : list Z :=
  Msg.header_bytes Status_tag (extra m) (size m) ++ Msg.le 8 (view m) ++ Msg.le 8 (last_stable m) ++
  Msg.le 8 (last_executed m) ++ Msg.le 4 (id m) ++ Msg.le 2 (sz m) ++ Msg.le 2 (brsz m).

Definition contents (m : Status) : list Z := rep_bytes m ++ body m.

Section auth.
Context (hmac_md : list Z → list Z → list Z) (char_signed : bool).

Definition authenticate (k : keys) (m : Status) : outcome Status :=
  let n := old_size m in
  let full := Msg.ALIGNED_SIZE (n + auth_size (-1)) in
  _ ← th_assert (full <=? PP.Max_message_size);
  let m := set_size m full in
  a ← gen_auth hmac_md (principals k) (take (Z.to_nat n) (contents m)) false;
  b ← poke (n - sizeof_Status_rep) a (body m);
  Ret (set_body m b).

(** [verify_auth_in(id(), contents(), n)]: the code reads [n] bytes, with [n] as an
    [unsigned], if it has a key for the sender. *)
Definition verify_contents (k : keys) (m : Status) (n : Z) : outcome bool :=
  if (0 <=? n) && (n <=? zlen (contents m)) then
    verify_auth hmac_md char_signed (principals k) (id m) (take (Z.to_nat n) (contents m)) true
      (drop (Z.to_nat n) (contents m))
  else
    match i_to_p (principals k) (id m) with
    | Some p => if is_initialized (hmac_in p) then Err Undefined else Ret false
    | None => Ret false
    end.

Definition consistent (m : Status) : bool :=
  let diff := to_int (last_executed m - last_stable m) in
  if (diff <? 0) || (max_out <? diff) then false
  else if negb (has_nv_info m) then (0 <=? sz m) && (sz m <=? max_out)
  else sz m =? Z.quot (max_out - diff + 7) 8.

Definition verify (k : keys) (m : Status) : outcome bool :=
  if negb (is_replica (id m)) || (id m =? node_id) || (view m <? 0) then Ret false
  else
    let n := old_size m in
    if size m - n <? auth_size (id m) then Ret false
    else ok ← verify_contents k m n; Ret (ok && consistent m).
End auth.

(** The marks of a status, in the order in which they are set: of a committed batch
    ([true]) or a prepared one. *)
Definition marks (l : list (bool * Z)) (m : Status) : outcome Status :=
  foldl (λ o '(c, n), m ← o; if c : bool then mark_committed m n else mark_prepared m n) (Ret m) l.

(** ** Lemmas *)
Lemma poke_inv off l b b' : poke off l b = Ret b' →
  0 ≤ off ∧ off + zlen l ≤ zlen b ∧ b' = take (Z.to_nat off) b ++ l ++ drop (Z.to_nat (off + zlen l)) b.
Proof.
  unfold poke. destruct (_ && _) eqn:E1; [|done]. apply andb_true_iff in E1 as [E1 E2]. zprop.
  intros E. by injection E as <-.
Qed.

Lemma poke_len off l b b' : poke off l b = Ret b' → zlen b' = zlen b.
Proof.
  intros (H1 & H2 & ->)%poke_inv. unfold zlen in *. rewrite !length_app, length_take, length_drop. lia.
Qed.

Lemma poke_before off l b b' i : poke off l b = Ret b' → i < off → zget b' i = zget b i.
Proof.
  intros (H1 & H2 & ->)%poke_inv Hi. unfold zget. case_decide as Hp; [|done].
  pose proof (zlen_nonneg l). unfold zlen in *.
  rewrite lookup_app_l by (rewrite length_take; lia). apply lookup_take_lt. lia.
Qed.

Lemma poke_at off l b b' i : poke off l b = Ret b' → off ≤ i < off + zlen l → zget b' i = zget l (i - off).
Proof.
  intros (H1 & H2 & ->)%poke_inv Hi. unfold zget. rewrite !decide_True by lia. unfold zlen in *.
  rewrite lookup_app_r by (rewrite length_take; lia). rewrite length_take, Nat.min_l by lia.
  rewrite lookup_app_l by lia. f_equal. lia.
Qed.

Lemma bzero_at off n b b' i : bzero off n b = Ret b' → off ≤ i < off + n → zget b' i = Some 0.
Proof.
  unfold bzero. destruct (0 <=? n) eqn:En; [|done]. zprop. intros E Hi.
  assert (zlen (replicate (Z.to_nat n) 0) = n) as Hl by (rewrite zlen_replicate; lia).
  rewrite (poke_at _ _ _ _ i E) by (rewrite Hl; lia). apply zget_replicate. lia.
Qed.

Lemma cbit_zero b i : zget b (i `div` BM.byte_bits) = Some 0 → BM.cbit b i = false.
Proof. intros E. unfold BM.cbit. rewrite E. apply Z.testbit_0_l. Qed.

Lemma cbit_zget b b' i : zget b' (i `div` BM.byte_bits) = zget b (i `div` BM.byte_bits) → BM.cbit b' i = BM.cbit b i.
Proof. unfold BM.cbit. by intros ->. Qed.

(** The bitmaps of a message whose marks are [l], with [w] bytes each: the bits of the
    last byte of the second one that are behind [l] are left open. *)
Record bitmaps (w : Z) (l : list (bool * Z)) (m : Status) : Prop := {
  b_info : has_nv_info m = true;
  b_sz : sz m = w;
  b_brsz : brsz m = 0;
  b_prep : ∀ o, 1 ≤ o ≤ 8 * w → BM.cbit (body m) o = bool_decide ((false, last_executed m + o) ∈ l);
  b_comm : ∀ o, 1 ≤ o < 8 * w → BM.cbit (body m) (8 * w + o) = bool_decide ((true, last_executed m + o) ∈ l);
  b_room : 2 * w ≤ zlen (body m);
}.

Definition same_head (m m' : Status) : Prop :=
  extra m' = extra m ∧ view m' = view m ∧ last_stable m' = last_stable m ∧ last_executed m' = last_executed m ∧
  id m' = id m ∧ size m' = size m.

(** The distance of a batch of the window. *)
Lemma offset_of n m : last_executed m < n ≤ last_executed m + max_out → max_out < 2 ^ 31 →
  to_int (n - last_executed m) = n - last_executed m ∧ (0 <? n - last_executed m) && (n - last_executed m <=? max_out) = true.
Proof.
  intros Hn Hm. split; [apply to_int_small; lia|]. apply andb_true_iff. rewrite Z.ltb_lt, Z.leb_le. lia.
Qed.

Lemma mark_bitmaps w l m c n m' :
  max_out < 2 ^ 31 → bitmaps w l m → last_executed m < n ≤ last_executed m + Z.min max_out (8 * w) →
  (if c : bool then mark_committed m n else mark_prepared m n) = Ret m' → bitmaps w (l ++ [(c, n)]) m' ∧ same_head m m'.
Proof.
  intros Hm [Hi Hs Hb Hp Hc Hr] Hn E.
  assert (mark n (if c then w else 0) m = Ret m') as E1.
  { unfold mark_committed, mark_prepared in E. rewrite Hi, Hs in E. by destruct c. }
  clear E. unfold mark in E1. cbv zeta in E1. destruct (offset_of n m) as [Hoff Hin]; [lia..|]. rewrite Hoff, Hin in E1.
  apply outcome_bind_Ret in E1 as (b & (_ & Hlen & Hbit)%BM.Bits_set_inv & E). injection E as <-.
  split; [|done]. constructor; cbn; try done.
  - intros o Ho. rewrite Hbit, Hp by done. destruct c.
    + rewrite bool_decide_eq_false_2 by lia. apply bool_decide_ext. rewrite elem_of_app, list_elem_of_singleton.
      split; [auto|by intros [?|[=]]].
    + rewrite orb_comm. rewrite <- bool_decide_or. apply bool_decide_ext.
      rewrite elem_of_app, list_elem_of_singleton. split; [intros [?|?]; [by left|right; f_equal; lia]|].
      intros [?|[= ?]]; [by left|right; lia].
  - intros o Ho. rewrite Hbit, Hc by done. destruct c.
    + rewrite orb_comm. rewrite <- bool_decide_or. apply bool_decide_ext.
      rewrite elem_of_app, list_elem_of_singleton. split; [intros [?|?]; [by left|right; f_equal; lia]|].
      intros [?|[= ?]]; [by left|right; lia].
    + rewrite bool_decide_eq_false_2 by lia. apply bool_decide_ext. rewrite elem_of_app, list_elem_of_singleton.
      split; [auto|by intros [?|[=]]].
  - by rewrite Hlen.
Qed.

Lemma marks_bitmaps w l l0 m m' :
  max_out < 2 ^ 31 → bitmaps w l0 m →
  (∀ c n, (c, n) ∈ l → last_executed m < n ≤ last_executed m + Z.min max_out (8 * w)) →
  marks l m = Ret m' → bitmaps w (l0 ++ l) m' ∧ same_head m m'.
Proof.
  intros Hm. unfold marks. revert l0 m. induction l as [|[c n] l IH]; intros l0 m Hb Hl E.
  { injection E as <-. by rewrite app_nil_r. }
  cbn [foldl mbind outcome_bind] in E.
  destruct (if c then mark_committed m n else mark_prepared m n) as [m1|e] eqn:E1.
  - destruct (mark_bitmaps w l0 m c n m1) as (Hb1 & Hh); [done|done|apply (Hl c n); by left|done|].
    destruct (IH (l0 ++ [(c, n)]) m1) as (Hb2 & Hh2); [done| |done|].
    { destruct Hh as (_ & _ & _ & -> & _). intros c' n' Hin. apply (Hl c' n'). by right. }
    split; [by rewrite <- app_assoc in Hb2|]. unfold same_head in *. intuition congruence.
  - exfalso. clear -E. revert E. induction l as [|[c' n'] l IH]; cbn; [done|exact IH].
Qed.

Definition window_bytes (ls le : Z) : Z := Z.quot (ls + max_out - le + 7) 8.

Lemma make_bitmaps storage v ls le hnvm m :
  max_out ≤ 2 ^ 17 → ls ≤ le ≤ ls + max_out → make storage v ls le true hnvm = Ret m →
  bitmaps (window_bytes ls le) [] m ∧
  extra m = (if hnvm then 3 else 1) ∧ view m = v ∧ last_stable m = ls ∧ last_executed m = le ∧ id m = node_id ∧
  ls + max_out - le ≤ 8 * window_bytes ls le < ls + max_out - le + 8.
Proof.
  intros Hm Hle E. unfold make, window_bytes in *. rewrite Z.quot_div_nonneg in * by lia.
  pose proof (Z.div_mod (ls + max_out - le + 7) 8 ltac:(lia)). pose proof (Z.mod_pos_bound (ls + max_out - le + 7) 8 ltac:(lia)).
  set (w := (ls + max_out - le + 7) `div` 8) in *.
  assert (to_short w = w) as Hw.
  { unfold to_short. rewrite <- (Z.mod_small w (2 ^ 16)) at 1 by lia. apply wrapS_mod; lia. }
  rewrite Hw in E. cbv zeta in E. apply outcome_bind_Ret in E as (b1 & E1 & E). apply outcome_bind_Ret in E as (b2 & E2 & E).
  injection E as <-. split; [|split_and!; try done; try lia; by destruct hnvm].
  assert (∀ i, 0 ≤ i < 2 * w → zget b2 i = Some 0) as Hz.
  { intros i Hi. destruct (decide (i < w)).
    - unfold bzero in E2. destruct (0 <=? w); [|done]. rewrite (poke_before _ _ _ _ i E2) by lia.
      apply (bzero_at 0 w storage); [done|lia].
    - apply (bzero_at w w b1); [done|lia]. }
  assert (∀ j, 0 ≤ j < 16 * w → BM.cbit b2 j = false) as Hbit.
  { intros j Hj. apply cbit_zero, Hz. unfold BM.byte_bits. split; [apply Z.div_pos; lia|]. apply Z.div_lt_upper_bound; lia. }
  constructor; cbn; try done.
  - unfold has_nv_info. cbn. by destruct hnvm.
  - intros o Ho. rewrite Hbit by lia. symmetry. apply bool_decide_eq_false_2. apply not_elem_of_nil.
  - intros o Ho. rewrite Hbit by lia. symmetry. apply bool_decide_eq_false_2. apply not_elem_of_nil.
  - unfold bzero in E2. destruct (0 <=? w); [|done]. pose proof (poke_len _ _ _ _ E2).
    apply poke_inv in E2 as (_ & E2 & _). rewrite zlen_replicate in E2. lia.
Qed.

Lemma old_size_bitmaps w l m : bitmaps w l m → 0 ≤ w < 2 ^ 16 → old_size m = sizeof_Status_rep + 2 * w.
Proof.
  intros [Hi Hs Hb _ _ _] Hw. unfold old_size. rewrite Hi, Hs, Hb. unfold sizeof_Status_rep. rewrite to_int_small; lia.
Qed.

Lemma rep_bytes_len m : zlen (rep_bytes m) = sizeof_Status_rep.
Proof.
  unfold rep_bytes, Msg.header_bytes, zlen, sizeof_Status_rep. rewrite !length_app, !Msg.le_length. done.
Qed.

(** The first bytes of a message do not depend on what follows them. *)
Lemma take_contents w m b : sizeof_Status_rep + w ≤ zlen (contents m) → 0 ≤ w →
  (∀ i, i < w → zget b i = zget (body m) i) → zlen b = zlen (body m) →
  take (Z.to_nat (sizeof_Status_rep + w)) (contents (set_body m b)) = take (Z.to_nat (sizeof_Status_rep + w)) (contents m).
Proof.
  intros Hroom Hw Hz Hl. unfold contents. change (rep_bytes (set_body m b)) with (rep_bytes m).
  pose proof (rep_bytes_len m) as Hr. unfold zlen in Hr. pose proof (eq_refl : sizeof_Status_rep = 40).
  rewrite !take_app_ge by lia. f_equal. cbn [body set_body].
  apply list_eq. intros i. destruct (decide (Z.of_nat i < w)) as [D|D].
  - rewrite !lookup_take_lt by lia. specialize (Hz (Z.of_nat i) D). unfold zget in Hz.
    rewrite !decide_True in Hz by lia. by rewrite Nat2Z.id in Hz.
  - rewrite !lookup_take_ge by lia. done.
Qed.

(** The authenticator goes behind the bitmaps. *)
Lemma authenticate_bitmaps md k w l m m' :
  bitmaps w l m → 0 ≤ w < 2 ^ 16 → authenticate md k m = Ret m' →
  bitmaps w l m' ∧ size m' = Msg.ALIGNED_SIZE (sizeof_Status_rep + 2 * w + auth_size (-1)) ∧
  extra m' = extra m ∧ view m' = view m ∧ last_stable m' = last_stable m ∧ last_executed m' = last_executed m ∧ id m' = id m ∧
  ∃ a, gen_auth md (principals k) (take (Z.to_nat (old_size m')) (contents m')) false = Ret a ∧
    (∀ i, 0 ≤ i < zlen a → zget (body m') (2 * w + i) = zget a i) ∧ 2 * w + zlen a ≤ zlen (body m') ∧
    ∃ rest, drop (Z.to_nat (old_size m')) (contents m') = a ++ rest.
Proof.
  intros Hb Hw E. unfold authenticate in E. rewrite (old_size_bitmaps w l) in E by done. invert_outcome.
  match goal with G : gen_auth _ _ _ _ = Ret ?x |- _ => rename G into Ea; rename x into a end.
  match goal with G : poke _ _ _ = Ret ?x |- _ => rename G into Ep; rename x into b end.
  replace (sizeof_Status_rep + 2 * w - sizeof_Status_rep) with (2 * w) in Ep by lia.
  cbn [body set_size] in Ep.
  pose proof (poke_len _ _ _ _ Ep) as Hlen. pose proof (poke_inv _ _ _ _ Ep) as (_ & Hroom & _).
  pose proof (zlen_nonneg a).
  assert (∀ i, i < 2 * w → zget b i = zget (body m) i) as Hz by (intros i Hi; by eapply poke_before).
  assert (∀ j, j < 16 * w → BM.cbit b j = BM.cbit (body m) j) as Hbit.
  { intros j Hj. apply cbit_zget, Hz. unfold BM.byte_bits. apply Z.div_lt_upper_bound; lia. }
  match goal with |- bitmaps _ _ ?x ∧ _ => assert (bitmaps w l x) as Hb' end.
  { destruct Hb as [Hi Hs Hbr Hp Hc Hr]. constructor; cbn; try done.
    - intros o Ho. rewrite Hbit by lia. by apply Hp.
    - intros o Ho. rewrite Hbit by lia. by apply Hc.
    - by rewrite Hlen. }
  split; [done|]. do 6 (split; [done|]). exists a. split; [|split].
  - rewrite (old_size_bitmaps w l) by done. rewrite take_contents; [exact Ea| |lia|done|done].
    unfold contents. unfold zlen in *. rewrite length_app, Nat2Z.inj_add. cbn [body set_size].
    pose proof (rep_bytes_len (set_size m (Msg.ALIGNED_SIZE (sizeof_Status_rep + 2 * w + auth_size (-1))))) as Hr.
    unfold zlen in Hr. lia.
  - intros i Hi. cbn [body set_body]. rewrite (poke_at _ _ _ _ _ Ep) by lia. f_equal. lia.
  - split; [cbn [body set_body]; lia|]. rewrite (old_size_bitmaps w l) by done.
    pose proof (rep_bytes_len (set_body (set_size m (Msg.ALIGNED_SIZE (sizeof_Status_rep + 2 * w + auth_size (-1)))) b)) as Hr.
    unfold contents. unfold zlen in Hr. pose proof (eq_refl : sizeof_Status_rep = 40).
    rewrite drop_app_ge by lia. cbn [body set_body].
    apply poke_inv in Ep as (_ & _ & ->). eexists. unfold zlen in *.
    rewrite drop_app_ge by (rewrite length_take; lia). rewrite length_take.
    match goal with |- drop ?k _ = _ => replace k with 0%nat by lia end. rewrite drop_0. done.
Qed.
End status.

Lemma verify_auth_app `{Config} md cs ps i s a rest :
  verify_auth md cs ps i s true a = Ret true → verify_auth md cs ps i s true (a ++ rest) = Ret true.
Proof.
  unfold verify_auth. destruct (th_assert _); [|done]. cbn [mbind outcome_bind].
  destruct (i_to_p ps i) as [p|]; [|done]. case_decide; [done|].
  destruct (is_initialized (hmac_in p)) eqn:Ei; cbn [andb].
  - destruct (_ <? HMAC_size) eqn:E; [done|]. zprop. unfold zlen in *. rewrite length_take, length_drop in E.
    pose proof (eq_refl : HMAC_size = 32).
    rewrite drop_app_le by lia. rewrite take_app_le by (rewrite length_drop; lia).
    rewrite (proj2 (Z.ltb_ge _ _)) by (rewrite length_take, length_drop; lia). done.
  - unfold verify_mac_in, verify_mac. rewrite Ei. done.
Qed.

(** The authenticator is accepted at the other replica. *)
Lemma authenticator_of (md : list Z → list Z → list Z) (cs : bool) (c1 c2 : Config) (k1 k2 : keys) s a :
  (∀ k d, length (md k d) = Z.to_nat HMAC_size) → (∀ k d, bytes (md k d)) →
  linked c1 c2 (principals k1) (principals k2) → gen_auth (H := c1) md (principals k1) s false = Ret a →
  zlen a = @auth_size c1 (-1) ∧ @auth_size c2 (@node_id c1) = @auth_size c1 (-1) ∧ 0 < zlen a ∧
  verify_auth (H := c2) md cs (principals k2) (@node_id c1) s true a = Ret true.
Proof.
  intros Hlen Hb [Hok1 Hok2 Hg Hne Hr1 Hr2 Hl1 Hl2 (p1 & p2 & Hp1 & Hp2 & Hi & Hk)] Ea.
  destruct (verify_auth_gen md Hlen cs c1 c2 (principals k1) (principals k2) p1 p2 s s) as (a' & Ea' & Hsz & Hv); try done.
  assert (a' = a) as -> by congruence. rewrite equal_refl in Hv by apply Hb.
  pose proof (@config_id c1 Hok1). pose proof (@config_id c2 Hok2). destruct Hg as [Hf _].
  assert (@num_replicas c2 = @num_replicas c1) as Hn by (unfold num_replicas; by rewrite Hf).
  assert (@auth_size c1 (@node_id c1) = @auth_size c1 (-1)) as Hau.
  { unfold auth_size. change (-1 <? 0) with true. cbv iota. by rewrite (proj2 (Z.ltb_ge (@node_id c1) 0)) by lia. }
  split; [congruence|]. split; [|split; [|done]].
  - rewrite <- Hau. unfold auth_size. rewrite !(proj2 (Z.ltb_ge (@node_id c1) 0)) by lia. by rewrite Hn.
  - rewrite Hsz. unfold auth_size, HMAC_size. rewrite (proj2 (Z.ltb_ge (@node_id c1) 0)) by lia.
    rewrite (proj2 (Z.ltb_lt (@node_id c1) _)) by done. lia.
Qed.

(** The tests of the receiver on the bitmaps. *)
Lemma bitmaps_prepared `{Config} w l m n :
  max_out < 2 ^ 31 → bitmaps w l m → last_executed m < n ≤ last_executed m + Z.min max_out (8 * w) →
  is_prepared m n = Ret (bool_decide ((false, n) ∈ l)).
Proof.
  intros Hm [Hi Hs _ Hp _ Hr] Hn. unfold is_prepared, test. rewrite Hi. cbn [th_assert mbind outcome_bind].
  destruct (offset_of n m) as [-> ->]; [lia..|]. pose proof (eq_refl : BM.byte_bits = 8).
  rewrite BM.Bits_test_Ret.
  2:{ unfold BM.byte_bits in *. split; [apply Z.div_pos; lia|]. apply Z.div_lt_upper_bound; lia. }
  rewrite Hp by lia. by replace (last_executed m + (8 * 0 + (n - last_executed m))) with n by lia.
Qed.

Lemma bitmaps_committed `{Config} w l m n :
  max_out < 2 ^ 31 → bitmaps w l m → last_executed m < n ≤ last_executed m + max_out → n - last_executed m < 8 * w →
  is_committed m n = Ret (bool_decide ((true, n) ∈ l)).
Proof.
  intros Hm [Hi Hs _ _ Hc Hr] Hn Hlt. unfold is_committed, test. rewrite Hi, Hs. cbn [th_assert mbind outcome_bind].
  destruct (offset_of n m) as [-> ->]; [lia..|].
  rewrite BM.Bits_test_Ret.
  2:{ unfold BM.byte_bits in *. split; [apply Z.div_pos; lia|]. apply Z.div_lt_upper_bound; lia. }
  rewrite Hc by lia. by replace (last_executed m + (n - last_executed m)) with n by lia.
Qed.

Lemma bitmaps_last `{Config} w l m n x :
  max_out < 2 ^ 31 → bitmaps w l m → 0 < w → n = last_executed m + 8 * w → 8 * w ≤ max_out → zget (body m) (2 * w) = Some x →
  is_committed m n = Ret (Z.odd x).
Proof.
  intros Hm [Hi Hs _ _ _ Hr] Hw -> Hlt Hx. unfold is_committed, test. rewrite Hi, Hs. cbn [th_assert mbind outcome_bind].
  destruct (offset_of (last_executed m + 8 * w) m) as [-> ->]; [lia..|].
  replace (8 * w + (last_executed m + 8 * w - last_executed m)) with ((2 * w) * 8) by lia.
  apply zget_Some_lt in Hx as Hb. rewrite BM.Bits_test_Ret by (unfold BM.byte_bits; by rewrite Z.div_mul by lia).
  unfold BM.cbit, BM.byte_bits. rewrite Z.div_mul, Z.mod_mul, Hx by lia. done.
Qed.

Lemma verifies md cs (c1 c2 : Config) (k1 k2 : keys) w l m a rest :
  linked c1 c2 (principals k1) (principals k2) → @max_out c2 < 2 ^ 31 → bitmaps w l m → 0 ≤ w < 2 ^ 16 → id m = @node_id c1 → 0 ≤ view m →
  last_stable m ≤ last_executed m ≤ last_stable m + @max_out c2 →
  w = Z.quot (@max_out c2 - (last_executed m - last_stable m) + 7) 8 →
  zlen a = @auth_size c2 (@node_id c1) → sizeof_Status_rep + 2 * w + zlen a ≤ size m →
  drop (Z.to_nat (old_size (H := c2) m)) (contents m) = a ++ rest →
  verify_auth (H := c2) md cs (principals k2) (@node_id c1) (take (Z.to_nat (old_size (H := c2) m)) (contents m)) true a = Ret true →
  verify (H := c2) md cs k2 m = Ret true.
Proof.
  intros Hlink Hm Hb Hw Hid Hv Hle Hwin Hla Hsz Hrest Hver. unfold verify.
  pose proof (l_ne _ _ _ _ Hlink) as Hne. rewrite Hid, (sender_is_replica c1 c2 k1 k2 Hlink).
  rewrite (proj2 (Z.eqb_neq _ _)), (proj2 (Z.ltb_ge (view m) 0)) by done. cbn [negb orb].
  assert (old_size (H := c2) m = sizeof_Status_rep + 2 * w) as Ho by (by apply (old_size_bitmaps (H := c2) w l)).
  rewrite (proj2 (Z.ltb_ge _ _)) by lia. unfold verify_contents.
  assert (0 ≤ old_size (H := c2) m ≤ zlen (contents m)) as Hin.
  { rewrite Ho. pose proof (b_room _ _ _ Hb). unfold contents, zlen in *. rewrite length_app.
    pose proof (rep_bytes_len m) as Hr. unfold zlen in Hr. unfold sizeof_Status_rep in *. lia. }
  rewrite (proj2 (Z.leb_le 0 _)), (proj2 (Z.leb_le (old_size (H := c2) m) _)) by lia. cbn [andb].
  rewrite Hrest, Hid, (verify_auth_app (H := c2)) by exact Hver. cbn [mbind outcome_bind andb]. f_equal.
  unfold consistent. rewrite (b_info _ _ _ Hb), (b_sz _ _ _ Hb). rewrite to_int_small by lia.
  rewrite (proj2 (Z.ltb_ge _ 0)), (proj2 (Z.ltb_ge (@max_out c2) _)) by lia. cbn [orb negb]. apply Z.eqb_eq. exact Hwin.
Qed.

(** ** Property *)

(** A status of a replica with the information of its new view passes [verify] at
    every other replica that holds its session key, and there every batch of the window is
    prepared or committed exactly if the sender marked it so, with one exception.  The bits
    start at one although the bitmaps are sized as if they started at zero: when the number
    of open batches of the window is a multiple of eight, what the receiver takes for the
    committed mark of the last batch of the window is the lowest bit of the authenticator. *)
Theorem status_bitmaps_arrive (md : list Z → list Z → list Z) (cs : bool) (c1 c2 : Config) (k1 k2 : keys)
    (storage : list Z) (v ls le : Z) (hnvm : bool) (l : list (bool * Z)) (m0 m m' : Status) :
  (∀ k d, length (md k d) = Z.to_nat HMAC_size) → (∀ k d, bytes (md k d)) →
  linked c1 c2 (principals k1) (principals k2) → @max_out c2 = @max_out c1 → @max_out c1 ≤ 2 ^ 17 →
  0 ≤ v → ls ≤ le ≤ ls + @max_out c1 → (∀ c n, (c, n) ∈ l → le < n ≤ ls + @max_out c1) →
  make (H := c1) storage v ls le true hnvm = Ret m0 → marks (H := c1) l m0 = Ret m → authenticate (H := c1) md k1 m = Ret m' →
  verify (H := c2) md cs k2 m' = Ret true ∧
  ∀ n, le < n ≤ ls + @max_out c1 →
    is_prepared (H := c2) m' n = Ret (bool_decide ((false, n) ∈ l)) ∧
    (n < ls + @max_out c1 ∨ (n - le) `mod` 8 ≠ 0 → is_committed (H := c2) m' n = Ret (bool_decide ((true, n) ∈ l))) ∧
    (n = ls + @max_out c1 → (n - le) `mod` 8 = 0 →
       ∃ a x, gen_auth (H := c1) md (principals k1) (take (Z.to_nat (old_size (H := c1) m')) (contents m')) false = Ret a ∧
         head a = Some x ∧ is_committed (H := c2) m' n = Ret (Z.odd x)).
Proof.
  intros Hlen Hbytes Hlink Hmax Hm17 Hv Hle Hin E0 E1 E2.
  destruct (make_bitmaps (H := c1) storage v ls le hnvm m0) as (Hb0 & Hx0 & Hv0 & Hs0 & He0 & Hi0 & Hw); [done..|].
  set (w := window_bytes (H := c1) ls le) in *.
  destruct (marks_bitmaps (H := c1) w l [] m0 m) as (Hb1 & Hx1 & Hv1 & Hs1 & He1 & Hi1 & _); [lia|done| |done|].
  { intros c n Hc. rewrite He0. specialize (Hin c n Hc). lia. }
  assert (0 ≤ w < 2 ^ 16) as Hw16 by lia.
  destruct (authenticate_bitmaps (H := c1) md k1 w l m m') as (Hb2 & Hsz & Hx2 & Hv2 & Hs2 & He2 & Hi2 & a & Ea & Hza & Hroom & rest & Hrest);
    [done..|].
  destruct (authenticator_of md cs c1 c2 k1 k2 _ a Hlen Hbytes Hlink Ea) as (Hla & Hau & Hpos & Hver).
  assert (last_executed m' = le) as Hle' by congruence. assert (last_stable m' = ls) as Hls' by congruence.
  split; [|intros n Hn; split_and!].
  - assert (old_size (H := c2) m' = old_size (H := c1) m') as Ho.
    { by rewrite (old_size_bitmaps (H := c1) w l m'), (old_size_bitmaps (H := c2) w l m'). }
    apply (verifies md cs c1 c2 k1 k2 w l m' a rest); rewrite ?Ho, ?Hle', ?Hls'; try done; try congruence; try lia.
    + rewrite Hmax. unfold w, window_bytes. f_equal. lia.
    + rewrite Hsz, Hla. pose proof (room_for_auth c1 c2 k1 k2 Hlink (sizeof_Status_rep + 2 * w)).
      unfold sizeof_Status_rep in *. lia.
  - apply (bitmaps_prepared w); [lia|done|lia].
  - intros Hlast. apply (bitmaps_committed w); [lia|done|lia|]. rewrite Hle'.
    destruct Hlast as [?|Hmod]; [lia|]. pose proof (Z_div_mod_eq_full (n - le) 8).
    pose proof (Z.mod_pos_bound (n - le) 8 ltac:(lia)). lia.
  - intros -> Hmod. destruct a as [|x a']; [done|]. exists (x :: a'), x. split; [done|]. split; [done|].
    pose proof (Z_div_mod_eq_full (ls + @max_out c1 - le) 8).
    assert (8 * w = ls + @max_out c1 - le) as H8 by lia.
    apply (bitmaps_last w l); [lia|done|lia|lia|lia|].
    specialize (Hza 0). rewrite Z.add_0_r in Hza. rewrite Hza by lia. done.
Qed.

(** Replica 1 of four tells that batch 1 is committed and batch 2 prepared. *)
Definition sample_marks : list (bool * Z) := [(false, 1); (true, 1); (false, 2)].
Definition sample_storage : list Z := replicate (Z.to_nat (PP.Max_message_size - sizeof_Status_rep)) 7.
Definition got {A} (d : A) (o : outcome A) : A := match o with Ret a => a | Err _ => d end.
Definition no_status : Status := mkStatus 0 0 0 0 0 0 0 0 [].
Definition sample_blank : Status := got no_status (make (H := default_config 1 1) sample_storage 0 0 0 true true).
Definition sample_marked : Status := got no_status (marks (H := default_config 1 1) sample_marks sample_blank).
Definition sample_status : Status :=
  got no_status (authenticate (H := default_config 1 1) sample_md (sample_keys 0) sample_marked).

Lemma got_Ret {A} (d : A) o : (match o with Ret _ => true | Err _ => false end) = true → o = Ret (got d o).
Proof. by destruct o. Qed.

Lemma status_bitmaps_arrive_witness :
  let m := sample_status in
  verify (H := default_config 1 2) sample_md true (sample_keys 0) m = Ret true ∧
  is_prepared (H := default_config 1 2) m 2 = Ret true ∧ is_committed (H := default_config 1 2) m 2 = Ret false ∧
  ∃ a x, head a = Some x ∧ is_committed (H := default_config 1 2) m 256 = Ret (Z.odd x).
Proof.
  destruct (status_bitmaps_arrive sample_md true (default_config 1 1) (default_config 1 2) (sample_keys 0) (sample_keys 0)
    sample_storage 0 0 0 true sample_marks sample_blank sample_marked sample_status) as [Hv Hn].
  - reflexivity.
  - intros k d. apply Forall_replicate. apply Z.mod_pos_bound. lia.
  - exact sample_linked.
  - reflexivity.
  - cbn. lia.
  - lia.
  - cbn. lia.
  - intros c n Hn. cbn. unfold sample_marks in Hn. rewrite !elem_of_cons, elem_of_nil in Hn.
    destruct Hn as [[= _ ->]|[[= _ ->]|[[= _ ->]|[]]]]; lia.
  - apply got_Ret. vm_compute. reflexivity.
  - apply got_Ret. vm_compute. reflexivity.
  - apply got_Ret. vm_compute. reflexivity.
  - split; [exact Hv|]. destruct (Hn 2) as (Hp & Hc & _); [cbn; lia|]. destruct (Hn 256) as (_ & _ & Hl); [cbn; lia|].
    split; [exact Hp|]. split; [apply Hc; left; cbn; lia|].
    destruct Hl as (a & x & _ & Ha & Hx); [reflexivity|reflexivity|]. exists a, x. split; [exact Ha|exact Hx].
Defined.
End Stat.
