(* ===== verification/NewKey.v ===== *)
(** * NewKey: the exchange of session keys (src/src/New_key.{h,cc}, Node.h, Node.cc, Principal.cc)

    A New_key message carries a fresh key for every other replica, encrypted with the
    public key of that replica, and a signature of the sender.  The sender installs the
    keys as the in-keys of the others, and a receiver that accepts the message installs
    its own as the out-key for the sender.  The public-key operations are those of
    mbedtls and so parameters: encryption, decryption and signatures. *)
From S2P Require Import Prelude Node Certificate Messages PrePrepare Status.
Import Auth.

Module NK.
Import Stat.

(** The public-key operations: the length of the key of a principal and of its
    signatures, the verification of a signature, encryption for a principal, and with the
    private key of this node decryption ([None]: an error) and signing. *)
Class PublicKeys := {
  pk_size : Z → Z;
  sig_size : Z → Z;
  pk_verify : Z → list Z → list Z → bool;
  pk_encrypt : Z → list Z → list Z;
  priv_decrypt : list Z → option (list Z);
  priv_sign : list Z → list Z;
}.

Section new_key.
Context `{Config} `{PublicKeys}.

Record New_key := mkNewKey {
  extra : Z; size : Z; rid : Z; id : Z; padding : Z;
  body : list Z;      (* the bytes behind the fixed part *)
}.

Definition New_key_tag : Z := 11.
Definition sizeof_New_key_rep : Z := 24.
Definition Key_size : Z := 32.

Definition rep_bytes (m : New_key) : list Z :=
  Msg.header_bytes New_key_tag (extra m) (size m) ++ Msg.le 8 (rid m) ++ Msg.le 4 (id m) ++ Msg.le 4 (padding m).
Definition contents (m : New_key) : list Z := rep_bytes m ++ body m.

(** ** Sending *)

(** [Principal::encrypt]: the lengths of the text and of the ciphertext, and the latter. *)
Definition cipher (i : Z) (k : list Z) : list Z := Msg.le 4 Key_size ++ Msg.le 4 (pk_size i) ++ pk_encrypt i k.

Definition set_principal (ps : list Principal) (i : Z) (f : Principal → Principal) : outcome (list Principal) :=
  p ← of_option Undefined (zget ps i); Ret (zset ps i (f p)).

(** One pass of the loop of [refresh_keys] for replica [i] with the key [k]: the
    principals, the buffer, and the room that is left in it. *)
Definition add_key (acc : list Principal * list Z * Z) (i : Z) (k : list Z) : outcome (list Principal * list Z * Z) :=
  let '(ps, buf, dst_len) := acc in
  ps ← set_principal ps i (λ p, set_in_key p k);
  _ ← th_assert (pk_size i + 8 <=? dst_len);
  buf ← poke (PP.Max_message_size - sizeof_New_key_rep - dst_len) (cipher i k) buf;
  Ret (ps, buf, dst_len - (pk_size i + 8)).

(** The loop; [draws] numbers the random keys. *)
Fixpoint add_keys (rand : Z → list Z) (l : list Z) (draws : Z) (acc : list Principal * list Z * Z)
    : outcome (list Principal * list Z * Z * Z) :=
  match l with
  | [] => Ret (acc, draws)
  | i :: l =>
      if i =? node_id then add_keys rand l draws acc
      else acc ← add_key acc i (rand draws); add_keys rand l (draws + 1) acc
  end.

(** [Node::gen_signature]. *)
Definition signature (s : list Z) : list Z :=
  let sg := Msg.le 4 (pk_size node_id) ++ priv_sign s in
  sg ++ replicate (Z.to_nat (sig_size node_id - zlen sg)) 0.

(** [Node::new_tstamp] with the clock at [secs] seconds, and [Node::new_rid]: the new
    value of the counter, which is also the identifier. *)
Definition new_tstamp (secs : Z) : outcome Z :=
  _ ← th_assert (secs <=? INT_MAX); Ret (Z.shiftl secs 32).
Definition new_rid (secs cur_rid : Z) : outcome Z :=
  cur ← (if to_unsigned cur_rid =? 0xffffffff then new_tstamp secs else Ret cur_rid); Ret (cur + 1).

(** [refresh_keys], with the identifier [r] and the time [now]: the principals, the next
    random key and the message. *)
Definition refresh_keys (rand : Z → list Z) (storage : list Z) (ps : list Principal) (draws r now : Z)
    : outcome (list Principal * Z * New_key) :=
  ps ← set_principal ps node_id (λ p, set_out_key p (rand draws) r now);
  '(ps, buf, dst_len, draws) ← add_keys rand (seqZ 0 num_replicas) (draws + 1)
     (ps, storage, PP.Max_message_size - sizeof_New_key_rep);
  let old_size := Msg.ALIGNED_SIZE (PP.Max_message_size - dst_len) in
  _ ← th_assert (old_size <=? PP.Max_message_size);
  _ ← th_assert (sig_size node_id <=? dst_len);
  let full := Msg.ALIGNED_SIZE (old_size + sig_size node_id) in
  _ ← th_assert (full <=? PP.Max_message_size);
  let m := mkNewKey 0 full r node_id 0 buf in
  buf ← poke (old_size - sizeof_New_key_rep) (signature (take (Z.to_nat old_size) (contents m))) buf;
  Ret (ps, draws, mkNewKey 0 full r node_id 0 buf).

(** ** Receiving *)

(** [cipher_size] of the bytes at [off], of which [dst_len] are left. *)
Definition cipher_size (b : list Z) (off dst_len : Z) : outcome Z :=
  if to_unsigned dst_len <? 8 then Ret 0
  else
    csize ← peek (off + 4) 4 b;
    Ret (if csize <=? to_unsigned dst_len then to_int (csize + 8) else 0).

(** [Node::decrypt] of the bytes at [off] into a key; [None] when it returns another
    length than that of a key. *)
Definition decrypt (b : list Z) (off src_len : Z) : outcome (option (list Z)) :=
  if src_len <? 8 then Ret None
  else
    plaintext_len ← peek off 4 b;
    ciphertext_len ← peek (off + 4) 4 b;
    if (Key_size <? plaintext_len) || (src_len - 8 <? ciphertext_len) then Ret None
    else if zlen b <? off + 8 + ciphertext_len then Err Undefined
    else
      k ← of_option AssertFail (priv_decrypt (take (Z.to_nat ciphertext_len) (drop (Z.to_nat (off + 8)) b)));
      _ ← th_assert (plaintext_len =? zlen k);
      Ret (if plaintext_len =? Key_size then Some k else None).

(** The loop of [verify] from replica [i] on: the key for this node, or [None] when the
    code returns false. *)
Fixpoint find_key (b : list Z) (sender : Z) (l : list Z) (off dst_len : Z) (k : option (list Z))
    : outcome (option (option (list Z))) :=
  match l with
  | [] => Ret (Some k)
  | i :: l =>
      if i =? sender then find_key b sender l off dst_len k
      else
        csize ← cipher_size b off dst_len;
        if csize =? 0 then Ret None
        else if i =? node_id then
          o ← decrypt b off (to_unsigned dst_len);
          match o with
          | None => Ret None
          | Some k => find_key b sender l (off + csize) (to_u64 (dst_len - csize)) (Some k)
          end
        else find_key b sender l (off + csize) (to_u64 (dst_len - csize)) k
  end.

Definition verify (ps : list Principal) (m : New_key) (now : Z) : outcome (list Principal * bool) :=
  match i_to_p ps (id m) with
  | None => Ret (ps, false)
  | Some p =>
      if rid m <=? last_tstamp p then Ret (ps, false)
      else if to_unsigned (size m) <? sig_size (id m) then Ret (ps, false)
      else
        let msg_len := size m - sig_size (id m) in
        if (zlen (contents m) <? msg_len) || (msg_len <? 0) then Err Undefined
        else
          ok ← Req.verify_signature sig_size pk_verify (id m) (take (Z.to_nat msg_len) (contents m))
                 (drop (Z.to_nat msg_len) (contents m)) false;
          if negb ok then Ret (ps, false)
          else
            o ← find_key (body m) (id m) (seqZ 0 num_replicas) 0 (to_u64 (size m - sizeof_New_key_rep)) None;
            match o with
            | None => Ret (ps, false)
            | Some k =>
                k ← of_option Undefined k;
                ps ← set_principal ps (id m) (λ p, set_out_key p k (rid m) now);
                Ret (ps, true)
            end
  end.

(** ** The layout of a message *)

(** The keys that the loop draws for the replicas of [l]. *)
Fixpoint drawn (rand : Z → list Z) (l : list Z) (d : Z) : list (Z * list Z) :=
  match l with
  | [] => []
  | i :: l => if i =? node_id then drawn rand l d else (i, rand d) :: drawn rand l (d + 1)
  end.

Definition ciphers (l : list (Z * list Z)) : list Z := l ≫= λ x, cipher x.1 x.2.

Lemma set_principal_inv ps i f ps' : set_principal ps i f = Ret ps' →
  ∃ p, zget ps i = Some p ∧ zget ps' i = Some (f p) ∧ zlen ps' = zlen ps ∧ ∀ j, j ≠ i → zget ps' j = zget ps j.
Proof.
  unfold set_principal. intros E. invert_outcome. eexists. split; [done|].
  split; [eapply zget_zset_eq, zget_Some_lt; done|]. split; [apply zlen_zset|]. intros j Hj. by apply zget_zset_ne.
Qed.

Definition room : Z := PP.Max_message_size - sizeof_New_key_rep.

Lemma cipher_length i k : (∀ i k, zlen (pk_encrypt i k) = pk_size i) → zlen (cipher i k) = pk_size i + 8.
Proof.
  intros Hl. specialize (Hl i k). unfold cipher, zlen in *. rewrite !length_app, !Msg.le_length. lia.
Qed.

(** One key more: the buffer, and the principals. *)
Lemma add_key_inv ps buf dst i k ps' buf' dst' :
  (∀ i k, zlen (pk_encrypt i k) = pk_size i) → add_key (ps, buf, dst) i k = Ret (ps', buf', dst') →
  dst' = dst - zlen (cipher i k) ∧ 0 ≤ dst' ∧ zlen buf' = zlen buf ∧ 0 ≤ room - dst ∧ room - dst' ≤ zlen buf' ∧
  (∃ rest, buf' = take (Z.to_nat (room - dst)) buf ++ cipher i k ++ rest) ∧ zlen ps' = zlen ps ∧
  (∀ j, j ≠ i → zget ps' j = zget ps j) ∧
  ∃ p, zget ps' i = Some p ∧ hmac_in p = HmacModel.mkHmac true k [].
Proof.
  intros Hl E. unfold add_key in E. invert_outcome. zprop.
  match goal with G : poke _ _ _ = Ret _ |- _ => pose proof (poke_len _ _ _ _ G); apply poke_inv in G as (Hoff & Hroom & ->) end.
  match goal with G : set_principal _ _ _ = Ret _ |- _ => apply set_principal_inv in G as (p & Hp & Hp' & Hlen & Hother) end.
  fold room in *. rewrite cipher_length in * by done.
  split; [done|]. split; [lia|]. split; [done|]. split; [done|]. split; [lia|]. split; [by eexists|]. split; [done|].
  split; [done|]. by eexists.
Qed.

Lemma add_keys_spec rand l d ps buf dst ps' buf' dst' d' :
  (∀ i k, zlen (pk_encrypt i k) = pk_size i) → NoDup l → 0 ≤ room - dst ≤ zlen buf →
  add_keys rand l d (ps, buf, dst) = Ret (ps', buf', dst', d') →
  dst' = dst - zlen (ciphers (drawn rand l d)) ∧ zlen buf' = zlen buf ∧ room - dst' ≤ zlen buf' ∧
  (∃ rest, buf' = take (Z.to_nat (room - dst)) buf ++ ciphers (drawn rand l d) ++ rest) ∧ zlen ps' = zlen ps ∧
  (∀ i, i ∉ l → zget ps' i = zget ps i) ∧
  (∀ i k, (i, k) ∈ drawn rand l d → ∃ p, zget ps' i = Some p ∧ hmac_in p = HmacModel.mkHmac true k []).
Proof.
  intros Hl. revert d ps buf dst. induction l as [|i l IH]; intros d ps buf dst Hnd Hr E; cbn [add_keys drawn] in *.
  - injection E as <- <- <- <-. split; [unfold ciphers, zlen; cbn; lia|]. split; [done|]. split; [lia|].
    split; [exists (drop (Z.to_nat (room - dst)) buf); cbn; by rewrite take_drop|]. split; [done|]. split; [done|]. by intros i k ?%elem_of_nil.
  - apply NoDup_cons in Hnd as [Hi Hnd]. destruct (i =? node_id) eqn:Ei.
    + destruct (IH d ps buf dst) as (? & ? & ? & ? & ? & Hout & ?); [done..|].
      do 5 (split; [done|]). split; [|done]. intros j Hj. apply Hout. intros Hj'. apply Hj. by right.
    + apply outcome_bind_Ret in E as ([[ps1 buf1] dst1] & E1 & E).
      destruct (add_key_inv _ _ _ _ _ _ _ _ Hl E1) as (-> & Hd & Hb1 & _ & Hr1 & (rest1 & Hbuf1) & Hps1 & Hother & p & Hp & Hk).
      pose proof (zlen_nonneg (cipher i (rand d))).
      destruct (IH (d + 1) ps1 buf1 (dst - zlen (cipher i (rand d)))) as (-> & Hb2 & Hr2 & (rest & Hbuf2) & Hps2 & Hout & Hin);
        [done|lia|done|].
      assert (ciphers ((i, rand d) :: drawn rand l (d + 1)) = cipher i (rand d) ++ ciphers (drawn rand l (d + 1))) as Hc by done.
      split; [rewrite Hc; unfold zlen; rewrite length_app; lia|]. split; [congruence|]. split; [done|].
      split; [|split; [congruence|split]].
      * exists rest. rewrite Hc, Hbuf2, Hbuf1, <- !app_assoc. unfold zlen in *.
        rewrite take_app_ge by (rewrite length_take; lia). rewrite length_take, Nat.min_l by lia.
        rewrite <- app_assoc. f_equal. rewrite take_app_le by lia. rewrite take_ge by lia. done.
      * intros j [Hj Hj']%not_elem_of_cons. rewrite Hout by done. by apply Hother.
      * intros j k [[= -> ->]|Hjk]%elem_of_cons; [|by apply Hin].
        exists p. split; [|done]. rewrite Hout by done. done.
Qed.
End new_key.

(** Reading behind a prefix. *)
Lemma peek_app (pre l : list Z) o n : 0 ≤ o → peek (zlen pre + o) n (pre ++ l) = peek o n l.
Proof.
  intros Ho. unfold peek, zlen. rewrite length_app.
  destruct (decide (o + Z.of_nat n ≤ Z.of_nat (length l))) as [D|D].
  - rewrite !(proj2 (Z.leb_le _ _)) by lia. cbn [andb]. f_equal.
    rewrite <- (Req.rd_skip (length pre) (Z.to_nat o) n pre l eq_refl). f_equal. lia.
  - rewrite (proj2 (Z.leb_gt (zlen pre + o + Z.of_nat n) _)), (proj2 (Z.leb_gt (o + Z.of_nat n) _)) by (unfold zlen; lia).
    by rewrite !andb_false_r.
Qed.

Lemma peek_le n z (l : list Z) : peek 0 n (Msg.le n z ++ l) = Ret (z `mod` 2 ^ (8 * Z.of_nat n)).
Proof.
  unfold peek, zlen. rewrite length_app, Msg.le_length, (proj2 (Z.leb_le (0 + Z.of_nat n) _)) by lia. cbn [andb Z.leb].
  change (0 <=? 0) with true. cbn [andb]. f_equal. apply Req.rd_here.
Qed.

(** ** The loop of the receiver *)
Section receive.
Context (c1 c2 : Config) (K1 K2 : PublicKeys).
Context (Hne : @node_id c1 ≠ @node_id c2).
Context (Hpk : ∀ i, 0 ≤ @pk_size K1 i < 2 ^ 30) (Hsize : ∀ i k, zlen (@pk_encrypt K1 i k) = @pk_size K1 i).
Context (Hdec : ∀ k, zlen k = Key_size → @priv_decrypt K2 (@pk_encrypt K1 (@node_id c2) k) = Some k).

#[local] Abbreviation size1 := (@pk_size K1).
#[local] Abbreviation drawn1 := (drawn (H := c1)).
#[local] Abbreviation cipher1 := (cipher (H0 := K1)).
#[local] Abbreviation ciphers1 := (ciphers (H0 := K1)).

Lemma cipher_size_at pre i k rest dst_len : size1 i + 8 ≤ dst_len < 2 ^ 31 →
  cipher_size (pre ++ cipher1 i k ++ rest) (zlen pre) dst_len = Ret (size1 i + 8).
Proof.
  intros Hd. specialize (Hpk i). unfold cipher_size. unfold to_unsigned, wrapU. rewrite (Z.mod_small dst_len) by lia.
  rewrite (proj2 (Z.ltb_ge _ _)) by lia. rewrite peek_app by lia. unfold cipher. rewrite <- !app_assoc.
  change 4 with (zlen (Msg.le 4 Key_size) + 0) at 1. rewrite peek_app, peek_le by lia. cbn [mbind outcome_bind].
  rewrite Z.mod_small by (cbn; lia). rewrite (proj2 (Z.leb_le _ _)) by lia. by rewrite to_int_small by lia.
Qed.

Lemma decrypt_at pre k rest src_len : zlen k = Key_size → size1 (@node_id c2) + 8 ≤ src_len →
  decrypt (H0 := K2) (pre ++ cipher1 (@node_id c2) k ++ rest) (zlen pre) src_len = Ret (Some k).
Proof.
  intros Hk Hd. specialize (Hpk (@node_id c2)). specialize (Hsize (@node_id c2) k).
  unfold decrypt. rewrite (proj2 (Z.ltb_ge _ _)) by lia. rewrite <- (Z.add_0_r (zlen pre)) at 1.
  rewrite !peek_app by lia. unfold cipher. rewrite <- !app_assoc.
  rewrite peek_le. cbn [mbind outcome_bind]. change (Key_size `mod` 2 ^ (8 * Z.of_nat 4)) with Key_size.
  change 4 with (zlen (Msg.le 4 Key_size) + 0) at 1. rewrite peek_app, peek_le by lia. cbn [mbind outcome_bind].
  rewrite (Z.mod_small (size1 _)) by (cbn; lia). rewrite Z.ltb_irrefl, (proj2 (Z.ltb_ge (src_len - 8) _)) by lia. cbn [orb].
  assert (zlen (pre ++ Msg.le 4 Key_size ++ Msg.le 4 (size1 (@node_id c2)) ++ @pk_encrypt K1 (@node_id c2) k ++ rest) =
    zlen pre + 8 + size1 (@node_id c2) + zlen rest) as Hl.
  { unfold zlen in *. rewrite !length_app, !Msg.le_length. lia. }
  pose proof (zlen_nonneg rest). rewrite Hl, (proj2 (Z.ltb_ge _ _)) by lia.
  assert (take (Z.to_nat (size1 (@node_id c2))) (drop (Z.to_nat (zlen pre + 8))
    (pre ++ Msg.le 4 Key_size ++ Msg.le 4 (size1 (@node_id c2)) ++ @pk_encrypt K1 (@node_id c2) k ++ rest)) =
    @pk_encrypt K1 (@node_id c2) k) as ->.
  { unfold zlen in *. rewrite !app_assoc, <- (app_assoc _ _ rest). rewrite drop_app_length'.
    - rewrite take_app_le by lia. apply take_ge. lia.
    - rewrite !length_app, !Msg.le_length. lia. }
  rewrite Hdec by done. cbn [of_option mbind outcome_bind]. by rewrite Hk, Z.eqb_refl.
Qed.

#[local] Abbreviation find2 := (find_key (H := c2) (H0 := K2)).

Lemma drawn_other rand l d i k : (i, k) ∈ drawn1 rand l d → i ∈ l ∧ i ≠ @node_id c1.
Proof.
  revert d. induction l as [|j l IH]; intros d Hin; cbn [drawn] in Hin; [by apply elem_of_nil in Hin|].
  destruct (j =? @node_id c1) eqn:E; zprop.
  - destruct (IH _ Hin). split; [by right|done].
  - apply elem_of_cons in Hin as [[= -> ->]|Hin]; [split; [by left|done]|]. destruct (IH _ Hin). split; [by right|done].
Qed.

(** The loop goes from one ciphertext to the next and finds the one for this replica. *)
Lemma find_key_spec rand l d pre rest dst_len k0 :
  (∀ n, zlen (rand n) = Key_size) → NoDup l → zlen (ciphers1 (drawn1 rand l d)) ≤ dst_len < 2 ^ 31 →
  ∃ r, find2 (pre ++ ciphers1 (drawn1 rand l d) ++ rest) (@node_id c1) l (zlen pre) dst_len k0 = Ret (Some r) ∧
    (@node_id c2 ∉ l → r = k0) ∧ (∀ k, (@node_id c2, k) ∈ drawn1 rand l d → r = Some k) ∧
    (@node_id c2 ∈ l → ∃ k, (@node_id c2, k) ∈ drawn1 rand l d).
Proof.
  intros Hrand. revert d pre dst_len k0. induction l as [|i l IH]; intros d pre dst_len k0 Hnd Hd; cbn [find_key drawn] in *.
  - exists k0. split; [done|]. split; [done|]. split; [by intros k ?%elem_of_nil|by intros ?%elem_of_nil].
  - apply NoDup_cons in Hnd as [Hi Hnd]. destruct (i =? @node_id c1) eqn:Ei; zprop.
    { destruct (IH d pre dst_len k0 Hnd Hd) as (r & Hr & Hout & Hk & Hin). exists r. split; [done|].
      split; [intros Hn; apply Hout; intros ?; apply Hn; by right|]. split; [done|].
      intros [?|?]%elem_of_cons; [congruence|auto]. }
    change (ciphers1 ((i, rand d) :: drawn1 rand l (d + 1))) with (cipher1 i (rand d) ++ ciphers1 (drawn1 rand l (d + 1))) in *.
    pose proof (Hpk i) as Hpi. pose proof (zlen_nonneg (ciphers1 (drawn1 rand l (d + 1)))).
    assert (zlen (cipher1 i (rand d) ++ ciphers1 (drawn1 rand l (d + 1))) =
      size1 i + 8 + zlen (ciphers1 (drawn1 rand l (d + 1)))) as Hl.
    { rewrite <- (cipher_length i (rand d)) by done. unfold zlen. rewrite length_app. lia. }
    rewrite Hl in Hd. rewrite <- app_assoc, cipher_size_at by lia. cbn [mbind outcome_bind].
    rewrite (proj2 (Z.eqb_neq (size1 i + 8) 0)) by lia.
    assert (to_u64 (dst_len - (size1 i + 8)) = dst_len - (size1 i + 8)) as Hu.
    { unfold to_u64, wrapU. apply Z.mod_small. lia. }
    assert (zlen pre + (size1 i + 8) = zlen (pre ++ cipher1 i (rand d))) as Hpre.
    { rewrite <- (cipher_length i (rand d)) by done. unfold zlen. rewrite length_app. lia. }
    assert (to_unsigned dst_len = dst_len) as Hun by (unfold to_unsigned, wrapU; apply Z.mod_small; lia).
    destruct (i =? @node_id c2) eqn:E2; zprop.
    + subst i. rewrite Hun, decrypt_at by (done || lia). cbn [mbind outcome_bind]. rewrite Hu, Hpre, app_assoc.
      destruct (IH (d + 1) (pre ++ cipher1 (@node_id c2) (rand d)) (dst_len - (size1 (@node_id c2) + 8)) (Some (rand d)))
        as (r & Hr & Hout & _ & _); [done|lia|].
      exists r. split; [done|]. rewrite (Hout Hi). split; [intros Hn; destruct Hn; by left|].
      split; [|intros _; exists (rand d); by left].
      intros k [[= ->]|[? _]%drawn_other]%elem_of_cons; done.
    + rewrite Hu, Hpre, app_assoc.
      destruct (IH (d + 1) (pre ++ cipher1 i (rand d)) (dst_len - (size1 i + 8)) k0) as (r & Hr & Hout & Hk & Hin); [done|lia|].
      exists r. split; [done|]. split; [intros Hn; apply Hout; intros ?; apply Hn; by right|].
      split; [intros k [[= ? ?]|?]%elem_of_cons; [congruence|by apply Hk]|].
      intros [?|(k & ?)%Hin]%elem_of_cons; [congruence|]. exists k. by right.
Qed.
End receive.

(** ** Property *)

(** The operations of the sender and of the receiver belong together: lengths as in
    PKCS#1, signatures that verify, and a private key that decrypts. *)
Record matching (c1 c2 : Config) (K1 K2 : PublicKeys) : Prop := {
  k_pk : ∀ i, 0 ≤ @pk_size K1 i < 2 ^ 30;
  k_sig : @sig_size K1 (@node_id c1) = Msg.ALIGNED_SIZE (@pk_size K1 (@node_id c1) + 4);
  k_sig2 : @sig_size K2 (@node_id c1) = @sig_size K1 (@node_id c1);
  k_cipher : ∀ i k, zlen (@pk_encrypt K1 i k) = @pk_size K1 i;
  k_dec : ∀ k, zlen k = Key_size → @priv_decrypt K2 (@pk_encrypt K1 (@node_id c2) k) = Some k;
  k_sign : ∀ s, zlen (@priv_sign K1 s) = @pk_size K1 (@node_id c1);
  k_verify : ∀ s, @pk_verify K2 (@node_id c1) s (@priv_sign K1 s) = true;
}.

Lemma rep_bytes_length m : zlen (rep_bytes m) = sizeof_New_key_rep.
Proof. unfold rep_bytes, Msg.header_bytes, zlen. rewrite !length_app, !Msg.le_length. done. Qed.

Lemma signature_length `{Config} `{PublicKeys} s : 0 ≤ pk_size node_id < 2 ^ 30 → zlen (priv_sign s) = pk_size node_id →
  sig_size node_id = Msg.ALIGNED_SIZE (pk_size node_id + 4) → zlen (signature s) = sig_size node_id.
Proof.
  intros Hpk Hl Hs. destruct (Msg.aligned_size_spec (pk_size node_id + 4)) as [Ha _]; [lia|]. rewrite <- Hs in Ha.
  unfold signature, zlen in *. rewrite !length_app, length_replicate, Msg.le_length. lia.
Qed.

(** What [refresh_keys] leaves behind: the keys of the principals and the message. *)
Lemma refresh_keys_inv `{Config} `{PublicKeys} rand storage ps d r now ps' d' m :
  (∀ i, 0 ≤ pk_size i < 2 ^ 30) → (∀ i k, zlen (pk_encrypt i k) = pk_size i) → (∀ s, zlen (priv_sign s) = pk_size node_id) →
  sig_size node_id = Msg.ALIGNED_SIZE (pk_size node_id + 4) →
  zlen storage = room → refresh_keys rand storage ps d r now = Ret (ps', d', m) →
  let l := drawn rand (seqZ 0 num_replicas) (d + 1) in
  rid m = r ∧ id m = node_id ∧
  (∀ i k, (i, k) ∈ l → ∃ p, zget ps' i = Some p ∧ hmac_in p = HmacModel.mkHmac true k []) ∧
  ∃ s rest tail, contents m = s ++ signature s ++ tail ∧ body m = ciphers l ++ rest ∧
    sizeof_New_key_rep + zlen (ciphers l) ≤ zlen s ∧ size m = zlen s + sig_size node_id ∧ size m ≤ PP.Max_message_size.
Proof.
  intros Hpk Hct Hsl Hsig Hst E l. unfold refresh_keys in E.
  apply outcome_bind_Ret in E as (ps0 & E0 & E). apply outcome_bind_Ret in E as ([[[ps1 buf] dst] d1] & E1 & E).
  destruct (add_keys_spec rand (seqZ 0 num_replicas) (d + 1) ps0 storage room ps1 buf dst d1)
    as (Hdst & Hlb & Hroom & (rest & Hbuf) & _ & _ & Hin); [done|apply NoDup_seqZ|rewrite Hst; unfold room, PP.Max_message_size, sizeof_New_key_rep; lia|exact E1|].
  rewrite Z.sub_diag in Hbuf. change (take (Z.to_nat 0) storage) with (@nil Z) in Hbuf. cbn [app] in Hbuf. fold l in Hdst, Hbuf, Hin.
  invert_outcome. zprop.
  match goal with G : poke _ _ _ = Ret ?x |- _ => rename G into Ep; rename x into buf' end.
  pose proof (zlen_nonneg (ciphers l)). pose proof (eq_refl : PP.Max_message_size = 9000).
  pose proof (eq_refl : room = 8976). pose proof (eq_refl : sizeof_New_key_rep = 24). specialize (Hpk node_id).
  assert (0 ≤ sig_size node_id ∧ sig_size node_id `mod` 8 = 0) as [Hs0 Hs8].
  { rewrite Hsig. destruct (Msg.aligned_size_spec (pk_size node_id + 4)); lia. }
  destruct (Msg.aligned_size_spec (PP.Max_message_size - (room - zlen (ciphers l)))) as [Ho Ho8]; [lia|].
  set (old := Msg.ALIGNED_SIZE (PP.Max_message_size - (room - zlen (ciphers l)))) in *.
  assert (Msg.ALIGNED_SIZE (old + sig_size node_id) = old + sig_size node_id) as Hfull.
  { destruct (Msg.aligned_size_spec (old + sig_size node_id)) as [Hf Hf8]; [lia|].
    pose proof (Z_div_mod_eq_full old 8). pose proof (Z_div_mod_eq_full (sig_size node_id) 8).
    pose proof (Z_div_mod_eq_full (Msg.ALIGNED_SIZE (old + sig_size node_id)) 8). lia. }
  split; [done|]. split; [done|]. split; [exact Hin|]. cbn [size body]. rewrite Hfull in *.
  apply poke_inv in Ep as (Hp0 & Hp1 & Hp). rewrite signature_length in Hp1 by done.
  set (m0 := mkNewKey 0 (old + sig_size node_id) r node_id 0 (ciphers l ++ rest)) in *.
  assert (take (Z.to_nat old) (contents m0) = rep_bytes m0 ++ take (Z.to_nat (old - 24)) (ciphers l ++ rest)) as Hs.
  { unfold contents. pose proof (rep_bytes_length m0) as Hr. unfold zlen in Hr.
    rewrite take_app_ge by lia. f_equal. cbn [body m0]. f_equal. lia. }
  rewrite Hs in Hp. set (s := rep_bytes m0 ++ take (Z.to_nat (old - 24)) (ciphers l ++ rest)) in *.
  assert (zlen s = old) as Hlen.
  { unfold s. pose proof (rep_bytes_length m0). unfold zlen in *. rewrite length_app, length_take. lia. }
  assert (take (Z.to_nat (old - 24)) (ciphers l ++ rest) = ciphers l ++ take (Z.to_nat (old - 24) - length (ciphers l)) rest) as Hpre.
  { unfold zlen in *. by rewrite take_app_ge by lia. }
  eexists s, _, _. split; [|split; [|split_and!]].
  - unfold contents. cbn [body]. rewrite Hp, app_assoc. reflexivity.
  - rewrite Hp. change (old - sizeof_New_key_rep) with (old - 24). rewrite Hpre, <- app_assoc. reflexivity.
  - rewrite Hlen. lia.
  - by rewrite Hlen.
  - lia.
Qed.

Lemma add_keys_length `{Config} `{PublicKeys} rand l d ps buf dst ps' buf' dst' d' :
  add_keys rand l d (ps, buf, dst) = Ret (ps', buf', dst', d') → zlen ps' = zlen ps.
Proof.
  revert d ps buf dst. induction l as [|i l IH]; intros d ps buf dst E; cbn [add_keys] in E; [by injection E as <-|].
  destruct (i =? node_id); [by eapply IH|]. apply outcome_bind_Ret in E as ([[ps1 buf1] dst1] & E1 & E).
  apply IH in E. unfold add_key in E1. apply outcome_bind_Ret in E1 as (ps2 & E2 & E1).
  apply set_principal_inv in E2 as (_ & _ & _ & E2 & _). invert_outcome. congruence.
Qed.

(** The signature of the sender verifies. *)
Lemma signature_verifies c1 c2 K1 K2 s tail b :
  matching c1 c2 K1 K2 → @node_id c1 ≠ @node_id c2 →
  Req.verify_signature (H := c2) (@sig_size K2) (@pk_verify K2) (@node_id c1) s
    (signature (H := c1) (H0 := K1) s ++ tail) b = Ret true.
Proof.
  intros Hm Hne. pose proof (k_pk _ _ _ _ Hm (@node_id c1)) as Hpk. pose proof (k_sign _ _ _ _ Hm s) as Hl.
  pose proof (signature_length (H := c1) (H0 := K1) s Hpk Hl (k_sig _ _ _ _ Hm)) as Hs.
  destruct (Msg.aligned_size_spec (@pk_size K1 (@node_id c1) + 4)) as [Ha _]; [lia|]. rewrite <- (k_sig _ _ _ _ Hm) in Ha.
  unfold Req.verify_signature. rewrite (proj2 (Z.eqb_neq _ _)) by done. cbn [andb].
  assert (zlen (signature (H := c1) (H0 := K1) s ++ tail) = @sig_size K1 (@node_id c1) + zlen tail) as Hz.
  { rewrite <- Hs. unfold zlen. rewrite length_app. lia. }
  pose proof (zlen_nonneg tail). rewrite Hz, (proj2 (Z.ltb_ge _ 4)) by lia.
  unfold signature. rewrite <- !app_assoc, Req.rd_here, Z.mod_small by (cbn; lia).
  rewrite (k_sig2 _ _ _ _ Hm), (proj2 (Z.ltb_ge (@sig_size K1 _) _)), (proj2 (Z.ltb_ge _ (4 + _))) by lia.
  rewrite drop_app_length' by (by rewrite Msg.le_length). unfold zlen in Hl.
  rewrite take_app_length' by lia. by rewrite (k_verify _ _ _ _ Hm).
Qed.

(** C40: The exchange of session keys.  When [refresh_keys] of one node made a New_key
    message, every replica that has no newer one accepts it, as the private key belongs to
    the public one: the code that the receiver then puts in messages for the sender uses
    the key with which the sender checks them (the link that [auth_round_trip] needs), no
    other principal changes, and the same message is not accepted again. *)
Theorem new_key_links c1 c2 K1 K2 rand storage ps1 ps2 p d r now1 now2 ps1' d' m :
  matching c1 c2 K1 K2 → same_group c1 c2 → @node_id c1 ≠ @node_id c2 →
  0 ≤ @node_id c1 < @num_principals c1 → 0 ≤ @node_id c2 < @num_replicas c2 →
  (∀ n, zlen (rand n) = Key_size) → zlen storage = PP.Max_message_size - sizeof_New_key_rep →
  zget ps2 (@node_id c1) = Some p → last_tstamp p < r →
  refresh_keys (H := c1) (H0 := K1) rand storage ps1 d r now1 = Ret (ps1', d', m) →
  ∃ ps2' q1 q2, verify (H := c2) (H0 := K2) ps2 m now2 = Ret (ps2', true) ∧
    zget ps1' (@node_id c2) = Some q1 ∧ zget ps2' (@node_id c1) = Some q2 ∧
    HmacModel.initialized_ (hmac_in q1) = true ∧ HmacModel.key (hmac_in q1) = HmacModel.key (hmac_out q2) ∧
    last_tstamp q2 = r ∧ my_tstamp q2 = now2 ∧ zlen ps2' = zlen ps2 ∧
    (∀ j, j ≠ @node_id c1 → zget ps2' j = zget ps2 j) ∧
    ∀ now3, verify (H := c2) (H0 := K2) ps2' m now3 = Ret (ps2', false).
Proof.
  intros Hm [Hf Hnp] Hne Hid1 Hid2 Hrand Hst Hp Hnew E.
  pose proof (k_sig _ _ _ _ Hm) as Hsig.
  destruct (refresh_keys_inv (H := c1) (H0 := K1) _ _ _ _ _ _ _ _ _ (k_pk _ _ _ _ Hm) (k_cipher _ _ _ _ Hm) (k_sign _ _ _ _ Hm)
    Hsig Hst E) as (Hr & Hi & Hin & s & rest & tail & Hc & Hb & Hs & Hsize & Hmax).
  assert (@num_replicas c1 = @num_replicas c2) as Hn by (unfold num_replicas; lia). rewrite Hn in *.
  set (l := drawn (H := c1) rand (seqZ 0 (@num_replicas c2)) (d + 1)) in *.
  pose proof (eq_refl : sizeof_New_key_rep = 24). pose proof (eq_refl : PP.Max_message_size = 9000).
  pose proof (k_pk _ _ _ _ Hm (@node_id c1)) as Hpk1.
  destruct (Msg.aligned_size_spec (@pk_size K1 (@node_id c1) + 4)) as [Ha _]; [lia|]. rewrite <- Hsig in Ha.
  pose proof (zlen_nonneg (ciphers (H0 := K1) l)).
  assert (to_unsigned (size m) = size m) as Hu by (unfold to_unsigned, wrapU; apply Z.mod_small; lia).
  assert (to_u64 (size m - sizeof_New_key_rep) = size m - sizeof_New_key_rep) as Hu64
    by (unfold to_u64, wrapU; apply Z.mod_small; lia).
  destruct (find_key_spec c1 c2 K1 K2 Hne (k_pk _ _ _ _ Hm) (k_cipher _ _ _ _ Hm) (k_dec _ _ _ _ Hm) rand
    (seqZ 0 (@num_replicas c2)) (d + 1) [] rest (size m - sizeof_New_key_rep) None Hrand (NoDup_seqZ _ _))
    as (o & Ho & _ & Hok & Hdrawn); [fold l; lia|].
  fold l in Ho, Hok, Hdrawn. destruct Hdrawn as [k Hk]; [apply elem_of_seqZ; lia|]. rewrite (Hok k Hk) in Ho.
  destruct (Hin _ _ Hk) as (q1 & Hq1 & Hh). pose proof (zget_Some_lt _ _ _ Hp).
  assert (i_to_p (H := c2) ps2 (id m) = Some p) as Hget.
  { unfold i_to_p. rewrite Hi, (proj2 (Z.ltb_ge _ _)), (proj2 (Z.leb_gt _ _)) by lia. done. }
  exists (zset ps2 (@node_id c1) (set_out_key p k r now2)), q1, (set_out_key p k r now2).
  assert (zget (zset ps2 (@node_id c1) (set_out_key p k r now2)) (@node_id c1) = Some (set_out_key p k r now2)) as Hnewp
    by (by apply zget_zset_eq).
  assert (set_out_key p k r now2 = mkPrincipal (pid p) r now2 (last_fetch p) (hmac_in p) (HmacModel.replace_key (hmac_out p) k)) as Hout.
  { unfold set_out_key. rewrite decide_True by (unfold last_tstamp in Hnew; lia). done. }
  split_and!; [|done|done|by rewrite Hh|by rewrite Hh, Hout|by rewrite Hout|by rewrite Hout|by rewrite zlen_zset|
    intros j Hj; by apply zget_zset_ne|].
  - unfold verify. rewrite Hget, Hr, Hi, (proj2 (Z.leb_gt r _)) by done. rewrite (k_sig2 _ _ _ _ Hm), Hu, (proj2 (Z.ltb_ge (size m) _)) by
      (pose proof (zlen_nonneg s); lia).
    replace (size m - @sig_size K1 (@node_id c1)) with (zlen s) by lia.
    rewrite (proj2 (Z.ltb_ge (zlen s) 0)), (proj2 (Z.ltb_ge (zlen (contents m)) _)) by
      (rewrite ?Hc; unfold zlen; rewrite ?length_app; lia). cbn [orb].
    rewrite Hc. rewrite take_app_length', drop_app_length' by (unfold zlen; lia).
    rewrite signature_verifies by done. cbn [mbind outcome_bind negb].
    rewrite Hu64, Hb. change 0 with (zlen (@nil Z)) at 2. rewrite <- (app_nil_l (ciphers _ ++ _)), Ho.
    cbn [mbind outcome_bind of_option]. unfold set_principal. rewrite Hp. done.
  - intros now3. unfold verify, i_to_p. rewrite Hi, Hr, (proj2 (Z.ltb_ge _ _)), (proj2 (Z.leb_gt (@num_principals c2) _)) by lia.
    cbn [orb]. rewrite Hnewp, Hout. cbn [last_tstamp tstamp]. by rewrite (proj2 (Z.leb_le r r)) by lia.
Qed.

(** Public-key operations to evaluate the functions with. *)
Definition sample_sign (s : list Z) : list Z := replicate 36 (foldr Z.add 0 s `mod` 256).
Definition sample_public : PublicKeys := {|
  pk_size _ := 36;
  sig_size _ := 40;
  pk_verify _ s sg := bool_decide (sg = sample_sign s);
  pk_encrypt i k := i :: take 35 (k ++ replicate 35 0);
  priv_decrypt c := Some (take 32 (drop 1 c));
  priv_sign := sample_sign;
|}.
Definition sample_rand (n : Z) : list Z := replicate 32 n.
Definition sample_room : list Z := replicate (Z.to_nat (PP.Max_message_size - sizeof_New_key_rep)) 0.

Lemma sample_matching c1 c2 : matching c1 c2 sample_public sample_public.
Proof.
  split; try done.
  - intros i k. unfold zlen. cbn -[take replicate]. rewrite length_take, length_app, length_replicate. lia.
  - intros k Hk. cbn -[take replicate]. f_equal. rewrite drop_0, take_take. unfold zlen, Key_size in Hk. change (32 `min` 35)%nat with 32%nat. by rewrite take_app_length' by lia.
  - intros s. by apply bool_decide_eq_true.
Qed.

Definition sample_refresh : list Principal * Z * New_key :=
  got (sample_principals, 0, mkNewKey 0 0 0 0 0 [])
    (refresh_keys (H := default_config 1 0) (H0 := sample_public) sample_rand sample_room sample_principals 1 5 9).

Lemma new_key_links_witness :
  ∃ ps2' q1 q2, verify (H := default_config 1 2) (H0 := sample_public) sample_principals sample_refresh.2 7 = Ret (ps2', true) ∧
    zget sample_refresh.1.1 2 = Some q1 ∧ zget ps2' 0 = Some q2 ∧
    HmacModel.key (hmac_in q1) = HmacModel.key (hmac_out q2) ∧ last_tstamp q2 = 5.
Proof.
  assert (∃ p, zget sample_principals (@node_id (default_config 1 0)) = Some p ∧ last_tstamp p < 5) as (p & Hp & Hlt).
  { eexists. split; [reflexivity|]. reflexivity. }
  destruct (new_key_links (default_config 1 0) (default_config 1 2) sample_public sample_public sample_rand sample_room
    sample_principals sample_principals p 1 5 9 7 sample_refresh.1.1 sample_refresh.1.2 sample_refresh.2)
    as (ps2' & q1 & q2 & Hv & Hq1 & Hq2 & _ & Hk & Ht & _).
  - exact (sample_matching (default_config 1 0) (default_config 1 2)).
  - split; reflexivity.
  - discriminate.
  - vm_compute. intuition congruence.
  - vm_compute. intuition congruence.
  - intros n. reflexivity.
  - reflexivity.
  - exact Hp.
  - exact Hlt.
  - rewrite <- !surjective_pairing. apply got_Ret. vm_compute. reflexivity.
  - exists ps2', q1, q2. split; [exact Hv|]. split; [exact Hq1|]. split; [exact Hq2|]. split; [exact Hk|exact Ht].
Defined.
End NK.
