(* ===== verification/StateMonad.v ===== *)
(** * StateMonad: computations that change a state and may stop

    The methods of a C++ object as computations [ST S A]: they read and change the
    fields of the object ([S]) and stop with a [failure].  [keeps R m] says that [m]
    relates the states before and after a successful run by [R]; for a preorder [R] it
    is closed under the constructs of the monad, which is what the database [keeps]
    uses to decompose a method. *)
From S2P Require Import Prelude.

Definition ST (S A : Type) : Type := S → outcome (A * S).

#[global] Instance ST_ret {S} : MRet (ST S) := λ A a s, Ret (a, s).
#[global] Instance ST_bind {S} : MBind (ST S) := λ A B f m s,
  match m s with Ret (a, s') => f a s' | Err e => Err e end.

Section operations.
Context {S : Type}.

Definition get : ST S S := λ s, Ret (s, s).
Definition gets {A} (f : S → A) : ST S A := λ s, Ret (f s, s).
Definition modify (f : S → S) : ST S unit := λ s, Ret (tt, f s).
Definition fail {A} (e : failure) : ST S A := λ _, Err e.

(** A computation that does not touch the state. *)
Definition lift {A} (m : outcome A) : ST S A := λ s,
  match m with Ret a => Ret (a, s) | Err e => Err e end.

Definition skip : ST S unit := mret tt.
Definition when (b : bool) (m : ST S unit) : ST S unit := if b then m else skip.
Definition assert_ (b : bool) : ST S unit := lift (th_assert b).

(** [for (x : l) body] *)
Fixpoint for_each {A} (l : list A) (body : A → ST S unit) : ST S unit :=
  match l with
  | [] => skip
  | x :: l => _ ← body x; for_each l body
  end.

(** The same with a variable that the body updates. *)
Fixpoint fold_each {A B} (l : list A) (acc : B) (body : B → A → ST S B) : ST S B :=
  match l with
  | [] => mret acc
  | x :: l => acc ← body acc x; fold_each l acc body
  end.

(** A loop whose body may return from the method around it: the result is then [None]. *)
Fixpoint loop {A B} (l : list A) (acc : B) (body : B → A → ST S (option B)) : ST S (option B) :=
  match l with
  | [] => mret (Some acc)
  | x :: l => o ← body acc x; match o with Some acc => loop l acc body | None => mret None end
  end.

(** *** Inversion of successful runs *)
Lemma bind_inv {A B} (m : ST S A) (f : A → ST S B) s b s' :
  (m ≫= f) s = Ret (b, s') → ∃ a s1, m s = Ret (a, s1) ∧ f a s1 = Ret (b, s').
Proof. unfold mbind, ST_bind. destruct (m s) as [[a s1]|e]; [eauto|done]. Qed.

Lemma bind_step {A B} (m : ST S A) (f : A → ST S B) s a s1 :
  m s = Ret (a, s1) → (m ≫= f) s = f a s1.
Proof. unfold mbind, ST_bind. by intros ->. Qed.

Lemma get_step {A} (f : S → ST S A) s : (get ≫= f) s = f s s.
Proof. done. Qed.

Lemma lift_run {A} (m : outcome A) a (s : S) : m = Ret a → lift m s = Ret (a, s).
Proof. by intros ->. Qed.

Lemma bind_fails {A B} (m : ST S A) (f : A → ST S B) s e : m s = Err e → (m ≫= f) s = Err e.
Proof. unfold mbind, ST_bind. by intros ->. Qed.

Lemma lift_inv {A} (m : outcome A) (s : S) a s' : lift m s = Ret (a, s') → m = Ret a ∧ s' = s.
Proof. unfold lift. destruct m; [|done]. intros E. by injection E as -> ->. Qed.

(** A loop over [0, ..., n - 1] that always succeeds. *)
Lemma for_each_seqZ (P : Z → S → Prop) (body : Z → ST S unit) n s : 0 ≤ n → P 0 s →
  (∀ k s, 0 ≤ k < n → P k s → ∃ s', body k s = Ret (tt, s') ∧ P (k + 1) s') →
  ∃ s', for_each (seqZ 0 n) body s = Ret (tt, s') ∧ P n s'.
Proof.
  intros Hn HP Hb.
  assert (∀ (m : nat) k s, k + Z.of_nat m = n → 0 ≤ k → P k s →
    ∃ s', for_each (seqZ k (Z.of_nat m)) body s = Ret (tt, s') ∧ P n s') as G.
  { clear s HP. induction m as [|m IH]; intros k s Hk Hk0 HP.
    - replace n with k by lia. by exists s.
    - rewrite seqZ_cons by lia. cbn [for_each]. destruct (Hb k s) as (s1 & E1 & HP1); [lia|done|].
      rewrite (bind_step _ _ _ _ _ E1). replace (Z.pred (Z.of_nat (Datatypes.S m))) with (Z.of_nat m) by lia.
      rewrite <- Z.add_1_r. apply IH; [lia|lia|done]. }
  specialize (G (Z.to_nat n) 0 s). rewrite Z2Nat.id in G by lia. apply G; [lia|lia|done].
Qed.

(** ** Relations kept by a computation *)
Definition keeps {A} (R : S → S → Prop) (m : ST S A) : Prop := ∀ s a s', m s = Ret (a, s') → R s s'.

(** A computation that only reads. *)
Definition reads {A} (m : ST S A) : Prop := ∀ s a s', m s = Ret (a, s') → s' = s.

Section keeps.
Context (R : S → S → Prop) `{!Reflexive R} `{!Transitive R}.

Lemma keeps_reads {A} (m : ST S A) : reads m → keeps R m.
Proof. intros Hm s a s' ->%Hm. reflexivity. Qed.

Lemma keeps_ret {A} (a : A) : keeps R (mret a).
Proof. intros s b s' E. injection E as _ <-. reflexivity. Qed.

Lemma keeps_get : keeps R get.
Proof. intros s b s' E. injection E as _ <-. reflexivity. Qed.

Lemma keeps_gets {A} (f : S → A) : keeps R (gets f).
Proof. intros s b s' E. injection E as _ <-. reflexivity. Qed.

Lemma keeps_lift {A} (m : outcome A) : keeps R (lift m).
Proof. intros s b s' [_ ->]%lift_inv. reflexivity. Qed.

Lemma keeps_fail {A} e : keeps R (@fail A e).
Proof. by intros s b s'. Qed.

Lemma keeps_modify (f : S → S) : (∀ s, R s (f s)) → keeps R (modify f).
Proof. intros Hf s b s' E. injection E as _ <-. apply Hf. Qed.

Lemma keeps_bind {A B} (m : ST S A) (f : A → ST S B) :
  keeps R m → (∀ a, keeps R (f a)) → keeps R (m ≫= f).
Proof. intros Hm Hf s b s' (a & s1 & H1 & H2)%bind_inv. etrans; [by eapply Hm|by eapply Hf]. Qed.

(** What follows may rely on what the first computation returns. *)
Lemma keeps_bind_post {A B} (P : A → Prop) (m : ST S A) (f : A → ST S B) :
  (∀ s a s', m s = Ret (a, s') → P a) → keeps R m → (∀ a, P a → keeps R (f a)) → keeps R (m ≫= f).
Proof.
  intros HP Hm Hf s b s' (a & s1 & E1 & E2)%bind_inv. etrans; [by eapply Hm|]. eapply Hf; [|done]. by eapply HP.
Qed.

(** When what follows [get] depends on the state that was read. *)
Lemma keeps_get_bind {A} (f : S → ST S A) :
  (∀ s a s', f s s = Ret (a, s') → R s s') → keeps R (get ≫= f).
Proof. intros Hf s a s' H. by eapply Hf. Qed.

Lemma keeps_when b (m : ST S unit) : keeps R m → keeps R (when b m).
Proof. intros Hm. destruct b; [done|apply keeps_ret]. Qed.

Lemma keeps_for_each {A} (l : list A) (body : A → ST S unit) :
  (∀ x, x ∈ l → keeps R (body x)) → keeps R (for_each l body).
Proof.
  induction l as [|x l IH]; intros Hb; [apply keeps_ret|]. cbn [for_each]. apply keeps_bind.
  - apply Hb. by left.
  - intros _. apply IH. intros y Hy. apply Hb. by right.
Qed.

Lemma keeps_fold_each {A B} (l : list A) (acc : B) (body : B → A → ST S B) :
  (∀ b x, x ∈ l → keeps R (body b x)) → keeps R (fold_each l acc body).
Proof.
  revert acc. induction l as [|x l IH]; intros acc Hb; [apply keeps_ret|]. cbn [fold_each]. apply keeps_bind.
  - apply Hb. by left.
  - intros b. apply IH. intros c y Hy. apply Hb. by right.
Qed.

Lemma keeps_loop {A B} (l : list A) (acc : B) (body : B → A → ST S (option B)) :
  (∀ b x, x ∈ l → keeps R (body b x)) → keeps R (loop l acc body).
Proof.
  revert acc. induction l as [|x l IH]; intros acc Hb; [apply keeps_ret|]. cbn [loop]. apply keeps_bind.
  - apply Hb. by left.
  - intros [b|]; [|apply keeps_ret]. apply IH. intros c y Hy. apply Hb. by right.
Qed.

(** A loop that runs to its end has run its body on every element. *)
Lemma loop_all {A} (l : list A) (body : A → ST S (option unit)) s s' :
  (∀ x, x ∈ l → keeps R (body x)) → loop l tt (λ _, body) s = Ret (Some tt, s') →
  ∀ x, x ∈ l → ∃ s1 s2, R s s1 ∧ body x s1 = Ret (Some tt, s2).
Proof.
  revert s. induction l as [|y l IH]; intros s Hb E x Hx; [by apply elem_of_nil in Hx|]. cbn [loop] in E.
  apply bind_inv in E as ([[]|] & s1 & E1 & E); [|done].
  apply elem_of_cons in Hx as [->|Hx]; [by exists s, s1|].
  destruct (IH s1) with (x := x) as (s2 & s3 & HR & E2); [intros z Hz; apply Hb; by right|done|done|].
  exists s2, s3. split; [|done]. etrans; [eapply Hb; [left|done]|done].
Qed.
End keeps.

(** ** Postconditions

    From a state that satisfies [I], a run of [m] ends in such a state with a result in
    [Q].  Unlike [keeps], the rules hand what is known of a result to what follows. *)
Section posts.
Context (I : S → Prop).

Definition posts {A} (m : ST S A) (Q : A → Prop) : Prop := ∀ s a s', I s → m s = Ret (a, s') → I s' ∧ Q a.

Definition any {A} (_ : A) : Prop := True.

Lemma posts_bind {A B} (P : A → Prop) (Q : B → Prop) (m : ST S A) (f : A → ST S B) :
  posts m P → (∀ a, P a → posts (f a) Q) → posts (m ≫= f) Q.
Proof.
  intros Hm Hf s b s' Hs (a & s1 & E1 & E2)%bind_inv. destruct (Hm _ _ _ Hs E1) as [Hs1 Ha]. by eapply Hf.
Qed.

Lemma posts_ret {A} (Q : A → Prop) a : Q a → posts (mret a) Q.
Proof. intros Ha s b s' Hs E. by injection E as <- <-. Qed.

Lemma posts_gets {A} (f : S → A) (Q : A → Prop) : (∀ s, I s → Q (f s)) → posts (gets f) Q.
Proof. intros Hf s b s' Hs E. injection E as <- <-. auto. Qed.

Lemma posts_lift {A} (m : outcome A) : posts (lift m) (λ a, m = Ret a).
Proof. by intros s b s' Hs [E ->]%lift_inv. Qed.

Lemma posts_modify (f : S → S) : (∀ s, I s → I (f s)) → posts (modify f) any.
Proof. intros Hf s b s' Hs E. injection E as _ <-. split; [auto|done]. Qed.

Lemma posts_weaken {A} (P Q : A → Prop) (m : ST S A) : posts m P → (∀ a, P a → Q a) → posts m Q.
Proof. intros Hm HQ s a s' Hs E. destruct (Hm _ _ _ Hs E). auto. Qed.

Lemma posts_run {A} (Q : A → Prop) (m : ST S A) s a s' : posts m Q → I s → m s = Ret (a, s') → I s'.
Proof. intros Hm Hs E. by apply (Hm s a s'). Qed.

Lemma posts_reads {A} (m : ST S A) : reads m → posts m any.
Proof. intros Hm s a s' Hs ->%Hm. done. Qed.

Lemma posts_when b (m : ST S unit) : posts m any → posts (when b m) any.
Proof. intros Hm. destruct b; [done|by apply posts_ret]. Qed.

Lemma posts_for_each {A} (l : list A) (body : A → ST S unit) :
  (∀ x, posts (body x) any) → posts (for_each l body) any.
Proof.
  intros Hb. induction l as [|x l IH]; [by apply posts_ret|]. cbn [for_each]. eapply posts_bind; [apply Hb|done].
Qed.

Lemma posts_fold_each {A B} (Q : B → Prop) (l : list A) (acc : B) (body : B → A → ST S B) :
  Q acc → (∀ b x, Q b → posts (body b x) Q) → posts (fold_each l acc body) Q.
Proof.
  intros Ha Hb. revert acc Ha. induction l as [|x l IH]; intros acc Ha; [by apply posts_ret|].
  cbn [fold_each]. eapply posts_bind; [by apply Hb|done].
Qed.

Lemma posts_loop {A B} (l : list A) (acc : B) (body : B → A → ST S (option B)) :
  (∀ b x, posts (body b x) any) → posts (loop l acc body) any.
Proof.
  intros Hb. revert acc. induction l as [|x l IH]; intros acc; [by apply posts_ret|].
  cbn [loop]. eapply posts_bind; [apply Hb|]. intros [b|] _; [done|by apply posts_ret].
Qed.
End posts.

(** A relation that holds for runs that start in [I], which they keep. *)
Definition within (I : S → Prop) (R : S → S → Prop) (s s' : S) : Prop := I s → I s' ∧ R s s'.

#[export] Instance within_refl I R `{!Reflexive R} : Reflexive (within I R).
Proof. intros s Hs. by split. Qed.
#[export] Instance within_trans I R `{!Transitive R} : Transitive (within I R).
Proof.
  intros a b c Hab Hbc Ha. destruct (Hab Ha) as [Hb ?]. destruct (Hbc Hb) as [Hc ?]. split; [done|]. by etrans.
Qed.

(** The state that [get] returns satisfies [I], and [lift] returns what it computes. *)
Lemma keeps_get_within I R `{!Reflexive R} {A} (f : S → ST S A) :
  (∀ r, I r → keeps (within I R) (f r)) → keeps (within I R) (get ≫= f).
Proof. intros Hf s a s' E Hs. by apply (Hf s Hs s a s' E). Qed.

Lemma keeps_lift_bind R {A B} (m : outcome A) (f : A → ST S B) :
  (∀ a, m = Ret a → keeps R (f a)) → keeps R (lift m ≫= f).
Proof. intros Hf s b s' (a & s1 & [E1 ->]%lift_inv & E2)%bind_inv. by eapply Hf. Qed.
End operations.

Create HintDb keeps discriminated.
Create HintDb posts discriminated.
#[export] Hint Resolve keeps_ret keeps_get keeps_gets keeps_lift keeps_fail : keeps.

(** Opens every bind of a successful run in the context. *)
Ltac run_inv :=
  repeat match goal with
  | H : (_ ≫= _) _ = Ret (_, _) |- _ =>
      apply bind_inv in H; destruct H as (? & ? & ? & ?)
  | H : lift _ _ = Ret (_, _) |- _ => apply lift_inv in H; destruct H as [? ?]; subst
  | H : assert_ _ _ = Ret (_, _) |- _ => apply lift_inv in H; destruct H as [H ?]; subst;
      apply th_assert_Ret in H
  | H : get _ = Ret (_, _) |- _ => injection H as H; subst
  | H : gets _ _ = Ret (_, _) |- _ => injection H as H; subst
  | H : modify _ _ = Ret (_, _) |- _ => injection H as H; subst
  | H : mret _ _ = Ret (_, _) |- _ => injection H as H; subst
  | H : skip _ = Ret (_, _) |- _ => injection H as H; subst
  | H : fail _ _ = Ret (_, _) |- _ => discriminate H
  end.

(** Decomposes a method along the constructs of the monad; [keeps_with tac] tries [tac]
    at every step. *)
Ltac keeps_step :=
  match goal with
  | |- Reflexive _ => typeclasses eauto
  | |- Transitive _ => typeclasses eauto
  | |- keeps _ (mbind _ _) => apply keeps_bind
  | |- keeps _ (when _ _) => apply keeps_when
  | |- keeps _ (for_each _ _) => apply keeps_for_each
  | |- keeps _ (fold_each _ _ _) => apply keeps_fold_each
  | |- keeps _ (loop _ _ _) => apply keeps_loop
  | |- keeps _ (match ?x with _ => _ end) => destruct x
  | |- keeps _ _ => solve [eauto with keeps typeclass_instances]
  | |- ∀ _, _ => intros ?
  end.
Ltac keeps_tac := repeat keeps_step.
Ltac keeps_with tac := repeat first [tac | keeps_step].

(** Decomposes a method for [posts]; [posts_with tac] tries [tac] at every step and leaves
    what is to be shown of the state changes and of the results. *)
Ltac posts_step :=
  match goal with
  | |- posts _ (mbind _ _) _ => eapply posts_bind
  | |- posts _ ?m ?Q => is_evar Q; first [apply posts_lift | match type of Q with ?A → Prop => unify Q (@any A) end]
  | |- posts _ (mret _) any => by apply posts_ret
  | |- posts _ skip any => by apply posts_ret
  | |- posts _ (fail _) _ => by intros ???
  | |- posts _ (assert_ _) any => by eapply posts_weaken; [apply posts_lift|]
  | |- posts _ (lift _) any => by eapply posts_weaken; [apply posts_lift|]
  | |- posts _ (assert_ _) _ => apply posts_lift
  | |- posts _ (lift _) _ => apply posts_lift
  | |- posts _ (gets _) any => by apply posts_gets
  | |- posts _ (when _ _) _ => apply posts_when
  | |- posts _ (for_each _ _) any => apply posts_for_each
  | |- posts _ (fold_each _ _ _) any => apply posts_fold_each
  | |- posts _ (loop _ _ _) any => apply posts_loop
  | |- posts _ (match ?x with _ => _ end) _ => destruct x
  | |- any _ => done
  | |- ∀ _, _ => let E := fresh in intros E; cbv beta in E
  end.
Ltac posts_with tac := repeat first [tac | posts_step].
