(* ===== verification/Files.v ===== *)
(** * Files: how a node writes its state to a file and reads it back
    (encode and decode of src/src/Bitmap.h, Message.cc, Certificate.t, Prepared_cert.cc and
    Pre_prepare_info.cc)

    A file is the list of its bytes.  Writing appends and always succeeds; reading takes
    bytes from the front, and an item that the file does not hold whole is not read.  A local
    variable that was not read has no value ([Undefined] when the code goes on to use it);
    memory that was not written holds [junk], byte by byte.  Integers are
    little-endian.  FilesView.v, FilesState.v and FilesReplica.v use these methods. *)
From stdpp Require Import gmap.
From S2P Require Import Prelude Node Bitmap Certificate Messages PreparedCert PrePrepare StateMonad.

Definition File : Type := list Z.

Module FileIO.
(** [fwrite] of a list of items; the result is their number. *)
Definition fwrite (items : list (list Z)) : ST File Z := λ f, Ret (zlen items, f ++ mjoin items).

(** [fread] of one item of [n] bytes. *)
Definition fread1 (n : nat) : ST File (option (list Z)) := λ f,
  if (length f <? n)%nat then Ret (None, []) else Ret (Some (take n f), drop n f).

(** Into a field with the value [old]; the second result is the number of items. *)
Definition fread_field {A} (n : nat) (dec : list Z → A) (old : A) : ST File (A * Z) :=
  o ← fread1 n; mret (match o with Some b => (dec b, 1) | None => (old, 0) end).

(** Into a local variable that is used next. *)
Definition fread_local {A} (n : nat) (dec : list Z → A) : ST File A :=
  o ← fread1 n; lift (of_option Undefined (dec <$> o)).

(** [k] items of [n] bytes, or as many as there are. *)
Fixpoint fread_items (k n : nat) : ST File (list (list Z)) :=
  match k with
  | O => mret []
  | S k =>
      o ← fread1 n;
      match o with Some b => l ← fread_items k n; mret (b :: l) | None => mret [] end
  end.

Definition int_of (b : list Z) : Z := wrapS 32 (from_le b).
Definition uint_of (b : list Z) : Z := from_le b.
Definition long_of (b : list Z) : Z := wrapS 64 (from_le b).
Definition bool_of (b : list Z) : bool := negb (from_le b =? 0).
Definition int_bytes (z : Z) : list Z := Msg.le 4 z.
Definition long_bytes (z : Z) : list Z := Msg.le 8 z.
Definition bool_bytes (b : bool) : list Z := [Z.b2z b].

(** A method that reads a file into an object works on both. *)
Section both.
Context {S : Type}.
Definition on_file {A} (m : ST File A) : ST (File * S) A := λ s, '(a, f) ← m s.1; Ret (a, (f, s.2)).
Definition on_obj {A} (m : ST S A) : ST (File * S) A := λ s, '(a, r) ← m s.2; Ret (a, (s.1, r)).
Definition this : ST (File * S) S := on_obj get.
End both.
End FileIO.

(** What the files need of the type of a message: its size, the bytes of its buffer and the
    message that is in a buffer, and the room of the buffer ([max_size]), which the records
    of the messages leave out. *)
Class FileMsg (T : Type) := {
  fm_size : T → Z;
  fm_bytes : T → list Z;
  fm_of : list Z → T;
  fm_room : T → Z;
}.

Module Files.
Import FileIO.
Section files.
Context (junk : Z → Z).

(** A buffer of [n] bytes of which the first were read. *)
Definition fill (n : Z) (read : list Z) : list Z := read ++ (junk <$> seqZ (zlen read) (n - zlen read)).

(** ** Bitmap

    The chunks are written as [nc] items of the size of a [Uint], half of that of a chunk. *)
Definition sizeof_Chunk : Z := 8.

(** The bytes of an array of chunks, and the array in a buffer. *)
Definition chunk_bytes (l : list Z) : list Z := l ≫= Msg.le 8.
Definition chunks_of (n : Z) (buf : list Z) : list Z := (λ k, rd (8 * Z.to_nat k) 8 buf) <$> seqZ 0 n.

(** The items that [fwrite] makes of an array. *)
Definition uints (n : Z) (buf : list Z) : list (list Z) := (λ k, take 4 (drop (4 * Z.to_nat k) buf)) <$> seqZ 0 n.

Definition bitmap_encode (b : BM.Bitmap) : ST File bool :=
  n1 ← fwrite [int_bytes (BM.num b)];
  n2 ← fwrite [int_bytes (BM.nc b)];
  n3 ← fwrite (uints (BM.nc b) (chunk_bytes (BM.chunks b)));
  mret (n1 + n2 + n3 =? to_unsigned (2 + BM.nc b)).

Definition bitmap_decode (b : BM.Bitmap) : ST File (bool * BM.Bitmap) :=
  '(num, n1) ← fread_field 4 uint_of (BM.num b);
  '(nc, n2) ← fread_field 4 uint_of (BM.nc b);
  l ← fread_items (Z.to_nat nc) 4;
  mret ((n1 + n2 + zlen l =? to_unsigned (2 + nc)) && (num <=? nc * BM.ChunkBits),
        BM.mkBitmap num (chunks_of nc (fill (sizeof_Chunk * nc) (mjoin l))) nc).

(** ** Message *)
Section messages.
Context {T : Type} `{FileMsg T}.

Definition message_encode (m : T) : ST File bool :=
  let csize := fm_size m in
  n1 ← fwrite [int_bytes (fm_room m)];
  n2 ← fwrite [int_bytes csize];
  b ← lift (if (0 <=? csize) && (csize <=? zlen (fm_bytes m)) then Ret (take (Z.to_nat csize) (fm_bytes m))
            else Err Undefined);
  n3 ← fwrite ((λ x, [x]) <$> b);
  mret (n1 + n2 + n3 =? 2 + csize).

(** [Log_allocator::malloc] does not return for a size that no chunk has room for: a new
    chunk ends the size of its header before [chunk_size]. *)
Definition chunk_size : Z := 65536.
Definition sizeof_Log_chunk : Z := 32.
Definition malloc (sz : Z) : outcome unit :=
  _ ← th_assert ((0 <? sz) && (sz <? chunk_size));
  if sz <? chunk_size - sizeof_Log_chunk then Ret tt else Err OutOfFuel.

(** Into a message that [new Message] has made, without a buffer ([None]).  The buffer of
    another message is not one that [delete] may be applied to.  The message is what is in the
    memory of the chunk, from the buffer on. *)
Definition message_decode (old : option T) : ST File (bool * T) :=
  _ ← lift (match old with None => Ret tt | Some _ => Err Undefined end);
  '(max_size, n1) ← fread_field 4 int_of 0;
  _ ← lift (malloc max_size);
  csize ← fread_local 4 int_of;
  if (csize <? 0) || (max_size <? csize) then mret (false, fm_of (fill chunk_size []))
  else
    l ← fread_items (Z.to_nat csize) 1;
    mret (n1 + 1 + zlen l =? 2 + csize, fm_of (fill chunk_size (mjoin l))).
End messages.

(** ** Certificate *)
Section certificates.
Context `{Config} {T : Type} `{FileMsg T}.

#[local] Abbreviation Message_val := (@Cert.Message_val T).
#[local] Abbreviation Certificate := (Cert.Certificate T).

(** The loop over the values, with the number of items and the result so far. *)
Definition encode_val (acc : Z * bool) (v : Message_val) : ST File (Z * bool) :=
  n ← fwrite [int_bytes (Cert.count v)];
  r ← (if Cert.count v =? 0 then mret true
       else m ← lift (of_option Undefined (Cert.m v)); message_encode m);
  mret (acc.1 + n, acc.2 && r).

Definition cert_encode (x : Certificate) : ST File bool :=
  ret ← bitmap_encode (Cert.bmap x);
  n1 ← fwrite [int_bytes (Cert.max_size x)];
  n2 ← fwrite [int_bytes (Cert.cur_size x)];
  '(sz, ret) ← fold_each (take (Z.to_nat (Cert.cur_size x)) (Cert.vals x)) (n1 + n2, ret) encode_val;
  n3 ← fwrite [int_bytes (Cert.complete x)];
  n4 ← fwrite [int_bytes (default (-1) (Cert.c x))];
  n5 ← fwrite [bool_bytes (bool_decide (is_Some (Cert.mym x)))];
  mret (ret && (sz + n3 + n4 + n5 =? to_unsigned (5 + Cert.cur_size x))).

(** The fields that are read before the values. *)
Definition set_sizes (x : Certificate) (b : BM.Bitmap) (v : list Message_val) (max cur : Z) : Certificate :=
  Cert.mkCert b v max cur (Cert.correct x) (Cert.c x) (Cert.complete x) (Cert.mym x) (Cert.t_sent x).

(** One value; [None] when the code returns. *)
Definition decode_val (acc : list Message_val * Z * bool) (i : Z) : ST File (option (list Message_val * Z * bool)) :=
  '(count, n) ← fread_field 4 int_of 0;
  if (count <? 0) || (num_replicas <? count) then mret None
  else if count =? 0 then mret (Some (zset acc.1.1 i (Cert.mkVal None 0), acc.1.2 + n, acc.2))
  else
    '(r, m) ← message_decode None;
    mret (Some (zset acc.1.1 i (Cert.mkVal (Some m) count), acc.1.2 + n, acc.2 && r)).

(** What follows the values.  When the code returns with an error, the pointers stay, although
    the array that [c] points into is gone. *)
Definition decode_rest (x : Certificate) (sz : Z) (ret : bool) : ST File (bool * Certificate) :=
  '(complete, n1) ← fread_field 4 int_of (Cert.complete x);
  cindex ← fread_local 4 int_of;
  hmym ← fread1 1;
  let n3 := match hmym with Some _ => 1 | None => 0 end in
  let put c mym t := Cert.mkCert (Cert.bmap x) (Cert.vals x) (Cert.max_size x) (Cert.cur_size x) (max_faulty + 1) c complete mym t in
  let ok := ret && (sz + n1 + 1 + n3 =? to_unsigned (5 + Cert.cur_size x)) in
  if cindex =? -1 then mret (ok, put None None 0)
  else if (cindex <? 0) || (Cert.cur_size x <? cindex) then mret (false, put (Cert.c x) (Cert.mym x) (Cert.t_sent x))
  else
    v ← lift (of_option Undefined (zget (Cert.vals x) cindex));
    h ← lift (of_option Undefined (bool_of <$> hmym));
    mret (ok, put (Some cindex) (if h : bool then Cert.m v else Cert.mym x) 0).

Definition cert_decode (x : Certificate) : ST File (bool * Certificate) :=
  '(ret, bmap) ← bitmap_decode (Cert.bmap x);
  '(max_size, n1) ← fread_field 4 int_of (Cert.max_size x);
  _ ← lift (if max_size <? 0 then Err Undefined else Ret tt);
  let vals := replicate (Z.to_nat max_size) Cert.null_val in
  '(cur_size, n2) ← fread_field 4 int_of (Cert.cur_size x);
  if (cur_size <? 0) || (max_size <=? cur_size) then mret (false, set_sizes x bmap vals max_size cur_size)
  else
    o ← loop (seqZ 0 cur_size) (vals, n1 + n2, ret) decode_val;
    match o with
    | Some (vals, sz, ret) => decode_rest (set_sizes x bmap vals max_size cur_size) sz ret
    | None => mret (false, set_sizes x bmap vals max_size cur_size)
    end.
End certificates.

(** ** Prepared_cert and Pre_prepare_info *)
Section prepared.
Context `{Config} `{FileMsg Prepare} {PP : Type} `{PrePrepareMsg PP} `{FileMsg PP}.

(** [pp->encode(o)] reads the size of the message behind a null pointer. *)
Definition pcert_encode (x : PCert.Prepared_cert PP) : ST File bool :=
  ret ← cert_encode (PCert.pc x);
  m ← lift (of_option Undefined (PCert.pp x));
  r ← message_encode m;
  n ← fwrite [bool_bytes (PCert.primary x)];
  mret (ret && r && (n =? 1)).

Definition pcert_decode (x : PCert.Prepared_cert PP) : ST File (bool * PCert.Prepared_cert PP) :=
  _ ← assert_ (bool_decide (is_Some (PCert.pp x)));
  '(ret, pc) ← cert_decode (PCert.pc x);
  '(r, m) ← message_decode (PCert.pp x);
  '(primary, n) ← fread_field 1 bool_of (PCert.primary x);
  mret (ret && r && (n =? 1), PCert.mkPCert pc (Some m) 0 primary).

(** Pre_prepare_info is its pointer. *)
Definition info_encode (pp : option PP) : ST File bool :=
  n ← fwrite [bool_bytes (bool_decide (is_Some pp))];
  ret ← match pp with Some m => message_encode m | None => mret true end;
  mret (ret && (n =? 1)).

Definition info_decode (pp : option PP) : ST File (bool * option PP) :=
  hpp ← fread_local 1 bool_of;
  if hpp : bool then '(r, m) ← message_decode None; mret (r, Some m) else mret (true, pp).
End prepared.
End files.
End Files.
