(* ===== verification/FilesProps.v ===== *)
(** * FilesProps: what a node reads back from a file

    A method [writes] a list of bytes if it appends them to the file, and [takes] them if it
    removes them from the front; both compose along the binds of a method.  The theorems say
    which part of a bitmap and of a certificate survives a round trip: half of the bitmap, and
    no certificate in which every value differs. *)
From stdpp Require Import gmap.
From S2P Require Import Prelude Node Bitmap SeqLog Certificate Messages PreparedCert PrePrepare StateMonad Files.
Import FileIO HmacModel.

Module FProps.

Definition writes {A} (m : ST File A) (a : A) (l : list Z) : Prop := ∀ f, m f = Ret (a, f ++ l).
Definition takes {A} (m : ST File A) (l : list Z) (a : A) : Prop := ∀ rest, m (l ++ rest) = Ret (a, rest).

Lemma writes_ret {A} (a : A) : writes (mret a) a [].
Proof. intros f. by rewrite app_nil_r. Qed.

Lemma writes_bind {A B} (m : ST File A) (k : A → ST File B) a b l l' :
  writes m a l → writes (k a) b l' → writes (m ≫= k) b (l ++ l').
Proof. intros Hm Hk f. rewrite (bind_step _ _ _ _ _ (Hm f)), Hk. by rewrite app_assoc. Qed.

Lemma writes_lift {A B} (m : outcome A) (k : A → ST File B) a b l :
  m = Ret a → writes (k a) b l → writes (lift m ≫= k) b l.
Proof. intros -> Hk f. apply Hk. Qed.

Lemma fwrite_writes items : writes (fwrite items) (zlen items) (mjoin items).
Proof. done. Qed.

(** One item. *)
Lemma fwrite_one b : writes (fwrite [b]) 1 b.
Proof. intros f. unfold fwrite. cbn. by rewrite app_nil_r. Qed.

Lemma takes_ret {A} (a : A) : takes (mret a) [] a.
Proof. done. Qed.

Lemma takes_bind {A B} (m : ST File A) (k : A → ST File B) a b l l' :
  takes m l a → takes (k a) l' b → takes (m ≫= k) (l ++ l') b.
Proof. intros Hm Hk rest. rewrite <- app_assoc, (bind_step _ _ _ _ _ (Hm _)). apply Hk. Qed.

Lemma takes_lift {A B} (m : outcome A) (k : A → ST File B) a b l :
  m = Ret a → takes (k a) l b → takes (lift m ≫= k) l b.
Proof. intros -> Hk rest. apply Hk. Qed.

Lemma fread1_takes n b : length b = n → takes (fread1 n) b (Some b).
Proof.
  intros Hn rest. unfold fread1. rewrite length_app, Hn.
  rewrite (proj2 (Nat.ltb_ge _ _)) by lia. by rewrite take_app_length', drop_app_length'.
Qed.

Lemma fread_field_takes {A} n (dec : list Z → A) old b : length b = n → takes (fread_field n dec old) b (dec b, 1).
Proof.
  intros Hn rest. unfold fread_field. by rewrite (bind_step _ _ _ _ _ (fread1_takes n b Hn rest)).
Qed.

Lemma fread_local_takes {A} n (dec : list Z → A) b : length b = n → takes (fread_local n dec) b (dec b).
Proof.
  intros Hn rest. unfold fread_local. by rewrite (bind_step _ _ _ _ _ (fread1_takes n b Hn rest)).
Qed.

Lemma fread_items_takes n items : Forall (λ b, length b = n) items →
  takes (fread_items (length items) n) (mjoin items) items.
Proof.
  induction 1 as [|b items Hb _ IH]; [done|]. cbn [length fread_items mjoin].
  change (mjoin (b :: items)) with (b ++ mjoin items).
  eapply takes_bind; [by apply fread1_takes|]. intros rest. by rewrite (bind_step _ _ _ _ _ (IH rest)).
Qed.

(** *** Methods on a file and an object *)
Section both.
Context {S : Type}.
Implicit Types s : File * S.

Lemma on_file_inv {A} (m : ST File A) s a s' : on_file m s = Ret (a, s') → ∃ f, m s.1 = Ret (a, f) ∧ s' = (f, s.2).
Proof. unfold on_file. destruct (m s.1) as [[x f]|] eqn:E; [|done]. intros Ha. injection Ha as <- <-. by exists f. Qed.

Lemma on_obj_inv {A} (m : ST S A) s a s' : on_obj m s = Ret (a, s') → ∃ r, m s.2 = Ret (a, r) ∧ s' = (s.1, r).
Proof. unfold on_obj. destruct (m s.2) as [[x r]|] eqn:E; [|done]. intros Ha. injection Ha as <- <-. by exists r. Qed.

(** A relation of the objects is kept by what touches only the file. *)
Lemma keeps_on_file {A} (R : S → S → Prop) `{!Reflexive R} (m : ST File A) : keeps (λ s s', R s.2 s'.2) (on_file m).
Proof. intros s a s' (f & _ & ->)%on_file_inv. cbn. reflexivity. Qed.

Lemma keeps_on_obj {A} (R : S → S → Prop) (m : ST S A) : keeps R m → keeps (λ s s', R s.2 s'.2) (on_obj m).
Proof. intros Hm s a s' (r & Hr & ->)%on_obj_inv. by eapply Hm. Qed.

Lemma keeps_this (R : S → S → Prop) `{!Reflexive R} : keeps (λ s s', R s.2 s'.2) this.
Proof. apply keeps_on_obj. by apply keeps_get. Qed.

Lemma file_step {A B} (m : ST File A) (k : A → ST (File * S) B) l a rest x : takes m l a →
  (on_file m ≫= k) (l ++ rest, x) = k a (rest, x).
Proof. intros Hm. apply bind_step. unfold on_file. cbn [fst snd]. by rewrite Hm. Qed.

Lemma obj_step {A B} (m : ST S A) (k : A → ST (File * S) B) f x a x' : m x = Ret (a, x') →
  (on_obj m ≫= k) (f, x) = k a (f, x').
Proof. intros Hm. apply bind_step. unfold on_obj. cbn [fst snd]. by rewrite Hm. Qed.

Lemma this_step {B} (k : S → ST (File * S) B) f x : (this ≫= k) (f, x) = k x (f, x).
Proof. done. Qed.
End both.

(** *** Methods that only append *)
Lemma fwrite_appends items : keeps prefix (fwrite items).
Proof. intros f n f' E. injection E as _ <-. by apply prefix_app_r. Qed.

Lemma message_appends {T} `{FileMsg T} (m : T) : keeps prefix (Files.message_encode m).
Proof. unfold Files.message_encode. keeps_with ltac:(apply fwrite_appends). Qed.

Ltac appends_step :=
  match goal with
  | |- keeps _ (fwrite _) => apply fwrite_appends
  | |- keeps _ (Files.message_encode _) => apply message_appends
  | |- _ => keeps_step
  end.

Lemma bitmap_appends b : keeps prefix (Files.bitmap_encode b).
Proof. unfold Files.bitmap_encode. repeat appends_step. Qed.

Lemma cert_appends {T} `{FileMsg T} (x : Cert.Certificate T) : keeps prefix (Files.cert_encode x).
Proof.
  unfold Files.cert_encode, Files.encode_val. apply keeps_bind; [typeclasses eauto|apply bitmap_appends|].
  intros ret. repeat appends_step.
Qed.

(** *** Numbers *)
Lemma le_len n z : length (Msg.le n z) = n.
Proof. apply Msg.le_length. Qed.

Lemma int_of_bytes z : - 2 ^ 31 ≤ z < 2 ^ 31 → int_of (int_bytes z) = z.
Proof. intros Hz. unfold int_of, int_bytes. rewrite from_le_le. by apply (wrapS_mod 32). Qed.

Lemma uint_of_bytes z : 0 ≤ z < 2 ^ 32 → uint_of (int_bytes z) = z.
Proof. intros Hz. unfold uint_of, int_bytes. rewrite from_le_le. by apply Z.mod_small. Qed.

Lemma bool_of_bytes b : bool_of (bool_bytes b) = b.
Proof. by destruct b. Qed.

Lemma bytes_join (b : list Z) : mjoin ((λ x, [x]) <$> b) = b.
Proof. induction b as [|x b IH]; [done|]. by cbn; rewrite <- IH at 2. Qed.

(** *** Bits of a buffer *)
Definition byte_bit (buf : list Z) (i : Z) : bool :=
  match zget buf (i `div` 8) with Some x => Z.testbit x (i `mod` 8) | None => false end.

Lemma from_le_testbit l p : bytes l → 0 ≤ p → Z.testbit (from_le l) p = byte_bit l p.
Proof.
  intros Hl. revert p. induction Hl as [|b l Hb Hl IH]; intros p Hp.
  { unfold byte_bit, zget. rewrite Z.testbit_0_l. by case_decide. }
  change (from_le (b :: l)) with (b + 256 * from_le l). unfold byte in Hb.
  pose proof (Z.mod_pos_bound p 8 ltac:(lia)). pose proof (Z_div_mod_eq_full p 8) as Hd.
  destruct (decide (p < 8)) as [Hlt|Hge].
  - unfold byte_bit. rewrite (Z.div_small p), (Z.mod_small p) by lia. unfold zget. cbn.
    rewrite <- (Z.mod_pow2_bits_low _ 8) by lia. change (2 ^ 8) with 256.
    rewrite (Z.mul_comm 256), Z.mod_add, Z.mod_small by lia. done.
  - replace p with ((p - 8) + 8) at 1 by lia. rewrite <- Z.div_pow2_bits by lia. change (2 ^ 8) with 256.
    rewrite (Z.mul_comm 256), Z.div_add, (Z.div_small b), Z.add_0_l, IH by lia.
    unfold byte_bit. replace ((p - 8) `mod` 8) with (p `mod` 8) by (replace p with ((p - 8) + 1 * 8) at 1 by lia; by rewrite Z.mod_add by lia).
    replace ((p - 8) `div` 8) with (p `div` 8 - 1) by (replace p with ((p - 8) + 1 * 8) at 1 by lia; rewrite Z.div_add by lia; lia).
    unfold zget. rewrite !decide_True by lia.
    replace (Z.to_nat (p `div` 8)) with (S (Z.to_nat (p `div` 8 - 1))) by lia. done.
Qed.

Lemma zget_take_drop (l : list Z) k n j : 0 ≤ j < Z.of_nat n → zget (take n (drop k l)) j = zget l (Z.of_nat k + j).
Proof.
  intros Hj. unfold zget. rewrite !decide_True by lia. rewrite lookup_take_lt by lia. rewrite lookup_drop. f_equal. lia.
Qed.

(** Bit [p] of chunk [k] is a bit of the buffer. *)
Lemma chunk_testbit buf k p : bytes buf → 0 ≤ k → 0 ≤ p < 64 →
  Z.testbit (rd (8 * Z.to_nat k) 8 buf) p = byte_bit buf (64 * k + p).
Proof.
  intros Hb Hk Hp. unfold rd. rewrite from_le_testbit; [|by apply Forall_take, Forall_drop|lia].
  unfold byte_bit. pose proof (Z.div_pos p 8 ltac:(lia) ltac:(lia)).
  pose proof (Z.div_lt_upper_bound p 8 8 ltac:(lia) ltac:(lia)).
  rewrite zget_take_drop by lia. replace (64 * k + p) with (p + 8 * k * 8) by lia.
  rewrite Z.div_add, Z.mod_add by lia.
  by replace (p `div` 8 + 8 * k) with (Z.of_nat (8 * Z.to_nat k) + p `div` 8) by lia.
Qed.

Lemma chunks_of_get n buf k : 0 ≤ k < n → zget (Files.chunks_of n buf) k = Some (rd (8 * Z.to_nat k) 8 buf).
Proof.
  intros Hk. unfold Files.chunks_of, zget. rewrite decide_True by lia.
  rewrite list_lookup_fmap, lookup_seqZ_lt by lia. cbn. by rewrite Z2Nat.id by lia.
Qed.

Lemma chunks_of_len n buf : 0 ≤ n → zlen (Files.chunks_of n buf) = n.
Proof. intros Hn. unfold Files.chunks_of, zlen. rewrite length_fmap, length_seqZ. lia. Qed.

Lemma chunks_of_range n buf : bytes buf → Forall (λ c, 0 ≤ c < 2 ^ 64) (Files.chunks_of n buf).
Proof.
  intros Hb. apply Forall_fmap, Forall_forall. intros k Hk%elem_of_seqZ.
  change (0 ≤ rd (8 * Z.to_nat k) 8 buf < 2 ^ 64).
  assert (∀ l, bytes l → 0 ≤ from_le l < 2 ^ (8 * Z.of_nat (length l))) as Hr.
  { intros l. induction 1 as [|b l Hx _ IH]; [cbn; lia|]. unfold byte in Hx.
    change (from_le (b :: l)) with (b + 256 * from_le l). cbn [length].
    replace (8 * Z.of_nat (S (length l))) with (8 + 8 * Z.of_nat (length l)) by lia.
    rewrite Z.pow_add_r by lia. change (2 ^ 8) with 256. lia. }
  unfold rd. specialize (Hr (take 8 (drop (8 * Z.to_nat k) buf)) ltac:(by apply Forall_take, Forall_drop)).
  pose proof (length_take_le (drop (8 * Z.to_nat k) buf)) as Hl.
  assert (2 ^ (8 * Z.of_nat (length (take 8 (drop (8 * Z.to_nat k) buf)))) ≤ 2 ^ 64); [|lia].
  apply Z.pow_le_mono_r; [lia|]. rewrite length_take. lia.
Qed.

Lemma bit_of_buffer nm buf n i : bytes buf → 0 ≤ i < 64 * n →
  BM.bit (BM.mkBitmap nm (Files.chunks_of n buf) n) i = byte_bit buf i.
Proof.
  intros Hb Hi. unfold BM.bit. cbn.
  pose proof (Z.mod_pos_bound i 64 ltac:(lia)). pose proof (Z_div_mod_eq_full i 64) as Hd.
  rewrite chunks_of_get by (split; [apply Z.div_pos|apply Z.div_lt_upper_bound]; lia).
  rewrite chunk_testbit by (try apply Z.div_pos; done || lia). f_equal. lia.
Qed.

(** *** The items of an array *)
Lemma mjoin_uints (n : nat) buf : mjoin (Files.uints (Z.of_nat n) buf) = take (4 * n) buf.
Proof.
  unfold Files.uints. induction n as [|n IH]; [done|].
  rewrite seqZ_S, fmap_app, join_app, IH. cbn [fmap list_fmap mjoin list_join].
  rewrite app_nil_r, Z.add_0_l, Nat2Z.id, take_take_drop. f_equal. lia.
Qed.

Lemma uints_len n buf : 0 ≤ n → zlen (Files.uints n buf) = n.
Proof. intros Hn. unfold Files.uints, zlen. rewrite length_fmap, length_seqZ. lia. Qed.

Lemma uints_items n buf : 0 ≤ n → 4 * n ≤ zlen buf → Forall (λ b, length b = 4%nat) (Files.uints n buf).
Proof.
  intros Hn Hb. unfold zlen in Hb. apply Forall_fmap, Forall_forall. intros k Hk%elem_of_seqZ. cbn.
  rewrite length_take, length_drop. lia.
Qed.

Lemma le_byte n z : bytes (Msg.le n z).
Proof. apply Forall_fmap, Forall_forall. intros i _. unfold byte. cbn. apply Z.mod_pos_bound. lia. Qed.

Lemma chunk_bytes_app l l' : Files.chunk_bytes (l ++ l') = Files.chunk_bytes l ++ Files.chunk_bytes l'.
Proof. apply bind_app. Qed.

Lemma chunk_bytes_len l : length (Files.chunk_bytes l) = (8 * length l)%nat.
Proof.
  induction l as [|c l IH]; [done|]. change (Files.chunk_bytes (c :: l)) with (Msg.le 8 c ++ Files.chunk_bytes l).
  rewrite length_app, le_len, IH. cbn. lia.
Qed.

Lemma chunk_bytes_byte l : bytes (Files.chunk_bytes l).
Proof.
  induction l as [|c l IH]; [by apply Forall_nil|].
  change (Files.chunk_bytes (c :: l)) with (Msg.le 8 c ++ Files.chunk_bytes l). apply Forall_app. split; [apply le_byte|apply IH].
Qed.

Lemma chunks_of_chunk_bytes l : Forall (λ c, 0 ≤ c < 2 ^ 64) l → Files.chunks_of (zlen l) (Files.chunk_bytes l) = l.
Proof.
  intros Hl. apply list_eq. intros k. unfold Files.chunks_of, zlen. rewrite list_lookup_fmap.
  destruct (l !! k) as [c|] eqn:Ec.
  - pose proof (lookup_lt_Some _ _ _ Ec). rewrite lookup_seqZ_lt by lia. cbn [fmap option_fmap option_map]. f_equal.
    rewrite Z.add_0_l, Nat2Z.id. rewrite <- (take_drop_middle _ _ _ Ec) at 1. rewrite chunk_bytes_app.
    change (Files.chunk_bytes (c :: drop (S k) l)) with (Msg.le 8 c ++ Files.chunk_bytes (drop (S k) l)).
    rewrite rd_le by (rewrite chunk_bytes_len, length_take; lia).
    apply Z.mod_small. rewrite Forall_lookup in Hl. by apply (Hl k).
  - apply lookup_ge_None in Ec. rewrite lookup_seqZ_ge by lia. done.
Qed.

(** A bitmap shows the bits of its bytes. *)
Lemma bit_bytes b i : BM.wf b → 0 ≤ i < 64 * BM.nc b → BM.bit b i = byte_bit (Files.chunk_bytes (BM.chunks b)) i.
Proof.
  intros (Hn & Hc & Hl & Hr) Hi. destruct b as [nm l n]. cbn in *.
  rewrite <- (bit_of_buffer nm _ n) by (done || apply chunk_bytes_byte). rewrite <- Hl. by rewrite chunks_of_chunk_bytes.
Qed.

Section memory.
Context (junk : Z → Z) (junk_byte : ∀ j, byte (junk j)).

Lemma fill_len n l : zlen l ≤ n → zlen (Files.fill junk n l) = n.
Proof. intros Hl. unfold Files.fill, zlen in *. rewrite length_app, length_fmap, length_seqZ. lia. Qed.

Lemma fill_byte n l : bytes l → bytes (Files.fill junk n l).
Proof. intros Hl. apply Forall_app. split; [done|]. apply Forall_fmap, Forall_forall. intros j _. apply junk_byte. Qed.

Lemma fill_get n l j : zlen l ≤ n → 0 ≤ j < n →
  zget (Files.fill junk n l) j = if decide (j < zlen l) then zget l j else Some (junk j).
Proof.
  intros Hl Hj. unfold Files.fill. rewrite zget_app. case_decide; [done|]. unfold zget. rewrite decide_True by lia.
  rewrite list_lookup_fmap, lookup_seqZ_lt by lia. cbn. do 2 f_equal. lia.
Qed.

(** What is read back of the bitmap [b], of which the first [n] bytes of the chunks were
    written. *)
Definition reloaded (b : BM.Bitmap) : BM.Bitmap :=
  BM.mkBitmap (BM.num b)
    (Files.chunks_of (BM.nc b) (Files.fill junk (Files.sizeof_Chunk * BM.nc b)
       (take (4 * Z.to_nat (BM.nc b)) (Files.chunk_bytes (BM.chunks b))))) (BM.nc b).

Definition bitmap_bytes (b : BM.Bitmap) : list Z :=
  int_bytes (BM.num b) ++ int_bytes (BM.nc b) ++ mjoin (Files.uints (BM.nc b) (Files.chunk_bytes (BM.chunks b))).

Lemma wf_nc b : BM.wf b → 0 ≤ BM.nc b < 2 ^ 31 ∧ BM.num b ≤ 64 * BM.nc b.
Proof.
  intros (Hn & Hc & _). rewrite Hc. pose proof (Z_div_mod_eq_full (BM.num b + 63) 64).
  pose proof (Z.mod_pos_bound (BM.num b + 63) 64). split; [split|]; [apply Z.div_pos; lia|apply Z.div_lt_upper_bound; lia|lia].
Qed.

Lemma to_unsigned_small z : 0 ≤ z < 2 ^ 32 → to_unsigned z = z.
Proof. apply Z.mod_small. Qed.

Lemma bitmap_writes b : BM.wf b → writes (Files.bitmap_encode b) true (bitmap_bytes b).
Proof.
  intros Hw. pose proof (wf_nc b Hw) as [Hn _]. unfold Files.bitmap_encode.
  replace (bitmap_bytes b) with (int_bytes (BM.num b) ++ int_bytes (BM.nc b) ++
    mjoin (Files.uints (BM.nc b) (Files.chunk_bytes (BM.chunks b))) ++ []) by (by rewrite app_nil_r).
  eapply writes_bind; [apply fwrite_one|]. eapply writes_bind; [apply fwrite_one|].
  eapply writes_bind; [apply fwrite_writes|]. rewrite uints_len by lia.
  rewrite to_unsigned_small by lia. replace (1 + 1 + BM.nc b =? 2 + BM.nc b) with true by (symmetry; lia).
  apply writes_ret.
Qed.

Lemma bitmap_takes b y : BM.wf b → takes (Files.bitmap_decode junk y) (bitmap_bytes b) (true, reloaded b).
Proof.
  intros Hw. pose proof (wf_nc b Hw) as [Hn Hm]. destruct Hw as (Hnum & _ & Hl & _).
  unfold Files.bitmap_decode.
  replace (bitmap_bytes b) with (int_bytes (BM.num b) ++ int_bytes (BM.nc b) ++
    mjoin (Files.uints (BM.nc b) (Files.chunk_bytes (BM.chunks b))) ++ []) by (by rewrite app_nil_r).
  eapply takes_bind; [by apply fread_field_takes, le_len|]. cbn beta iota. rewrite uint_of_bytes by lia.
  eapply takes_bind; [by apply fread_field_takes, le_len|]. cbn beta iota. rewrite uint_of_bytes by lia.
  assert (Z.to_nat (BM.nc b) = length (Files.uints (BM.nc b) (Files.chunk_bytes (BM.chunks b)))) as Hlen.
  { pose proof (uints_len (BM.nc b) (Files.chunk_bytes (BM.chunks b))). unfold zlen in *. lia. }
  eapply takes_bind.
  { rewrite Hlen. apply fread_items_takes, uints_items; [lia|]. unfold zlen in *. rewrite chunk_bytes_len. lia. }
  rewrite uints_len, to_unsigned_small by lia.
  replace (1 + 1 + BM.nc b =? 2 + BM.nc b) with true by (symmetry; lia).
  replace (BM.num b <=? BM.nc b * BM.ChunkBits) with true by (symmetry; unfold BM.ChunkBits; lia).
  unfold reloaded. rewrite <- (Z2Nat.id (BM.nc b)) at 3 by lia. rewrite mjoin_uints. apply takes_ret.
Qed.

(** Its lower half is that of the bitmap, its upper half what was in the memory. *)
Lemma reloaded_bit b i : BM.wf b → 0 ≤ i < 64 * BM.nc b →
  BM.bit (reloaded b) i = if decide (i < 32 * BM.nc b) then BM.bit b i else Z.testbit (junk (i `div` 8)) (i `mod` 8).
Proof.
  intros Hw Hi. pose proof (wf_nc b Hw) as [Hn _]. pose proof Hw as (_ & _ & Hl & _).
  unfold reloaded. rewrite bit_of_buffer; [|apply fill_byte, Forall_take, chunk_bytes_byte|done].
  assert (zlen (take (4 * Z.to_nat (BM.nc b)) (Files.chunk_bytes (BM.chunks b))) = 4 * BM.nc b) as Ht.
  { unfold zlen in *. rewrite length_take, chunk_bytes_len. lia. }
  pose proof (Z_div_mod_eq_full i 8). pose proof (Z.mod_pos_bound i 8).
  unfold byte_bit at 1, Files.sizeof_Chunk. rewrite fill_get, Ht by lia.
  repeat case_decide; try lia; [|done]. rewrite bit_bytes by done. unfold byte_bit.
  unfold zget. rewrite !decide_True by lia. by rewrite lookup_take_lt by lia.
Qed.

Lemma reloaded_wf b : BM.wf b → BM.wf (reloaded b).
Proof.
  intros Hw. pose proof (wf_nc b Hw) as [Hn _]. destruct Hw as (Hnum & Hc & Hl & _). split_and!; cbn; try done || lia.
  - apply chunks_of_len. lia.
  - apply chunks_of_range, fill_byte, Forall_take, chunk_bytes_byte.
Qed.

(** C36: [Bitmap::encode] and [Bitmap::decode] count the chunks, of 64 bits, but write and read as
    many items of the size of a [Uint], of 32 bits.  A bitmap that is written and read back has the
    same size, and both methods report success; its lower half has the bits that were
    written, and every bit of its upper half is whatever was in the memory of the new array. *)
Theorem bitmap_file_keeps_half b y : BM.wf b →
  ∃ l b', (∀ f, Files.bitmap_encode b f = Ret (true, f ++ l)) ∧
    (∀ rest, Files.bitmap_decode junk y (l ++ rest) = Ret ((true, b'), rest)) ∧
    BM.wf b' ∧ BM.num b' = BM.num b ∧
    ∀ i, 0 ≤ i < 64 * BM.nc b → BM.bit b' i =
      if decide (i < 32 * BM.nc b) then BM.bit b i else Z.testbit (junk (i `div` 8)) (i `mod` 8).
Proof.
  intros Hw. exists (bitmap_bytes b), (reloaded b). split_and!.
  - by apply bitmap_writes.
  - by apply bitmap_takes.
  - by apply reloaded_wf.
  - done.
  - intros i Hi. by apply reloaded_bit.
Qed.
(** *** Messages *)
Section messages.
Context {T : Type} `{FileMsg T}.

(** A message that can be written and read: it fits its buffer, the buffer fits a chunk of the
    allocator, and the message is determined by its own bytes. *)
Definition storable (mg : T) : Prop :=
  0 ≤ fm_size mg ≤ fm_room mg ∧ 0 < fm_room mg < Files.chunk_size - Files.sizeof_Log_chunk ∧
  fm_size mg ≤ zlen (fm_bytes mg) ∧ ∀ tail, fm_of (take (Z.to_nat (fm_size mg)) (fm_bytes mg) ++ tail) = mg.

Definition message_bytes (mg : T) : list Z :=
  int_bytes (fm_room mg) ++ int_bytes (fm_size mg) ++ take (Z.to_nat (fm_size mg)) (fm_bytes mg).

Lemma singles_len (b : list Z) : zlen ((λ x, [x]) <$> b) = zlen b.
Proof. unfold zlen. by rewrite length_fmap. Qed.

Lemma taken_len mg : storable mg → zlen (take (Z.to_nat (fm_size mg)) (fm_bytes mg)) = fm_size mg.
Proof. intros (? & _ & Hb & _). unfold zlen in *. rewrite length_take. lia. Qed.

Lemma message_writes mg : storable mg → writes (Files.message_encode mg) true (message_bytes mg).
Proof.
  intros Hs. pose proof (taken_len mg Hs) as Hl. destruct Hs as (Hsz & Hroom & Hb & _). unfold Files.message_encode.
  replace (message_bytes mg) with (int_bytes (fm_room mg) ++ int_bytes (fm_size mg) ++
    mjoin ((λ x, [x]) <$> take (Z.to_nat (fm_size mg)) (fm_bytes mg)) ++ []) by (by rewrite app_nil_r, bytes_join).
  eapply writes_bind; [apply fwrite_one|]. eapply writes_bind; [apply fwrite_one|].
  eapply writes_lift; [rewrite (proj2 (Z.leb_le _ _)), (proj2 (Z.leb_le _ _)) by lia; done|].
  eapply writes_bind; [apply fwrite_writes|]. rewrite singles_len, Hl.
  replace (1 + 1 + fm_size mg =? 2 + fm_size mg) with true by (symmetry; lia). apply writes_ret.
Qed.

Lemma message_takes mg : storable mg → takes (Files.message_decode junk None) (message_bytes mg) (true, mg).
Proof.
  intros Hs. pose proof (taken_len mg Hs) as Hl. destruct Hs as (Hsz & Hroom & Hb & Hof).
  unfold Files.chunk_size, Files.sizeof_Log_chunk in Hroom. unfold Files.message_decode.
  replace (message_bytes mg) with (int_bytes (fm_room mg) ++ int_bytes (fm_size mg) ++
    mjoin ((λ x, [x]) <$> take (Z.to_nat (fm_size mg)) (fm_bytes mg)) ++ []) by (by rewrite app_nil_r, bytes_join).
  eapply takes_lift; [done|]. eapply takes_bind; [by apply fread_field_takes, le_len|]. cbn beta iota.
  rewrite int_of_bytes by lia. eapply takes_lift.
  { unfold Files.malloc, Files.chunk_size, Files.sizeof_Log_chunk. rewrite (proj2 (Z.ltb_lt 0 _)), (proj2 (Z.ltb_lt _ 65536)) by lia.
    cbn -[Z.ltb Z.sub]. by rewrite (proj2 (Z.ltb_lt _ _)) by lia. }
  eapply takes_bind; [by apply fread_local_takes, le_len|]. rewrite int_of_bytes by lia.
  rewrite (proj2 (Z.ltb_ge _ _)), (proj2 (Z.ltb_ge _ _)) by lia. cbn [orb].
  eapply takes_bind.
  { replace (Z.to_nat (fm_size mg)) with (length ((λ x : Z, [x]) <$> take (Z.to_nat (fm_size mg)) (fm_bytes mg))) at 1
      by (rewrite length_fmap; unfold zlen in Hl; lia).
    apply fread_items_takes. by apply Forall_fmap, Forall_true. }
  rewrite singles_len, Hl, bytes_join. replace (1 + 1 + fm_size mg =? 2 + fm_size mg) with true by (symmetry; lia).
  unfold Files.fill. rewrite Hof. apply takes_ret.
Qed.

(** *** Certificates *)
Section certificates.
Context `{Config}.

#[local] Abbreviation Message_val := (@Cert.Message_val T).

(** A value that is in use. *)
Definition used (v : Message_val) : Prop :=
  1 ≤ Cert.count v ≤ num_replicas ∧ ∃ mg, Cert.m v = Some mg ∧ storable mg.

Record savable (x : Cert.Certificate T) : Prop := mkSavable {
  sv_wf : BM.wf (Cert.bmap x);
  sv_size : 0 ≤ Cert.cur_size x ≤ Cert.max_size x ∧ Cert.max_size x < 2 ^ 31 - 5 ∧ zlen (Cert.vals x) = Cert.max_size x;
  sv_used i : 0 ≤ i < Cert.cur_size x → ∃ v, zget (Cert.vals x) i = Some v ∧ used v;
  sv_rest i : Cert.cur_size x ≤ i < Cert.max_size x → zget (Cert.vals x) i = Some Cert.null_val;
  sv_c i : Cert.c x = Some i → 0 ≤ i < Cert.cur_size x;
  sv_complete : - 2 ^ 31 ≤ Cert.complete x < 2 ^ 31;
  sv_mine mg : Cert.mym x = Some mg → ∃ i k, Cert.c x = Some i ∧ zget (Cert.vals x) i = Some (Cert.mkVal (Some mg) k);
}.

Definition val_bytes (v : Message_val) : list Z :=
  int_bytes (Cert.count v) ++ match Cert.m v with Some mg => message_bytes mg | None => [] end.

Definition used_vals (x : Cert.Certificate T) : list Message_val := take (Z.to_nat (Cert.cur_size x)) (Cert.vals x).

Definition cert_bytes (x : Cert.Certificate T) : list Z :=
  bitmap_bytes (Cert.bmap x) ++ int_bytes (Cert.max_size x) ++ int_bytes (Cert.cur_size x) ++
  (used_vals x ≫= val_bytes) ++ int_bytes (Cert.complete x) ++ int_bytes (default (-1) (Cert.c x)) ++
  bool_bytes (bool_decide (is_Some (Cert.mym x))).

Lemma encode_val_writes acc v : used v → writes (Files.encode_val acc v) (acc.1 + 1, acc.2) (val_bytes v).
Proof.
  intros (Hc & mg & Hm & Hs). unfold Files.encode_val, val_bytes. rewrite Hm.
  eapply writes_bind; [apply fwrite_one|]. rewrite <- (app_nil_r (message_bytes mg)).
  eapply writes_bind.
  - rewrite (proj2 (Z.eqb_neq _ _)) by lia. eapply writes_lift; [done|]. by apply message_writes.
  - rewrite andb_true_r. apply writes_ret.
Qed.

Lemma encode_vals_writes vs acc : Forall used vs →
  writes (fold_each vs acc Files.encode_val) (acc.1 + zlen vs, acc.2) (vs ≫= val_bytes).
Proof.
  intros Hvs. revert acc. induction Hvs as [|v vs Hv _ IH]; intros acc.
  { destruct acc as [n r]. change (zlen []) with 0. rewrite Z.add_0_r. apply writes_ret. }
  cbn [fold_each]. eapply writes_bind; [by apply encode_val_writes|].
  replace (acc.1 + zlen (v :: vs)) with (acc.1 + 1 + zlen vs) by (unfold zlen; cbn; lia). apply (IH (acc.1 + 1, acc.2)).
Qed.

Lemma used_all x : savable x → Forall used (used_vals x) ∧ zlen (used_vals x) = Cert.cur_size x.
Proof.
  intros [_ (Hc & _ & Hl) Hu _ _ _ _]. unfold zlen in *. split; [|unfold used_vals, zlen; rewrite length_take; lia].
  apply Forall_lookup. intros k v Hk. unfold used_vals in Hk. apply lookup_take_Some in Hk as [Hk Hlt].
  destruct (Hu (Z.of_nat k)) as (w & Hw & ?); [lia|]. unfold zget in Hw. rewrite decide_True, Nat2Z.id in Hw by lia. congruence.
Qed.

Lemma cert_writes x : savable x → writes (Files.cert_encode x) true (cert_bytes x).
Proof.
  intros Hs. destruct (used_all x Hs) as [Hu Hl]. destruct Hs as [Hw (Hc & Hm & _) _ _ _ _ _].
  unfold Files.cert_encode, cert_bytes.
  eapply writes_bind; [by apply bitmap_writes|]. eapply writes_bind; [apply fwrite_one|].
  eapply writes_bind; [apply fwrite_one|]. fold (used_vals x). eapply writes_bind; [by apply encode_vals_writes|].
  eapply writes_bind; [apply fwrite_one|]. eapply writes_bind; [apply fwrite_one|].
  rewrite <- (app_nil_r (bool_bytes _)). eapply writes_bind; [apply fwrite_one|]. cbn [fst snd].
  rewrite Hl, to_unsigned_small by lia.
  replace (1 + 1 + Cert.cur_size x + 1 + 1 + 1 =? 5 + Cert.cur_size x) with true by (symmetry; lia). apply writes_ret.
Qed.
Context `{!ConfigOk}.

Lemma decode_val_takes vals n r i v : used v →
  takes (Files.decode_val junk (vals, n, r) i) (val_bytes v) (Some (zset vals i v, n + 1, r)).
Proof.
  intros (Hc & mg & Hm & Hs). pose proof config_replicas as Hn. pose proof config_max_replicas as Hn2. unfold Files.decode_val, val_bytes. rewrite Hm.
  eapply takes_bind; [by apply fread_field_takes, le_len|]. cbn beta iota. rewrite int_of_bytes by lia.
  rewrite (proj2 (Z.ltb_ge _ _)), (proj2 (Z.ltb_ge _ _)), (proj2 (Z.eqb_neq _ _)) by lia. cbn [orb].
  rewrite <- (app_nil_r (message_bytes mg)). eapply takes_bind; [by apply message_takes|].
  cbn. rewrite andb_true_r. destruct v as [mv k]. cbn in *. subst mv. apply takes_ret.
Qed.

(** The array in the middle of the loop. *)
Lemma zset_next (old : list Message_val) v rest : zset (old ++ Cert.null_val :: rest) (zlen old) v = old ++ v :: rest.
Proof.
  unfold zset, zlen. rewrite decide_True, Nat2Z.id by lia. rewrite insert_app_r_alt by lia. by rewrite Nat.sub_diag.
Qed.

Lemma decode_vals_takes vs : Forall used vs → ∀ old rest n r,
  takes (loop (seqZ (zlen old) (zlen vs)) (old ++ replicate (length vs) Cert.null_val ++ rest, n, r) (Files.decode_val junk))
    (vs ≫= val_bytes) (Some (old ++ vs ++ rest, n + zlen vs, r)).
Proof.
  induction 1 as [|v vs Hv _ IH]; intros old rest n r.
  { cbn. change (zlen []) with 0. rewrite seqZ_nil, Z.add_0_r by lia. apply takes_ret. }
  replace (zlen (v :: vs)) with (Z.succ (zlen vs)) by (unfold zlen; cbn; lia).
  rewrite seqZ_cons by (pose proof (zlen_nonneg vs); lia). rewrite Z.pred_succ. cbn [loop].
  eapply takes_bind; [by apply decode_val_takes|]. cbn [length replicate app]. rewrite zset_next.
  specialize (IH (old ++ [v]) rest (n + 1) r). rewrite zlen_app in IH. change (zlen [v]) with 1 in IH.
  rewrite <- !app_assoc in IH. replace (n + Z.succ (zlen vs)) with (n + 1 + zlen vs) by lia. by apply IH.
Qed.

(** The certificate that is read back. *)
Definition restored (x : Cert.Certificate T) : Cert.Certificate T :=
  Cert.mkCert (reloaded (Cert.bmap x)) (Cert.vals x) (Cert.max_size x) (Cert.cur_size x) (max_faulty + 1)
    (Cert.c x) (Cert.complete x) (Cert.mym x) 0.

Lemma vals_split x : savable x →
  Cert.vals x = used_vals x ++ replicate (Z.to_nat (Cert.max_size x - Cert.cur_size x)) Cert.null_val.
Proof.
  intros [_ (Hc & _ & Hl) _ Hr _ _ _]. unfold used_vals. rewrite <- (take_drop (Z.to_nat (Cert.cur_size x)) (Cert.vals x)) at 1.
  f_equal. symmetry. apply replicate_as_elem_of. unfold zlen in Hl. split; [rewrite length_drop; lia|].
  intros v (k & Hk)%list_elem_of_lookup. rewrite lookup_drop in Hk. pose proof (lookup_lt_Some _ _ _ Hk).
  specialize (Hr (Cert.cur_size x + Z.of_nat k) ltac:(lia)). unfold zget in Hr. rewrite decide_True in Hr by lia.
  replace (Z.to_nat (Cert.cur_size x + Z.of_nat k)) with (Z.to_nat (Cert.cur_size x) + k)%nat in Hr by lia. congruence.
Qed.

Lemma decode_rest_takes x y b sz : savable x → Cert.mym y = None → sz = 2 + Cert.cur_size x →
  takes (Files.decode_rest (Files.set_sizes y b (Cert.vals x) (Cert.max_size x) (Cert.cur_size x)) sz true)
    (int_bytes (Cert.complete x) ++ int_bytes (default (-1) (Cert.c x)) ++ bool_bytes (bool_decide (is_Some (Cert.mym x))))
    (true, Cert.mkCert b (Cert.vals x) (Cert.max_size x) (Cert.cur_size x) (max_faulty + 1)
      (Cert.c x) (Cert.complete x) (Cert.mym x) 0).
Proof.
  intros Hs Hy ->. destruct Hs as [_ (Hc & Hmx & _) Hu _ Hci Hco Hmy]. unfold Files.decode_rest.
  eapply takes_bind; [by apply fread_field_takes, le_len|]. cbn beta iota. rewrite int_of_bytes by lia.
  assert (- 2 ^ 31 ≤ default (-1) (Cert.c x) < 2 ^ 31) as Hr.
  { destruct (Cert.c x) as [i|]; cbn; [specialize (Hci i eq_refl)|]; lia. }
  eapply takes_bind; [by apply fread_local_takes, le_len|]. rewrite int_of_bytes by done.
  rewrite <- (app_nil_r (bool_bytes _)). eapply takes_bind; [by apply fread1_takes|].
  cbn [Files.set_sizes Cert.cur_size Cert.vals Cert.mym Cert.bmap Cert.max_size andb].
  rewrite to_unsigned_small by lia. replace (2 + Cert.cur_size x + 1 + 1 + 1 =? 5 + Cert.cur_size x) with true by (symmetry; lia).
  destruct (Cert.c x) as [i|] eqn:Ec.
  - specialize (Hci i eq_refl). destruct (Hu i Hci) as (v & Hv & _). change (default (-1) (Some i)) with i.
    rewrite (proj2 (Z.eqb_neq _ _)), (proj2 (Z.ltb_ge _ _)), (proj2 (Z.ltb_ge _ _)) by lia. cbn [orb].
    eapply takes_lift; [rewrite Hv; done|]. eapply takes_lift; [done|]. rewrite bool_of_bytes.
    destruct (Cert.mym x) as [mg|] eqn:Em; cbn.
    + destruct (Hmy mg eq_refl) as (j & k & Hj & Hg). injection Hj as <-. rewrite Hv in Hg. injection Hg as ->. apply takes_ret.
    + rewrite Hy. apply takes_ret.
  - destruct (Cert.mym x) as [mg|] eqn:Em; [|apply takes_ret].
    destruct (Hmy mg eq_refl) as (j & k & Hj & _). done.
Qed.

Lemma cert_takes x y : savable x → Cert.mym y = None → Cert.cur_size x < Cert.max_size x →
  takes (Files.cert_decode junk y) (cert_bytes x) (true, restored x).
Proof.
  intros Hs Hy Hlt. destruct (used_all x Hs) as [Hu Hl]. pose proof (sv_size x Hs) as (Hc & Hm & _).
  unfold Files.cert_decode, cert_bytes. eapply takes_bind; [by apply bitmap_takes, (sv_wf x Hs)|]. cbn beta iota.
  eapply takes_bind; [by apply fread_field_takes, le_len|]. cbn beta iota. rewrite int_of_bytes by lia.
  eapply takes_lift; [by rewrite (proj2 (Z.ltb_ge _ _)) by lia|].
  eapply takes_bind; [by apply fread_field_takes, le_len|]. cbn beta iota. rewrite int_of_bytes by lia.
  rewrite (proj2 (Z.ltb_ge (Cert.cur_size x) 0)), (proj2 (Z.leb_gt _ _)) by lia. cbn [orb].
  eapply takes_bind.
  - pose proof (decode_vals_takes (used_vals x) Hu [] (replicate (Z.to_nat (Cert.max_size x - Cert.cur_size x)) Cert.null_val) (1 + 1) true) as Ht.
    cbn [app] in Ht. rewrite <- replicate_add, Hl, <- vals_split in Ht by done.
    replace (length (used_vals x) + Z.to_nat (Cert.max_size x - Cert.cur_size x))%nat with (Z.to_nat (Cert.max_size x)) in Ht
      by (unfold zlen in Hl; lia). exact Ht.
  - apply decode_rest_takes; [done|done|lia].
Qed.

(** C35: a certificate that is written and read back, over one without an own message, has its
    values, its correct value and its own message again, and the time of sending is reset, so that it
    is sent again; of its bitmap the lower half is kept.  The exception is a certificate with as many
    different values as there is room for: it is written without an error, and reading it fails. *)
Theorem certificate_file_roundtrip x y : savable x → Cert.mym y = None →
  ∃ l, (∀ f, Files.cert_encode x f = Ret (true, f ++ l)) ∧
    if Cert.cur_size x <? Cert.max_size x
    then ∀ rest, Files.cert_decode junk y (l ++ rest) = Ret ((true, restored x), rest)
    else ∀ rest, ∃ z f, Files.cert_decode junk y (l ++ rest) = Ret ((false, z), f).
Proof.
  intros Hs Hy. exists (cert_bytes x). split; [by apply cert_writes|].
  destruct (Cert.cur_size x <? Cert.max_size x) eqn:Hlt; zprop; [by apply cert_takes|].
  intros rest. pose proof (sv_size x Hs) as (Hc & Hm & _). unfold Files.cert_decode, cert_bytes. rewrite <- !app_assoc.
  rewrite (bind_step _ _ _ _ _ (bitmap_takes _ _ (sv_wf x Hs) _)). cbn beta iota.
  rewrite (bind_step _ _ _ _ _ (fread_field_takes 4 int_of _ _ (le_len _ _) _)). cbn beta iota. rewrite int_of_bytes by lia.
  rewrite (proj2 (Z.ltb_ge _ _)) by lia.
  rewrite (bind_step _ _ _ tt _ eq_refl).
  rewrite (bind_step _ _ _ _ _ (fread_field_takes 4 int_of _ _ (le_len _ _) _)). cbn beta iota. rewrite int_of_bytes by lia.
  rewrite (proj2 (Z.leb_le _ _)) by lia. rewrite orb_true_r. by eexists _, _.
Qed.
End certificates.
End messages.
End memory.

End FProps.
