(* ===== verification/FileMsgs.v ===== *)
(** * FileMsgs: the messages that files hold
    (src/src/Commit.h, Prepare.h, Checkpoint.h, Pre_prepare.h)

    The instances of [FileMsg] for the messages of the certificates: the message that the
    bytes of a buffer are, with the fields at their offsets.  The buffers are those of messages
    that were trimmed to their size.  A message whose fields are in the ranges of their types
    and whose bytes are as many as it says is [storable]. *)
From stdpp Require Import gmap.
From S2P Require Import Prelude Node Bitmap SeqLog Certificate Messages PreparedCert PrePrepare StateMonad Files FilesProps.
Import FileIO FProps Auth.

Module FMsgs.

(** What is between the fixed part, of [n] bytes, and the end of the message. *)
Definition behind (n size : Z) (b : list Z) : list Z := take (Z.to_nat (size - n)) (drop (Z.to_nat n) b).

Definition short_at (off : nat) (b : list Z) : Z := wrapS 16 (rd off 2 b).
Definition int_at (off : nat) (b : list Z) : Z := wrapS 32 (rd off 4 b).
Definition long_at (off : nat) (b : list Z) : Z := wrapS 64 (rd off 8 b).
Definition digest_at (off : nat) (b : list Z) : Dig.Digest := Req.digest_at (drop (off - 8) b).

#[export] Instance commit_file : FileMsg Commit := {
  fm_size := c_size;
  fm_bytes m := commit_bytes m ++ c_auth m;
  fm_of b := mkCommit (short_at 2 b) (int_at 4 b) (long_at 8 b) (long_at 16 b) (int_at 24 b)
               (behind sizeof_Commit_rep (int_at 4 b) b);
  fm_room := c_size;
}.

#[export] Instance prepare_file : FileMsg Prepare := {
  fm_size := p_size;
  fm_bytes m := prepare_bytes m ++ p_auth m;
  fm_of b := mkPrepare (short_at 2 b) (int_at 4 b) (long_at 8 b) (long_at 16 b) (digest_at 24 b) (int_at 56 b)
               (behind sizeof_Prepare_rep (int_at 4 b) b);
  fm_room := p_size;
}.

#[export] Instance checkpoint_file : FileMsg Checkpoint := {
  fm_size := k_size;
  fm_bytes m := checkpoint_bytes m ++ k_auth m;
  fm_of b := mkCheckpoint (short_at 2 b) (int_at 4 b) (long_at 8 b) (digest_at 16 b) (int_at 48 b)
               (behind sizeof_Checkpoint_rep (int_at 4 b) b);
  fm_room := k_size;
}.

#[export] Instance pre_prepare_file : FileMsg PP.Pre_prepare := {
  fm_size := PP.size;
  fm_bytes m := PP.header_bytes m ++ PP.body m;
  fm_of b := PP.mkPp (short_at 2 b) (int_at 4 b) (long_at 8 b) (long_at 16 b) (digest_at 24 b) (int_at 56 b)
               (short_at 60 b) (behind PP.sizeof_Pre_prepare_rep (int_at 4 b) b);
  fm_room := PP.size;
}.

(** *** Fields of a buffer *)
Lemma rd_later l1 off n l2 : (length l1 ≤ off)%nat → rd off n (l1 ++ l2) = rd (off - length l1) n l2.
Proof. intros Hl. unfold rd. by rewrite drop_app_ge. Qed.

Lemma drop_later {A} (l1 : list A) k l2 : (length l1 ≤ k)%nat → drop k (l1 ++ l2) = drop (k - length l1) l2.
Proof. apply drop_app_ge. Qed.

Lemma digest_at_here off l1 x l2 : length l1 = off → (8 ≤ off)%nat → digest_at off (l1 ++ Dig.bytes_of x ++ l2) = x.
Proof.
  intros Hl Ho. unfold digest_at. rewrite drop_app_le by lia. apply Req.digest_at_bytes. rewrite length_drop. lia.
Qed.

Lemma behind_here n size h a tail : zlen h = n → zlen a = size - n → behind n size (h ++ a ++ tail) = a.
Proof.
  intros Hh Ha. pose proof (zlen_nonneg a). unfold behind, zlen in *. rewrite drop_app_length' by lia. rewrite take_app_length' by lia. done.
Qed.

(** The message is determined by its bytes: it is enough to look at its fixed part and what is
    behind it. *)
Lemma storable_parts {T} `{FileMsg T} (mg : T) h a :
  fm_bytes mg = h ++ a → zlen h + zlen a = fm_size mg → fm_room mg = fm_size mg →
  0 < fm_size mg < 2 ^ 16 - 32 → (∀ tail, fm_of (h ++ a ++ tail) = mg) → storable mg.
Proof.
  intros Hb Hl Hr Hs Hof. pose proof (zlen_nonneg h). pose proof (zlen_nonneg a).
  split_and!; rewrite ?Hr; unfold Files.chunk_size, Files.sizeof_Log_chunk; try lia.
  - rewrite Hb, zlen_app. lia.
  - intros tail. rewrite Hb, take_ge by (rewrite length_app; unfold zlen in *; lia). by rewrite <- app_assoc.
Qed.

Ltac rd_lengths := rewrite ?length_app, ?Msg.le_length, ?Req.bytes_of_length.
Ltac rd_field :=
  rewrite <- ?app_assoc;
  repeat (rewrite rd_later by (rd_lengths; lia); rd_lengths; cbn [Nat.sub]);
  rewrite Req.rd_here; apply wrapS_mod; lia.

Definition i16 (z : Z) : Prop := - 2 ^ 15 ≤ z < 2 ^ 15.
Definition i32 (z : Z) : Prop := - 2 ^ 31 ≤ z < 2 ^ 31.
Definition i64 (z : Z) : Prop := - 2 ^ 63 ≤ z < 2 ^ 63.

Lemma digest_at_later l1 off l2 : (length l1 + 8 ≤ off)%nat → digest_at off (l1 ++ l2) = digest_at (off - length l1) l2.
Proof. intros Hl. unfold digest_at. rewrite drop_app_ge by lia. by replace (off - 8 - length l1)%nat with (off - length l1 - 8)%nat by lia. Qed.

Ltac digest_field :=
  rewrite <- ?app_assoc;
  repeat (rewrite digest_at_later by (rd_lengths; lia); rd_lengths; cbn [Nat.sub]);
  apply digest_at_here; [by rd_lengths|lia].
Ltac field := solve [done | rd_field | digest_field].

Lemma commit_storable (m : Commit) : i16 (c_extra m) → i64 (c_view m) → i64 (c_seqno m) → i32 (c_id m) →
  sizeof_Commit_rep ≤ c_size m < 2 ^ 16 - 32 → zlen (c_auth m) = c_size m - sizeof_Commit_rep → storable m.
Proof.
  intros He Hv Hn Hi Hs Ha. destruct m as [x sz v n i a]. unfold i16, i32, i64, sizeof_Commit_rep in *. cbn in *.
  eapply (storable_parts _ (commit_bytes _) a); cbn; try done || lia.
  - rewrite Ha. unfold commit_bytes, Msg.header_bytes, zlen. rd_lengths. lia.
  - intros tail. unfold short_at, int_at, long_at.
    assert (∀ b, wrapS 32 (rd 4 4 (commit_bytes (mkCommit x sz v n i a) ++ b)) = sz) as ->
      by (intros b; unfold commit_bytes, Msg.header_bytes; cbn; field).
    rewrite behind_here by (rewrite ?Ha; unfold commit_bytes, Msg.header_bytes, zlen; rd_lengths; done).
    unfold commit_bytes, Msg.header_bytes. cbn. f_equal; field.
Qed.

Lemma prepare_storable (m : Prepare) : i16 (p_extra m) → i64 (p_view m) → i64 (p_seqno m) → i32 (p_id m) →
  sizeof_Prepare_rep ≤ p_size m < 2 ^ 16 - 32 → zlen (p_auth m) = p_size m - sizeof_Prepare_rep → storable m.
Proof.
  intros He Hv Hn Hi Hs Ha. destruct m as [x sz v n d i a]. unfold i16, i32, i64, sizeof_Prepare_rep in *. cbn in *.
  eapply (storable_parts _ (prepare_bytes _) a); cbn; try done || lia.
  - rewrite Ha. unfold prepare_bytes, Msg.header_bytes, zlen. rd_lengths. lia.
  - intros tail. unfold short_at, int_at, long_at.
    assert (∀ b, wrapS 32 (rd 4 4 (prepare_bytes (mkPrepare x sz v n d i a) ++ b)) = sz) as ->
      by (intros b; unfold prepare_bytes, Msg.header_bytes; cbn; field).
    rewrite behind_here by (rewrite ?Ha; unfold prepare_bytes, Msg.header_bytes, zlen; rd_lengths; done).
    unfold prepare_bytes, Msg.header_bytes. cbn. f_equal; field.
Qed.

Lemma checkpoint_storable (m : Checkpoint) : i16 (k_extra m) → i64 (k_seqno m) → i32 (k_id m) →
  sizeof_Checkpoint_rep ≤ k_size m < 2 ^ 16 - 32 → zlen (k_auth m) = k_size m - sizeof_Checkpoint_rep → storable m.
Proof.
  intros He Hn Hi Hs Ha. destruct m as [x sz n d i a]. unfold i16, i32, i64, sizeof_Checkpoint_rep in *. cbn in *.
  eapply (storable_parts _ (checkpoint_bytes _) a); cbn; try done || lia.
  - rewrite Ha. unfold checkpoint_bytes, Msg.header_bytes, zlen. rd_lengths. lia.
  - intros tail. unfold short_at, int_at, long_at.
    assert (∀ b, wrapS 32 (rd 4 4 (checkpoint_bytes (mkCheckpoint x sz n d i a) ++ b)) = sz) as ->
      by (intros b; unfold checkpoint_bytes, Msg.header_bytes; cbn; field).
    rewrite behind_here by (rewrite ?Ha; unfold checkpoint_bytes, Msg.header_bytes, zlen; rd_lengths; done).
    unfold checkpoint_bytes, Msg.header_bytes. cbn. f_equal; field.
Qed.

Lemma pre_prepare_storable (m : PP.Pre_prepare) : i16 (PP.extra m) → i64 (PP.view m) → i64 (PP.seqno m) →
  i32 (PP.rset_size m) → i16 (PP.non_det_size m) →
  PP.sizeof_Pre_prepare_rep ≤ PP.size m < 2 ^ 16 - 32 → zlen (PP.body m) = PP.size m - PP.sizeof_Pre_prepare_rep →
  storable m.
Proof.
  intros He Hv Hn Hr Hc Hs Ha. destruct m as [x sz v n d r c a].
  unfold i16, i32, i64, PP.sizeof_Pre_prepare_rep in *. cbn in *.
  eapply (storable_parts _ (PP.header_bytes _) a); cbn; try done || lia.
  - rewrite Ha. unfold PP.header_bytes, Msg.header_bytes, zlen. rd_lengths. lia.
  - intros tail. unfold short_at, int_at, long_at.
    assert (∀ b, wrapS 32 (rd 4 4 (PP.header_bytes (PP.mkPp x sz v n d r c a) ++ b)) = sz) as ->
      by (intros b; unfold PP.header_bytes, Msg.header_bytes; cbn; field).
    rewrite behind_here by (rewrite ?Ha; unfold PP.header_bytes, Msg.header_bytes, zlen; rd_lengths; done).
    unfold PP.header_bytes, Msg.header_bytes. cbn. f_equal; field.
Qed.

(** ** Certificates of the sample group *)
#[local] Existing Instance default_config_ok.

Definition sample_commit : Commit := mkCommit 0 48 1 5 2 (replicate 16 7).

(** A certificate of commits with one value, which three replicas have sent. *)
Definition sample_cert : Cert.Certificate Commit :=
  Cert.mkCert (BM.mkBitmap 32 [14] 1) [Cert.mkVal (Some sample_commit) 3; Cert.null_val] 2 1 2 (Some 0) 3 None 77.

Lemma sample_savable : savable (H0 := default_config 1 0) sample_cert.
Proof.
  split; cbn; try done.
  - split_and!; try done. apply Forall_singleton. done.
  - intros i Hi. replace i with 0 by lia. eexists. split; [done|]. split; [done|]. exists sample_commit. split; [done|].
    apply commit_storable; done.
  - intros i Hi. replace i with 1 by lia. done.
  - by intros i [= <-].
Qed.

Lemma certificate_file_roundtrip_witness :
  ∃ l, (∀ f, Files.cert_encode sample_cert f = Ret (true, f ++ l)) ∧
    ∀ rest, Files.cert_decode (H := default_config 1 0) (λ _, 0) sample_cert (l ++ rest) =
      Ret ((true, Cert.mkCert (BM.mkBitmap 32 [14] 1) (Cert.vals sample_cert) 2 1 2 (Some 0) 3 None 0), rest).
Proof.
  exact (certificate_file_roundtrip (λ _, 0) sample_cert sample_cert sample_savable eq_refl).
Defined.

(** A bitmap of 64 bits with the bits 3 and 40, read back into memory that was cleared. *)
Lemma bitmap_file_keeps_half_witness :
  ∃ l b', (∀ f, Files.bitmap_encode (BM.mkBitmap 64 [2 ^ 3 + 2 ^ 40] 1) f = Ret (true, f ++ l)) ∧
    (∀ rest, Files.bitmap_decode (λ _, 0) (BM.make 64 false) (l ++ rest) = Ret ((true, b'), rest)) ∧
    BM.wf b' ∧ BM.num b' = 64 ∧ BM.bit b' 3 = true ∧ BM.bit b' 40 = false.
Proof.
  destruct (bitmap_file_keeps_half (λ _, 0) (λ _, conj (Z.le_refl 0) eq_refl) (BM.mkBitmap 64 [2 ^ 3 + 2 ^ 40] 1)
    (BM.make 64 false)) as (l & b' & He & Hd & Hw & Hn & Hb).
  { split_and!; try done. apply Forall_singleton. done. }
  exists l, b'. split; [exact He|]. split; [exact Hd|]. split; [exact Hw|]. split; [exact Hn|].
  split; rewrite Hb by done; done.
Defined.

End FMsgs.
