(* ===== verification/Ends.v ===== *)
(** * Ends: computations that do not run out of fuel

    [ends o] says that an outcome is not that of a loop which the fuel of the model cut.
    [ending I m] says the same of a computation that starts in a state with the invariant
    [I], and that it keeps the invariant; both are closed under the constructs of the
    monads, so that only the loops with fuel need an argument: the tactics follow the code
    of a method and unfold what they meet, and the database [ends] holds the loops. *)
From S2P Require Import Prelude StateMonad.

Definition ends {A} (o : outcome A) : Prop := o ≠ Err OutOfFuel.

Section outcomes.
Context {A B : Type}.

Lemma ends_ret (a : A) : ends (Ret a).
Proof. done. Qed.

Lemma ends_mret (a : A) : ends (mret a).
Proof. done. Qed.

Lemma ends_bind (o : outcome A) (f : A → outcome B) :
  ends o → (∀ a, o = Ret a → ends (f a)) → ends (o ≫= f).
Proof. unfold ends. destruct o as [a|e]; [intros _ Hf; by apply Hf|]. intros Ho _ [= ->]. done. Qed.

Lemma ends_err e : e ≠ OutOfFuel → ends (Err (A := A) e).
Proof. unfold ends. congruence. Qed.

Lemma ends_assert b : ends (th_assert b).
Proof. by destruct b. Qed.

Lemma ends_option e (o : option A) : e ≠ OutOfFuel → ends (of_option e o).
Proof. destruct o; [done|]. apply ends_err. Qed.

(** A loop over a list whose accumulator is an outcome. *)
Lemma ends_foldl (f : outcome A → B → outcome A) o (l : list B) :
  (∀ o x, ends o → ends (f o x)) → ends o → ends (foldl f o l).
Proof. intros Hf. revert o. induction l as [|x l IH]; intros o Ho; [done|]. apply IH. by apply Hf. Qed.

Lemma ends_fmap (o : outcome A) (f : A → B) : ends o → ends (f <$> o).
Proof. unfold ends. destruct o; [done|]. intros Ho [= ->]. done. Qed.
End outcomes.

Create HintDb ends discriminated.
#[export] Hint Resolve ends_ret ends_mret ends_assert ends_fmap : ends.

Section computations.
Context {S : Type} (I : S → Prop).

(** [P] holds of the result. *)
Definition ending_with {A} (P : A → Prop) (m : ST S A) : Prop := ∀ s, I s →
  match m s with Ret (a, s') => I s' ∧ P a | Err e => e ≠ OutOfFuel end.
Definition ending {A} (m : ST S A) : Prop := ending_with (λ _, True) m.

Lemma ending_with_bind {A B} (P : A → Prop) (Q : B → Prop) (m : ST S A) (f : A → ST S B) :
  ending_with P m → (∀ a, P a → ending_with Q (f a)) → ending_with Q (m ≫= f).
Proof.
  intros Hm Hf s Hs. unfold mbind, ST_bind. pose proof (Hm s Hs) as Hm1. clear Hm. rename Hm1 into Hm.
  destruct (m s) as [[a s']|e]; [|done]. destruct Hm as [Hs' Ha]. by apply Hf.
Qed.

Lemma ending_bind {A B} (Q : B → Prop) (m : ST S A) (f : A → ST S B) :
  ending m → (∀ a, ending_with Q (f a)) → ending_with Q (m ≫= f).
Proof. intros Hm Hf. apply (ending_with_bind (λ _, True)); auto. Qed.

Lemma ending_with_ret {A} (P : A → Prop) (a : A) : P a → ending_with P (mret a).
Proof. by intros Ha s Hs. Qed.

Lemma ending_weaken {A} (P Q : A → Prop) (m : ST S A) :
  (∀ a, P a → Q a) → ending_with P m → ending_with Q m.
Proof.
  intros HP Hm s Hs. specialize (Hm s Hs). destruct (m s) as [[a s']|e]; [|done].
  destruct Hm as [? ?]. split; [done|]. by apply HP.
Qed.

Lemma ending_forget {A} (P : A → Prop) (m : ST S A) : ending_with P m → ending m.
Proof. by apply ending_weaken. Qed.

Lemma ending_get : ending_with I get.
Proof. by intros s Hs. Qed.

Lemma ending_gets {A} (f : S → A) : ending_with (λ a, ∃ s, I s ∧ a = f s) (gets f).
Proof. intros s Hs. cbn. split; [done|]. by exists s. Qed.

Lemma ending_modify (f : S → S) : (∀ s, I s → I (f s)) → ending (modify f).
Proof. intros Hf s Hs. cbn. split; [by apply Hf|done]. Qed.

Lemma ending_lift {A} (P : A → Prop) (o : outcome A) :
  ends o → (∀ a, o = Ret a → P a) → ending_with P (lift o).
Proof. intros Ho HP s Hs. unfold lift. destruct o as [a|e]; [by split; [|apply HP]|]. unfold ends in Ho. congruence. Qed.

Lemma ending_fail {A} (P : A → Prop) e : e ≠ OutOfFuel → ending_with P (@fail S A e).
Proof. by intros He s Hs. Qed.

Lemma ending_when b (m : ST S unit) : (b = true → ending m) → ending (when b m).
Proof. intros Hm. destruct b; [by apply Hm|]. by apply ending_with_ret. Qed.

Lemma ending_for_each {A} (l : list A) (body : A → ST S unit) :
  (∀ x, x ∈ l → ending (body x)) → ending (for_each l body).
Proof.
  induction l as [|x l IH]; intros Hb; [by apply ending_with_ret|]. cbn [for_each]. apply ending_bind.
  - apply Hb. by left.
  - intros _. apply IH. intros y Hy. apply Hb. by right.
Qed.

Lemma ending_fold_each {A B} (P : B → Prop) (l : list A) (acc : B) (body : B → A → ST S B) :
  P acc → (∀ b x, P b → x ∈ l → ending_with P (body b x)) → ending_with P (fold_each l acc body).
Proof.
  revert acc. induction l as [|x l IH]; intros acc Ha Hb; [by apply ending_with_ret|]. cbn [fold_each].
  apply (ending_with_bind P).
  - apply Hb; [done|by left].
  - intros b Hbb. apply IH; [done|]. intros c y Hc Hy. apply Hb; [done|by right].
Qed.
End computations.

(** The head of an application. *)
Ltac head_of t := match t with ?f _ => head_of f | _ => t end.

Ltac ends_step :=
  match goal with
  | |- ends (mbind _ _) => apply ends_bind
  | |- ends (of_option _ _) => apply ends_option; discriminate
  | |- ends (Err _) => apply ends_err; discriminate
  | |- ends (foldl _ _ _) => apply ends_foldl
  | |- ends (match ?x with _ => _ end) => destruct x
  | |- ends _ => solve [eauto with ends]
  | |- ends ?o => let h := head_of o in unfold h
  | |- ∀ _, _ => intros ?
  end.
Ltac ends_tac := repeat ends_step.

(** For computations; what was read from a state has its invariant in the context. *)
Ltac ending_step :=
  match goal with
  | |- ending_with ?I (λ _, True) ?m => change (ending I m)
  | |- ending_with _ _ (mbind _ get) => apply (ending_with_bind _ _ _ _ _ (ending_get _))
  | |- ending_with _ _ (mbind _ (gets _)) => apply (ending_with_bind _ _ _ _ _ (ending_gets _ _)); intros ? (? & ? & ->)
  | |- ending_with _ _ (mbind _ _) => apply ending_bind
  | |- ending _ (mbind _ get) => apply (ending_with_bind _ _ _ _ _ (ending_get _))
  | |- ending _ (mbind _ (gets _)) => apply (ending_with_bind _ _ _ _ _ (ending_gets _ _)); intros ? (? & ? & ->)
  | |- ending _ (mbind _ _) => apply ending_bind
  | |- ending _ (mret _) => apply ending_with_ret; exact Logic.I
  | |- ending _ skip => apply ending_with_ret; exact Logic.I
  | |- ending _ (lift _) => apply ending_lift; [ends_tac|done]
  | |- ending _ (assert_ _) => apply ending_lift; [apply ends_assert|done]
  | |- ending _ (fail _) => apply ending_fail; discriminate
  | |- ending _ (modify _) => apply ending_modify; let Hs := fresh in intros ? Hs; exact Hs
  | |- ending _ (gets _) => apply (ending_forget _ _ _ (ending_gets _ _))
  | |- ending _ get => apply (ending_forget _ _ _ (ending_get _))
  | |- ending _ (when _ _) => apply ending_when; intros ?
  | |- ending _ (for_each _ _) => apply ending_for_each; intros ? _
  | |- ending _ (match ?x with _ => _ end) => destruct x
  | |- ending _ _ => solve [eauto with ends]
  | |- ending _ ?m => let h := head_of m in unfold h
  | |- ∀ _, _ => intros ?
  end.
Ltac ending_tac := repeat ending_step.
