(* ===== verification/Partition.v ===== *)
(** * Partition: the shape of the partition tree and sums of digests
    (src/src/Partition.h, Partition.cc, dsum.h, dsum.cc)

    The memory of the service is divided into blocks, and these are the leaves of a tree
    of partitions.  [Tree] holds the constants that describe its shape: those of the
    default build are [default_tree]; under DYNAMIC_PARTITION_TREE [Dyn.init] computes them
    from the size of the memory.  [TreeOk] is what the state manager relies on, and the
    theorems say which of the two builds establishes it.  [DSum] is the sum of the digests
    of the children of a partition modulo a large integer; the integers of mbedtls are the
    integers they denote, and their encoding is the parameter [Mpi]. *)
From S2P Require Import Prelude Messages.

Definition MAX_PARTITION_LEVELS : Z := 4.
Definition Block_size : Z := 4096.

(** ** The shape of the tree *)
Class Tree := {
  PChildren : Z;
  PLevels : Z;
  PSize : Z → Z;         (* siblings at a level *)
  PLevelSize : Z → Z;    (* partitions at a level *)
  PBlocks : Z → Z;       (* blocks in a partition of a level, as the array is indexed *)
}.

Class TreeOk `{Tree} : Prop := {
  tree_levels : 2 ≤ PLevels ≤ MAX_PARTITION_LEVELS;
  tree_root : PLevelSize 0 = 1;
  tree_siblings l : 1 ≤ l < PLevels → 0 < PSize l;
  tree_level l : 1 ≤ l < PLevels → PLevelSize l = PLevelSize (l - 1) * PSize l;
  tree_int l : 0 ≤ l < PLevels → PLevelSize l < 2 ^ 31;
}.
Arguments TreeOk {_}.

Definition elem (l : list Z) (i : Z) : Z := default 0 (zget l i).

(** The constants without DYNAMIC_PARTITION_TREE. *)
Definition default_tree : Tree := {|
  PChildren := 256;
  PLevels := 4;
  PSize := elem [1; 256; 256; 256];
  PLevelSize := elem [1; 256; 256 * 256; 256 * 256 * 256];
  PBlocks := elem [256 * 256 * 256; 256 * 256; 256; 1];
|}.

#[export] Instance default_tree_ok : TreeOk (H := default_tree).
Proof.
  split; [cbn; unfold MAX_PARTITION_LEVELS; lia|reflexivity|..].
  all: cbn; intros l Hl; assert (l = 0 ∨ l = 1 ∨ l = 2 ∨ l = 3) as [-> | [-> | [-> | ->]]] by lia; vm_compute; intuition lia || done.
Qed.

Section tree.
Context `{Tree}.

(** [num_meta_for_blocks]: the levels from the lowest but one up to the first. *)
Definition num_meta_for_blocks (num_blocks : Z) : Z :=
  (foldr (λ _ '(nodes, num), let nodes := (nodes + PChildren - 1) `div` PChildren in (nodes, num + nodes))
    (num_blocks, 0) (seqZ 1 (PLevels - 1))).2.

Definition blocks (level : Z) : Z := PBlocks (level + (MAX_PARTITION_LEVELS - PLevels)).

(** The parent of a partition and the number of ancestors. *)
Definition parent (l i : Z) : Z := i `div` PSize l.
End tree.

(** ** The shape under DYNAMIC_PARTITION_TREE (Partition.cc) *)
Module Dyn.

(** As many descriptions of sub-partitions as a Meta_data message has room for. *)
Definition children_of (max_message_size sizeof_Meta_data_rep sizeof_Part_info : Z) : Z :=
  (max_message_size - sizeof_Meta_data_rep) `div` sizeof_Part_info.
Definition PChildren : Z := children_of 9000 80 36.

(** The loop that counts the nodes of the levels, from the blocks upwards. *)
Fixpoint count_nodes (fuel : nat) (num_nodes : list Z) (num_levels children : Z) : outcome (list Z * Z) :=
  if children <=? 1 then Ret (num_nodes, num_levels)
  else
    match fuel with
    | O => Err OutOfFuel
    | S fuel =>
        _ ← th_assert (negb (MAX_PARTITION_LEVELS <? num_levels));
        let children := (children + PChildren - 1) `div` PChildren in
        _ ← of_option Undefined (zget num_nodes num_levels);
        count_nodes fuel (zset num_nodes num_levels children) (num_levels + 1) children
    end.

Definition int_mul (a b : Z) : outcome Z := if a * b <=? INT_MAX then Ret (a * b) else Err Undefined.

(** One turn of the loop that fills the arrays. *)
Definition fill_level (num_nodes : list Z) (num_levels : Z) (a : list Z * list Z * list Z) (i : Z)
    : outcome (list Z * list Z * list Z) :=
  let '(psize, plevel, pblocks) := a in
  n ← of_option Undefined (zget num_nodes (num_levels - i - 1));
  let n := to_int n in
  s ← int_mul (elem plevel (i - 1)) n;
  b ← int_mul n (elem pblocks (num_levels - i));
  Ret (zset psize i n, zset plevel i s, zset pblocks (num_levels - i - 1) b).

Definition tree_of (num_levels : Z) (a : list Z * list Z * list Z) : Tree := {|
  Partition.PChildren := PChildren; PLevels := num_levels;
  PSize := elem a.1.1; PLevelSize := elem a.1.2; PBlocks := elem a.2 |}.

(** [partition::init] *)
Definition init (mem_size : Z) : outcome Tree :=
  _ ← th_assert (mem_size `mod` Block_size =? 0);
  let num_blocks := mem_size `div` Block_size in
  _ ← th_assert (1 <=? num_blocks);
  '(num_nodes, num_levels) ← count_nodes 6 [num_blocks; 0; 0; 0] 1 num_blocks;
  a ← foldl (λ o i, a ← o; fill_level num_nodes num_levels a i)
        (Ret ([1; 0; 0; 0], [1; 0; 0; 0], zset [0; 0; 0; 0] (num_levels - 1) 1)) (seqZ 1 (num_levels - 1));
  Ret (tree_of num_levels a).
End Dyn.

(** ** Sums of digests *)
Class Mpi := {
  mpi_read : list Z → Z;     (* mbedtls_mpi_read_binary *)
  mpi_write : Z → list Z;    (* mbedtls_mpi_write_binary, in DSum::nbytes bytes *)
}.

(** A number read from 32 bytes has at most 256 bits. *)
Class MpiOk `{Mpi} : Prop := mpi_read_range : ∀ l, zlen l = 32 → 0 ≤ mpi_read l < 2 ^ 256.
Arguments MpiOk {_}.

Module DSum.
Section dsum.
Context `{Mpi}.

Definition nbits : Z := 512.
Definition nbytes : Z := 64.

(** The modulus that the constructor of [State] passes to [DSum::init]. *)
Definition M : Z :=
  0xDF8A46D4E777C4B3090A3389839E4F8653C4B6CFFFEA2A8D81DEDF1149D11D558C54BFB676FCFE28BCC07ABA057CAB9F.

(** A sum object with value 0. *)
Definition zero : Z := 0.

Definition of_digest (d : Dig.Digest) : Z := mpi_read (Dig.bytes_of d).

Definition add (sum : Z) (d : Dig.Digest) : outcome Z :=
  let s := sum + of_digest d in
  let s := if M <=? s then s - M else s in
  _ ← th_assert (s <? 2 ^ nbits);
  Ret s.

Definition sub (sum : Z) (d : Dig.Digest) : outcome Z :=
  let x := of_digest d in
  let s := (if sum <? x then sum + M else sum) - x in
  _ ← th_assert (-1 <? s);
  Ret s.

(** [mbedtls_mpi_write_binary] and the check of its result. *)
Definition bytes (sum : Z) : outcome (list Z) := _ ← th_assert (sum <? 2 ^ nbits); Ret (mpi_write sum).

(** *** The group of sums *)
Definition ok (s : Z) : Prop := 0 ≤ s < M.

Lemma modulus_range : 2 ^ 383 < M < 2 ^ 384.
Proof. split; vm_compute; reflexivity. Qed.

Context `{!MpiOk}.

Lemma of_digest_range d : 0 ≤ of_digest d < M.
Proof.
  assert (zlen (Dig.bytes_of d) = 32) as Hl.
  { destruct (Dig.digest_wf d) as [Hl _]. unfold Dig.bytes_of, zlen. revert Hl.
    destruct (Dig.d d) as [|a0 [|a1 [|a2 [|a3 [|a4 [|a5 [|a6 [|a7 [|]]]]]]]]]; done. }
  pose proof modulus_range. pose proof (Z.pow_le_mono_r 2 256 383 ltac:(lia) ltac:(lia)).
  pose proof (mpi_read_range _ Hl). unfold of_digest. lia.
Qed.

Lemma add_mod s d : ok s → add s d = Ret ((s + of_digest d) `mod` M).
Proof.
  unfold ok, add. intros Hs. pose proof (of_digest_range d). pose proof modulus_range.
  pose proof (Z.pow_lt_mono_r 2 384 nbits ltac:(lia) ltac:(unfold nbits; lia) ltac:(unfold nbits; lia)).
  destruct (M <=? s + of_digest d) eqn:E; zprop.
  - rewrite (proj2 (Z.ltb_lt (s + of_digest d - M) _)) by lia. cbn. f_equal.
    apply (Z.mod_unique _ _ 1); lia.
  - rewrite (proj2 (Z.ltb_lt (s + of_digest d) _)) by lia. cbn. f_equal. symmetry. apply Z.mod_small. lia.
Qed.

Lemma sub_mod s d : ok s → sub s d = Ret ((s - of_digest d) `mod` M).
Proof.
  unfold ok, sub. intros Hs. pose proof (of_digest_range d).
  destruct (s <? of_digest d) eqn:E; zprop.
  - rewrite (proj2 (Z.ltb_lt (-1) (s + M - of_digest d))) by lia. cbn. f_equal.
    apply (Z.mod_unique _ _ (-1)); lia.
  - rewrite (proj2 (Z.ltb_lt (-1) (s - of_digest d))) by lia. cbn. f_equal. symmetry. apply Z.mod_small. lia.
Qed.

Lemma mod_ok z : ok (z `mod` M).
Proof. apply Z.mod_pos_bound. pose proof modulus_range. lia. Qed.

Lemma bytes_ok s : ok s → bytes s = Ret (mpi_write s).
Proof.
  unfold ok, bytes. intros Hs. pose proof modulus_range.
  pose proof (Z.pow_lt_mono_r 2 384 nbits ltac:(lia) ltac:(unfold nbits; lia) ltac:(unfold nbits; lia)).
  by rewrite (proj2 (Z.ltb_lt s _)) by lia.
Qed.
End dsum.
End DSum.
