(* ===== verification/StateMsgs.v ===== *)
(** * StateMsgs: the messages of the state transfer
    (src/src/Fetch.{h,cc}, Data.{h,cc}, Meta_data.{h,cc}, Meta_data_d.{h,cc})

    A Fetch asks for a partition, a Data message holds a block, a Meta_data message the
    digests of the sub-partitions of a partition, and a Meta_data_d message the digests of
    one partition at the checkpoints that its sender has.  A Fetch carries an
    authenticator made with the in-keys of its sender, and a Meta_data_d message the code
    for one receiver; the other two are not authenticated.  NO_STATE_TRANSLATION is
    defined, as in State_defs.h. *)
From S2P Require Import Prelude Node Bitmap Messages PrePrepare Partition.
Import HmacModel Auth.

Module SM.
Section messages.
Context `{Config} `{Tree}.

(** ** Fetch *)
Record Fetch := mkFetchMsg {
  f_extra : Z; f_size : Z;
  f_rid : Z; f_level : Z; f_index : Z;
  f_lu : Z;        (* information is up-to-date till this number *)
  f_rc : Z;        (* specific checkpoint requested, or -1 *)
  f_repid : Z;     (* designated replier *)
  f_id : Z;
  f_auth : list Z;
}.

Definition Fetch_tag : Z := 15.
Definition sizeof_Fetch_rep : Z := 48.

Definition fetch_bytes (m : Fetch) : list Z :=
  Msg.header_bytes Fetch_tag (f_extra m) (f_size m) ++ Msg.le 8 (f_rid m) ++ Msg.le 4 (f_level m) ++
  Msg.le 4 (f_index m) ++ Msg.le 8 (f_lu m) ++ Msg.le 8 (f_rc m) ++ Msg.le 4 (f_repid m) ++ Msg.le 4 (f_id m).

Definition with_auth (m : Fetch) (a : list Z) : Fetch :=
  mkFetchMsg (f_extra m) (f_size m) (f_rid m) (f_level m) (f_index m) (f_lu m) (f_rc m) (f_repid m) (f_id m) a.

Section auth.
Context (hmac_md : list Z → list Z → list Z) (char_signed : bool).

Definition new_fetch (ps : list Principal) (rid lu level index rc repid : Z) : outcome Fetch :=
  let m := mkFetchMsg 0 (Msg.ALIGNED_SIZE (sizeof_Fetch_rep + auth_size (-1))) rid level index lu rc repid node_id [] in
  a ← gen_auth hmac_md ps (fetch_bytes m) true;
  Ret (with_auth m a).

Definition fetch_re_authenticate (ps : list Principal) (m : Fetch) : outcome Fetch :=
  a ← gen_auth hmac_md ps (fetch_bytes m) true; Ret (with_auth m a).

Definition fetch_verify (ps : list Principal) (m : Fetch) : outcome bool :=
  if negb (is_replica (f_id m)) then Ret false
  else if (f_level m <? 0) || (PLevels <=? f_level m) then Ret false
  else if (f_index m <? 0) || (PLevelSize (f_level m) <=? f_index m) then Ret false
  else if (f_rc m =? -1) && negb (f_repid m =? -1) then Ret false
  else if f_size m - sizeof_Fetch_rep <? auth_size (f_id m) then Ret false
  else verify_auth hmac_md char_signed ps (f_id m) (fetch_bytes m) false (f_auth m).
End auth.

(** ** Data *)
Record Data := mkData { d_size : Z; d_index : Z; d_lm : Z; d_data : list Z }.

Definition Data_tag : Z := 14.
Definition sizeof_Data_rep : Z := 24 + Block_size.

Definition new_data (i lm : Z) (b : list Z) : Data := mkData (Msg.ALIGNED_SIZE sizeof_Data_rep) i lm b.

(** ** Meta_data *)

(** [md_np] is the count that the message claims, [md_parts] the whole entries that its
    storage holds. *)
Record Meta_data := mkMd {
  md_size : Z; md_rid : Z; md_lu : Z; md_lm : Z; md_l : Z; md_i : Z; md_d : Dig.Digest; md_id : Z;
  md_np : Z; md_parts : list (Z * Dig.Digest);
}.

Definition Meta_data_tag : Z := 12.
Definition sizeof_Meta_data_rep : Z := 80.
Definition sizeof_Part_info : Z := 36.

Definition new_meta_data (r l i lu lm : Z) (d : Dig.Digest) : outcome Meta_data :=
  _ ← th_assert (l <? PLevels);
  _ ← th_assert (i <? PLevelSize l);
  Ret (mkMd sizeof_Meta_data_rep r lu lm l i d node_id 0 []).

(** The entry is written at the end of the array and the size set after it; the storage
    has [Max_message_size] bytes. *)
Definition add_sub_part (m : Meta_data) (i : Z) (d : Dig.Digest) : outcome Meta_data :=
  let n := sizeof_Meta_data_rep + (md_np m + 1) * sizeof_Part_info in
  if PP.Max_message_size <? n then Err Undefined
  else
    _ ← th_assert (Msg.ALIGNED_SIZE n <=? PP.Max_message_size);
    Ret (mkMd (Msg.ALIGNED_SIZE n) (md_rid m) (md_lu m) (md_lm m) (md_l m) (md_i m) (md_d m) (md_id m)
           (md_np m + 1) (md_parts m ++ [(i, d)])).

(** *** The iterator over the sub-partitions *)
Definition first_sub (m : Meta_data) : Z :=
  if md_l m =? PLevels - 1 then md_i m else md_i m * PSize (md_l m + 1).
Definition num_subs (m : Meta_data) : Z := if md_l m =? PLevels - 1 then 1 else PSize (md_l m + 1).

(** [Sub_parts_iter::get] at the sub-partition [index]; [cur_mod] entries were used. *)
Definition iter_get (m : Meta_data) (index cur_mod : Z) : outcome (Dig.Digest * Z) :=
  if cur_mod <? md_np m then
    '(i, d) ← of_option Undefined (zget (md_parts m) cur_mod);
    if index <? i then Ret (Dig.zero, cur_mod)
    else _ ← th_assert (index =? i); Ret (d, cur_mod + 1)
  else Ret (Dig.zero, cur_mod).

(** [while (iter.get(index, d)) { if (stop) break; ... }] *)
Fixpoint iter_until (stop : Z → bool) (m : Meta_data) (l : list Z) (cur_mod : Z) : outcome (list (Z * Dig.Digest)) :=
  match l with
  | [] => Ret []
  | index :: l =>
      '(d, cur_mod) ← iter_get m index cur_mod;
      if stop index then Ret [] else rest ← iter_until stop m l cur_mod; Ret ((index, d) :: rest)
  end.

Definition sub_parts (stop : Z → bool) (m : Meta_data) : outcome (list (Z * Dig.Digest)) :=
  iter_until stop m (seqZ (first_sub m) (num_subs m)) 0.

(** The loop of [verify] over the entries. *)
Fixpoint entries_ok (min max : Z) (seen : BM.Bitmap) (parts : list (Z * Dig.Digest)) (l : list Z) : outcome bool :=
  match l with
  | [] => Ret true
  | k :: l =>
      '(si, _) ← of_option Undefined (zget parts k);
      if (si <? min) || (max <=? si) then Ret false
      else
        t ← BM.test seen (si - min);
        if t : bool then Ret false else seen ← BM.set seen (si - min); entries_ok min max seen parts l
  end.

Definition meta_data_verify (m : Meta_data) : outcome bool :=
  if negb (is_replica (md_id m)) || (node_id =? md_id m) then Ret false
  else if (md_l m <? 0) || (PLevels - 1 <=? md_l m) then Ret false
  else if (md_i m <? 0) || (PLevelSize (md_l m) <=? md_i m) then Ret false
  else if (1 <? md_np m) && (PSize (md_l m + 1) <? md_np m) then Ret false
  else if md_lu m <? md_lm m then Ret false
  else if md_size m <? Msg.ALIGNED_SIZE (to_int (sizeof_Meta_data_rep + md_np m * sizeof_Part_info)) then Ret false
  else
    let min := md_i m * PSize (md_l m + 1) in
    let max := min + PSize (md_l m + 1) in
    entries_ok min max (BM.make (max - min) false) (md_parts m) (seqZ 0 (md_np m)).

(** ** Meta_data_d *)
Record Meta_data_d := mkMdd {
  mdd_extra : Z; mdd_size : Z; mdd_rid : Z; mdd_ls : Z; mdd_l : Z; mdd_i : Z;
  mdd_digests : list Dig.Digest; mdd_n_digests : Z; mdd_id : Z; mdd_mac : list Z;
}.

Definition Meta_data_d_tag : Z := 13.
Definition num_slots : Z := max_out `div` checkpoint_interval + 1.

(** The header, three words of the fixed part, the digests, and two counts, padded. *)
Definition sizeof_Meta_data_d_rep : Z := Msg.ALIGNED_SIZE (32 + 32 * num_slots + 8).

Definition new_meta_data_d (r l i ls : Z) : outcome Meta_data_d :=
  _ ← th_assert (l <? PLevels);
  _ ← th_assert (i <? PLevelSize l);
  Ret (mkMdd 0 (Msg.ALIGNED_SIZE (sizeof_Meta_data_d_rep + HMAC_size)) r ls l i
         (replicate (Z.to_nat num_slots) Dig.zero) 0 node_id []).

Definition slot_of (m : Meta_data_d) (n : Z) : Z := to_int (Z.quot (n - mdd_ls m) checkpoint_interval).

Definition add_digest (m : Meta_data_d) (n : Z) (d : Dig.Digest) : outcome Meta_data_d :=
  _ ← th_assert (Z.rem n checkpoint_interval =? 0);
  _ ← th_assert ((mdd_ls m <=? n) && (n <=? mdd_ls m + max_out));
  let index := slot_of m n in
  _ ← of_option Undefined (zget (mdd_digests m) index);
  Ret (mkMdd (mdd_extra m) (mdd_size m) (mdd_rid m) (mdd_ls m) (mdd_l m) (mdd_i m) (zset (mdd_digests m) index d)
         (if mdd_n_digests m <=? index then index + 1 else mdd_n_digests m) (mdd_id m) (mdd_mac m)).

(** [digest(n, d)]: [None] is the result [false].  A negative index reads in front of the
    array. *)
Definition mdd_digest (m : Meta_data_d) (n : Z) : outcome (option Dig.Digest) :=
  if negb (Z.rem n checkpoint_interval =? 0) || (n <? mdd_ls m) then Ret None
  else
    let index := slot_of m n in
    if mdd_n_digests m <=? index then Ret None
    else
      d ← of_option Undefined (zget (mdd_digests m) index);
      Ret (if Dig.is_zero d then None else Some d).

Definition last_checkpoint (m : Meta_data_d) : Z := mdd_ls m + (mdd_n_digests m - 1) * checkpoint_interval.

Definition mdd_bytes (m : Meta_data_d) : list Z :=
  let body := Msg.header_bytes Meta_data_d_tag (mdd_extra m) (mdd_size m) ++ Msg.le 8 (mdd_rid m) ++ Msg.le 8 (mdd_ls m) ++
    Msg.le 4 (mdd_l m) ++ Msg.le 4 (mdd_i m) ++ (mdd_digests m ≫= Dig.bytes_of) ++
    Msg.le 4 (mdd_n_digests m) ++ Msg.le 4 (mdd_id m) in
  body ++ replicate (Z.to_nat (sizeof_Meta_data_d_rep - zlen body)) 0.

Definition mdd_authenticate (hmac_md : list Z → list Z → list Z) (p : Principal) (m : Meta_data_d) : Meta_data_d :=
  let m := mkMdd (mdd_extra m) (Msg.ALIGNED_SIZE (sizeof_Meta_data_d_rep + HMAC_size)) (mdd_rid m) (mdd_ls m) (mdd_l m) (mdd_i m)
             (mdd_digests m) (mdd_n_digests m) (mdd_id m) [] in
  mkMdd (mdd_extra m) (mdd_size m) (mdd_rid m) (mdd_ls m) (mdd_l m) (mdd_i m) (mdd_digests m) (mdd_n_digests m)
    (mdd_id m) (gen_mac_out hmac_md p (mdd_bytes m)).

Definition mdd_verify (hmac_md : list Z → list Z → list Z) (char_signed : bool) (ps : list Principal)
    (m : Meta_data_d) : outcome bool :=
  if negb (is_replica (mdd_id m)) || (node_id =? mdd_id m) || (mdd_ls m <? 0) then Ret false
  else if (mdd_l m <? 0) || (PLevels <=? mdd_l m) then Ret false
  else if (mdd_i m <? 0) || (PLevelSize (mdd_l m) <=? mdd_i m) then Ret false
  else if (mdd_n_digests m <? 1) || (num_slots <=? mdd_n_digests m) then Ret false
  else if mdd_size m <? Msg.ALIGNED_SIZE (sizeof_Meta_data_d_rep + HMAC_size) then Ret false
  else
    match i_to_p ps (mdd_id m) with
    | Some p => Ret (verify_mac_in hmac_md char_signed p (mdd_bytes m) (take (Z.to_nat HMAC_size) (mdd_mac m)))
    | None => Ret false
    end.
End messages.
End SM.
