(* ===== verification/MetaDataCert.v ===== *)
(** * MetaDataCert: certificates for the digest of a partition
    (src/src/Meta_data_cert.{h,cc})

    While the state is fetched, the Meta_data_d messages of the replicas are collected in a
    [Meta_data_cert]: [vals] counts for each pair of a checkpoint and a digest the replicas
    whose last message has it, and a pair with [f + 1] of them is correct.  The array [vals]
    has [max_size] elements, of which the first [cur_size] are used. *)
From S2P Require Import Prelude Node KMax Messages Partition StateMsgs.
Import SM.

Module MDC.
Section cert.
Context `{Config} `{Tree}.

Record Part_val := mkVal { v_d : Dig.Digest; v_c : Z; v_count : Z }.

Definition clear_val (x : Part_val) : Part_val := mkVal (v_d x) (-1) 0.

Record Meta_data_cert := mkMdc {
  last_mdds : list (option Meta_data_d);
  last_stables : list Z;
  ls : Z;
  vals : list Part_val;
  cur_size : Z;
  c : Z;
  d : Dig.Digest;
  has_my_message : bool;
}.

Definition correct : Z := max_faulty + 1.
Definition max_size : Z := num_replicas * num_slots.

Definition make : Meta_data_cert :=
  mkMdc (replicate (Z.to_nat num_replicas) None) (replicate (Z.to_nat num_replicas) 0) 0
    (replicate (Z.to_nat max_size) (mkVal Dig.zero (-1) 0)) 0 (-1) Dig.zero false.

Definition clear (x : Meta_data_cert) : Meta_data_cert :=
  mkMdc (replicate (Z.to_nat num_replicas) None) (replicate (Z.to_nat num_replicas) 0) 0
    ((clear_val <$> take (Z.to_nat (cur_size x)) (vals x)) ++ drop (Z.to_nat (cur_size x)) (vals x)) 0 (-1) (d x) false.

Definition has_mine (x : Meta_data_cert) : bool := has_my_message x.
Definition cvalue (x : Meta_data_cert) : option (Z * Dig.Digest) := if c x <? 0 then None else Some (c x, d x).
Definition last_stable (x : Meta_data_cert) : Z := ls x.

(** ** The loop over the values *)
Record loop_st := mkLoop { l_vals : list Part_val; l_size : Z; l_matched : list bool; l_c : Z; l_d : Dig.Digest }.

(** [do { if (i < cur_size - 1) val = vals[cur_size - 1]; vals[cur_size - 1].clear();
    cur_size--; } while (val.c < ls && cur_size > 0)] *)
Fixpoint drop_values (fuel : nat) (ls i : Z) (vs : list Part_val) (sz : Z) : outcome (list Part_val * Z) :=
  match fuel with
  | O => Err OutOfFuel
  | S fuel =>
      last ← of_option Undefined (zget vs (sz - 1));
      _ ← th_assert (negb (i <? sz - 1) || (0 <=? v_c last));
      let vs := if i <? sz - 1 then zset vs i last else vs in
      x ← of_option Undefined (zget vs (sz - 1));
      let vs := zset vs (sz - 1) (clear_val x) in
      let sz := sz - 1 in
      val ← of_option Undefined (zget vs i);
      if (v_c val <? ls) && (0 <? sz) then drop_values fuel ls i vs sz else Ret (vs, sz)
  end.

(** The digest of the message [o] for the checkpoint of the value. *)
Definition agrees (o : option Meta_data_d) (val : Part_val) : outcome bool :=
  match o with
  | None => Ret false
  | Some m =>
      r ← mdd_digest m (v_c val);
      Ret (match r with Some md => Dig.operator_eq md (v_d val) | None => false end)
  end.

Definition with_count (val : Part_val) (n : Z) : Part_val := mkVal (v_d val) (v_c val) n.

(** The body of the loop at [i]. *)
Definition visit (ls : Z) (om : option Meta_data_d) (m : Meta_data_d) (i : Z) (s : loop_st) : outcome loop_st :=
  val ← of_option Undefined (zget (l_vals s) i);
  old ← agrees om val;
  let val := if old : bool then with_count val (v_count val - 1) else val in
  new ← (agrees (Some m) val : outcome bool);
  matched ← (if new : bool then
               let k := Z.quot (v_c val - mdd_ls m) checkpoint_interval in
               _ ← of_option Undefined (zget (l_matched s) k);
               Ret (zset (l_matched s) k true)
             else Ret (l_matched s));
  let val := if (new : bool) then with_count val (v_count val + 1) else val in
  let vs := zset (l_vals s) i val in
  if (v_count val =? 0) || (v_c val <? ls) then
    '(vs, sz) ← drop_values (S (length vs)) ls i vs (l_size s);
    Ret (mkLoop vs sz matched (l_c s) (l_d s))
  else if (correct <=? v_count val) && (l_c s <? v_c val) then
    Ret (mkLoop vs (l_size s) matched (v_c val) (v_d val))
  else Ret (mkLoop vs (l_size s) matched (l_c s) (l_d s)).

(** [for (int i = 0; i < cur_size; i++)] *)
Fixpoint visit_all (fuel : nat) (ls : Z) (om : option Meta_data_d) (m : Meta_data_d) (i : Z) (s : loop_st)
    : outcome loop_st :=
  if l_size s <=? i then Ret s
  else
    match fuel with
    | O => Err OutOfFuel
    | S fuel => s ← visit ls om m i s; visit_all fuel ls om m (i + 1) s
    end.

(** The digests of the message that no value had: a new value at [cur_size] for each. *)
Definition append_val (m : Meta_data_d) (matched : list bool) (s : list Part_val * Z) (k : Z)
    : outcome (list Part_val * Z) :=
  let n := mdd_ls m + k * checkpoint_interval in
  b ← of_option Undefined (zget matched k);
  if b : bool then Ret s
  else
    o ← mdd_digest m n;
    match o with
    | None => Ret s
    | Some d1 => _ ← th_assert (s.2 <? max_size); Ret (zset s.1 s.2 (mkVal d1 n 1), s.2 + 1)
    end.

Definition append_vals (m : Meta_data_d) (matched : list bool) (vs : list Part_val) (sz : Z)
    : outcome (list Part_val * Z) :=
  foldl (λ o k, s ← o; append_val m matched s k) (Ret (vs, sz)) (seqZ 0 (mdd_n_digests m)).

(** [add(m, mine)]; [verify] is the verdict on the message.  With STATIC_LOG_ALLOCATOR the
    messages of a replica share one storage ([persist]): the old message is then the new
    one, once this has been stored ([shared]). *)
Definition add_with (shared : bool) (verify : Meta_data_d → outcome bool) (x : Meta_data_cert) (m : Meta_data_d) (mine : bool)
    : outcome (bool * Meta_data_cert) :=
  let hm := mine || has_my_message x in
  ok ← (if mine then Ret true else verify m);
  if negb ok then Ret (false, mkMdc (last_mdds x) (last_stables x) (ls x) (vals x) (cur_size x) (c x) (d x) hm)
  else
    _ ← th_assert (mine || negb (mdd_id m =? node_id));
    om ← of_option Undefined (zget (last_mdds x) (mdd_id m));
    if match om with Some o => last_checkpoint m <=? last_checkpoint o | None => false end
    then Ret (false, mkMdc (last_mdds x) (last_stables x) (ls x) (vals x) (cur_size x) (c x) (d x) hm)
    else
      let om := if shared then (_ ← om; Some m) else om in
      new_ls ← (if ls x <? mdd_ls m
                then K_max (S (length (last_stables x))) (max_faulty + 1) (last_stables x) Seqno_max
                else Ret (ls x));
      if negb (ls x <? mdd_ls m) && (mdd_ls m <? ls x) then
        Ret (false, mkMdc (zset (last_mdds x) (mdd_id m) None) (last_stables x) (ls x) (vals x) (cur_size x) (c x) (d x) hm)
      else
        s ← visit_all (S (Z.to_nat (cur_size x))) new_ls om m 0
              (mkLoop (vals x) (cur_size x) (replicate (Z.to_nat num_slots) false) (c x) (d x));
        '(vs, sz) ← append_vals m (l_matched s) (l_vals s) (l_size s);
        Ret (true, mkMdc (zset (last_mdds x) (mdd_id m) (Some m)) (last_stables x) new_ls vs sz (l_c s) (l_d s) hm).

(** The default build and the one with static storage. *)
Definition add := add_with false.
Definition add_static := add_with true.
End cert.
End MDC.
