(* ===== verification/State.v ===== *)
(** * State: the memory of the service and its checkpoints
    (src/src/State.{h,cc}, Part.h, Checkpoint_rec.{h,cc}, Modify.h)

    The state manager keeps the current value of every block; a checkpoint saves nothing by
    itself: the first write to a block after it copies the old value into the record of the
    last checkpoint ([cow_single]), and the next checkpoint does the same with the changed
    partitions of the tree ([update_ptree]).  A block of an old checkpoint is therefore the
    current one, or the first copy in the records from that checkpoint on ([get_data]).

    The fields are those of the default build: the records are [Checkpoint_rec] objects in
    a [Log] of [2 * max_out] entries.  The map of a record is a finite map; its hash function
    is not modelled.  Arrays of the tree are lists, and an access outside of them is
    [Undefined].  The transfer of the state is in StateFetch.v. *)
From stdpp Require Import gmap.
From S2P Require Import Prelude Node Bitmap SeqLog Messages StateMonad Partition.
#[local] Open Scope Z_scope.

Definition Block : Type := list Z.

Record Part := mkPart { lm : Z; d : Dig.Digest }.

(** Copies in a checkpoint record: of a partition, or of a leaf with its block. *)
Inductive copy := PartCopy (p : Part) | BlockCopy (p : Part) (b : Block).
Definition copy_part (x : copy) : Part := match x with PartCopy p => p | BlockCopy p _ => p end.

(** ** Checkpoint_rec *)
Module CRec.
Record Checkpoint_rec := mkRec { sd : Dig.Digest; parts : gmap (Z * Z) copy }.

Definition make : Checkpoint_rec := mkRec Dig.zero ∅.
Definition is_cleared (r : Checkpoint_rec) : bool := Dig.is_zero (sd r).
Definition clear (r : Checkpoint_rec) : Checkpoint_rec := if is_cleared r then r else make.
Definition set_sd (x : Dig.Digest) (r : Checkpoint_rec) : Checkpoint_rec := mkRec x (parts r).

Definition append (l i : Z) (p : copy) (r : Checkpoint_rec) : outcome Checkpoint_rec :=
  _ ← th_assert (bool_decide (parts r !! (l, i) = None));
  Ret (mkRec (sd r) (<[(l, i) := p]> (parts r))).
Definition appendr (l i : Z) (p : copy) (r : Checkpoint_rec) : outcome Checkpoint_rec :=
  if bool_decide (parts r !! (l, i) = None) then append l i p r else Ret r.
Definition fetch (l i : Z) (r : Checkpoint_rec) : option copy := parts r !! (l, i).
Definition num_entries (r : Checkpoint_rec) : Z := Z.of_nat (size (parts r)).
End CRec.

(** [Digest::set_state_block] *)
Definition state_block_bytes (data : list Z) (i last_modified : Z) : list Z :=
  Msg.le 4 i ++ Msg.le 8 last_modified ++ data.

(** The checkpoints from [c] to [lc] that the loops of the code visit. *)
Definition ckpts_from `{Config} (c lc : Z) : list Z :=
  (λ k, c + k * checkpoint_interval) <$> seqZ 0 ((lc - c) `div` checkpoint_interval + 1).

Module State.
Section state.
Context `{Config} `{Tree} `{Mpi} (digest_of : list Z → Dig.Digest).

Record Store := mkStore {
  mem : list Block; nb : Z; cowb : BM.Bitmap;
  ptree : list (list Part); stree : list (list Z);
  clog : Log.t CRec.Checkpoint_rec; lc : Z;
}.

Definition leaf : Z := PLevels - 1.

(** The constructor, on the memory of the service. *)
Definition make (memory : list Block) : Store :=
  let nb := zlen memory in
  mkStore memory nb (BM.make nb false)
    ((λ l, replicate (Z.to_nat (if l =? leaf then nb else PLevelSize l)) (mkPart 0 Dig.zero)) <$> seqZ 0 PLevels)
    ((λ l, replicate (Z.to_nat (PLevelSize l)) DSum.zero) <$> seqZ 0 leaf)
    (Log.make (max_out * 2) 0 CRec.make) 0.

Definition set_mem (x : list Block) (s : Store) : Store :=
  mkStore x (nb s) (cowb s) (ptree s) (stree s) (clog s) (lc s).
Definition set_cowb (x : BM.Bitmap) (s : Store) : Store :=
  mkStore (mem s) (nb s) x (ptree s) (stree s) (clog s) (lc s).
Definition set_ptree (x : list (list Part)) (s : Store) : Store :=
  mkStore (mem s) (nb s) (cowb s) x (stree s) (clog s) (lc s).
Definition set_stree (x : list (list Z)) (s : Store) : Store :=
  mkStore (mem s) (nb s) (cowb s) (ptree s) x (clog s) (lc s).
Definition set_clog (x : Log.t CRec.Checkpoint_rec) (s : Store) : Store :=
  mkStore (mem s) (nb s) (cowb s) (ptree s) (stree s) x (lc s).
Definition set_lc (x : Z) (s : Store) : Store :=
  mkStore (mem s) (nb s) (cowb s) (ptree s) (stree s) (clog s) x.

Definition M (A : Type) : Type := ST Store A.

(** *** Entries of the arrays *)
Definition at2 {A} (a : list (list A)) (l i : Z) : option A := row ← zget a l; zget row i.
Definition set2 {A} (a : list (list A)) (l i : Z) (x : A) : list (list A) :=
  match zget a l with Some row => zset a l (zset row i x) | None => a end.

Definition part (l i : Z) : ST Store Part := s ← get; lift (of_option Undefined (at2 (ptree s) l i)).
Definition part_to (l i : Z) (p : Part) : ST Store unit :=
  _ ← part l i; modify (λ s, set_ptree (set2 (ptree s) l i p) s).
Definition sum (l i : Z) : ST Store Z := s ← get; lift (of_option Undefined (at2 (stree s) l i)).
Definition sum_to (l i : Z) (x : Z) : ST Store unit :=
  _ ← sum l i; modify (λ s, set_stree (set2 (stree s) l i x) s).
Definition block (i : Z) : ST Store Block := s ← get; lift (of_option Undefined (zget (mem s) i)).
Definition block_to (i : Z) (b : Block) : ST Store unit :=
  _ ← block i; modify (λ s, set_mem (zset (mem s) i b) s).

Definition sum_add (l i : Z) (x : Dig.Digest) : ST Store unit := v ← sum l i; v ← lift (DSum.add v x); sum_to l i v.
Definition sum_sub (l i : Z) (x : Dig.Digest) : ST Store unit := v ← sum l i; v ← lift (DSum.sub v x); sum_to l i v.

(** *** Records: [clog.fetch(n).method(...)] *)
Definition record (n : Z) : ST Store CRec.Checkpoint_rec := s ← get; lift (Log.fetch (clog s) n).
Definition with_record (n : Z) (f : CRec.Checkpoint_rec → outcome CRec.Checkpoint_rec) : ST Store unit :=
  r ← record n; r ← lift (f r); modify (λ s, set_clog (Log.store (clog s) n r) s).

(** ** Copy on write *)
Definition cow_single (i : Z) : ST Store unit :=
  s ← get;
  _ ← assert_ ((0 <=? i) && (i <? nb s));
  p ← part leaf i;
  b ← block i;
  _ ← with_record (lc s) (CRec.append leaf i (BlockCopy p b));
  c ← lift (BM.set (cowb s) i);
  modify (set_cowb c).

Definition cow_block (bindex : Z) : ST Store unit :=
  s ← get; t ← lift (BM.test (cowb s) bindex); when (negb t) (cow_single bindex).

(** [cow(m, size)] for the [m] that is [off] bytes behind the start of the memory. *)
Definition cow (off size : Z) : ST Store unit :=
  s ← get;
  _ ← assert_ ((0 <? off) && (off + size <=? nb s * Block_size));
  if size <=? 0 then skip
  else
    let low := off `div` Block_size in
    let high := (off + size - 1) `div` Block_size in
    for_each (seqZ low (high - low + 1)) cow_block.

(** The macros of Modify.h test the bits without calling the bitmap. *)
Definition cow_bit (bindex : Z) : ST Store bool :=
  s ← get;
  c ← lift (of_option Undefined (zget (BM.chunks (cowb s)) (bindex `div` 64)));
  mret (Z.testbit c (bindex `mod` 64)).

Definition modify1 (off : Z) : ST Store unit :=
  let bindex := off `div` Block_size in
  t ← cow_bit bindex; when (negb t) (cow_single bindex).

Definition modify2 (off size : Z) : ST Store unit :=
  t1 ← cow_bit (off `div` Block_size);
  t2 ← cow_bit ((off + size - 1) `div` Block_size);
  when (negb t1 || negb t2) (cow off size).

(** ** Digests *)
Definition state_block (data : list Z) (i last_modified : Z) : Dig.Digest :=
  digest_of (state_block_bytes data i last_modified).

Definition digest (l i : Z) : ST Store Dig.Digest :=
  data ← (if l =? leaf then
            s ← get; _ ← assert_ ((0 <=? i) && (i <? nb s)); block i
          else v ← sum l i; lift (DSum.bytes v));
  p ← part l i;
  mret (state_block data i (lm p)).

(** The new digest of a partition. *)
Definition redigest (l i : Z) : ST Store Dig.Digest :=
  x ← digest l i; p ← part l i; _ ← part_to l i (mkPart (lm p) x); mret x.

(** [update_ptree]: the body of the inner loop... *)
Definition update_part (n l i : Z) : ST Store unit :=
  s ← get;
  p ← part l i;
  _ ← when (l <? leaf) (with_record (lc s) (CRec.append l i (PartCopy p)));
  _ ← sum_sub (l - 1) (i `div` PSize l) (d p);
  _ ← part_to l i (mkPart n (d p));
  x ← redigest l i;
  sum_add (l - 1) (i `div` PSize l) x.

(** ... the inner loop, which marks the parents... *)
Definition update_level (n l : Z) (mods : BM.Bitmap) : ST Store BM.Bitmap :=
  idx ← lift (BM.iter_all (S (Z.to_nat (BM.num mods))) mods (BM.make_iter true));
  fold_each idx (BM.make (PLevelSize (l - 1)) false) (λ up i,
    _ ← update_part n l i; lift (BM.set up (i `div` PSize l))).

Definition update_root (n : Z) : ST Store unit :=
  s ← get;
  p ← part 0 0;
  _ ← with_record (lc s) (CRec.append 0 0 (PartCopy p));
  _ ← part_to 0 0 (mkPart n (d p));
  _ ← redigest 0 0; skip.

(** ... and the outer loop, from the leaves up. *)
Definition levels_up : list Z := reverse (seqZ 1 leaf).

Definition update_ptree (n : Z) : ST Store unit :=
  s ← get;
  _ ← record (lc s);
  mods ← fold_each levels_up (cowb s) (λ mods l, update_level n l mods);
  t ← lift (BM.test mods 0);
  when t (update_root n).

(** ** Checkpoints *)
Definition checkpoint (seqno : Z) : ST Store unit :=
  _ ← update_ptree seqno;
  _ ← modify (set_lc seqno);
  p ← part 0 0;
  _ ← with_record seqno (λ r, Ret (CRec.set_sd (d p) r));
  modify (λ s, set_cowb (BM.clear (cowb s)) s).

Definition full_level (np l : Z) : ST Store Z :=
  _ ← for_each (seqZ 0 np) (λ i, x ← redigest l i; sum_add (l - 1) (i `div` PSize l) x);
  mret ((np + PSize l - 1) `div` PSize l).

Definition compute_full_digest : ST Store unit :=
  s ← get;
  _ ← fold_each levels_up (nb s) full_level;
  _ ← redigest 0 0;
  _ ← modify (λ s, set_cowb (BM.clear (cowb s)) s);
  _ ← with_record 0 (λ r, Ret (CRec.clear r));
  checkpoint 0.

(** The copy of block [i] in a record; a missing one is a null pointer. *)
Definition block_copy (r : CRec.Checkpoint_rec) (i : Z) : outcome Block :=
  match CRec.fetch leaf i r with Some (BlockCopy _ b) => Ret b | _ => Err Undefined end.

Definition rollback (fetching : bool) : ST Store Z :=
  s ← get;
  _ ← assert_ ((0 <=? lc s) && negb fetching);
  r ← record (lc s);
  idx ← lift (BM.iter_all (S (Z.to_nat (BM.num (cowb s)))) (cowb s) (BM.make_iter true));
  _ ← for_each idx (λ i, b ← lift (block_copy r i); block_to i b);
  _ ← modify (λ s, set_cowb (BM.clear (cowb s)) s);
  p ← part 0 0;
  _ ← with_record (lc s) (λ r, Ret (CRec.set_sd (d p) (CRec.clear r)));
  mret (lc s).

(** [digest(n, d)] *)
Definition digest_at (s : Store) (n : Z) : option Dig.Digest :=
  if Log.within_range (clog s) n then
    match Log.fetch (clog s) n with
    | Ret r => if Dig.is_zero (CRec.sd r) then None else Some (CRec.sd r)
    | Err _ => None
    end
  else None.

Definition discard_checkpoint (seqno le : Z) : ST Store unit :=
  s ← get;
  _ ← when ((lc s <? seqno) && (lc s <? le) && (0 <=? lc s)) (_ ← checkpoint le; modify (set_lc (-1)));
  s ← get;
  l ← lift (Log.truncate CRec.clear (clog s) seqno);
  modify (set_clog l).

(** ** Reading a checkpoint *)
Fixpoint find_copy (l i : Z) (ns : list Z) (s : Store) : outcome copy :=
  match ns with
  | [] => Err AssertFail
  | n :: ns =>
      r ← Log.fetch (clog s) n;
      if Dig.is_zero (CRec.sd r) then find_copy l i ns s
      else match CRec.fetch l i r with Some p => Ret p | None => find_copy l i ns s end
  end.

Definition get_data (s : Store) (c i : Z) : outcome Block :=
  _ ← th_assert (Log.within_range (clog s) c && (0 <=? i) && (i <? nb s));
  p ← of_option Undefined (at2 (ptree s) leaf i);
  t ← (if lm p <=? c then BM.test (cowb s) i else Ret true);
  if negb t then of_option Undefined (zget (mem s) i)
  else
    x ← find_copy leaf i (ckpts_from c (lc s)) s;
    match x with BlockCopy _ b => Ret b | PartCopy _ => Err Undefined end.

Definition get_meta_data (s : Store) (c l i : Z) : outcome Part :=
  _ ← th_assert (Log.within_range (clog s) c);
  p ← of_option Undefined (at2 (ptree s) l i);
  if lm p <=? c then Ret p
  else x ← find_copy l i (ckpts_from c (lc s)) s; Ret (copy_part x).

(** ** Checking and bounding *)
Definition check_data (i : Z) : ST Store bool :=
  s ← get;
  _ ← assert_ (i <? nb s);
  p ← part leaf i;
  x ← digest leaf i;
  mret (Dig.operator_eq x (d p)).

Definition cut_lm (b : Z) (p : Part) : Part := if b <=? lm p then mkPart (-1) (d p) else p.

Definition enforce_bound (b ks : Z) (corrupt : bool) : ST Store bool :=
  s ← get;
  let ret := forallb (forallb (λ p, lm p <? b)) (ptree s) in
  _ ← modify (λ s, set_ptree ((λ row : list Part, cut_lm b <$> row) <$> ptree s) s);
  if negb ret || corrupt || (b <=? Log.head_seqno (clog s)) then
    _ ← modify (set_lc (-1));
    l ← lift (Log.clear CRec.clear (clog s) ks);
    _ ← modify (set_clog l);
    mret false
  else mret true.
End state.
End State.
