(* ===== verification/StateInv.v ===== *)
(** * StateInv: the tree of digests follows the memory (State.v)

    [Inv] is the invariant of the state manager between fetches: the arrays have their
    sizes, the sum of every partition is the sum of the digests of its children, and every
    digest is that of the content, except at the leaves whose block was written since the
    last checkpoint.  All operations of State.v are shown to succeed from it and to keep it;
    a checkpoint leaves no exception, so that the digests it computes along the modified
    paths are those that a computation from scratch ([full_digest]) yields.

    Partitions beyond the blocks of the memory are never touched; [live] tells them apart. *)
From stdpp Require Import gmap.
From S2P Require Import Prelude Node Bitmap SeqLog Messages StateMonad Partition State.
#[local] Open Scope Z_scope.
Import State.

(** ** Sums over a range of indices *)
Definition zsum (f : Z → Z) (l : list Z) : Z := foldr (λ j a, f j + a) 0 l.

Lemma zsum_cons f j l : zsum f (j :: l) = f j + zsum f l.
Proof. done. Qed.

Lemma zsum_ext f g l : (∀ j, j ∈ l → f j = g j) → zsum f l = zsum g l.
Proof.
  induction l as [|j l IH]; intros Hf; [done|]. rewrite !zsum_cons, (Hf j), IH; [done| |by left].
  intros k Hk. apply Hf. by right.
Qed.

Lemma zsum_update f g j l : NoDup l → (∀ k, k ∈ l → k ≠ j → f k = g k) →
  zsum g l = zsum f l + (if decide (j ∈ l) then g j - f j else 0).
Proof.
  induction 1 as [|k l Hk Hnd IH]; intros Hf; [by rewrite decide_False by apply not_elem_of_nil|].
  rewrite !zsum_cons, IH by (intros i Hi; apply Hf; by right). destruct (decide (k = j)) as [->|Hne].
  - rewrite (decide_False (P := j ∈ l)) by done. rewrite decide_True by (by left). lia.
  - rewrite (Hf k) by (done || by left). destruct (decide (j ∈ l)) as [D|D].
    + rewrite decide_True by (by right). lia.
    + rewrite decide_False; [lia|]. intros [->|]%elem_of_cons; done.
Qed.

Lemma zsum_snoc f l j : zsum f (l ++ [j]) = zsum f l + f j.
Proof. induction l as [|k l IH]; cbn [app]; rewrite ?zsum_cons, ?IH; [cbn|]; lia. Qed.

(** ** Rows and columns *)
Section at2.
Context {A : Type}.
Implicit Types a : list (list A).

Lemma at2_set2 a l i x l' i' : is_Some (at2 a l i) →
  at2 (set2 a l i x) l' i' = if decide (l' = l ∧ i' = i) then Some x else at2 a l' i'.
Proof.
  intros [y Hy]. unfold at2, set2 in *. destruct (zget a l) as [row|] eqn:E; [|done]. cbn in Hy.
  destruct (decide (l' = l)) as [->|Hl].
  - rewrite zget_zset_eq by (by eapply zget_Some_lt). cbn. destruct (decide (i' = i)) as [->|Hi].
    + rewrite decide_True by done. apply zget_zset_eq. by eapply zget_Some_lt.
    + rewrite decide_False by tauto. rewrite E. cbn. by apply zget_zset_ne.
  - rewrite decide_False by tauto. by rewrite zget_zset_ne by done.
Qed.

Lemma at2_set2_is_Some a l i x l' i' :
  is_Some (at2 a l i) → is_Some (at2 (set2 a l i x) l' i') ↔ is_Some (at2 a l' i').
Proof. intros Ha. rewrite at2_set2 by done. case_decide as D; [|done]. destruct D as [-> ->]. by split. Qed.

Lemma at2_fmap_seqZ (f : Z → list A) n l i :
  at2 (f <$> seqZ 0 n) l i = if decide (0 ≤ l < n) then zget (f l) i else None.
Proof.
  unfold at2. destruct (zget (f <$> seqZ 0 n) l) as [row|] eqn:E.
  - pose proof (zget_Some_lt _ _ _ E) as Hl. unfold zlen in Hl. rewrite length_fmap, length_seqZ in Hl.
    unfold zget in E. rewrite decide_True in E by lia. rewrite list_lookup_fmap in E.
    rewrite lookup_seqZ_lt in E by lia. cbn in E. injection E as <-.
    rewrite decide_True by lia. cbn. by replace (0 + Z.of_nat (Z.to_nat l)) with l by lia.
  - cbn. case_decide; [|done]. destruct (zget_lookup (f <$> seqZ 0 n) l) as [y Hy]; [|congruence].
    unfold zlen. rewrite length_fmap, length_seqZ. lia.
Qed.
End at2.

Module SInv.
Section inv.
Context `{Tree} `{!TreeOk} `{Mpi} `{!MpiOk} (digest_of : list Z → Dig.Digest).

#[local] Abbreviation state_block := (State.state_block digest_of).

Lemma leaf_range : 1 ≤ leaf < PLevels ∧ PLevels ≤ 4 ∧ leaf = PLevels - 1.
Proof. pose proof tree_levels as Hl. unfold leaf, MAX_PARTITION_LEVELS in *. lia. Qed.

Lemma level_pos l : 0 ≤ l < PLevels → 0 < PLevelSize l.
Proof.
  intros Hl. assert (∀ n : nat, Z.of_nat n < PLevels → 0 < PLevelSize (Z.of_nat n)) as G.
  { induction n as [|n IH]; intros Hn; [rewrite tree_root; lia|].
    rewrite tree_level by lia. replace (Z.of_nat (S n) - 1) with (Z.of_nat n) by lia.
    pose proof (tree_siblings (Z.of_nat (S n)) ltac:(lia)). specialize (IH ltac:(lia)). lia. }
  specialize (G (Z.to_nat l)). rewrite Z2Nat.id in G by lia. apply G. lia.
Qed.

(** ** The live part of the tree *)

(** The number of partitions that are in use, [k] levels above the leaves. *)
Fixpoint nodes (k : nat) (n : Z) : Z :=
  match k with
  | O => n
  | S k => let l := leaf - Z.of_nat k in (nodes k n + PSize l - 1) `div` PSize l
  end.

Definition width (s : Store) (l : Z) : Z := nodes (Z.to_nat (leaf - l)) (nb s).
Definition live (s : Store) (l i : Z) : Prop := 0 ≤ l ≤ leaf ∧ 0 ≤ i < width s l.

Lemma width_leaf s : width s leaf = nb s.
Proof. unfold width. by rewrite Z.sub_diag. Qed.

Lemma width_step s l : 1 ≤ l ≤ leaf → width s (l - 1) = (width s l + PSize l - 1) `div` PSize l.
Proof.
  intros Hl. unfold width. replace (Z.to_nat (leaf - (l - 1))) with (S (Z.to_nat (leaf - l))) by lia.
  cbn [nodes]. replace (leaf - Z.of_nat (Z.to_nat (leaf - l))) with l by lia. done.
Qed.

Lemma live_parent s l i : 1 ≤ l → live s l i → live s (l - 1) (i `div` PSize l).
Proof.
  intros Hl [Hll Hi]. pose proof leaf_range. assert (0 < PSize l) as Hp by (apply tree_siblings; lia).
  split; [lia|]. rewrite width_step by lia. split; [apply Z.div_pos; lia|].
  apply Z.div_lt_upper_bound; [lia|]. pose proof (Z_div_mod_eq_full (width s l + PSize l - 1) (PSize l)).
  pose proof (Z.mod_pos_bound (width s l + PSize l - 1) (PSize l) Hp). lia.
Qed.

Lemma width_level s l : 0 ≤ nb s ≤ PLevelSize leaf → 0 ≤ l ≤ leaf → 0 ≤ width s l ≤ PLevelSize l.
Proof.
  intros Hnb Hl. pose proof leaf_range as Hlf.
  assert (∀ k : nat, Z.of_nat k ≤ leaf → 0 ≤ width s (leaf - Z.of_nat k) ≤ PLevelSize (leaf - Z.of_nat k)) as G.
  { induction k as [|k IH]; intros Hk; [by rewrite Z.sub_0_r, width_leaf|].
    replace (leaf - Z.of_nat (S k)) with (leaf - Z.of_nat k - 1) by lia.
    specialize (IH ltac:(lia)). set (l' := leaf - Z.of_nat k) in *.
    assert (1 ≤ l' ≤ leaf) by (unfold l'; lia). assert (0 < PSize l') by (apply tree_siblings; lia).
    rewrite width_step by done. rewrite tree_level in IH by lia.
    split; [apply Z.div_pos; lia|]. apply Z.lt_succ_r, Z.div_lt_upper_bound; nia. }
  specialize (G (Z.to_nat (leaf - l))). rewrite Z2Nat.id in G by lia.
  replace (leaf - (leaf - l)) with l in G by lia. apply G. lia.
Qed.

(** ** The invariant *)
Definition row_size (s : Store) (l : Z) : Z := if l =? leaf then nb s else PLevelSize l.

Record shape (s : Store) : Prop := {
  sh_nb : 1 ≤ nb s ≤ PLevelSize leaf;
  sh_mem : zlen (mem s) = nb s;
  sh_ptree l i : is_Some (at2 (ptree s) l i) ↔ 0 ≤ l ≤ leaf ∧ 0 ≤ i < row_size s l;
  sh_stree l i : is_Some (at2 (stree s) l i) ↔ 0 ≤ l < leaf ∧ 0 ≤ i < PLevelSize l;
  sh_cowb : BM.wf (cowb s) ∧ BM.num (cowb s) = nb s;
}.

Definition value (o : option Part) : Z := match o with Some p => DSum.of_digest (d p) | None => 0 end.

(** The sum of the digests of the live children of [(l, i)]. *)
Definition child_sum (s : Store) (l i : Z) : Z :=
  zsum (λ j, if j `div` PSize (l + 1) =? i then value (at2 (ptree s) (l + 1) j) else 0) (seqZ 0 (width s (l + 1))).

Definition sums (s : Store) : Prop :=
  ∀ l i, 0 ≤ l < leaf → 0 ≤ i < PLevelSize l → at2 (stree s) l i = Some (child_sum s l i `mod` DSum.M).

Definition content (s : Store) (l i : Z) : list Z :=
  if l =? leaf then default [] (zget (mem s) i) else mpi_write (default 0 (at2 (stree s) l i)).

(** Partition [(l, i)] has the digest of its content. *)
Definition digest_ok (s : Store) (l i : Z) : Prop :=
  ∃ p, at2 (ptree s) l i = Some p ∧ d p = state_block (content s l i) i (lm p).

Definition digests (dirty : Z → Z → Prop) (s : Store) : Prop := ∀ l i, live s l i → dirty l i ∨ digest_ok s l i.

(** The leaves whose block was written since the last checkpoint. *)
Definition written (s : Store) (l i : Z) : Prop := l = leaf ∧ BM.bit (cowb s) i = true.

Record Inv (s : Store) : Prop := {
  inv_shape : shape s;
  inv_sums : sums s;
  inv_digests : digests (written s) s;
}.

(** ** A computation from scratch *)
Definition lm_of (s : Store) (l i : Z) : Z := match at2 (ptree s) l i with Some p => lm p | None => 0 end.

Fixpoint full_digest (k : nat) (s : Store) (i : Z) : Dig.Digest :=
  match k with
  | O => state_block (default [] (zget (mem s) i)) i (lm_of s leaf i)
  | S k =>
      let l := leaf - Z.of_nat k in
      let sum := zsum (λ j, if j `div` PSize l =? i then DSum.of_digest (full_digest k s j) else 0) (seqZ 0 (width s l)) in
      state_block (mpi_write (sum `mod` DSum.M)) i (lm_of s (l - 1) i)
  end.

Lemma full_digest_ok s : sums s → shape s → digests (λ _ _, False) s →
  ∀ l i, live s l i → ∃ p, at2 (ptree s) l i = Some p ∧ d p = full_digest (Z.to_nat (leaf - l)) s i.
Proof.
  intros Hs Hsh Hd. pose proof leaf_range as Hlf.
  assert (∀ (k : nat) i, live s (leaf - Z.of_nat k) i →
    ∃ p, at2 (ptree s) (leaf - Z.of_nat k) i = Some p ∧ d p = full_digest k s i) as G.
  { induction k as [|k IH]; intros i Hi.
    - rewrite Z.sub_0_r in *. destruct (Hd _ _ Hi) as [[]|(p & Hp & Hdp)]. exists p. split; [done|].
      rewrite Hdp. cbn. unfold content, lm_of. by rewrite Z.eqb_refl, Hp.
    - destruct (Hd _ _ Hi) as [[]|(p & Hp & Hdp)]. exists p. split; [done|]. rewrite Hdp. cbn [full_digest].
      destruct Hi as [Hl Hi]. set (l := leaf - Z.of_nat k) in *.
      replace (leaf - Z.of_nat (S k)) with (l - 1) in * by lia.
      unfold content, lm_of. rewrite (proj2 (Z.eqb_neq (l - 1) leaf)) by lia. rewrite Hp.
      rewrite Hs; [|lia|]. 2:{ pose proof (width_level s (l - 1)) as Hw. pose proof (sh_nb _ Hsh). lia. }
      cbn [from_option]. unfold id, child_sum. replace (l - 1 + 1) with l by lia.
      do 2 f_equal. f_equal. apply zsum_ext. intros j Hj%elem_of_seqZ. destruct (_ =? i); [|done].
      destruct (IH j) as (q & Hq & Hdq); [split; lia|]. by rewrite Hq, <- Hdq. }
  intros l i Hi. specialize (G (Z.to_nat (leaf - l)) i). destruct Hi as [Hl Hi].
  rewrite Z2Nat.id in G by lia. replace (leaf - (leaf - l)) with l in G by lia. by apply G.
Qed.

(** ** Running the primitives *)
Lemma part_run s l i p : at2 (ptree s) l i = Some p → part l i s = Ret (p, s).
Proof. intros E. unfold part. rewrite get_step. unfold lift. by rewrite E. Qed.

Lemma part_to_run s l i p p' : at2 (ptree s) l i = Some p →
  part_to l i p' s = Ret (tt, set_ptree (set2 (ptree s) l i p') s).
Proof. intros E. unfold part_to. by rewrite (bind_step _ _ _ _ _ (part_run _ _ _ _ E)). Qed.

Lemma sum_run s l i v : at2 (stree s) l i = Some v → sum l i s = Ret (v, s).
Proof. intros E. unfold sum. rewrite get_step. unfold lift. by rewrite E. Qed.

Lemma sum_to_run s l i v v' : at2 (stree s) l i = Some v →
  sum_to l i v' s = Ret (tt, set_stree (set2 (stree s) l i v') s).
Proof. intros E. unfold sum_to. by rewrite (bind_step _ _ _ _ _ (sum_run _ _ _ _ E)). Qed.

Lemma sum_add_run s l i v x : at2 (stree s) l i = Some v → DSum.ok v →
  sum_add l i x s = Ret (tt, set_stree (set2 (stree s) l i ((v + DSum.of_digest x) `mod` DSum.M)) s).
Proof.
  intros E Hv. unfold sum_add. rewrite (bind_step _ _ _ _ _ (sum_run _ _ _ _ E)).
  rewrite (bind_step _ _ _ _ _ (lift_run _ _ s (DSum.add_mod v x Hv))). by apply sum_to_run with v.
Qed.

Lemma sum_sub_run s l i v x : at2 (stree s) l i = Some v → DSum.ok v →
  sum_sub l i x s = Ret (tt, set_stree (set2 (stree s) l i ((v - DSum.of_digest x) `mod` DSum.M)) s).
Proof.
  intros E Hv. unfold sum_sub. rewrite (bind_step _ _ _ _ _ (sum_run _ _ _ _ E)).
  rewrite (bind_step _ _ _ _ _ (lift_run _ _ s (DSum.sub_mod v x Hv))). by apply sum_to_run with v.
Qed.

Lemma set2_set2 {A} (a : list (list A)) l i x y : set2 (set2 a l i x) l i y = set2 a l i y.
Proof.
  unfold set2. destruct (zget a l) as [row|] eqn:E; [|by rewrite E].
  rewrite zget_zset_eq by (by eapply zget_Some_lt). unfold zset, zget in *. destruct (decide (0 ≤ l)); [|done].
  rewrite list_insert_insert_eq. f_equal. case_decide; [|done]. by rewrite list_insert_insert_eq.
Qed.

(** The digest of a partition from its content. *)
Lemma digest_run s l i p : shape s → at2 (ptree s) l i = Some p →
  (l < leaf → ∃ v, at2 (stree s) l i = Some v ∧ DSum.ok v) →
  digest digest_of l i s = Ret (state_block (content s l i) i (lm p), s).
Proof.
  intros Hsh Hp Hv. destruct (proj1 (sh_ptree _ Hsh l i)) as [Hl Hi]; [by eexists|]. unfold digest, content, row_size in *.
  destruct (l =? leaf) eqn:El; zprop.
  - destruct (zget_lookup (mem s) i) as [b Hb]; [by rewrite (sh_mem _ Hsh)|].
    rewrite (bind_step _ _ s b s).
    2:{ rewrite get_step. unfold block. rewrite (bind_step _ _ s tt s), get_step.
        { unfold lift. by rewrite Hb. }
        unfold assert_, th_assert. rewrite (proj2 (Z.leb_le 0 i)), (proj2 (Z.ltb_lt i (nb s))) by lia. done. }
    rewrite (bind_step _ _ _ _ _ (part_run _ _ _ _ Hp)). by rewrite Hb.
  - destruct (Hv ltac:(lia)) as (v & Ev & Hok).
    rewrite (bind_step _ _ s (mpi_write v) s).
    2:{ rewrite (bind_step _ _ _ _ _ (sum_run _ _ _ _ Ev)). apply lift_run. by apply DSum.bytes_ok. }
    rewrite (bind_step _ _ _ _ _ (part_run _ _ _ _ Hp)). by rewrite Ev.
Qed.

Lemma redigest_run s l i p : shape s → at2 (ptree s) l i = Some p →
  (l < leaf → ∃ v, at2 (stree s) l i = Some v ∧ DSum.ok v) →
  let x := state_block (content s l i) i (lm p) in
  redigest digest_of l i s = Ret (x, set_ptree (set2 (ptree s) l i (mkPart (lm p) x)) s).
Proof.
  intros Hsh Hp Hv x. unfold redigest. rewrite (bind_step _ _ _ _ _ (digest_run s l i p Hsh Hp Hv)).
  rewrite (bind_step _ _ _ _ _ (part_run _ _ _ _ Hp)). by rewrite (bind_step _ _ _ _ _ (part_to_run _ _ _ _ _ Hp)).
Qed.

(** ** A new value for one partition *)

(** Partition [(l, i)] takes the value [p'], and the sum of its parent follows. *)
Definition replaced (s : Store) (l i : Z) (p' : Part) : Store :=
  let s1 := set_ptree (set2 (ptree s) l i p') s in
  set_stree (set2 (stree s) (l - 1) (i `div` PSize l) (child_sum s1 (l - 1) (i `div` PSize l) `mod` DSum.M)) s1.

Lemma live_row s l i : shape s → live s l i → 0 ≤ i < row_size s l.
Proof.
  intros Hsh [Hl Hi]. unfold row_size. destruct (l =? leaf) eqn:E; zprop; [subst; by rewrite width_leaf in Hi|].
  pose proof (width_level s l) as Hw. pose proof (sh_nb _ Hsh). lia.
Qed.

Lemma live_part s l i : shape s → live s l i → ∃ p, at2 (ptree s) l i = Some p.
Proof. intros Hsh Hi. apply (sh_ptree _ Hsh). split; [apply Hi|by apply live_row]. Qed.

Lemma child_sum_replace s l i p p' l' i' : 1 ≤ l → live s l i → at2 (ptree s) l i = Some p →
  child_sum (set_ptree (set2 (ptree s) l i p') s) l' i' =
    child_sum s l' i' + (if decide (l' = l - 1 ∧ i' = i `div` PSize l) then DSum.of_digest (d p') - DSum.of_digest (d p) else 0).
Proof.
  intros Hl [Hll Hi] Hp. unfold child_sum. cbn [ptree set_ptree]. change (width (set_ptree _ s)) with (width s).
  rewrite (zsum_update (λ j, if j `div` PSize (l' + 1) =? i' then value (at2 (ptree s) (l' + 1) j) else 0) _ i);
    [|apply NoDup_seqZ|].
  - f_equal. rewrite at2_set2 by (by eexists). destruct (decide (l' = l - 1)) as [->|Hne].
    + replace (l - 1 + 1) with l by lia. rewrite (decide_True (P := l = l ∧ i = i)) by done.
      rewrite (decide_True (P := i ∈ _)) by (apply elem_of_seqZ; lia). rewrite Hp. cbn [value].
      destruct (i `div` PSize l =? i') eqn:E; zprop.
      * by rewrite decide_True.
      * rewrite decide_False by (intros [_ ?]; congruence). done.
    + rewrite (decide_False (P := l' + 1 = l ∧ i = i)) by lia.
      rewrite (decide_False (P := l' = l - 1 ∧ _)) by tauto. case_decide; lia.
  - intros k _ Hk. rewrite at2_set2 by (by eexists). by rewrite decide_False by tauto.
Qed.

Lemma replaced_shape s l i p' : shape s → 1 ≤ l → live s l i → shape (replaced s l i p').
Proof.
  intros Hsh Hl Hi. destruct (live_part _ _ _ Hsh Hi) as [p Hp].
  destruct Hsh as [? ? Hpt Hst ?]. split; try done.
  - intros l' i'. unfold replaced. cbn [ptree set_stree set_ptree]. rewrite at2_set2_is_Some by (by eexists).
    apply Hpt.
  - intros l' i'. unfold replaced. cbn [stree set_stree set_ptree]. rewrite at2_set2_is_Some; [apply Hst|].
    apply Hst. pose proof (live_parent _ _ _ Hl Hi) as Hpar. pose proof leaf_range. destruct Hi as [Hll _].
    split; [lia|]. pose proof (width_level s (l - 1)). destruct Hpar. lia.
Qed.

Lemma parent_sum s l i : shape s → 1 ≤ l → live s l i → 0 ≤ l - 1 < leaf ∧ 0 ≤ i `div` PSize l < PLevelSize (l - 1).
Proof.
  intros Hsh Hl Hi. destruct (live_parent _ _ _ Hl Hi) as [H3 H4]. pose proof (sh_nb _ Hsh).
  pose proof (width_level s (l - 1)). destruct Hi. lia.
Qed.

Lemma replaced_sums s l i p' : shape s → sums s → 1 ≤ l → live s l i → sums (replaced s l i p').
Proof.
  intros Hsh Hs Hl Hi l' i' Hl' Hi'. destruct (live_part _ _ _ Hsh Hi) as [p Hp].
  destruct (parent_sum _ _ _ Hsh Hl Hi) as [Hpl Hpi].
  unfold replaced. cbn [stree set_stree set_ptree].
  change (child_sum (set_stree _ ?s1)) with (child_sum s1).
  rewrite at2_set2 by (apply (sh_stree _ Hsh); done). case_decide as D; [destruct D as [-> ->]; done|].
  rewrite (child_sum_replace s l i p p') by done. rewrite decide_False by done. rewrite Z.add_0_r. by apply Hs.
Qed.

(** Only the partition and its parent change their value or content. *)
Lemma replaced_digests s l i p' (dirty dirty' : Z → Z → Prop) :
  shape s → 1 ≤ l → live s l i → digests dirty s →
  (dirty' l i ∨ d p' = state_block (content s l i) i (lm p')) →
  dirty' (l - 1) (i `div` PSize l) →
  (∀ l' i', live s l' i' → dirty l' i' → dirty' l' i' ∨ (l' = l ∧ i' = i)) →
  digests dirty' (replaced s l i p').
Proof.
  intros Hsh Hl Hi Hd Hself Hpar Hdirty l' i' Hlive. change (live s l' i') in Hlive.
  destruct (live_part _ _ _ Hsh Hi) as [p Hp]. destruct (parent_sum _ _ _ Hsh Hl Hi) as [Hpl Hpi].
  destruct (decide (l' = l ∧ i' = i)) as [[-> ->]|Hne].
  { destruct Hself as [?|Hself]; [by left|]. right. exists p'. unfold replaced. cbn [ptree set_stree set_ptree].
    rewrite at2_set2 by (by eexists). rewrite decide_True by done. split; [done|]. rewrite Hself. f_equal.
    unfold content. cbn [mem stree set_stree set_ptree]. case_match; [done|]. do 2 f_equal.
    rewrite at2_set2 by (apply (sh_stree _ Hsh); done). rewrite decide_False; [done|]. lia. }
  destruct (decide (l' = l - 1 ∧ i' = i `div` PSize l)) as [[-> ->]|Hne']; [by left|].
  destruct (Hd _ _ Hlive) as [Hdi|(q & Hq & Hdq)].
  { destruct (Hdirty _ _ Hlive Hdi) as [?|?]; [by left|done]. }
  right. exists q. unfold replaced. cbn [ptree set_stree set_ptree].
  rewrite at2_set2 by (by eexists). rewrite decide_False by done. split; [done|]. rewrite Hdq. f_equal.
  unfold content. cbn [mem stree set_stree set_ptree]. case_match; [done|]. do 2 f_equal.
  rewrite at2_set2 by (apply (sh_stree _ Hsh); done). by rewrite decide_False.
Qed.

(** ** Updating the tree *)
Lemma shape_set_ptree s l i p : shape s → is_Some (at2 (ptree s) l i) → shape (set_ptree (set2 (ptree s) l i p) s).
Proof.
  intros [? ? Hpt ? ?] Hp. split; try done. intros l' i'. cbn [ptree set_ptree].
  rewrite at2_set2_is_Some by done. apply Hpt.
Qed.

Lemma shape_set_stree s l i v : shape s → is_Some (at2 (stree s) l i) → shape (set_stree (set2 (stree s) l i v) s).
Proof.
  intros [? ? ? Hst ?] Hv. split; try done. intros l' i'. cbn [stree set_stree].
  rewrite at2_set2_is_Some by done. apply Hst.
Qed.

Lemma with_record_run s n r r' f : Log.fetch (clog s) n = Ret r → f r = Ret r' →
  with_record n f s = Ret (tt, set_clog (Log.store (clog s) n r') s).
Proof.
  intros Hr Hf. unfold with_record, record. rewrite (bind_step _ _ s r s).
  { by rewrite (bind_step _ _ _ _ _ (lift_run _ _ _ Hf)). }
  rewrite get_step. by apply lift_run.
Qed.

(** The record of the last checkpoint with a copy of an inner partition. *)
Definition saved (s : Store) (r : CRec.Checkpoint_rec) (l i : Z) (p : Part) : Store :=
  if l <? leaf then
    set_clog (Log.store (clog s) (lc s) (CRec.mkRec (CRec.sd r) (<[(l, i) := PartCopy p]> (CRec.parts r)))) s
  else s.

Lemma saved_same s r l i p : mem (saved s r l i p) = mem s ∧ nb (saved s r l i p) = nb s ∧
  cowb (saved s r l i p) = cowb s ∧ ptree (saved s r l i p) = ptree s ∧ stree (saved s r l i p) = stree s ∧
  lc (saved s r l i p) = lc s.
Proof. unfold saved. by destruct (l <? leaf). Qed.

Lemma shape_same s s' : mem s' = mem s → nb s' = nb s → cowb s' = cowb s → ptree s' = ptree s → stree s' = stree s →
  shape s → shape s'.
Proof. intros E1 E2 E3 E4 E5 []. split; unfold row_size in *; rewrite ?E1, ?E2, ?E3, ?E4, ?E5; done. Qed.

Lemma child_sum_same s s' l i : nb s' = nb s → ptree s' = ptree s → child_sum s' l i = child_sum s l i.
Proof. intros E1 E2. unfold child_sum, width. by rewrite E1, E2. Qed.

Lemma content_same s s' l i : mem s' = mem s → stree s' = stree s → content s' l i = content s l i.
Proof. intros E1 E2. unfold content. by rewrite E1, E2. Qed.

Lemma sums_same s s' : nb s' = nb s → ptree s' = ptree s → stree s' = stree s → sums s → sums s'.
Proof. intros E1 E2 E3 Hs l i Hl Hi. rewrite E3, (child_sum_same s s') by done. by apply Hs. Qed.

Lemma update_part_run n s r l i p : shape s → sums s → 1 ≤ l → live s l i → at2 (ptree s) l i = Some p →
  (l < leaf → Log.fetch (clog s) (lc s) = Ret r ∧ CRec.parts r !! (l, i) = None) →
  update_part digest_of n l i s =
    Ret (tt, replaced (saved s r l i p) l i (mkPart n (state_block (content s l i) i n))).
Proof.
  intros Hsh Hs Hl Hi Hp Hrec. destruct (parent_sum _ _ _ Hsh Hl Hi) as [Hpl Hpi].
  unfold update_part. rewrite get_step, (bind_step _ _ _ _ _ (part_run _ _ _ _ Hp)).
  set (s1 := saved s r l i p). destruct (saved_same s r l i p) as (Em & En & Ec & Ep & Es & El). fold s1 in Em, En, Ec, Ep, Es, El.
  rewrite (bind_step _ _ s tt s1).
  2:{ unfold s1, saved. destruct (l <? leaf) eqn:E; [|done]. zprop. destruct (Hrec E) as [Hr Hnone].
      unfold when. erewrite with_record_run; [done|exact Hr|]. unfold CRec.append.
      by rewrite bool_decide_eq_true_2 by done. }
  assert (shape s1) as Hsh1 by (by apply shape_same with s).
  assert (at2 (stree s1) (l - 1) (i `div` PSize l) = Some (child_sum s (l - 1) (i `div` PSize l) `mod` DSum.M)) as Hv
    by (rewrite Es; by apply Hs).
  rewrite (bind_step _ _ _ _ _ (sum_sub_run _ _ _ _ (d p) Hv (DSum.mod_ok _))).
  set (v1 := (_ - _) `mod` _). set (s2 := set_stree _ s1).
  assert (shape s2) as Hsh2 by (apply shape_set_stree; [done|by eexists]).
  assert (at2 (ptree s2) l i = Some p) as Hp2 by (cbn; by rewrite Ep).
  rewrite (bind_step _ _ _ _ _ (part_to_run _ _ _ _ _ Hp2)). set (s3 := set_ptree _ s2).
  assert (shape s3) as Hsh3 by (apply shape_set_ptree; [done|by eexists]).
  assert (at2 (ptree s3) l i = Some (mkPart n (d p))) as Hp3
    by (unfold s3; cbn [ptree set_ptree]; rewrite at2_set2 by (by eexists); by rewrite decide_True).
  assert (∀ l' i', l' ≠ l - 1 → at2 (stree s3) l' i' = at2 (stree s) l' i') as Hst3.
  { intros l' i' Hne. unfold s3, s2. cbn [stree set_stree set_ptree]. rewrite at2_set2 by (by eexists).
    rewrite decide_False by lia. by rewrite Es. }
  assert (content s3 l i = content s l i) as Hc3.
  { unfold content. rewrite Hst3 by lia. unfold s3, s2. cbn [mem set_stree set_ptree]. by rewrite Em. }
  rewrite (bind_step _ _ _ _ _ (redigest_run s3 l i _ Hsh3 Hp3 ltac:(intros Hlt;
    eexists; rewrite Hst3 by lia; split; [apply Hs; [destruct Hi; lia|
      pose proof (live_row _ _ _ Hsh Hi) as G; unfold row_size in G; destruct (l =? leaf) eqn:E; zprop; lia]|apply DSum.mod_ok]))).
  cbn [lm]. rewrite Hc3. set (x := state_block _ _ _).
  assert (at2 (stree (set_ptree (set2 (ptree s3) l i (mkPart n x)) s3)) (l - 1) (i `div` PSize l) = Some v1) as Hv3.
  { cbn [stree set_ptree]. unfold s3, s2. cbn [stree set_stree set_ptree]. rewrite at2_set2 by (by eexists).
    by rewrite decide_True. }
  rewrite (sum_add_run _ _ _ _ x Hv3 (DSum.mod_ok _)). do 2 f_equal.
  unfold replaced, s3, s2. cbn [ptree stree set_ptree set_stree]. rewrite !set2_set2.
  unfold set_stree, set_ptree; cbn [mem nb cowb ptree stree clog lc]. f_equal. f_equal.
  rewrite (child_sum_same (set_ptree (set2 (ptree s) l i (mkPart n x)) s)) by (cbn; rewrite ?Ep; done).
  rewrite (child_sum_replace s l i p) by done. rewrite decide_True by done. unfold v1. cbn [d].
  rewrite Zplus_mod_idemp_l, <- Z.add_sub_swap, <- Z.add_sub_assoc. apply Zplus_mod_idemp_l.
Qed.

(** *** A level of the tree

    [Mid] relates the stores before and in the middle of [update_ptree]: the partitions of
    [D] have their new values, and the record of the last checkpoint has copies of the
    inner ones. *)
Record only_record (g g' : Log.t CRec.Checkpoint_rec) (n : Z) (r : CRec.Checkpoint_rec) : Prop := {
  or_ok : Log.ok g';
  or_head : Log.head g' = Log.head g;
  or_range m : Log.within_range g' m = Log.within_range g m;
  or_this : Log.fetch g' n = Ret r;
  or_other m : m ≠ n → Log.fetch g' m = Log.fetch g m;
}.

Lemma only_record_refl g n r : Log.ok g → Log.fetch g n = Ret r → only_record g g n r.
Proof. by split. Qed.

Lemma only_record_store g n r0 r : Log.ok g → Log.fetch g n = Ret r0 → only_record g (Log.store g n r) n r.
Proof.
  intros Hg Hr. assert (Log.within_range g n = true) as Hin by (unfold Log.fetch in Hr; by invert_outcome).
  destruct (wl_store_ok (WindowLogLaws := Log.window_log_laws CRec.clear) g n r Hg Hin) as (Hok & Hh & Hrng & Hslot).
  cbn in Hok, Hh, Hrng, Hslot.
  assert (∀ m, Log.fetch (Log.store g n r) m = if decide (m = n) then Ret r else Log.fetch g m) as Hf.
  { intros m. unfold Log.fetch. rewrite Hrng. destruct (Log.within_range g m) eqn:Em; cbn.
    - by rewrite Hslot; [case_decide|].
    - rewrite decide_False; [done|]. intros ->. congruence. }
  split; [done..| |].
  - rewrite Hf. by rewrite decide_True.
  - intros m Hm. rewrite Hf. by rewrite decide_False.
Qed.

Lemma only_record_trans g g' g'' n r r' : only_record g g' n r → only_record g' g'' n r' → only_record g g'' n r'.
Proof.
  intros [? ? Hr1 ? Ho1] [? ? Hr2 ? Ho2]. split; [done|congruence| |done|].
  - intros m. by rewrite Hr2.
  - intros m Hm. by rewrite Ho2, Ho1.
Qed.

Record Mid (n : Z) (s0 : Store) (r0 : CRec.Checkpoint_rec) (s : Store) (r : CRec.Checkpoint_rec) (D : Z → Z → Prop)
    : Prop := {
  mid_mem : mem s = mem s0;
  mid_nb : nb s = nb s0;
  mid_cowb : cowb s = cowb s0;
  mid_lc : lc s = lc s0;
  mid_shape : shape s;
  mid_sums : sums s;
  mid_old l i : ¬ D l i → at2 (ptree s) l i = at2 (ptree s0) l i;
  mid_new l i : D l i → live s0 l i ∧ ∃ p, at2 (ptree s) l i = Some p ∧ lm p = n;
  mid_log : only_record (clog s0) (clog s) (lc s0) r;
  mid_sd : CRec.sd r = CRec.sd r0;
  mid_saved l i : D l i → l < leaf → ∃ p, at2 (ptree s0) l i = Some p ∧ CRec.parts r !! (l, i) = Some (PartCopy p);
  mid_kept l i : ¬ (D l i ∧ l < leaf) → CRec.parts r !! (l, i) = CRec.parts r0 !! (l, i);
  mid_dec l i : D l i ∨ ¬ D l i;
}.

Lemma live_nb s s' l i : nb s' = nb s → live s' l i ↔ live s l i.
Proof. intros E. unfold live, width. by rewrite E. Qed.

(** The bitmap of the parents. *)
Definition parents_ok (s : Store) (l : Z) (up : BM.Bitmap) : Prop :=
  BM.wf up ∧ BM.num up = PLevelSize (l - 1) ∧ ∀ i, 0 ≤ i < BM.num up → BM.bit up i = true → live s (l - 1) i.

Lemma mark_parent s l i up : shape s → 1 ≤ l → live s l i → parents_ok s l up →
  ∃ up', BM.set up (i `div` PSize l) = Ret up' ∧ parents_ok s l up' ∧
    BM.bit up' (i `div` PSize l) = true ∧
    ∀ j, 0 ≤ j < PLevelSize (l - 1) → BM.bit up j = true → BM.bit up' j = true.
Proof.
  intros Hsh Hl Hi (Hwf & Hn & Hb). destruct (parent_sum _ _ _ Hsh Hl Hi) as [Hpl Hpi].
  assert (0 ≤ i `div` PSize l < BM.num up) as Hr by lia.
  rewrite BM.set_assign by done. destruct (BM.assign_spec up (i `div` PSize l) true Hwf Hr) as (up' & -> & Hwf' & Hn' & Hbit).
  exists up'. split; [done|]. split; [|split].
  - split; [done|]. split; [lia|]. intros j Hj. rewrite Hbit by lia. case_decide; [|intros; apply Hb; [lia|done]].
    subst j. intros _. by apply live_parent.
  - rewrite Hbit by done. by rewrite decide_True.
  - intros j Hj E. rewrite Hbit by lia. by case_decide.
Qed.

Lemma update_part_mid n s0 r0 s r D l i : Mid n s0 r0 s r D → Log.ok (clog s0) →
  (∀ l i, l < leaf → CRec.parts r0 !! (l, i) = None) →
  1 ≤ l → live s0 l i → ¬ D l i →
  ∃ s' r' p', update_part digest_of n l i s = Ret (tt, s') ∧ s' = replaced (saved s r l i p') l i
      (mkPart n (state_block (content s l i) i n)) ∧ at2 (ptree s) l i = Some p' ∧
    Mid n s0 r0 s' r' (λ l' i', D l' i' ∨ (l' = l ∧ i' = i)).
Proof.
  intros HM Hok Hinner Hl Hi HD. pose proof HM as [Em En Ec El Hsh Hs Hold Hnew Hlog Hsd Hsaved Hkept Hdec].
  assert (live s l i) as Hi' by (by apply (live_nb s0)). destruct (live_part _ _ _ Hsh Hi') as [p Hp].
  assert (Log.fetch (clog s) (lc s) = Ret r) as Hr by (rewrite El; apply Hlog).
  assert (l < leaf → CRec.parts r !! (l, i) = None) as Hnone.
  { intros Hlt. rewrite Hkept by tauto. by apply Hinner. }
  pose proof (update_part_run n s r l i p Hsh Hs Hl Hi' Hp ltac:(intros; split; [done|by apply Hnone])) as Hrun.
  set (s' := replaced _ _ _ _) in Hrun.
  destruct (saved_same s r l i p) as (Em' & En' & Ec' & Ep' & Es' & El').
  assert (shape (saved s r l i p)) as Hsh1 by (by apply shape_same with s).
  assert (sums (saved s r l i p)) as Hs1 by (by apply sums_same with s).
  assert (live (saved s r l i p) l i) as Hi1 by (by apply (live_nb s)).
  exists s', (if l <? leaf then CRec.mkRec (CRec.sd r) (<[(l, i) := PartCopy p]> (CRec.parts r)) else r), p.
  split; [done|]. split; [done|]. split; [done|].
  assert (∀ l' i', at2 (ptree s') l' i' =
    if decide (l' = l ∧ i' = i) then Some (mkPart n (state_block (content s l i) i n)) else at2 (ptree s) l' i') as Hpt.
  { intros l' i'. unfold s', replaced. cbn [ptree set_ptree set_stree]. rewrite Ep'. apply at2_set2. by eexists. }
  split.
  - unfold s', replaced; cbn; congruence.
  - unfold s', replaced; cbn; congruence.
  - unfold s', replaced; cbn; congruence.
  - unfold s', replaced; cbn; congruence.
  - by apply replaced_shape.
  - by apply replaced_sums.
  - intros l' i' Hn. rewrite Hpt, decide_False by tauto. apply Hold. tauto.
  - intros l' i' [Hd|[-> ->]].
    + rewrite Hpt. split; [by apply Hnew|]. case_decide as E; [by eexists|by apply Hnew].
    + rewrite Hpt, decide_True by done. split; [done|]. by eexists.
  - apply (only_record_trans _ (clog s) _ _ r); [done|]. unfold s', replaced. cbn [clog set_ptree set_stree].
    unfold saved. destruct (l <? leaf); [|apply only_record_refl; [apply Hlog|by rewrite <- El]].
    cbn [clog set_clog]. rewrite El in *. eapply only_record_store; [apply Hlog|done].
  - by destruct (l <? leaf).
  - intros l' i' Hd Hlt. destruct (decide (l' = l ∧ i' = i)) as [[-> ->]|Hne].
    + rewrite (proj2 (Z.ltb_lt l leaf)) by done. exists p. split; [by rewrite <- Hold|]. cbn. by rewrite lookup_insert_eq.
    + destruct Hd as [Hd|]; [|done]. destruct (Hsaved _ _ Hd Hlt) as (q & Hq & Hq'). exists q. split; [done|].
      destruct (l <? leaf); [|done]. cbn. rewrite lookup_insert_ne; [done|]. intros [= <- <-]. tauto.
  - intros l' i' Hn. destruct (l <? leaf) eqn:E; zprop; [|by apply Hkept; tauto].
    cbn. rewrite lookup_insert_ne; [apply Hkept; tauto|]. intros [= <- <-]. tauto.
  - intros l' i'. destruct (Hdec l' i'), (decide (l' = l ∧ i' = i)); tauto.
Qed.

(** The stale partitions in the middle of level [l]: the rest [idx] of the level and the
    marked parents. *)
Definition stale (l : Z) (idx : list Z) (up : BM.Bitmap) (l' i' : Z) : Prop :=
  (l' = l ∧ i' ∈ idx) ∨ (l' = l - 1 ∧ BM.bit up i' = true).

Lemma Mid_ext n s0 r0 s r (D D' : Z → Z → Prop) : (∀ l i, D l i ↔ D' l i) → Mid n s0 r0 s r D → Mid n s0 r0 s r D'.
Proof.
  intros HD [? ? ? ? ? ? Hold Hnew ? ? Hsv Hk Hdec]. split; try done.
  - intros l i Hn. apply Hold. by rewrite HD.
  - intros l i Hn. apply Hnew. by rewrite HD.
  - intros l i Hn. apply Hsv. by rewrite HD.
  - intros l i Hn. apply Hk. by rewrite HD.
  - intros l i. rewrite <- HD. apply Hdec.
Qed.

Lemma level_loop n l s0 r0 idx : Log.ok (clog s0) → shape s0 → (∀ l i, l < leaf → CRec.parts r0 !! (l, i) = None) →
  1 ≤ l → NoDup idx → (∀ i, i ∈ idx → live s0 l i) →
  ∀ s r D up, Mid n s0 r0 s r D → (∀ i, i ∈ idx → ¬ D l i) → parents_ok s0 l up → digests (stale l idx up) s →
  ∃ s' r' up', fold_each idx up (λ up i, _ ← update_part digest_of n l i; lift (BM.set up (i `div` PSize l))) s = Ret (up', s') ∧
    Mid n s0 r0 s' r' (λ l' i', D l' i' ∨ (l' = l ∧ i' ∈ idx)) ∧ parents_ok s0 l up' ∧
    digests (λ l' i', l' = l - 1 ∧ BM.bit up' i' = true) s'.
Proof.
  intros Hok Hsh0 Hinner Hl. induction idx as [|i idx IH]; intros Hnd Hlive s r D up HM HD Hup Hdg.
  { exists s, r, up. split; [done|]. split; [|split; [done|]].
    - eapply Mid_ext; [|exact HM]. intros l' i'. rewrite elem_of_nil. tauto.
    - intros l' i' Hi'. destruct (Hdg l' i' Hi') as [[[_ []%elem_of_nil]|?]|?]; [by left|by right]. }
  apply NoDup_cons in Hnd as [Hni Hnd]. assert (live s0 l i) as Hi by (apply Hlive; by left).
  destruct (update_part_mid n s0 r0 s r D l i HM Hok Hinner Hl Hi ltac:(apply HD; by left))
    as (s1 & r1 & p & Hrun & Hs1 & Hp & HM1).
  destruct (mark_parent s0 l i up Hsh0 Hl Hi Hup) as (up1 & Hset & Hup1 & Hbit & Hmono).
  destruct (saved_same s r l i p) as (Em' & En' & Ec' & Ep' & Es' & El').
  assert (digests (stale l idx up1) s1) as Hdg1.
  { rewrite Hs1. apply replaced_digests with (dirty := stale l (i :: idx) up).
    - apply shape_same with s; try done. apply HM.
    - done.
    - apply (live_nb s0); [|done]. rewrite En'. apply HM.
    - intros l' i' Hi'. destruct (Hdg l' i') as [?|(q & Hq & Hdq)]; [by apply (live_nb s) in Hi'|by left|].
      right. exists q. rewrite Ep'. split; [done|]. rewrite Hdq. by rewrite (content_same s (saved s r l i p)).
    - right. cbn. by rewrite (content_same s (saved s r l i p)).
    - right. split; [done|]. by destruct Hup1 as (_ & _ & _).
    - intros l' i' Hlv [[-> [->|Hin]%elem_of_cons]|[-> Hb]].
      + by right.
      + left. left. done.
      + left. right. split; [done|]. apply Hmono; [|done]. apply (live_nb s0) in Hlv; [|rewrite En'; apply HM].
        destruct Hlv as [Hl' Hi']. pose proof (width_level s0 (l - 1)). pose proof (sh_nb _ Hsh0). lia. }
  destruct (IH Hnd ltac:(intros j Hj; apply Hlive; by right) s1 r1 _ up1 HM1) as (s' & r' & up' & Hrun' & HM' & Hup' & Hdg').
  { intros j Hj [Hd|[_ ->]]; [|done]. by apply (HD j); [right|]. }
  { done. }
  { done. }
  exists s', r', up'. split; [|split; [|done]].
  - cbn [fold_each]. rewrite (bind_step _ _ s up1 s1); [done|]. rewrite (bind_step _ _ _ _ _ Hrun). by apply lift_run.
  - eapply Mid_ext; [|exact HM']. intros l' i'. rewrite elem_of_cons. tauto.
Qed.

(** The bits of the bitmap of a level are those of live partitions. *)
Definition marks (s : Store) (l : Z) (mods : BM.Bitmap) : Prop :=
  BM.wf mods ∧ BM.num mods = row_size s l ∧ ∀ i, 0 ≤ i < BM.num mods → BM.bit mods i = true → live s l i.

(** The partitions that the level adds to [D]. *)
Definition marked (D : Z → Z → Prop) (l : Z) (mods : BM.Bitmap) (l' i' : Z) : Prop :=
  D l' i' ∨ (l' = l ∧ i' ∈ BM.remaining mods true 0).

Lemma elem_of_remaining b i : i ∈ BM.remaining b true 0 ↔ 0 ≤ i < BM.num b ∧ BM.bit b i = true.
Proof. unfold BM.remaining. rewrite list_elem_of_filter, elem_of_seqZ. intuition lia. Qed.

Lemma remaining_NoDup b v i : NoDup (BM.remaining b v i).
Proof. apply NoDup_filter, NoDup_seqZ. Qed.

Lemma iter_marks b : BM.wf b →
  BM.iter_all (S (Z.to_nat (BM.num b))) b (BM.make_iter true) = Ret (BM.remaining b true 0).
Proof.
  intros Hb. rewrite BM.iter_all_remaining; cbn; [done|done| |].
  - split; [done|]. split; [cbn; lia|]. by left.
  - unfold BM.remaining. eapply Nat.le_lt_trans; [apply length_filter|]. rewrite length_seqZ. lia.
Qed.

Lemma update_level_mid n l s0 r0 s r D mods : Log.ok (clog s0) → shape s0 →
  (∀ l i, l < leaf → CRec.parts r0 !! (l, i) = None) → 1 ≤ l ≤ leaf → marks s0 l mods → (∀ l' i', D l' i' → l < l') →
  Mid n s0 r0 s r D → digests (λ l' i', l' = l ∧ BM.bit mods i' = true) s →
  ∃ s' r' up, update_level digest_of n l mods s = Ret (up, s') ∧ Mid n s0 r0 s' r' (marked D l mods) ∧
    marks s0 (l - 1) up ∧ digests (λ l' i', l' = l - 1 ∧ BM.bit up i' = true) s'.
Proof.
  intros Hok Hsh0 Hinner Hl (Hwf & Hn & Hlive) HD HM Hdg. unfold update_level.
  rewrite (bind_step _ _ _ _ _ (lift_run _ _ s (iter_marks _ Hwf))).
  pose proof leaf_range as Hlf. assert (0 < PLevelSize (l - 1)) as Hpos by (apply level_pos; lia).
  assert (PLevelSize (l - 1) < 2 ^ 31) as Hint by (apply tree_int; lia).
  assert (0 ≤ PLevelSize (l - 1) ≤ 2 ^ 32 - 64) as Hsz by lia.
  destruct (BM.make_spec _ false Hsz) as (Hwf' & Hn' & Hzero).
  destruct (level_loop n l s0 r0 (BM.remaining mods true 0) Hok Hsh0 Hinner ltac:(lia) (remaining_NoDup _ _ _)) with
    (s := s) (r := r) (D := D) (up := BM.make (PLevelSize (l - 1)) false) as (s' & r' & up & Hrun & HM' & Hup & Hdg').
  - intros i [Hi Hb]%elem_of_remaining. by apply Hlive.
  - done.
  - intros i _ Hd%HD. lia.
  - split; [done|]. split; [done|]. intros i Hi. rewrite Hzero by lia. done.
  - intros l' i' Hi'. destruct (Hdg l' i' Hi') as [[-> Hb]|]; [left; left; split; [done|]|by right].
    apply elem_of_remaining. split; [|done]. rewrite Hn. apply (live_nb s0) in Hi'; [|apply HM]. by apply live_row.
  - exists s', r', up. split; [done|]. split; [done|]. split; [|done]. destruct Hup as (? & Hu & ?).
    split; [done|]. split; [|done]. rewrite Hu. unfold row_size. by rewrite (proj2 (Z.eqb_neq (l - 1) leaf)) by lia.
Qed.

(** The levels from [k] up to the root. *)
Lemma levels_mid n s0 r0 (k : nat) : Log.ok (clog s0) → shape s0 → (∀ l i, l < leaf → CRec.parts r0 !! (l, i) = None) →
  Z.of_nat k ≤ leaf → ∀ s r D mods, marks s0 (Z.of_nat k) mods → (∀ l' i', D l' i' → Z.of_nat k < l') →
  Mid n s0 r0 s r D → digests (λ l' i', l' = Z.of_nat k ∧ BM.bit mods i' = true) s →
  ∃ s' r' up D', fold_each (reverse (seqZ 1 (Z.of_nat k))) mods (λ mods l, update_level digest_of n l mods) s = Ret (up, s') ∧
    Mid n s0 r0 s' r' D' ∧ marks s0 0 up ∧ digests (λ l' i', l' = 0 ∧ BM.bit up i' = true) s' ∧
    (∀ l' i', D' l' i' → 0 < l') ∧ (∀ l' i', D l' i' → D' l' i') ∧ ∀ l' i', D' l' i' → D l' i' ∨ l' ≤ Z.of_nat k.
Proof.
  intros Hok Hsh0 Hinner. induction k as [|k IH]; intros Hk s r D mods Hmk HD HM Hdg.
  { exists s, r, mods, D. split_and!; try done. tauto. }
  destruct (update_level_mid n (Z.of_nat (S k)) s0 r0 s r D mods Hok Hsh0 Hinner ltac:(lia) Hmk HD HM Hdg)
    as (s1 & r1 & up1 & Hrun & HM1 & Hmk1 & Hdg1).
  replace (Z.of_nat (S k) - 1) with (Z.of_nat k) in * by lia.
  destruct (IH ltac:(lia) s1 r1 (marked D (Z.of_nat (S k)) mods) up1 Hmk1)
    as (s' & r' & up & D' & Hrun' & HM' & Hmk' & Hdg' & Hpos & Hmono & Hnew).
  { intros l' i' [Hd|[-> _]]; [specialize (HD _ _ Hd)|]; lia. }
  { done. }
  { done. }
  exists s', r', up, D'. split; [|split_and!; try done].
  - replace (reverse (seqZ 1 (Z.of_nat (S k)))) with (Z.of_nat (S k) :: reverse (seqZ 1 (Z.of_nat k))).
    + cbn [fold_each]. by rewrite (bind_step _ _ _ _ _ Hrun).
    + rewrite Nat2Z.inj_succ, seqZ_snoc, reverse_snoc by lia. f_equal. lia.
  - intros l' i' Hd. apply Hmono. by left.
  - intros l' i' Hd. destruct (Hnew _ _ Hd) as [[?|[-> _]]|?]; [by left|right; lia|right; lia].
Qed.

(** The root. *)
Lemma update_root_mid n s0 r0 s r D : Log.ok (clog s0) → Mid n s0 r0 s r D → (∀ l i, l < leaf → CRec.parts r0 !! (l, i) = None) →
  (∀ l' i', D l' i' → 0 < l') → (∀ i, live s0 0 i → i = 0) → live s0 0 0 → digests (λ l' i', l' = 0 ∧ i' = 0) s →
  ∃ s' r', update_root digest_of n s = Ret (tt, s') ∧ Mid n s0 r0 s' r' (λ l' i', D l' i' ∨ (l' = 0 ∧ i' = 0)) ∧
    digests (λ _ _, False) s'.
Proof.
  intros Hok HM Hinner HD Honly Hroot Hdg. pose proof HM as [Em En Ec El Hsh Hs Hold Hnew Hlog Hsd Hsaved Hkept Hdec].
  assert (live s 0 0) as Hroot' by (by apply (live_nb s0)). destruct (live_part _ _ _ Hsh Hroot') as [p Hp].
  pose proof leaf_range as Hlf. assert (0 < PLevelSize 0) as Hpos by (apply level_pos; lia).
  assert (Log.fetch (clog s) (lc s) = Ret r) as Hr by (rewrite El; apply Hlog).
  assert (CRec.parts r !! (0, 0) = None) as Hnone by (rewrite Hkept; [apply Hinner; lia|intros [Hd%HD _]; lia]).
  set (r' := CRec.mkRec (CRec.sd r) (<[(0, 0) := PartCopy p]> (CRec.parts r))).
  set (s1 := set_clog (Log.store (clog s) (lc s) r') s).
  set (x := state_block (content s 0 0) 0 n).
  set (s' := set_ptree (set2 (ptree s) 0 0 (mkPart n x)) s1).
  assert (shape s1) as Hsh1 by (by apply shape_same with s).
  assert (update_root digest_of n s = Ret (tt, s')) as Hrun.
  { unfold update_root. rewrite get_step, (bind_step _ _ _ _ _ (part_run _ _ _ _ Hp)).
    rewrite (bind_step _ _ s tt s1).
    2:{ eapply with_record_run; [done|]. unfold CRec.append. by rewrite bool_decide_eq_true_2 by done. }
    rewrite (bind_step _ _ _ _ _ (part_to_run s1 0 0 p _ Hp)). set (s2 := set_ptree _ s1).
    assert (shape s2) by (apply shape_set_ptree; [done|by eexists]).
    assert (at2 (ptree s2) 0 0 = Some (mkPart n (d p))) as Hp2
      by (unfold s2; cbn [ptree set_ptree]; rewrite at2_set2 by (by eexists); by rewrite decide_True).
    rewrite (bind_step _ _ _ _ _ (redigest_run s2 0 0 _ ltac:(done) Hp2 ltac:(intros _; eexists; split; [apply Hs; lia|apply DSum.mod_ok]))).
    cbn [lm]. unfold skip, s'. do 3 f_equal. unfold s2. cbn [ptree set_ptree]. by rewrite set2_set2. }
  exists s', r'. split; [done|].
  assert (∀ l' i', at2 (ptree s') l' i' = if decide (l' = 0 ∧ i' = 0) then Some (mkPart n x) else at2 (ptree s) l' i') as Hpt
    by (intros; apply at2_set2; by eexists).
  split.
  - split; try done.
    + apply (shape_set_ptree s1 0 0); [done|by eexists].
    + intros l i Hl Hi. cbn [stree s' set_ptree s1 set_clog]. rewrite Hs by done. do 2 f_equal.
      symmetry. unfold child_sum. apply (zsum_ext _ _ (seqZ 0 (width s (l + 1)))). intros j _.
      case_match; [|done]. rewrite Hpt, decide_False by lia. done.
    + intros l' i' Hn. rewrite Hpt, decide_False by tauto. apply Hold. tauto.
    + intros l' i' [Hd|[-> ->]]; rewrite Hpt.
      * split; [by apply Hnew|]. case_decide; [by eexists|by apply Hnew].
      * rewrite decide_True by done. split; [done|by eexists].
    + apply (only_record_trans _ (clog s) _ _ r); [done|]. cbn [clog s' set_ptree s1 set_clog]. rewrite El in *.
      eapply only_record_store; [apply Hlog|done].
    + intros l' i' [Hd|[-> ->]] Hlt.
      * destruct (Hsaved _ _ Hd Hlt) as (q & Hq & Hq'). exists q. split; [done|]. cbn.
        rewrite lookup_insert_ne; [done|]. intros [= <- <-]. apply HD in Hd. lia.
      * exists p. rewrite <- Hold by (intros Hd%HD; lia). split; [done|]. cbn. by rewrite lookup_insert_eq.
    + intros l' i' Hn. cbn. rewrite lookup_insert_ne; [apply Hkept; tauto|]. intros [= <- <-]. apply Hn.
      split; [by right|lia].
    + intros l' i'. destruct (Hdec l' i'), (decide (l' = 0 ∧ i' = 0)); tauto.
  - intros l' i' Hi'. right. apply (live_nb s) in Hi'; [|done].
    destruct (decide (l' = 0 ∧ i' = 0)) as [[-> ->]|Hne].
    + exists (mkPart n x). rewrite Hpt, decide_True by done. done.
    + destruct (Hdg l' i' Hi') as [?|(q & Hq & Hdq)]; [done|]. exists q. rewrite Hpt, decide_False by done. done.
Qed.

(** ** The whole tree *)
Lemma width_pos s l : 1 ≤ nb s → 0 ≤ l ≤ leaf → 1 ≤ width s l.
Proof.
  intros Hnb Hl. pose proof leaf_range as Hlf.
  assert (∀ k : nat, Z.of_nat k ≤ leaf → 1 ≤ width s (leaf - Z.of_nat k)) as G.
  { induction k as [|k IH]; intros Hk; [by rewrite Z.sub_0_r, width_leaf|].
    replace (leaf - Z.of_nat (S k)) with (leaf - Z.of_nat k - 1) by lia.
    rewrite width_step by lia. assert (0 < PSize (leaf - Z.of_nat k)) by (apply tree_siblings; lia).
    apply Z.div_le_lower_bound; [done|]. specialize (IH ltac:(lia)). lia. }
  specialize (G (Z.to_nat (leaf - l))). rewrite Z2Nat.id in G by lia.
  replace (leaf - (leaf - l)) with l in G by lia. apply G. lia.
Qed.

Lemma live_root s i : shape s → live s 0 i ↔ i = 0.
Proof.
  intros Hsh. pose proof leaf_range. pose proof (sh_nb _ Hsh) as Hnb. pose proof (width_level s 0) as Hw.
  pose proof (width_pos s 0). rewrite tree_root in Hw. unfold live. lia.
Qed.

Lemma Mid_refl n s r : shape s → sums s → Log.ok (clog s) → Log.fetch (clog s) (lc s) = Ret r → Mid n s r s r (λ _ _, False).
Proof. intros. split; try done. intros l i. right. by intros []. Qed.

(** [update_ptree] gives every written leaf and all of its ancestors the number [n] and a
    new digest, and saves the old values of the ancestors. *)
Lemma update_ptree_mid n s r : Log.ok (clog s) → shape s → sums s → digests (written s) s →
  Log.fetch (clog s) (lc s) = Ret r → (∀ l i, l < leaf → CRec.parts r !! (l, i) = None) →
  ∃ s' r' D, update_ptree digest_of n s = Ret (tt, s') ∧ Mid n s r s' r' D ∧ digests (λ _ _, False) s' ∧
    ∀ i, D leaf i ↔ 0 ≤ i < nb s ∧ BM.bit (cowb s) i = true.
Proof.
  intros Hok Hsh Hs Hdg Hr Hinner. pose proof leaf_range as Hlf. unfold update_ptree. rewrite get_step.
  rewrite (bind_step _ _ s r s) by (unfold record; rewrite get_step; by apply lift_run).
  pose proof (sh_cowb _ Hsh) as [Hwf Hn].
  assert (marks s leaf (cowb s)) as Hmk.
  { split; [done|]. unfold row_size. rewrite Z.eqb_refl. split; [done|]. intros i Hi _.
    split; [lia|]. rewrite width_leaf. lia. }
  assert (1 ≤ leaf ≤ leaf) as Hll by lia. assert (Z.of_nat (Z.to_nat (leaf - 1)) ≤ leaf) as Hkl by lia.
  destruct (update_level_mid n leaf s r s r (λ _ _, False) (cowb s) Hok Hsh Hinner Hll Hmk ltac:(done)
    (Mid_refl n s r Hsh Hs Hok Hr) Hdg) as (s1 & r1 & up1 & Hrun & HM1 & Hmk1 & Hdg1).
  replace (leaf - 1) with (Z.of_nat (Z.to_nat (leaf - 1))) in Hmk1, Hdg1 by lia.
  destruct (levels_mid n s r (Z.to_nat (leaf - 1)) Hok Hsh Hinner Hkl s1 r1 (marked (λ _ _, False) leaf (cowb s)) up1 Hmk1)
    as (s2 & r2 & up & D & Hrun' & HM2 & Hmk2 & Hdg2 & Hpos & Hmono & Hnew); [|done|done|].
  { intros l' i' [[]|[-> _]]. lia. }
  rewrite (bind_step _ _ s up s2).
  2:{ unfold levels_up. replace leaf with (Z.succ (Z.of_nat (Z.to_nat (leaf - 1)))) by lia.
      rewrite seqZ_snoc, reverse_snoc by lia. cbn [fold_each].
      replace (1 + Z.of_nat (Z.to_nat (leaf - 1))) with leaf by lia. by rewrite (bind_step _ _ _ _ _ Hrun). }
  assert (∀ i, D leaf i ↔ 0 ≤ i < nb s ∧ BM.bit (cowb s) i = true) as HDleaf.
  { intros i. rewrite <- Hn, <- elem_of_remaining. split.
    - intros [[[]|[_ Hi]]|?]%Hnew; [done|lia].
    - intros Hi. apply Hmono. by right. }
  destruct Hmk2 as (Hwf2 & Hn2 & Hlive2). unfold row_size in Hn2.
  rewrite (proj2 (Z.eqb_neq 0 leaf)), tree_root in Hn2 by lia.
  rewrite (bind_step _ _ s2 (BM.bit up 0) s2) by (apply lift_run, BM.test_bit; [done|lia]).
  destruct (BM.bit up 0) eqn:Hb.
  - destruct (update_root_mid n s r s2 r2 D Hok HM2 Hinner Hpos) as (s3 & r3 & Hrun3 & HM3 & Hdg3).
    + intros i. by apply live_root.
    + apply Hlive2; [lia|done].
    + intros l' i' Hi'. destruct (Hdg2 l' i' Hi') as [[-> Hbi]|?]; [left; split; [done|]|by right].
      apply (live_nb s) in Hi'; [|apply HM2]. by apply live_root in Hi'.
    + eexists s3, r3, _. split; [exact Hrun3|]. split; [exact HM3|]. split; [done|]. intros i. rewrite <- HDleaf.
      split; [|tauto]. intros [?|[? _]]; [done|lia].
  - exists s2, r2, D. split; [done|]. split; [done|]. split; [|done].
    intros l' i' Hi'. destruct (Hdg2 l' i' Hi') as [[-> Hbi]|?]; [|by right].
    apply (live_nb s) in Hi'; [|apply HM2]. apply live_root in Hi' as ->; [congruence|done].
Qed.

(** The store that [checkpoint] leaves. *)
Definition sealed (n : Z) (x : Dig.Digest) (r : CRec.Checkpoint_rec) (s : Store) : Store :=
  set_cowb (BM.clear (cowb s)) (set_clog (Log.store (clog s) n (CRec.set_sd x r)) (set_lc n s)).

Lemma sealed_inv n x r s : shape s → sums s → digests (λ _ _, False) s → Inv (sealed n x r s).
Proof.
  intros Hsh Hs Hdg. split.
  - destruct Hsh as [? ? ? ? [Hwf Hn]]. split; try done. split; [by apply BM.clear_wf|done].
  - by apply (sums_same s).
  - intros l i Hi. destruct (Hdg l i Hi) as [[]|?]. by right.
Qed.

Lemma checkpoint_mid n s r rn : Log.ok (clog s) → shape s → sums s → digests (written s) s →
  Log.fetch (clog s) (lc s) = Ret r → (∀ l i, l < leaf → CRec.parts r !! (l, i) = None) →
  (n ≠ lc s → Log.fetch (clog s) n = Ret rn) →
  ∃ s' r' D p, Mid n s r s' r' D ∧ digests (λ _ _, False) s' ∧ at2 (ptree s') 0 0 = Some p ∧
    (∀ i, D leaf i ↔ 0 ≤ i < nb s ∧ BM.bit (cowb s) i = true) ∧
    checkpoint digest_of n s = Ret (tt, sealed n (d p) (if decide (n = lc s) then r' else rn) s').
Proof.
  intros Hok Hsh Hs Hdg Hr Hinner Hn. pose proof leaf_range as Hlf.
  destruct (update_ptree_mid n s r Hok Hsh Hs Hdg Hr Hinner) as (s' & r' & D & Hrun & HM & Hdg' & HD).
  destruct (live_part s' 0 0) as [p Hp]; [apply HM|apply live_root; [apply HM|done]|].
  exists s', r', D, p. split; [done|]. split; [done|]. split; [done|]. split; [done|].
  unfold checkpoint. rewrite (bind_step _ _ _ _ _ Hrun).
  rewrite (bind_step _ _ s' tt (set_lc n s')) by done.
  rewrite (bind_step _ _ _ p (set_lc n s')) by (by apply (part_run (set_lc n s') 0 0 p)).
  rewrite (bind_step _ _ _ tt (set_clog (Log.store (clog (set_lc n s')) n (CRec.set_sd (d p) (if decide (n = lc s) then r' else rn))) (set_lc n s'))); [done|].
  apply with_record_run with (r := if decide (n = lc s) then r' else rn); [|done]. cbn [clog set_lc].
  destruct (mid_log _ _ _ _ _ _ HM) as [_ _ _ Hthis Hother].
  case_decide as E; [by rewrite E|]. rewrite Hother by done. by apply Hn.
Qed.
End inv.
End SInv.
