(* ===== verification/StateInit.v ===== *)
(** * StateInit: the digests at the start, and a checkpoint of an unchanged state (State.v)

    [compute_full_digest] fills the tree level by level from the leaves, and a checkpoint
    without a write since the last one changes no partition.  [init_inv] gives the invariant
    of StateInv.v for the first state. *)
From stdpp Require Import gmap.
From S2P Require Import Prelude Node Bitmap SeqLog Messages StateMonad Partition State StateInv.
#[local] Open Scope Z_scope.
Import State.

Module SInit.
Import SInv.
Section init.
Context `{Config} `{!ConfigOk} `{Tree} `{!TreeOk} `{Mpi} `{!MpiOk} (digest_of : list Z → Dig.Digest).

#[local] Abbreviation state_block := (State.state_block digest_of).

(** ** A checkpoint of a state without writes *)
Definition unmarked (b : BM.Bitmap) : Prop := BM.wf b ∧ ∀ i, 0 ≤ i < BM.num b → BM.bit b i = false.

Lemma unmarked_make sz : 0 ≤ sz ≤ 2 ^ 32 - 64 → unmarked (BM.make sz false).
Proof. intros Hsz. destruct (BM.make_spec _ false Hsz) as (Hwf & Hn & Hb). split; [done|]. rewrite Hn. by intros i Hi; apply Hb. Qed.

Lemma unmarked_clear b : BM.wf b → unmarked (BM.clear b).
Proof. intros Hb. split; [by apply BM.clear_wf|]. intros i Hi. apply BM.bit_clear. lia. Qed.

Lemma unmarked_remaining b : unmarked b → BM.remaining b true 0 = [].
Proof.
  intros [_ Hb]. unfold BM.remaining. destruct (filter _ _) as [|i l] eqn:E; [done|].
  assert (i ∈ BM.remaining b true 0) as Hi by (unfold BM.remaining; rewrite E; by left).
  apply elem_of_remaining in Hi as [Hi Ht]. rewrite Hb in Ht by lia. done.
Qed.

Lemma update_level_unmarked n l mods s : unmarked mods →
  update_level digest_of n l mods s = Ret (BM.make (PLevelSize (l - 1)) false, s).
Proof.
  intros Hm. unfold update_level. rewrite (bind_step _ _ _ _ _ (lift_run _ _ s (iter_marks _ (proj1 Hm)))).
  by rewrite unmarked_remaining.
Qed.

Lemma level_size_small l : 0 ≤ l < PLevels → 0 ≤ PLevelSize l ≤ 2 ^ 32 - 64.
Proof. intros Hl. pose proof (level_pos l Hl). assert (PLevelSize l < 2 ^ 31) by (by apply tree_int). lia. Qed.

Lemma update_ptree_unmarked n s r : unmarked (cowb s) → Log.fetch (clog s) (lc s) = Ret r →
  update_ptree digest_of n s = Ret (tt, s).
Proof.
  intros Hm Hr. pose proof leaf_range as Hlf. unfold update_ptree. rewrite get_step.
  rewrite (bind_step _ _ s r s) by (unfold record; rewrite get_step; by apply lift_run).
  assert (∀ (k : nat) mods, Z.of_nat k ≤ leaf → unmarked mods → ∃ up, unmarked up ∧ (k = O ∧ up = mods ∨ BM.num up = 1) ∧
    fold_each (reverse (seqZ 1 (Z.of_nat k))) mods (λ mods l, update_level digest_of n l mods) s = Ret (up, s)) as G.
  { induction k as [|k IH]; intros mods Hk Hmods; [exists mods; split; [done|]; split; [by left|done]|].
    assert (unmarked (BM.make (PLevelSize (Z.of_nat k)) false)) as Hup by (apply unmarked_make, level_size_small; lia).
    destruct (IH (BM.make (PLevelSize (Z.of_nat k)) false)) as (up & Hup' & Hnum & Hrun); [lia|done|].
    exists up. split; [done|]. split.
    - right. destruct Hnum as [[-> ->]|?]; [|done]. cbn. by rewrite tree_root.
    - rewrite Nat2Z.inj_succ, seqZ_snoc, reverse_snoc by lia. cbn [fold_each].
      rewrite (bind_step _ _ _ _ _ (update_level_unmarked n _ _ s Hmods)).
      by replace (1 + Z.of_nat k - 1) with (Z.of_nat k) by lia. }
  destruct (G (Z.to_nat leaf) (cowb s)) as (up & [Hwf Hup] & Hnum & Hrun); [lia|done|].
  rewrite Z2Nat.id in Hrun by lia. unfold levels_up. rewrite (bind_step _ _ _ _ _ Hrun).
  destruct Hnum as [[Hk _]|Hnum]; [lia|].
  rewrite (bind_step _ _ s false s); [done|]. apply lift_run. rewrite BM.test_bit by (done || lia).
  by rewrite Hup by lia.
Qed.

Lemma checkpoint_unmarked n s r rn p : unmarked (cowb s) → Log.fetch (clog s) (lc s) = Ret r →
  Log.fetch (clog s) n = Ret rn → at2 (ptree s) 0 0 = Some p →
  checkpoint digest_of n s = Ret (tt, sealed n (d p) rn s).
Proof.
  intros Hm Hr Hrn Hp. unfold checkpoint. rewrite (bind_step _ _ _ _ _ (update_ptree_unmarked n s r Hm Hr)).
  rewrite (bind_step _ _ s tt (set_lc n s)) by done.
  rewrite (bind_step _ _ _ p (set_lc n s)) by (by apply (part_run (set_lc n s) 0 0 p)).
  rewrite (bind_step _ _ _ tt (set_clog (Log.store (clog (set_lc n s)) n (CRec.set_sd (d p) rn)) (set_lc n s))); [done|].
  by apply with_record_run with (r := rn).
Qed.

(** ** The computation of all digests *)

(** The sum of the digests of the first [k] partitions of a level that are children of [(l, i)]. *)
Definition part_sum (s : Store) (l i k : Z) : Z :=
  zsum (λ j, if j `div` PSize (l + 1) =? i then value (at2 (ptree s) (l + 1) j) else 0) (seqZ 0 k).

(** How many partitions below level [l] are done when level [L] is done up to [k]. *)
Definition upto (s : Store) (L k l : Z) : Z :=
  if L <? l + 1 then width s (l + 1) else if l + 1 =? L then k else 0.

Record Fill (s0 s : Store) (L k : Z) : Prop := {
  fill_mem : mem s = mem s0;
  fill_nb : nb s = nb s0;
  fill_cowb : cowb s = cowb s0;
  fill_clog : clog s = clog s0;
  fill_lc : lc s = lc s0;
  fill_shape : shape s;
  fill_sums l i : 0 ≤ l < leaf → 0 ≤ i < PLevelSize l → at2 (stree s) l i = Some (part_sum s l i (upto s L k l) `mod` DSum.M);
  fill_digests l i : live s l i → (L < l ∨ (l = L ∧ i < k)) → digest_ok digest_of s l i;
  fill_lm l i p : at2 (ptree s) l i = Some p → lm p = 0;
  fill_dead l i : ¬ live s l i → at2 (ptree s) l i = at2 (ptree s0) l i;
}.

Lemma inner_row s l i : shape s → live s l i → l < leaf → 0 ≤ l < leaf ∧ 0 ≤ i < PLevelSize l.
Proof.
  intros Hsh Hi Hl. pose proof (live_row s l i Hsh Hi) as Hr. unfold row_size in Hr.
  rewrite (proj2 (Z.eqb_neq l leaf)) in Hr by lia. destruct Hi. lia.
Qed.

Lemma fill_redigest s0 s L k : Fill s0 s L k → live s L k →
  ∃ p, at2 (ptree s) L k = Some p ∧
  let x := state_block (content s L k) k (lm p) in
  redigest digest_of L k s = Ret (x, set_ptree (set2 (ptree s) L k (mkPart 0 x)) s).
Proof.
  intros [? ? ? ? ? Hsh Hs Hd Hlm _] Hi. destruct (live_part s L k Hsh Hi) as [p Hp]. exists p. split; [done|].
  assert (L < leaf → ∃ v, at2 (stree s) L k = Some v ∧ DSum.ok v) as Hv.
  { intros Hlt. destruct (inner_row s L k Hsh Hi Hlt). eexists. split; [by apply Hs|apply DSum.mod_ok]. }
  pose proof (redigest_run digest_of s L k p Hsh Hp Hv) as G. cbv zeta in G |- *.
  by rewrite (Hlm _ _ _ Hp) in G |- *.
Qed.

Lemma part_sum_other s L i x l' i' k : is_Some (at2 (ptree s) L i) → (l' + 1 ≠ L ∨ k ≤ i) →
  part_sum (set_ptree (set2 (ptree s) L i x) s) l' i' k = part_sum s l' i' k.
Proof.
  intros Hp Hn. apply zsum_ext. intros j Hj%elem_of_seqZ. case_match; [|done].
  cbn [ptree set_ptree]. rewrite at2_set2 by done. rewrite decide_False; [done|]. intros [? ?]. lia.
Qed.

Lemma fill_step s0 s L k : 1 ≤ L → Fill s0 s L k → live s L k →
  ∃ s', (x ← redigest digest_of L k; sum_add (L - 1) (k `div` PSize L) x) s = Ret (tt, s') ∧ Fill s0 s' L (k + 1).
Proof.
  intros HL HF Hi. destruct (fill_redigest _ _ _ _ HF Hi) as (p & Hp & Hrun). cbv zeta in Hrun.
  destruct HF as [Em En Ec Eg El Hsh Hs Hd Hlm Hdead]. set (x := state_block _ _ _) in Hrun.
  set (s1 := set_ptree _ s) in Hrun. destruct (parent_sum s L k Hsh HL Hi) as [Hpl Hpi].
  rewrite (bind_step _ _ _ _ _ Hrun).
  assert (at2 (stree s1) (L - 1) (k `div` PSize L) = Some (part_sum s (L - 1) (k `div` PSize L) k `mod` DSum.M)) as Hv.
  { cbn [stree s1 set_ptree]. rewrite Hs by done. unfold upto. replace (L - 1 + 1) with L by lia.
    by rewrite Z.ltb_irrefl, Z.eqb_refl. }
  eexists. split; [apply (sum_add_run _ _ _ _ x Hv), DSum.mod_ok|]. rewrite Zplus_mod_idemp_l.
  assert (is_Some (at2 (ptree s) L k)) as Hsome by (by eexists).
  assert (shape s1) as Hsh1 by (by apply shape_set_ptree).
  split; try done.
  - apply shape_set_stree; [done|]. by eexists.
  - intros l i Hl Hi'. cbn [stree set_stree]. change (part_sum (set_stree _ s1)) with (part_sum s1).
    change (upto (set_stree _ s1)) with (upto s). rewrite at2_set2 by (by eexists). cbn [stree s1 set_ptree].
    case_decide as D.
    + destruct D as [-> ->]. unfold upto. replace (L - 1 + 1) with L by lia. rewrite Z.ltb_irrefl, Z.eqb_refl.
      do 2 f_equal. unfold part_sum at 2. rewrite (Z.add_1_r k), seqZ_snoc by (destruct Hi; lia).
      rewrite zsum_snoc. replace (L - 1 + 1) with L by lia. rewrite Z.add_0_l, Z.eqb_refl.
      rewrite <- (part_sum_other s L k (mkPart 0 x)) by (done || (right; lia)). fold s1.
      unfold part_sum. replace (L - 1 + 1) with L by lia. f_equal. cbn [ptree s1 set_ptree].
      rewrite at2_set2 by done. by rewrite decide_True by done.
    + rewrite Hs by done. do 2 f_equal. unfold upto. destruct (L <? l + 1) eqn:E1; zprop.
      { symmetry. apply part_sum_other; [done|]. left. lia. }
      destruct (l + 1 =? L) eqn:E2; zprop; [|symmetry; apply part_sum_other; [done|left; lia]].
      assert (l = L - 1) as -> by lia. unfold part_sum. rewrite (Z.add_1_r k), seqZ_snoc by (destruct Hi; lia).
      rewrite zsum_snoc, Z.add_0_l. replace (L - 1 + 1) with L by lia.
      assert (k `div` PSize L ≠ i) as Hki by (intros <-; by apply D).
      rewrite (proj2 (Z.eqb_neq (k `div` PSize L) i) Hki), Z.add_0_r.
      apply zsum_ext. intros j Hj%elem_of_seqZ. case_match; [|done]. cbn [ptree s1 set_ptree].
      rewrite at2_set2 by done. by rewrite decide_False by lia.
  - intros l i Hi' Hlk. change (live s l i) in Hi'.
    assert (content (set_stree (set2 (stree s1) (L - 1) (k `div` PSize L)
      ((part_sum s (L - 1) (k `div` PSize L) k + DSum.of_digest x) `mod` DSum.M)) s1) l i = content s l i) as Hc.
    { unfold content. cbn [mem stree set_stree s1 set_ptree]. case_match; [done|]. do 2 f_equal.
      rewrite at2_set2 by (apply (sh_stree _ Hsh); done). rewrite decide_False; [done|]. lia. }
    destruct (decide (l = L ∧ i = k)) as [[-> ->]|Hne].
    + exists (mkPart 0 x). cbn [ptree set_stree s1 set_ptree]. rewrite at2_set2 by done.
      rewrite decide_True by done. split; [done|]. cbn [d lm]. rewrite Hc. unfold x. by rewrite (Hlm _ _ _ Hp).
    + destruct (Hd l i Hi') as (q & Hq & Hdq); [lia|]. exists q. cbn [ptree set_stree s1 set_ptree].
      rewrite at2_set2 by done. rewrite decide_False by done. split; [done|]. by rewrite Hc.
  - intros l i q. cbn [ptree set_stree s1 set_ptree]. rewrite at2_set2 by done.
    case_decide; [by intros [= <-]|apply Hlm].
  - intros l i Hn. change (¬ live s l i) in Hn. cbn [ptree set_stree s1 set_ptree]. rewrite at2_set2 by done.
    rewrite decide_False by (intros [-> ->]; done). by apply Hdead.
Qed.

Lemma Fill_width s0 s L k l : Fill s0 s L k → width s l = width s0 l.
Proof. intros HF. unfold width. by rewrite (fill_nb _ _ _ _ HF). Qed.

Lemma full_level_fill s0 s L : 1 ≤ L ≤ leaf → Fill s0 s L 0 →
  ∃ s', full_level digest_of (width s0 L) L s = Ret (width s0 (L - 1), s') ∧ Fill s0 s' (L - 1) 0.
Proof.
  intros HL HF. pose proof (sh_nb _ (fill_shape _ _ _ _ HF)) as Hnb. rewrite (fill_nb _ _ _ _ HF) in Hnb.
  assert (0 ≤ width s0 L) as Hw by (apply width_level; lia).
  destruct (for_each_seqZ (λ k s, Fill s0 s L k) (λ i, x ← redigest digest_of L i; sum_add (L - 1) (i `div` PSize L) x)
    (width s0 L) s Hw HF) as (s' & Hrun & HF').
  { intros k s1 Hk HF1. apply fill_step; [lia|done|]. split; [lia|]. by rewrite (Fill_width _ _ _ _ L HF1). }
  exists s'. split.
  { unfold full_level. rewrite (bind_step _ _ _ _ _ Hrun). by rewrite width_step by lia. }
  destruct HF' as [Em En Ec Eg El Hsh Hs Hd Hlm Hdead]. split; try done.
  - intros l i Hl Hi. rewrite Hs by done. do 3 f_equal. unfold upto.
    destruct (L <? l + 1) eqn:E1, (L - 1 <? l + 1) eqn:E2; zprop; try lia.
    + assert (l + 1 = L) as -> by lia. rewrite Z.eqb_refl. unfold width. by rewrite En.
    + rewrite (proj2 (Z.eqb_neq (l + 1) L)) by lia. by case_match.
  - intros l i Hi Hlt. apply Hd; [done|]. destruct (decide (l = L)) as [->|]; [|destruct Hi; lia]. right.
    split; [done|]. destruct Hi as [_ Hi]. unfold width in *. rewrite En in Hi. lia.
Qed.

Lemma fill_levels s0 (k : nat) s : Z.of_nat k ≤ leaf → Fill s0 s (Z.of_nat k) 0 →
  ∃ s', fold_each (reverse (seqZ 1 (Z.of_nat k))) (width s0 (Z.of_nat k)) (full_level digest_of) s = Ret (width s0 0, s') ∧
    Fill s0 s' 0 0.
Proof.
  revert s. induction k as [|k IH]; intros s Hk HF; [by exists s|].
  assert (1 ≤ Z.of_nat (S k) ≤ leaf) as Hl by lia.
  destruct (full_level_fill s0 s _ Hl HF) as (s1 & Hrun & HF1).
  replace (Z.of_nat (S k) - 1) with (Z.of_nat k) in * by lia.
  destruct (IH s1) as (s' & Hrun' & HF'); [lia|done|]. exists s'. split; [|done].
  replace (reverse (seqZ 1 (Z.of_nat (S k)))) with (Z.of_nat (S k) :: reverse (seqZ 1 (Z.of_nat k))).
  { cbn [fold_each]. by rewrite (bind_step _ _ _ _ _ Hrun). }
  rewrite Nat2Z.inj_succ, seqZ_snoc, reverse_snoc by lia. f_equal. lia.
Qed.

(** The root, when the rest is done. *)
Lemma fill_root s0 s : Fill s0 s 0 0 →
  ∃ x s', redigest digest_of 0 0 s = Ret (x, s') ∧ shape s' ∧ sums s' ∧ digests digest_of (λ _ _, False) s' ∧
    mem s' = mem s0 ∧ nb s' = nb s0 ∧ cowb s' = cowb s0 ∧ clog s' = clog s0 ∧ lc s' = lc s0 ∧
    (∀ l i p, at2 (ptree s') l i = Some p → lm p = 0) ∧ ∀ l i, ¬ live s' l i → at2 (ptree s') l i = at2 (ptree s0) l i.
Proof.
  intros HF. pose proof HF as [Em En Ec Eg El Hsh Hs Hd Hlm Hdead]. pose proof leaf_range.
  assert (live s 0 0) as Hroot by (by apply live_root).
  destruct (fill_redigest _ _ _ _ HF Hroot) as (p & Hp & Hrun). cbv zeta in Hrun.
  set (x := state_block _ _ _) in Hrun. assert (is_Some (at2 (ptree s) 0 0)) as Hsome by (by eexists).
  eexists x, _. split; [exact Hrun|]. split; [by apply shape_set_ptree|]. split; [|split; [|split_and!; try done]].
  - intros l i Hl Hi. cbn [stree set_ptree]. rewrite Hs by done. do 2 f_equal. unfold upto.
    rewrite (proj2 (Z.ltb_lt 0 (l + 1))) by lia.
    symmetry. apply part_sum_other; [done|]. left. lia.
  - intros l i Hi. change (live s l i) in Hi. right. destruct (decide (l = 0 ∧ i = 0)) as [[-> ->]|Hne].
    + exists (mkPart 0 x). cbn [ptree set_ptree]. rewrite at2_set2, decide_True by done. split; [done|].
      unfold x. by rewrite (Hlm _ _ _ Hp).
    + destruct (Hd l i Hi) as (q & Hq & Hdq).
      { destruct (decide (l = 0)) as [->|]; [|destruct Hi; lia]. apply live_root in Hi as ->; [tauto|done]. }
      exists q. cbn [ptree set_ptree]. rewrite at2_set2, decide_False by done. done.
  - intros l i q. cbn [ptree set_ptree]. rewrite at2_set2 by done. case_decide; [by intros [= <-]|apply Hlm].
  - intros l i Hn. change (¬ live s l i) in Hn. cbn [ptree set_ptree]. rewrite at2_set2 by done.
    rewrite decide_False by (intros [-> ->]; done). by apply Hdead.
Qed.

(** ** The first state *)
Lemma make_shape memory : 1 ≤ zlen memory ≤ PLevelSize leaf → shape (make memory).
Proof.
  intros Hm. pose proof leaf_range as Hlf. assert (PLevelSize leaf < 2 ^ 31) by (apply tree_int; lia).
  destruct (BM.make_spec (zlen memory) false) as (Hwf & Hn & _); [lia|].
  split; try done; cbn [make ptree stree nb]; intros l i.
  - rewrite at2_fmap_seqZ. case_decide.
    + rewrite zget_is_Some, zlen_replicate. unfold row_size. cbn [nb make]. case_match; zprop; [lia|].
      assert (0 < PLevelSize l) by (apply level_pos; lia). lia.
    + split; [by intros []|lia].
  - rewrite at2_fmap_seqZ. case_decide.
    + rewrite zget_is_Some, zlen_replicate. assert (0 < PLevelSize l) by (apply level_pos; lia). lia.
    + split; [by intros []|lia].
Qed.

Lemma make_parts memory l i p : at2 (ptree (make memory)) l i = Some p → p = mkPart 0 Dig.zero.
Proof.
  cbn [make ptree]. rewrite at2_fmap_seqZ. case_decide; [|done]. unfold zget. case_decide; [|done].
  by intros [-> _]%lookup_replicate.
Qed.

Lemma make_fill memory : 1 ≤ zlen memory ≤ PLevelSize leaf → Fill (make memory) (make memory) leaf 0.
Proof.
  intros Hm. pose proof leaf_range as Hlf. split; try done.
  - by apply make_shape.
  - intros l i Hl Hi. cbn [make stree]. rewrite at2_fmap_seqZ, decide_True by lia.
    rewrite zget_replicate by lia. unfold upto. rewrite (proj2 (Z.ltb_ge leaf (l + 1))) by lia.
    by destruct (l + 1 =? leaf).
  - intros l i [Hl Hi] [?|[-> ?]]; lia.
  - by intros l i p ->%make_parts.
Qed.

Lemma make_log memory : (∃ k, 0 ≤ k < 31 ∧ max_out = 2 ^ k) → Log.ok (clog (make memory)).
Proof.
  intros (k & Hk & E). cbn. pose proof config_max_out. assert (k < 20) by (apply (Z.pow_lt_mono_r_iff 2); lia).
  replace (max_out * 2) with (2 ^ (k + 1)) by (rewrite Z.pow_add_r, <- E by lia; lia).
  apply Log.log_make_ok. lia.
Qed.

Lemma make_record memory n : (∃ k, 0 ≤ k < 31 ∧ max_out = 2 ^ k) → 0 ≤ n < max_out * 2 →
  Log.fetch (clog (make memory)) n = Ret CRec.make.
Proof.
  intros Hk Hn. pose proof (make_log memory Hk) as Hok. pose proof (Log.mod_spec _ n Hok) as [_ Hm].
  unfold Log.fetch. replace (Log.within_range _ _) with true.
  - cbn [th_assert mbind outcome_bind]. cbn [clog make Log.make Log.elems Log.max_size] in *.
    by rewrite zget_replicate by lia.
  - symmetry. unfold Log.within_range. cbn. rewrite Z.geb_leb. by zbool.
Qed.

(** The state after the constructor and [compute_full_digest]. *)
Definition first (memory : list Block) (s : Store) (p : Part) : Prop :=
  Inv digest_of s ∧ mem s = memory ∧ nb s = zlen memory ∧ lc s = 0 ∧ unmarked (cowb s) ∧
  (∀ l i q, at2 (ptree s) l i = Some q → lm q = 0) ∧ (∀ l i q, at2 (ptree s) l i = Some q → ¬ live s l i → q = mkPart 0 Dig.zero) ∧
  at2 (ptree s) 0 0 = Some p ∧
  only_record (clog (make memory)) (clog s) 0 (CRec.set_sd (d p) CRec.make) ∧
  Forall (λ r, r = CRec.make ∨ r = CRec.set_sd (d p) CRec.make) (Log.elems (clog s)).

Lemma compute_full_digest_first memory : (∃ k, 0 ≤ k < 31 ∧ max_out = 2 ^ k) → 1 ≤ zlen memory ≤ PLevelSize leaf →
  ∃ s p, compute_full_digest digest_of (make memory) = Ret (tt, s) ∧ first memory s p.
Proof.
  intros Hk Hm. pose proof leaf_range as Hlf. pose proof config_interval as Hci.
  destruct (fill_levels (make memory) (Z.to_nat leaf) (make memory)) as (s1 & Hrun & HF).
  { lia. } { rewrite Z2Nat.id by lia. by apply make_fill. }
  rewrite Z2Nat.id, width_leaf in Hrun by lia.
  destruct (fill_root _ _ HF) as (x & s2 & Hroot & Hsh & Hs & Hd & Em & En & Ec & Eg & El & Hlm & Hdead).
  set (s3 := set_cowb (BM.clear (cowb s2)) s2).
  pose proof (make_record memory 0 Hk ltac:(lia)) as Hrec. rewrite <- Eg in Hrec.
  set (s4 := set_clog (Log.store (clog s3) 0 CRec.make) s3).
  destruct (live_part s2 0 0 Hsh ltac:(by apply live_root)) as [p Hp].
  assert (only_record (clog s2) (clog s4) 0 CRec.make) as Hor.
  { apply (only_record_store (clog s2) 0 CRec.make CRec.make); [|done]. rewrite Eg. by apply make_log. }
  assert (unmarked (cowb s2)) as Hmarks.
  { rewrite Ec. cbn. apply unmarked_make. assert (PLevelSize leaf < 2 ^ 31) by (apply tree_int; lia). lia. }
  assert (shape s4) as Hsh4.
  { destruct Hsh as [? ? ? ? [Hwf Hn]]. split; try done. split; [by apply BM.clear_wf|done]. }
  exists (sealed 0 (d p) CRec.make s4), p. split.
  { unfold compute_full_digest. rewrite get_step. unfold levels_up. rewrite (bind_step _ _ _ _ _ Hrun).
    rewrite (bind_step _ _ _ _ _ Hroot), (bind_step _ _ s2 tt s3) by done. rewrite (bind_step _ _ s3 tt s4).
    - apply checkpoint_unmarked with CRec.make; [|change (lc s4) with (lc s2); rewrite El; apply Hor|by apply Hor|done].
      apply unmarked_clear, Hmarks.
    - by apply with_record_run with CRec.make. }
  split; [|split_and!; try done].
  - apply sealed_inv; [done|by apply (sums_same s2)|]. intros l i Hi. by apply (Hd l i).
  - apply unmarked_clear, BM.clear_wf, Hmarks.
  - intros l i q Hq Hn. apply (make_parts memory l i). rewrite <- Hdead; done.
  - rewrite <- Eg. apply (only_record_trans _ (clog s4) _ _ CRec.make); [done|].
    eapply only_record_store; apply Hor.
  - cbn. repeat apply Forall_zset; [|by left|by right]. change (clog s3) with (clog s2). rewrite Eg. cbn. apply Forall_replicate. by left.
Qed.
End init.
End SInit.
