(* ===== verification/StateHist.v ===== *)
(** * StateHist: the checkpoints are snapshots (State.v)

    The specification is a map from the number of a checkpoint to a snapshot of the memory
    and of the tree at that moment ([Snap]).  [hist s σ] says that the code reaches [s] and
    took the snapshots [σ] on the way, by writes, checkpoints, rollbacks and discards of old
    checkpoints.  The code keeps no snapshots but the first old value of what changed;
    [HInv] relates both, and from it follow that the code never stops, that every checkpoint
    of the log reads back as its snapshot, and that a rollback restores the last one. *)
From stdpp Require Import gmap.
From S2P Require Import Prelude Node Bitmap SeqLog Messages StateMonad Partition State StateInv StateInit.
#[local] Open Scope Z_scope.
Import State.

Record Snap := mkSnap { sn_mem : list Block; sn_ptree : list (list Part) }.

Module SHist.
Import SInv SInit.

(** ** The first copy in the records *)
Fixpoint look (g : Log.t CRec.Checkpoint_rec) (ns : list Z) (l i : Z) : option copy :=
  match ns with
  | [] => None
  | n :: ns =>
      match Log.fetch g n with
      | Ret r => match CRec.parts r !! (l, i) with Some x => Some x | None => look g ns l i end
      | Err _ => look g ns l i
      end
  end.

Lemma look_ext g g' ns l i : (∀ n, n ∈ ns → Log.fetch g' n = Log.fetch g n) → look g' ns l i = look g ns l i.
Proof.
  induction ns as [|n ns IH]; intros He; [done|]. cbn [look]. rewrite He by (by left).
  rewrite IH by (intros m Hm; apply He; by right). done.
Qed.

Lemma look_snoc g ns n r l i : Log.fetch g n = Ret r →
  look g (ns ++ [n]) l i = match look g ns l i with Some x => Some x | None => CRec.parts r !! (l, i) end.
Proof.
  intros Hr. induction ns as [|m ns IH]; cbn [app look].
  - rewrite Hr. by destruct (CRec.parts r !! (l, i)).
  - destruct (Log.fetch g m) as [rm|]; [|done]. by destruct (CRec.parts rm !! (l, i)).
Qed.

Section hist.
Context `{Config} `{!ConfigOk} `{Tree} `{!TreeOk} `{Mpi} `{!MpiOk} (digest_of : list Z → Dig.Digest).

(** No digest is the null digest. *)
Context (digest_nonzero : ∀ l, Dig.is_zero (digest_of l) = false) (window : ∃ k, 0 ≤ k < 31 ∧ max_out = 2 ^ k).

Definition snap (s : Store) : Snap := mkSnap (mem s) (ptree s).

(** ** Numbers of checkpoints *)
Definition is_ckpt (n : Z) : Prop := n `mod` checkpoint_interval = 0.

Lemma is_ckpt_add n : is_ckpt n → is_ckpt (n + checkpoint_interval).
Proof.
  unfold is_ckpt. intros E. pose proof config_interval. rewrite <- (Z.mul_1_l checkpoint_interval) at 1.
  by rewrite Z_mod_plus_full.
Qed.

Lemma is_ckpt_eq n : is_ckpt n → n = checkpoint_interval * (n `div` checkpoint_interval).
Proof.
  unfold is_ckpt. intros E. pose proof config_interval as Hc.
  pose proof (Z_div_mod_eq_full n checkpoint_interval) as D. lia.
Qed.

Lemma is_ckpt_between c m : is_ckpt c → is_ckpt m → c < m → c + checkpoint_interval ≤ m.
Proof.
  intros Hc%is_ckpt_eq Hm%is_ckpt_eq Hlt. pose proof config_interval as [Hci _]. revert Hc Hm Hlt.
  generalize (c `div` checkpoint_interval) (m `div` checkpoint_interval). intros a b -> -> Hlt.
  apply Z.mul_lt_mono_pos_l in Hlt; [|done]. nia.
Qed.

Lemma ckpts_snoc c n : is_ckpt c → is_ckpt n → c ≤ n → ckpts_from c n = ckpts_from c (n - checkpoint_interval) ++ [n].
Proof.
  intros Hc Hn Hle. pose proof config_interval as Hci. unfold ckpts_from.
  assert ((n - checkpoint_interval - c) `div` checkpoint_interval = (n - c) `div` checkpoint_interval - 1) as ->.
  { replace (n - checkpoint_interval - c) with (n - c + (-1) * checkpoint_interval) by lia. rewrite Z.div_add by lia. lia. }
  assert (0 ≤ (n - c) `div` checkpoint_interval) as Hk by (apply Z.div_pos; lia).
  replace ((n - c) `div` checkpoint_interval - 1 + 1) with ((n - c) `div` checkpoint_interval) by lia.
  rewrite Z.add_1_r, seqZ_snoc, fmap_app by done. cbn [fmap list_fmap]. do 2 f_equal.
  apply is_ckpt_eq in Hc, Hn. set (a := c `div` _) in Hc. set (b := n `div` _) in Hn. rewrite Z.add_0_l.
  replace (n - c) with ((b - a) * checkpoint_interval) by lia. rewrite Z.div_mul by lia. lia.
Qed.

Lemma elem_of_ckpts c n m : is_ckpt c → m ∈ ckpts_from c n → is_ckpt m ∧ c ≤ m ≤ Z.max (c - 1) n.
Proof.
  intros Hc (k & -> & Hk%elem_of_seqZ)%list_elem_of_fmap. pose proof config_interval as Hci. split.
  - unfold is_ckpt in *. by rewrite Z_mod_plus_full.
  - pose proof (Z_div_mod_eq_full (n - c) checkpoint_interval).
    pose proof (Z.mod_pos_bound (n - c) checkpoint_interval). nia.
Qed.

(** ** The invariant *)

(** What the record [r] of the last checkpoint holds, when the memory was [base] then. *)
Record Last (s : Store) (base : list Block) (r : CRec.Checkpoint_rec) : Prop := {
  la_len : zlen base = nb s;
  la_inner l i : l < leaf → CRec.parts r !! (l, i) = None;
  la_leaf i : 0 ≤ i < nb s →
    match CRec.parts r !! (leaf, i) with
    | Some x => BM.bit (cowb s) i = true ∧
        ∃ p b, x = BlockCopy p b ∧ at2 (ptree s) leaf i = Some p ∧ zget base i = Some b ∧
          d p = state_block digest_of b i (lm p)
    | None => BM.bit (cowb s) i = false ∧ zget (mem s) i = zget base i
    end;
}.

Definition before (s : Store) (c : Z) : list Z := ckpts_from c (lc s - checkpoint_interval).

(** The records from [c] to the last but one have what changed after [c]. *)
Definition Old (s : Store) (base : list Block) (c : Z) (sn : Snap) : Prop := ∀ l i p, at2 (ptree s) l i = Some p →
  match look (clog s) (before s c) l i with
  | Some x => c < lm p ∧ at2 (sn_ptree sn) l i = Some (copy_part x) ∧
      (l = leaf → ∃ q b, x = BlockCopy q b ∧ zget (sn_mem sn) i = Some b)
  | None => lm p ≤ c ∧ at2 (sn_ptree sn) l i = Some p ∧ (l = leaf → zget (sn_mem sn) i = zget base i)
  end.

Definition tidy (r : CRec.Checkpoint_rec) : Prop := CRec.is_cleared r = true → CRec.parts r = ∅.

Record HInv (s : Store) (σ : gmap Z Snap) (last : Snap) (r : CRec.Checkpoint_rec) : Prop := {
  hi_inv : Inv digest_of s;
  hi_lc : 0 ≤ lc s ∧ is_ckpt (lc s);
  hi_ok : Log.ok (clog s);
  hi_head : 0 ≤ Log.head (clog s);
  hi_last : σ !! lc s = Some last ∧ sn_ptree last = ptree s;
  hi_rec : Log.fetch (clog s) (lc s) = Ret r;
  hi_cur : Last s (sn_mem last) r;
  hi_kept c : Log.within_range (clog s) c = true → c ≤ lc s → is_ckpt c → ∃ sn rc p,
    σ !! c = Some sn ∧ Log.fetch (clog s) c = Ret rc ∧ at2 (sn_ptree sn) 0 0 = Some p ∧ CRec.sd rc = d p ∧
    Dig.is_zero (d p) = false ∧ Old s (sn_mem last) c sn;
  hi_after n rn : Log.fetch (clog s) n = Ret rn → lc s < n → CRec.is_cleared rn = true;
  hi_tidy : Forall tidy (Log.elems (clog s));
}.

Lemma fetch_in {T} (g : Log.t T) n x : Log.fetch g n = Ret x → Log.within_range g n = true.
Proof. unfold Log.fetch. intros E. by invert_outcome. Qed.

Lemma fetch_tidy g n r : Forall tidy (Log.elems g) → Log.fetch g n = Ret r → tidy r.
Proof.
  intros Hg Hr. unfold Log.fetch in Hr. apply outcome_bind_Ret in Hr as (u & _ & Hr). apply of_option_Ret in Hr.
  by apply (Forall_zget _ _ _ _ Hg Hr).
Qed.

Lemma window_range {T} (g : Log.t T) n : Log.within_range g n = true ↔ Log.head g ≤ n < Log.head g + Log.max_size g.
Proof. unfold Log.within_range. rewrite andb_true_iff, Z.geb_leb, Z.leb_le, Z.ltb_lt. done. Qed.

(** The tree below the root is not empty, and its digest is one. *)
Lemma root_nonzero s : shape s → digests digest_of (written s) s →
  ∃ p, at2 (ptree s) 0 0 = Some p ∧ Dig.is_zero (d p) = false.
Proof.
  intros Hsh Hd. pose proof leaf_range. destruct (Hd 0 0) as [[? _]|(p & Hp & Hdp)]; [by apply live_root|lia|].
  exists p. split; [done|]. rewrite Hdp. apply digest_nonzero.
Qed.

(** ** Writes *)
Lemma Inv_change s s' : mem s' = mem s → nb s' = nb s → ptree s' = ptree s → stree s' = stree s →
  BM.wf (cowb s') ∧ BM.num (cowb s') = nb s → (∀ i, 0 ≤ i < nb s → BM.bit (cowb s) i = true → BM.bit (cowb s') i = true) →
  Inv digest_of s → Inv digest_of s'.
Proof.
  intros E1 E2 E3 E4 Hcb Hmono [Hsh Hs Hd]. split.
  - destruct Hsh. split; unfold row_size in *; rewrite ?E1, ?E2, ?E3, ?E4; done.
  - by apply (sums_same s).
  - intros l i Hi. apply (live_nb s) in Hi; [|done].
    destruct (Hd l i Hi) as [[-> Hb]|(p & Hp & Hdp)]; [left; split; [done|]; apply Hmono; [|done]; destruct Hi as [_ Hi]; by rewrite width_leaf in Hi|right].
    exists p. rewrite E3. split; [done|]. by rewrite (content_same s s').
Qed.

Lemma block_run s i b : zget (mem s) i = Some b → block i s = Ret (b, s).
Proof. intros E. unfold block. rewrite get_step. unfold lift. by rewrite E. Qed.

Lemma leaf_part s i : shape s → 0 ≤ i < nb s → ∃ p, at2 (ptree s) leaf i = Some p.
Proof. intros Hsh Hi. apply live_part; [done|]. pose proof leaf_range. split; [lia|]. by rewrite width_leaf. Qed.

Lemma before_lc s c : before s c = ckpts_from c (lc s - checkpoint_interval).
Proof. done. Qed.

(** The records before the last one decide about [Old]. *)
Lemma Old_same s s' base c sn : ptree s' = ptree s → lc s' = lc s → is_ckpt (lc s) → is_ckpt c → c ≤ lc s →
  (∀ n, is_ckpt n → c ≤ n < lc s → Log.fetch (clog s') n = Log.fetch (clog s) n) → Old s base c sn → Old s' base c sn.
Proof.
  intros Ep El Hlc Hc Hle Hf HO l i p Hp. rewrite Ep in Hp. specialize (HO l i p Hp).
  unfold before in *. rewrite El. rewrite (look_ext (clog s)); [done|].
  intros n Hn. apply elem_of_ckpts in Hn as [Hn Hr]; [|done]. apply Hf; [done|]. pose proof config_interval. lia.
Qed.

Lemma HInv_store s σ last r r' s' : HInv s σ last r → ptree s' = ptree s → lc s' = lc s →
  clog s' = Log.store (clog s) (lc s) r' → CRec.sd r' = CRec.sd r → Inv digest_of s' → Last s' (sn_mem last) r' →
  HInv s' σ last r'.
Proof.
  intros [HI [Hlc Hck] Hok Hh [Hl Hlp] Hr Hcur Hkept Hafter Htidy] Ep El Eg Esd HI' Hcur'.
  destruct (only_record_store (clog s) (lc s) r r' Hok Hr) as [Hok' Hh' Hrng Hthis Hother].
  rewrite <- Eg in *. pose proof (fetch_in _ _ _ Hr) as Hin.
  assert (CRec.is_cleared r' = false) as Hsd.
  { destruct (Hkept (lc s) Hin ltac:(lia) Hck) as (sn & rc & p & _ & Hrc & _ & E & Hz & _).
    unfold CRec.is_cleared. rewrite Esd. assert (rc = r) as -> by congruence. by rewrite E. }
  split; try done.
  - by rewrite El.
  - by rewrite Hh'.
  - rewrite El, Ep. done.
  - by rewrite El.
  - intros c Hc Hle Hckc. rewrite El in Hle. rewrite Hrng in Hc.
    destruct (Hkept c Hc Hle Hckc) as (sn & rc & p & Hsn & Hrc & Hp & Ed & Hz & HO).
    exists sn, (if decide (c = lc s) then r' else rc), p. split_and!; try done.
    + case_decide as D; [by rewrite D|by rewrite Hother].
    + case_decide as D; [|done]. rewrite D in Hrc. rewrite Esd. congruence.
    + apply (Old_same s); try done. intros n _ Hn. apply Hother. lia.
  - intros n rn Hn Hlt. rewrite El in Hlt. rewrite Hother in Hn by lia. by eapply Hafter.
  - rewrite Eg. cbn. apply Forall_zset; [done|]. intros Hc. congruence.
Qed.

(** The first write to a block saves it, later ones do nothing. *)
Lemma cow_block_run s σ last r i : HInv s σ last r → 0 ≤ i < nb s →
  ∃ s' r', cow_block i s = Ret (tt, s') ∧ HInv s' σ last r' ∧ BM.bit (cowb s') i = true ∧
    nb s' = nb s ∧ lc s' = lc s ∧ mem s' = mem s ∧
    ∀ j, 0 ≤ j < nb s → BM.bit (cowb s) j = true → BM.bit (cowb s') j = true.
Proof.
  intros HH Hi. pose proof HH as [HI [Hlc Hck] Hok Hh [Hl Hlp] Hr Hcur Hkept Hafter Htidy].
  pose proof (inv_shape _ _ HI) as Hsh. destruct (sh_cowb _ Hsh) as [Hwf Hn].
  pose proof (la_leaf _ _ _ Hcur i Hi) as Hleaf. unfold cow_block. rewrite get_step.
  rewrite (bind_step _ _ s (BM.bit (cowb s) i) s) by (apply lift_run, BM.test_bit; [done|lia]).
  destruct (BM.bit (cowb s) i) eqn:Eb; [by exists s, r|].
  destruct (CRec.parts r !! (leaf, i)) as [?|] eqn:Enone; [by destruct Hleaf|]. destruct Hleaf as [_ Hmem].
  destruct (leaf_part s i Hsh Hi) as [p Hp].
  destruct (zget_lookup (mem s) i) as [b Hb]; [by rewrite (sh_mem _ Hsh)|].
  rewrite <- Hn in Hi. destruct (BM.assign_spec (cowb s) i true Hwf Hi) as (cw & Hset & Hwf' & Hn' & Hbit).
  rewrite <- BM.set_assign in Hset by done.
  set (r' := CRec.mkRec (CRec.sd r) (<[(leaf, i) := BlockCopy p b]> (CRec.parts r))).
  set (s1 := set_clog (Log.store (clog s) (lc s) r') s). exists (set_cowb cw s1), r'. split.
  { cbn [negb when]. unfold cow_single. rewrite get_step. unfold assert_. rewrite (bind_step _ _ s tt s).
    2:{ apply lift_run, th_assert_Ret. apply andb_true_iff. by rewrite Z.leb_le, Z.ltb_lt, <- Hn. }
    rewrite (bind_step _ _ _ _ _ (part_run _ _ _ _ Hp)), (bind_step _ _ _ _ _ (block_run _ _ _ Hb)).
    rewrite (bind_step _ _ s tt s1).
    2:{ eapply with_record_run; [done|]. unfold CRec.append. by rewrite bool_decide_eq_true_2. }
    by rewrite (bind_step _ _ _ _ _ (lift_run _ _ _ Hset)). }
  split; [|split; [cbn; rewrite Hbit by lia; by rewrite decide_True|split_and!; try done]].
  2:{ intros j Hj Ej. cbn. rewrite Hbit by lia. by case_decide. }
  apply (HInv_store s σ last r); try done.
  - apply (Inv_change s); try done; [split; [done|]; cbn; congruence|]. intros j Hj Ej. cbn.
    rewrite Hbit by lia. by case_decide.
  - destruct Hcur as [Hlen Hinner Hleaf]. split; [done| |].
    + intros l j Hlt. cbn. rewrite lookup_insert_ne; [by apply Hinner|]. intros [= <- _]. lia.
    + intros j Hj. cbn in Hj. cbn. rewrite Hbit by lia. destruct (decide (j = i)) as [->|Hne].
      * rewrite lookup_insert_eq. split; [done|]. exists p, b. split_and!; [done..|congruence|].
        assert (live s leaf i) as Hlv by (pose proof leaf_range; split; [lia|]; by rewrite width_leaf).
        destruct (inv_digests _ _ HI leaf i Hlv) as [[_ ?]|(q & Hq & Hdq)]; [congruence|].
        assert (q = p) as -> by congruence. rewrite Hdq. unfold content. by rewrite Z.eqb_refl, Hb.
      * rewrite lookup_insert_ne by congruence. by apply Hleaf.
Qed.

Lemma block_to_run s σ last r i b : HInv s σ last r → 0 ≤ i < nb s → BM.bit (cowb s) i = true →
  block_to i b s = Ret (tt, set_mem (zset (mem s) i b) s) ∧ HInv (set_mem (zset (mem s) i b) s) σ last r.
Proof.
  intros HH Hi Hb. pose proof HH as [[Hsh Hs Hd] ? ? ? ? ? Hcur Hkept ? ?]. split.
  { destruct (zget_lookup (mem s) i) as [x Hx]; [by rewrite (sh_mem _ Hsh)|].
    unfold block_to. by rewrite (bind_step _ _ _ _ _ (block_run _ _ _ Hx)). }
  split; try done.
  - split; [|done|].
    + destruct Hsh. split; try done. cbn. by rewrite zlen_zset.
    + intros l j Hj. change (live s l j) in Hj. destruct (decide (l = leaf ∧ j = i)) as [[-> ->]|Hne]; [by left|].
      destruct (Hd l j Hj) as [?|(p & Hp & Hdp)]; [by left|right]. exists p. split; [done|]. rewrite Hdp.
      f_equal. unfold content. cbn [mem set_mem]. case_match eqn:E; [|done]. zprop.
      by rewrite zget_zset_ne by (intros <-; tauto).
  - destruct Hcur as [Hlen Hinner Hleaf]. split; [done|done|]. intros j Hj. specialize (Hleaf j Hj).
    destruct (CRec.parts r !! (leaf, j)) eqn:E; [done|]. cbn. destruct Hleaf as [Hf Hm].
    rewrite zget_zset_ne; [done|]. congruence.
Qed.

(** *** Byz_modify *)
Lemma cow_blocks_run l s σ last r : HInv s σ last r → (∀ i, i ∈ l → 0 ≤ i < nb s) →
  ∃ s' r', for_each l cow_block s = Ret (tt, s') ∧ HInv s' σ last r' ∧ nb s' = nb s ∧ lc s' = lc s ∧ mem s' = mem s ∧
    (∀ i, i ∈ l → BM.bit (cowb s') i = true) ∧
    (∀ j, 0 ≤ j < nb s → BM.bit (cowb s) j = true → BM.bit (cowb s') j = true).
Proof.
  revert s r. induction l as [|i l IH]; intros s r HH Hl.
  { exists s, r. split_and!; try done. by intros i []%elem_of_nil. }
  destruct (cow_block_run s σ last r i HH) as (s1 & r1 & Hrun & HH1 & Hb & En & El & Em & Hmono); [apply Hl; by left|].
  destruct (IH s1 r1 HH1) as (s' & r' & Hrun' & HH' & En' & El' & Em' & Hin & Hmono').
  { intros j Hj. rewrite En. apply Hl. by right. }
  exists s', r'. split; [cbn [for_each]; by rewrite (bind_step _ _ _ _ _ Hrun)|]. split; [done|].
  split_and!; [congruence..| |].
  - intros j [->|Hj]%elem_of_cons; [|by apply Hin]. apply Hmono'; [rewrite En; apply Hl; by left|done].
  - intros j Hj Hbj. apply Hmono'; [by rewrite En|by apply Hmono].
Qed.

(** The memory that a call names. *)
Definition in_memory (s : Store) (off size : Z) : Prop := 0 < off ∧ 0 < size ∧ off + size ≤ nb s * Block_size.
Definition touched (off size i : Z) : Prop := off `div` Block_size ≤ i ≤ (off + size - 1) `div` Block_size.

Lemma touched_block s off size i : 0 ≤ off → 0 < size → off + size ≤ nb s * Block_size → touched off size i → 0 ≤ i < nb s.
Proof.
  unfold touched, Block_size. intros Hoff Hsize Hm [Hl Hu]. split; [pose proof (Z.div_pos off 4096); lia|].
  assert ((off + size - 1) `div` 4096 < nb s) by (apply Z.div_lt_upper_bound; lia). lia.
Qed.

(** What the caller of [Byz_modify] relies on. *)
Definition protected (s : Store) (off size : Z) (s' : Store) : Prop :=
  mem s' = mem s ∧ nb s' = nb s ∧ lc s' = lc s ∧ ∀ i, touched off size i → BM.bit (cowb s') i = true.

Lemma cow_run s σ last r off size : HInv s σ last r → in_memory s off size →
  ∃ s' r', cow off size s = Ret (tt, s') ∧ HInv s' σ last r' ∧ protected s off size s'.
Proof.
  intros HH (Hoff & Hsize & Hm). unfold cow. rewrite get_step. unfold assert_. rewrite (bind_step _ _ s tt s).
  2:{ apply lift_run, th_assert_Ret. by rewrite (proj2 (Z.ltb_lt 0 off) Hoff), (proj2 (Z.leb_le _ _) Hm). }
  rewrite (proj2 (Z.leb_gt size 0)) by lia. cbv zeta.
  assert (∀ i, i ∈ seqZ (off `div` Block_size) ((off + size - 1) `div` Block_size - off `div` Block_size + 1) ↔ touched off size i) as Ht.
  { intros i. rewrite elem_of_seqZ. unfold touched. lia. }
  destruct (cow_blocks_run (seqZ (off `div` Block_size) ((off + size - 1) `div` Block_size - off `div` Block_size + 1)) s σ last r HH)
    as (s' & r' & Hrun & HH' & En & El & Em & Hin & _).
  { intros i Hi%Ht. eapply touched_block; [..|done]; lia. }
  exists s', r'. split; [done|]. split; [done|]. split_and!; try done. intros i Hi. by apply Hin, Ht.
Qed.

Lemma cow_bit_run s i : shape s → 0 ≤ i < nb s → cow_bit i s = Ret (BM.bit (cowb s) i, s).
Proof.
  intros Hsh Hi. destruct (sh_cowb _ Hsh) as [Hwf Hn]. rewrite <- Hn in Hi.
  destruct (BM.chunk_of (cowb s) i Hwf Hi) as (c & Hc & _ & Hb). unfold cow_bit. rewrite get_step.
  rewrite (bind_step _ _ _ _ _ (lift_run (of_option Undefined (zget (BM.chunks (cowb s)) (i `div` 64))) c s ltac:(by rewrite Hc))).
  by rewrite Hb.
Qed.

Lemma modify1_run s σ last r off : HInv s σ last r → 0 ≤ off < nb s * Block_size →
  ∃ s' r', modify1 off s = Ret (tt, s') ∧ HInv s' σ last r' ∧ protected s off 1 s'.
Proof.
  intros HH Hoff. pose proof (inv_shape _ _ (hi_inv _ _ _ _ HH)) as Hsh.
  assert (0 ≤ off `div` Block_size < nb s) as Hi.
  { split; [apply Z.div_pos; unfold Block_size; lia|]. apply Z.div_lt_upper_bound; unfold Block_size in *; lia. }
  destruct (cow_block_run s σ last r (off `div` Block_size) HH Hi) as (s' & r' & Hrun & HH' & Hb & En & El & Em & _).
  exists s', r'. split; [|split; [done|]].
  - unfold modify1. cbv zeta. rewrite (bind_step _ _ _ _ _ (cow_bit_run s _ Hsh Hi)).
    unfold cow_block in Hrun. rewrite get_step in Hrun. destruct (sh_cowb _ Hsh) as [Hwf Hn].
    by rewrite (bind_step _ _ _ _ _ (lift_run _ _ s (BM.test_bit (cowb s) (off `div` Block_size) Hwf ltac:(by rewrite Hn)))) in Hrun.
  - split_and!; try done. intros i Ht. unfold touched in Ht. replace (off + 1 - 1) with off in Ht by lia.
    by replace i with (off `div` Block_size) by lia.
Qed.

Lemma modify2_run s σ last r off size : HInv s σ last r → in_memory s off size →
  (off + size - 1) `div` Block_size ≤ off `div` Block_size + 1 →
  ∃ s' r', modify2 off size s = Ret (tt, s') ∧ HInv s' σ last r' ∧ protected s off size s'.
Proof.
  intros HH Hm Hspan. pose proof Hm as (Hoff & Hsize & Hend). pose proof (inv_shape _ _ (hi_inv _ _ _ _ HH)) as Hsh.
  assert (off `div` Block_size ≤ (off + size - 1) `div` Block_size) as Hle by (apply Z.div_le_mono; unfold Block_size; lia).
  assert (0 ≤ off `div` Block_size < nb s) as Hi1 by (apply (touched_block s off size); unfold touched; lia).
  assert (0 ≤ (off + size - 1) `div` Block_size < nb s) as Hi2 by (apply (touched_block s off size); unfold touched; lia).
  unfold modify2. rewrite (bind_step _ _ _ _ _ (cow_bit_run s _ Hsh Hi1)), (bind_step _ _ _ _ _ (cow_bit_run s _ Hsh Hi2)).
  destruct (negb _ || negb _) eqn:E; [by apply (cow_run s σ last r)|]. zprop. exists s, r. split; [done|]. split; [done|].
  split_and!; try done. intros i Ht. unfold touched in Ht.
  assert (i = off `div` Block_size ∨ i = (off + size - 1) `div` Block_size) as [-> | ->] by lia; done.
Qed.

(** ** Checkpoints *)
Lemma ckpts_empty c : ckpts_from c (c - checkpoint_interval) = [].
Proof.
  pose proof config_interval as Hci. unfold ckpts_from.
  replace (c - checkpoint_interval - c) with ((-1) * checkpoint_interval) by lia. by rewrite Z.div_mul by lia.
Qed.

Lemma lm_last s σ last r l i p : HInv s σ last r → at2 (ptree s) l i = Some p → lm p ≤ lc s.
Proof.
  intros HH Hp. destruct (hi_kept _ _ _ _ HH (lc s)) as (sn & _ & _ & _ & _ & _ & _ & _ & HO).
  - eapply fetch_in, hi_rec, HH.
  - lia.
  - apply (hi_lc _ _ _ _ HH).
  - specialize (HO l i p Hp). unfold before in HO. rewrite ckpts_empty in HO. apply HO.
Qed.

Lemma hi_last_sd s σ last r : HInv s σ last r →
  ∃ p, at2 (ptree s) 0 0 = Some p ∧ CRec.sd r = d p ∧ Dig.is_zero (CRec.sd r) = false.
Proof.
  intros HH. destruct (hi_kept _ _ _ _ HH (lc s)) as (sn & rc & p & Hsn & Hrc & Hp & Ed & Hz & _).
  - eapply fetch_in, hi_rec, HH.
  - lia.
  - apply (hi_lc _ _ _ _ HH).
  - destruct (hi_last _ _ _ _ HH) as [Hl Hlp]. assert (sn = last) as -> by congruence. rewrite Hlp in Hp.
    pose proof (hi_rec _ _ _ _ HH). assert (rc = r) as -> by congruence. exists p. by rewrite Ed.
Qed.

(** [Old] after the next checkpoint. *)
Lemma Old_checkpoint s σ last r n s1 r1 D c sn g : HInv s σ last r → n = lc s + checkpoint_interval →
  Mid n s r s1 r1 D → (∀ i, D leaf i ↔ 0 ≤ i < nb s ∧ BM.bit (cowb s) i = true) →
  (∀ m, m ≠ n → Log.fetch g m = Log.fetch (clog s1) m) → is_ckpt c → c ≤ lc s → Old s (sn_mem last) c sn →
  Old (set_clog g (set_lc n s1)) (mem s) c sn.
Proof.
  intros HH -> HM HD Hg Hc Hle HO l i p' Hp'. cbn [ptree set_clog set_lc] in Hp'. pose proof config_interval as Hci.
  destruct HH as [HI [Hlc Hck] Hok Hh [Hl Hlp] Hr Hcur Hkept Hafter Htidy].
  pose proof HM as [Em En Ec El Hsh Hs Hold Hnew Hlog Hsd Hsaved Hkept' Hdec].
  assert (∃ p, at2 (ptree s) l i = Some p) as [p Hp].
  { apply (sh_ptree _ (inv_shape _ _ HI)). assert (is_Some (at2 (ptree s1) l i)) as Hsome by (by eexists).
    apply (sh_ptree _ Hsh) in Hsome. unfold row_size in *. by rewrite <- En. }
  specialize (HO l i p Hp). unfold before in *. cbn [clog lc set_clog set_lc].
  replace (lc s + checkpoint_interval - checkpoint_interval) with (lc s) by lia.
  rewrite (look_ext (clog s1)).
  2:{ intros m Hm. apply Hg. apply elem_of_ckpts in Hm; [lia|done]. }
  rewrite ckpts_snoc by done. rewrite (look_snoc _ _ _ r1) by apply Hlog.
  rewrite (look_ext (clog s)).
  2:{ intros m Hm. apply Hlog. apply elem_of_ckpts in Hm; [lia|done]. }
  assert (D l i ∧ lm p' = lc s + checkpoint_interval ∨ ¬ D l i ∧ p' = p) as Hcase.
  { destruct (Hdec l i) as [Hd|Hd]; [left|right]; (split; [done|]).
    - destruct (Hnew _ _ Hd) as (_ & q & Hq & <-). congruence.
    - rewrite Hold in Hp' by done. congruence. }
  destruct (look _ _ l i) as [x|].
  { destruct HO as (Hlt & Hsn & Hleaf). split; [|done]. destruct Hcase as [[_ ->]|[_ ->]]; [lia|done]. }
  destruct HO as (Hlm & Hsn & Hleaf). destruct (decide (l < leaf)) as [Hlt|Hge].
  - destruct Hcase as [[Hd Hn]|[Hd ->]].
    + destruct (Hsaved _ _ Hd Hlt) as (q & Hq & ->). assert (q = p) as -> by congruence. split_and!; [lia|done|lia].
    + rewrite Hkept' by tauto. rewrite (la_inner _ _ _ Hcur) by done. split_and!; [done|done|lia].
  - destruct (proj1 (sh_ptree _ (inv_shape _ _ HI) l i)) as [Hl' Hi]; [by eexists|]. assert (l = leaf) as -> by lia.
    unfold row_size in Hi. rewrite Z.eqb_refl in Hi. rewrite Hkept' by lia.
    pose proof (la_leaf _ _ _ Hcur i Hi) as Hrec. destruct (CRec.parts r !! (leaf, i)) as [x|].
    + destruct Hrec as (Hb & q & b & -> & Hq & Hbase & _). assert (q = p) as -> by congruence.
      destruct Hcase as [[_ Hn]|[Hd _]]; [|by destruct Hd; apply HD].
      split; [lia|]. split; [done|]. intros _. exists p, b. split; [done|]. by rewrite Hleaf.
    + destruct Hrec as [Hb Hm]. destruct Hcase as [[Hd _]|[_ ->]]; [apply HD in Hd as [_ Hd]; congruence|].
      split_and!; [done|done|]. intros _. by rewrite Hleaf, Hm.
Qed.

Lemma fresh_record s σ last r n rn : HInv s σ last r → Log.fetch (clog s) n = Ret rn → lc s < n → CRec.parts rn = ∅.
Proof.
  intros HH Hn Hlt. pose proof (hi_after _ _ _ _ HH n rn Hn Hlt) as Hc.
  by apply (fetch_tidy (clog s) n); [apply HH|..].
Qed.

Lemma checkpoint_run s σ last r : HInv s σ last r → Log.within_range (clog s) (lc s + checkpoint_interval) = true →
  ∃ s' r', checkpoint digest_of (lc s + checkpoint_interval) s = Ret (tt, s') ∧
    HInv s' (<[lc s + checkpoint_interval := snap s']> σ) (snap s') r' ∧ mem s' = mem s ∧
    lc s' = lc s + checkpoint_interval ∧ digests digest_of (λ _ _, False) s' ∧
    ∀ l i, ¬ live s l i → at2 (ptree s') l i = at2 (ptree s) l i.
Proof.
  intros HH Hin. pose proof HH as [[Hsh Hs Hd] [Hlc Hck] Hok Hh [Hl Hlp] Hr Hcur Hkept Hafter Htidy].
  pose proof config_interval as Hci. set (n := lc s + checkpoint_interval) in *.
  destruct (wl_fetch_in (WindowLogLaws := Log.window_log_laws CRec.clear) (clog s) n Hok Hin) as (rn & _ & Hrn).
  cbn in Hrn.
  destruct (checkpoint_mid digest_of n s r rn Hok Hsh Hs Hd Hr (la_inner _ _ _ Hcur) ltac:(done))
    as (s1 & r1 & D & p & HM & Hd1 & Hp & HD & Hrun).
  rewrite decide_False in Hrun by lia. set (r' := CRec.set_sd (d p) rn). exists (sealed n (d p) rn s1), r'.
  split; [done|]. pose proof HM as [Em En Ec El Hsh1 Hs1 Hold Hnew Hlog Hsd Hsaved Hkept' Hdec].
  pose proof (fresh_record s σ last r n rn HH Hrn ltac:(lia)) as Hnone.
  assert (Log.fetch (clog s1) n = Ret rn) as Hrn1 by (rewrite (or_other _ _ _ _ Hlog) by lia; done).
  destruct (only_record_store (clog s1) n rn r' (or_ok _ _ _ _ Hlog) Hrn1) as [Hok' Hh' Hrng Hthis Hother].
  assert (Dig.is_zero (d p) = false) as Hz.
  { destruct (root_nonzero s1 Hsh1) as (q & Hq & Hz); [|congruence]. intros l i Hi.
    destruct (Hd1 l i Hi) as [[]|?]. by right. }
  assert (CRec.is_cleared rn = true) as Hcl by (apply (Hafter n rn Hrn); lia).
  split; [|split_and!; [done|done| |]].
  2:{ intros l i Hi. by apply (Hd1 l i). }
  2:{ intros l i Hn'. apply Hold. by intros [? _]%Hnew. }
  split; cbn [lc clog sealed set_cowb set_clog set_lc]; fold r'.
  - by apply sealed_inv.
  - split; [lia|]. by apply is_ckpt_add.
  - done.
  - rewrite Hh', (or_head _ _ _ _ Hlog). lia.
  - by rewrite lookup_insert_eq.
  - done.
  - split.
    + by destruct (sealed_inv digest_of n (d p) rn s1 Hsh1 Hs1 Hd1) as [[? ? ? ? ?] _ _].
    + intros l i _. cbn. by rewrite Hnone.
    + intros i Hi. cbn. rewrite Hnone, lookup_empty. split; [|done]. apply BM.bit_clear. lia.
  - intros c Hc Hle Hckc. rewrite Hrng, (or_range _ _ _ _ Hlog) in Hc. cbn [sn_mem snap].
    destruct (decide (c = n)) as [->|Hne].
    + exists (snap (sealed n (d p) rn s1)), r', p. rewrite lookup_insert_eq. split_and!; try done.
      intros l i q Hq. unfold before. cbn [lc sealed set_cowb set_clog set_lc]. rewrite ckpts_empty. cbn [look].
      split_and!; try done. cbn in Hq. destruct (Hdec l i) as [Hdl|Hdl].
      * destruct (Hnew _ _ Hdl) as (_ & q' & Hq' & E). assert (q' = q) as -> by congruence. lia.
      * rewrite Hold in Hq by done. pose proof (lm_last s σ last r l i q HH Hq). lia.
    + assert (c ≤ lc s) as Hle'.
      { destruct (decide (c ≤ lc s)) as [|Hgt]; [done|]. pose proof (is_ckpt_between (lc s) c Hck Hckc). lia. }
      destruct (Hkept c Hc Hle' Hckc) as (sn & rc & q & Hsn & Hrc & Hq & Ed & Hzq & HO).
      exists sn, (if decide (c = lc s) then r1 else rc), q. rewrite lookup_insert_ne by done.
      split; [done|]. split; [|split; [done|split; [|split; [done|]]]].
      * rewrite Hother by done. case_decide as E; [rewrite E; apply Hlog|]. by rewrite (or_other _ _ _ _ Hlog).
      * case_decide as E; [|done]. rewrite Hsd, <- Ed. rewrite E in Hrc. congruence.
      * cbn [mem sealed set_cowb set_clog set_lc]. rewrite Em.
        eapply (Old_checkpoint s σ last r n s1 r1 D c sn); try done.
  - intros m rm Hm Hlt. assert (m ≠ n) as Hne by lia. rewrite Hother in Hm by done.
    rewrite (or_other _ _ _ _ Hlog) in Hm by lia. apply (Hafter m rm Hm). lia.
  - apply (Log.elems_fetch tidy _ Hok'). intros m rm Hm Hc. destruct (decide (m = n)) as [->|Hne].
    { assert (rm = r') as -> by congruence. done. }
    rewrite Hother in Hm by done. destruct (decide (m = lc s)) as [->|Hne'].
    + assert (rm = r1) as -> by (rewrite (or_this _ _ _ _ Hlog) in Hm; congruence).
      unfold CRec.is_cleared in Hc. rewrite Hsd in Hc.
      destruct (hi_last_sd s σ last r HH) as (q & _ & _ & E). congruence.
    + rewrite (or_other _ _ _ _ Hlog) in Hm by done. by apply (fetch_tidy (clog s) m rm Htidy Hm).
Qed.

(** ** Rollback *)
Lemma zlist_eq {A} (a b : list A) : zlen a = zlen b → (∀ i, 0 ≤ i < zlen a → zget a i = zget b i) → a = b.
Proof.
  unfold zlen. intros Hl Hi. apply list_eq. intros j. destruct (decide (j < length a)%nat) as [Hj|Hj].
  - specialize (Hi (Z.of_nat j) ltac:(lia)). unfold zget in Hi. rewrite !decide_True in Hi by lia. by rewrite Nat2Z.id in Hi.
  - rewrite !lookup_ge_None_2; [done|lia..].
Qed.

(** The loop that puts the saved blocks back. *)
Lemma restore_run r base idx s : shape s →
  (∀ i, i ∈ idx → 0 ≤ i < nb s ∧ ∃ p b, CRec.parts r !! (leaf, i) = Some (BlockCopy p b) ∧ zget base i = Some b) →
  ∃ m, for_each idx (λ i, b ← lift (block_copy r i); block_to i b) s = Ret (tt, set_mem m s) ∧ zlen m = zlen (mem s) ∧
    (∀ i, i ∈ idx → zget m i = zget base i) ∧ (∀ i, i ∉ idx → zget m i = zget (mem s) i).
Proof.
  revert s. induction idx as [|i idx IH]; intros s Hsh Hidx.
  { exists (mem s). split_and!; try done; [by destruct s|]. by intros i []%elem_of_nil. }
  destruct (Hidx i) as [Hi (p & b & Hp & Hb)]; [by left|]. set (s1 := set_mem (zset (mem s) i b) s).
  assert (shape s1) as Hsh1 by (destruct Hsh; split; try done; cbn; by rewrite zlen_zset).
  destruct (IH s1 Hsh1) as (m & Hrun & Hlen & Hin & Hout); [intros j Hj; apply Hidx; by right|].
  exists m. split; [|split_and!].
  - cbn [for_each]. rewrite (bind_step _ _ s tt s1); [exact Hrun|].
    rewrite (bind_step _ _ s b s) by (apply lift_run; unfold block_copy, CRec.fetch; by rewrite Hp).
    destruct (zget_lookup (mem s) i) as [x Hx]; [by rewrite (sh_mem _ Hsh)|].
    unfold block_to. by rewrite (bind_step _ _ _ _ _ (block_run _ _ _ Hx)).
  - rewrite Hlen. cbn. by rewrite zlen_zset.
  - intros j [->|Hj]%elem_of_cons; [|by apply Hin]. destruct (decide (i ∈ idx)); [by apply Hin|].
    rewrite Hout by done. cbn. rewrite zget_zset_eq by (by rewrite (sh_mem _ Hsh)). done.
  - intros j Hj. apply not_elem_of_cons in Hj as [Hne Hj]. rewrite Hout by done. cbn. by apply zget_zset_ne.
Qed.

Lemma rollback_run s σ last r : HInv s σ last r →
  ∃ s' r', rollback false s = Ret (lc s, s') ∧ HInv s' σ last r' ∧ mem s' = sn_mem last ∧ ptree s' = sn_ptree last ∧ lc s' = lc s.
Proof.
  intros HH. pose proof HH as [[Hsh Hs Hd] [Hlc Hck] Hok Hh [Hl Hlp] Hr Hcur Hkept Hafter Htidy].
  destruct (sh_cowb _ Hsh) as [Hwf Hn]. destruct (hi_last_sd s σ last r HH) as (p & Hp & Esd & Hz).
  destruct (restore_run r (sn_mem last) (BM.remaining (cowb s) true 0) s Hsh) as (m & Hrun & Hlen & Hin & Hout).
  { intros i [Hi Hb]%elem_of_remaining. rewrite Hn in Hi. split; [done|]. pose proof (la_leaf _ _ _ Hcur i Hi) as Hrec.
    destruct (CRec.parts r !! (leaf, i)) as [x|]; [|destruct Hrec; congruence].
    destruct Hrec as (_ & q & b & -> & _ & Hb' & _). by exists q, b. }
  assert (m = sn_mem last) as ->.
  { apply zlist_eq; [rewrite Hlen, (sh_mem _ Hsh); by rewrite (la_len _ _ _ Hcur)|]. intros i Hi.
    rewrite Hlen, (sh_mem _ Hsh) in Hi. destruct (decide (i ∈ BM.remaining (cowb s) true 0)) as [Hb|Hb]; [by apply Hin|].
    rewrite Hout by done. pose proof (la_leaf _ _ _ Hcur i Hi) as Hrec.
    destruct (CRec.parts r !! (leaf, i)) as [x|]; [|by destruct Hrec]. destruct Hb. apply elem_of_remaining.
    rewrite Hn. by destruct Hrec. }
  set (s2 := set_cowb (BM.clear (cowb s)) (set_mem (sn_mem last) s)). set (r' := CRec.mkRec (d p) ∅).
  exists (set_clog (Log.store (clog s) (lc s) r') s2), r'. split; [|split; [|done]].
  - unfold rollback. rewrite get_step. unfold assert_.
    rewrite (bind_step _ _ s tt s) by (apply lift_run, th_assert_Ret; by rewrite (proj2 (Z.leb_le 0 (lc s)) Hlc)).
    rewrite (bind_step _ _ s r s) by (unfold record; rewrite get_step; by apply lift_run).
    rewrite (bind_step _ _ _ _ _ (lift_run _ _ s (iter_marks _ Hwf))), (bind_step _ _ _ _ _ Hrun).
    rewrite (bind_step _ _ (set_mem (sn_mem last) s) tt s2) by done.
    rewrite (bind_step _ _ s2 p s2) by (by apply (part_run s2 0 0 p)).
    rewrite (bind_step _ _ s2 tt (set_clog (Log.store (clog s2) (lc s2) r') s2)); [done|].
    eapply (with_record_run s2 (lc s) r r'); [done|]. unfold CRec.clear, CRec.is_cleared. by rewrite Hz.
  - apply (HInv_store s σ last r); try done; [|split].
    + split.
      * destruct Hsh. split; try done; [cbn; apply Hcur|]. split; [by apply BM.clear_wf|done].
      * by apply (sums_same s).
      * intros l i Hi. right. change (live s l i) in Hi.
        destruct (Hd l i Hi) as [[-> Hb]|(q & Hq & Hdq)].
        -- destruct Hi as [_ Hi]. rewrite width_leaf in Hi. pose proof (la_leaf _ _ _ Hcur i Hi) as Hrec.
           destruct (CRec.parts r !! (leaf, i)) as [x|]; [|destruct Hrec; congruence].
           destruct Hrec as (_ & q & b & _ & Hq & Hb' & Hdq). exists q. split; [done|]. unfold content.
           rewrite Z.eqb_refl. cbn [mem set_clog s2 set_cowb set_mem]. by rewrite Hb'.
        -- destruct (decide (l = leaf)) as [->|Hne].
           2:{ exists q. split; [done|]. unfold content in *. by rewrite (proj2 (Z.eqb_neq _ _) Hne) in *. }
           destruct Hi as [_ Hi]. rewrite width_leaf in Hi. pose proof (la_leaf _ _ _ Hcur i Hi) as Hrec.
           exists q. split; [done|]. unfold content in *. rewrite Z.eqb_refl in *. cbn [mem set_clog s2 set_cowb set_mem].
           destruct (CRec.parts r !! (leaf, i)) as [x|].
           ++ destruct Hrec as (_ & q' & b & _ & Hq' & Hb' & Hdq'). assert (q' = q) as -> by congruence. by rewrite Hb'.
           ++ destruct Hrec as [_ <-]. done.
    + cbn. apply Hcur.
    + intros l i _. by cbn.
    + intros i Hi. cbn. rewrite lookup_empty. split; [|done]. apply BM.bit_clear. cbn in Hi. lia.
Qed.

(** ** Discarding *)
Lemma discard_run s σ last r n le : HInv s σ last r → n ≤ lc s < 2 ^ 31 →
  ∃ s', discard_checkpoint digest_of n le s = Ret (tt, s') ∧ HInv s' σ last r ∧ mem s' = mem s ∧
    Log.head (clog s') = Z.max (Log.head (clog s)) n.
Proof.
  intros HH Hn. pose proof HH as [HI [Hlc Hck] Hok Hh [Hl Hlp] Hr Hcur Hkept Hafter Htidy].
  destruct (Log.truncate_spec CRec.clear (clog s) n Hok) as (g & Ht & Hok' & Hsz & Hhd & Hold & Hnew).
  { apply Log.step_small; lia. }
  assert (∀ m, Log.within_range g m = true → Log.within_range (clog s) m = true → Log.fetch g m = Log.fetch (clog s) m) as Hf.
  { intros m Hm1 Hm2. unfold Log.fetch. rewrite Hm1, Hm2. cbn. by rewrite Hold. }
  pose proof (fetch_in _ _ _ Hr) as Hin.
  assert (∀ m, Log.head g ≤ m ≤ lc s → Log.within_range g m = true ∧ Log.within_range (clog s) m = true) as Hboth.
  { intros m Hm. rewrite !window_range in *. lia. }
  exists (set_clog g s). split; [|split; [|done]].
  { unfold discard_checkpoint. rewrite get_step. rewrite (proj2 (Z.ltb_ge (lc s) n)) by lia. cbn [andb when].
    rewrite (bind_step _ _ s tt s), get_step by done. by rewrite (bind_step _ _ _ _ _ (lift_run _ _ s Ht)). }
  assert (Log.head g ≤ lc s) as Hhl by (rewrite window_range in Hin; lia).
  split; try done; cbn [clog set_clog lc].
  - apply (Inv_change s); try done. apply (sh_cowb s), HI.
  - lia.
  - rewrite Hf; [done|apply Hboth; lia..].
  - by destruct Hcur; split.
  - intros c Hc Hle Hckc. assert (Log.head g ≤ c) as Hhc by (rewrite window_range in Hc; lia).
    destruct (Hboth c ltac:(lia)) as [_ Hc'].
    destruct (Hkept c Hc' Hle Hckc) as (sn & rc & p & Hsn & Hrc & Hp & Ed & Hz & HO). exists sn, rc, p.
    rewrite Hf by done. split_and!; try done. apply (Old_same s); try done. intros m _ Hm. apply Hf; apply Hboth; lia.
  - intros m rm Hm Hlt. pose proof (fetch_in _ _ _ Hm) as Hm1.
    destruct (Log.within_range (clog s) m) eqn:Hm2; [rewrite Hf in Hm by done; by eapply Hafter|].
    destruct (Hnew m Hm1 Hm2) as (x & Hx & y & ->). unfold Log.fetch in Hm. rewrite Hm1 in Hm. cbn in Hm.
    rewrite Hx in Hm. injection Hm as <-. unfold CRec.clear. by destruct (CRec.is_cleared y) eqn:E.
  - apply (Log.truncate_entries CRec.clear tidy (clog s) g n); [|done|done]. intros x Hx.
    unfold CRec.clear. destruct (CRec.is_cleared x); [done|]. by intros _.
Qed.

(** ** Reading a checkpoint *)
Lemma find_copy_look s l i ns : (∀ n, n ∈ ns → ∃ r, Log.fetch (clog s) n = Ret r ∧ Dig.is_zero (CRec.sd r) = false) →
  find_copy l i ns s = of_option AssertFail (look (clog s) ns l i).
Proof.
  induction ns as [|n ns IH]; intros Hns; [done|]. cbn [find_copy look]. destruct (Hns n) as (r & Hr & Hz); [by left|].
  rewrite Hr. cbn [mbind outcome_bind]. rewrite Hz. unfold CRec.fetch.
  destruct (CRec.parts r !! (l, i)); [done|]. apply IH. intros m Hm. apply Hns. by right.
Qed.

(** A checkpoint of the log, and what it was. *)
Definition kept (s : Store) (σ : gmap Z Snap) (c : Z) (sn : Snap) : Prop :=
  Log.within_range (clog s) c = true ∧ c ≤ lc s ∧ is_ckpt c ∧ σ !! c = Some sn.

Lemma find_copy_kept s σ last r l i c sn : HInv s σ last r → kept s σ c sn →
  find_copy l i (ckpts_from c (lc s)) s =
    of_option AssertFail (match look (clog s) (before s c) l i with Some x => Some x | None => CRec.parts r !! (l, i) end).
Proof.
  intros HH (Hin & Hle & Hc & _). destruct (hi_lc _ _ _ _ HH) as [_ Hck]. pose proof (hi_rec _ _ _ _ HH) as Hr.
  rewrite find_copy_look.
  - rewrite ckpts_snoc by done. by rewrite (look_snoc _ _ _ r).
  - intros n Hn. apply elem_of_ckpts in Hn as [Hn Hr']; [|done].
    destruct (hi_kept _ _ _ _ HH n) as (sn' & rn & p & _ & Hrn & _ & Ed & Hz & _); [|lia|done|].
    + pose proof (fetch_in _ _ _ Hr) as Hlc. rewrite window_range in *. lia.
    + exists rn. by rewrite Ed.
Qed.

Lemma get_data_kept s σ last r c sn i : HInv s σ last r → kept s σ c sn → 0 ≤ i < nb s →
  ∃ b, zget (sn_mem sn) i = Some b ∧ get_data s c i = Ret b.
Proof.
  intros HH Hk Hi. pose proof Hk as (Hin & Hle & Hc & Hsn). pose proof (inv_shape _ _ (hi_inv _ _ _ _ HH)) as Hsh.
  destruct (sh_cowb _ Hsh) as [Hwf Hn]. destruct (leaf_part s i Hsh Hi) as [p Hp].
  destruct (hi_kept _ _ _ _ HH c Hin Hle Hc) as (sn' & _ & _ & Hsn' & _ & _ & _ & _ & HO).
  assert (sn' = sn) as -> by congruence. specialize (HO leaf i p Hp).
  pose proof (la_leaf _ _ _ (hi_cur _ _ _ _ HH) i Hi) as Hrec.
  unfold get_data. rewrite Hin, (proj2 (Z.leb_le 0 i)), (proj2 (Z.ltb_lt i (nb s))) by lia. cbn [andb th_assert mbind outcome_bind].
  rewrite Hp. cbn [of_option mbind outcome_bind]. rewrite (find_copy_kept s σ last r leaf i c sn HH Hk).
  destruct (look (clog s) (before s c) leaf i) as [x|].
  - destruct HO as (Hlt & _ & Hleaf). destruct (Hleaf eq_refl) as (q & b & -> & Hb). exists b. split; [done|].
    by rewrite (proj2 (Z.leb_gt (lm p) c)).
  - destruct HO as (Hlm & _ & Hbase). specialize (Hbase eq_refl). rewrite (proj2 (Z.leb_le (lm p) c)) by done.
    rewrite BM.test_bit by (done || by rewrite Hn). cbn [mbind outcome_bind].
    destruct (CRec.parts r !! (leaf, i)) as [x|].
    + destruct Hrec as (-> & q & b & -> & _ & Hb & _). exists b. rewrite Hbase. done.
    + destruct Hrec as [-> Hm]. cbn [negb]. destruct (zget_lookup (mem s) i) as [b Hb]; [by rewrite (sh_mem _ Hsh)|].
      exists b. rewrite Hb. split; [congruence|done].
Qed.

Lemma get_meta_data_kept s σ last r c sn l i : HInv s σ last r → kept s σ c sn → 0 ≤ l ≤ leaf → 0 ≤ i < row_size s l →
  ∃ p, at2 (sn_ptree sn) l i = Some p ∧ get_meta_data s c l i = Ret p.
Proof.
  intros HH Hk Hl Hi. pose proof Hk as (Hin & Hle & Hc & Hsn). pose proof (inv_shape _ _ (hi_inv _ _ _ _ HH)) as Hsh.
  destruct (proj2 (sh_ptree _ Hsh l i) ltac:(done)) as [p Hp].
  destruct (hi_kept _ _ _ _ HH c Hin Hle Hc) as (sn' & _ & _ & Hsn' & _ & _ & _ & _ & HO).
  assert (sn' = sn) as -> by congruence. specialize (HO l i p Hp).
  unfold get_meta_data. rewrite Hin, Hp. cbn [th_assert of_option mbind outcome_bind].
  rewrite (find_copy_kept s σ last r l i c sn HH Hk).
  destruct (look (clog s) (before s c) l i) as [x|].
  - destruct HO as (Hlt & Hx & _). exists (copy_part x). by rewrite (proj2 (Z.leb_gt (lm p) c)).
  - destruct HO as (Hlm & Hx & _). exists p. by rewrite (proj2 (Z.leb_le (lm p) c)).
Qed.

Lemma digest_at_kept s σ last r c sn : HInv s σ last r → kept s σ c sn →
  ∃ p, at2 (sn_ptree sn) 0 0 = Some p ∧ digest_at s c = Some (d p).
Proof.
  intros HH (Hin & Hle & Hc & Hsn). destruct (hi_kept _ _ _ _ HH c Hin Hle Hc) as (sn' & rc & p & Hsn' & Hrc & Hp & Ed & Hz & _).
  assert (sn' = sn) as -> by congruence. exists p. split; [done|]. unfold digest_at. rewrite Hin, Hrc, Ed. by rewrite Hz.
Qed.

(** ** Histories *)
Inductive hist : Store → gmap Z Snap → Prop :=
  | hist_first memory s : 1 ≤ zlen memory ≤ PLevelSize leaf → compute_full_digest digest_of (make memory) = Ret (tt, s) →
      hist s {[0 := snap s]}
  | hist_cow s σ off size s' : hist s σ → in_memory s off size → cow off size s = Ret (tt, s') → hist s' σ
  | hist_modify1 s σ off s' : hist s σ → 0 ≤ off < nb s * Block_size → modify1 off s = Ret (tt, s') → hist s' σ
  | hist_modify2 s σ off size s' : hist s σ → in_memory s off size →
      (off + size - 1) `div` Block_size ≤ off `div` Block_size + 1 → modify2 off size s = Ret (tt, s') → hist s' σ
  | hist_write s σ i b s' : hist s σ → 0 ≤ i < nb s → BM.bit (cowb s) i = true → block_to i b s = Ret (tt, s') → hist s' σ
  | hist_checkpoint s σ s' : hist s σ → Log.within_range (clog s) (lc s + checkpoint_interval) = true →
      checkpoint digest_of (lc s + checkpoint_interval) s = Ret (tt, s') → hist s' (<[lc s' := snap s']> σ)
  | hist_rollback s σ n s' : hist s σ → rollback false s = Ret (n, s') → hist s' σ
  | hist_discard s σ n le s' : hist s σ → n ≤ lc s < 2 ^ 31 → discard_checkpoint digest_of n le s = Ret (tt, s') → hist s' σ.

Lemma first_HInv memory s p : first digest_of memory s p → HInv s {[0 := snap s]} (snap s) (CRec.set_sd (d p) CRec.make).
Proof.
  intros (HI & Em & En & El & [Hwf Hbits] & Hlm & _ & Hp & Hlog & Hel). pose proof config_interval as Hci.
  assert (Dig.is_zero (d p) = false) as Hz.
  { destruct (root_nonzero s) as (q & Hq & Hz); [apply HI..|congruence]. }
  destruct (sh_cowb _ (inv_shape _ _ HI)) as [_ Hn].
  assert (is_ckpt 0) as H0' by (unfold is_ckpt; by rewrite Z.mod_0_l by lia).
  split; try done.
  - by rewrite El.
  - apply Hlog.
  - by rewrite (or_head _ _ _ _ Hlog).
  - rewrite El. by rewrite lookup_singleton_eq.
  - rewrite El. apply Hlog.
  - split; [apply (sh_mem _ (inv_shape _ _ HI))|done|]. intros i Hi. cbn. rewrite lookup_empty. split; [|done].
    apply Hbits. by rewrite Hn.
  - intros c Hc Hle Hckc. rewrite (or_range _ _ _ _ Hlog) in Hc. apply window_range in Hc. cbn in Hc.
    assert (c = 0) as -> by lia. exists (snap s), (CRec.set_sd (d p) CRec.make), p. rewrite lookup_singleton_eq.
    split_and!; try done; [apply Hlog|]. intros l i q Hq. unfold before. rewrite El, ckpts_empty. cbn [look].
    by rewrite (Hlm _ _ _ Hq).
  - intros n rn Hn' Hlt. rewrite El in Hlt. rewrite (or_other _ _ _ _ Hlog) in Hn' by lia.
    pose proof (fetch_in _ _ _ Hn') as Hin. apply window_range in Hin. cbn in Hin.
    rewrite (make_record memory n window) in Hn' by lia. by injection Hn' as <-.
  - eapply Forall_impl; [exact Hel|]. by intros r [-> | ->] _.
Qed.

Lemma run_det {S A} (m : ST S A) s a a' s1 s2 : m s = Ret (a, s1) → m s = Ret (a', s2) → a = a' ∧ s1 = s2.
Proof. intros E1 E2. rewrite E1 in E2. by injection E2. Qed.

Lemma hist_inv s σ : hist s σ → ∃ last r, HInv s σ last r.
Proof.
  induction 1 as [memory s Hm Hrun|s σ off size s' _ (last & r & HH) Hin Hrun|s σ off s' _ (last & r & HH) Hin Hrun
    |s σ off size s' _ (last & r & HH) Hin Hspan Hrun|s σ i b s' _ (last & r & HH) Hi Hb Hrun|s σ s' _ (last & r & HH) Hin Hrun
    |s σ n s' _ (last & r & HH) Hrun|s σ n le s' _ (last & r & HH) Hn Hrun].
  - destruct (compute_full_digest_first digest_of memory window Hm) as (s1 & p & Hrun1 & Hf).
    destruct (run_det _ _ _ _ _ _ Hrun Hrun1) as [_ <-]. eexists _, _. by apply (first_HInv memory s p).
  - destruct (cow_run s σ last r off size HH Hin) as (s1 & r1 & Hrun1 & HH1 & _).
    destruct (run_det _ _ _ _ _ _ Hrun Hrun1) as [_ <-]. eauto.
  - destruct (modify1_run s σ last r off HH Hin) as (s1 & r1 & Hrun1 & HH1 & _).
    destruct (run_det _ _ _ _ _ _ Hrun Hrun1) as [_ <-]. eauto.
  - destruct (modify2_run s σ last r off size HH Hin Hspan) as (s1 & r1 & Hrun1 & HH1 & _).
    destruct (run_det _ _ _ _ _ _ Hrun Hrun1) as [_ <-]. eauto.
  - destruct (block_to_run s σ last r i b HH Hi Hb) as [Hrun1 HH1].
    destruct (run_det _ _ _ _ _ _ Hrun Hrun1) as [_ ->]. eauto.
  - destruct (checkpoint_run s σ last r HH Hin) as (s1 & r1 & Hrun1 & HH1 & _ & El & _ & _).
    destruct (run_det _ _ _ _ _ _ Hrun Hrun1) as [_ <-]. rewrite El. eauto.
  - destruct (rollback_run s σ last r HH) as (s1 & r1 & Hrun1 & HH1 & _).
    destruct (run_det _ _ _ _ _ _ Hrun Hrun1) as [_ <-]. eauto.
  - destruct (discard_run s σ last r n le HH Hn) as (s1 & Hrun1 & HH1 & _).
    destruct (run_det _ _ _ _ _ _ Hrun Hrun1) as [_ <-]. eauto.
Qed.
End hist.
End SHist.
