(* ===== verification/World.v ===== *)
(** * World: what a node finds outside of it

    The code of mbedtls, the clock and the upcalls of the application, as one class; the
    view of the node that is passed to the components which it owns; and the effects
    through which the view information acts on its replica. *)
From S2P Require Import Prelude Node Messages PrePrepare NewKey.
Import Auth.

Class World := {
  w_hmac_md : list Z → list Z → list Z;
  w_char_signed : bool;
  w_digest_of : list Z → Dig.Digest;
  w_pk :: NK.PublicKeys;
  w_non_det : Z → list Z;               (* the upcall non_det_choices *)
  w_max_nd_bytes : Z;
  w_clock_mhz : Z;
  w_time : Z → Z;                       (* the results of currentTime(), in order *)
  w_secs : Z → Z;                       (* the time of day at these moments *)
  w_rand : Z → list Z;                  (* the keys of random_key(), in order *)
  w_nonce : Z → Z;                      (* the numbers of random_int(), in order *)
  w_lrand : Z → Z;                      (* lrand48(), by the number of readings of the clock *)
}.

Definition w_sig_size `{World} : Z → Z := NK.sig_size.
Definition w_pk_verify `{World} : Z → list Z → list Z → bool := NK.pk_verify.

(** ** The node that owns a component

    The fields of Node that change: the principals with their keys, the last New_key
    message, the source of identifiers, how many random keys and numbers were drawn and how
    often the clock was read.  [last_status] is a field of the replica. *)
Module NodeSt.
Record NodeState := mkNode {
  ps : list Principal; last_new_key : option NK.New_key; cur_rid : Z;
  draws : Z; nonces : Z; ticks : Z; last_status : Z;
}.

Definition bump_ticks (n : NodeState) : NodeState :=
  mkNode (ps n) (last_new_key n) (cur_rid n) (draws n) (nonces n) (ticks n + 1) (last_status n).

(** [Node::new_rid] *)
Definition new_rid `{World} (n : NodeState) : outcome (NodeState * Z) :=
  rid ← NK.new_rid (w_secs (ticks n)) (cur_rid n);
  Ret (mkNode (ps n) (last_new_key n) rid (draws n) (nonces n) (ticks n) (last_status n), rid).

(** A change of the principal of this node. *)
Definition set_own `{Config} (f : Principal → Principal) (n : NodeState) : outcome NodeState :=
  p ← NK.set_principal (ps n) node_id f;
  Ret (mkNode p (last_new_key n) (cur_rid n) (draws n) (nonces n) (ticks n) (last_status n)).
End NodeSt.

(** What a component sees of the node: its keys, the primary of each view and the clock. *)
Record env := mkEnv { e_keys : keys; e_now : Z }.
Definition e_primary (e : env) (v : Z) : Z := primary_of (e_keys e) v.

(** What the view information does besides changing itself: it sends messages of the
    view-change protocol and calls the replica back, as the last thing it does. *)
Inductive vi_effect (msg : Type) :=
| VSend (m : msg) (dst : Z)
| VStatus                                              (* replica->send_status() *)
| VNewView (min : Z) (d : Dig.Digest) (max ms : Z).    (* replica->process_new_view(...) *)
Arguments VSend {msg} _ _.
Arguments VStatus {msg}.
Arguments VNewView {msg} _ _ _ _.

(** ** A world for the examples: four replicas and a client *)
Module SampleNode.
(** Node [i] of four, with a window of eight batches. *)
Definition config (i : Z) : Config := {|
  max_out := 8; checkpoint_interval := 4; Max_num_replicas := 32;
  max_faulty := 1; num_principals := 5; node_id := i |}.

Lemma config_ok i : 0 ≤ i < 5 → ConfigOk (H := config i).
Proof. intros Hi. split; cbn; try lia; vm_compute; intuition congruence. Qed.

(** Signatures of eight bytes, and encryption of the keys that repeat one byte. *)
Definition sample_pk : NK.PublicKeys := {|
  NK.pk_size := λ _, 4; NK.sig_size := λ _, 8; NK.pk_verify := PP.sample_pk;
  NK.pk_encrypt := λ i k, [i; nth 0 k 0; 0; 0]; NK.priv_decrypt := λ c, Some (replicate 32 (nth 1 c 0));
  NK.priv_sign := λ _, replicate 4 1 |}.

Definition world : World := {|
  w_hmac_md := sample_md; w_char_signed := true; w_digest_of := PP.sample_digest_of;
  w_pk := sample_pk; w_non_det := λ _, replicate 8 3; w_max_nd_bytes := 8;
  w_clock_mhz := 1000; w_time := λ n, (n + 1) * 1000000000; w_secs := λ n, Z.min (n + 1) INT_MAX; w_rand := NK.sample_rand;
  w_nonce := λ n, n; w_lrand := λ n, n |}.
End SampleNode.
