(* ===== verification/StateProps.v ===== *)
(** * StateProps: what the state manager promises

    The properties of State.v that the invariants of StateInv.v and StateHist.v give,
    with a state that reaches the interesting cases: four blocks under a tree of three
    levels, two checkpoints after the first, and writes before and between them. *)
From stdpp Require Import gmap.
From S2P Require Import Prelude Node Bitmap SeqLog Messages StateMonad Partition State StateInv StateInit StateHist World.
#[local] Open Scope Z_scope.
Import State.

Module SProps.
Import SInv SInit SHist.
Section props.
Context `{Config} `{!ConfigOk} `{Tree} `{!TreeOk} `{Mpi} `{!MpiOk} (digest_of : list Z → Dig.Digest).
Context (digest_nonzero : ∀ l, Dig.is_zero (digest_of l) = false) (window : ∃ k, 0 ≤ k < 31 ∧ max_out = 2 ^ k).

(** C13: a checkpoint is a snapshot: as long as its number is in the log, and whatever was
    written, checkpointed, rolled back or discarded since, [get_data] returns every block
    and [get_meta_data] every partition as they were when the checkpoint was taken, and
    [digest] the digest of that root. *)
Theorem checkpoints_are_snapshots s σ c sn : hist digest_of s σ → kept s σ c sn →
  (∀ i, 0 ≤ i < nb s → ∃ b, zget (sn_mem sn) i = Some b ∧ get_data s c i = Ret b) ∧
  (∀ l i, 0 ≤ l ≤ leaf → 0 ≤ i < row_size s l → ∃ p, at2 (sn_ptree sn) l i = Some p ∧ get_meta_data s c l i = Ret p) ∧
  ∃ p, at2 (sn_ptree sn) 0 0 = Some p ∧ digest_at s c = Some (d p).
Proof.
  intros (last & r & HH)%hist_inv Hk; [|done..]. split; [|split].
  - intros i. by apply (get_data_kept digest_of s σ last r).
  - intros l i. by apply (get_meta_data_kept digest_of s σ last r).
  - by apply (digest_at_kept digest_of s σ last r).
Qed.

(** A rollback returns the number of the last checkpoint and restores its snapshot. *)
Theorem rollback_restores_checkpoint s σ : hist digest_of s σ →
  ∃ last s', σ !! lc s = Some last ∧ rollback false s = Ret (lc s, s') ∧ mem s' = sn_mem last ∧ ptree s' = sn_ptree last.
Proof.
  intros (last & r & HH)%hist_inv; [|done..].
  destruct (rollback_run digest_of s σ last r HH) as (s' & r' & Hrun & _ & Hm & Hp & _). exists last, s'.
  split; [apply HH|]. by split_and!.
Qed.

(** C14: the digests that a checkpoint computes along the modified paths are the digests of
    a computation from scratch over the whole memory, for every partition in use, and the
    checkpoint has that of the root. *)
Theorem checkpoint_digests_full s σ : hist digest_of s σ →
  Log.within_range (clog s) (lc s + checkpoint_interval) = true →
  ∃ s', checkpoint digest_of (lc s + checkpoint_interval) s = Ret (tt, s') ∧ mem s' = mem s ∧
    (∀ l i, live s' l i → ∃ p, at2 (ptree s') l i = Some p ∧ d p = full_digest digest_of (Z.to_nat (leaf - l)) s' i) ∧
    digest_at s' (lc s + checkpoint_interval) = Some (full_digest digest_of (Z.to_nat leaf) s' 0).
Proof.
  intros (last & r & HH)%hist_inv Hin; [|done..].
  destruct (checkpoint_run digest_of digest_nonzero s σ last r HH Hin) as (s' & r' & Hrun & HH' & Hm & El & Hd & _).
  pose proof (hi_inv _ _ _ _ _ HH') as [Hsh Hs _].
  assert (∀ l i, live s' l i → ∃ p, at2 (ptree s') l i = Some p ∧ d p = full_digest digest_of (Z.to_nat (leaf - l)) s' i) as Hall
    by (by apply full_digest_ok).
  exists s'. split; [done|]. split; [done|]. split; [done|].
  destruct (Hall 0 0) as (p & Hp & Hdp); [by apply live_root|]. rewrite Z.sub_0_r in Hdp. rewrite <- Hdp.
  destruct (hi_last_sd digest_of s' _ _ r' HH') as (q & Hq & Ed & Hz). assert (q = p) as -> by congruence.
  unfold digest_at. pose proof (hi_rec _ _ _ _ _ HH') as Hr. rewrite El in Hr. rewrite (fetch_in _ _ _ Hr), Hr, Hz. by rewrite Ed.
Qed.

(** C23: every state that the operations reach is well formed: the arrays have their sizes,
    each sum is that of the digests of the children modulo [DSum::M], and each digest is
    that of the content, except at the leaves written since the last checkpoint.  None of
    the assertions of the operations fails, and no access is outside of an array. *)
Theorem state_well_formed s σ : hist digest_of s σ →
  Inv digest_of s ∧
  (∀ off size, in_memory s off size → ∃ s', cow off size s = Ret (tt, s')) ∧
  (∀ i b, 0 ≤ i < nb s → BM.bit (cowb s) i = true → ∃ s', block_to i b s = Ret (tt, s')) ∧
  (Log.within_range (clog s) (lc s + checkpoint_interval) = true →
    ∃ s', checkpoint digest_of (lc s + checkpoint_interval) s = Ret (tt, s')) ∧
  (∃ s', rollback false s = Ret (lc s, s')) ∧
  ∀ n le, n ≤ lc s < 2 ^ 31 → ∃ s', discard_checkpoint digest_of n le s = Ret (tt, s') ∧ Log.head (clog s') = Z.max (Log.head (clog s)) n.
Proof.
  intros (last & r & HH)%hist_inv; [|done..]. split; [apply HH|]. split_and!.
  - intros off size Hin. destruct (cow_run digest_of s σ last r off size HH Hin) as (s' & ? & ? & _). by exists s'.
  - intros i b Hi Hb. destruct (block_to_run digest_of s σ last r i b HH Hi Hb) as [Hrun _]. by eexists.
  - intros Hin. destruct (checkpoint_run digest_of digest_nonzero s σ last r HH Hin) as (s' & ? & ? & _). by exists s'.
  - destruct (rollback_run digest_of s σ last r HH) as (s' & ? & ? & _). by exists s'.
  - intros n le Hn. destruct (discard_run digest_of s σ last r n le HH Hn) as (s' & ? & _ & _ & ?). by exists s'.
Qed.

End props.

(** ** A history *)
Definition tree : Tree := {|
  PChildren := 2; PLevels := 3; PSize := elem [1; 2; 2]; PLevelSize := elem [1; 2; 4]; PBlocks := elem [0; 4; 2; 1] |}.
Definition mpi : Mpi := {| mpi_read := λ l, foldl (λ a b, a * 256 + b `mod` 256) 0 l; mpi_write := λ z, rev (Msg.le 64 z) |}.
#[local] Existing Instance tree.
#[local] Existing Instance mpi.

#[local] Instance tree_ok : TreeOk.
Proof.
  split; [cbn; unfold MAX_PARTITION_LEVELS; lia|reflexivity|..].
  all: cbn; intros l Hl; assert (l = 0 ∨ l = 1 ∨ l = 2) as [-> | [-> | ->]] by lia; vm_compute; intuition lia || done.
Qed.

#[local] Instance mpi_ok : MpiOk.
Proof.
  intros l Hl. cbn. unfold zlen in Hl.
  assert (∀ a, 0 ≤ a → 0 ≤ foldl (λ a b, a * 256 + b `mod` 256) a l < (a + 1) * 256 ^ Z.of_nat (length l)) as G.
  { clear Hl. induction l as [|b l IH]; intros a Ha; [cbn; lia|]. cbn [foldl length].
    pose proof (Z.mod_pos_bound b 256). specialize (IH (a * 256 + b `mod` 256)).
    rewrite Nat2Z.inj_succ, Z.pow_succ_r by lia. nia. }
  specialize (G 0). rewrite Hl in G. change (256 ^ 32) with (2 ^ 256) in G. lia.
Qed.

Definition word_of (l : list Z) : Z := 1 + foldl (λ a b, (a * 257 + b + 1) `mod` 2 ^ 31) 7 l `mod` 2 ^ 31.

Lemma word_of_ok l : Dig.words_okb (word_of l :: replicate 7 0) = true.
Proof.
  unfold Dig.words_okb, word_of. set (a := foldl _ _ _). pose proof (Z.mod_pos_bound a (2 ^ 31)). cbn [length replicate].
  cbn [Dig.num_words Nat.eqb forallb andb]. rewrite (proj2 (Z.leb_le 0 _)), (proj2 (Z.ltb_lt _ (2 ^ 32))) by lia. done.
Qed.

Definition sample_digest (l : list Z) : Dig.Digest := Dig.mkDigest _ (word_of_ok l).

Lemma sample_digest_nonzero l : Dig.is_zero (sample_digest l) = false.
Proof.
  unfold Dig.is_zero, sample_digest. cbn [Dig.d]. unfold word_of. set (a := foldl _ _ _).
  pose proof (Z.mod_pos_bound a (2 ^ 31)). apply Z.eqb_neq. lia.
Qed.

(** A run of an operation, and the state after it. *)
Definition is_ret {A} (o : outcome A) : bool := match o with Ret _ => true | Err _ => false end.
Definition after {A} (m : ST Store A) (s : Store) : Store := match m s with Ret (_, s') => s' | Err _ => s end.

Lemma after_run (m : ST Store unit) s : is_ret (m s) = true → m s = Ret (tt, after m s).
Proof. unfold is_ret, after. by destruct (m s) as [[[] s']|]. Qed.

#[local] Instance sample_config : Config := SampleNode.config 0.
#[local] Instance sample_config_ok : ConfigOk := SampleNode.config_ok 0 ltac:(lia).

Lemma sample_window : ∃ k, 0 ≤ k < 31 ∧ max_out = 2 ^ k.
Proof. by exists 3. Qed.

Definition s0 : Store := after (compute_full_digest sample_digest) (make [[1]; [2]; [3]; [4]]).
Definition s1 : Store := after (cow 4096 4097) s0.
Definition s2 : Store := after (block_to 1 [20]) s1.
Definition s3 : Store := after (checkpoint sample_digest 4) s2.
Definition s4 : Store := after (modify2 4100 5000) s3.
Definition s5 : Store := after (block_to 2 [31]) s4.
Definition σ5 : gmap Z Snap := <[lc s3 := snap s3]> {[0 := snap s0]}.

Lemma sample_hist : hist sample_digest s5 σ5.
Proof.
  assert (hist sample_digest s0 {[0 := snap s0]}) as G0.
  { apply hist_first with [[1]; [2]; [3]; [4]]; [vm_compute; intuition congruence|]. apply after_run. by vm_compute. }
  assert (hist sample_digest s1 {[0 := snap s0]}) as G1.
  { apply hist_cow with s0 4096 4097; [done|vm_compute; intuition congruence|]. apply after_run. by vm_compute. }
  assert (hist sample_digest s2 {[0 := snap s0]}) as G2.
  { apply hist_write with s1 1 [20]; [done|vm_compute; intuition congruence|by vm_compute|]. apply after_run. by vm_compute. }
  assert (hist sample_digest s3 σ5) as G3.
  { apply hist_checkpoint with s2; [done|by vm_compute|]. apply (after_run (checkpoint sample_digest 4)). by vm_compute. }
  assert (hist sample_digest s4 σ5) as G4.
  { apply hist_modify2 with s3 4100 5000; [done|vm_compute; intuition congruence|vm_compute; congruence|].
    apply after_run. by vm_compute. }
  apply hist_write with s4 2 [31]; [done|vm_compute; intuition congruence|by vm_compute|]. apply after_run. by vm_compute.
Qed.

Lemma sample_kept : kept s5 σ5 0 (snap s0).
Proof.
  split_and!; [by vm_compute|vm_compute; congruence|by vm_compute|]. unfold σ5.
  rewrite lookup_insert_ne; [by rewrite lookup_singleton_eq|]. by vm_compute.
Qed.

Lemma checkpoints_are_snapshots_witness :
  mem s5 = [[1]; [20]; [31]; [4]] ∧ ∃ b, zget (sn_mem (snap s0)) 1 = Some b ∧ get_data s5 0 1 = Ret b.
Proof.
  split; [by vm_compute|]. apply (checkpoints_are_snapshots sample_digest sample_digest_nonzero sample_window s5 σ5 0 (snap s0)
    sample_hist sample_kept). vm_compute. split; congruence.
Defined.

Lemma rollback_restores_checkpoint_witness :
  ∃ last s', σ5 !! lc s5 = Some last ∧ rollback false s5 = Ret (lc s5, s') ∧ mem s' = sn_mem last ∧ ptree s' = sn_ptree last.
Proof. exact (rollback_restores_checkpoint sample_digest sample_digest_nonzero sample_window s5 σ5 sample_hist). Defined.

Lemma checkpoint_digests_full_witness :
  ∃ s', checkpoint sample_digest (lc s5 + checkpoint_interval) s5 = Ret (tt, s') ∧ mem s' = mem s5 ∧
    (∀ l i, live s' l i → ∃ p, at2 (ptree s') l i = Some p ∧ d p = full_digest sample_digest (Z.to_nat (leaf - l)) s' i) ∧
    digest_at s' (lc s5 + checkpoint_interval) = Some (full_digest sample_digest (Z.to_nat leaf) s' 0).
Proof.
  apply (checkpoint_digests_full sample_digest sample_digest_nonzero sample_window s5 σ5 sample_hist). by vm_compute.
Defined.

Lemma state_well_formed_witness : Inv sample_digest s5.
Proof. apply (state_well_formed sample_digest sample_digest_nonzero sample_window s5 σ5 sample_hist). Defined.

End SProps.
