(* ===== verification/StateErrors.v ===== *)
(** * StateErrors: what faulty repliers can do to a fetch (Meta_data_d.cc, Meta_data_cert.cc, Meta_data.cc)

    The certificate for the digest of a partition is to hold only values of [f + 1] replicas,
    and the replies of one replica are not to stop the fetching one.  Both fail, and an
    honest message that covers the whole window is rejected. *)
From stdpp Require Import gmap.
From S2P Require Import Prelude Node KMax Bitmap Messages PrePrepare Partition StateMsgs MetaDataCert World StateProps.
#[local] Open Scope Z_scope.
Import Auth SM.

Module SErr.

(** ** The digests of a Meta_data_d message *)
Section window.
Context `{Config} `{!ConfigOk} `{Tree}.

Lemma slot_small (m : Meta_data_d) n : mdd_ls m ≤ n ≤ mdd_ls m + max_out →
  slot_of m n = (n - mdd_ls m) `div` checkpoint_interval ∧ 0 ≤ slot_of m n < num_slots.
Proof.
  intros Hn. pose proof config_interval as Hc. pose proof config_max_out as Hm. unfold slot_of, num_slots.
  rewrite Z.quot_div_nonneg by lia. set (q := (n - mdd_ls m) `div` checkpoint_interval).
  assert (0 ≤ q ≤ max_out `div` checkpoint_interval) as Hq.
  { split; [apply Z.div_pos; lia|apply Z.div_le_mono; lia]. }
  assert (max_out `div` checkpoint_interval ≤ max_out) by (apply Z.div_le_upper_bound; nia).
  rewrite to_int_small by lia. lia.
Qed.

(** [add_digest] and [digest] are inverse on the window of the message: a digest is read
    back, the other numbers of the window keep what they had.  But a message with a digest
    for the last number of the window, that [add_digest] accepts and a replica sends
    when its checkpoints reach from [ls] to [ls + max_out], never passes [verify]. *)
Theorem meta_data_d_window m n x : Z.rem n checkpoint_interval = 0 → mdd_ls m ≤ n ≤ mdd_ls m + max_out →
  zlen (mdd_digests m) = num_slots → Dig.is_zero x = false →
  ∃ m', add_digest m n x = Ret m' ∧ mdd_digest m' n = Ret (Some x) ∧
    (∀ k, Z.rem k checkpoint_interval = 0 → mdd_ls m ≤ k ≤ mdd_ls m + max_out → slot_of m k ≠ slot_of m n →
      slot_of m k < mdd_n_digests m → mdd_digest m' k = mdd_digest m k) ∧
    (slot_of m n = num_slots - 1 → ∀ hmac_md char_signed ps, mdd_verify hmac_md char_signed ps m' = Ret false).
Proof.
  intros Hr Hn Hlen Hx. destruct (slot_small m n Hn) as [_ Hs]. unfold add_digest.
  rewrite (proj2 (Z.eqb_eq _ _) Hr), (proj2 (Z.leb_le _ _) (proj1 Hn)), (proj2 (Z.leb_le _ _) (proj2 Hn)).
  cbn [andb th_assert mbind outcome_bind]. destruct (zget_lookup (mdd_digests m) (slot_of m n)) as [old Hold]; [lia|].
  rewrite Hold. cbn [of_option mbind outcome_bind]. eexists. split; [done|]. split; [|split].
  - unfold mdd_digest. cbn. rewrite (proj2 (Z.eqb_eq _ _) Hr), (proj2 (Z.ltb_ge _ _) (proj1 Hn)). cbn.
    change (slot_of (mkMdd _ _ _ _ _ _ _ _ _ _) n) with (slot_of m n). rewrite zget_zset_eq by lia. cbn. rewrite Hx.
    destruct (mdd_n_digests m <=? slot_of m n) eqn:E; zprop; [rewrite (proj2 (Z.leb_gt (slot_of m n + 1) (slot_of m n))) by lia; done|].
    by rewrite (proj2 (Z.leb_gt (mdd_n_digests m) (slot_of m n))).
  - intros k Hrk Hk Hne Hlt. unfold mdd_digest. cbn.
    change (slot_of (mkMdd _ _ _ _ _ _ _ _ _ _) k) with (slot_of m k). rewrite zget_zset_ne by congruence.
    destruct (mdd_n_digests m <=? slot_of m n) eqn:E; zprop; [|done].
    by rewrite (proj2 (Z.leb_gt (slot_of m n + 1) (slot_of m k))), (proj2 (Z.leb_gt (mdd_n_digests m) (slot_of m k))) by lia.
  - intros Hlast hmac_md char_signed ps. unfold mdd_verify. cbn. repeat (case_match; [done|]).
    exfalso. match goal with G : (_ || (num_slots <=? _)) = false |- _ => apply orb_false_iff in G as [_ G]; revert G end.
    rewrite Hlast. destruct (mdd_n_digests m <=? num_slots - 1) eqn:E; intros G; zprop; lia.
Qed.
End window.

(** ** A fetching replica among four, with a window of sixteen batches *)
Definition config (i : Z) : Config := {|
  max_out := 16; checkpoint_interval := 4; Max_num_replicas := 32;
  max_faulty := 1; num_principals := 5; node_id := i |}.
#[local] Instance here : Config := config 0.
#[local] Existing Instance SProps.tree.

#[local] Instance here_ok : ConfigOk.
Proof. split; vm_compute; intuition congruence. Qed.

(** The last number of the window of an empty message. *)
Lemma meta_data_d_window_witness :
  let m := mkMdd 0 0 7 4 1 0 (replicate 5 Dig.zero) 0 3 [] in
  ∃ m', add_digest m 20 (SProps.sample_digest [5]) = Ret m' ∧ mdd_digest m' 20 = Ret (Some (SProps.sample_digest [5])) ∧
    ∀ hmac_md char_signed ps, mdd_verify hmac_md char_signed ps m' = Ret false.
Proof.
  cbv zeta. destruct (meta_data_d_window (mkMdd 0 0 7 4 1 0 (replicate 5 Dig.zero) 0 3 []) 20 (SProps.sample_digest [5]))
    as (m' & Hadd & Hget & _ & Hver); [reflexivity|vm_compute; split; congruence|reflexivity|vm_compute; reflexivity|].
  exists m'. split; [exact Hadd|]. split; [exact Hget|]. apply Hver. reflexivity.
Defined.

(** Replica [id] sends the digests from its number [ls] on, with a code for node 0. *)
Definition none : Dig.Digest := Dig.zero.
Definition message (id ls : Z) (ds : list Dig.Digest) : Meta_data_d :=
  let m := mkMdd 0 0 7 ls 1 0 (ds ++ replicate (5 - length ds) none) (zlen ds) id [] in
  match zget sample_principals 0 with Some p => mdd_authenticate sample_md p m | None => m end.

Definition verify : Meta_data_d → outcome bool := mdd_verify sample_md false sample_principals.

(** What the certificate does with a series of messages. *)
Definition received_by (add : (Meta_data_d → outcome bool) → MDC.Meta_data_cert → Meta_data_d → bool → outcome (bool * MDC.Meta_data_cert))
    (ms : list Meta_data_d) : outcome MDC.Meta_data_cert :=
  foldl (λ o m, x ← o; '(_, x) ← add verify x m false; Ret x) (Ret MDC.make) ms.
Definition received := received_by MDC.add.

Definition accepted (m : Meta_data_d) : bool := bool_decide (verify m = Ret true).

Definition forged : Dig.Digest := SProps.sample_digest [9; 9; 9].
Definition first_value : Dig.Digest := SProps.sample_digest [1].
Definition next_value : Dig.Digest := SProps.sample_digest [2].

Definition withdrawing : list Meta_data_d :=
  [message 3 0 [forged; forged]; message 3 0 [none; none; forged]; message 3 0 [none; forged; none; forged]].
Definition wiping : list Meta_data_d :=
  [message 1 0 [first_value]; message 3 0 [forged]; message 3 0 [none; forged]; message 2 0 [first_value]].
Definition updating : list Meta_data_d :=
  [message 1 0 [first_value]; message 2 0 [none; next_value]; message 1 0 [first_value; next_value]].

Lemma Forall_forallb {A} (f : A → bool) l : forallb f l = true → Forall (λ x, f x = true) l.
Proof.
  intros Hf. apply Forall_forall. intros x Hx. rewrite forallb_forall in Hf. apply Hf. by apply list_elem_of_In.
Qed.

(** The certificate for a digest is to hold the values of [f + 1] replicas, but it
    miscounts.  One faulty replica completes it alone: its second message withdraws two
    values, and the entry that takes the place of the first is not visited, so that it keeps
    its count and the third message counts the replica for it once more.  A faulty replica
    also keeps [f + 1] equal answers from completing it: when it withdraws the value that was
    added last, the loop that removes the entry removes all.  With static storage the old
    message of a replica is overwritten by the new one before they are compared, so that an
    honest replica's vote for a value that another one reported before is not counted. *)
Theorem meta_data_cert_miscounts :
  MDC.correct = 2 ∧ Forall (λ m, accepted m = true) (withdrawing ++ wiping ++ updating) ∧
  Forall (λ m, mdd_id m = 3) withdrawing ∧
  (MDC.cvalue <$> received withdrawing) = Ret (Some (4, forged)) ∧
  (MDC.cvalue <$> received [message 1 0 [first_value]; message 2 0 [first_value]]) = Ret (Some (0, first_value)) ∧
  (MDC.cvalue <$> received wiping) = Ret None ∧
  (MDC.cvalue <$> received updating) = Ret (Some (4, next_value)) ∧
  (MDC.cvalue <$> received_by MDC.add_static updating) = Ret None.
Proof.
  split; [done|]. split; [apply Forall_forallb; vm_compute; reflexivity|].
  split; [by repeat constructor|]. split_and!; vm_compute; reflexivity.
Qed.

(** ** Replies that stop the fetching replica *)
Definition shuffled : Meta_data :=
  mkMd (Msg.ALIGNED_SIZE (80 + 2 * 36)) 7 4 4 0 0 forged 3 2 [(1, forged); (0, forged)].

(** Single messages stop a fetching replica.  A Meta_data_d message whose number of the
    stable checkpoint is huge makes the next honest message read in front of its array,
    because the difference of the numbers is truncated to an [int]; and [verify] accepts
    sub-partitions in any order, while the iterator that reads them asserts that they are
    sorted (Meta_data messages are not authenticated). *)
Theorem one_reply_stops_fetch :
  let far := message 3 (4 * 2 ^ 31) [forged] in
  let honest := message 1 0 [forged] in
  accepted far = true ∧ accepted honest = true ∧
  (MDC.cvalue <$> received [honest]) = Ret None ∧ received [far; honest] = Err Undefined ∧
  meta_data_verify (H0 := default_tree) shuffled = Ret true ∧
  sub_parts (H0 := default_tree) (λ _, false) shuffled = Err AssertFail.
Proof. cbv zeta. split_and!; vm_compute; reflexivity. Qed.
End SErr.
