(* ===== verification/StaticRecords.v ===== *)
(** * StaticRecords: the records of checkpoints in the static build
    (src/src/checkpoint_record.{h,cc})

    With ALTERNATIVE_CHECKPOINT_RECORDS a record has a slot for every partition and every
    block instead of a map of those that were copied (Checkpoint_rec, in State.v).  A slot is
    free when its number is -1.

    [refines] relates a record to one of the default build, and the operations are shown to
    agree as long as no copied partition has the number -1, but for [clear], which keeps the
    digest of a record without copies.  [Layout] says that the slots fit the arrays:
    [Dyn.init] of Partition.v, the tree that this build uses, establishes it.  The log of
    the records is in RecordLog.v. *)
From stdpp Require Import gmap.
From S2P Require Import Prelude Messages PrePrepare Partition State.
#[local] Open Scope Z_scope.

Module SRec.
Section record.
Context `{Tree}.

Definition leaf : Z := State.leaf.

Record CheckpointRecord := mkRecord {
  partitions_ : list Part; blocks_ : list (Part * Block); num_entries_ : Z; sd : Dig.Digest;
}.

Definition set_sd (x : Dig.Digest) (r : CheckpointRecord) : CheckpointRecord :=
  mkRecord (partitions_ r) (blocks_ r) (num_entries_ r) x.

Definition is_cleared (r : CheckpointRecord) : bool := Dig.is_zero (sd r).
Definition num_entries (r : CheckpointRecord) : Z := num_entries_ r.

(** ** The slots *)

(** The index that [find_partition] computes. *)
Definition offset (level : Z) : Z := foldr Z.add 0 (PSize <$> seqZ 0 level).
Definition slot (level index : Z) : Z := offset level + index.

Definition find_partition (level index : Z) (r : CheckpointRecord) : outcome Part :=
  of_option Undefined (zget (partitions_ r) (slot level index)).
Definition find_block (index : Z) (r : CheckpointRecord) : outcome (Part * Block) :=
  of_option Undefined (zget (blocks_ r) index).

Definition unset (p : Part) : Part := mkPart (-1) (d p).

(** ** Clearing *)

(** The loops over the levels share the counter [partition]. *)
Definition clear_partition (a : list Part * Z) : outcome (list Part * Z) :=
  p ← of_option Undefined (zget a.1 a.2); Ret (zset a.1 a.2 (unset p), a.2 + 1).
Definition clear_level (o : outcome (list Part * Z)) (level : Z) : outcome (list Part * Z) :=
  foldl (λ o _, o ≫= clear_partition) o (seqZ 0 (PSize level)).
Definition clear_block (a : list (Part * Block)) (i : Z) : outcome (list (Part * Block)) :=
  p ← of_option Undefined (zget a i); Ret (zset a i (unset p.1, p.2)).

Definition clear (r : CheckpointRecord) : outcome CheckpointRecord :=
  if num_entries_ r =? 0 then Ret r
  else
    '(ps, _) ← foldl clear_level (Ret (partitions_ r, 0)) (seqZ 0 leaf);
    bs ← foldl (λ o i, o ≫= λ a, clear_block a i) (Ret (blocks_ r)) (seqZ 0 (PSize leaf));
    Ret (mkRecord ps bs 0 Dig.zero).

(** A record for [nb] blocks; [Part()] sets the number to 0. *)
Definition init (nb : Z) : outcome CheckpointRecord :=
  clear (mkRecord (replicate (Z.to_nat (num_meta_for_blocks nb)) (mkPart 0 Dig.zero))
                  (replicate (Z.to_nat nb) (mkPart 0 Dig.zero, [])) 1 Dig.zero).

(** ** Copies *)
Definition put_partition (l i : Z) (p : Part) (r : CheckpointRecord) : CheckpointRecord :=
  mkRecord (zset (partitions_ r) (slot l i) p) (blocks_ r) (num_entries_ r + 1) (sd r).
Definition put_block (i : Z) (p : Part) (b : Block) (r : CheckpointRecord) : CheckpointRecord :=
  mkRecord (partitions_ r) (zset (blocks_ r) i (p, b)) (num_entries_ r + 1) (sd r).

Definition append (l i : Z) (p : Part) (r : CheckpointRecord) : outcome CheckpointRecord :=
  q ← find_partition l i r;
  _ ← th_assert (lm q =? -1);
  Ret (put_partition l i p r).
Definition append_block (i : Z) (p : Part) (b : Block) (r : CheckpointRecord) : outcome CheckpointRecord :=
  q ← find_block i r;
  _ ← th_assert (lm q.1 =? -1);
  Ret (put_block i p b r).

Definition appendr (l i : Z) (p : Part) (r : CheckpointRecord) : outcome CheckpointRecord :=
  q ← find_partition l i r;
  if negb (lm q =? -1) then Ret r else Ret (put_partition l i p r).
Definition appendr_block (i : Z) (p : Part) (b : Block) (r : CheckpointRecord) : outcome CheckpointRecord :=
  q ← find_block i r;
  if negb (lm q.1 =? -1) then Ret r else Ret (put_block i p b r).

(** [fetch], with a block copy at the leaves. *)
Definition fetch (l i : Z) (r : CheckpointRecord) : outcome (option copy) :=
  if l =? leaf then
    q ← find_block i r; Ret (if lm q.1 =? -1 then None else Some (BlockCopy q.1 q.2))
  else
    q ← find_partition l i r; Ret (if lm q =? -1 then None else Some (PartCopy q)).

(** ** The iterator *)
Record Iter := mkIter { level_ : Z; index_ : Z }.
Definition make_iter : Iter := mkIter 0 0.

(** What is in a slot, for the iterator. *)
Definition entry (l i : Z) (r : CheckpointRecord) : outcome copy :=
  if l <? leaf then p ← find_partition l i r; Ret (PartCopy p)
  else q ← find_block i r; Ret (BlockCopy q.1 q.2).

Fixpoint scan_row (l : Z) (idx : list Z) (r : CheckpointRecord) : outcome (option Z) :=
  match idx with
  | [] => Ret None
  | i :: idx =>
      x ← entry l i r;
      if 0 <=? lm (copy_part x) then Ret (Some i) else scan_row l idx r
  end.

(** The loop over the levels above the leaves: the flag says that it returned. *)
Fixpoint scan_levels (ls : list Z) (it : Iter) (r : CheckpointRecord) : outcome (bool * Iter) :=
  match ls with
  | [] => Ret (false, it)
  | l :: ls =>
      o ← scan_row l (seqZ (index_ it) (PSize l - index_ it)) r;
      match o with
      | Some i => Ret (true, mkIter l i)
      | None => scan_levels ls (mkIter (l + 1) 0) r
      end
  end.

Definition find_next (it : Iter) (r : CheckpointRecord) : outcome Iter :=
  if PLevels <=? level_ it then Ret it
  else
    '(found, it) ← scan_levels (seqZ (level_ it) (leaf - level_ it)) it r;
    if found : bool then Ret it
    else
      let l := level_ it in
      o ← scan_row leaf (seqZ (index_ it) (PSize l - index_ it)) r;
      match o with
      | Some i => Ret (mkIter l i)
      | None => Ret (mkIter (l + 1) (index_ it))
      end.

Definition iter_get (it : Iter) (r : CheckpointRecord) : outcome (option (Z * Z * copy) * Iter) :=
  it ← find_next it r;
  if PLevels <=? level_ it then Ret (None, it)
  else
    x ← entry (level_ it) (index_ it) r;
    Ret (Some (level_ it, index_ it, x), mkIter (level_ it) (index_ it + 1)).

(** [while (g.get(l, i, p)) ...] *)
Fixpoint iter_all (fuel : nat) (it : Iter) (r : CheckpointRecord) : outcome (list (Z * Z * copy)) :=
  match fuel with
  | O => Err OutOfFuel
  | S fuel =>
      '(o, it) ← iter_get it r;
      match o with
      | None => Ret []
      | Some x => xs ← iter_all fuel it r; Ret (x :: xs)
      end
  end.

(** ** The shape of the arrays *)
Class Layout (nb : Z) : Prop := {
  lay_levels : 1 ≤ PLevels;
  lay_size l : 0 ≤ l < PLevels → 0 < PSize l;
  lay_meta : offset leaf = num_meta_for_blocks nb;
  lay_blocks : PSize leaf = nb;
}.

Definition key (l i : Z) : Prop := 0 ≤ l < PLevels ∧ 0 ≤ i < PSize l.

Definition shape (r : CheckpointRecord) : Prop :=
  zlen (partitions_ r) = offset leaf ∧ zlen (blocks_ r) = PSize leaf.

(** The kind of a copy is that of its level. *)
Definition kind (l : Z) (x : copy) : Prop :=
  match x with PartCopy _ => l < leaf | BlockCopy _ _ => l = leaf end.

Lemma leaf_eq : leaf = PLevels - 1.
Proof. done. Qed.

Lemma offset_succ l : 0 ≤ l → offset (l + 1) = offset l + PSize l.
Proof.
  intros Hl. unfold offset. rewrite seqZ_app with (n1 := l) (n2 := 1) by lia.
  rewrite fmap_app. cbn [seqZ fmap]. rewrite Z.add_0_l. change (seqZ l 1) with [0 + l].
  cbn [fmap list_fmap]. rewrite foldr_app. cbn [foldr].
  assert (∀ xs a, foldr Z.add a xs = foldr Z.add 0 xs + a) as E.
  { induction xs as [|x xs IH]; intros a; cbn; [lia|rewrite IH; lia]. }
  rewrite E. rewrite Z.add_0_l. lia.
Qed.

Section layout.
Context {nb : Z} `{!Layout nb}.

Lemma offset_mono l m : 0 ≤ l ≤ m → m ≤ PLevels → offset l ≤ offset m.
Proof.
  intros [Hl Hm]. replace m with (l + Z.of_nat (Z.to_nat (m - l))) by lia.
  generalize (Z.to_nat (m - l)). induction n as [|n IH]; intros Hlev; [rewrite Z.add_0_r; lia|].
  replace (l + Z.of_nat (S n)) with (l + Z.of_nat n + 1) in * by lia.
  rewrite offset_succ by lia. pose proof (lay_size (l + Z.of_nat n)). specialize (IH ltac:(lia)). lia.
Qed.

Lemma slot_bound l i : key l i → l < leaf → 0 ≤ slot l i < offset leaf.
Proof.
  rewrite leaf_eq. intros [[Hl0 Hl1] Hi] Hl. unfold slot.
  assert (offset 0 ≤ offset l) as H0 by (apply offset_mono; lia).
  assert (offset (l + 1) ≤ offset (PLevels - 1)) as H1 by (apply offset_mono; lia).
  change (offset 0) with 0 in H0. rewrite offset_succ in H1 by lia. lia.
Qed.

Lemma slot_inj l i m j : key l i → key m j → l < leaf → m < leaf → slot l i = slot m j → l = m ∧ i = j.
Proof.
  rewrite leaf_eq. intros [Hl Hi] [Hm Hj] _ _ E. unfold slot in E.
  assert (∀ a b, 0 ≤ a → a < b → b < PLevels → offset a + PSize a ≤ offset b) as Hsep.
  { intros a b Ha Hab Hb. rewrite <- offset_succ by lia. apply offset_mono; lia. }
  destruct (Z.lt_trichotomy l m) as [Hlt|[->|Hgt]]; [|lia|].
  - specialize (Hsep l m). lia.
  - specialize (Hsep m l). lia.
Qed.

(** *** Entries *)
Lemma entry_ok l i r : shape r → key l i → ∃ x, entry l i r = Ret x ∧ kind l x.
Proof.
  intros [Hp Hb] Hk. unfold entry, kind. destruct (l <? leaf) eqn:E; zprop.
  - unfold find_partition. destruct (zget_lookup (partitions_ r) (slot l i)) as [p ->].
    { rewrite Hp. by apply slot_bound. }
    by eexists (PartCopy p).
  - destruct Hk as [Hl Hi]. assert (l = leaf) as -> by (rewrite leaf_eq in *; lia).
    unfold find_block. destruct (zget_lookup (blocks_ r) i) as [q ->]; [lia|].
    by eexists (BlockCopy q.1 q.2).
Qed.

(** The operations on a slot, for either kind of copy. *)
Definition put (l i : Z) (x : copy) (r : CheckpointRecord) : CheckpointRecord :=
  match x with PartCopy p => put_partition l i p r | BlockCopy p b => put_block i p b r end.

Lemma shape_put l i x r : shape r → shape (put l i x r).
Proof. intros [Hp Hb]. destruct x; split; cbn; by rewrite ?zlen_zset. Qed.

Lemma entry_put l i x r m j : shape r → key l i → kind l x → key m j →
  entry m j (put l i x r) = if decide ((m, j) = (l, i)) then Ret x else entry m j r.
Proof.
  intros [Hp Hb] Hk Hx Hm. unfold entry. destruct x as [p|p b]; cbn in Hx; cbn [put].
  - destruct (m <? leaf) eqn:E; zprop.
    + unfold find_partition. cbn [partitions_ put_partition]. rewrite zget_zset.
      pose proof (slot_bound l i Hk Hx). rewrite Hp. case_decide as D1.
      * destruct D1 as [D1 _]. apply slot_inj in D1 as [-> ->]; [|done..]. by rewrite decide_True.
      * rewrite decide_False; [done|]. intros [= -> ->]. by apply D1.
    + rewrite decide_False; [done|]. intros [= -> _]. lia.
  - subst l. destruct (m <? leaf) eqn:E; zprop.
    + rewrite decide_False; [done|]. intros [= -> _]. lia.
    + assert (m = leaf) as -> by (destruct Hm; rewrite leaf_eq in *; lia).
      unfold find_block. cbn [blocks_ put_block]. rewrite zget_zset. destruct Hk as [_ Hi]. rewrite Hb.
      case_decide as D1.
      * destruct D1 as [-> _]. by rewrite decide_True.
      * rewrite decide_False; [done|]. intros [= ->]. by apply D1.
Qed.

Lemma rec_fetch_entry l i r : shape r → key l i →
  fetch l i r = (x ← entry l i r; Ret (if lm (copy_part x) =? -1 then None else Some x)).
Proof.
  intros _ [Hl _]. unfold fetch, entry. rewrite leaf_eq in *.
  destruct (l =? PLevels - 1) eqn:E; zprop; zbool.
  - by destruct (find_block i r).
  - by destruct (find_partition l i r).
Qed.
End layout.

(** ** Clearing a record *)

(** The first [k] numbers are -1. *)
Definition wiped (n k : Z) (a : list Part * Z) : Prop :=
  zlen a.1 = n ∧ a.2 = k ∧ ∀ j p, 0 ≤ j < k → zget a.1 j = Some p → lm p = -1.

Lemma clear_partition_ok n k a : 0 ≤ k < n → wiped n k a →
  ∃ a', clear_partition a = Ret a' ∧ wiped n (k + 1) a'.
Proof.
  intros Hk (Hn & Hc & Hw). unfold clear_partition. rewrite Hc.
  destruct (zget_lookup a.1 k) as [p Hp]; [lia|]. rewrite Hp. cbn. eexists. split; [done|].
  split; [|split; [done|]]; cbn; [by rewrite zlen_zset|]. intros j q Hj. rewrite zget_zset.
  case_decide as D; [by intros [= <-]|]. apply Hw. destruct (decide (j = k)) as [->|]; [|lia].
  destruct D. by rewrite Hn.
Qed.

Lemma clear_level_ok n k l a : 0 ≤ k → k + PSize l ≤ n → 0 ≤ PSize l → wiped n k a →
  ∃ a', clear_level (Ret a) l = Ret a' ∧ wiped n (k + PSize l) a'.
Proof.
  intros Hk Hn Hs Ha. unfold clear_level.
  enough (∀ (m : nat) b, k + b + Z.of_nat m ≤ n → 0 ≤ b → ∀ a, wiped n (k + b) a →
    ∃ a', foldl (λ o _, o ≫= clear_partition) (Ret a) (seqZ b (Z.of_nat m)) = Ret a' ∧
      wiped n (k + b + Z.of_nat m) a') as G.
  { specialize (G (Z.to_nat (PSize l)) 0). rewrite Z2Nat.id, Z.add_0_r in G by done. by apply G. }
  clear a Ha. induction m as [|m IH]; intros b Hb Hb0 a Ha.
  - exists a. rewrite Z.add_0_r. done.
  - rewrite seqZ_cons by lia. destruct (clear_partition_ok n (k + b) a) as (a1 & E & Ha1); [lia|done|].
    cbn [foldl mbind outcome_bind]. rewrite E. replace (Z.pred (Z.of_nat (S m))) with (Z.of_nat m) by lia.
    rewrite <- Z.add_1_r. rewrite <- Z.add_assoc in Ha1.
    destruct (IH (b + 1) ltac:(lia) ltac:(lia) a1 Ha1) as (a' & E' & Ha'). exists a'. split; [done|].
    by replace (k + b + Z.of_nat (S m)) with (k + (b + 1) + Z.of_nat m) by lia.
Qed.

Lemma clear_blocks_ok (bs : list (Part * Block)) : ∃ bs',
  foldl (λ o i, o ≫= λ a, clear_block a i) (Ret bs) (seqZ 0 (zlen bs)) = Ret bs' ∧
  zlen bs' = zlen bs ∧ ∀ j p, zget bs' j = Some p → lm p.1 = -1.
Proof.
  enough (∀ (m : nat), Z.of_nat m ≤ zlen bs → ∃ bs',
    foldl (λ o i, o ≫= λ a, clear_block a i) (Ret bs) (seqZ 0 (Z.of_nat m)) = Ret bs' ∧
    zlen bs' = zlen bs ∧ ∀ j p, 0 ≤ j < Z.of_nat m → zget bs' j = Some p → lm p.1 = -1) as G.
  { destruct (G (length bs)) as (bs' & E & Hl & Hw); [done|]. exists bs'. split; [done|]. split; [done|].
    intros j p Hp. apply (Hw j); [|done]. apply zget_Some_lt in Hp. by rewrite Hl in Hp. }
  induction m as [|m IH]; intros Hm; [exists bs; cbn; split_and!; [done|done|lia]|].
  destruct IH as (b1 & E & Hl & Hw); [lia|].
  replace (Z.of_nat (S m)) with (Z.of_nat m + 1) by lia. rewrite seqZ_app by lia.
  rewrite foldl_app, E. change (seqZ (0 + Z.of_nat m) 1) with [0 + (0 + Z.of_nat m)].
  cbn [foldl mbind outcome_bind]. rewrite !Z.add_0_l. unfold clear_block.
  destruct (zget_lookup b1 (Z.of_nat m)) as [p Hp]; [lia|]. rewrite Hp. cbn.
  eexists. split; [done|]. split; [by rewrite zlen_zset|]. intros j q Hj. rewrite zget_zset.
  case_decide as D; [by intros [= <-]|]. apply Hw. destruct (decide (j = Z.of_nat m)) as [->|]; [|lia].
  destruct D. lia.
Qed.

Section cleared.
Context {nb : Z} `{!Layout nb}.

(** Every slot is free. *)
Definition free (r : CheckpointRecord) : Prop :=
  ∀ l i x, key l i → entry l i r = Ret x → lm (copy_part x) = -1.

Lemma clear_levels_ok ps : zlen ps = offset leaf →
  ∃ a, foldl clear_level (Ret (ps, 0)) (seqZ 0 leaf) = Ret a ∧ wiped (offset leaf) (offset leaf) a.
Proof.
  intros Hps. enough (∀ m : nat, Z.of_nat m ≤ leaf →
    ∃ a, foldl clear_level (Ret (ps, 0)) (seqZ 0 (Z.of_nat m)) = Ret a ∧
      wiped (offset leaf) (offset (Z.of_nat m)) a) as G.
  { pose proof lay_levels. rewrite leaf_eq in *. specialize (G (Z.to_nat (PLevels - 1))).
    rewrite Z2Nat.id in G by lia. by apply G. }
  induction m as [|m IH]; intros Hm.
  { eexists. split; [done|]. split_and!; [done|done|]. change (offset (Z.of_nat 0)) with 0. lia. }
  destruct IH as (a & E & Ha); [lia|].
  replace (Z.of_nat (S m)) with (Z.of_nat m + 1) in * by lia. rewrite seqZ_app by lia.
  rewrite foldl_app, E. change (seqZ (0 + Z.of_nat m) 1) with [0 + (0 + Z.of_nat m)].
  cbn [foldl]. rewrite !Z.add_0_l, offset_succ by lia.
  rewrite leaf_eq in *. pose proof (lay_size (Z.of_nat m) ltac:(lia)).
  assert (0 ≤ offset (Z.of_nat m)).
  { change 0 with (offset 0) at 1. apply offset_mono; lia. }
  apply clear_level_ok; [done| |lia|done].
  rewrite <- offset_succ by lia. apply offset_mono; lia.
Qed.

Lemma rec_clear_ok r : shape r → num_entries_ r ≠ 0 →
  ∃ r', clear r = Ret r' ∧ shape r' ∧ free r' ∧ num_entries_ r' = 0 ∧ sd r' = Dig.zero.
Proof.
  intros [Hp Hb] Hn. unfold clear. rewrite (proj2 (Z.eqb_neq (num_entries_ r) 0)) by done.
  destruct (clear_levels_ok (partitions_ r) Hp) as ([ps k] & -> & Hl & _ & Hw).
  destruct (clear_blocks_ok (blocks_ r)) as (bs & E & Hlb & Hwb). rewrite Hb in E, Hlb.
  cbn [mbind outcome_bind]. rewrite E. cbn [mbind outcome_bind]. eexists. split; [done|].
  split; [by split|]. split; [|done]. intros l i x Hk. unfold entry, find_partition, find_block.
  destruct (l <? leaf) eqn:El; zprop; cbn.
  - destruct (zget ps (slot l i)) as [p|] eqn:Ep; cbn; [|done]. intros [= <-]. cbn.
    apply (Hw (slot l i)); [|done]. by apply slot_bound.
  - destruct (zget bs i) as [p|] eqn:Ep; cbn; [|done]. intros [= <-]. cbn. by apply (Hwb i).
Qed.

Lemma init_ok : ∃ r, init nb = Ret r ∧ shape r ∧ free r ∧ num_entries_ r = 0 ∧ sd r = Dig.zero.
Proof.
  pose proof lay_levels. apply rec_clear_ok; [|done].
  assert (0 ≤ offset leaf) as Ho.
  { rewrite leaf_eq. change 0 with (offset 0) at 1. apply offset_mono; lia. }
  assert (0 < PSize leaf) as Hs by (rewrite leaf_eq; apply lay_size; lia).
  rewrite lay_meta in Ho. rewrite lay_blocks in Hs.
  split; cbn; unfold zlen; rewrite length_replicate, ?lay_meta, ?lay_blocks; lia.
Qed.
End cleared.

(** ** Agreement with the record of the default build *)
Section refinement.
Context {nb : Z} `{!Layout nb}.

Record refines (c : CRec.Checkpoint_rec) (r : CheckpointRecord) : Prop := {
  ref_shape : shape r;
  ref_keys l i x : CRec.parts c !! (l, i) = Some x → key l i ∧ 0 ≤ lm (copy_part x);
  ref_entry l i x : key l i → entry l i r = Ret x →
    CRec.parts c !! (l, i) = if lm (copy_part x) =? -1 then None else Some x;
  ref_num : num_entries r = CRec.num_entries c;
  ref_sd : sd r = CRec.sd c;
}.

Lemma refines_make r : shape r → free r → num_entries_ r = 0 → sd r = Dig.zero → refines CRec.make r.
Proof.
  intros Hs Hf Hn Hd. split; [done|done| |done|done].
  intros l i x Hk Hx. by rewrite (Hf l i x).
Qed.

Lemma fetch_refines c r l i : refines c r → key l i → fetch l i r = Ret (CRec.fetch l i c).
Proof.
  intros Hr Hk. rewrite rec_fetch_entry by (done || apply Hr).
  destruct (entry_ok l i r) as (x & Hx & _); [apply Hr|done|]. rewrite Hx. cbn.
  unfold CRec.fetch. by rewrite (ref_entry _ _ Hr l i x).
Qed.

Lemma put_refines c r l i x : refines c r → key l i → kind l x → 0 ≤ lm (copy_part x) →
  CRec.parts c !! (l, i) = None →
  refines (CRec.mkRec (CRec.sd c) (<[(l, i) := x]> (CRec.parts c))) (put l i x r).
Proof.
  intros Hr Hk Hx Hlm Hc. pose proof (ref_shape _ _ Hr) as Hs. split.
  - by apply shape_put.
  - cbn. intros m j y. rewrite lookup_insert. case_decide as D.
    + injection D as <- <-. by intros [= <-].
    + apply (ref_keys _ _ Hr).
  - cbn. intros m j y Hm. rewrite (entry_put l i x r m j Hs Hk Hx Hm), lookup_insert.
    destruct (decide ((m, j) = (l, i))) as [[= -> ->]|D].
    + rewrite decide_True by done. intros [= <-].
      by rewrite (proj2 (Z.eqb_neq (lm (copy_part x)) (-1))) by lia.
    + rewrite decide_False by congruence. by apply (ref_entry _ _ Hr).
  - unfold CRec.num_entries. cbn [CRec.parts]. rewrite map_size_insert_None by done.
    rewrite Nat2Z.inj_succ, <- Z.add_1_r.
    transitivity (num_entries r + 1); [by destruct x|]. by rewrite (ref_num _ _ Hr).
  - cbn. by destruct x; apply (ref_sd _ _ Hr).
Qed.

(** *** Sequences of operations *)
Inductive op :=
| Append (l i : Z) (x : copy)
| Appendr (l i : Z) (x : copy)
| SetSd (y : Dig.Digest)
| Clear.

Definition op_key (o : op) : Prop :=
  match o with
  | Append l i x | Appendr l i x => key l i ∧ kind l x ∧ 0 ≤ lm (copy_part x)
  | SetSd _ | Clear => True
  end.

Definition run_static (o : op) (r : CheckpointRecord) : outcome CheckpointRecord :=
  match o with
  | Append l i (PartCopy p) => append l i p r
  | Append l i (BlockCopy p b) => append_block i p b r
  | Appendr l i (PartCopy p) => appendr l i p r
  | Appendr l i (BlockCopy p b) => appendr_block i p b r
  | SetSd y => Ret (set_sd y r)
  | Clear => clear r
  end.

Definition run_default (o : op) (c : CRec.Checkpoint_rec) : outcome CRec.Checkpoint_rec :=
  match o with
  | Append l i x => CRec.append l i x c
  | Appendr l i x => CRec.appendr l i x c
  | SetSd y => Ret (CRec.set_sd y c)
  | Clear => Ret (CRec.clear c)
  end.

(** A finite map of copies with a digest, as the static build has it: [clear] does nothing to a
    record without copies, and keeps its digest. *)
Definition spec_clear (c : CRec.Checkpoint_rec) : CRec.Checkpoint_rec :=
  if decide (CRec.parts c = ∅) then c else CRec.make.

Definition run_spec (o : op) (c : CRec.Checkpoint_rec) : outcome CRec.Checkpoint_rec :=
  match o with Clear => Ret (spec_clear c) | _ => run_default o c end.

(** A record is cleared only if it has copies exactly when it has a digest. *)
Fixpoint clears_ok (os : list op) (c : CRec.Checkpoint_rec) : Prop :=
  match os with
  | [] => True
  | o :: os =>
      (o = Clear → (CRec.is_cleared c = true ↔ CRec.parts c = ∅)) ∧
      match run_default o c with Ret c => clears_ok os c | Err _ => True end
  end.

Definition agree (c : outcome CRec.Checkpoint_rec) (r : outcome CheckpointRecord) : Prop :=
  match c, r with
  | Ret c, Ret r => refines c r
  | Err e, Err e' => e = e'
  | _, _ => False
  end.

Lemma append_put l i x r : shape r → key l i → kind l x →
  run_static (Append l i x) r =
    (y ← entry l i r; _ ← th_assert (lm (copy_part y) =? -1); Ret (put l i x r)).
Proof.
  intros _ [Hl Hi] Hx. unfold entry, run_static, append, append_block. destruct x; cbn in Hx.
  - zbool. by destruct (find_partition l i r).
  - subst l. zbool. by destruct (find_block i r) as [[p' b']|].
Qed.

Lemma appendr_put l i x r : shape r → key l i → kind l x →
  run_static (Appendr l i x) r =
    (y ← entry l i r; if lm (copy_part y) =? -1 then Ret (put l i x r) else Ret r).
Proof.
  intros _ [Hl Hi] Hx. unfold entry, run_static, appendr, appendr_block. destruct x; cbn in Hx.
  - zbool. destruct (find_partition l i r) as [q|]; [|done]. cbn. by destruct (_ =? _).
  - subst l. zbool. destruct (find_block i r) as [[p' b']|]; [|done]. cbn. by destruct (_ =? _).
Qed.

Lemma clear_refines c r : refines c r → agree (Ret (spec_clear c)) (clear r).
Proof.
  intros Hr. pose proof (ref_num _ _ Hr) as Hn. unfold num_entries, CRec.num_entries in Hn.
  unfold spec_clear. case_decide as He.
  - unfold clear. rewrite He, map_size_empty in Hn. by rewrite Hn.
  - destruct (rec_clear_ok r) as (r' & -> & Hs & Hf & Hn' & Hd); [apply Hr| |by apply refines_make].
    intros H0. apply He, map_size_empty_iff. lia.
Qed.

(** The [clear] of the default build does the same to a record that has copies exactly when it has a digest. *)
Lemma spec_clear_default c : (CRec.is_cleared c = true ↔ CRec.parts c = ∅) → spec_clear c = CRec.clear c.
Proof.
  intros Hc. unfold spec_clear, CRec.clear. destruct (CRec.is_cleared c) eqn:E; case_decide as He; try done.
  - by destruct He; apply Hc.
  - apply Hc in He. done.
Qed.

Lemma rec_step_refines o c r : op_key o → refines c r → agree (run_spec o c) (run_static o r).
Proof.
  intros Ho Hr. pose proof (ref_shape _ _ Hr) as Hs. destruct o as [l i x|l i x|y|].
  - destruct Ho as (Hk & Hx & Hlm). rewrite append_put by done.
    destruct (entry_ok l i r Hs Hk) as (y & Ey & _). rewrite Ey. cbn. unfold CRec.append.
    rewrite (ref_entry _ _ Hr l i y Hk Ey). destruct (lm (copy_part y) =? -1) eqn:E; cbn; [|done].
    apply put_refines; try done. by rewrite (ref_entry _ _ Hr l i y Hk Ey), E.
  - destruct Ho as (Hk & Hx & Hlm). rewrite appendr_put by done.
    destruct (entry_ok l i r Hs Hk) as (y & Ey & _). rewrite Ey. cbn. unfold CRec.appendr, CRec.append.
    rewrite (ref_entry _ _ Hr l i y Hk Ey). destruct (lm (copy_part y) =? -1) eqn:E; cbn; [|done].
    apply put_refines; try done. by rewrite (ref_entry _ _ Hr l i y Hk Ey), E.
  - destruct Hr. by split.
  - by apply clear_refines.
Qed.

Fixpoint runs {S} (step : op → S → outcome S) (os : list op) (s : S) : outcome S :=
  match os with [] => Ret s | o :: os => s ← step o s; runs step os s end.

Lemma runs_agree os : ∀ c r, Forall op_key os → refines c r →
  agree (runs run_spec os c) (runs run_static os r).
Proof.
  induction os as [|o os IH]; intros c r Hk Hr; [done|].
  apply Forall_cons in Hk as [Ho Hk]. cbn [runs].
  pose proof (rec_step_refines o c r Ho Hr) as A.
  destruct (run_spec o c), (run_static o r); cbn in A |- *; try done. by apply IH.
Qed.

Lemma runs_default os : ∀ c, clears_ok os c → runs run_default os c = runs run_spec os c.
Proof.
  induction os as [|o os IH]; intros c Hc; [done|]. destruct Hc as [Hcl Hc]. cbn [runs].
  assert (run_spec o c = run_default o c) as ->.
  { destruct o; try done. cbn. by rewrite spec_clear_default by (by apply Hcl). }
  destruct (run_default o c); [|done]. by apply IH.
Qed.
End refinement.

(** ** The iterator visits the copies in the order of their slots *)
Definition row (l i : Z) : list (Z * Z) := (λ j, (l, j)) <$> seqZ i (PSize l - i).

(** What is left for an iterator. *)
Definition rest (it : Iter) : list (Z * Z) :=
  if level_ it <? PLevels
  then row (level_ it) (index_ it) ++ mbind (λ l, row l 0) (seqZ (level_ it + 1) (leaf - level_ it))
  else [].

Definition present (r : CheckpointRecord) (k : Z * Z) : option (Z * Z * copy) :=
  match entry k.1 k.2 r with
  | Ret x => if 0 <=? lm (copy_part x) then Some (k.1, k.2, x) else None
  | Err _ => None
  end.

Definition listing (r : CheckpointRecord) (it : Iter) : list (Z * Z * copy) := omap (present r) (rest it).

Lemma row_cons l i : i < PSize l → row l i = (l, i) :: row l (i + 1).
Proof.
  intros Hi. unfold row. rewrite seqZ_cons by lia. rewrite <- Z.add_1_r, fmap_cons.
  by replace (Z.pred (PSize l - i)) with (PSize l - (i + 1)) by lia.
Qed.

Lemma row_end l i : PSize l ≤ i → row l i = [].
Proof. intros Hi. unfold row. by rewrite seqZ_nil by lia. Qed.

Lemma rest_next l i : 0 ≤ l < PLevels → rest (mkIter l i) = row l i ++ rest (mkIter (l + 1) 0).
Proof.
  intros Hl. unfold rest. cbn [level_ index_]. rewrite leaf_eq, (proj2 (Z.ltb_lt l PLevels)) by lia. f_equal.
  destruct (l + 1 <? PLevels) eqn:E; zprop.
  - rewrite (seqZ_cons (l + 1)) by lia. rewrite bind_cons, <- Z.add_1_r.
    by replace (Z.pred (PLevels - 1 - l)) with (PLevels - 1 - (l + 1)) by lia.
  - by rewrite seqZ_nil by lia.
Qed.

Section iterator.
Context {nb : Z} `{!Layout nb} (r : CheckpointRecord) (Hs : shape r).

Lemma scan_row_ok l (n : nat) i : 0 ≤ l < PLevels → 0 ≤ i → i + Z.of_nat n = PSize l →
  scan_row l (seqZ i (Z.of_nat n)) r = Ret None ∧ omap (present r) (row l i) = [] ∨
  ∃ j x, scan_row l (seqZ i (Z.of_nat n)) r = Ret (Some j) ∧ i ≤ j < PSize l ∧ entry l j r = Ret x ∧
    omap (present r) (row l i) = (l, j, x) :: omap (present r) (row l (j + 1)).
Proof.
  intros Hl. revert i. induction n as [|n IH]; intros i Hi Hn.
  { left. split; [done|]. by rewrite row_end by lia. }
  destruct (entry_ok l i r Hs) as (x & Ex & _); [split; lia|].
  rewrite (seqZ_cons i) by lia. cbn [scan_row]. rewrite Ex. cbn [mbind outcome_bind].
  rewrite row_cons by lia. cbn [omap list_omap].
  assert (present r (l, i) = if 0 <=? lm (copy_part x) then Some (l, i, x) else None) as ->.
  { unfold present. cbn [fst snd]. by rewrite Ex. }
  destruct (0 <=? lm (copy_part x)).
  - right. exists i, x. split; [done|]. split; [lia|]. by split.
  - replace (Z.pred (Z.of_nat (S n))) with (Z.of_nat n) by lia. rewrite <- Z.add_1_r.
    destruct (IH (i + 1)) as [IH'|(j & y & E & Hj & IH')]; [lia|lia|by left|].
    right. exists j, y. split; [done|]. split; [lia|]. done.
Qed.

Lemma scan_row_seqZ l i : 0 ≤ l < PLevels → 0 ≤ i ≤ PSize l →
  scan_row l (seqZ i (PSize l - i)) r = Ret None ∧ omap (present r) (row l i) = [] ∨
  ∃ j x, scan_row l (seqZ i (PSize l - i)) r = Ret (Some j) ∧ i ≤ j < PSize l ∧ entry l j r = Ret x ∧
    omap (present r) (row l i) = (l, j, x) :: omap (present r) (row l (j + 1)).
Proof.
  intros Hl Hi. replace (PSize l - i) with (Z.of_nat (Z.to_nat (PSize l - i))) by lia.
  apply scan_row_ok; lia.
Qed.

(** An iterator that [get] has produced. *)
Definition valid (it : Iter) : Prop :=
  PLevels ≤ level_ it ∨ 0 ≤ level_ it < PLevels ∧ 0 ≤ index_ it ≤ PSize (level_ it).

Definition hit (it : Iter) (l i : Z) (x : copy) : Prop :=
  key l i ∧ entry l i r = Ret x ∧ listing r it = (l, i, x) :: listing r (mkIter l (i + 1)).

Lemma listing_next l i : 0 ≤ l < PLevels → omap (present r) (row l i) = [] →
  listing r (mkIter l i) = listing r (mkIter (l + 1) 0).
Proof. intros Hl E. unfold listing. by rewrite rest_next, omap_app, E by done. Qed.

Lemma listing_hit l i j x : 0 ≤ l < PLevels → 0 ≤ i ≤ j → j < PSize l → entry l j r = Ret x →
  omap (present r) (row l i) = (l, j, x) :: omap (present r) (row l (j + 1)) →
  hit (mkIter l i) l j x.
Proof.
  intros Hl Hi Hj Hx E. split; [split; lia|]. split; [done|]. unfold listing.
  by rewrite (rest_next l i), (rest_next l (j + 1)), !omap_app, E by done.
Qed.

Lemma hit_eq it it' l i x : listing r it = listing r it' → hit it' l i x → hit it l i x.
Proof. intros E (? & ? & ?). unfold hit. by rewrite E. Qed.

Lemma scan_levels_ok (n : nat) l i : 0 ≤ l → l + Z.of_nat n = leaf → 0 ≤ i ≤ PSize l →
  (∃ m j x, scan_levels (seqZ l (Z.of_nat n)) (mkIter l i) r = Ret (true, mkIter m j) ∧
     hit (mkIter l i) m j x) ∨
  (∃ j, scan_levels (seqZ l (Z.of_nat n)) (mkIter l i) r = Ret (false, mkIter leaf j) ∧
     0 ≤ j ≤ PSize leaf ∧ listing r (mkIter l i) = listing r (mkIter leaf j)).
Proof.
  revert l i. induction n as [|n IH]; intros l i Hl Hn Hi.
  { right. exists i. rewrite Z.add_0_r in Hn. subst l. done. }
  rewrite leaf_eq in Hn. rewrite seqZ_cons by lia. cbn [scan_levels index_].
  destruct (scan_row_seqZ l i) as [[-> E]|(j & x & -> & Hj & Hx & E)]; [lia|lia|..];
    cbn [mbind outcome_bind].
  - replace (Z.pred (Z.of_nat (S n))) with (Z.of_nat n) by lia. rewrite <- Z.add_1_r.
    pose proof (lay_size (l + 1) ltac:(lia)).
    apply listing_next in E; [|lia].
    destruct (IH (l + 1) 0) as [(m & j & x & -> & Hh)|(j & -> & Hj & El)];
      [lia|rewrite leaf_eq; lia|lia|..].
    + left. exists m, j, x. split; [done|]. by eapply hit_eq.
    + right. exists j. split; [done|]. split; [done|]. congruence.
  - left. exists l, j, x. split; [done|]. apply listing_hit; [lia|lia|lia|done..].
Qed.

Lemma iter_get_ok it : valid it →
  (∃ it', iter_get it r = Ret (None, it') ∧ listing r it = []) ∨
  (∃ l i x, iter_get it r = Ret (Some (l, i, x), mkIter l (i + 1)) ∧ hit it l i x).
Proof.
  intros Hv. unfold iter_get, find_next. destruct (PLevels <=? level_ it) eqn:El; zprop.
  { left. cbn [mbind outcome_bind]. rewrite (proj2 (Z.leb_le PLevels (level_ it))) by done.
    eexists. split; [done|]. unfold listing, rest. by rewrite (proj2 (Z.ltb_ge (level_ it) PLevels)) by done. }
  destruct Hv as [?|[Hl Hi]]; [lia|]. destruct it as [l i]. cbn [level_ index_] in *.
  assert (∀ m j x, hit (mkIter l i) m j x → ∃ m' j' x',
    ('it ← Ret (mkIter m j); if PLevels <=? level_ it then Ret (None, it)
     else x ← entry (level_ it) (index_ it) r;
          Ret (Some (level_ it, index_ it, x), mkIter (level_ it) (index_ it + 1)))
    = Ret (Some (m', j', x'), mkIter m' (j' + 1)) ∧ hit (mkIter l i) m' j' x') as Hhit.
  { intros m j x Hh. exists m, j, x. split; [|done]. destruct Hh as ([? _] & Hx & _).
    cbn [mbind outcome_bind level_ index_]. rewrite (proj2 (Z.leb_gt PLevels m)), Hx by lia. done. }
  replace (leaf - l) with (Z.of_nat (Z.to_nat (leaf - l))) by (rewrite leaf_eq; lia).
  destruct (scan_levels_ok (Z.to_nat (leaf - l)) l i) as [(m & j & x & -> & Hh)|(j & -> & Hj & E)];
    [lia|rewrite leaf_eq; lia|lia|..]; cbn [mbind outcome_bind].
  { right. by eapply Hhit. }
  cbn [level_ index_]. assert (0 ≤ leaf < PLevels) as Hleaf by (rewrite leaf_eq; lia).
  destruct (scan_row_seqZ leaf j) as [[-> E']|(k & x & -> & Hk & Hx & E')]; [done|done|..];
    cbn [mbind outcome_bind].
  - left. cbn [level_]. rewrite (proj2 (Z.leb_le PLevels (leaf + 1))) by (rewrite leaf_eq; lia).
    eexists. split; [done|]. rewrite E. unfold listing. rewrite rest_next, omap_app, E' by done.
    unfold rest. cbn [level_]. by rewrite (proj2 (Z.ltb_ge (leaf + 1) PLevels)) by (rewrite leaf_eq; lia).
  - right. apply listing_hit in E'; [|done|lia|lia|done]. eapply hit_eq in E'; [|exact E]. by eapply Hhit.
Qed.

Lemma iter_all_ok fuel : ∀ it, valid it → (length (listing r it) < fuel)%nat →
  iter_all fuel it r = Ret (listing r it).
Proof.
  induction fuel as [|fuel IH]; intros it Hv Hf; [lia|]. cbn [iter_all].
  destruct (iter_get_ok it Hv) as [(it' & -> & ->)|(l & i & x & -> & Hk & Hx & E)]; [done|].
  cbn [mbind outcome_bind]. rewrite E in *. cbn [length] in Hf.
  destruct Hk as [Hl Hi]. rewrite IH; [done|right; cbn; lia|lia].
Qed.

Lemma elem_of_row l i k : k ∈ row l i ↔ k.1 = l ∧ i ≤ k.2 < PSize l.
Proof.
  unfold row. rewrite list_elem_of_fmap. split.
  - intros (j & -> & Hj%elem_of_seqZ). cbn. lia.
  - destruct k as [m j]. cbn. intros [-> Hj]. exists j. split; [done|]. apply elem_of_seqZ. lia.
Qed.

Lemma rest_all : rest make_iter = mbind (λ l, row l 0) (seqZ 0 PLevels).
Proof.
  pose proof lay_levels. unfold rest, make_iter. cbn [level_ index_]. rewrite (proj2 (Z.ltb_lt 0 PLevels)) by lia.
  rewrite (seqZ_cons 0 PLevels) by lia. rewrite bind_cons, leaf_eq, <- Z.add_1_r. f_equal. f_equal. f_equal. lia.
Qed.

Lemma elem_of_listing l i x :
  (l, i, x) ∈ listing r make_iter ↔ key l i ∧ entry l i r = Ret x ∧ 0 ≤ lm (copy_part x).
Proof.
  unfold listing. rewrite list_elem_of_omap, rest_all. unfold present. split.
  - intros ([m j] & Hk & E). apply list_elem_of_bind in Hk as (m' & Hr & Hm%elem_of_seqZ).
    apply elem_of_row in Hr as [Em Hj]. cbn in *. subst m'.
    destruct (entry m j r) as [y|] eqn:Ey; [|done]. destruct (0 <=? lm (copy_part y)) eqn:El; [|done].
    injection E as <- <- <-. zprop. split; [split; lia|]. done.
  - intros ([Hl Hi] & Hx & Hlm). exists (l, i). split.
    + apply list_elem_of_bind. exists l. split; [by apply elem_of_row|]. apply elem_of_seqZ. lia.
    + cbn. rewrite Hx. by rewrite (proj2 (Z.leb_le 0 (lm (copy_part x)))) by done.
Qed.

Lemma row_nodup l i : NoDup (row l i).
Proof. apply NoDup_fmap; [by intros ?? [=]|apply NoDup_seqZ]. Qed.

Lemma listing_nodup : NoDup (listing r make_iter).*1.
Proof.
  unfold listing. rewrite rest_all. apply (sublist_NoDup _ (mbind (λ l, row l 0) (seqZ 0 PLevels))).
  - apply NoDup_bind.
    + intros l m k _ _ Hk Hm. apply elem_of_row in Hk as [<- _]. by apply elem_of_row in Hm as [? _].
    + intros l _. apply row_nodup.
    + apply NoDup_seqZ.
  - clear Hs. induction (mbind (λ l, row l 0) (seqZ 0 PLevels)) as [|[l i] ks IH]; [constructor|].
    cbn [omap list_omap]. unfold present at 1. cbn [fst snd]. destruct (entry l i r) as [x|]; [|by constructor].
    destruct (0 <=? lm (copy_part x)); [|by constructor]. rewrite fmap_cons. by constructor.
Qed.

Lemma listing_map c : refines c r → CRec.parts c = list_to_map (listing r make_iter).
Proof.
  intros Hr. apply map_eq. intros [l i]. symmetry.
  destruct (CRec.parts c !! (l, i)) as [x|] eqn:Ex.
  - apply elem_of_list_to_map; [apply listing_nodup|]. apply elem_of_listing.
    destruct (ref_keys _ _ Hr l i x Ex) as [Hk Hlm]. split; [done|]. split; [|done].
    destruct (entry_ok l i r Hs Hk) as (y & Hy & _).
    pose proof (ref_entry _ _ Hr l i y Hk Hy) as E. rewrite Ex in E.
    destruct (lm (copy_part y) =? -1); congruence.
  - apply not_elem_of_list_to_map. intros Hin. apply list_elem_of_fmap in Hin as ([[m j] x] & E & Hin).
    cbn in E. injection E as <- <-. apply elem_of_listing in Hin as (Hk & Hx & Hlm).
    rewrite (ref_entry _ _ Hr l i x Hk Hx), (proj2 (Z.eqb_neq (lm (copy_part x)) (-1))) in Ex by lia. done.
Qed.

Lemma listing_length c : refines c r → num_entries r = zlen (listing r make_iter).
Proof.
  intros Hr. rewrite (ref_num _ _ Hr). unfold CRec.num_entries, zlen. f_equal.
  rewrite (listing_map c Hr), <- length_map_to_list.
  apply Permutation_length, map_to_list_to_map, listing_nodup.
Qed.

(** The loop over a record ends after as many turns as it has entries. *)
Lemma iter_all_refines c : refines c r → ∃ xs,
  iter_all (S (Z.to_nat (num_entries r))) make_iter r = Ret xs ∧ NoDup xs.*1 ∧
  CRec.parts c = list_to_map xs.
Proof.
  intros Hr. exists (listing r make_iter).
  split; [|split; [apply listing_nodup|by apply listing_map]].
  apply iter_all_ok; [|rewrite (listing_length c Hr); unfold zlen; lia].
  right. pose proof lay_levels. cbn. pose proof (lay_size 0 ltac:(lia)). lia.
Qed.
End iterator.

End record.
End SRec.

(** ** The tree of the static build fits the records *)
Module RecLayout.
Import SRec.

Definition parents_of (n : Z) : Z := (n + Dyn.PChildren - 1) `div` Dyn.PChildren.

Lemma parents_bounds n : 1 < n → 1 ≤ parents_of n < n ∧ n ≤ Dyn.PChildren * parents_of n.
Proof. unfold parents_of. change Dyn.PChildren with 247. intros Hn. Z.to_euclidean_division_equations. lia. Qed.

Lemma count_nodes_inv fuel ns lv n r : Dyn.count_nodes (S fuel) ns lv n = Ret r →
  n ≤ 1 ∧ r = (ns, lv) ∨
  1 < n ∧ lv < zlen ns ∧ Dyn.count_nodes fuel (zset ns lv (parents_of n)) (lv + 1) (parents_of n) = Ret r.
Proof.
  cbn [Dyn.count_nodes]. destruct (n <=? 1) eqn:E; zprop; [intros [= <-]; by left|].
  intros E2. right. apply outcome_bind_Ret in E2 as (_ & _ & E2).
  apply outcome_bind_Ret in E2 as (x & Ex & E2). apply of_option_Ret, zget_Some_lt in Ex.
  split; [done|]. split; [lia|done].
Qed.

Lemma count_nodes_result nb nodes levels : 1 ≤ nb →
  Dyn.count_nodes 6 [nb; 0; 0; 0] 1 nb = Ret (nodes, levels) →
  let n1 := parents_of nb in let n2 := parents_of n1 in let n3 := parents_of n2 in
  nb = 1 ∧ levels = 1 ∧ nodes = [nb; 0; 0; 0] ∨
  1 < nb ∧ n1 = 1 ∧ levels = 2 ∧ nodes = [nb; n1; 0; 0] ∨
  1 < nb ∧ 1 < n1 ∧ n2 = 1 ∧ levels = 3 ∧ nodes = [nb; n1; n2; 0] ∨
  1 < nb ∧ 1 < n1 ∧ 1 < n2 ∧ n3 = 1 ∧ levels = 4 ∧ nodes = [nb; n1; n2; n3].
Proof.
  intros Hnb E. cbn zeta.
  apply count_nodes_inv in E as [[H0 E]|(H0 & _ & E)]; [left; injection E as -> ->; split_and!; lia || done|].
  pose proof (parents_bounds nb H0) as B0.
  apply count_nodes_inv in E as [[H1 E]|(H1 & _ & E)]; [right; left; injection E as -> ->; split_and!; lia || done|].
  pose proof (parents_bounds _ H1) as B1.
  apply count_nodes_inv in E as [[H2 E]|(H2 & _ & E)]; [do 2 right; left; injection E as -> ->; split_and!; lia || done|].
  pose proof (parents_bounds _ H2) as B2.
  apply count_nodes_inv in E as [[H3 E]|(H3 & H4 & E)]; [do 3 right; injection E as -> ->; split_and!; lia || done|].
  vm_compute in H4. done.
Qed.

Lemma fill_level_inv nodes levels psize plevel pblocks i r n :
  Dyn.fill_level nodes levels (psize, plevel, pblocks) i = Ret r →
  zget nodes (levels - i - 1) = Some n → 0 ≤ n < 2 ^ 31 →
  ∃ s b, r = (zset psize i n, zset plevel i s, zset pblocks (levels - i - 1) b).
Proof.
  unfold Dyn.fill_level. intros E Hn Hr. rewrite Hn in E. cbn [of_option mbind outcome_bind] in E.
  rewrite to_int_small in E by lia.
  apply outcome_bind_Ret in E as (s & _ & E). apply outcome_bind_Ret in E as (b & _ & E).
  injection E as <-. by exists s, b.
Qed.

(** The records have a slot for every partition and every block. *)
Lemma dynamic_layout nb t : Dyn.init (nb * Block_size) = Ret t → Layout (H := t) nb.
Proof.
  unfold Dyn.init. rewrite Z.div_mul by done. intros E.
  apply outcome_bind_Ret in E as ([] & _ & E). apply outcome_bind_Ret in E as ([] & Hnb & E).
  apply th_assert_Ret in Hnb. zprop.
  apply outcome_bind_Ret in E as ([nodes levels] & Ec & E).
  apply count_nodes_result in Ec; [|done]. cbn zeta in Ec.
  apply outcome_bind_Ret in E as (a & Ea & E). injection E as <-.
  destruct Ec as [(-> & -> & ->)|[(H0 & H1 & -> & ->)|[(H0 & H1 & H2 & -> & ->)|(H0 & H1 & H2 & H3 & -> & ->)]]].
  - injection Ea as <-. split; [done| |done|done]. intros l Hl. assert (l = 0) as -> by (cbn in Hl; lia). done.
  - pose proof (parents_bounds nb H0) as B0. change Dyn.PChildren with 247 in B0.
    change (seqZ 1 (2 - 1)) with [1] in Ea. cbn [foldl mbind outcome_bind] in Ea.
    apply (fill_level_inv _ _ _ _ _ _ _ nb) in Ea as (s & b & ->); [|done|lia].
    split; [done| | |done].
    + intros l Hl. cbn in Hl. assert (l = 0 ∨ l = 1) as [-> | ->] by lia; [done|].
      change (0 < nb). lia.
    + change (1 = 0 + parents_of nb). lia.
  - pose proof (parents_bounds nb H0) as B0. change Dyn.PChildren with 247 in B0.
    pose proof (parents_bounds _ H1) as B1. change Dyn.PChildren with 247 in B1.
    change (seqZ 1 (3 - 1)) with [1; 2] in Ea. cbn [foldl mbind outcome_bind] in Ea.
    apply outcome_bind_Ret in Ea as (a1 & Ea1 & Ea).
    apply (fill_level_inv _ _ _ _ _ _ _ (parents_of nb)) in Ea1 as (s & b & ->); [|done|lia].
    apply (fill_level_inv _ _ _ _ _ _ _ nb) in Ea as (s' & b' & ->); [|done|lia].
    split; [done| | |done].
    + intros l Hl. cbn in Hl. assert (l = 0 ∨ l = 1 ∨ l = 2) as [-> | [-> | ->]] by lia;
        [done|change (0 < parents_of nb); lia|change (0 < nb); lia].
    + change (1 + (parents_of nb + 0) = 0 + parents_of nb + parents_of (parents_of nb)). lia.
  - pose proof (parents_bounds nb H0) as B0. change Dyn.PChildren with 247 in B0.
    pose proof (parents_bounds _ H1) as B1. change Dyn.PChildren with 247 in B1.
    pose proof (parents_bounds _ H2) as B2. change Dyn.PChildren with 247 in B2.
    change (seqZ 1 (4 - 1)) with [1; 2; 3] in Ea. cbn [foldl mbind outcome_bind] in Ea.
    apply outcome_bind_Ret in Ea as (a2 & Ea2 & Ea). apply outcome_bind_Ret in Ea2 as (a1 & Ea1 & Ea2).
    apply (fill_level_inv _ _ _ _ _ _ _ (parents_of (parents_of nb))) in Ea1 as (s & b & ->); [|done|lia].
    apply (fill_level_inv _ _ _ _ _ _ _ (parents_of nb)) in Ea2 as (s' & b' & ->); [|done|lia].
    apply (fill_level_inv _ _ _ _ _ _ _ nb) in Ea as (s'' & b'' & ->); [|done|lia].
    split; [done| | |done].
    + intros l Hl. cbn in Hl. assert (l = 0 ∨ l = 1 ∨ l = 2 ∨ l = 3) as [-> | [-> | [-> | ->]]] by lia;
        [done|change (0 < parents_of (parents_of nb)); lia|change (0 < parents_of nb); lia|change (0 < nb); lia].
    + change (1 + (parents_of (parents_of nb) + (parents_of nb + 0)) =
        0 + parents_of nb + parents_of (parents_of nb) + parents_of (parents_of (parents_of nb))). lia.
Qed.
End RecLayout.

(** ** Properties *)
Module RecProps.
Import SRec.

(** C30: A record of the static build is a finite map of copies: in the tree that
    [partition::init] computes for a memory of [nb] blocks, a new record has a slot for every
    partition and block, and after any sequence of operations it and the map have failed on the
    same assertion or hold the same copies under the same digest, where [clear] does nothing to
    a record without copies.  As long as no record is cleared that has a digest and no copies, or
    copies and no digest, the map is that of the default build ([Checkpoint_rec]).  The iterator
    ends after as many turns as the record has entries, and yields each copy once.  The operations
    name partitions of the tree, and the copies have a number. *)
Theorem static_records_refine (nb : Z) (t : Tree) (os : list op) :
  Dyn.init (nb * Block_size) = Ret t → Forall op_key os →
  ∃ r0, init nb = Ret r0 ∧
    match runs run_spec os CRec.make, runs run_static os r0 with
    | Err e, Err e' => e = e'
    | Ret c, Ret r =>
        (∀ l i, key l i → fetch l i r = Ret (CRec.fetch l i c)) ∧
        num_entries r = CRec.num_entries c ∧ sd r = CRec.sd c ∧
        ∃ xs, iter_all (S (Z.to_nat (num_entries r))) make_iter r = Ret xs ∧
          NoDup xs.*1 ∧ CRec.parts c = list_to_map xs
    | _, _ => False
    end ∧
    (clears_ok os CRec.make → runs run_default os CRec.make = runs run_spec os CRec.make).
Proof.
  intros Ht Hk. apply RecLayout.dynamic_layout in Ht.
  destruct init_ok as (r0 & Hr0 & Hs & Hf & Hn & Hd). exists r0. split; [done|]. split; [|apply runs_default].
  pose proof (runs_agree os CRec.make r0 Hk (refines_make r0 Hs Hf Hn Hd)) as A.
  destruct (runs run_spec os CRec.make) as [c|], (runs run_static os r0) as [r|]; cbn in A; try done.
  split; [intros l i; by apply fetch_refines|]. split; [apply A|]. split; [apply A|].
  apply iter_all_refines; [apply A|done].
Qed.

(** Three blocks under a root. *)
Definition sample_tree : Tree := Dyn.tree_of 2 ([1; 3; 0; 0], [1; 3; 0; 0], [3; 1; 0; 0]).

Lemma sample_tree_eq : Dyn.init (3 * Block_size) = Ret sample_tree.
Proof. reflexivity. Qed.

Definition sample_digest (n : Z) : Dig.Digest := PP.sample_digest_of [n].

(** The first [Clear] finds a digest and no copies, and keeps it; the second removes both. *)
Definition sample_ops : list (@op) :=
  [SetSd (sample_digest 5); Clear; Append 1 2 (BlockCopy (mkPart 0 (sample_digest 1)) [7]); Clear;
   SetSd (sample_digest 6); Append 1 2 (BlockCopy (mkPart 0 (sample_digest 1)) [7]);
   Append 0 0 (PartCopy (mkPart 0 (sample_digest 2)));
   Appendr 1 2 (BlockCopy (mkPart 0 (sample_digest 3)) [8])].

Lemma static_records_refine_witness :
  (∃ c, runs run_spec (take 2 sample_ops) CRec.make = Ret c ∧ CRec.sd c = sample_digest 5) ∧
  (∃ c, runs run_default (take 2 sample_ops) CRec.make = Ret c ∧ CRec.sd c = Dig.zero) ∧
  ∃ r0, init (H := sample_tree) 3 = Ret r0 ∧
    match runs run_spec sample_ops CRec.make, runs (run_static (H := sample_tree)) sample_ops r0 with
    | Err e, Err e' => e = e'
    | Ret c, Ret r =>
        (∀ l i, key (H := sample_tree) l i → fetch (H := sample_tree) l i r = Ret (CRec.fetch l i c)) ∧
        num_entries r = CRec.num_entries c ∧ sd r = CRec.sd c ∧
        ∃ xs, iter_all (H := sample_tree) (S (Z.to_nat (num_entries r))) make_iter r = Ret xs ∧
          NoDup xs.*1 ∧ CRec.parts c = list_to_map xs
    | _, _ => False
    end ∧
    (clears_ok (drop 4 sample_ops) CRec.make).
Proof.
  split; [eexists; split; [reflexivity|vm_compute; reflexivity]|].
  split; [eexists; split; [reflexivity|vm_compute; reflexivity]|].
  destruct (static_records_refine 3 sample_tree sample_ops) as (r0 & Hr & Ha & _).
  - reflexivity.
  - unfold sample_ops. repeat constructor; vm_compute; intuition congruence.
  - exists r0. split; [exact Hr|]. split; [exact Ha|]. vm_compute. intuition congruence.
Defined.

End RecProps.
