(* ===== verification/RecordLog.v ===== *)
(** * RecordLog: the log of the records of checkpoints in the static build
    (src/src/checkpoint_record_log.{h,cc})

    The log keeps one record (StaticRecords.v) for each checkpoint of the window, and one more
    for a checkpoint that is fetched, which need not be a multiple of the interval.  The
    records of the window form a ring that moves as a [CheckpointLog] (SeqLog.v) does:
    [truncate_ring] carries over what is proved there. *)
From stdpp Require Import gmap.
From S2P Require Import Prelude Node SeqLog Messages Partition State World StaticRecords.
#[local] Open Scope Z_scope.

(** ** The log *)
Module RecLog.
Import SRec.
Section log.
Context `{Config} `{Tree}.

Definition MAX_SIZE : Z := max_out `div` checkpoint_interval + 2.

Record t := mkRecLog {
  head_ : Z; fetch_seqno_ : Z; head_index_ : Z; records_ : list CheckpointRecord;
}.

(** The constructor, for [nb] blocks. *)
Definition make (nb head : Z) : outcome t :=
  rs ← mapM (λ _, init nb) (seqZ 0 MAX_SIZE);
  Ret (mkRecLog head (-1) 0 rs).

Definition record_index (l : t) (seqno : Z) : Z :=
  if negb (Z.rem seqno checkpoint_interval =? 0) then MAX_SIZE - 1
  else to_int (to_u64 (head_index_ l + Z.quot (seqno - head_ l) checkpoint_interval) `mod` (MAX_SIZE - 1)).

Definition within_range (l : t) (seqno : Z) : bool :=
  (seqno >=? head_ l) && (seqno <=? head_ l + max_out).
Definition head_seqno (l : t) : Z := head_ l.
Definition max_seqno (l : t) : Z := head_ l + max_out.

Definition clear_record (e : list CheckpointRecord) (j : Z) : outcome (list CheckpointRecord) :=
  x ← of_option Undefined (zget e j); x ← SRec.clear x; Ret (zset e j x).
Definition clear_records (e : list CheckpointRecord) (js : list Z) : outcome (list CheckpointRecord) :=
  foldl (λ e j, e ← e; clear_record e j) (Ret e) js.

Definition clear (l : t) (h : Z) : outcome t :=
  e ← clear_records (records_ l) (seqZ 0 MAX_SIZE);
  Ret (mkRecLog h (fetch_seqno_ l) 0 e).

Definition fetch (l : t) (seqno : Z) : outcome CheckpointRecord :=
  _ ← th_assert (within_range l seqno);
  if negb (Z.rem seqno checkpoint_interval =? 0) then
    _ ← th_assert (fetch_seqno_ l =? seqno);
    of_option Undefined (zget (records_ l) (MAX_SIZE - 1))
  else of_option Undefined (zget (records_ l) (record_index l seqno)).

(** A change of the record that [fetch] returns. *)
Definition store (l : t) (seqno : Z) (x : CheckpointRecord) : t :=
  mkRecLog (head_ l) (fetch_seqno_ l) (head_index_ l) (zset (records_ l) (record_index l seqno) x).

(** The values of [checkpoint] in [truncate]'s loop. *)
Definition checkpoints_below (l : t) (new_head : Z) : list Z :=
  (λ k, head_ l + k * checkpoint_interval) <$>
    seqZ 0 ((new_head - head_ l + checkpoint_interval - 1) `div` checkpoint_interval).

(** [State::digest(n, d)] on this log. *)
Definition digest_at (l : t) (n : Z) : option Dig.Digest :=
  if within_range l n then
    match fetch l n with
    | Ret r => if Dig.is_zero (sd r) then None else Some (sd r)
    | Err _ => None
    end
  else None.

Definition truncate (l : t) (new_head : Z) : outcome t :=
  _ ← th_assert (Z.rem new_head checkpoint_interval =? 0);
  if new_head <=? head_ l then Ret l
  else if negb (within_range l new_head) then clear l new_head
  else
    e ← clear_records (records_ l) (record_index l <$> checkpoints_below l new_head);
    e ← (if fetch_seqno_ l <? new_head then clear_record e (MAX_SIZE - 1) else Ret e);
    Ret (mkRecLog new_head (fetch_seqno_ l) (record_index l new_head) e).

Definition set_fetch_seqno (l : t) (seqno : Z) : outcome t :=
  e ← (if negb (fetch_seqno_ l =? -1) then clear_record (records_ l) (MAX_SIZE - 1) else Ret (records_ l));
  Ret (mkRecLog (head_ l) seqno (head_index_ l) e).

(** *** Invariant *)
Definition rec_ok (r : CheckpointRecord) : Prop := shape r ∧ (num_entries_ r = 0 → free r).

Definition ok (l : t) : Prop :=
  0 ≤ head_ l < 2 ^ 62 ∧ head_ l `mod` checkpoint_interval = 0 ∧
  0 ≤ head_index_ l < MAX_SIZE - 1 ∧ zlen (records_ l) = MAX_SIZE ∧ Forall rec_ok (records_ l) ∧
  fetch_seqno_ l ≤ head_ l + max_out.

(** The part of the records that is a ring, as a [CheckpointLog]. *)
Definition ring (l : t) : CheckpointLog.t CheckpointRecord :=
  CheckpointLog.mkCkptLog (head_ l) (head_index_ l) (take (Z.to_nat (MAX_SIZE - 1)) (records_ l)).

Definition is_ckpt (l : t) (s : Z) : bool := within_range l s && (Z.rem s checkpoint_interval =? 0).

(** The numbers with a record: the checkpoints of the window and the one that is fetched. *)
Definition has (l : t) (s : Z) : bool :=
  within_range l s && ((Z.rem s checkpoint_interval =? 0) || (fetch_seqno_ l =? s)).

Definition step (_ : t) (new_head : Z) : Prop :=
  new_head < 2 ^ 62 ∧ new_head `mod` checkpoint_interval = 0.

(** [SRec.clear] on a record of the right shape. *)
Definition clr (r : CheckpointRecord) : CheckpointRecord :=
  match SRec.clear r with Ret r' => r' | Err _ => r end.

Context {nb : Z} `{!ConfigOk} `{!Layout nb}.

Lemma clr_ok r : rec_ok r → SRec.clear r = Ret (clr r) ∧ rec_ok (clr r).
Proof.
  intros [Hs Hf]. unfold clr. destruct (decide (num_entries_ r = 0)) as [E|E].
  - unfold SRec.clear. by rewrite E.
  - destruct (SRec.rec_clear_ok r Hs E) as (r' & -> & ? & ? & _). done.
Qed.

(** A cleared record has no copies. *)
Lemma cleared_free r : rec_ok r → cleared clr r → num_entries_ r = 0 ∧ free r.
Proof.
  intros Hr [y ->]. enough (num_entries_ (clr y) = 0) as Hn by (split; [done|by apply Hr]).
  unfold clr. destruct (SRec.clear y) as [z|] eqn:E.
  - revert E. unfold SRec.clear. destruct (num_entries_ y =? 0) eqn:En; zprop; [by intros [= <-]|].
    intros E. apply outcome_bind_Ret in E as ([ps k] & _ & E). apply outcome_bind_Ret in E as (bs & _ & E).
    by injection E as <-.
  - assert (clr y = y) as Hy by (unfold clr; by rewrite E). rewrite Hy in Hr.
    destruct (clr_ok y Hr) as [E' _]. congruence.
Qed.

Lemma clear_records_slots e js : Forall rec_ok e →
  clear_records e js = clear_slots clr e js ∧
  ∀ e', clear_slots clr e js = Ret e' → Forall rec_ok e'.
Proof.
  intros He. induction js as [|j js IH] using rev_ind.
  { split; [done|]. intros e'. cbn. by intros [= <-]. }
  destruct IH as [E Hs].
  assert (clear_records e (js ++ [j]) = (e ← clear_records e js; clear_record e j)) as ->.
  { unfold clear_records. by rewrite foldl_app. }
  assert (clear_slots clr e (js ++ [j]) = (e ← clear_slots clr e js; clear_slot clr e j)) as ->.
  { unfold clear_slots. by rewrite foldl_app. }
  rewrite E. destruct (clear_slots clr e js) as [a|]; [|by cbn; split]. specialize (Hs a eq_refl).
  cbn [mbind outcome_bind]. unfold clear_record, clear_slot.
  destruct (zget a j) as [x|] eqn:Ex; [|by cbn; split].
  assert (rec_ok x) as Hx.
  { eapply Forall_lookup_1; [exact Hs|]. unfold zget in Ex. case_decide; [exact Ex|done]. }
  destruct (clr_ok x Hx) as [Ec Hc]. cbn [of_option mbind outcome_bind]. rewrite Ec. cbn [mbind outcome_bind].
  split; [done|]. intros e' [= <-]. unfold zset. case_decide; [by apply Forall_insert|done].
Qed.

Lemma ring_size : MAX_SIZE - 1 = CheckpointLog.MAX_SIZE.
Proof. unfold MAX_SIZE, CheckpointLog.MAX_SIZE. lia. Qed.

Lemma ring_ok l : ok l → CheckpointLog.ok (ring l).
Proof.
  intros (Hh & Hm & Hi & Hl & _ & _). pose proof CheckpointLog.max_size_bounds as (? & _). unfold ring.
  split_and!; cbn; rewrite <- ?ring_size; try done; try lia.
  unfold zlen in *. rewrite length_take. pose proof ring_size. lia.
Qed.

Lemma is_ckpt_ring l s : is_ckpt l s = CheckpointLog.is_ckpt (ring l) s.
Proof. done. Qed.

Lemma record_index_ring l s : is_ckpt l s = true → record_index l s = CheckpointLog.certificate_index (ring l) s.
Proof.
  unfold is_ckpt, record_index, CheckpointLog.certificate_index. intros Hs. apply andb_true_iff in Hs as [_ ->].
  cbn [negb]. by rewrite ring_size.
Qed.

Lemma zget_take {A} (l : list A) n i : i < n → zget (take (Z.to_nat n) l) i = zget l i.
Proof. intros Hi. unfold zget. case_decide; [|done]. apply lookup_take_lt. lia. Qed.

Lemma record_index_bound l s : ok l → is_ckpt l s = true → 0 ≤ record_index l s < MAX_SIZE - 1.
Proof.
  intros Hl Hs. rewrite record_index_ring by done. apply ring_ok in Hl as Hr.
  destruct (CheckpointLog.is_ckpt_number _ _ Hr Hs) as (j & Hj & ->).
  pose proof CheckpointLog.max_size_bounds as (? & _).
  pose proof (CheckpointLog.index_bound _ j Hr ltac:(lia)) as Hb.
  destruct Hr as (_ & _ & _ & Hlen). rewrite Hlen in Hb. by rewrite ring_size.
Qed.

(** The record of a checkpoint is the one in the ring. *)
Lemma slot_ring l s : ok l → is_ckpt l s = true →
  zget (records_ l) (record_index l s) =
    zget (CheckpointLog.certs_ (ring l)) (CheckpointLog.certificate_index (ring l) s).
Proof.
  intros Hl Hs. pose proof (record_index_bound l s Hl Hs). rewrite <- record_index_ring by done.
  cbn [ring CheckpointLog.certs_]. rewrite zget_take by lia. done.
Qed.

Lemma has_cases l s : has l s = true → is_ckpt l s = true ∨
  within_range l s = true ∧ s = fetch_seqno_ l ∧ is_ckpt l s = false ∧ record_index l s = MAX_SIZE - 1.
Proof.
  unfold has, is_ckpt, record_index. destruct (within_range l s); [|done]. cbn [andb].
  destruct (Z.rem s checkpoint_interval =? 0); [by left|]. cbn [orb negb]. intros E. zprop. by right.
Qed.

Lemma is_ckpt_has l s : is_ckpt l s = true → has l s = true.
Proof. unfold has, is_ckpt. intros E. apply andb_true_iff in E as [-> ->]. done. Qed.

Lemma ring_length l : ok l → zlen (records_ l) = MAX_SIZE ∧ 2 ≤ MAX_SIZE - 1 < 2 ^ 21.
Proof.
  intros (_ & _ & _ & Hl & _). pose proof CheckpointLog.max_size_bounds as (? & _).
  rewrite ring_size. done.
Qed.

Lemma has_index l s : ok l → has l s = true → 0 ≤ record_index l s < zlen (records_ l).
Proof.
  intros Hl Hs. pose proof (ring_length l Hl) as [-> ?].
  apply has_cases in Hs as [Hs|(_ & _ & _ & ->)]; [|lia]. pose proof (record_index_bound l s Hl Hs). lia.
Qed.

Lemma record_index_inj l s u : ok l → has l s = true → has l u = true →
  record_index l s = record_index l u → s = u.
Proof.
  intros Hl Hs Hu E. pose proof (ring_ok l Hl) as Hr.
  apply has_cases in Hs as [Hs|(_ & -> & _ & Es)], Hu as [Hu|(_ & -> & _ & Eu)].
  - rewrite !record_index_ring in E by done.
    destruct (CheckpointLog.is_ckpt_number _ _ Hr Hs) as (j & Hj & ->).
    destruct (CheckpointLog.is_ckpt_number _ _ Hr Hu) as (k & Hk & ->).
    pose proof CheckpointLog.max_size_bounds as (? & _).
    rewrite !CheckpointLog.index_spec in E by (done || lia). f_equal. f_equal.
    apply Log.mod_inj in E; lia.
  - pose proof (record_index_bound l s Hl Hs). lia.
  - pose proof (record_index_bound l u Hl Hu). lia.
  - done.
Qed.

Lemma zget_Forall {A} (P : A → Prop) e i x : Forall P e → zget e i = Some x → P x.
Proof. intros He Hx. eapply Forall_lookup_1; [exact He|]. unfold zget in Hx. case_decide; [exact Hx|done]. Qed.

Lemma fetch_has l s : ok l → has l s = true →
  ∃ x, zget (records_ l) (record_index l s) = Some x ∧ fetch l s = Ret x ∧ rec_ok x.
Proof.
  intros Hl Hs. pose proof (has_index l s Hl Hs) as Hi.
  destruct (zget_lookup (records_ l) (record_index l s) Hi) as [x Hx]. exists x. split; [done|].
  pose proof Hl as (_ & _ & _ & _ & Hf & _). split; [|by eapply zget_Forall].
  unfold fetch, has, record_index in *. destruct (within_range l s); [|done].
  cbn [andb th_assert mbind outcome_bind] in *.
  destruct (Z.rem s checkpoint_interval =? 0); cbn [negb orb] in *; [by rewrite Hx|].
  rewrite Hs. cbn. by rewrite Hx.
Qed.

Lemma clear_slots_take {A} (f : A → A) n js e : Forall (λ j, j < n) js →
  clear_slots f (take (Z.to_nat n) e) js = (take (Z.to_nat n) <$> clear_slots f e js).
Proof.
  induction js as [|j js IH] using rev_ind; [done|]. intros Hjs.
  apply Forall_app in Hjs as [Hjs Hj]. rewrite Forall_singleton in Hj. specialize (IH Hjs).
  assert (∀ e, clear_slots f e (js ++ [j]) = (e ← clear_slots f e js; clear_slot f e j)) as E.
  { intros e'. unfold clear_slots. by rewrite foldl_app. }
  rewrite !E, IH. destruct (clear_slots f e js) as [a|]; [|done]. cbn. unfold clear_slot.
  rewrite zget_take by done. destruct (zget a j) as [x|] eqn:Ex; [|done].
  cbn [of_option mbind outcome_bind fmap outcome_fmap]. f_equal.
  apply zget_Some_lt in Ex. unfold zset. rewrite !decide_True by lia.
  by rewrite take_insert_lt by lia.
Qed.

(** The records that a truncation inside of the window clears. *)
Lemma below_in_window l nh s : ok l → within_range l nh = true → s ∈ checkpoints_below l nh →
  is_ckpt l s = true.
Proof.
  intros Hl Hw (k & -> & Hk%elem_of_seqZ)%list_elem_of_fmap. pose proof config_interval.
  pose proof (ring_ok l Hl) as Hr. unfold within_range in Hw. zprop.
  assert (k * checkpoint_interval < nh - head_ l) as Hk'.
  { assert (k + 1 ≤ (nh - head_ l + checkpoint_interval - 1) `div` checkpoint_interval) as Hk1 by lia.
    apply (Z.mul_le_mono_nonneg_r _ _ checkpoint_interval) in Hk1; [|lia].
    assert (checkpoint_interval * ((nh - head_ l + checkpoint_interval - 1) `div` checkpoint_interval) ≤
      nh - head_ l + checkpoint_interval - 1) by (apply Z.mul_div_le; lia). lia. }
  rewrite is_ckpt_ring. unfold CheckpointLog.is_ckpt.
  rewrite (CheckpointLog.rem_ckpt (ring l)), andb_true_r by (done || lia).
  unfold CheckpointLog.within_range, CheckpointLog.max_seqno. cbn [ring CheckpointLog.head_].
  rewrite Z.geb_leb, andb_true_iff, !Z.leb_le. nia.
Qed.

Lemma below_indices l nh : ok l → within_range l nh = true →
  Forall (λ j, 0 ≤ j < MAX_SIZE - 1) (record_index l <$> checkpoints_below l nh) ∧
  record_index l <$> checkpoints_below l nh =
    CheckpointLog.certificate_index (ring l) <$> CheckpointLog.checkpoints_below (ring l) nh.
Proof.
  intros Hl Hw. split.
  - apply Forall_fmap, Forall_forall. intros s Hs. by eapply record_index_bound, below_in_window.
  - apply list_fmap_ext. intros i s Hs%list_elem_of_lookup_2. by eapply record_index_ring, below_in_window.
Qed.

Lemma clear_record_ok e j : 0 ≤ j < zlen e → Forall rec_ok e →
  ∃ x, clear_record e j = Ret (zset e j (clr x)) ∧ Forall rec_ok (zset e j (clr x)).
Proof.
  intros Hj He. unfold clear_record. destruct (zget_lookup e j Hj) as [x Hx]. rewrite Hx. exists x.
  assert (rec_ok x) as Hs by (by eapply zget_Forall). destruct (clr_ok x Hs) as [E Hc].
  cbn [of_option mbind outcome_bind]. rewrite E. split; [done|].
  unfold zset. case_decide; [by apply Forall_insert|done].
Qed.

(** The fetched checkpoint's record is cleared when the window leaves it behind. *)
Lemma truncate_fetched (b : bool) e : zlen e = MAX_SIZE → 2 ≤ MAX_SIZE - 1 → Forall rec_ok e →
  ∃ e', (if b then clear_record e (MAX_SIZE - 1) else Ret e) = Ret e' ∧
    zlen e' = MAX_SIZE ∧ Forall rec_ok e' ∧
    take (Z.to_nat (MAX_SIZE - 1)) e' = take (Z.to_nat (MAX_SIZE - 1)) e ∧
    (b = false → zget e' (MAX_SIZE - 1) = zget e (MAX_SIZE - 1)).
Proof.
  intros Hl Hm Hs. destruct b; [|by exists e].
  destruct (clear_record_ok e (MAX_SIZE - 1)) as (x & -> & Hx); [lia|done|].
  eexists. split; [done|]. rewrite zlen_zset. split_and!; [done|done| |done].
  unfold zset. case_decide; [|done]. apply take_insert_ge. lia.
Qed.

(** A truncation inside of the window acts on the ring as that of a [CheckpointLog]. *)
Lemma truncate_ring l nh : ok l → step l nh → head_ l < nh → within_range l nh = true →
  ∃ l', truncate l nh = Ret l' ∧ ok l' ∧ head_ l' = nh ∧ fetch_seqno_ l' = fetch_seqno_ l ∧
    CheckpointLog.truncate clr (ring l) nh = Ret (ring l') ∧
    (nh ≤ fetch_seqno_ l → zget (records_ l') (MAX_SIZE - 1) = zget (records_ l) (MAX_SIZE - 1)).
Proof.
  intros Hl [Hnh Hm] Hlt Hw. pose proof Hl as (Hh & Hha & Hi & Hlen & Hsh & Hfs).
  pose proof config_interval. pose proof (ring_length l Hl) as [_ Hsz].
  assert (is_ckpt l nh = true) as Hck.
  { unfold is_ckpt. rewrite Hw, Z.rem_mod_nonneg, Hm by lia. done. }
  pose proof (record_index_bound l nh Hl Hck). destruct (below_indices l nh Hl Hw) as [Hjs Ejs].
  set (js := record_index l <$> checkpoints_below l nh) in *.
  destruct (clear_records_slots (records_ l) js Hsh) as [Ec Hsh'].
  destruct (clear_slots_spec clr js (records_ l)) as (e & He & Hle & Hout & _).
  { eapply Forall_impl; [exact Hjs|]. intros j. cbn. lia. }
  specialize (Hsh' e He). rewrite He in Ec.
  assert (zget e (MAX_SIZE - 1) = zget (records_ l) (MAX_SIZE - 1)) as Hlast.
  { apply Hout. intros Hin. rewrite Forall_forall in Hjs. specialize (Hjs _ Hin). lia. }
  destruct (truncate_fetched (fetch_seqno_ l <? nh) e) as (e' & Ee & Hle' & Hse & Ht & Hk); [lia..|done|].
  eexists (mkRecLog nh (fetch_seqno_ l) (record_index l nh) e'). split_and!; try done; try (cbn; lia).
  - unfold truncate. rewrite Z.rem_mod_nonneg, Hm by lia. cbn [Z.eqb th_assert mbind outcome_bind].
    rewrite (proj2 (Z.leb_gt nh (head_ l))), Hw by lia. cbn [negb].
    change (record_index l <$> checkpoints_below l nh) with js. rewrite Ec. cbn [mbind outcome_bind].
    by rewrite Ee.
  - split_and!; cbn; done || lia.
  - unfold CheckpointLog.truncate. cbn [ring CheckpointLog.head_ CheckpointLog.certs_].
    rewrite (proj2 (Z.leb_gt nh (head_ l))), Z.rem_mod_nonneg, Hm by lia. cbn [Z.eqb th_assert mbind outcome_bind].
    change (CheckpointLog.within_range _ nh) with (within_range l nh). rewrite Hw. cbn [negb].
    change (CheckpointLog.mkCkptLog (head_ l) _ _) with (ring l). rewrite <- Ejs.
    rewrite clear_slots_take, He. 2: { eapply Forall_impl; [exact Hjs|]. intros j. cbn. lia. }
    cbn [fmap outcome_fmap mbind outcome_bind].
    change (ring (mkRecLog nh (fetch_seqno_ l) (record_index l nh) e')) with
      (CheckpointLog.mkCkptLog nh (record_index l nh) (take (Z.to_nat (MAX_SIZE - 1)) e')).
    by rewrite Ht, record_index_ring.
  - intros Hn. cbn [records_]. rewrite Hk, Hlast; [done|]. apply Z.ltb_ge. lia.
Qed.

(** A truncation beyond the window clears all records. *)
Lemma rec_truncate_far l nh : ok l → step l nh → head_ l < nh → within_range l nh = false →
  ∃ l', truncate l nh = Ret l' ∧ ok l' ∧ head_ l' = nh ∧
    ∀ j, 0 ≤ j < MAX_SIZE → ∃ x, zget (records_ l') j = Some x ∧ cleared clr x.
Proof.
  intros Hl [Hnh Hm] Hlt Hw. pose proof Hl as (Hh & Hha & Hi & Hlen & Hsh & Hfs).
  pose proof config_interval. pose proof (ring_length l Hl) as [_ Hsz].
  unfold truncate, clear. rewrite Z.rem_mod_nonneg, Hm, Hw by lia. cbn [Z.eqb th_assert mbind outcome_bind negb].
  rewrite (proj2 (Z.leb_gt nh (head_ l))) by lia.
  destruct (clear_records_slots (records_ l) (seqZ 0 MAX_SIZE) Hsh) as [Ec Hsh'].
  destruct (clear_slots_spec clr (seqZ 0 MAX_SIZE) (records_ l)) as (e & He & Hle & _ & Hin).
  { apply Forall_seqZ. intros k ?. lia. }
  specialize (Hsh' e He). rewrite Ec, He. cbn [mbind outcome_bind]. eexists. split; [done|].
  split; [|split; [done|]].
  - split_and!; cbn; try done; lia.
  - intros j Hj. apply Hin, elem_of_seqZ. lia.
Qed.

Lemma has_store l s x u : has (store l s x) u = has l u.
Proof. done. Qed.

Lemma rec_store_ok l s x : ok l → rec_ok x → has l s = true → ok (store l s x).
Proof.
  intros (? & ? & ? & Hlen & Hsh & ?) Hx Hs. do 3 (split; [done|]).
  split; [cbn; by rewrite zlen_zset|]. split; [|done]. cbn. unfold zset. case_decide; [by apply Forall_insert|done].
Qed.

Lemma store_slot l s x u : ok l → has l s = true → has l u = true →
  zget (records_ (store l s x)) (record_index (store l s x) u) =
    if decide (u = s) then Some x else zget (records_ l) (record_index l u).
Proof.
  intros Hl Hs Hu. change (record_index (store l s x) u) with (record_index l u). cbn [records_ store].
  rewrite zget_zset. pose proof (has_index l s Hl Hs). destruct (decide (u = s)) as [->|Hne].
  - by rewrite decide_True.
  - rewrite decide_False; [done|]. intros [E _]. apply Hne. by eapply record_index_inj.
Qed.

Lemma rec_make_ok h : 0 ≤ h < 2 ^ 62 → h `mod` checkpoint_interval = 0 →
  ∃ l, make nb h = Ret l ∧ ok l ∧ head_ l = h ∧ ∀ s, has l s = true → ∃ x, fetch l s = Ret x ∧ free x.
Proof.
  intros Hh Hm. destruct SRec.init_ok as (r & Hr & Hs & Hf & Hn & _). pose proof config_max_out.
  assert (∀ js : list Z, mapM (λ _, init nb) js = Ret (replicate (length js) r)) as E.
  { induction js as [|j js IH]; [done|].
    change (mapM (λ _ : Z, init nb) (j :: js)) with (y ← init nb; k ← mapM (λ _ : Z, init nb) js; mret (y :: k)).
    rewrite IH, Hr. done. }
  unfold make. rewrite E. cbn [mbind outcome_bind]. eexists. split; [done|].
  pose proof CheckpointLog.max_size_bounds as (? & _). pose proof ring_size. pose proof config_interval.
  assert (rec_ok r) as Hrr by done.
  set (l := mkRecLog _ _ _ _). assert (ok l) as Hl.
  { split_and!; cbn; try done; try lia.
    - unfold zlen. rewrite length_replicate, length_seqZ. lia.
    - by apply Forall_replicate. }
  split; [done|]. split; [done|]. intros s Hs'. destruct (fetch_has l s Hl Hs') as (x & Hx & Hfx & _).
  exists x. split; [done|]. pose proof (has_index l s Hl Hs') as Hi. cbn [records_ l] in Hx, Hi.
  rewrite zget_replicate in Hx by (unfold zlen in Hi; rewrite length_replicate in Hi; lia). by injection Hx as <-.
Qed.

(** The record of a checkpoint that is fetched is free, unless there was none before. *)
Lemma set_fetch_seqno_ok l s : ok l → s ≤ head_ l + max_out →
  ∃ l', set_fetch_seqno l s = Ret l' ∧ ok l' ∧ head_ l' = head_ l ∧
    (∀ u, is_ckpt l u = true → fetch l' u = fetch l u) ∧
    (fetch_seqno_ l ≠ -1 → has l' s = true → is_ckpt l s = false → ∃ x, fetch l' s = Ret x ∧ free x).
Proof.
  intros Hl Hs. pose proof Hl as (? & ? & ? & Hlen & Hsh & _). pose proof (ring_length l Hl) as [_ Hsz].
  assert (∃ e, (if negb (fetch_seqno_ l =? -1) then clear_record (records_ l) (MAX_SIZE - 1) else Ret (records_ l)) = Ret e ∧
    zlen e = MAX_SIZE ∧ Forall rec_ok e ∧ (∀ j, j ≠ MAX_SIZE - 1 → zget e j = zget (records_ l) j) ∧
    (fetch_seqno_ l ≠ -1 → ∃ x, zget e (MAX_SIZE - 1) = Some x ∧ rec_ok x ∧ cleared clr x)) as (e & Ee & Hle & Hre & Ho & Hn).
  { destruct (fetch_seqno_ l =? -1) eqn:E; zprop; cbn [negb]; [by exists (records_ l)|].
    destruct (clear_record_ok (records_ l) (MAX_SIZE - 1)) as (x & -> & Hx); [lia|done|].
    eexists. split; [done|]. rewrite zlen_zset. split; [done|]. split; [done|]. split.
    - intros j Hj. by rewrite zget_zset_ne by congruence.
    - intros _. exists (clr x). assert (zget (zset (records_ l) (MAX_SIZE - 1) (clr x)) (MAX_SIZE - 1) = Some (clr x)) as Hg
        by (apply zget_zset_eq; lia).
      split; [done|]. split; [by eapply zget_Forall|by exists x]. }
  unfold set_fetch_seqno. rewrite Ee. cbn [mbind outcome_bind]. eexists. split; [done|].
  assert (ok (mkRecLog (head_ l) s (head_index_ l) e)) as Hl' by (split_and!; cbn; done || lia).
  split; [done|]. split; [done|]. split.
  - intros u Hu. pose proof (record_index_bound l u Hl Hu). unfold fetch.
    unfold is_ckpt in Hu. apply andb_true_iff in Hu as [Hw Hr].
    change (within_range (mkRecLog (head_ l) s (head_index_ l) e) u) with (within_range l u).
    rewrite Hw, Hr. cbn [th_assert mbind outcome_bind negb records_].
    change (record_index (mkRecLog _ _ _ e) u) with (record_index l u). by rewrite Ho by lia.
  - intros Hf Hh Hc. destruct (Hn Hf) as (x & Hx & Hrx & Hcx).
    destruct (fetch_has _ s Hl' Hh) as (y & Hy & Hfy & _). exists y. split; [done|].
    apply has_cases in Hh as [Hh|(_ & _ & _ & Ei)]; [exfalso|].
    + change (is_ckpt l s = true) in Hh. congruence.
    + rewrite Ei in Hy. cbn [records_] in Hy. rewrite Hx in Hy. injection Hy as <-. by apply cleared_free.
Qed.

(** What a client sees of a truncation. *)
Lemma truncate_fetch l nh : ok l → step l nh →
  ∃ l', truncate l nh = Ret l' ∧ ok l' ∧ head_ l' = Z.max (head_ l) nh ∧
    ∀ s, is_ckpt l' s = true → ∃ x, fetch l' s = Ret x ∧
      if is_ckpt l s then fetch l s = Ret x else num_entries_ x = 0 ∧ free x.
Proof.
  intros Hl Hst. pose proof Hst as [Hnh Hm]. pose proof config_interval. pose proof (ring_length l Hl) as [_ Hsz].
  assert (∀ l' s, ok l' → is_ckpt l' s = true → ∃ x, zget (records_ l') (record_index l' s) = Some x ∧
    fetch l' s = Ret x ∧ rec_ok x) as Hget by (intros; by apply fetch_has, is_ckpt_has).
  destruct (decide (nh ≤ head_ l)) as [Hle|Hlt].
  { exists l. rewrite Z.max_l by lia. split; [|split; [done|split; [done|]]].
    - unfold truncate. pose proof Hl as (? & ? & _).
      destruct (Z.rem nh checkpoint_interval =? 0) eqn:E; [|exfalso; zprop].
      + cbn [th_assert mbind outcome_bind]. by rewrite (proj2 (Z.leb_le nh (head_ l))) by lia.
      + apply E. by apply Z.rem_divide, Z.mod_divide; [lia..|].
    - intros s Hs. destruct (Hget l s Hl Hs) as (x & _ & ? & _). exists x. by rewrite Hs. }
  rewrite Z.max_r by lia. destruct (within_range l nh) eqn:Hw.
  - destruct (truncate_ring l nh) as (l' & Ht & Hl' & Hh & _ & Hr & _); [done..|lia|done|].
    exists l'. do 3 (split; [done|]). intros s Hs. destruct (Hget l' s Hl' Hs) as (x & Hx & Hf & Hrx).
    exists x. split; [done|]. rewrite slot_ring in Hx by done.
    destruct (wl_truncate_ok (WindowLogLaws := CheckpointLog.window_log_laws clr) (ring l) nh) as (r' & Ht' & _ & _ & Hold & Hnew);
      [by apply ring_ok|done|].
    change (CheckpointLog.truncate clr (ring l) nh = Ret r') in Ht'. rewrite Hr in Ht'. injection Ht' as <-.
    destruct (is_ckpt l s) eqn:Hls.
    + destruct (Hget l s Hl Hls) as (y & Hy & -> & _). rewrite slot_ring in Hy by done.
      pose proof (eq_trans (eq_sym Hx) (eq_trans (Hold s Hs Hls) Hy)) as E. by injection E as ->.
    + destruct (Hnew s Hs Hls) as (y & Hy & Hc). apply cleared_free; [done|].
      pose proof (eq_trans (eq_sym Hx) Hy) as E. by injection E as ->.
  - destruct (rec_truncate_far l nh) as (l' & Ht & Hl' & Hh & Hj); [done..|lia|done|].
    exists l'. do 3 (split; [done|]). intros s Hs. destruct (Hget l' s Hl' Hs) as (x & Hx & Hf & Hrx).
    exists x. split; [done|]. assert (is_ckpt l s = false) as ->.
    { apply not_true_is_false. intros Hls. unfold is_ckpt in Hs, Hls. apply andb_true_iff in Hs as [Hs _], Hls as [Hls _].
      unfold within_range in Hs, Hls, Hw. rewrite Z.geb_leb in *. zprop.
      apply andb_false_iff in Hw as [Hw|Hw]; zprop; lia. }
    pose proof (record_index_bound l' s Hl' Hs). destruct (Hj (record_index l' s)) as (y & Hy & Hc); [lia|].
    apply cleared_free; [done|]. congruence.
Qed.

(** *** A record that [clear] leaves alone *)
Lemma clear_record_fixed e k e' j x : clear_record e k = Ret e' → zget e j = Some x →
  SRec.clear x = Ret x → zget e' j = Some x.
Proof.
  unfold clear_record. intros E Hx Hc. apply outcome_bind_Ret in E as (y & Hy & E).
  apply outcome_bind_Ret in E as (z & Hz & E). injection E as <-. apply of_option_Ret in Hy.
  rewrite zget_zset. case_decide as D; [|done]. destruct D as [-> _]. congruence.
Qed.

Lemma clear_records_fixed js e e' j x : clear_records e js = Ret e' → zget e j = Some x →
  SRec.clear x = Ret x → zget e' j = Some x.
Proof.
  revert e'. induction js as [|k js IH] using rev_ind; intros e' E Hx Hc.
  { injection E as <-. done. }
  assert (clear_records e (js ++ [k]) = (e ← clear_records e js; clear_record e k)) as Ej.
  { unfold clear_records. by rewrite foldl_app. }
  rewrite Ej in E. apply outcome_bind_Ret in E as (a & Ea & E). eapply clear_record_fixed; eauto.
Qed.

Lemma truncate_fixed l nh l' j x : truncate l nh = Ret l' → head_ l < nh → within_range l nh = true →
  zget (records_ l) j = Some x → SRec.clear x = Ret x →
  head_ l' = nh ∧ head_index_ l' = record_index l nh ∧ zget (records_ l') j = Some x.
Proof.
  unfold truncate. intros E Hlt Hw Hx Hc. apply outcome_bind_Ret in E as ([] & _ & E).
  rewrite (proj2 (Z.leb_gt nh (head_ l))), Hw in E by lia. cbn [negb] in E.
  apply outcome_bind_Ret in E as (e & He & E). apply outcome_bind_Ret in E as (e' & He' & E).
  injection E as <-. do 2 (split; [done|]). cbn [records_].
  eapply clear_records_fixed in He; [|done..].
  destruct (fetch_seqno_ l <? nh); [by eapply clear_record_fixed|]. by injection He' as <-.
Qed.

(** The checkpoint that takes the place of [c] in the ring. *)
Definition successor (c : Z) : Z := c + checkpoint_interval * (MAX_SIZE - 1).

Lemma successor_slot l l' c nh : ok l → ok l' → is_ckpt l c = true → is_ckpt l nh = true → c < nh →
  head_ l' = nh → head_index_ l' = record_index l nh →
  is_ckpt l (successor c) = false ∧ is_ckpt l' (successor c) = true ∧
  record_index l' (successor c) = record_index l c.
Proof.
  intros Hl Hl' Hc Hn Hlt Hh Hi. pose proof config_interval.
  pose proof (ring_ok l Hl) as Hr. pose proof (ring_ok l' Hl') as Hr'.
  destruct (CheckpointLog.is_ckpt_number _ _ Hr Hc) as (j & Hj & Ec).
  destruct (CheckpointLog.is_ckpt_number _ _ Hr Hn) as (m & Hm & En).
  cbn [ring CheckpointLog.head_] in Ec, En.
  pose proof CheckpointLog.max_size_bounds as (Hms & _).
  assert (j < m) as Hjm by nia.
  unfold successor. rewrite ring_size. set (M := CheckpointLog.MAX_SIZE) in *.
  assert (c + checkpoint_interval * M = head_ l + (j + M) * checkpoint_interval) as E1 by (rewrite Ec; ring).
  assert (c + checkpoint_interval * M = head_ l' + (j + M - m) * checkpoint_interval) as E2 by (rewrite Hh, Ec, En; ring).
  assert (is_ckpt l' (c + checkpoint_interval * M) = true) as Hs.
  { rewrite E2, is_ckpt_ring. unfold CheckpointLog.is_ckpt. change (head_ l') with (CheckpointLog.head_ (ring l')).
    rewrite (CheckpointLog.rem_ckpt (ring l')), andb_true_r by (done || lia).
    apply CheckpointLog.in_window. lia. }
  split; [|split; [exact Hs|]].
  - rewrite E1, is_ckpt_ring. unfold CheckpointLog.is_ckpt. change (head_ l) with (CheckpointLog.head_ (ring l)).
    apply andb_false_iff. left. apply not_true_is_false. rewrite CheckpointLog.in_window. lia.
  - rewrite !record_index_ring by done. rewrite E2, Ec.
    change (head_ l') with (CheckpointLog.head_ (ring l')). change (head_ l) with (CheckpointLog.head_ (ring l)).
    rewrite !CheckpointLog.index_spec by (done || lia). cbn [ring CheckpointLog.head_index_].
    rewrite Hi, record_index_ring, En by done. change (head_ l) with (CheckpointLog.head_ (ring l)).
    rewrite CheckpointLog.index_spec by (done || lia). cbn [ring CheckpointLog.head_index_].
    fold M. rewrite Zplus_mod_idemp_l. replace (_ + m + _) with (head_index_ l + j + 1 * M) by lia.
    apply Z_mod_plus_full.
Qed.
End log.
End RecLog.

(** ** Properties *)
Module RecLogProps.
Import SRec RecProps.

(** The log of records keeps the window of checkpoints: truncating it to a checkpoint,
    however far, succeeds and keeps the records of the checkpoints that stay in the window;
    those that enter it have no copies. *)
Theorem record_log_truncate_window `{Config} (nb : Z) (t : Tree) (Hc : ConfigOk) (l : RecLog.t) (nh : Z) :
  Dyn.init (nb * Block_size) = Ret t → RecLog.ok l →
  nh < 2 ^ 62 → nh `mod` checkpoint_interval = 0 →
  ∃ l', RecLog.truncate l nh = Ret l' ∧ RecLog.ok l' ∧ RecLog.head_ l' = Z.max (RecLog.head_ l) nh ∧
    ∀ s, RecLog.is_ckpt l' s = true → ∃ x, RecLog.fetch l' s = Ret x ∧
      if RecLog.is_ckpt l s then RecLog.fetch l s = Ret x
      else num_entries x = 0 ∧ ∀ l i, key l i → fetch l i x = Ret None.
Proof.
  intros Ht Hl Hn Hm. apply RecLayout.dynamic_layout in Ht.
  destruct (RecLog.truncate_fetch l nh Hl) as (l' & E & Hl' & Hh & Hs); [done|].
  exists l'. do 3 (split; [done|]). intros s Hs'. destruct (Hs s Hs') as (x & Hx & Hd). exists x. split; [done|].
  destruct (RecLog.is_ckpt l s); [done|]. destruct Hd as [Hn0 Hf]. split; [done|]. intros m i Hk.
  assert (shape x) as Hsx.
  { destruct (RecLog.fetch_has l' s Hl') as (y & _ & Hy & [Hys _]); [by apply RecLog.is_ckpt_has|]. congruence. }
  rewrite rec_fetch_entry by done. destruct (entry_ok m i x Hsx Hk) as (y & Hy & _). rewrite Hy. cbn.
  by rewrite (Hf m i y Hk Hy).
Qed.

(** A log for three blocks and a window of two checkpoints after the first; nothing was
    written after checkpoint 4. *)
Definition sample_config : Config := SampleNode.config 0.

Definition free_record : CheckpointRecord :=
  mkRecord [mkPart (-1) Dig.zero] (replicate 3 (mkPart (-1) Dig.zero, [])) 0 Dig.zero.
Definition idle_record : CheckpointRecord := set_sd (sample_digest 5) free_record.

Definition sample_log : RecLog.t :=
  RecLog.mkRecLog 0 (-1) 0 [free_record; idle_record; free_record; free_record].

Lemma sample_log_ok : RecLog.ok (H := sample_config) (H0 := sample_tree) sample_log.
Proof.
  assert (∀ x, RecLog.rec_ok (H0 := sample_tree) (set_sd x free_record)) as Hr.
  { intros x. split; [done|]. intros _ l i y [Hl Hi]. cbn in Hl.
    assert (l = 0 ∨ l = 1) as [-> | ->] by lia.
    - change (0 ≤ i < 1) in Hi. assert (i = 0) as -> by lia. vm_compute. by intros [= <-].
    - change (0 ≤ i < 3) in Hi. assert (i = 0 ∨ i = 1 ∨ i = 2) as [-> | [-> | ->]] by lia; vm_compute; by intros [= <-]. }
  split_and!; try (vm_compute; intuition congruence).
  repeat constructor; apply (Hr Dig.zero) || apply (Hr (sample_digest 5)).
Qed.

Lemma record_log_truncate_window_witness :
  ∃ l', RecLog.truncate (H := sample_config) (H0 := sample_tree) sample_log 8 = Ret l' ∧
    RecLog.ok (H := sample_config) (H0 := sample_tree) l' ∧ RecLog.head_ l' = Z.max (RecLog.head_ sample_log) 8 ∧
    ∀ s, RecLog.is_ckpt (H := sample_config) l' s = true → ∃ x, RecLog.fetch (H := sample_config) l' s = Ret x ∧
      if RecLog.is_ckpt (H := sample_config) sample_log s
      then RecLog.fetch (H := sample_config) sample_log s = Ret x
      else num_entries x = 0 ∧ ∀ l i, key (H := sample_tree) l i → fetch (H := sample_tree) l i x = Ret None.
Proof.
  apply (record_log_truncate_window (H := sample_config) 3 sample_tree).
  - apply SampleNode.config_ok. lia.
  - reflexivity.
  - exact sample_log_ok.
  - lia.
  - reflexivity.
Defined.

(** A checkpoint without copies is not cleared: when nothing was written between a
    checkpoint and the next one, its record has a digest but no copies, [clear] does nothing,
    and the checkpoint that later takes its place in the ring is reported with that digest
    before it exists. *)
Theorem idle_record_keeps_digest `{Config} (nb : Z) (t : Tree) (Hc : ConfigOk) (l : RecLog.t) (c nh : Z)
    (r : CheckpointRecord) :
  Dyn.init (nb * Block_size) = Ret t → RecLog.ok l →
  RecLog.is_ckpt l c = true → RecLog.fetch l c = Ret r → num_entries r = 0 → is_cleared r = false →
  c < nh → nh < 2 ^ 62 → RecLog.is_ckpt l nh = true →
  ∃ l', RecLog.truncate l nh = Ret l' ∧
    let c' := c + checkpoint_interval * (max_out `div` checkpoint_interval + 1) in
    RecLog.is_ckpt l c' = false ∧ RecLog.digest_at l' c' = Some (sd r).
Proof.
  intros Ht Hl Hcl Hr Hn Hsd Hlt Hnh Hnl. apply RecLayout.dynamic_layout in Ht.
  assert (RecLog.within_range l nh = true ∧ nh `mod` checkpoint_interval = 0 ∧ RecLog.head_ l < nh) as (Hw & Hm & Hh).
  { pose proof Hl as (? & _). pose proof config_interval. unfold RecLog.is_ckpt in Hcl, Hnl.
    apply andb_true_iff in Hcl as [Hcw _], Hnl as [Hnw Hrem]. split; [done|].
    unfold RecLog.within_range in Hcw. rewrite Z.geb_leb in Hcw. zprop.
    rewrite Z.rem_mod_nonneg in Hrem by lia. lia. }
  destruct (RecLog.truncate_ring l nh Hl) as (l' & E & Hl' & _); [done..|].
  destruct (RecLog.fetch_has l c Hl) as (x & Hx & Hfx & _); [by apply RecLog.is_ckpt_has|].
  assert (x = r) as -> by congruence.
  destruct (RecLog.truncate_fixed l nh l' _ r E Hh Hw Hx) as (Hh' & Hi' & Hx').
  { unfold clear. change (num_entries_ r) with (num_entries r). by rewrite Hn. }
  destruct (RecLog.successor_slot l l' c nh) as (Hout & Hin & Hslot); [done..|].
  exists l'. split; [done|]. cbn zeta.
  replace (c + _) with (RecLog.successor c) by (unfold RecLog.successor, RecLog.MAX_SIZE; f_equal; f_equal; lia).
  split; [done|]. unfold RecLog.digest_at.
  destruct (RecLog.fetch_has l' (RecLog.successor c) Hl') as (y & Hy & -> & _); [by apply RecLog.is_ckpt_has|].
  rewrite Hslot, Hx' in Hy. injection Hy as <-. unfold is_cleared in Hsd. rewrite Hsd.
  unfold RecLog.is_ckpt in Hin. by apply andb_true_iff in Hin as [-> _].
Qed.

Lemma idle_record_keeps_digest_witness :
  ∃ l', RecLog.truncate (H := sample_config) (H0 := sample_tree) sample_log 8 = Ret l' ∧
    RecLog.is_ckpt (H := sample_config) sample_log 16 = false ∧
    RecLog.digest_at (H := sample_config) l' 16 = Some (sample_digest 5).
Proof.
  apply (idle_record_keeps_digest (H := sample_config) 3 sample_tree (SampleNode.config_ok 0 ltac:(lia))
    sample_log 4 8 idle_record); try reflexivity. exact sample_log_ok.
Defined.

End RecLogProps.
