(* ===== verification/StateFetch.v ===== *)
(** * StateFetch: the transfer of the state and its check (src/src/State.{h,cc})

    A replica that misses state descends the partition tree level by level: for the
    partition on top of the queue of its level ([stalep]) it first collects a certificate
    for a recent digest (Meta_data_d), then the digests of the sub-partitions from one
    replier (Meta_data), which it checks against the certified digest, and at the leaves the
    blocks (Data).  The sub-partitions that differ are queued at the next level.

    The methods run on the state manager ([me]) and on the node that owns it ([node]); what
    they send, and the calls of [Replica::new_state] and [Replica::try_end_recovery], is
    collected in [fx].  The replica runs these calls when the method has returned. *)
From stdpp Require Import gmap.
From S2P Require Import Prelude Node Bitmap SeqLog Messages RepInfo PrePrepare NewKey StateMonad Partition StateMsgs MetaDataCert State World.
#[local] Open Scope Z_scope.
Import Auth SM State NodeSt.

(** A partition that is out of date, and one whose digest is to be checked. *)
Record FPart := mkFPart { fp_index : Z; fp_lu : Z; fp_lm : Z; fp_c : Z; fp_d : Dig.Digest }.
Record CPart := mkCPart { cp_index : Z; cp_level : Z }.

Inductive state_msg := MFetch (m : Fetch) | MData (m : Data) | MMetaData (m : Meta_data) | MMetaDataD (m : Meta_data_d).

Inductive state_effect :=
| SSend (m : state_msg) (dst : Z)
| SNewState (n : Z)                (* replica->new_state(n) *)
| SEndRecovery.                    (* replica->try_end_recovery() *)

Module Xfer.
Section transfer.
Context `{Config} `{World} `{Tree} `{Mpi}.

Record Fetching := mkFetching {
  fetching : bool; keep_ckpts : bool; flevel : Z; stalep : list (list FPart);
  cert : MDC.Meta_data_cert; lreplier : Z; last_fetch_t : Z;
}.

Record Checking := mkChecking {
  checking : bool; check_start : Z; corrupt : bool; poll_cnt : Z;
  to_check : list CPart; lchecked : Z; refetch_level : Z;
}.

Record St := mkSt { str : Store; ftc : Fetching; chk : Checking }.
Record Ctx := mkCtx { me : St; node : NodeState; fx : list state_effect }.

(** The constructor; the fields that it leaves uninitialised are taken as zero. *)
Definition make (memory : list Block) : St := mkSt (State.make memory)
  (mkFetching false false 0 (replicate (Z.to_nat PLevels) []) MDC.make 0 0)
  (mkChecking false 0 false 0 [] 0 0).

Definition M (A : Type) : Type := ST Ctx A.

Definition set_str (x : Store) (s : Ctx) : Ctx := mkCtx (mkSt x (ftc (me s)) (chk (me s))) (node s) (fx s).
Definition set_ftc (x : Fetching) (s : Ctx) : Ctx := mkCtx (mkSt (str (me s)) x (chk (me s))) (node s) (fx s).
Definition set_chk (x : Checking) (s : Ctx) : Ctx := mkCtx (mkSt (str (me s)) (ftc (me s)) x) (node s) (fx s).
Definition set_node (x : NodeState) (s : Ctx) : Ctx := mkCtx (me s) x (fx s).
Definition add_fx (x : state_effect) (s : Ctx) : Ctx := mkCtx (me s) (node s) (fx s ++ [x]).

(** A method on the memory and its checkpoints. *)
Definition on_store {A} (m : ST Store A) : ST Ctx A := λ s,
  match m (str (me s)) with Ret (a, x) => Ret (a, set_str x s) | Err e => Err e end.
Definition store : ST Ctx Store := gets (λ s, str (me s)).

Definition fetch_to (f : Fetching → Fetching) : ST Ctx unit := modify (λ s, set_ftc (f (ftc (me s))) s).
Definition check_to (f : Checking → Checking) : ST Ctx unit := modify (λ s, set_chk (f (chk (me s))) s).
Definition tell (x : state_effect) : ST Ctx unit := modify (add_fx x).
Definition fetch_st : ST Ctx Fetching := gets (λ s, ftc (me s)).
Definition check_st : ST Ctx Checking := gets (λ s, chk (me s)).

Definition set_fetching (b : bool) (f : Fetching) : Fetching :=
  mkFetching b (keep_ckpts f) (flevel f) (stalep f) (cert f) (lreplier f) (last_fetch_t f).
Definition set_keep (b : bool) (f : Fetching) : Fetching :=
  mkFetching (fetching f) b (flevel f) (stalep f) (cert f) (lreplier f) (last_fetch_t f).
Definition set_flevel (l : Z) (f : Fetching) : Fetching :=
  mkFetching (fetching f) (keep_ckpts f) l (stalep f) (cert f) (lreplier f) (last_fetch_t f).
Definition set_stalep (q : list (list FPart)) (f : Fetching) : Fetching :=
  mkFetching (fetching f) (keep_ckpts f) (flevel f) q (cert f) (lreplier f) (last_fetch_t f).
Definition set_cert (c : MDC.Meta_data_cert) (f : Fetching) : Fetching :=
  mkFetching (fetching f) (keep_ckpts f) (flevel f) (stalep f) c (lreplier f) (last_fetch_t f).
Definition set_replier (r : Z) (f : Fetching) : Fetching :=
  mkFetching (fetching f) (keep_ckpts f) (flevel f) (stalep f) (cert f) r (last_fetch_t f).
Definition set_fetch_t (t : Z) (f : Fetching) : Fetching :=
  mkFetching (fetching f) (keep_ckpts f) (flevel f) (stalep f) (cert f) (lreplier f) t.

Definition set_checking (b : bool) (c : Checking) : Checking :=
  mkChecking b (check_start c) (corrupt c) (poll_cnt c) (to_check c) (lchecked c) (refetch_level c).
Definition set_poll_cnt (n : Z) (c : Checking) : Checking :=
  mkChecking (checking c) (check_start c) (corrupt c) n (to_check c) (lchecked c) (refetch_level c).
Definition set_to_check (q : list CPart) (c : Checking) : Checking :=
  mkChecking (checking c) (check_start c) (corrupt c) (poll_cnt c) q (lchecked c) (refetch_level c).
Definition set_lchecked (n : Z) (c : Checking) : Checking :=
  mkChecking (checking c) (check_start c) (corrupt c) (poll_cnt c) (to_check c) n (refetch_level c).
Definition set_refetch (n : Z) (c : Checking) : Checking :=
  mkChecking (checking c) (check_start c) (corrupt c) (poll_cnt c) (to_check c) (lchecked c) n.

Definition cert_clear : ST Ctx unit := fetch_to (λ f, set_cert (MDC.clear (cert f)) f).

(** *** The queues: [stalep[l]] with [high], [_enlarge_by(1)] and [remove] *)
Definition queue (l : Z) : ST Ctx (list FPart) := f ← fetch_st; lift (of_option Undefined (zget (stalep f) l)).
Definition queue_to (l : Z) (q : list FPart) : ST Ctx unit :=
  _ ← queue l; fetch_to (λ f, set_stalep (zset (stalep f) l q) f).
Definition high (l : Z) : ST Ctx FPart := q ← queue l; lift (of_option AssertFail (last q)).
Definition pop (l : Z) : ST Ctx unit := q ← queue l; queue_to l (take (length q - 1) q).
Definition push (l : Z) (p : FPart) : ST Ctx unit := q ← queue l; queue_to l (q ++ [p]).
Definition high_to (l : Z) (p : FPart) : ST Ctx unit := _ ← high l; _ ← pop l; push l p.
Definition queue_empty (l : Z) : ST Ctx bool := q ← queue l; mret (bool_decide (q = [])).

Definition set_fp_lm (x : Z) (p : FPart) : FPart := mkFPart (fp_index p) (fp_lu p) x (fp_c p) (fp_d p).
Definition set_fp_lu (x : Z) (p : FPart) : FPart := mkFPart (fp_index p) x (fp_lm p) (fp_c p) (fp_d p).
Definition set_fp_value (c : Z) (d : Dig.Digest) (p : FPart) : FPart := mkFPart (fp_index p) (fp_lu p) (fp_lm p) c d.

Definition add_to_check (l i : Z) : ST Ctx unit := check_to (λ c, set_to_check (to_check c ++ [mkCPart i l]) c).

(** *** The node *)
Definition currentTime : ST Ctx Z :=
  s ← get; _ ← modify (set_node (bump_ticks (node s))); mret (w_time (ticks (node s))).

Definition new_request_id : ST Ctx Z :=
  s ← get; '(n, rid) ← lift (new_rid (node s)); _ ← modify (set_node n); mret rid.

Definition own_principal (f : Principal → Principal) : ST Ctx unit :=
  s ← get; n ← lift (set_own f (node s)); modify (set_node n).

Definition principals_now : ST Ctx (list Principal) := gets (λ s, ps (node s)).

(** The request identifier of the last Fetch of this replica. *)
Definition current_rid : ST Ctx Z :=
  p ← principals_now; p ← lift (of_option Undefined (i_to_p p node_id)); mret (last_fetch p).

(** ** Sending fetch messages *)
Fixpoint next_replier (fuel : nat) (r : Z) : outcome Z :=
  match fuel with
  | O => Err OutOfFuel
  | S fuel => let r := Z.rem (r + 1) num_replicas in if r =? node_id then next_replier fuel r else Ret r
  end.

(** The digests of the partition at the checkpoints of this replica. *)
Definition own_digests (rid l i : Z) (s : Store) (ls : Z) : outcome Meta_data_d :=
  mdd ← new_meta_data_d rid l i ls;
  foldl (λ o n,
      mdd ← o;
      r ← Log.fetch (clog s) n;
      if Dig.is_zero (CRec.sd r) then Ret mdd
      else q ← get_meta_data s n l i; add_digest mdd n (d q))
    (Ret mdd) (ckpts_from ls (lc s)).

Definition verify_mdd (p : list Principal) (m : Meta_data_d) : outcome bool := mdd_verify w_hmac_md w_char_signed p m.

Definition send_fetch (change_replier : bool) : ST Ctx unit :=
  now ← currentTime;
  _ ← fetch_to (set_fetch_t now);
  rid ← new_request_id;
  _ ← own_principal (λ p, set_last_fetch_rid p rid);
  f ← fetch_st;
  p ← high (flevel f);
  replier ← (if 0 <=? fp_c p then
               _ ← when change_replier
                 (r ← lift (next_replier 2 (lreplier f)); fetch_to (set_replier r));
               f ← fetch_st; mret (lreplier f)
             else mret (-1));
  keys ← principals_now;
  m ← lift (new_fetch w_hmac_md keys rid (fp_lu p) (flevel f) (fp_index p) (fp_c p) replier);
  _ ← tell (SSend (MFetch m) (-1));
  f ← fetch_st;
  s ← store;
  when (negb (MDC.has_mine (cert f)))
    (let ls := Log.head_seqno (clog s) in
     r ← lift (Log.fetch (clog s) ls);
     when (negb (CRec.is_cleared r) && (fp_c p <=? lc s))
       (mdd ← lift (own_digests rid (flevel f) (fp_index p) s ls);
        '(_, c) ← lift (MDC.add (verify_mdd keys) (cert f) mdd true);
        fetch_to (set_cert c))).

Definition start_fetch (le c : Z) (cd : option Dig.Digest) : ST Ctx unit :=
  f ← fetch_st;
  if fetching f then skip
  else
    s ← get;
    _ ← fetch_to (λ f, set_replier (Z.rem (w_lrand (ticks (node s))) num_replicas) (set_keep false (set_fetching true f)));
    s ← store;
    _ ← when ((0 <=? lc s) && (lc s <? le)) (on_store (checkpoint w_digest_of le));
    _ ← cert_clear;
    _ ← fetch_to (λ f, set_flevel 0 (set_stalep (replicate (Z.to_nat PLevels) []) f));
    k ← check_st;
    s ← store;
    root ← lift (of_option Undefined (at2 (ptree s) 0 0));
    _ ← push 0 (mkFPart 0 (if refetch_level k =? PLevels then -1 else lc s) (lm root) c (default Dig.zero cd));
    send_fetch true.

(** ** Answering fetch messages *)

(** The sub-partitions that were modified after [thr]. *)
Definition add_sub_parts (s : Store) (chosen l thr : Z) (js : list Z) (md : Meta_data) : outcome Meta_data :=
  foldl (λ o j, md ← o; q ← get_meta_data s chosen l j; if thr <? lm q then add_sub_part md j (d q) else Ret md)
    (Ret md) js.

(** The answer of the designated replier from its checkpoint [chosen]. *)
Definition answer_value (m : Fetch) (s : Store) (chosen : Z) : outcome state_msg :=
  let l := f_level m in
  let i := f_index m in
  p ← get_meta_data s chosen l i;
  if l =? leaf then b ← get_data s chosen i; Ret (MData (new_data i (lm p) b))
  else
    md ← new_meta_data (f_rid m) l i chosen (lm p) (d p);
    let j := i * PSize (l + 1) in
    let max := if (l + 1 =? leaf) && (nb s <? j + PSize (l + 1)) then nb s else j + PSize (l + 1) in
    md ← add_sub_parts s chosen (l + 1) (f_lu m) (seqZ j (max - j)) md;
    Ret (MMetaData md).

(** The checkpoint from which the designated replier answers, or [-1]. *)
Definition chosen_ckpt (m : Fetch) (s : Store) : outcome Z :=
  let rc := f_rc m in
  if (0 <=? rc) && (f_repid m =? node_id) then
    have ← (if Log.within_range (clog s) rc then r ← Log.fetch (clog s) rc; Ret (negb (CRec.is_cleared r)) else Ret false);
    if have : bool then Ret rc
    else
      p ← of_option Undefined (at2 (ptree s) (f_level m) (f_index m));
      Ret (if (rc <=? lc s) && (lm p <=? rc) then lc s else -1)
  else Ret (-1).

(** The digests from the last stable checkpoint on. *)
Definition answer_digests (m : Fetch) (s : Store) (ls : Z) : outcome Meta_data_d :=
  mdd ← new_meta_data_d (f_rid m) (f_level m) (f_index m) ls;
  r ← Log.fetch (clog s) ls;
  let n := if CRec.is_cleared r then ls + checkpoint_interval else ls in
  foldl (λ o n, mdd ← o; p ← get_meta_data s n (f_level m) (f_index m); add_digest mdd n (d p))
    (Ret mdd) (ckpts_from n (lc s)).

Definition handle_fetch (m : Fetch) (ls : Z) : ST Ctx bool :=
  keys ← principals_now;
  ok ← lift (fetch_verify w_hmac_md w_char_signed keys m);
  if negb ok then mret false
  else
    pi ← lift (of_option Undefined (i_to_p keys (f_id m)));
    s ← store;
    if (last_fetch pi <? f_rid m) && ((f_level m <? leaf) || (f_index m <? nb s)) then
      chosen ← lift (chosen_ckpt m s);
      if 0 <=? chosen then
        a ← lift (answer_value m s chosen); _ ← tell (SSend a (f_id m)); mret true
      else
        p ← lift (of_option Undefined (at2 (ptree s) (f_level m) (f_index m)));
        if (f_rc m <? ls) && (f_lu m <=? ls) && (f_rc m <? lm p) then
          mdd ← lift (answer_digests m s ls);
          _ ← when (0 <? mdd_n_digests mdd) (tell (SSend (MMetaDataD (mdd_authenticate w_hmac_md pi mdd)) (f_id m)));
          mret true
        else mret true
    else mret true.

(** ** Progress of a fetch *)

(** Copies of the last checkpoint move to the one before it. *)
Definition move_copies (prev : Z) : ST Ctx unit :=
  s ← store;
  cr ← lift (Log.fetch (clog s) (lc s));
  for_each (map_to_list (CRec.parts cr)) (λ x, on_store (with_record prev (CRec.appendr x.1.1 x.1.2 x.2))).

Definition keep_copies : ST Ctx unit :=
  f ← fetch_st;
  s ← store;
  when (keep_ckpts f && negb (Z.rem (lc s) checkpoint_interval =? 0))
    (let prev := Z.quot (lc s) checkpoint_interval * checkpoint_interval in
     when (Log.within_range (clog s) prev)
       (r ← lift (Log.fetch (clog s) prev); when (negb (CRec.is_cleared r)) (move_copies prev))).

(** The root is up to date: the state is that of the checkpoint [c]. *)
Definition complete_fetch (c : Z) : ST Ctx unit :=
  _ ← fetch_to (set_fetching false);
  _ ← check_to (λ k, if checking k && bool_decide (to_check k = []) then set_checking false k else k);
  _ ← keep_copies;
  s ← store;
  _ ← assert_ (lc s <=? c);
  _ ← on_store (modify (State.set_lc c));
  _ ← when (negb (Log.within_range (clog s) c))
        (l ← lift (Log.truncate CRec.clear (clog s) (c - max_out)); on_store (modify (State.set_clog l)));
  _ ← on_store (root ← State.part 0 0; with_record c (λ r, Ret (CRec.set_sd (d root) r)));
  _ ← on_store (modify (λ s, State.set_cowb (BM.clear (cowb s)) s));
  _ ← pop 0;
  _ ← cert_clear;
  _ ← tell (SNewState c);
  check_to (λ k, set_poll_cnt 16 (set_refetch 0 k)).

(** The sum of the parent when partition [(l, i)] changes from [old] to [new], whose last
    modification the parent takes over if it is later. *)
Definition raise_parent (l i : Z) (x : Z) : ST Ctx unit :=
  pwp ← high (l - 1);
  _ ← assert_ (fp_index pwp =? i `div` PSize l);
  when (fp_lm pwp <? x) (high_to (l - 1) (set_fp_lm x pwp)).

(** The partition on top of level [l] is consistent: it takes its new value. *)
Definition install_part (l : Z) (wp : FPart) : ST Ctx unit :=
  f ← fetch_st;
  p ← on_store (State.part l (fp_index wp));
  _ ← when (keep_ckpts f)
        (on_store (s ← get; with_record (lc s) (CRec.appendr l (fp_index wp) (PartCopy p))));
  _ ← when (0 <? l) (on_store (sum_sub (l - 1) (fp_index wp `div` PSize l) (d p)));
  _ ← on_store (part_to l (fp_index wp) (mkPart (fp_lm wp) (fp_d wp)));
  when (0 <? l)
    (_ ← on_store (sum_add (l - 1) (fp_index wp `div` PSize l) (fp_d wp));
     raise_parent l (fp_index wp) (fp_lm wp)).

Fixpoint done_with_level (fuel : nat) : ST Ctx unit :=
  match fuel with
  | O => fail OutOfFuel
  | S fuel =>
      f ← fetch_st;
      e ← queue_empty (flevel f);
      _ ← assert_ (e : bool);
      _ ← assert_ (0 <? flevel f);
      let l := flevel f - 1 in
      _ ← fetch_to (set_flevel l);
      wp ← high l;
      let wp := set_fp_lu (fp_c wp) wp in
      _ ← high_to l wp;
      _ ← assert_ (negb (fp_c wp =? -1));
      if fp_lm wp <=? fp_lu wp then
        _ ← install_part l wp;
        if l =? 0 then complete_fetch (fp_lu wp)
        else
          _ ← pop l;
          e ← queue_empty l;
          if e : bool then done_with_level fuel
          else
            _ ← check_to (λ k, if l <=? refetch_level k then set_refetch PLevels k else k);
            send_fetch false
      else
        _ ← check_to (λ k, if l <? refetch_level k then set_refetch l k else k);
        send_fetch false
  end.

(** The call with fuel for the levels above. *)
Definition level_done : ST Ctx unit := f ← fetch_st; done_with_level (S (Z.to_nat (flevel f))).

(** A copy of the leaf, if checkpoints are kept while fetching and the block is not yet
    marked as copied; it has just been marked. *)
Definition keep_block (i : Z) : ST Ctx unit :=
  s ← store;
  c ← lift (BM.set (cowb s) i);
  _ ← on_store (modify (State.set_cowb c));
  t ← lift (BM.test c i);
  f ← fetch_st;
  when (keep_ckpts f && negb t)
    (on_store (p ← State.part leaf i; b ← State.block i; s ← get; with_record (lc s) (CRec.append leaf i (BlockCopy p b)))).

Definition install_block (i : Z) (m : Data) (wp : FPart) : ST Ctx unit :=
  p ← on_store (State.part leaf i);
  _ ← keep_block i;
  _ ← on_store (sum_sub (leaf - 1) (i `div` PSize leaf) (d p));
  _ ← on_store (part_to leaf i (mkPart (d_lm m) (fp_d wp)));
  _ ← on_store (State.block_to i (d_data m));
  _ ← on_store (sum_add (leaf - 1) (i `div` PSize leaf) (fp_d wp));
  raise_parent leaf i (d_lm m).

Definition handle_data (m : Data) : ST Ctx unit :=
  f ← fetch_st;
  if fetching f && (flevel f =? leaf) then
    wp ← high leaf;
    let i := fp_index wp in
    if d_index m =? i then
      let x := state_block w_digest_of (d_data m) i (d_lm m) in
      if (0 <=? fp_c wp) && Dig.operator_eq (fp_d wp) x then
        _ ← install_block i m wp;
        _ ← cert_clear;
        _ ← pop leaf;
        e ← queue_empty leaf;
        if e : bool then level_done else send_fetch false
      else send_fetch false
    else skip
  else skip.

(** At the level above the leaves the message may name blocks that do not exist. *)
Definition no_block (s : Store) (l : Z) (i : Z) : bool := (l =? leaf) && (nb s <=? i).

Definition check_digest (s : Store) (dg : Dig.Digest) (m : Meta_data) : outcome bool :=
  _ ← th_assert (md_l m <? leaf);
  let l := md_l m in
  v ← of_option Undefined (at2 (stree s) l (md_i m));
  subs ← sub_parts (no_block s (l + 1)) m;
  v ← foldl (λ o x,
          v ← o;
          if Dig.is_zero x.2 then Ret v
          else
            p ← of_option Undefined (at2 (ptree s) (l + 1) x.1);
            v ← DSum.sub v (d p); DSum.add v x.2)
        (Ret v) subs;
  bytes ← DSum.bytes v;
  Ret (Dig.operator_eq dg (state_block w_digest_of bytes (md_i m) (md_lm m))).

(** A sub-partition of an accepted message: fetched if its digest differs from the current
    one, and checked, if this is asked for, otherwise. *)
Definition queue_sub (wp : FPart) (l : Z) (x : Z * Dig.Digest) : ST Ctx unit :=
  s ← store;
  k ← check_st;
  p ← lift (of_option Undefined (at2 (ptree s) l x.1));
  if Dig.is_zero x.2 || Dig.operator_eq (d p) x.2 then
    when ((refetch_level k =? PLevels) && (lm p <=? check_start k)) (add_to_check l x.1)
  else push l (mkFPart x.1 (fp_lu wp) (lm p) (fp_c wp) x.2).

Definition handle_meta_data (m : Meta_data) : ST Ctx unit :=
  crid ← current_rid;
  f ← fetch_st;
  if fetching f && (flevel f <? leaf) && (md_rid m =? crid) && (flevel f =? md_l m) then
    wp ← high (flevel f);
    if (fp_index wp =? md_i m) && (0 <=? fp_c wp) && Dig.operator_eq (md_d m) (fp_d wp) then
      ok ← lift (meta_data_verify m);
      s ← store;
      ok ← (if ok : bool then lift (check_digest s (fp_d wp) m) else mret false);
      if ok : bool then
        let wp := set_fp_lm (md_lm m) wp in
        _ ← high_to (flevel f) wp;
        let l := flevel f + 1 in
        _ ← fetch_to (set_flevel l);
        e ← queue_empty l;
        _ ← assert_ (e : bool);
        subs ← lift (sub_parts (no_block s l) m);
        _ ← for_each subs (queue_sub wp l);
        _ ← cert_clear;
        e ← queue_empty l;
        if e : bool then level_done else send_fetch false
      else skip
    else skip
  else skip.

(** The certificate for the partition [wp] is complete. *)
Definition certified (wp : FPart) (cc : Z) (cd : Dig.Digest) : ST Ctx unit :=
  f ← fetch_st;
  let l := flevel f in
  _ ← high_to l (set_fp_value cc cd wp);
  _ ← cert_clear;
  s ← store;
  _ ← assert_ (negb (l =? leaf) || (fp_index wp <? nb s));
  p ← lift (of_option Undefined (at2 (ptree s) l (fp_index wp)));
  if Dig.operator_eq cd (d p) then
    k ← check_st;
    _ ← when ((refetch_level k =? PLevels) && (lm p <=? check_start k)) (add_to_check l (fp_index wp));
    if 0 <? l then
      _ ← pop l;
      e ← queue_empty l;
      when e level_done
    else
      _ ← fetch_to (set_flevel (l + 1));
      level_done
  else send_fetch true.

Definition handle_meta_data_d (m : Meta_data_d) : ST Ctx unit :=
  crid ← current_rid;
  f ← fetch_st;
  if fetching f && (mdd_rid m =? crid) && (flevel f =? mdd_l m) then
    wp ← high (flevel f);
    s ← store;
    if (fp_index wp =? mdd_i m) && (lc s <=? mdd_ls m) && (fp_lu wp <=? mdd_ls m) then
      keys ← principals_now;
      '(added, c) ← lift (MDC.add (verify_mdd keys) (cert f) m false);
      _ ← fetch_to (set_cert c);
      when added
        (_ ← when (lc s <? MDC.last_stable c) (fetch_to (set_keep false));
         match MDC.cvalue c with
         | Some (cc, cd) => certified wp cc cd
         | None => skip
         end)
    else skip
  else skip.

(** ** Checking the state *)
Definition start_check (le : Z) : ST Ctx unit :=
  s ← store;
  _ ← check_to (λ k, mkChecking true (lc s) false 16 (to_check k) (-1) PLevels);
  start_fetch le (-1) None.

(** The blocks of one partition from [lchecked] up to [max]; [None] when the code returns
    because messages wait, and the count of the blocks that were looked at.  A block whose
    digest is wrong ends the process ([th_fail]). *)
Fixpoint check_blocks (fuel : nat) (has_messages : Z → bool) (max count : Z) : ST Ctx (option Z) :=
  match fuel with
  | O => fail OutOfFuel
  | S fuel =>
      k ← check_st;
      if max <=? lchecked k then mret (Some count)
      else if (Z.rem count (poll_cnt k) =? 0) && has_messages count then mret None
      else
        p ← on_store (State.part leaf (lchecked k));
        ok ← (if check_start k <? lm p then mret true else on_store (check_data w_digest_of (lchecked k)));
        _ ← assert_ (ok : bool);
        _ ← check_to (set_lchecked (lchecked k + 1));
        check_blocks fuel has_messages max (count + 1)
  end.

(** [to_check->slot(0) = to_check->high(); to_check->remove()] *)
Definition drop_first (q : list CPart) : list CPart :=
  match last q with Some x => take (length q - 1) (zset q 0 x) | None => q end.

Fixpoint check_parts (fuel : nat) (has_messages : Z → bool) (count : Z) : ST Ctx bool :=
  match fuel with
  | O => fail OutOfFuel
  | S fuel =>
      k ← check_st;
      match to_check k with
      | [] => mret true
      | cp :: _ =>
          s ← store;
          let min := cp_index cp * blocks (cp_level cp) in
          let max := Z.min (min + blocks (cp_level cp)) (nb s) in
          _ ← check_to (λ k, if (lchecked k <? min) || (max <=? lchecked k) then set_lchecked min k else k);
          o ← check_blocks (S (Z.to_nat (max - min))) has_messages max count;
          match o with
          | None => mret false
          | Some count => _ ← check_to (λ k, set_to_check (drop_first (to_check k)) k); check_parts fuel has_messages count
          end
      end
  end.

Definition check_state (has_messages : Z → bool) : ST Ctx unit :=
  k ← check_st;
  b ← check_parts (S (length (to_check k))) has_messages 1;
  f ← fetch_st;
  when (b && negb (fetching f))
    (_ ← check_to (λ k, set_refetch 0 (set_checking false k)); tell SEndRecovery).

(** ** The rest of the interface *)
Definition mark_stale : ST Ctx unit := cert_clear.
Definition in_fetch_state (s : St) : bool := fetching (ftc s).
Definition in_check_state (s : St) : bool := checking (chk s).
Definition retrans_fetch (s : St) (cur : Z) : bool :=
  fetching (ftc s) && (100000 <? RI.diffTime w_clock_mhz cur (last_fetch_t (ftc s))).
End transfer.
End Xfer.
