(* ===== verification/Termination.v ===== *)
(** * Termination: the loops of the state manager end (State.v, StateFetch.v, MetaDataCert.v)

    Each loop with fuel of the state manager has enough of it in every state in which the
    bitmap of copied blocks is well formed and the table of stable checkpoints has an entry
    for each replica, whatever the messages say and whatever else the state holds. *)
From stdpp Require Import gmap.
From S2P Require Import Prelude Node Bitmap KMax SeqLog Messages PrePrepare StateMonad Ends Partition StateMsgs MetaDataCert State StateInv World StateProps StateFetch.
#[local] Open Scope Z_scope.
Import State SInv SM Xfer NodeSt.

Module Term.

(** ** Bitmaps *)
Lemma set_wf b i b' : BM.wf b → BM.set b i = Ret b' → BM.wf b' ∧ BM.num b' = BM.num b.
Proof.
  intros Hb E. assert (0 ≤ i < BM.num b) as Hi.
  { unfold BM.set, BM.with_chunk in E. apply outcome_bind_Ret in E as ([] & Ha & E).
    apply th_assert_Ret in Ha. zprop. apply outcome_bind_Ret in E as (c & Hc & _).
    apply of_option_Ret, zget_Some_lt in Hc. unfold BM.ChunkBits in Hc.
    pose proof (Z_div_mod_eq_full i 64). pose proof (Z.mod_pos_bound i 64 ltac:(lia)). lia. }
  rewrite BM.set_assign in E by done. destruct (BM.assign_spec b i true Hb Hi) as (b1 & E1 & Hw & Hn & _).
  rewrite E1 in E. injection E as <-. done.
Qed.

(** The iterator over the set bits of a bitmap. *)
Lemma ends_iter b : BM.wf b → ends (BM.iter_all (S (Z.to_nat (BM.num b))) b (BM.make_iter true)).
Proof.
  intros Hb. rewrite BM.iter_all_remaining; [done|done|split_and!; cbn; [done|lia|by left]|].
  cbn. unfold BM.remaining. apply Nat.lt_succ_r. etrans; [apply length_filter|].
  rewrite length_seqZ. lia.
Qed.

Section store.
Context `{Config} `{World} `{Tree} `{Mpi} `{!TreeOk}.

Definition SI (s : Store) : Prop := BM.wf (cowb s).

(** *** Reading checkpoints *)
Lemma ends_find_copy l i ns s : ends (find_copy l i ns s).
Proof. induction ns as [|n ns IH]; cbn [find_copy]; ends_tac. Qed.

Lemma ends_get_meta_data s c l i : ends (get_meta_data s c l i).
Proof. unfold get_meta_data. pose proof ends_find_copy. ends_tac. Qed.

Lemma ends_get_data s c i : ends (get_data s c i).
Proof. unfold get_data. pose proof ends_find_copy. ends_tac. Qed.

(** *** Checkpoints *)
Lemma update_part_ending n l i : ending SI (update_part w_digest_of n l i).
Proof. unfold update_part. ending_tac. Qed.

Lemma level_up_range l : l ∈ levels_up → 1 ≤ l < PLevels.
Proof. unfold levels_up, leaf. rewrite elem_of_reverse, elem_of_seqZ. lia. Qed.

Lemma level_bitmap l : 1 ≤ l < PLevels → BM.wf (BM.make (PLevelSize (l - 1)) false).
Proof.
  intros Hl. assert (PLevelSize (l - 1) < 2 ^ 31) by (apply tree_int; lia).
  assert (0 < PLevelSize (l - 1)) by (apply level_pos; lia).
  apply BM.make_spec. lia.
Qed.

Lemma update_level_ending n l mods : 1 ≤ l < PLevels → BM.wf mods →
  ending_with SI BM.wf (update_level w_digest_of n l mods).
Proof.
  intros Hl Hm. unfold update_level. apply ending_bind.
  - apply ending_lift; [by apply ends_iter|done].
  - intros idx. apply ending_fold_each; [by apply level_bitmap|]. intros up i Hup _. apply ending_bind.
    + apply update_part_ending.
    + intros _. apply ending_lift; [ends_tac|]. intros b Hb. by eapply set_wf.
Qed.

Lemma update_ptree_ending n : ending SI (update_ptree w_digest_of n).
Proof.
  unfold update_ptree. apply (ending_with_bind _ _ _ _ _ (ending_get _)). intros s0 Hs. apply ending_bind; [ending_tac|].
  intros _. apply (ending_with_bind _ BM.wf).
  - apply ending_fold_each; [done|]. intros m l Hm Hl%level_up_range. by apply update_level_ending.
  - intros mods Hm. ending_tac.
Qed.

Lemma modify_cowb f : (∀ b, BM.wf b → BM.wf (f b)) → ending SI (modify (λ s, set_cowb (f (cowb s)) s)).
Proof. intros Hf. apply ending_modify. intros s Hs. by apply Hf. Qed.

Lemma clear_cowb : ending SI (modify (λ s, set_cowb (BM.clear (cowb s)) s)).
Proof. apply modify_cowb, BM.clear_wf. Qed.

Lemma checkpoint_ending n : ending SI (checkpoint w_digest_of n).
Proof. pose proof update_ptree_ending. pose proof clear_cowb. unfold checkpoint. ending_tac. Qed.

Lemma full_digest_ending : ending SI (compute_full_digest w_digest_of).
Proof.
  pose proof clear_cowb. pose proof checkpoint_ending. unfold compute_full_digest, full_level, redigest, digest, with_record, record.
  ending_tac. apply ending_fold_each; [done|]. intros np l _ _. unfold digest. ending_tac.
Qed.
End store.

(** ** Certificates for digests *)
Section cert.
Context `{Config} `{Tree}.

Lemma ends_mdd_digest m n : ends (mdd_digest m n).
Proof. unfold mdd_digest. ends_tac. Qed.

Lemma ends_agrees om v : ends (MDC.agrees om v).
Proof. pose proof ends_mdd_digest. unfold MDC.agrees. ends_tac. Qed.

(** Every turn takes a value away. *)
Lemma ends_drop fuel ls i vs sz : (Z.to_nat sz < fuel)%nat ∨ (length vs < fuel)%nat →
  ends (MDC.drop_values fuel ls i vs sz).
Proof.
  revert vs sz. induction fuel as [|fuel IH]; intros vs sz Hf; [lia|]. cbn [MDC.drop_values].
  apply ends_bind; [ends_tac|]. intros last E. apply of_option_Ret, zget_Some_lt in E.
  apply ends_bind; [ends_tac|]. intros [] _. apply ends_bind; [ends_tac|]. intros x _.
  apply ends_bind; [ends_tac|]. intros val _. destruct (_ && _); [|done].
  apply IH. left. unfold zlen in E. lia.
Qed.

Lemma drop_size fuel ls i vs sz vs' sz' : MDC.drop_values fuel ls i vs sz = Ret (vs', sz') → sz' ≤ sz.
Proof.
  revert vs sz. induction fuel as [|fuel IH]; intros vs sz E; [done|]. cbn [MDC.drop_values] in E.
  apply outcome_bind_Ret in E as (last & _ & E). apply outcome_bind_Ret in E as ([] & _ & E).
  apply outcome_bind_Ret in E as (x & _ & E). apply outcome_bind_Ret in E as (val & _ & E).
  destruct (_ && _); [apply IH in E; lia|]. injection E as _ <-. lia.
Qed.

Lemma ends_visit ls om m i s : ends (MDC.visit ls om m i s).
Proof.
  pose proof ends_agrees. unfold MDC.visit.
  apply ends_bind; [ends_tac|]. intros val _. apply ends_bind; [ends_tac|]. intros old _. cbn zeta.
  apply ends_bind; [ends_tac|]. intros new _. apply ends_bind; [ends_tac|]. intros matched _.
  destruct (_ || _); [|ends_tac]. apply ends_bind; [apply ends_drop; right; lia|]. intros [vs sz] _. done.
Qed.

Lemma visit_size ls om m i s s' : MDC.visit ls om m i s = Ret s' → MDC.l_size s' ≤ MDC.l_size s.
Proof.
  unfold MDC.visit. intros E. apply outcome_bind_Ret in E as (val & _ & E).
  apply outcome_bind_Ret in E as (old & _ & E). apply outcome_bind_Ret in E as (new & _ & E).
  apply outcome_bind_Ret in E as (matched & _ & E). destruct (_ || _) in E.
  - apply outcome_bind_Ret in E as ([vs sz] & E1 & E). injection E as <-. by eapply drop_size.
  - by destruct (_ && _) in E; injection E as <-.
Qed.

Lemma ends_visit_all fuel ls om m i s : (Z.to_nat (MDC.l_size s - i) < fuel)%nat →
  ends (MDC.visit_all fuel ls om m i s).
Proof.
  revert i s. induction fuel as [|fuel IH]; intros i s Hf; [lia|]. cbn [MDC.visit_all].
  destruct (MDC.l_size s <=? i) eqn:E; [done|]. zprop. apply ends_bind; [apply ends_visit|].
  intros s' Hs%visit_size. apply IH. lia.
Qed.

(** The table of stable checkpoints, which is never written. *)
Definition table_ok (x : MDC.Meta_data_cert) : Prop := MDC.last_stables x = replicate (Z.to_nat num_replicas) 0.

Lemma count_zeros n r : r ≤ 0 → count_ge r (replicate n 0) = Z.of_nat n.
Proof.
  intros Hr. induction n as [|n IH]; [done|]. cbn [replicate]. rewrite count_ge_cons, IH, decide_True by lia. lia.
Qed.

Lemma ends_K_max x : ConfigOk → table_ok x →
  ends (K_max (S (length (MDC.last_stables x))) (max_faulty + 1) (MDC.last_stables x) Seqno_max).
Proof.
  intros Hc ->. pose proof config_faulty. unfold K_max.
  assert (count_ge Seqno_max (replicate (Z.to_nat num_replicas) 0) = 0) as Hz.
  { apply count_ge_above. intros y [-> _]%elem_of_replicate. done. }
  destruct (K_max_loop_spec (S (length (replicate (Z.to_nat num_replicas) 0))) (max_faulty + 1)
    (replicate (Z.to_nat num_replicas) 0) Seqno_max (-1)) as (r & Hr & _); [..|by rewrite Hz in Hr; rewrite Hr].
  - rewrite count_zeros by lia. unfold num_replicas. lia.
  - done.
  - lia.
  - rewrite Hz, length_replicate. unfold num_replicas. lia.
  - rewrite Hz. lia.
Qed.

Lemma ends_append_vals m matched vs sz : ends (MDC.append_vals m matched vs sz).
Proof.
  pose proof ends_mdd_digest. unfold MDC.append_vals. apply ends_foldl; [|done]. intros o k Ho.
  apply ends_bind; [done|]. intros s _. unfold MDC.append_val. ends_tac.
Qed.

Lemma ends_add verify x m mine : ConfigOk → table_ok x → (∀ m, ends (verify m)) →
  ends (MDC.add verify x m mine).
Proof.
  intros Hc Hx Hv. pose proof (ends_K_max x Hc Hx). pose proof ends_append_vals.
  unfold MDC.add, MDC.add_with. cbn zeta. apply ends_bind; [ends_tac|]. intros ok _.
  destruct (negb ok); [done|]. apply ends_bind; [ends_tac|]. intros [] _. apply ends_bind; [ends_tac|].
  intros om _. destruct (match om with Some _ => _ | None => _ end); [done|].
  apply ends_bind; [ends_tac|]. intros new_ls _. destruct (_ && _); [done|].
  apply ends_bind; [apply ends_visit_all; cbn; lia|]. intros s _. apply ends_bind; [ends_tac|].
  intros [vs sz] _. done.
Qed.

Lemma add_table verify x m mine b c : MDC.add verify x m mine = Ret (b, c) → table_ok x → table_ok c.
Proof.
  unfold table_ok, MDC.add, MDC.add_with. cbn zeta. intros E Hx. apply outcome_bind_Ret in E as (ok & _ & E).
  destruct (negb ok); [by injection E as <- <-|]. apply outcome_bind_Ret in E as ([] & _ & E).
  apply outcome_bind_Ret in E as (om & _ & E).
  destruct (match om with Some _ => _ | None => _ end); [by injection E as <- <-|].
  apply outcome_bind_Ret in E as (new_ls & _ & E). destruct (_ && _); [by injection E as <- <-|].
  apply outcome_bind_Ret in E as (s & _ & E). apply outcome_bind_Ret in E as ([vs sz] & _ & E).
  by injection E as <- <-.
Qed.
End cert.
#[export] Hint Resolve ends_mdd_digest : ends.
#[export] Hint Resolve ends_find_copy ends_get_meta_data ends_get_data : ends.
#[export] Hint Resolve clear_cowb checkpoint_ending : ends.

(** ** The state manager *)
Section manager.
Context `{Config} `{World} `{Tree} `{Mpi} `{!ConfigOk} `{!TreeOk}.

Definition CI (s : Ctx) : Prop := SI (str (me s)) ∧ table_ok (cert (ftc (me s))).

Lemma on_store_ending {A} (P : A → Prop) (m : ST Store A) : ending_with SI P m → ending_with CI P (on_store m).
Proof.
  intros Hm s [Hs Ht]. unfold on_store. pose proof (Hm _ Hs) as E.
  destruct (m (str (me s))) as [[a x]|e]; [|done]. destruct E as [Hx Ha]. by split.
Qed.

Lemma cert_clear_ending : ending CI cert_clear.
Proof. apply ending_modify. intros s [Hs _]. by split. Qed.

Lemma set_cert_ending c : table_ok c → ending CI (fetch_to (set_cert c)).
Proof. intros Hc. apply ending_modify. intros s [Hs _]. by split. Qed.

Lemma ends_next_replier r : 0 < max_faulty → ends (next_replier 2 r).
Proof.
  intros Hf. pose proof config_id. cbn [next_replier].
  destruct (Z.rem (r + 1) num_replicas =? node_id) eqn:E1; [|done]. zprop. rewrite E1.
  destruct (Z.rem (node_id + 1) num_replicas =? node_id) eqn:E2; [|done]. zprop. exfalso.
  assert (0 < num_replicas) as Hn by (unfold num_replicas; lia).
  rewrite Z.rem_mod_nonneg in E2 by lia.
  assert (Z.abs (Z.rem (r + 1) num_replicas) < Z.abs num_replicas) as Hb by (apply Z.rem_bound_abs; lia).
  rewrite E1 in Hb.
  destruct (decide (node_id + 1 = num_replicas)) as [E|E].
  - rewrite E, Z_mod_same_full in E2. unfold num_replicas in E. lia.
  - rewrite Z.mod_small in E2 by lia. lia.
Qed.

Lemma ends_verify_mdd ps m : ends (verify_mdd ps m).
Proof. unfold verify_mdd, mdd_verify. ends_tac. Qed.

Lemma ends_own_digests rid l i s ls : ends (own_digests rid l i s ls).
Proof. unfold own_digests. ends_tac. Qed.

Lemma add_ending ps x m mine : table_ok x →
  ending_with CI (λ p, table_ok p.2) (lift (MDC.add (verify_mdd ps) x m mine)).
Proof.
  intros Hx. apply ending_lift.
  - apply ends_add; [done|done|apply ends_verify_mdd].
  - intros [b c] E. by eapply add_table.
Qed.

(** What [send_fetch] does when the certificate has no message of this replica. *)
Lemma own_message_ending ps x (o : outcome Meta_data_d) : ends o → table_ok x →
  ending CI (mdd ← lift o; '(_, c) ← lift (MDC.add (verify_mdd ps) x mdd true); fetch_to (set_cert c)).
Proof.
  intros Ho Hx. apply ending_bind; [by apply ending_lift|]. intros mdd.
  eapply ending_with_bind; [by apply add_ending|]. intros [b c] Hc. by apply set_cert_ending.
Qed.

#[local] Ltac manager_step := first
  [ apply own_message_ending; [ends_tac|match goal with Hs : CI _ |- _ => exact (proj2 Hs) end]
  | match goal with
    | |- ending _ cert_clear => apply cert_clear_ending
    | |- ending _ (on_store _) => apply on_store_ending
    end
  | ending_step ].
#[local] Ltac manager_tac := repeat manager_step.

Lemma send_fetch_ending b : 0 < max_faulty → ending CI (send_fetch b).
Proof.
  intros Hf. pose proof (λ r, ends_next_replier r Hf). pose proof ends_own_digests.
  unfold send_fetch, fetch_st, store. manager_tac.
Qed.

Lemma start_fetch_ending le c cd : 0 < max_faulty → ending CI (start_fetch le c cd).
Proof. intros Hf. pose proof (λ b, send_fetch_ending b Hf). unfold start_fetch. manager_tac. Qed.

(** *** The levels of a fetch *)
Definition LV (s s' : Ctx) : Prop := flevel (ftc (me s')) = flevel (ftc (me s)).
#[export] Instance LV_refl : Reflexive LV.
Proof. done. Qed.
#[export] Instance LV_trans : Transitive LV.
Proof. unfold LV. intros a b c. congruence. Qed.

Lemma LV_on_store {A} (m : ST Store A) : keeps LV (on_store m).
Proof. intros s a s' E. unfold on_store in E. destruct (m _) as [[b x]|]; [|done]. by injection E as _ <-. Qed.
Lemma LV_fetch_to f : (∀ x, flevel (f x) = flevel x) → keeps LV (fetch_to f).
Proof. intros Hf. apply keeps_modify. intros s. apply Hf. Qed.
Lemma LV_check_to f : keeps LV (check_to f).
Proof. by apply keeps_modify. Qed.
Lemma LV_queue l : keeps LV (queue l).
Proof. unfold queue, fetch_st. keeps_tac. Qed.
Lemma LV_queue_to l q : keeps LV (queue_to l q).
Proof. pose proof LV_queue. unfold queue_to. keeps_tac. by apply LV_fetch_to. Qed.
Lemma LV_pop l : keeps LV (pop l).
Proof. pose proof LV_queue. pose proof LV_queue_to. unfold pop. keeps_tac. Qed.
Lemma LV_high l : keeps LV (high l).
Proof. pose proof LV_queue. unfold high. keeps_tac. Qed.
Lemma LV_high_to l p : keeps LV (high_to l p).
Proof. pose proof LV_queue. pose proof LV_queue_to. pose proof LV_high. pose proof LV_pop. unfold high_to, push. keeps_tac. Qed.
Lemma LV_install l wp : keeps LV (install_part l wp).
Proof.
  pose proof (@LV_on_store). pose proof LV_high. pose proof LV_high_to.
  unfold install_part, raise_parent, fetch_st, assert_. keeps_tac.
Qed.

(** One step of a method whose continuation depends on the state: [R] relates the states
    before and after the step. *)
Definition post {A} (Q : A → Ctx → Prop) (m : ST Ctx A) (s : Ctx) : Prop :=
  match m s with Ret (a, s') => Q a s' | Err e => e ≠ OutOfFuel end.
Definition ends_at {A} (m : ST Ctx A) (s : Ctx) : Prop := post (λ _, CI) m s.

Lemma post_bind {A B} (R : Ctx → Ctx → Prop) Q (m : ST Ctx A) (f : A → ST Ctx B) s :
  ending CI m → keeps R m → CI s → (∀ a s', CI s' → R s s' → post Q (f a) s') → post Q (m ≫= f) s.
Proof.
  intros Hm Hk Hs Hf. unfold post, mbind, ST_bind. pose proof (Hm s Hs) as Hr.
  destruct (m s) as [[a s']|e] eqn:E; [|done]. destruct Hr as [Hs' _]. apply Hf; [done|by eapply Hk].
Qed.

Lemma post_assert {B} Q b (f : unit → ST Ctx B) s : (b = true → post Q (f tt) s) → post Q (assert_ b ≫= f) s.
Proof. destruct b; [intros Hf; by apply Hf|done]. Qed.

Lemma post_fetch_to {B} Q f (k : unit → ST Ctx B) s :
  post Q (k tt) (set_ftc (f (ftc (me s))) s) → post Q (fetch_to f ≫= k) s.
Proof. done. Qed.

Lemma post_check_to {B} Q f (k : unit → ST Ctx B) s :
  post Q (k tt) (set_chk (f (chk (me s))) s) → post Q (check_to f ≫= k) s.
Proof. done. Qed.

Lemma post_fetch_st {B} Q (k : Fetching → ST Ctx B) s : post Q (k (ftc (me s))) s → post Q (fetch_st ≫= k) s.
Proof. done. Qed.

Lemma post_check_st {B} Q (k : Checking → ST Ctx B) s : post Q (k (chk (me s))) s → post Q (check_st ≫= k) s.
Proof. done. Qed.

Lemma post_store {B} Q (k : Store → ST Ctx B) s : post Q (k (str (me s))) s → post Q (store ≫= k) s.
Proof. done. Qed.

Lemma ending_at {A} (m : ST Ctx A) s : ending CI m → CI s → ends_at m s.
Proof. intros Hm Hs. unfold ends_at, post. pose proof (Hm s Hs) as Hr. destruct (m s) as [[a s']|e]; [by destruct Hr|done]. Qed.

Lemma move_copies_ending prev : ending CI (move_copies prev).
Proof. unfold move_copies, store. manager_tac. Qed.

Lemma complete_fetch_ending c : ending CI (complete_fetch c).
Proof.
  pose proof move_copies_ending. pose proof clear_cowb. unfold complete_fetch, keep_copies, store, fetch_st. manager_tac.
Qed.

Lemma install_part_ending l wp : ending CI (install_part l wp).
Proof. unfold install_part. manager_tac. Qed.

(** Each turn moves one level up. *)
Lemma done_with_level_ends fuel s : 0 < max_faulty → CI s → (Z.to_nat (flevel (ftc (me s))) < fuel)%nat →
  ends_at (done_with_level fuel) s.
Proof.
  intros Hmf. pose proof (λ b, send_fetch_ending b Hmf). revert s.
  induction fuel as [|fuel IH]; intros s Hs Hf; [lia|]. cbn [done_with_level]. unfold ends_at.
  apply post_fetch_st. set (l := flevel (ftc (me s)) - 1).
  apply (post_bind LV _ (queue_empty _) _ s); [manager_tac|apply keeps_bind; [apply _|apply LV_queue|intros; apply keeps_ret, _]|done|].
  intros e s1 Hs1 E1. apply post_assert. intros _. apply post_assert. intros Hpos. zprop.
  apply post_fetch_to. set (s2 := set_ftc (set_flevel l (ftc (me s1))) s1).
  assert (CI s2) as Hs2 by done. assert (flevel (ftc (me s2)) = l) as E2 by done.
  apply (post_bind LV); [manager_tac|apply LV_high|done|]. intros wp0 s3 Hs3 E3.
  apply (post_bind LV); [manager_tac|apply LV_high_to|done|]. intros [] s4 Hs4 E4.
  apply post_assert. intros _. destruct (_ <=? _); [|apply ending_at; [manager_tac|done]].
  apply (post_bind LV); [apply install_part_ending|apply LV_install|done|]. intros [] s5 Hs5 E5.
  destruct (l =? 0); [apply ending_at; [apply complete_fetch_ending|done]|].
  apply (post_bind LV); [manager_tac|apply LV_pop|done|]. intros [] s6 Hs6 E6.
  apply (post_bind LV); [manager_tac|apply keeps_bind; [apply _|apply LV_queue|intros; apply keeps_ret, _]|done|].
  intros e' s7 Hs7 E7. destruct e'; [|apply ending_at; [manager_tac|done]].
  apply IH; [done|]. unfold LV in *. rewrite E7, E6, E5, E4, E3, E2. unfold l in *. lia.
Qed.

Lemma level_done_ending : 0 < max_faulty → ending CI level_done.
Proof. intros Hf s Hs. pose proof (done_with_level_ends _ s Hf Hs (Nat.lt_succ_diag_r _)) as E.
  unfold ends_at, post in E. unfold level_done, fetch_st, mbind, ST_bind, gets. by destruct (done_with_level _ s) as [[[] s']|].
Qed.

(** *** The handlers *)
Lemma keep_block_ending i : ending CI (keep_block i).
Proof.
  unfold keep_block, store, fetch_st. apply (ending_with_bind _ _ _ _ _ (ending_gets _ _)). intros s0 (x & Hx & ->).
  apply (ending_with_bind _ BM.wf).
  - apply ending_lift; [ends_tac|]. intros b Hb. eapply set_wf; [apply Hx|done].
  - intros b Hb. apply ending_bind; [|manager_tac]. apply on_store_ending, ending_modify. by intros s Hs.
Qed.

Lemma install_block_ending i m wp : ending CI (install_block i m wp).
Proof. pose proof keep_block_ending. unfold install_block. manager_tac. Qed.

Lemma handle_data_ending m : 0 < max_faulty → ending CI (handle_data m).
Proof.
  intros Hf. pose proof (λ b, send_fetch_ending b Hf). pose proof (level_done_ending Hf).
  pose proof install_block_ending. unfold handle_data. manager_tac.
Qed.

Lemma ends_iter_until stop m l k : ends (iter_until stop m l k).
Proof. revert k. induction l as [|i l IH]; intros k; cbn [iter_until]; ends_tac. Qed.

Lemma ends_entries_ok mn mx seen parts l : ends (entries_ok mn mx seen parts l).
Proof. revert seen. induction l as [|k l IH]; intros seen; cbn [entries_ok]; ends_tac. Qed.

Lemma handle_meta_data_ending m : 0 < max_faulty → ending CI (handle_meta_data m).
Proof.
  intros Hf. pose proof (λ b, send_fetch_ending b Hf). pose proof (level_done_ending Hf).
  pose proof ends_iter_until. pose proof ends_entries_ok. unfold handle_meta_data. manager_tac.
Qed.

Lemma certified_ending wp cc cd : 0 < max_faulty → ending CI (certified wp cc cd).
Proof.
  intros Hf. pose proof (λ b, send_fetch_ending b Hf). pose proof (level_done_ending Hf).
  unfold certified. manager_tac.
Qed.

Lemma handle_meta_data_d_ending m : 0 < max_faulty → ending CI (handle_meta_data_d m).
Proof.
  intros Hf. pose proof (λ wp cc cd, certified_ending wp cc cd Hf).
  unfold handle_meta_data_d, fetch_st.
  apply ending_bind; [manager_tac|]. intros crid. apply (ending_with_bind _ _ _ _ _ (ending_gets _ _)).
  intros f (s0 & Hs0 & ->). destruct (_ && _); [|manager_tac]. apply ending_bind; [manager_tac|]. intros wp.
  apply ending_bind; [manager_tac|]. intros s. destruct (_ && _); [|manager_tac].
  apply ending_bind; [manager_tac|]. intros keys. eapply ending_with_bind; [apply add_ending, Hs0|].
  intros [added c] Hc. apply ending_bind; [by apply set_cert_ending|]. intros _. manager_tac.
Qed.

Lemma handle_fetch_ending m ls : ending CI (handle_fetch m ls).
Proof. unfold handle_fetch. manager_tac. Qed.

Lemma start_check_ending le : 0 < max_faulty → ending CI (start_check le).
Proof. intros Hf. pose proof (λ le c cd, start_fetch_ending le c cd Hf). unfold start_check. manager_tac. Qed.

(** *** The check of the state *)
Definition UC (s s' : Ctx) : Prop := to_check (chk (me s')) = to_check (chk (me s)).
#[export] Instance UC_refl : Reflexive UC.
Proof. done. Qed.
#[export] Instance UC_trans : Transitive UC.
Proof. unfold UC. intros a b c. congruence. Qed.

Lemma check_data_ending i : ending SI (check_data w_digest_of i).
Proof. unfold check_data. ending_tac. Qed.

(** The check does not change its fields except where it says so. *)
Definition CK (s s' : Ctx) : Prop := chk (me s') = chk (me s).

Lemma CK_on_store {A} (m : ST Store A) : keeps CK (on_store m).
Proof. intros s a s' E. unfold on_store in E. destruct (m _) as [[b x]|]; [|done]. by injection E as _ <-. Qed.

Lemma post_weaken {A} (Q Q' : A → Ctx → Prop) (m : ST Ctx A) s : (∀ a s', Q a s' → Q' a s') → post Q m s → post Q' m s.
Proof. unfold post. intros HQ. destruct (m s) as [[a s']|]; [apply HQ|done]. Qed.

(** Each turn checks one block. *)
Lemma check_blocks_ends fuel has mx count s : CI s → (Z.to_nat (mx - lchecked (chk (me s))) < fuel)%nat →
  post (λ _ s', CI s' ∧ UC s s') (check_blocks fuel has mx count) s.
Proof.
  pose proof check_data_ending. revert count s. induction fuel as [|fuel IH]; intros count s Hs Hf; [lia|].
  cbn [check_blocks]. apply post_check_st. destruct (mx <=? lchecked (chk (me s))) eqn:E; [done|].
  destruct (_ && _); [done|]. zprop.
  apply (post_bind CK); [manager_tac|apply CK_on_store|done|]. intros p s1 Hs1 E1.
  assert (∀ b : bool, keeps CK (if b then mret true else on_store (check_data w_digest_of (lchecked (chk (me s)))))) as Hk.
  { intros []; [by intros s2 a s3 [= _ <-]|apply CK_on_store]. }
  apply (post_bind CK); [manager_tac|apply Hk|done|]. intros ok s2 Hs2 E2. apply post_assert. intros _.
  apply post_check_to. unfold CK in *. eapply post_weaken; [|apply IH; [done|]].
  - intros a s' [Hs' E']. split; [done|]. unfold UC in *. rewrite E'. cbn. by rewrite E2, E1.
  - cbn. lia.
Qed.

Lemma drop_first_length q x l : q = x :: l → length (drop_first q) = length l.
Proof.
  intros ->. unfold drop_first. destruct (last (x :: l)) as [y|] eqn:E; [|by apply last_None in E].
  rewrite length_take. unfold zset. case_decide; [|lia]. rewrite length_insert. cbn. lia.
Qed.

Lemma check_parts_ends fuel has count s : CI s → (length (to_check (chk (me s))) < fuel)%nat →
  ends_at (check_parts fuel has count) s.
Proof.
  revert count s. induction fuel as [|fuel IH]; intros count s Hs Hf; [lia|]. unfold ends_at.
  cbn [check_parts]. apply post_check_st. destruct (to_check (chk (me s))) as [|cp l] eqn:E; [done|].
  apply post_store, post_check_to.
  set (mn := cp_index cp * blocks (cp_level cp)). set (mx := Z.min (mn + blocks (cp_level cp)) (nb (str (me s)))).
  set (s1 := set_chk _ s). assert (CI s1) as Hs1 by done.
  assert (to_check (chk (me s1)) = cp :: l) as E1.
  { rewrite <- E. cbn. by destruct (_ || _). }
  assert (Z.to_nat (mx - lchecked (chk (me s1))) < S (Z.to_nat (mx - mn)))%nat as Hl.
  { cbn. destruct (_ || _) eqn:Eb; cbn; zprop; lia. }
  pose proof (check_blocks_ends _ has mx count s1 Hs1 Hl) as Hc. unfold post in Hc |- *.
  unfold mbind, ST_bind. destruct (check_blocks _ has mx count s1) as [[[c|] s2]|e]; [|by destruct Hc|done].
  destruct Hc as [Hs2 E2]. apply IH; [done|]. cbn. unfold UC in E2.
  rewrite E2. rewrite (drop_first_length _ cp l E1). cbn in Hf. lia.
Qed.

Lemma check_state_ending has : ending CI (check_state has).
Proof.
  assert (∀ s, CI s → ends_at (check_state has) s) as G.
  { intros s Hs. unfold check_state, ends_at. apply post_check_st.
    pose proof (check_parts_ends _ has 1 s Hs (Nat.lt_succ_diag_r _)) as Hc. unfold ends_at, post in Hc |- *.
    unfold mbind, ST_bind. destruct (check_parts _ has 1 s) as [[b s1]|e]; [|done].
    assert (ending CI (f ← fetch_st; when (b && negb (fetching f))
      (_ ← check_to (λ k, set_refetch 0 (set_checking false k)); tell SEndRecovery))) as Hm by manager_tac.
    apply (ending_at _ s1 Hm Hc). }
  intros s Hs. specialize (G s Hs). unfold ends_at, post in G. by destruct (check_state has s) as [[[] s']|].
Qed.

(** *** Any sequence of calls *)
Inductive call :=
| FullDigest | Write (i : Z) (b : Block)
| Modify1 (off : Z) | Modify2 (off size : Z) | Checkpoint (n : Z) | Rollback | Discard (n le : Z)
| EnforceBound (b ks : Z) (corrupt : bool)
| StartFetch (le c : Z) (cd : option Dig.Digest) | SendFetch (change : bool) | StartCheck (le : Z)
| OnFetch (m : Fetch) (ls : Z) | OnData (m : Data) | OnMetaData (m : Meta_data) | OnMetaDataD (m : Meta_data_d)
| CheckState (has_messages : Z → bool) | MarkStale.

(** What the replica and the service call, with whatever arguments. *)
Definition perform (x : call) : ST Ctx unit :=
  match x with
  | FullDigest => on_store (compute_full_digest w_digest_of)
  | Write i b => on_store (State.block_to i b)
  | Modify1 off => on_store (modify1 off)
  | Modify2 off size => on_store (modify2 off size)
  | Checkpoint n => on_store (checkpoint w_digest_of n)
  | Rollback => _ ← on_store (s ← get; rollback false); skip
  | Discard n le => on_store (discard_checkpoint w_digest_of n le)
  | EnforceBound b ks corrupt => _ ← on_store (enforce_bound b ks corrupt); skip
  | StartFetch le c cd => start_fetch le c cd
  | SendFetch b => send_fetch b
  | StartCheck le => start_check le
  | OnFetch m ls => _ ← handle_fetch m ls; skip
  | OnData m => handle_data m
  | OnMetaData m => handle_meta_data m
  | OnMetaDataD m => handle_meta_data_d m
  | CheckState has => check_state has
  | MarkStale => mark_stale
  end.

Lemma rollback_ending f : ending SI (rollback f).
Proof.
  pose proof clear_cowb. unfold rollback. apply (ending_with_bind _ _ _ _ _ (ending_get _)). intros s0 Hs.
  apply ending_bind; [ending_tac|]. intros _. apply ending_bind; [ending_tac|]. intros r.
  apply ending_bind; [apply ending_lift; [by apply ends_iter|done]|]. intros idx. ending_tac.
Qed.

Lemma ends_clear_slots {A} (f : A → A) e js : ends (clear_slots f e js).
Proof. unfold clear_slots, clear_slot. ends_tac. Qed.

Lemma cow_single_ending i : ending SI (cow_single i).
Proof.
  unfold cow_single. apply (ending_with_bind _ _ _ _ _ (ending_get _)). intros s0 Hs.
  do 4 (apply ending_bind; [ending_tac|intros ?]). apply (ending_with_bind _ BM.wf).
  - apply ending_lift; [ends_tac|]. intros b Hb. by eapply set_wf.
  - intros b Hb. by apply ending_modify.
Qed.

Lemma perform_ending x : 0 < max_faulty → ending CI (perform x).
Proof.
  intros Hf. pose proof (@ends_clear_slots CRec.Checkpoint_rec). pose proof cow_single_ending. pose proof rollback_ending.
  pose proof full_digest_ending.
  destruct x; cbn [perform].
  1-8: manager_tac.
  - by apply start_fetch_ending.
  - by apply send_fetch_ending.
  - by apply start_check_ending.
  - apply ending_bind; [apply handle_fetch_ending|]. manager_tac.
  - by apply handle_data_ending.
  - by apply handle_meta_data_ending.
  - by apply handle_meta_data_d_ending.
  - apply check_state_ending.
  - apply cert_clear_ending.
Qed.
End manager.

(** C32: The loops of the state manager end: from the state that the constructor builds on any
    memory that a bitmap can cover, no sequence of calls, with any arguments and messages, reaches
    a loop that its fuel cuts.  The group has more than one replica. *)
Theorem state_manager_terminates `{Config} `{World} `{Tree} `{Mpi} (Hc : ConfigOk) (Ht : TreeOk)
    (memory : list Block) (n : NodeState) (calls : list call) :
  0 < max_faulty → zlen memory ≤ 2 ^ 32 - 64 →
  for_each calls perform (mkCtx (Xfer.make memory) n []) ≠ Err OutOfFuel.
Proof.
  intros Hf Hm E. assert (CI (mkCtx (Xfer.make memory) n [])) as Hs.
  { split; [|done]. apply BM.make_spec. pose proof (zlen_nonneg memory). lia. }
  assert (ending CI (for_each calls perform)) as G.
  { apply ending_for_each. intros x _. by apply perform_ending. }
  specialize (G _ Hs). by rewrite E in G.
Qed.

(** ** A run
    Replica 0 and the state of the others, in which the second block was written before
    checkpoint 4. *)
#[local] Existing Instance SProps.tree.
#[local] Existing Instance SProps.mpi.
#[local] Instance sample_world : World := SampleNode.world.

Definition conf (i : Z) : Config := SampleNode.config i.
Definition sample_ctx (i : Z) : Ctx :=
  mkCtx (Xfer.make (H := conf i) [[1]; [2]; [3]; [4]]) (mkNode Auth.sample_principals None 0 0 0 0 0) [].

Definition run (i : Z) (l : list call) (s : Ctx) : Ctx :=
  match for_each l (perform (H := conf i)) s with Ret (_, s) => s | Err _ => s end.

Definition source : Ctx := run 1 [FullDigest; Modify2 4097 1; Write 1 [20]; Checkpoint 4] (sample_ctx 1).

(** What replica [i] answers to the last Fetch message of [s]. *)
Definition answer (i : Z) (s : Ctx) : list call :=
  match last (fx s) with
  | Some (SSend (MFetch m) _) =>
      match last (fx (run i [OnFetch m 4] source)) with
      | Some (SSend (MData a) _) => [OnData a]
      | Some (SSend (MMetaData a) _) => [OnMetaData a]
      | Some (SSend (MMetaDataD a) _) => [OnMetaDataD a]
      | _ => []
      end
  | _ => []
  end.

(** [l] and then what replica 1 answers, [k] times. *)
Fixpoint session (k : nat) (l : list call) : list call :=
  match k with O => l | S k => session k (l ++ answer 1 (run 0 l (sample_ctx 0))) end.

Definition target : Dig.Digest :=
  match at2 (ptree (str (me source))) 0 0 with Some p => d p | None => Dig.zero end.

(** Replica 0 fetches the root, the changed partition and the block from replica 1, and then
    starts to check its state: the others certify the root, and it looks at every block. *)
Definition fetch_calls : list call := session 3 [FullDigest; StartFetch 0 4 (Some target)].
Definition check_calls : list call := fetch_calls ++ [Discard 4 4; StartCheck 4].
Definition sample_calls : list call :=
  let s := run 0 check_calls (sample_ctx 0) in
  check_calls ++ answer 1 s ++ answer 2 s ++ answer 3 s ++ [CheckState (λ _, false)].

(** The level of a fetch, the number of a new state, or the end of the recovery. *)
Definition summary (x : state_effect) : option Z * option Z :=
  match x with SSend (MFetch m) _ => (Some (f_level m), None) | SNewState n => (None, Some n) | _ => (None, None) end.

Definition sample_result : option (list (option Z * option Z) * list Block) :=
  match for_each sample_calls (perform (H := conf 0)) (sample_ctx 0) with
  | Ret (_, s) => Some (summary <$> fx s, mem (str (me s)))
  | Err _ => None
  end.

Lemma state_manager_terminates_witness :
  length sample_calls = 11%nat ∧
  sample_result = Some ([(Some 0, None); (Some 1, None); (Some 2, None); (None, Some 4);
    (Some 0, None); (None, Some 4); (None, None)], [[1]; [20]; [3]; [4]]) ∧
  for_each sample_calls (perform (H := conf 0)) (sample_ctx 0) ≠ Err OutOfFuel.
Proof.
  split; [vm_compute; reflexivity|]. split; [vm_compute; reflexivity|].
  exact (state_manager_terminates (H := conf 0) (SampleNode.config_ok 0 ltac:(lia)) SProps.tree_ok [[1]; [2]; [3]; [4]]
    (mkNode Auth.sample_principals None 0 0 0 0 0) sample_calls ltac:(done) ltac:(done)).
Defined.
End Term.
