(* ===== verification/PrePrepareWalk.v ===== *)
(** * PrePrepareWalk: the walk over the requests of a pre-prepare that was received

    The requests of a pre-prepare are found by walking from header to header with the sizes
    that the sender wrote (PrePrepare.v).  Whatever the bytes are, the walk of [verify] ends,
    and the iterator, which checks nothing, ends on every message that [verify] accepts. *)
From S2P Require Import Prelude Node Messages ReqQueue PrePrepare StateMonad Ends.
Import Auth Req PP.

Module PPW.
Section walk.
Context (hmac_md : list Z → list Z → list Z) (char_signed : bool).
Context (digest_of : list Z → Dig.Digest).
Context (sig_size : Z → Z) (pk_verify : Z → list Z → list Z → bool).
Context `{Config}.

Lemma ends_at_ b : ends (at_ b).
Proof. unfold at_. ends_tac. Qed.

Lemma ends_convert off b n : ends (convert off b n).
Proof. pose proof ends_at_. unfold convert. ends_tac. Qed.

Lemma ends_verify_request q : ends (Req.verify digest_of sig_size pk_verify q).
Proof. unfold Req.verify. ends_tac. Qed.

(** A converted request is the one at these bytes, and its header is not shorter than the
    fixed part. *)
Lemma convert_at off b n q : convert off b n = Ret (Some q) → at_ b = Ret q ∧ 56 ≤ Req.size q.
Proof.
  unfold convert. destruct (n <? 8); [done|]. intros E. apply outcome_bind_Ret in E as ([] & _ & E).
  destruct (Msg.convert _ _ _ _ _) eqn:Ec; [|done]. apply outcome_bind_Ret in E as (q' & Eq & E).
  injection E as <-. split; [done|]. unfold at_ in Eq. apply outcome_bind_Ret in Eq as ([] & _ & Eq).
  injection Eq as <-. cbn [Req.size]. unfold Msg.convert, Msg.has_tag in Ec. cbn [Msg.size Msg.tag Msg.max_size] in Ec.
  destruct (n <? 8); [done|]. destruct (negb (Msg.ALIGNED off)); [done|]. change (-1 >=? 0) with false in Ec.
  cbn [andb] in Ec. unfold sizeof_Request_rep in Ec. zprop. done.
Qed.

(** Each request moves the walk by its size. *)
Lemma ends_walk fuel accept m next ds : (∀ q, ends (accept q)) → (Z.to_nat (rset_size m - next) ≤ fuel)%nat →
  ends (walk fuel accept m next ds).
Proof.
  intros Ha. revert next ds. induction fuel as [|fuel IH]; intros next ds Hf; cbn [walk];
    (destruct (rset_size m <=? next) eqn:E; [done|]); zprop; [lia|].
  apply ends_bind; [apply ends_convert|]. intros [q|] Eq; [|done].
  destruct (convert_at _ _ _ _ Eq) as [_ Hq].
  apply ends_bind; [apply Ha|]. intros [] _; [apply IH; lia|done].
Qed.

(** The iterator finds the requests whose digests the walk has collected. *)
Lemma walk_requests fuel accept m next ds ds' : walk fuel accept m next ds = Ret (Some ds') →
  ∃ qs, requests fuel m next = Ret qs ∧ ds' = ds ++ (od <$> qs) ∧ Forall (λ q, accept q = Ret true) qs.
Proof.
  revert next ds. induction fuel as [|fuel IH]; intros next ds E; cbn [walk requests] in *;
    (destruct (rset_size m <=? next); [injection E as <-; exists []; by rewrite app_nil_r|]); [done|].
  apply outcome_bind_Ret in E as ([q|] & Eq & E); [|done]. destruct (convert_at _ _ _ _ Eq) as [Hq _].
  apply outcome_bind_Ret in E as ([] & Ha & E); [|done].
  destruct (IH _ _ E) as (qs & Hr & -> & Hqs). exists (q :: qs). rewrite Hq. cbn [mbind outcome_bind].
  rewrite Hr. cbn [mbind outcome_bind]. split; [done|]. split; [by rewrite <- app_assoc|]. by constructor.
Qed.

Lemma ends_accept mode hr q : (∀ c x, ends (hr c x)) → ends (accept_request digest_of sig_size pk_verify mode hr q).
Proof. intros Hh. pose proof ends_verify_request. unfold accept_request. ends_tac. Qed.
End walk.

(** C33: Whatever bytes a pre-prepare has, [verify] (in each of its modes) and [check_digest] end.
    If [verify] accepts the message, the iterator, which checks nothing, ends on it and yields
    requests each of which was accepted, and whose claimed digests with the choices give the
    digest of the batch. *)
Theorem preprepare_walks_end `{Config} hmac_md (char_signed : bool) digest_of sig_size pk_verify ps primary_of
    (has_req : Z → Dig.Digest → outcome bool) (mode : Z) (m : Pre_prepare) :
  (∀ c d, has_req c d ≠ Err OutOfFuel) →
  let v := verify hmac_md char_signed digest_of sig_size pk_verify ps primary_of has_req mode m in
  v ≠ Err OutOfFuel ∧ check_digest digest_of primary_of m ≠ Err OutOfFuel ∧
  (v = Ret true → ∃ qs nd, Requests_iter m = Ret qs ∧
     Forall (λ q, accept_request digest_of sig_size pk_verify mode has_req q = Ret true) qs ∧
     digest m = batch_digest digest_of (od <$> qs) nd).
Proof.
  intros Hh v. split; [|split].
  - pose proof (λ q, ends_accept digest_of sig_size pk_verify mode has_req q Hh) as Ha. subst v. unfold verify. cbn zeta.
    destruct (_ <=? _); [|done]. apply ends_bind; [apply ends_walk; [done|unfold walk_fuel; lia]|].
    intros [ds|] _; [|done]. ends_tac.
  - unfold check_digest. cbn zeta. destruct (_ <=? _); [|done].
    apply ends_bind; [apply ends_walk; [done|unfold walk_fuel; lia]|]. intros [ds|] _; [|done]. ends_tac.
  - subst v. unfold verify. cbn zeta. destruct (_ <=? _); [|done]. intros E.
    apply outcome_bind_Ret in E as ([ds|] & Ew & E); [|done]. apply outcome_bind_Ret in E as (o & _ & E).
    apply outcome_bind_Ret in E as (nd & _ & E). destruct (Dig.operator_eq _ (digest m)) eqn:Ed; [|done].
    apply Dig.operator_eq_spec in Ed. destruct (walk_requests _ _ _ _ _ _ Ew) as (qs & Hq & -> & Hacc).
    exists qs, nd. split; [done|]. split; [done|]. by rewrite <- Ed.
Qed.

Lemma preprepare_walks_end_witness :
  let c2 := default_config 1 2 in
  let v := verify (H := c2) sample_md true sample_digest_of (λ _, 8) sample_pk sample_principals (λ _, 1)
             (λ _ _, Ret false) 0 sample_m in
  v = Ret true ∧ v ≠ Err OutOfFuel ∧ check_digest (H := c2) sample_digest_of (λ _, 1) sample_m ≠ Err OutOfFuel ∧
  (v = Ret true → ∃ qs nd, Requests_iter sample_m = Ret qs ∧
     Forall (λ q, accept_request (H := c2) sample_digest_of (λ _, 8) sample_pk 0 (λ _ _, Ret false) q = Ret true) qs ∧
     digest sample_m = batch_digest sample_digest_of (od <$> qs) nd).
Proof.
  intros c2 v. split; [vm_compute; reflexivity|].
  apply (preprepare_walks_end (H := c2) sample_md true sample_digest_of (λ _, 8) sample_pk sample_principals
    (λ _, 1) (λ _ _, Ret false) 0 sample_m). done.
Defined.
End PPW.
