(* ===== verification/NewView.v ===== *)
(** * New_view: the message with which a primary starts its view
    (src/src/New_view.{h,cc})

    It names the view-changes that the new view is built of, by their digests, and for
    every sequence number between [min] and [max] the replica whose view-change the
    primary picked the checkpoint or the request from. *)
From S2P Require Import Prelude Node Certificate Messages PrePrepare World.
Import Auth.

Module NV.
Section new_view.
Context `{Config} `{World}.

(** [vcs] is the array [vc_info]; [picked] holds the [char]s behind it, as far as they are
    stored; [auth] is the authenticator. *)
Record New_view := mkNv {
  extra : Z; size : Z; view : Z; nmin : Z; nmax : Z;
  vcs : list Dig.Digest; picked : list Z; auth : list Z;
}.

Definition New_view_tag : Z := 9.
Definition sizeof_New_view_rep : Z := 32.
Definition max_new_view_size : Z := sizeof_New_view_rep + Max_num_replicas * 32 + max_out + 32 * (Max_num_replicas - 1).

(** [New_view(View)], in cleared storage. *)
Definition make (v : Z) : New_view :=
  mkNv 0 (sizeof_New_view_rep + num_replicas * 32) v (-1) (-1)
    (replicate (Z.to_nat num_replicas) Dig.zero) (replicate (Z.to_nat (max_out + 1)) 0) [].

Definition id (primary_of : Z → Z) (m : New_view) : Z := primary_of (view m).

Definition set_vcs (m : New_view) (l : list Dig.Digest) : New_view :=
  mkNv (extra m) (size m) (view m) (nmin m) (nmax m) l (picked m) (auth m).
Definition set_picked (m : New_view) (l : list Z) : New_view :=
  mkNv (extra m) (size m) (view m) (nmin m) (nmax m) (vcs m) l (auth m).
Definition set_bounds (m : New_view) (lo hi : Z) : New_view :=
  mkNv (extra m) (size m) (view m) lo hi (vcs m) (picked m) (auth m).
Definition set_auth (m : New_view) (sz : Z) (a : list Z) : New_view :=
  mkNv (extra m) sz (view m) (nmin m) (nmax m) (vcs m) (picked m) a.

Definition add_view_change (m : New_view) (i : Z) (d : Dig.Digest) : outcome New_view :=
  _ ← th_assert (is_replica i);
  old ← of_option Undefined (zget (vcs m) i);
  _ ← th_assert (Dig.operator_eq old Dig.zero);
  Ret (set_vcs m (zset (vcs m) i d)).

Definition set_min (m : New_view) (n : Z) : outcome New_view :=
  _ ← th_assert (nmin m =? -1); Ret (set_bounds m n (nmax m)).

Definition set_max (m : New_view) (n : Z) : outcome New_view :=
  _ ← th_assert (0 <=? nmin m);
  let m := set_bounds m (nmin m) n in
  _ ← th_assert ((nmin m <=? n) && (n - nmin m <=? max_out + 1));
  Ret m.

Definition pick (m : New_view) (i n : Z) : outcome New_view :=
  _ ← th_assert (0 <=? nmin m);
  _ ← th_assert (is_replica i);
  d ← of_option Undefined (zget (vcs m) i);
  _ ← th_assert (negb (Dig.operator_eq d Dig.zero));
  _ ← th_assert ((nmin m <=? n) && (n <=? nmin m + max_out));
  _ ← of_option Undefined (zget (picked m) (n - nmin m));
  Ret (set_picked m (zset (picked m) (n - nmin m) (wrapS 8 i))).

(** [view_change(int, Digest&)] checks the identifier, [view_change(int)] does not. *)
Definition view_change_digest (m : New_view) (i : Z) : outcome (option Dig.Digest) :=
  if (i <? 0) || (num_replicas <=? i) then Ret None
  else
    d ← of_option Undefined (zget (vcs m) i);
    Ret (if Dig.is_zero d then None else Some d).

Definition view_change (m : New_view) (i : Z) : outcome bool :=
  d ← of_option Undefined (zget (vcs m) i); Ret (negb (Dig.is_zero d)).

Definition which_picked (m : New_view) (n : Z) : outcome Z :=
  _ ← th_assert ((nmin m <=? n) && (n <? nmax m));
  of_option Undefined (zget (picked m) (n - nmin m)).

(** *** Authentication *)
Definition body_size (m : New_view) : Z := to_int (sizeof_New_view_rep + 32 * num_replicas + nmax m - nmin m).

Definition body_bytes (m : New_view) : list Z :=
  Msg.header_bytes New_view_tag (extra m) (size m) ++ Msg.le 8 (view m) ++ Msg.le 8 (nmin m) ++ Msg.le 8 (nmax m) ++
  (vcs m ≫= Dig.bytes_of) ++ (take (Z.to_nat (nmax m - nmin m)) (picked m) ≫= Msg.le 1).

Definition re_authenticate (k : keys) (m : New_view) : outcome New_view :=
  _ ← th_assert (auth_size (-1) <=? to_u64 (max_new_view_size - body_size m));
  let m := set_auth m (Msg.ALIGNED_SIZE (body_size m + auth_size (-1))) [] in
  a ← gen_auth w_hmac_md (principals k) (body_bytes m) false;
  Ret (set_auth m (size m) a).

(** Every picked entry names a replica whose view-change is in the message. *)
Fixpoint picked_ok (m : New_view) (l : list Z) : outcome bool :=
  match l with
  | [] => Ret true
  | i :: l =>
      vci ← of_option Undefined (zget (picked m) i);
      if negb (is_replica vci) then Ret false
      else b ← view_change m vci; if (b : bool) then picked_ok m l else Ret false
  end.

Definition verify (k : keys) (m : New_view) : outcome bool :=
  if (view m <=? 0) || (nmin m <? 0) || (nmax m <? 0) || (nmax m <? nmin m) || (max_out + 1 <? nmax m - nmin m)
  then Ret false
  else
    ok ← picked_ok m (seqZ 0 (nmax m - nmin m));
    if negb ok then Ret false
    else if to_u64 (PP.Max_message_size - body_size m) <? auth_size (id (primary_of k) m) then Ret false
    else verify_auth w_hmac_md w_char_signed (principals k) (id (primary_of k) m) (body_bytes m) true (auth m).
End new_view.
End NV.
