(* ===== verification/NVInfo.v ===== *)
(** * NV_info: the decision on a new view (src/src/NV_info.{h,cc})

    One object per primary collects the new-view message of its view and the
    view-changes that the message names.  The primary decides with it which checkpoint
    and which requests its view starts with; a backup checks that decision, and both
    wait until the pre-prepares of the chosen requests are known.

    The methods are computations on the object and the effects that they have on the
    replica, which follow the method (World.v).  The view information that owns the
    object (View_info) is used through its two functions on the log of requests. *)
From S2P Require Import Prelude Node Bitmap KMax Certificate Messages ReqQueue PrePrepare ViewChange StateMonad World.
From S2P Require Import NewView.
Import Auth.
#[local] Existing Instance Req.request_msg.

Module NVI.
Section nv_info.
Context `{Config} `{World} {msg : Type}.

(** ** The object *)
Record VC_info := mkVcInfo { vc : option VC.View_change; ack_count : Z; ack_reps : BM.Bitmap; req_sum : bool }.

Record Ckpt_sum := mkCkptSum { c_n : Z; c_d : Dig.Digest; c_proofs : Z; c_le : Z; c_max : Z; c_id : Z }.

Record Req_sum := mkReqSum {
  r_v : Z; r_d : Dig.Digest; r_proofs : Z; r_pproofs : Z; r_reps : BM.Bitmap;
  r_pi : option PP.Pre_prepare;           (* Pre_prepare_info *)
  r_le : Z; r_id : Z;
}.

Record NV_info := mkNvInfo {
  v : Z; nv : option NV.New_view; vc_target : Z; vc_cur : Z; vcs : list VC_info;
  ckpts : list Ckpt_sum; chosen_ckpt : Z; min : Z; max : Z; base : Z;
  reqs : list (list Req_sum); comp_reqs : list Z; n_complete : Z;
  is_complete : bool; nv_sent : Z;
}.

Definition empty_vc : VC_info := mkVcInfo None 0 (BM.make num_replicas false) false.

(** The constructor leaves [min] open; nothing reads it before it is set. *)
Definition make : NV_info :=
  mkNvInfo 0 None 0 0 (replicate (Z.to_nat num_replicas) empty_vc) [] (-1) (-1) (-1) (-1) [] [] 0 false 0.

Definition set_msgs (s : NV_info) (v' : Z) nv' target cur vcs' : NV_info :=
  mkNvInfo v' nv' target cur vcs' (ckpts s) (chosen_ckpt s) (min s) (max s) (base s) (reqs s) (comp_reqs s)
    (n_complete s) (is_complete s) (nv_sent s).
Definition set_nv (s : NV_info) nv' : NV_info := set_msgs s (v s) nv' (vc_target s) (vc_cur s) (vcs s).
Definition set_vcs (s : NV_info) l : NV_info := set_msgs s (v s) (nv s) (vc_target s) (vc_cur s) l.
Definition set_ckpts (s : NV_info) l : NV_info :=
  mkNvInfo (v s) (nv s) (vc_target s) (vc_cur s) (vcs s) l (chosen_ckpt s) (min s) (max s) (base s) (reqs s) (comp_reqs s)
    (n_complete s) (is_complete s) (nv_sent s).
Definition set_chosen (s : NV_info) i lo hi b : NV_info :=
  mkNvInfo (v s) (nv s) (vc_target s) (vc_cur s) (vcs s) (ckpts s) i lo hi b (reqs s) (comp_reqs s)
    (n_complete s) (is_complete s) (nv_sent s).
Definition set_reqs (s : NV_info) l c n : NV_info :=
  mkNvInfo (v s) (nv s) (vc_target s) (vc_cur s) (vcs s) (ckpts s) (chosen_ckpt s) (min s) (max s) (base s) l c
    n (is_complete s) (nv_sent s).
Definition set_complete (s : NV_info) b : NV_info :=
  mkNvInfo (v s) (nv s) (vc_target s) (vc_cur s) (vcs s) (ckpts s) (chosen_ckpt s) (min s) (max s) (base s) (reqs s)
    (comp_reqs s) (n_complete s) b (nv_sent s).
Definition set_sent (s : NV_info) t : NV_info :=
  mkNvInfo (v s) (nv s) (vc_target s) (vc_cur s) (vcs s) (ckpts s) (chosen_ckpt s) (min s) (max s) (base s) (reqs s)
    (comp_reqs s) (n_complete s) (is_complete s) t.

(** The object and its effects so far. *)
Record St := mkSt { me : NV_info; fx : list (vi_effect msg) }.

#[local] Abbreviation M := (ST St).

Definition self : ST St NV_info := gets me.
Definition update (f : NV_info → NV_info) : ST St unit := modify (λ s, mkSt (f (me s)) (fx s)).
Definition effect (x : vi_effect msg) : ST St unit := modify (λ s, mkSt (me s) (fx s ++ [x])).

(** [array[index]] of an [Array], whose index is an [int]. *)
Definition at_ {A} (l : list A) (i : Z) : outcome A := of_option AssertFail (zget l (to_int i)).

Definition message : M NV.New_view := s ← self; lift (of_option Undefined (nv s)).
Definition change_message (f : NV.New_view → outcome NV.New_view) : M unit :=
  m ← message; m ← lift (f m); update (λ s, set_nv s (Some m)).

Definition vc_at (i : Z) : M VC_info := s ← self; lift (at_ (vcs s) i).
Definition vc_to (i : Z) (x : VC_info) : M unit := update (λ s, set_vcs s (zset (vcs s) (to_int i) x)).

(** [vcs[i].vc->...] *)
Definition stored_vc (i : Z) : M VC.View_change := x ← vc_at i; lift (of_option Undefined (vc x)).

Definition req_at (i j : Z) : M Req_sum :=
  s ← self; l ← lift (at_ (reqs s) (i - base s)); lift (at_ l j).
Definition req_to (i j : Z) (x : Req_sum) : M unit :=
  s ← self; l ← lift (at_ (reqs s) (i - base s));
  update (λ s, set_reqs s (zset (reqs s) (to_int (i - base s)) (zset l (to_int j) x)) (comp_reqs s) (n_complete s)).
Definition append_req (i : Z) (x : Req_sum) : M Z :=
  s ← self; l ← lift (at_ (reqs s) (i - base s));
  _ ← update (λ s, set_reqs s (zset (reqs s) (to_int (i - base s)) (l ++ [x])) (comp_reqs s) (n_complete s));
  mret (zlen l).

Context (parent_pp : Z → Dig.Digest → outcome (option PP.Pre_prepare)) (parent_prepare : Z → Dig.Digest → outcome bool).
Context (e : env).

Definition is_primary (x : Z) : bool := e_primary e x =? node_id.

Definition clear (s : NV_info) : NV_info :=
  mkNvInfo 0 None 0 0 (replicate (length (vcs s)) empty_vc) [] (-1) (-1) (-1) (-1) [] [] 0 false 0.

Definition make_complete (s : NV_info) (vi : Z) : NV_info :=
  set_complete (set_msgs s vi (nv s) (vc_target s) (vc_cur s) (vcs s)) true.

(** ** Adding the new-view message *)
Definition add_nv (m : NV.New_view) : M bool :=
  b ← lift (NV.verify (e_keys e) m);
  _ ← assert_ (b || (node_id =? e_primary e (NV.view m)));
  s ← self;
  if NV.view m <=? v s then mret false
  else
    _ ← when (negb (v s =? 0)) (update clear);
    _ ← update (λ s, set_msgs s (NV.view m) (Some m) (vc_target s) (vc_cur s) (vcs s));
    _ ← for_each (seqZ 0 num_replicas) (λ i,
          o ← lift (NV.view_change_digest m i);
          when (bool_decide (is_Some o)) (update (λ s, set_msgs s (v s) (nv s) (vc_target s + 1) (vc_cur s) (vcs s))));
    mret true.

(** ** Completion *)
Definition known_stable : M Z :=
  s ← self;
  _ ← assert_ (is_complete s);
  let maxs := (λ x, match vc x with Some m => VC.last_stable m | None => 0 end) <$> vcs s in
  max_stable1 ← lift (K_max (S (length maxs)) (max_faulty + 1) maxs Seqno_max);
  _ ← assert_ (max_stable1 <=? min s);
  maxs ← fold_each (vcs s) [] (λ acc x,
    match vc x with
    | Some m => o ← lift (VC.last_ckpt m); mret (acc ++ [match o with Some (_, n) => n | None => 0 end])
    | None => mret (acc ++ [0])
    end);
  max_stable2 ← lift (K_max (S (length maxs)) threshold maxs Seqno_max);
  let max_stable2 := if min s <? max_stable2 then min s else max_stable2 in
  mret (if max_stable2 <? max_stable1 then max_stable1 else max_stable2).

Definition make_new_view : M unit :=
  s ← self;
  _ ← assert_ (is_primary (v s));
  _ ← assert_ (is_complete s);
  _ ← assert_ (nv_sent s =? 0);
  _ ← change_message (λ m, NV.set_min m (min s));
  c ← lift (at_ (ckpts s) (chosen_ckpt s));
  _ ← change_message (λ m, NV.pick m (c_id c) (min s));
  _ ← for_each (seqZ (min s + 1) (max s - (min s + 1))) (λ i,
        j ← lift (at_ (comp_reqs s) (i - base s));
        _ ← assert_ (0 <=? j);
        cur ← req_at i j;
        _ ← assert_ (bool_decide (is_Some (r_pi cur)) || (r_v cur =? -1));
        change_message (λ m, NV.pick m (r_id cur) i));
  _ ← change_message (λ m, NV.set_max m (max s));
  _ ← change_message (NV.re_authenticate (e_keys e));
  _ ← update (λ s, set_sent s (e_now e));
  ks ← known_stable;
  m ← message;
  effect (VNewView (min s) (c_d c) (NV.nmax m) ks).

(** The request [j] of row [i] has what it needs to be propagated? *)
Definition complete_req (i j : Z) : M bool :=
  s ← self;
  cur ← req_at i j;
  cur ← match r_pi cur with
        | Some _ => mret cur
        | None =>
            o ← lift (parent_pp i (r_d cur));
            mret (match o with
                  | Some opp => mkReqSum (r_v cur) (r_d cur) (r_proofs cur) num_replicas (r_reps cur)
                                  (Some (PP.clone opp (v s))) (r_le cur) (r_id cur)
                  | None => cur
                  end)
        end;
  b ← (if r_pproofs cur <=? max_faulty then lift (parent_prepare i (r_d cur)) else mret false);
  let cur := if b : bool then mkReqSum (r_v cur) (r_d cur) (r_proofs cur) num_replicas (r_reps cur) (r_pi cur) (r_le cur) (r_id cur)
             else cur in
  _ ← req_to i j cur;
  if (r_v cur <? 0) || (bool_decide (is_Some (r_pi cur)) && (max_faulty <? r_pproofs cur)) then
    _ ← update (λ s, set_reqs s (reqs s) (zset (comp_reqs s) (to_int (i - base s)) j) (n_complete s + 1));
    mret true
  else mret false.

(** A backup starts the view with the decision of the message. *)
Definition start_backup : M unit :=
  m ← message;
  cid ← lift (NV.which_picked m (NV.nmin m));
  x ← stored_vc cid;
  let n := VC.last_stable x in
  o ← lift (VC.ckpt x n);
  d ← lift (of_option AssertFail o);
  ks ← known_stable;
  effect (VNewView n d (NV.nmax m) ks).

(** What a complete object does: the end of [check_comp]. *)
Definition finish : M unit :=
  s ← self;
  when (n_complete s =? max s - min s - 1)
    (_ ← update (λ s, set_complete s true);
     if is_primary (v s) then make_new_view else start_backup).

Definition check_comp (i j : Z) : M unit :=
  s ← self;
  _ ← assert_ (negb (is_complete s));
  c ← lift (at_ (comp_reqs s) (i - base s));
  cur ← req_at i j;
  if (c <? 0) && (max_faulty + 1 <=? r_proofs cur) && (threshold <=? r_le cur) then
    b ← complete_req i j;
    if (b : bool) then finish else skip
  else finish.

(** ** Summaries of view-changes *)

(** [proofs] for [cur] from the view-change [m]. *)
Definition get_proofs (cur : Req_sum) (m : VC.View_change) (i : Z) : outcome Req_sum :=
  let counted := mkReqSum (r_v cur) (r_d cur) (r_proofs cur + 1) (r_pproofs cur) (r_reps cur) (r_pi cur) (r_le cur) (r_id cur) in
  o ← VC.proofs m i;
  match o with
  | None => Ret (if (VC.last_stable m <? i) && (r_v cur <? 0) then counted else cur)
  | Some (ri, prepared) =>
      let positive := b ← BM.set (r_reps cur) (VC.id m);
        Ret (mkReqSum (r_v cur) (r_d cur) (r_proofs cur + 1) (r_pproofs cur + 1) b (r_pi cur) (r_le cur) (r_id cur)) in
      if prepared : bool then
        if (r_v cur <=? VC.lv ri) && Dig.operator_eq (VC.d ri) (r_d cur) then positive else Ret cur
      else if (r_v cur <=? VC.v ri) && Dig.operator_eq (VC.d ri) (r_d cur) then positive
      else if r_v cur <=? VC.lv ri then Ret counted
      else Ret cur
  end.

Definition set_le (x : Req_sum) (n : Z) : Req_sum :=
  mkReqSum (r_v x) (r_d x) (r_proofs x) (r_pproofs x) (r_reps x) (r_pi x) n (r_id x).

(** The entry [j] of row [i] and the view-change [m], which proposes [(rv, rd)]. *)
Definition visit_req (m : VC.View_change) (i rv : Z) (rd : Dig.Digest) (acc : bool * Z) (j : Z) : M (option (bool * Z)) :=
  let '(match_, n_le) := acc in
  cur ← req_at i j;
  acc ← (if (r_v cur =? rv) && Dig.operator_eq (r_d cur) rd then
           b ← lift (BM.set (r_reps cur) (VC.id m));
           _ ← req_to i j (mkReqSum (r_v cur) (r_d cur) (r_proofs cur + 1) (r_pproofs cur + 1) b (r_pi cur)
                             (r_le cur + 1) (r_id cur));
           mret (true, n_le)
         else
           x ← lift (get_proofs cur m i);
           _ ← req_to i j (if rv <? r_v cur then set_le x (r_le x + 1) else x);
           mret (match_, if r_v cur <? rv then n_le + 1 else n_le));
  _ ← check_comp i j;
  s ← self;
  mret (if is_complete s then None else Some acc).

Definition summarize_row (m : VC.View_change) (i : Z) : M (option unit) :=
  s ← self;
  row ← lift (at_ (reqs s) (i - base s));
  '(rv, rd) ← lift (VC.req m i);
  o ← loop (seqZ 0 (zlen row)) (false, 0) (visit_req m i rv rd);
  match o with
  | None => mret None
  | Some (true, _) => mret (Some tt)
  | Some (false, n_le) =>
      s ← self;
      cur ← fold_each (vcs s) (mkReqSum rv rd 0 0 (BM.make num_replicas false) None (n_le + 1) (VC.id m))
              (λ cur x, if req_sum x then m' ← lift (of_option Undefined (vc x)); lift (get_proofs cur m' i) else mret cur);
      j ← append_req i cur;
      _ ← check_comp i j;
      mret (Some tt)
  end.

Definition summarize_reqs (o : option VC.View_change) : M unit :=
  m ← lift (of_option AssertFail o);
  n ← message;
  b ← lift (NV.view_change n (VC.id m));
  _ ← assert_ b;
  x ← vc_at (VC.id m);
  _ ← assert_ (negb (req_sum x));
  s ← self;
  _ ← assert_ (negb (is_complete s));
  _ ← vc_to (VC.id m) (mkVcInfo (vc x) (ack_count x) (ack_reps x) true);
  let i := Z.max (min s) (VC.last_stable m) in
  _ ← loop (seqZ (i + 1) (max s - (i + 1))) tt (λ _ i, summarize_row m i);
  skip.

Definition choose_ckpt (index : Z) : M unit :=
  s ← self;
  _ ← assert_ (is_primary (v s));
  _ ← assert_ ((0 <=? index) && (index <? zlen (ckpts s)));
  cur ← lift (at_ (ckpts s) index);
  _ ← assert_ ((max_faulty + 1 <=? c_proofs cur) && (threshold <=? c_le cur));
  o ← (if chosen_ckpt s <? 0 then
         let hi := c_max cur + 1 in
         let rows := to_int (hi - (c_n cur + 1)) in
         _ ← update (λ s, set_chosen s index (c_n cur) hi (c_n cur + 1));
         _ ← assert_ (0 <=? rows);
         _ ← update (λ s, set_reqs s (reqs s ++ replicate (Z.to_nat rows) [])
               (replicate (Z.to_nat (zlen (comp_reqs s) + rows)) (-1)) (n_complete s));
         loop (seqZ 0 (zlen (vcs s))) tt (λ _ i,
           n ← message;
           b ← lift (NV.view_change n i);
           if (b : bool) then
             x ← vc_at i;
             _ ← summarize_reqs (vc x);
             s ← self; mret (if is_complete s then None else Some tt)
           else mret (Some tt))
       else
         old ← lift (at_ (ckpts s) (chosen_ckpt s));
         _ ← when (c_n old <? c_n cur)
           (_ ← for_each (seqZ (min s + 1) (c_n cur - min s)) (λ i,
                  s ← self; c ← lift (at_ (comp_reqs s) (i - base s));
                  when (0 <=? c) (update (λ s, set_reqs s (reqs s) (comp_reqs s) (n_complete s - 1))));
            update (λ s, set_chosen s index (c_n cur) (Z.min (c_max cur + 1) (max s)) (base s)));
         mret (Some tt));
  match o with
  | None => skip
  | Some _ =>
      s ← self;
      when (n_complete s =? max s - min s - 1)
        (_ ← update (λ s, set_complete s true); make_new_view)
  end.

(** [ckpt] compared with a digest. *)
Definition same_ckpt (m : VC.View_change) (n : Z) (d : Dig.Digest) : outcome bool :=
  o ← VC.ckpt m n; Ret (match o with Some d' => Dig.operator_eq d' d | None => false end).

(** The candidate [i] and the view-change [m] with the stable checkpoint [(vcn, vclc)]. *)
Definition visit_ckpt (m : VC.View_change) (vcn : Z) (vclc : Dig.Digest) (acc : bool * Z * Z) (i : Z) : M (bool * Z * Z) :=
  let '(match_, n_le, max_seqno) := acc in
  s ← self;
  cur ← lift (at_ (ckpts s) i);
  let raised := Z.max (c_max cur) (VC.max_seqno m) in
  '(cur, acc) ← (if (c_n cur =? vcn) && Dig.operator_eq (c_d cur) vclc then
      mret (mkCkptSum (c_n cur) (c_d cur) (c_proofs cur + 1) (c_le cur + 1) raised (c_id cur), (true, n_le, max_seqno))
    else
      b ← lift (same_ckpt m (c_n cur) (c_d cur));
      let proofs := if b : bool then c_proofs cur + 1 else c_proofs cur in
      mret (if vcn <? c_n cur
        then (mkCkptSum (c_n cur) (c_d cur) proofs (c_le cur + 1) raised (c_id cur), acc)
        else (mkCkptSum (c_n cur) (c_d cur) proofs (c_le cur) (c_max cur) (c_id cur),
              if c_n cur <? vcn then (match_, n_le + 1, Z.max max_seqno (c_max cur)) else acc)));
  _ ← update (λ s, set_ckpts s (zset (ckpts s) i cur));
  _ ← when ((max_faulty + 1 <=? c_proofs cur) && (threshold <=? c_le cur)) (choose_ckpt i);
  mret acc.

Definition summarize (m : VC.View_change) : M unit :=
  s ← self;
  _ ← assert_ (negb (is_complete s));
  let was_chosen := 0 <=? chosen_ckpt s in
  let vcn := VC.last_stable m in
  o ← lift (VC.ckpt m vcn);
  let vclc := default Dig.zero o in
  '(match_, n_le, max_seqno) ← fold_each (seqZ 0 (zlen (ckpts s))) (false, 0, VC.max_seqno m) (visit_ckpt m vcn vclc);
  _ ← when (negb match_ && negb (Dig.is_zero vclc))
    (s ← self;
     n ← message;
     proofs ← fold_each (seqZ 0 (zlen (vcs s))) 0 (λ acc i,
       b ← lift (NV.view_change n i);
       if (b : bool) then x ← stored_vc i; b ← lift (same_ckpt x vcn vclc); mret (if b : bool then acc + 1 else acc)
       else mret acc);
     _ ← update (λ s, set_ckpts s (ckpts s ++ [mkCkptSum vcn vclc proofs (n_le + 1) max_seqno (VC.id m)]));
     s ← self;
     when ((max_faulty + 1 <=? proofs) && (threshold <=? n_le + 1)) (choose_ckpt (zlen (ckpts s) - 1)));
  s ← self;
  when (was_chosen && negb (is_complete s)) (_ ← summarize_reqs (Some m); effect VStatus).

(** ** Checking the decision of the primary *)

(** The view-change in [y] is counted for the request [cur]. *)
Definition summed (i : Z) (cur : Req_sum) (y : VC_info) : M Req_sum :=
  match vc y with
  | None => mret cur
  | Some m =>
      cur ← lift (get_proofs cur m i);
      '(v', _) ← lift (VC.req m i);
      mret (if v' <=? r_v cur then set_le cur (r_le cur + 1) else cur)
  end.

(** The request that the message picks for [i], summarised over all view-changes. *)
Definition checked_req (i : Z) : M (option Req_sum) :=
  n ← message;
  vci ← lift (NV.which_picked n i);
  x ← stored_vc vci;
  if i <=? VC.last_stable x then mret None
  else
    '(rv, rd) ← lift (VC.req x i);
    s ← self;
    cur ← fold_each (vcs s) (mkReqSum rv rd 0 0 (BM.make num_replicas false) None 0 (VC.id x)) (summed i);
    mret (Some cur).

Definition check_req (i : Z) : M (option unit) :=
  o ← checked_req i;
  match o with
  | None => mret None
  | Some cur =>
      j ← append_req i cur;
      if (r_proofs cur <? max_faulty + 1) || (r_le cur <? threshold) then mret None
      else _ ← check_comp i 0; mret (Some tt)
  end.

(** The checkpoint [(n, d)], which the view-change of [cid] has, is proved by [n_proofs]
    view-changes and not below the stable checkpoint of [n_le]. *)
Definition count_ckpt (cid n : Z) (d : Dig.Digest) (acc : Z * Z) (i : Z) : M (Z * Z) :=
  y ← vc_at i;
  match vc y with
  | Some m =>
      if i =? cid then mret acc
      else
        b ← lift (same_ckpt m n d);
        mret (if b : bool then acc.1 + 1 else acc.1, if VC.last_stable m <=? n then acc.2 + 1 else acc.2)
  | None => mret acc
  end.

Definition ends_below (n : Z) (y : VC_info) : bool :=
  match vc y with Some m => VC.max_seqno m <? n | None => false end.

(** The end of the check: the requests from [n + 1] on. *)
Definition check_requests (nm : NV.New_view) (n : Z) (d : Dig.Digest) : M bool :=
  if n + 1 =? NV.nmax nm then
    _ ← update (λ s, set_complete s true);
    ks ← known_stable;
    _ ← effect (VNewView n d (NV.nmax nm) ks);
    mret true
  else
    let rows := to_int (NV.nmax nm - n - 1) in
    _ ← assert_ (0 <=? rows);
    _ ← update (λ s, set_reqs s (reqs s ++ replicate (Z.to_nat rows) [])
          (replicate (Z.to_nat (zlen (comp_reqs s) + rows)) (-1)) (n_complete s));
    o ← loop (seqZ (n + 1) (NV.nmax nm - (n + 1))) tt (λ _, check_req);
    mret (bool_decide (is_Some o)).

Definition check_new_view : M bool :=
  s ← self;
  _ ← assert_ (negb (is_primary (v s)));
  m ← message;
  cid ← lift (NV.which_picked m (NV.nmin m));
  x ← stored_vc cid;
  let n := VC.last_stable x in
  _ ← update (λ s, set_chosen s (chosen_ckpt s) n (max s) (base s));
  if negb (n =? NV.nmin m) then mret false
  else
    _ ← update (λ s, set_chosen s (chosen_ckpt s) n (max s) (n + 1));
    o ← lift (VC.ckpt x n);
    match o with
    | None => mret false
    | Some d =>
        '(n_proofs, n_le) ← fold_each (seqZ 0 (zlen (vcs s))) (1, 1) (count_ckpt cid n d);
        if (n_proofs <? max_faulty + 1) || (n_le <? threshold) then mret false
        else
          _ ← update (λ s, set_chosen s 0 n (max s) (n + 1));
          if zlen (filter (λ y, ends_below (NV.nmax m) y = true) (vcs s)) <? threshold then mret false
          else
            _ ← update (λ s, set_chosen s 0 n (NV.nmax m) (n + 1));
            check_requests m n d
    end.

(** ** Adding view-changes and their acknowledgements *)
Definition add_vc (m : VC.View_change) (verified : bool) : M bool :=
  s ← self;
  _ ← assert_ (VC.view m =? v s);
  let vcid := VC.id m in
  x ← vc_at vcid;
  if bool_decide (is_Some (vc x)) || is_complete s then mret false
  else
    let primary := is_primary (v s) in
    named ← (if primary then mret true
             else
               n ← message;
               o ← lift (NV.view_change_digest n vcid);
               mret (match o with Some d => Dig.operator_eq d (VC.digest m) | None => false end));
    if negb named then mret false
    else if negb verified && (primary || negb (VC.verify_digest w_digest_of m) || (ack_count x <? max_faulty)) then mret false
    else
      _ ← vc_to vcid (mkVcInfo (Some m) (ack_count x) (ack_reps x) (req_sum x));
      _ ← update (λ s, set_msgs s (v s) (nv s) (vc_target s) (vc_cur s + 1) (vcs s));
      _ ← when (primary && (vcid =? node_id))
        (_ ← change_message (λ n, NV.add_view_change n vcid (VC.digest m)); summarize m);
      s ← self;
      _ ← when (negb primary && (vc_cur s =? vc_target s)) (_ ← check_new_view; skip);
      mret true.

Definition add_vca (m : View_change_ack) : M bool :=
  b ← lift (vc_ack_verify w_hmac_md w_char_signed (e_keys e) m);
  s ← self;
  _ ← assert_ (b && (a_view m =? v s));
  let vci := a_vcid m in
  let mid := a_id m in
  let primary := is_primary (v s) in
  if is_complete s then mret false
  else
    n ← message;
    in_nv ← lift (NV.view_change_digest n vci);
    o ← (if primary then x ← vc_at vci; mret (VC.digest <$> vc x) else mret in_nv);
    match o with
    | None => mret false
    | Some d =>
        _ ← when (bool_decide (in_nv = None) && Dig.operator_eq (a_vcd m) d)
          (x ← vc_at vci;
           acked ← lift (BM.test (ack_reps x) mid);
           when (negb acked)
             (reps ← lift (BM.set (ack_reps x) mid);
              _ ← vc_to vci (mkVcInfo (vc x) (ack_count x + 1) reps (req_sum x));
              when ((ack_count x + 1 =? max_faulty * 2 - 1) && primary)
                (y ← lift (of_option Undefined (vc x));
                 _ ← change_message (λ n, NV.add_view_change n vci (VC.digest y));
                 summarize y)));
        mret true
    end.

(** ** Missing pre-prepares and prepares *)

(** Is the request [n] of the new view still open? *)
Definition open_req (n : Z) : M bool :=
  s ← self;
  if (0 <=? chosen_ckpt s) && (min s <? n) && (n <? max s)
  then c ← lift (at_ (comp_reqs s) (n - base s)); mret (c <? 0)
  else mret false.

(** The first entry of row [n] for the digest [d]. *)
Definition find_req (n : Z) (d : Dig.Digest) : M (option (Z * Req_sum)) :=
  s ← self;
  row ← lift (at_ (reqs s) (n - base s));
  mret (match list_find (λ x, Dig.operator_eq (r_d x) d = true) row with
        | Some (j, x) => Some (Z.of_nat j, x) | None => None end).

Definition add_missing_pp (pp : PP.Pre_prepare) : M unit :=
  let n := PP.seqno pp in
  b ← open_req n;
  if negb b then skip
  else
    o ← find_req n (PP.digest pp);
    match o with
    | None => skip
    | Some (j, cur) =>
        if bool_decide (is_Some (r_pi cur)) then skip
        else
          ok ← lift (PP.check_digest w_digest_of (e_primary e) pp);
          when ok
            (s ← self;
             _ ← req_to n j (mkReqSum (r_v cur) (r_d cur) (r_proofs cur) (r_pproofs cur) (r_reps cur)
                               (Some (PP.clone pp (v s))) (r_le cur) (r_id cur));
             check_comp n j)
    end.

Definition add_missing_p (p : Prepare) : M unit :=
  let n := p_seqno p in
  b ← open_req n;
  if negb b then skip
  else
    o ← find_req n (p_digest p);
    match o with
    | None => skip
    | Some (j, cur) =>
        if r_pproofs cur <=? max_faulty then
          voted ← lift (BM.test (r_reps cur) (p_id p));
          when (negb voted)
            (reps ← lift (BM.set (r_reps cur) (p_id p));
             _ ← req_to n j (mkReqSum (r_v cur) (r_d cur) (r_proofs cur) (r_pproofs cur + 1) reps (r_pi cur) (r_le cur) (r_id cur));
             check_comp n j)
        else skip
    end.

(** The pre-prepare of the request [n] of a complete new view, and its digest. *)
Definition fetch_request (n : Z) : M (PP.Pre_prepare * Dig.Digest) :=
  s ← self;
  _ ← assert_ (is_complete s);
  m ← message;
  _ ← assert_ ((NV.nmin m <? n) && (n <? NV.nmax m));
  vci ← lift (NV.which_picked m n);
  x ← stored_vc vci;
  '(pv, d) ← lift (VC.req x n);
  '(pp, d) ← (if (0 <=? pv) && negb (Dig.operator_eq d Dig.zero) then
      j ← lift (at_ (comp_reqs s) (n - base s));
      cur ← req_at n j;
      _ ← req_to n j (mkReqSum (r_v cur) (r_d cur) (r_proofs cur) (r_pproofs cur) (r_reps cur) None (r_le cur) (r_id cur));
      pp ← lift (of_option AssertFail (r_pi cur));
      mret (pp, d)
    else
      '(pp, _) ← lift (PP.fill w_hmac_md w_digest_of w_non_det w_max_nd_bytes 1 (principals (e_keys e))
                        PP.Max_message_size (v s) n RQ.make);
      mret (pp, PP.digest pp));
  if is_primary (v s) then pp ← lift (PP.re_authenticate w_hmac_md (principals (e_keys e)) pp); mret (pp, d)
  else mret (pp, d).

(** The marks of [set_received_vcs] and the entries of [set_missing_pps] in a status message. *)
Definition received_vcs : M (list Z) :=
  s ← self;
  let primary := is_primary (v s) in
  fold_each (seqZ 0 num_replicas) [] (λ acc i,
    x ← vc_at i;
    if primary && bool_decide (vc x = None) then mret acc
    else
      m ← message;
      b ← lift (if primary then NV.view_change m i
                else o ← NV.view_change_digest m i; Ret (bool_decide (is_Some (vc x)) || bool_decide (o = None)));
      mret (if b : bool then acc ++ [i] else acc)).

Definition missing_row (vw : Z) (row : list Req_sum) : Z * bool :=
  foldl (λ acc cur,
    if (0 <=? r_v cur) && (r_v cur <? acc.1) && (max_faulty + 1 <=? r_proofs cur) && (threshold <=? r_le cur)
    then (r_v cur, acc.2 || (r_pproofs cur <=? max_faulty)) else acc) (vw, false) row.

Definition missing_pps : M (list (Z * Z * bool)) :=
  s ← self;
  fold_each (seqZ (base s) (max s - base s)) [] (λ acc i,
    c ← lift (at_ (comp_reqs s) (i - base s));
    if 0 <=? c then mret acc
    else
      row ← lift (at_ (reqs s) (i - base s));
      let '(vpp, need_proofs) := missing_row (v s) row in
      mret (if vpp <? v s then acc ++ [(vpp, i, need_proofs)] else acc)).

(** ** Stable checkpoints and stale messages *)
Definition mark_stable (ls : Z) : M unit :=
  s ← self;
  when ((0 <? v s) && negb (is_complete s) && (0 <=? chosen_ckpt s) && (max s <=? ls) && negb (is_primary (v s)))
    (_ ← update (λ s, set_complete s true); effect (VNewView ls Dig.zero ls ls)).

Definition mark_stale (id : Z) : M (option VC.View_change) :=
  s ← self;
  if is_complete s then mret None
  else
    x ← vc_at id;
    let ov := v s in
    _ ← update clear;
    if (0 <? ov) && (e_primary e ov =? id) then
      _ ← add_nv (NV.make ov);
      m ← lift (of_option AssertFail (vc x));
      _ ← add_vc m true;
      mret None
    else mret (vc x).
End nv_info.
End NVI.
