(* ===== verification/NewViewSafety.v ===== *)
(** * NewViewSafety: a new view that passes the check keeps what was committed

    [NVI.check_new_view] at a backup: what the check implies about the view-changes it
    looks at ([justified]), and from it that a request which a quorum of replicas
    reports as prepared is the one that the new view proposes for its number. *)
From stdpp Require Import gmap.
From S2P Require Import Prelude Node Bitmap KMax Certificate Messages PreparedCert Quorum PrePrepare ViewChange.
From S2P Require Import StateMonad World NewView NVInfo.
Import Auth.

Module NVS.
Import NVI.

(** ** Counting replicas

    The indices of an array of view-changes whose element satisfies [P]. *)
Definition votes (P : VC.View_change → bool) (y : VC_info) : bool :=
  match vc y with Some m => P m | None => false end.
Definition voters (P : VC.View_change → bool) (l : list VC_info) : list Z :=
  filter (λ i, (y ← zget l i; Some (votes P y)) = Some true) (seqZ 0 (zlen l)).

Lemma voters_count P l : zlen (voters P l) = zlen (filter (λ y, votes P y = true) l).
Proof.
  unfold voters. induction l as [|y l IH] using rev_ind; [done|].
  assert (zlen (l ++ [y]) = Z.succ (zlen l)) as -> by (unfold zlen; rewrite length_app; cbn; lia).
  rewrite seqZ_snoc by apply zlen_nonneg. rewrite !filter_app. unfold zlen in *. rewrite !length_app.
  rewrite !Nat2Z.inj_add. f_equal.
  - rewrite <- IH. f_equal. f_equal. apply list_filter_ext_in. intros i Hi%elem_of_seqZ.
    rewrite zget_app, decide_True by (unfold zlen; lia). done.
  - assert (zget (l ++ [y]) (0 + zlen l) = Some y) as E.
    { rewrite zget_app, decide_False by lia. by replace (0 + zlen l - zlen l) with 0 by lia. }
    rewrite !filter_cons, !filter_nil. unfold zlen in E. rewrite E. cbn.
    destruct (votes P y); repeat case_decide; (done || naive_solver).
Qed.

Lemma elem_of_voters P l i :
  i ∈ voters P l ↔ ∃ y m, zget l i = Some y ∧ vc y = Some m ∧ P m = true.
Proof.
  unfold voters. rewrite list_elem_of_filter, elem_of_seqZ. split.
  - intros [E _]. destruct (zget l i) as [y|]; [|done]. injection E as E. unfold votes in E.
    destruct (vc y) as [m|] eqn:Em; [|done]. by exists y, m.
  - intros (y & m & Hy & Hm & HP). pose proof (zget_Some_lt _ _ _ Hy). rewrite Hy. cbn. unfold votes. rewrite Hm, HP.
    split; [done|lia].
Qed.

Lemma voters_at P l i y : zget l i = Some y → (i ∈ voters P l ↔ votes P y = true).
Proof.
  intros Hy. rewrite elem_of_voters. unfold votes. split; [intros (y' & m & Hy' & Hm & HP); simplify_eq; by rewrite Hm|].
  destruct (vc y) as [m|] eqn:Em; [|done]. by exists y, m.
Qed.

Lemma voters_NoDup P l : NoDup (voters P l).
Proof. apply NoDup_filter, NoDup_seqZ. Qed.

(** Counting a known voter apart from the others. *)
Lemma voters_others P l cid :
  cid ∈ voters P l → 1 + zlen (filter (λ i, i ≠ cid ∧ i ∈ voters P l) (seqZ 0 (zlen l))) ≤ zlen (voters P l).
Proof.
  intros Hc. unfold zlen. set (others := filter _ _).
  assert (cid :: others ⊆+ voters P l) as Hs%submseteq_length; [|cbn in Hs; lia].
  apply NoDup_submseteq.
  - constructor; [|apply NoDup_filter, NoDup_seqZ]. unfold others. rewrite list_elem_of_filter. tauto.
  - intros i [->|Hi]%elem_of_cons; [done|]. unfold others in Hi. apply list_elem_of_filter in Hi. tauto.
Qed.

Section backup.
Context `{Config} `{World} {msg : Type}.

#[local] Abbreviation St := (St (msg := msg)).

(** ** What a view-change says of the number [i] *)
Definition has_ckpt (n : Z) (d : Dig.Digest) (m : VC.View_change) : bool :=
  match VC.ckpt m n with Ret (Some d') => Dig.operator_eq d' d | _ => false end.

Definition supports (i v : Z) (d : Dig.Digest) (m : VC.View_change) : bool :=
  match VC.proofs m i with
  | Ret None => (VC.last_stable m <? i) && (v <? 0)
  | Ret (Some (ri, true)) => (v <=? VC.lv ri) && Dig.operator_eq (VC.d ri) d
  | Ret (Some (ri, false)) => (v <=? VC.v ri) && Dig.operator_eq (VC.d ri) d || (v <=? VC.lv ri)
  | Err _ => false
  end.

Definition at_most (i v : Z) (m : VC.View_change) : bool :=
  match VC.req m i with Ret (v', _) => v' <=? v | Err _ => false end.

(** The quorums behind the decision: [f+1] replicas have the checkpoint [(n, d)] and
    [2f+1] none that is stable above it; [2f+1] know nothing from [hi] on; and each
    request between them is supported by [f+1] replicas and by none of [2f+1]
    contradicted with a later view. *)
Record justified (nm : NV.New_view) (l : list VC_info) (n : Z) (d : Dig.Digest) : Prop := {
  j_min : n = NV.nmin nm;
  j_proofs : max_faulty + 1 ≤ zlen (voters (has_ckpt n d) l);
  j_stable : threshold ≤ zlen (voters (λ m, VC.last_stable m <=? n) l);
  j_max : threshold ≤ zlen (voters (λ m, VC.max_seqno m <? NV.nmax nm) l);
  j_reqs i : n < i < NV.nmax nm →
    ∃ vci y x rv rd, NV.which_picked nm i = Ret vci ∧ zget l vci = Some y ∧ vc y = Some x ∧
      VC.req x i = Ret (rv, rd) ∧ VC.last_stable x < i ∧
      max_faulty + 1 ≤ zlen (voters (supports i rv rd) l) ∧
      threshold ≤ zlen (voters (at_most i rv) l);
}.

(** [picked] is an array of [char]. *)
Definition chars (nm : NV.New_view) : Prop := Forall (λ c, -128 ≤ c < 256) (NV.picked nm).

Lemma picked_int nm k c : chars nm → NV.which_picked nm k = Ret c → to_int c = c.
Proof.
  unfold NV.which_picked. intros Hc E. invert_outcome. apply to_int_small.
  pose proof (Forall_zget _ _ _ _ Hc ltac:(eassumption)). cbn in *. lia.
Qed.

(** ** The counts of the check *)
Lemma get_proofs_counts cur m i cur' :
  get_proofs cur m i = Ret cur' →
  r_v cur' = r_v cur ∧ r_d cur' = r_d cur ∧ r_le cur' = r_le cur ∧
  r_proofs cur' = r_proofs cur + (if supports i (r_v cur) (r_d cur) m then 1 else 0).
Proof.
  unfold get_proofs, supports. destruct (VC.proofs m i) as [[[ri []]|]|]; cbn [mbind outcome_bind]; [..|done].
  - destruct (_ && _); [|intros E; injection E as <-; split_and!; lia || done].
    destruct (BM.set _ _); [|done]. intros E; injection E as <-. by split_and!.
  - destruct (_ && _); cbn [orb].
    + destruct (BM.set _ _); [|done]. intros E; injection E as <-. by split_and!.
    + destruct (_ <=? _); intros E; injection E as <-; split_and!; lia || done.
  - destruct (_ && _); intros E; injection E as <-; split_and!; lia || done.
Qed.

Lemma summed_counts i l cur (s : St) cur' s' :
  fold_each l cur (summed i) s = Ret (cur', s') →
  s' = s ∧ r_v cur' = r_v cur ∧ r_d cur' = r_d cur ∧
  r_proofs cur' = r_proofs cur + zlen (filter (λ y, votes (supports i (r_v cur) (r_d cur)) y = true) l) ∧
  r_le cur' = r_le cur + zlen (filter (λ y, votes (at_most i (r_v cur)) y = true) l).
Proof.
  revert cur s. induction l as [|y l IH]; intros cur s E.
  { injection E as <- <-. unfold zlen. cbn. split_and!; done || lia. }
  cbn [fold_each] in E. apply bind_inv in E as (cur1 & s1 & E1 & E).
  assert (s1 = s ∧ r_v cur1 = r_v cur ∧ r_d cur1 = r_d cur ∧
    r_proofs cur1 = r_proofs cur + (if votes (supports i (r_v cur) (r_d cur)) y then 1 else 0) ∧
    r_le cur1 = r_le cur + (if votes (at_most i (r_v cur)) y then 1 else 0)) as (-> & Hv & Hd & Hp & Hl).
  { unfold summed, votes in *. destruct (vc y) as [m|]; [|injection E1 as <- <-; split_and!; done || lia].
    apply bind_inv in E1 as (x & s2 & (Ex & ->)%lift_inv & E1).
    apply bind_inv in E1 as ([v' d'] & s3 & (Er & ->)%lift_inv & E1).
    destruct (get_proofs_counts _ _ _ _ Ex) as (Hv & Hd & Hl & Hp).
    unfold at_most. rewrite Er. rewrite Hv in E1.
    injection E1 as <- <-. destruct (v' <=? r_v cur); cbn; split_and!; done || lia. }
  destruct (IH _ _ E) as (-> & Hv' & Hd' & Hp' & Hl'). rewrite Hv, Hd in Hp'. rewrite Hv in Hl'.
  split_and!; [done|congruence|congruence|..].
  - rewrite Hp', Hp, filter_cons. unfold zlen.
    destruct (votes (supports i _ _) y) eqn:Ev; case_decide; cbn [length]; done || lia.
  - rewrite Hl', Hl, filter_cons. unfold zlen.
    destruct (votes (at_most i _) y) eqn:Ev; case_decide; cbn [length]; done || lia.
Qed.

Lemma checked_req_counts i (s : St) cur s' :
  checked_req i s = Ret (Some cur, s') →
  s' = s ∧ ∃ nm vci y x, nv (me s) = Some nm ∧ NV.which_picked nm i = Ret vci ∧ at_ (vcs (me s)) vci = Ret y ∧
    vc y = Some x ∧ VC.req x i = Ret (r_v cur, r_d cur) ∧ VC.last_stable x < i ∧
    r_proofs cur = zlen (voters (supports i (r_v cur) (r_d cur)) (vcs (me s))) ∧
    r_le cur = zlen (voters (at_most i (r_v cur)) (vcs (me s))).
Proof.
  unfold checked_req, message, stored_vc, vc_at, self. intros E. run_inv.
  repeat match goal with G : of_option _ _ = Ret _ |- _ => apply of_option_Ret in G end.
  match goal with G : (if _ <=? _ then _ else _) _ = _ |- _ => rename G into E end.
  destruct (i <=? _) eqn:Ei; [by injection E|]. zprop.
  apply bind_inv in E as ([rv rd] & s1 & (Er & ->)%lift_inv & E).
  apply bind_inv in E as (s2 & s3 & Es & E). injection Es as <- <-.
  apply bind_inv in E as (cur' & s4 & Ef & E). injection E as <- <-.
  destruct (summed_counts _ _ _ _ _ _ Ef) as (-> & Hv & Hd & Hp & Hl). cbn in Hv, Hd, Hp, Hl.
  split; [done|]. do 4 eexists. split_and!; try done.
  - by rewrite Hv, Hd.
  - by rewrite Hv, Hd, Hp, voters_count.
  - by rewrite Hv, Hl, voters_count.
Qed.

Lemma message_inv (s : St) nm s' : message s = Ret (nm, s') → s' = s ∧ nv (me s) = Some nm.
Proof. unfold message, self. intros E. run_inv. by match goal with G : of_option _ _ = _ |- _ => apply of_option_Ret in G end. Qed.

Lemma stored_vc_inv i (s : St) x s' :
  stored_vc i s = Ret (x, s') → s' = s ∧ ∃ y, zget (vcs (me s)) (to_int i) = Some y ∧ vc y = Some x.
Proof.
  unfold stored_vc, vc_at, self, at_. intros E. run_inv.
  repeat match goal with G : of_option _ _ = _ |- _ => apply of_option_Ret in G end. eauto.
Qed.

(** ** The state that the check does not touch *)
Context (parent_pp : Z → Dig.Digest → outcome (option PP.Pre_prepare)) (parent_prepare : Z → Dig.Digest → outcome bool).
Context (e : env).

Definition frozen (s s' : St) : Prop :=
  is_primary e (v (me s)) = false → v (me s') = v (me s) ∧ nv (me s') = nv (me s) ∧ vcs (me s') = vcs (me s).

#[local] Instance frozen_refl : Reflexive frozen.
Proof. by intros s _. Qed.
#[local] Instance frozen_trans : Transitive frozen.
Proof.
  intros s1 s2 s3 H12 H23 Hp. destruct (H12 Hp) as (Ev & En & Ec). destruct H23 as (-> & -> & ->); [by rewrite Ev|done].
Qed.

Lemma frozen_update f :
  (∀ s, v (f s) = v s ∧ nv (f s) = nv s ∧ vcs (f s) = vcs s) → keeps frozen (update f).
Proof. intros Hf. apply keeps_modify. intros s _. apply Hf. Qed.

Lemma frozen_effect x : keeps frozen (effect x).
Proof. apply keeps_modify. by intros s _. Qed.

#[local] Hint Extern 1 (keeps frozen (update _)) => apply frozen_update; done : keeps.
#[local] Hint Resolve frozen_effect : keeps.

Lemma frozen_req_at i j : keeps frozen (req_at i j).
Proof. unfold req_at, self. keeps_tac. Qed.
Lemma frozen_req_to i j x : keeps frozen (req_to i j x).
Proof. unfold req_to, self. keeps_tac. Qed.
Lemma frozen_append i x : keeps frozen (append_req i x).
Proof. unfold append_req, self. keeps_tac. Qed.
Lemma frozen_message : keeps frozen message.
Proof. unfold message, self. keeps_tac. Qed.
Lemma frozen_stored_vc i : keeps frozen (stored_vc i).
Proof. unfold stored_vc, vc_at, self. keeps_tac. Qed.
Lemma frozen_known_stable : keeps frozen known_stable.
Proof. unfold known_stable, self. keeps_tac. Qed.
#[local] Hint Resolve frozen_req_at frozen_req_to frozen_append frozen_message frozen_stored_vc frozen_known_stable : keeps.

Lemma frozen_complete_req i j : keeps frozen (complete_req parent_pp parent_prepare i j).
Proof. unfold complete_req, self. keeps_tac. Qed.
#[local] Hint Resolve frozen_complete_req : keeps.

Lemma frozen_finish : keeps frozen (finish e).
Proof.
  assert (keeps frozen start_backup) as Hb by (unfold start_backup; keeps_tac).
  intros s a s' E Hp. unfold finish, self in E. apply bind_inv in E as (x & s1 & Ex & E). injection Ex as <- <-.
  destruct (n_complete _ =? _); [|by injection E as <- <-]. cbn [when] in E.
  apply bind_inv in E as ([] & s2 & E2 & E). injection E2 as <-. rewrite Hp in E. by apply (Hb _ _ _ E).
Qed.
#[local] Hint Resolve frozen_finish : keeps.

Lemma frozen_check_comp i j : keeps frozen (check_comp parent_pp parent_prepare e i j).
Proof. unfold check_comp, self. keeps_tac. Qed.
#[local] Hint Resolve frozen_check_comp : keeps.

Lemma frozen_checked_req i : keeps frozen (checked_req i).
Proof. unfold checked_req, summed, self. keeps_tac. Qed.
#[local] Hint Resolve frozen_checked_req : keeps.

Lemma frozen_check_req i : keeps frozen (check_req parent_pp parent_prepare e i).
Proof. unfold check_req. keeps_tac. Qed.

(** ** What the check implies *)

Lemma same_ckpt_has m n d b : same_ckpt m n d = Ret b → has_ckpt n d m = b.
Proof. unfold same_ckpt, has_ckpt. destruct (VC.ckpt m n) as [[x|]|]; cbn; congruence. Qed.

(** The fold over the checkpoints, with the view-change of [cid] counted before. *)
Lemma count_ckpt_counts cid n d l (s : St) acc acc' s' :
  (∀ i, i ∈ l → 0 ≤ i < 2 ^ 31) →
  fold_each l acc (count_ckpt cid n d) s = Ret (acc', s') →
  s' = s ∧
  acc'.1 = acc.1 + zlen (filter (λ i, i ≠ cid ∧ i ∈ voters (has_ckpt n d) (vcs (me s))) l) ∧
  acc'.2 = acc.2 + zlen (filter (λ i, i ≠ cid ∧ i ∈ voters (λ m, VC.last_stable m <=? n) (vcs (me s))) l).
Proof.
  revert acc. induction l as [|i l IH]; intros acc Hl E.
  { injection E as <- <-. unfold zlen. cbn. split_and!; done || lia. }
  cbn [fold_each] in E. apply bind_inv in E as (acc1 & s1 & E1 & E).
  assert (s1 = s ∧
    acc1.1 = acc.1 + (if decide (i ≠ cid ∧ i ∈ voters (has_ckpt n d) (vcs (me s))) then 1 else 0) ∧
    acc1.2 = acc.2 + (if decide (i ≠ cid ∧ i ∈ voters (λ m, VC.last_stable m <=? n) (vcs (me s))) then 1 else 0))
    as (-> & Hn1 & Hn2).
  { unfold count_ckpt, vc_at, self in E1. apply bind_inv in E1 as (y & s2 & Ey & E1). run_inv.
    match goal with G : at_ _ _ = Ret _ |- _ => rename G into Ey end.
    unfold at_ in Ey. rewrite to_int_small in Ey by (specialize (Hl i (list_elem_of_here _ _)); lia).
    apply of_option_Ret in Ey.
    pose proof (voters_at (has_ckpt n d) _ _ _ Ey) as V1. pose proof (voters_at (λ m, VC.last_stable m <=? n) _ _ _ Ey) as V2.
    unfold votes in V1, V2. destruct (vc y) as [m|]; [destruct (i =? cid) eqn:Ec; zprop|].
    - injection E1 as <- <-. rewrite !decide_False by tauto. split_and!; done || lia.
    - apply bind_inv in E1 as (b & s3 & (Eb & ->)%lift_inv & E1). injection E1 as <- <-.
      rewrite (same_ckpt_has _ _ _ _ Eb) in V1.
      destruct b, (VC.last_stable m <=? n); cbn; repeat case_decide; split_and!; (done || lia || (exfalso; intuition congruence)).
    - injection E1 as <- <-. rewrite !decide_False by intuition congruence. split_and!; done || lia. }
  destruct (IH acc1) as (-> & Hm1 & Hm2); [intros j Hj; apply Hl; by right|done|].
  rewrite !filter_cons, Hm1, Hm2, Hn1, Hn2. unfold zlen.
  split; [done|]. split; repeat case_decide; cbn [length]; done || lia.
Qed.

Lemma check_req_justifies i (s : St) s' :
  check_req parent_pp parent_prepare e i s = Ret (Some tt, s') →
  ∃ nm vci y x rv rd, nv (me s) = Some nm ∧ NV.which_picked nm i = Ret vci ∧ at_ (vcs (me s)) vci = Ret y ∧ vc y = Some x ∧
    VC.req x i = Ret (rv, rd) ∧ VC.last_stable x < i ∧
    max_faulty + 1 ≤ zlen (voters (supports i rv rd) (vcs (me s))) ∧
    threshold ≤ zlen (voters (at_most i rv) (vcs (me s))).
Proof.
  unfold check_req. intros (o & s1 & E1 & E)%bind_inv. destruct o as [cur|]; [|by injection E].
  destruct (checked_req_counts _ _ _ _ E1) as (-> & nm & vci & y & x & ? & ? & ? & ? & ? & ? & Hp & Hl).
  apply bind_inv in E as (j & s2 & _ & E). destruct (_ || _) eqn:Ec; [by injection E|].
  apply orb_false_iff in Ec as [Ec1 Ec2]. zprop. exists nm, vci, y, x, (r_v cur), (r_d cur).
  rewrite <- Hp, <- Hl. split_and!; done.
Qed.

Lemma check_requests_justify nm n d (s s' : St) i :
  zlen (vcs (me s)) < 2 ^ 31 → is_primary e (v (me s)) = false → nv (me s) = Some nm →
  chars nm →
  check_requests parent_pp parent_prepare e nm n d s = Ret (true, s') → n < i < NV.nmax nm →
  ∃ vci y x rv rd, NV.which_picked nm i = Ret vci ∧ zget (vcs (me s)) vci = Some y ∧ vc y = Some x ∧
    VC.req x i = Ret (rv, rd) ∧ VC.last_stable x < i ∧
    max_faulty + 1 ≤ zlen (voters (supports i rv rd) (vcs (me s))) ∧
    threshold ≤ zlen (voters (at_most i rv) (vcs (me s))).
Proof.
  intros Hlen Hp Hnm Hc E Hi. unfold check_requests in E. destruct (n + 1 =? _) eqn:En; [zprop; lia|]. zprop.
  apply bind_inv in E as ([] & s1 & E1 & E). apply lift_inv in E1 as [_ ->].
  apply bind_inv in E as ([] & s1 & E1 & E). injection E1 as <-.
  apply bind_inv in E as (o & s2 & E1 & E). injection E as Eo <-. apply bool_decide_eq_true in Eo as [[] ->].
  apply (loop_all frozen) with (x := i) in E1 as (s3 & s4 & HR & E1);
    [|intros j _; apply frozen_check_req|apply elem_of_seqZ; lia].
  destruct (HR Hp) as (_ & En3 & Ec3). cbn in En3, Ec3. rewrite <- Ec3.
  destruct (check_req_justifies _ _ _ E1) as (nm' & vci & y & x & rv & rd & Enm & Hw & Ey & Hrest).
  assert (nm' = nm) as -> by congruence. exists vci, y, x, rv, rd.
  unfold at_ in Ey. rewrite (picked_int _ _ _ Hc Hw) in Ey. by apply of_option_Ret in Ey.
Qed.

(** The message and the array of view-changes of a backup whose check succeeds. *)
Lemma check_new_view_justified nm (s s' : St) :
  zlen (vcs (me s)) < 2 ^ 31 → is_primary e (v (me s)) = false → nv (me s) = Some nm → chars nm →
  check_new_view parent_pp parent_prepare e s = Ret (true, s') →
  ∃ n d, justified nm (vcs (me s)) n d.
Proof.
  intros Hlen Hp Hnm Hc E. unfold check_new_view in E.
  apply bind_inv in E as (x0 & s1 & E1 & E). injection E1 as <- <-.
  apply bind_inv in E as ([] & s1 & (_ & ->)%lift_inv & E).
  apply bind_inv in E as (nm' & s1 & E1 & E). apply message_inv in E1 as [-> E1]. simplify_eq.
  apply bind_inv in E as (cid & s1 & (Hw & ->)%lift_inv & E).
  apply bind_inv in E as (x & s1 & E1 & E). apply stored_vc_inv in E1 as (-> & y & Hy & Hx).
  rewrite (picked_int _ _ _ Hc Hw) in Hy.
  apply bind_inv in E as ([] & s1 & E1 & E). injection E1 as <-.
  destruct (negb _) eqn:Emin; [by injection E|]. apply negb_false_iff in Emin. zprop.
  apply bind_inv in E as ([] & s1 & E1 & E). injection E1 as <-.
  apply bind_inv in E as ([d|] & s1 & (Ed & ->)%lift_inv & E); [|by injection E].
  apply bind_inv in E as ([np nl] & s1 & E1 & E).
  apply count_ckpt_counts in E1 as (-> & Enp & Enl); [|intros i ?%elem_of_seqZ; lia]. cbn in Enp, Enl.
  destruct (_ || _) eqn:Ec in E; [by injection E|]. apply orb_false_iff in Ec as [Ec1 Ec2]. zprop.
  apply bind_inv in E as ([] & s1 & E1 & E). injection E1 as <-.
  destruct (_ <? threshold) eqn:Em in E; [by injection E|]. zprop.
  apply bind_inv in E as ([] & s1 & E1 & E). injection E1 as <-.
  exists (VC.last_stable x), d. constructor.
  - done.
  - etrans; [exact Ec1|]. rewrite Enp. apply voters_others, (voters_at _ _ _ y); [done|]. unfold votes. rewrite Hx.
    unfold has_ckpt. rewrite Ed. by apply Dig.operator_eq_spec.
  - etrans; [exact Ec2|]. rewrite Enl. apply voters_others, (voters_at _ _ _ y); [done|]. unfold votes. rewrite Hx.
    apply Z.leb_refl.
  - by rewrite voters_count.
  - intros i Hi. eapply (check_requests_justify _ _ _ _ _ i) in E; done.
Qed.

Lemma frozen_check_new_view : keeps frozen (check_new_view parent_pp parent_prepare e).
Proof.
  pose proof frozen_check_req. unfold check_new_view, check_requests, count_ckpt, vc_at, self. keeps_tac.
Qed.

(** The digest of a request of the new view is that of the view-change it is picked from. *)
Lemma fetch_request_digest i (s s' : St) nm vci y x rv d pp d' :
  nv (me s) = Some nm → chars nm → NV.which_picked nm i = Ret vci → zget (vcs (me s)) vci = Some y → vc y = Some x →
  VC.req x i = Ret (rv, d) → 0 ≤ rv → d ≠ Dig.zero →
  fetch_request e i s = Ret ((pp, d'), s') → d' = d.
Proof.
  intros Hnm Hc Hw Hy Hx Hr Hrv Hd E. unfold fetch_request in E.
  apply bind_inv in E as (s0 & s1 & E1 & E). injection E1 as <- <-.
  apply bind_inv in E as ([] & s1 & (_ & ->)%lift_inv & E).
  apply bind_inv in E as (nm' & s1 & E1 & E). apply message_inv in E1 as [-> E1]. simplify_eq.
  apply bind_inv in E as ([] & s1 & (_ & ->)%lift_inv & E).
  apply bind_inv in E as (vci' & s1 & (Hw' & ->)%lift_inv & E). assert (vci' = vci) as -> by congruence.
  apply bind_inv in E as (x' & s1 & E1 & E). apply stored_vc_inv in E1 as (-> & y' & Hy' & Hx').
  rewrite (picked_int _ _ _ Hc Hw), Hy in Hy'. simplify_eq. rewrite Hr in E.
  apply bind_inv in E as ([pv d0] & s1 & (E1 & ->)%lift_inv & E). injection E1 as <- <-.
  apply bind_inv in E as ([pp1 d1] & s1 & E1 & E).
  assert (d1 = d) as ->.
  { assert ((0 <=? rv) && negb (Dig.operator_eq d Dig.zero) = true) as Hb.
    { apply andb_true_iff. split; [by apply Z.leb_le|]. apply negb_true_iff.
      destruct (Dig.operator_eq d Dig.zero) eqn:Ez; [|done]. by apply Dig.operator_eq_spec in Ez. }
    rewrite Hb in E1. run_inv. done. }
  destruct (is_primary e _); [|by injection E]. run_inv. done.
Qed.
End backup.

(** ** What survives the change of views *)
Section survival.
Context `{Config} `{!ConfigOk}.
Context (faulty : gset Z) (Hfaulty : Z.of_nat (size faulty) ≤ max_faulty).

Definition voter_set (P : VC.View_change → bool) (l : list VC_info) : gset Z := list_to_set (voters P l).

Lemma size_voter_set P l : Z.of_nat (size (voter_set P l)) = zlen (voters P l).
Proof. unfold voter_set. by rewrite size_list_to_set by apply voters_NoDup. Qed.

Lemma voter_set_replicas P l : zlen l = num_replicas → voter_set P l ⊆ replica_set.
Proof.
  intros Hl i. unfold voter_set. rewrite elem_of_list_to_set, elem_of_voters, elem_of_replicas, is_replica_spec.
  intros (y & _ & Hy & _). apply zget_Some_lt in Hy. lia.
Qed.

Lemma correct_voter P l : max_faulty + 1 ≤ zlen (voters P l) → ∃ i, i ∈ voters P l ∧ i ∉ faulty.
Proof.
  intros Hs. destruct (set_choose_or_empty (voter_set P l ∖ faulty)) as [[i Hi]|He].
  - apply elem_of_difference in Hi as [Hi ?]. unfold voter_set in Hi. apply elem_of_list_to_set in Hi. by exists i.
  - exfalso. assert (voter_set P l ⊆ faulty) as Hsub.
    { intros i Hi. destruct (decide (i ∈ faulty)); [done|].
      assert (i ∈ voter_set P l ∖ faulty) as Hin by by apply elem_of_difference.
      by apply He, not_elem_of_empty in Hin. }
    apply subseteq_size in Hsub. rewrite <- size_voter_set in Hs. lia.
Qed.

(** What the view-change [x] of the correct replica [j] says of the number [i], when the
    replicas of [Q] have prepared the digest [d0] for it in view [v0].  A member of [Q]
    reports that digest as prepared, in [v0] or a later view, unless a checkpoint from
    [i] on is stable; and what a correct replica sent since [v0], or declares as
    impossible, does not contradict the quorum. *)
Record report (Q : gset Z) (i v0 : Z) (d0 : Dig.Digest) (j : Z) (x : VC.View_change) : Prop := {
  rep_reqs : 0 ≤ VC.n_reqs x;
  rep_member : j ∈ Q → i ≤ VC.last_stable x ∨
    i ≤ VC.max_seqno x ∧ ∀ rv rd, VC.req x i = Ret (rv, rd) → v0 ≤ rv;
  rep_prepared ri : VC.proofs x i = Ret (Some (ri, true)) → v0 ≤ VC.lv ri → VC.d ri = d0;
  rep_sent ri : VC.proofs x i = Ret (Some (ri, false)) → (v0 ≤ VC.v ri → VC.d ri = d0) ∧ VC.lv ri < v0;
}.

Lemma justified_keeps (nm : NV.New_view) (l : list VC_info) n d Q i v0 d0 :
  justified nm l n d → zlen l = num_replicas → 0 ≤ v0 →
  Q ⊆ replica_set → threshold ≤ Z.of_nat (size Q) →
  (∀ j y x, zget l j = Some y → vc y = Some x → j ∉ faulty → report Q i v0 d0 j x) →
  i ≤ n ∨ i < NV.nmax nm ∧ ∃ vci y x rv, NV.which_picked nm i = Ret vci ∧ zget l vci = Some y ∧ vc y = Some x ∧
    VC.req x i = Ret (rv, d0) ∧ v0 ≤ rv.
Proof.
  intros [_ _ _ Hmax Hreq] Hl Hv0 HQ HQs Hrep. destruct (decide (i ≤ n)) as [|Hn]; [by left|]. right.
  pose proof config_faulty as Hf.
  assert (∀ P, threshold ≤ zlen (voters P l) → ∃ j y x, zget l j = Some y ∧ vc y = Some x ∧ P x = true ∧
    j ∈ Q ∧ report Q i v0 d0 j x) as Hmeet.
  { intros P HP. destruct (quorum_intersection Q (voter_set P l) faulty) as (j & Hj & Hj' & Hjf);
      [lia|done|by apply voter_set_replicas|done|by rewrite size_voter_set|done|].
    apply elem_of_list_to_set, elem_of_voters in Hj' as (y & x & Hy & Hx & HPx). exists j, y, x. eauto 10. }
  assert (i < NV.nmax nm) as Hi.
  { destruct (Hmeet _ Hmax) as (j & y & x & _ & _ & HP & Hj & [Hr Hm _ _]). zprop. specialize (Hm Hj).
    unfold VC.max_seqno, VC.last_stable in *. lia. }
  split; [done|]. destruct (Hreq i) as (vci & y & x & rv & rd & Hw & Hy & Hx & Er & Hlt & Hp & Hle); [lia|].
  assert (v0 ≤ rv) as Hrv.
  { destruct (Hmeet _ Hle) as (j & y' & x' & _ & _ & HP & Hj & [_ Hm _ _]). unfold at_most in HP.
    destruct (VC.req x' i) as [[v' d']|] eqn:Er'; [|done]. zprop. destruct (Hm Hj) as [Hst|[_ Hm']].
    - exfalso. unfold VC.req in Er'. rewrite (proj2 (Z.ltb_ge _ _)) in Er' by lia. done.
    - specialize (Hm' _ _ eq_refl). lia. }
  destruct (correct_voter _ _ Hp) as (j & Hj & Hjf). apply elem_of_voters in Hj as (y' & x' & Hy' & Hx' & HP).
  destruct (Hrep _ _ _ Hy' Hx' Hjf) as [_ _ Hprep Hsent].
  assert (rd = d0) as ->; [|by exists vci, y, x, rv].
  unfold supports in HP. destruct (VC.proofs x' i) as [[[ri []]|]|] eqn:Ep; [| | |done].
  - apply andb_true_iff in HP as [Hlv Hd]. zprop. apply Dig.operator_eq_spec in Hd as <-. apply (Hprep ri); [done|lia].
  - destruct (Hsent ri eq_refl) as [Hd0 Hlv]. apply orb_true_iff in HP as [HP|HP]; [|zprop; lia].
    apply andb_true_iff in HP as [Hv Hd]. zprop. apply Dig.operator_eq_spec in Hd as <-. apply Hd0. lia.
  - apply andb_true_iff in HP as [_ Hv]. zprop. lia.
Qed.
End survival.

(** C2: a new view keeps what was prepared by a quorum.  A backup has all the view-changes
    that a new-view message names and its check of the message succeeds; [2f+1] replicas
    have prepared the digest [d0] for the number [i] in view [v0], and the view-changes of
    the correct replicas (all but [f]) report what they know.  Then the new view starts
    from a checkpoint at or above [i], or it proposes [d0] for [i]: the view-change that
    the primary picked for [i] has [d0], with view [v0] or later, and every pre-prepare
    that the backup afterwards takes from the new view for [i] comes with that digest. *)
Theorem new_view_keeps_prepared `{Config} `{World} {msg : Type} (Hc : ConfigOk) parent_pp parent_prepare (e : env)
    (s s' : St (msg := msg)) (nm : NV.New_view) (faulty Q : gset Z) (i v0 : Z) (d0 : Dig.Digest) :
  nv (me s) = Some nm → chars nm → zlen (vcs (me s)) = num_replicas → is_primary e (v (me s)) = false →
  check_new_view parent_pp parent_prepare e s = Ret (true, s') →
  Z.of_nat (size faulty) ≤ max_faulty → Q ⊆ replica_set → threshold ≤ Z.of_nat (size Q) → 0 ≤ v0 → d0 ≠ Dig.zero →
  (∀ j y x, zget (vcs (me s)) j = Some y → vc y = Some x → j ∉ faulty → report Q i v0 d0 j x) →
  i ≤ NV.nmin nm ∨
  i < NV.nmax nm ∧
  (∃ vci y x rv, NV.which_picked nm i = Ret vci ∧ zget (vcs (me s)) vci = Some y ∧ vc y = Some x ∧
     VC.req x i = Ret (rv, d0) ∧ v0 ≤ rv) ∧
  (∀ pp d s2, fetch_request e i s' = Ret ((pp, d), s2) → d = d0).
Proof.
  intros Hnm Hch Hl Hp E Hfa HQ HQs Hv0 Hd0 Hrep. pose proof config_replicas. pose proof config_max_replicas.
  destruct (check_new_view_justified parent_pp parent_prepare e nm s s') as (n & d & Hj); [lia|done..|].
  destruct (frozen_check_new_view parent_pp parent_prepare e _ _ _ E Hp) as (_ & En & Ev).
  rewrite <- (j_min _ _ _ _ Hj).
  destruct (justified_keeps faulty Hfa nm _ n d Q i v0 d0 Hj Hl Hv0 HQ HQs Hrep)
    as [?|(? & vci & y & x & rv & Hw & Hy & Hx & Hr & Hrv)]; [by left|right].
  split; [done|]. split; [by exists vci, y, x, rv|]. intros pp d' s2 Ef.
  eapply (fetch_request_digest e i s' s2 nm vci y x rv d0); rewrite ?En, ?Ev; try done. lia.
Qed.

(** *** A concrete new view: replica 2 checks the message of replica 1 for view 1, with the
    view-changes of 0, 2 and 3; the last one is of a faulty replica and reports nothing. *)
Definition sample_d (x : Z) : Dig.Digest := PP.sample_digest_of [x].
Definition sample_view_change (i : Z) : VC.View_change :=
  if i =? 3 then VC.mkVc 0 0 1 0 [sample_d 1; Dig.zero; Dig.zero] i 1 0 [0] Dig.zero [] []
  else VC.mkVc 0 0 1 0 [sample_d 1; Dig.zero; Dig.zero] i 1 1 [1] Dig.zero [VC.mkReqInfo 0 0 (sample_d 2)] [].
Definition sample_new_view : NV.New_view :=
  NV.mkNv 0 0 1 0 2 [sample_d 5; Dig.zero; sample_d 6; sample_d 7] [0; 0] [].

Definition sample_pp : PP.Pre_prepare := PP.mkPp 0 200 0 1 (sample_d 2) 0 0 (replicate 136 0).
Definition sample_parent_pp (_ : Z) (_ : Dig.Digest) : outcome (option PP.Pre_prepare) := Ret (Some sample_pp).
Definition sample_prepare (_ : Z) (_ : Dig.Digest) : outcome bool := Ret true.
Definition sample_env : env := mkEnv (mkKeys sample_principals (λ v, v `mod` 4)) 1.

Definition sample_info (i : Z) : VC_info := mkVcInfo (Some (sample_view_change i)) 0 (BM.make 4 false) false.
Definition sample_nvi : NV_info :=
  set_msgs (make (H := SampleNode.config 2)) 1 (Some sample_new_view) 3 3
    [sample_info 0; mkVcInfo None 0 (BM.make 4 false) false; sample_info 2; sample_info 3].

Definition sample_check :=
  check_new_view (H := SampleNode.config 2) (H0 := SampleNode.world) (msg := Z) sample_parent_pp sample_prepare sample_env
    (mkSt sample_nvi []).
Definition sample_checked : NVI.St (msg := Z) := match sample_check with Ret (_, s) => s | Err _ => mkSt sample_nvi [] end.

Lemma sample_check_ok : sample_check = Ret (true, sample_checked).
Proof.
  assert (match sample_check with Ret (b, _) => b | Err _ => false end = true) as Hb by (vm_compute; reflexivity).
  unfold sample_checked. destruct sample_check as [[b x]|]; [by subst|done].
Qed.

Lemma sample_reports j y x : zget (vcs sample_nvi) j = Some y → vc y = Some x → j ∉ ({[3]} : gset Z) →
  report (H := SampleNode.config 2) {[0; 1; 2]} 1 0 (sample_d 2) j x.
Proof.
  intros Hy Hx Hj. assert (j = 0 ∨ j = 1 ∨ j = 2 ∨ j = 3) as Hc.
  { apply zget_Some_lt in Hy. change (zlen (vcs sample_nvi)) with 4 in Hy. lia. }
  assert (j ≠ 3) by set_solver.
  assert (x = sample_view_change 0 ∨ x = sample_view_change 2) as [-> | ->].
  { destruct Hc as [->|[->|[->| ->]]]; injection Hy as <-; try discriminate Hx; injection Hx as <-; by auto. }
  all: constructor; [done|intros _; right; split; [done|by intros rv rd [= <- <-]]|by intros ri [= <-]|by intros ri [= <-]].
Qed.

Lemma new_view_keeps_prepared_witness :
  1 ≤ 0 ∨ 1 < 2 ∧
  (∃ vci y x rv, NV.which_picked sample_new_view 1 = Ret vci ∧ zget (vcs sample_nvi) vci = Some y ∧ vc y = Some x ∧
     VC.req (H := SampleNode.config 2) x 1 = Ret (rv, sample_d 2) ∧ 0 ≤ rv) ∧
  (∀ pp d s2, fetch_request (H := SampleNode.config 2) (H0 := SampleNode.world) sample_env 1 sample_checked = Ret ((pp, d), s2) →
     d = sample_d 2).
Proof.
  refine (new_view_keeps_prepared (H := SampleNode.config 2) (H0 := SampleNode.world) (SampleNode.config_ok 2 _)
    sample_parent_pp sample_prepare sample_env (mkSt sample_nvi []) sample_checked sample_new_view
    {[3]} {[0; 1; 2]} 1 0 (sample_d 2) _ _ _ _ sample_check_ok _ _ _ _ _ sample_reports).
  - lia.
  - reflexivity.
  - repeat constructor; done.
  - reflexivity.
  - reflexivity.
  - vm_compute. discriminate.
  - intros q Hq. apply elem_of_replicas, is_replica_spec. change (0 ≤ q < 4).
    apply elem_of_union in Hq as [[->%elem_of_singleton| ->%elem_of_singleton]%elem_of_union| ->%elem_of_singleton]; lia.
  - vm_compute. discriminate.
  - lia.
  - discriminate.
Defined.
End NVS.
