(* ===== verification/NewViewLiveness.v ===== *)
(** * NewViewLiveness: when the primary of a new view waits in vain

    [NVI.summarize_reqs] at the primary counts for every reported request the view-changes
    that do not report a later one.  The count of a request that is reported for the
    first time starts from the requests before it instead of the view-changes. *)
From S2P Require Import Prelude Node Bitmap Certificate Messages PrePrepare ViewChange StateMonad World NewView NVInfo.
From S2P Require Import NewViewSafety.
Import Auth.

Module NVL.
Import NVI.
Section primary.
Context `{Config} `{World} {msg : Type}.
Context (parent_pp : Z → Dig.Digest → outcome (option PP.Pre_prepare)) (parent_prepare : Z → Dig.Digest → outcome bool).
Context (e : env).

#[local] Abbreviation St := (St (msg := msg)).

(** Row [i] of the requests. *)
Definition row (s : St) (i : Z) : outcome (list Req_sum) := at_ (reqs (me s)) (i - base (me s)).

(** The new view is not complete, and row [i] is one of those that are missing. *)
Definition pending (s : St) (i : Z) : Prop :=
  is_complete (me s) = false ∧ n_complete (me s) ≠ max (me s) - min (me s) - 1 ∧
  ∃ c, at_ (comp_reqs (me s)) (i - base (me s)) = Ret c ∧ c < 0.

Lemma row_set (s : St) i l l' :
  row s i = Ret l →
  row (mkSt (set_reqs (me s) (zset (reqs (me s)) (to_int (i - base (me s))) l') (comp_reqs (me s)) (n_complete (me s))) (fx s)) i =
    Ret l'.
Proof.
  unfold row, at_. cbn. intros E%of_option_Ret. apply of_option_Ret, zget_zset_eq. by eapply zget_Some_lt.
Qed.

(** Too few view-changes for the entry [j]: nothing happens. *)
Lemma check_comp_waits (s : St) i j l cur :
  pending s i → row s i = Ret l → at_ l j = Ret cur → r_le cur < threshold →
  check_comp parent_pp parent_prepare e i j s = Ret (tt, s).
Proof.
  intros (Hc & Hn & c & Ec & Hneg) Hrow Hj Hle. unfold check_comp, self, row in *.
  erewrite bind_step by done. rewrite Hc. erewrite bind_step by done.
  erewrite (bind_step (lift _)) by (unfold lift; rewrite Ec; done).
  erewrite bind_step.
  2:{ unfold req_at, self. erewrite bind_step by done. erewrite bind_step by (unfold lift; rewrite Hrow; done).
      unfold lift. rewrite Hj. done. }
  rewrite (proj2 (Z.leb_gt threshold _)) by done. rewrite andb_false_r. unfold finish, self.
  erewrite bind_step by done. rewrite (proj2 (Z.eqb_neq _ _)) by done. done.
Qed.

Lemma check_comp_inv_waits (s : St) i j l cur u s' :
  pending s i → row s i = Ret l → at_ l j = Ret cur → r_le cur < threshold →
  check_comp parent_pp parent_prepare e i j s = Ret (u, s') → s' = s.
Proof. intros Hp Hrow Hj Hle E. erewrite check_comp_waits in E by done. by injection E. Qed.

Lemma req_at_inv i j (s : St) cur s' : req_at i j s = Ret (cur, s') → s' = s ∧ ∃ l, row s i = Ret l ∧ at_ l j = Ret cur.
Proof. unfold req_at, self, row. intros E. run_inv. eauto. Qed.

Lemma req_to_inv i j x (s : St) u s' : req_to i j x s = Ret (u, s') →
  ∃ l, row s i = Ret l ∧
    s' = mkSt (set_reqs (me s) (zset (reqs (me s)) (to_int (i - base (me s))) (zset l (to_int j) x)) (comp_reqs (me s))
           (n_complete (me s))) (fx s).
Proof.
  unfold req_to, self, row, update. intros E.
  apply bind_inv in E as (s0 & s1 & E1 & E). injection E1 as <- <-.
  apply bind_inv in E as (l & s1 & (El & ->)%lift_inv & E). exists l. split; [done|]. by injection E.
Qed.

Lemma append_req_inv i x (s : St) j s' l : pending s i → row s i = Ret l → append_req i x s = Ret (j, s') →
  j = zlen l ∧ pending s' i ∧ row s' i = Ret (l ++ [x]).
Proof.
  unfold append_req, self, update. intros Hp Hrow E.
  apply bind_inv in E as (s0 & s1 & E1 & E). injection E1 as <- <-.
  apply bind_inv in E as (l' & s1 & (El & ->)%lift_inv & E).
  assert (l' = l) as -> by (unfold row in Hrow; congruence).
  apply bind_inv in E as (u & s1 & E1 & E). injection E1 as _ <-. injection E as <- <-.
  split; [done|]. split; [exact Hp|]. by eapply row_set.
Qed.

(** An entry with an earlier view is visited: it is only counted among the lower ones. *)
Lemma visit_lower m i rv rd n_le j (s : St) l cur o s' :
  pending s i → row s i = Ret l → at_ l j = Ret cur → r_v cur < rv → r_le cur < threshold →
  visit_req parent_pp parent_prepare e m i rv rd (false, n_le) j s = Ret (o, s') →
  o = Some (false, n_le + 1) ∧ pending s' i ∧
  ∃ x, r_v x = r_v cur ∧ r_le x = r_le cur ∧ row s' i = Ret (zset l (to_int j) x).
Proof.
  intros Hp Hrow Hj Hv Hle E. unfold visit_req in E.
  apply bind_inv in E as (cur' & s1 & E1 & E). apply req_at_inv in E1 as (-> & l' & Hl' & Hj').
  assert (l' = l) as -> by congruence. assert (cur' = cur) as -> by congruence.
  apply bind_inv in E as (acc & s1 & E1 & E). rewrite (proj2 (Z.eqb_neq (r_v cur) rv)) in E1 by lia. cbn [andb] in E1.
  apply bind_inv in E1 as (x & s2 & (Ex & ->)%lift_inv & E1). apply bind_inv in E1 as (u & s2 & E2 & E1).
  rewrite (proj2 (Z.ltb_ge rv (r_v cur))), (proj2 (Z.ltb_lt (r_v cur) rv)) in * by lia. injection E1 as <- <-.
  apply req_to_inv in E2 as (l' & Hl2 & ->). assert (l' = l) as -> by congruence. clear Hl2.
  destruct (NVS.get_proofs_counts _ _ _ _ Ex) as (Hxv & _ & Hxl & _).
  set (s1 := mkSt _ _) in *.
  assert (row s1 i = Ret (zset l (to_int j) x)) as Hrow1 by (by eapply row_set).
  assert (pending s1 i) as Hp1 by exact Hp. clearbody s1.
  apply bind_inv in E as (u2 & s3 & E3 & E).
  eapply (check_comp_inv_waits _ _ _ _ x) in E3; [subst s3|exact Hp1|exact Hrow1| |lia].
  2:{ unfold at_ in *. apply of_option_Ret. apply of_option_Ret in Hj. apply zget_zset_eq. by eapply zget_Some_lt. }
  apply bind_inv in E as (st & s4 & E4 & E). injection E4 as <- <-.
  pose proof Hp1 as (Hc & _). rewrite Hc in E. injection E as <- <-. split; [done|]. split; [done|]. exists x. split_and!; done || lia.
Qed.
End primary.

(** The fold over the view-changes that are summarised already. *)
Lemma fold_proofs_frame `{Config} `{World} {msg : Type} i l cur (s : St (msg := msg)) cur' s' :
  fold_each l cur (λ cur x, if req_sum x then m' ← lift (of_option Undefined (vc x)); lift (get_proofs cur m' i) else mret cur) s
    = Ret (cur', s') →
  s' = s ∧ r_v cur' = r_v cur ∧ r_le cur' = r_le cur.
Proof.
  revert cur. induction l as [|y l IH]; intros cur E; [by injection E as <- <-|]. cbn [fold_each] in E.
  apply bind_inv in E as (c1 & s1 & E1 & E).
  assert (s1 = s ∧ r_v c1 = r_v cur ∧ r_le c1 = r_le cur) as (-> & Hv & Hl).
  { destruct (req_sum y); [|by injection E1 as <- <-].
    apply bind_inv in E1 as (m & s2 & (_ & ->)%lift_inv & E1). apply lift_inv in E1 as [E1 ->].
    destruct (NVS.get_proofs_counts _ _ _ _ E1) as (? & _ & ? & _). done. }
  destruct (IH _ E) as (-> & ? & ?). split_and!; congruence.
Qed.

(** C16: The primary of a new view does not count the view-changes below a request that is
    reported late.  When the view-changes so far report nothing for the number [i] (its
    row is one null request, with any count below [2f+1]), and a view-change then reports
    the request as prepared, the new entry starts with the count 2, however many
    view-changes were counted before: no entry of the row reaches [2f+1], the count of the
    null request stays what it was, and the new view stays incomplete. *)
Theorem late_report_uncounted `{Config} `{World} {msg : Type} (Hc : ConfigOk) parent_pp parent_prepare (e : env)
    (s s' : St (msg := msg)) (m : VC.View_change) (i rv : Z) (rd : Dig.Digest) (null : Req_sum) (o : option unit) :
  1 ≤ max_faulty → pending s i → row s i = Ret [null] → r_v null = -1 → r_le null < threshold →
  VC.req m i = Ret (rv, rd) → 0 ≤ rv →
  summarize_row parent_pp parent_prepare e m i s = Ret (o, s') →
  pending s' i ∧ ∃ x y, row s' i = Ret [x; y] ∧
    r_v x = -1 ∧ r_le x = r_le null ∧ r_v y = rv ∧ r_le y = 2 ∧ r_le y < threshold.
Proof.
  intros Hf Hp Hrow Hnv Hle Hreq Hrv E. unfold summarize_row in E.
  assert (2 < threshold) as H2 by (unfold threshold, num_replicas; lia).
  apply bind_inv in E as (s0 & s1 & E1 & E). injection E1 as <- <-.
  apply bind_inv in E as (l & s1 & (El & ->)%lift_inv & E). assert (l = [null]) as -> by (unfold row in Hrow; congruence).
  rewrite Hreq in E. apply bind_inv in E as ([rv' rd'] & s1 & (E1 & ->)%lift_inv & E). injection E1 as <- <-.
  apply bind_inv in E as (o1 & s1 & E1 & E). cbn in E1.
  apply bind_inv in E1 as (o2 & s2 & E2 & E1).
  eapply (visit_lower parent_pp parent_prepare e m i rv rd 0 0) in E2 as (-> & Hp2 & x & Hxv & Hxl & Hrow2);
    [|exact Hp|exact Hrow|done|lia|done].
  injection E1 as <- <-. cbn in Hrow2.
  apply bind_inv in E as (st & s3 & E3 & E). injection E3 as <- <-.
  apply bind_inv in E as (y & s3 & E3 & E). apply fold_proofs_frame in E3 as (-> & Hyv & Hyl). cbn in Hyv, Hyl.
  change (zset [null] (to_int 0) x) with [x] in Hrow2.
  apply bind_inv in E as (j & s3 & E3 & E). apply (append_req_inv _ _ _ _ _ [x]) in E3 as (-> & Hp3 & Hrow3); [|done..].
  apply bind_inv in E as (u & s4 & E4 & E).
  apply (check_comp_inv_waits parent_pp parent_prepare e _ i _ [x; y] y) in E4; [subst s4|done..|lia].
  injection E as <- <-. split; [done|]. exists x, y. split_and!; done || lia.
Qed.

(** *** A concrete row: the view-changes of 1 and 3 report nothing for the number 1, then the
    one of replica 2 reports a prepared request; the primary is replica 1. *)
Definition sample_nothing (i : Z) : VC.View_change :=
  VC.mkVc 0 0 1 0 [NVS.sample_d 1; Dig.zero; Dig.zero] i 1 0 [0] Dig.zero [] [].
Definition sample_null : Req_sum := mkReqSum (-1) Dig.zero 2 0 (BM.make 4 false) None 2 1.
Definition sample_state : St (msg := Z) :=
  let info i m := mkVcInfo (Some m) 3 (BM.make 4 false) true in
  mkSt (set_reqs (set_chosen (set_msgs (make (H := SampleNode.config 1)) 1 (Some NVS.sample_new_view) 3 3
          [mkVcInfo None 0 (BM.make 4 false) false; info 1 (sample_nothing 1); info 2 (NVS.sample_view_change 2);
           info 3 (sample_nothing 3)]) 0 0 2 0)
          [[]; [sample_null]] [-1; -1] 0) [].
Definition sample_run :=
  summarize_row (H := SampleNode.config 1) (H0 := SampleNode.world) (msg := Z) NVS.sample_parent_pp NVS.sample_prepare
    NVS.sample_env (NVS.sample_view_change 2) 1 sample_state.
Definition sample_result : St (msg := Z) := match sample_run with Ret (_, s) => s | Err _ => sample_state end.

Lemma sample_run_ok : sample_run = Ret (Some tt, sample_result).
Proof.
  assert (match sample_run with Ret (Some _, _) => true | _ => false end = true) as Hb by (vm_compute; reflexivity).
  unfold sample_result. destruct sample_run as [[[[]|] x]|]; done.
Qed.

Lemma late_report_uncounted_witness :
  pending sample_result 1 ∧ ∃ x y, row sample_result 1 = Ret [x; y] ∧
    r_v x = -1 ∧ r_le x = 2 ∧ r_v y = 0 ∧ r_le y = 2 ∧ 2 < 3.
Proof.
  destruct (late_report_uncounted (H := SampleNode.config 1) (H0 := SampleNode.world) (SampleNode.config_ok 1 ltac:(lia))
    NVS.sample_parent_pp NVS.sample_prepare NVS.sample_env sample_state sample_result (NVS.sample_view_change 2) 1 0
    (NVS.sample_d 2) sample_null (Some tt)) as (Hp & x & y & Hr & Hx & Hlx & Hy & Hly & _).
  - cbn. lia.
  - split_and!; [done..|]. exists (-1). done.
  - done.
  - done.
  - done.
  - vm_compute. reflexivity.
  - lia.
  - exact sample_run_ok.
  - split; [exact Hp|]. exists x, y. split_and!; done.
Defined.
End NVL.
