(* ===== verification/ViewInfo.v ===== *)
(** * View_info: what a replica knows about view changes (src/src/View_info.{h,cc})

    The log of the requests that prepared or pre-prepared in earlier views, the latest
    view-change of every replica, the acknowledgements, and one NV_info (NVInfo.v) for
    every primary.  The methods are computations on the object and its effects, in the
    default build. *)
From S2P Require Import Prelude Node KMax SeqLog Certificate Messages PrePrepare ViewChange StateMonad World NewView NVInfo.
Import Auth.

(** The messages that the view information sends. *)
Inductive vi_msg :=
| MVc (m : VC.View_change)
| MAck (m : View_change_ack)
| MNv (m : NV.New_view)
| MPrepare (m : Prepare).

Module VI.
Section view_info.
Context `{Config} `{World}.

(** ** The object *)
Record ODigest_info := mkOd { od_d : Dig.Digest; od_v : Z }.

Record OReq_info := mkOreq {
  o_lv : Z; o_v : Z; o_d : Dig.Digest; o_m : option PP.Pre_prepare; o_ods : list ODigest_info;
}.

Record VCA_info := mkVca { va_v : Z; va_acks : list (option View_change_ack) }.

Record View_info := mkVi {
  v : Z; id : Z; last_stable : Z;
  oplog : Log.t OReq_info;
  last_views : list Z; last_vcs : list (option VC.View_change);
  my_vacks : list (option View_change_ack); vacks : list VCA_info;
  last_nvs : list NVI.NV_info;
  vc_sent : Z;
}.

Definition new_oreq : OReq_info :=
  mkOreq (-1) (-1) Dig.zero None (replicate (Z.to_nat (max_faulty + 2)) (mkOd Dig.zero (-1))).

(** [OReq_info::clear] keeps the old digests and forgets their views. *)
Definition oreq_clear (x : OReq_info) : OReq_info :=
  mkOreq (-1) (-1) Dig.zero None ((λ od, mkOd (od_d od) (-1)) <$> o_ods x).

Definition none_per_replica {A} : list (option A) := replicate (Z.to_nat num_replicas) None.
Definition vca_clear : VCA_info := mkVca 0 none_per_replica.

Definition make (ident vi : Z) : View_info :=
  mkVi vi ident 0 (Log.make max_out 1 new_oreq) (replicate (Z.to_nat num_replicas) 0) none_per_replica
    none_per_replica (replicate (Z.to_nat num_replicas) vca_clear) (replicate (Z.to_nat num_replicas) NVI.make) 0.

Definition set_oplog (s : View_info) l : View_info :=
  mkVi (v s) (id s) (last_stable s) l (last_views s) (last_vcs s) (my_vacks s) (vacks s) (last_nvs s) (vc_sent s).
Definition set_stable (s : View_info) n l : View_info :=
  mkVi (v s) (id s) n l (last_views s) (last_vcs s) (my_vacks s) (vacks s) (last_nvs s) (vc_sent s).
Definition set_views (s : View_info) l : View_info :=
  mkVi (v s) (id s) (last_stable s) (oplog s) l (last_vcs s) (my_vacks s) (vacks s) (last_nvs s) (vc_sent s).
Definition set_vcs (s : View_info) l : View_info :=
  mkVi (v s) (id s) (last_stable s) (oplog s) (last_views s) l (my_vacks s) (vacks s) (last_nvs s) (vc_sent s).
Definition set_acks (s : View_info) mine others : View_info :=
  mkVi (v s) (id s) (last_stable s) (oplog s) (last_views s) (last_vcs s) mine others (last_nvs s) (vc_sent s).
Definition set_nvs (s : View_info) l : View_info :=
  mkVi (v s) (id s) (last_stable s) (oplog s) (last_views s) (last_vcs s) (my_vacks s) (vacks s) l (vc_sent s).
Definition set_view (s : View_info) x : View_info :=
  mkVi x (id s) (last_stable s) (oplog s) (last_views s) (last_vcs s) (my_vacks s) (vacks s) (last_nvs s) (vc_sent s).
Definition set_sent (s : View_info) t : View_info :=
  mkVi (v s) (id s) (last_stable s) (oplog s) (last_views s) (last_vcs s) (my_vacks s) (vacks s) (last_nvs s) t.

Record St := mkSt { me : View_info; fx : list (vi_effect vi_msg) }.

#[local] Abbreviation M := (ST St).
#[local] Abbreviation at_ := NVI.at_.

Definition self : ST St View_info := gets me.
Definition update (f : View_info → View_info) : ST St unit := modify (λ s, mkSt (f (me s)) (fx s)).
Definition effects (l : list (vi_effect vi_msg)) : ST St unit := modify (λ s, mkSt (me s) (fx s ++ l)).
Definition send (m : vi_msg) (dst : Z) : ST St unit := effects [VSend m dst].

(** ** The log of requests *)
Definition oplog_fetch (n : Z) : M OReq_info := s ← self; lift (Log.fetch (oplog s) n).
Definition oplog_store (n : Z) (x : OReq_info) : M unit := update (λ s, set_oplog s (Log.store (oplog s) n x)).

(** The entry after a request prepared. *)
Definition oreq_complete (pp : PP.Pre_prepare) (ri : OReq_info) : OReq_info :=
  mkOreq (PP.view pp) (PP.view pp) (PP.digest pp) (Some pp) (o_ods (oreq_clear ri)).

Definition add_complete (pp : PP.Pre_prepare) : M unit :=
  s ← self;
  _ ← assert_ (PP.view pp =? v s);
  ri ← oplog_fetch (PP.seqno pp);
  _ ← assert_ ((0 <=? PP.view pp) && (o_v ri <? PP.view pp));
  oplog_store (PP.seqno pp) (oreq_complete pp ri).

(** The place in [ods] for the digest [d]: that of the same digest, or else the first one
    with the lowest view. *)
Fixpoint place (d : Dig.Digest) (l : list ODigest_info) (i minv mini : Z) : Z :=
  match l with
  | [] => mini
  | od :: l =>
      if Dig.operator_eq (od_d od) d then i
      else if od_v od <? minv then place d l (i + 1) (od_v od) i else place d l (i + 1) minv mini
  end.

Definition remember (d : Dig.Digest) (lv : Z) (ods : list ODigest_info) : list ODigest_info :=
  zset ods (place d ods 0 View_max 0) (mkOd d lv).

(** The entry after a pre-prepare or prepare was sent in view [vw] for a request that did
    not prepare. *)
Definition oreq_incomplete (vw : Z) (d : Dig.Digest) (ri : OReq_info) : OReq_info :=
  if Dig.operator_eq (o_d ri) d then
    match o_m ri with
    | Some _ => mkOreq vw (o_v ri) (o_d ri) (o_m ri) (o_ods ri)
    | None => mkOreq (o_lv ri) vw (o_d ri) None (o_ods ri)
    end
  else
    let lv := match o_m ri with Some _ => o_lv ri | None => o_v ri end in
    mkOreq lv vw d None (remember (o_d ri) lv (o_ods ri)).

Definition add_incomplete (n : Z) (d : Dig.Digest) : M unit :=
  s ← self;
  ri ← oplog_fetch n;
  oplog_store n (oreq_incomplete (v s) d ri).

(** [pre_prepare] by digest and by view, and [prepare]: pure observers of the log. *)
Definition logged (l : Log.t OReq_info) (n : Z) (wanted : OReq_info → bool) (check : OReq_info → PP.Pre_prepare → bool)
    : outcome (option PP.Pre_prepare) :=
  if Log.within_range l n then
    ri ← Log.fetch l n;
    match o_m ri with
    | Some m => if wanted ri then _ ← th_assert (check ri m); Ret (Some m) else Ret None
    | None => Ret None
    end
  else Ret None.

Definition pre_prepare (l : Log.t OReq_info) (n : Z) (d : Dig.Digest) : outcome (option PP.Pre_prepare) :=
  logged l n (λ ri, Dig.operator_eq (o_d ri) d)
    (λ ri m, Dig.operator_eq (PP.digest m) (o_d ri) && (PP.seqno m =? n)).

Definition pre_prepare_since (l : Log.t OReq_info) (n vw : Z) : outcome (option PP.Pre_prepare) :=
  logged l n (λ ri, vw <=? o_v ri) (λ _ m, PP.seqno m =? n).

Definition prepare (l : Log.t OReq_info) (n : Z) (d : Dig.Digest) : outcome bool :=
  if Log.within_range l n then
    ri ← Log.fetch l n;
    Ret (Dig.operator_eq (o_d ri) d || existsb (λ od, Dig.operator_eq (od_d od) d) (o_ods ri))
  else Ret false.

Context (e : env).

(** [last_nvs[i].method(...)] *)
Definition with_nv {A} (i : Z) (m : ST (NVI.St (msg := vi_msg)) A) : M A :=
  s ← self;
  n ← lift (at_ (last_nvs s) i);
  '(a, t) ← lift (m (NVI.mkSt n []));
  _ ← update (λ s, set_nvs s (zset (last_nvs s) (to_int i) (NVI.me t)));
  _ ← effects (NVI.fx t);
  mret a.

Definition nv_at (i : Z) : M NVI.NV_info := s ← self; lift (at_ (last_nvs s) i).

Definition nv_add_nv (i : Z) (m : NV.New_view) : M bool := with_nv i (NVI.add_nv e m).
Definition nv_add_vc (i : Z) (m : VC.View_change) (verified : bool) : M bool :=
  s ← self; with_nv i (NVI.add_vc (pre_prepare (oplog s)) (prepare (oplog s)) e m verified).
Definition nv_add_vca (i : Z) (m : View_change_ack) : M bool :=
  s ← self; with_nv i (NVI.add_vca (pre_prepare (oplog s)) (prepare (oplog s)) e m).

Definition send_proofs (n vi dest : Z) : M unit :=
  s ← self;
  when (Log.within_range (oplog s) n)
    (ri ← oplog_fetch n;
     p ← lift (of_option Undefined (i_to_p (principals (e_keys e)) dest));
     for_each (o_ods ri) (λ od,
       when (vi <=? od_v od)
         (m ← lift (new_prepare w_hmac_md (e_keys e) (od_v od) n (od_d od) (Some p)); send (MPrepare m) dest))).

(** ** A new view *)
Definition discard_one (i : Z) : M unit :=
  s ← self;
  x ← lift (at_ (last_vcs s) i);
  _ ← when (match x with Some m => VC.view m <? v s | None => false end)
        (update (λ s, set_vcs s (zset (last_vcs s) i None)));
  a ← lift (at_ (vacks s) i);
  _ ← update (λ s, set_acks s (zset (my_vacks s) i None)
        (if va_v a <? v s then zset (vacks s) i (mkVca (v s) none_per_replica) else vacks s));
  n ← nv_at i;
  when (NVI.v n <? v s) (update (λ s, set_nvs s (zset (last_nvs s) i (NVI.clear n)))).

Definition discard_old : M unit := for_each (seqZ 0 num_replicas) discard_one.

(** The checkpoints from [last_stable] on. *)
Definition checkpoints (ls le : Z) : list Z :=
  (λ k, ls + k * checkpoint_interval) <$> seqZ 0 (Z.quot (le - ls) checkpoint_interval + 1).

Definition add_checkpoints (digest : Z → option Dig.Digest) (l : list Z) (m : VC.View_change) : outcome VC.View_change :=
  foldl (λ o n, m ← o; match digest n with Some d => VC.add_checkpoint m n d | None => Ret m end) (Ret m) l.

Definition add_requests (l : Log.t OReq_info) (ns : list Z) (m : VC.View_change) : outcome VC.View_change :=
  foldl (λ o n, m ← o; ri ← Log.fetch l n;
    if 0 <=? o_v ri then VC.add_request m n (o_v ri) (o_lv ri) (o_d ri) (bool_decide (is_Some (o_m ri))) else Ret m)
    (Ret m) ns.

(** A view-change in cleared storage. *)
Definition blank_view_change (vw ls i : Z) : VC.View_change :=
  VC.init (replicate (Z.to_nat VC.prepared_size) 0) (replicate (Z.to_nat max_out) (VC.mkReqInfo 0 0 Dig.zero)) vw ls i.

Definition build_view_change (s : View_info) (le : Z) (digest : Z → option Dig.Digest) : outcome VC.View_change :=
  m ← add_checkpoints digest (if le <? last_stable s then [] else checkpoints (last_stable s) le)
        (blank_view_change (v s) (last_stable s) (id s));
  m ← add_requests (oplog s) (seqZ (last_stable s + 1) max_out) m;
  VC.re_authenticate w_hmac_md w_digest_of (e_keys e) m.

(** The acknowledgement of a view-change for the current view. *)
Definition acknowledge (i : Z) (m : VC.View_change) : M unit :=
  s ← self;
  a ← lift (new_vc_ack w_hmac_md (e_keys e) (v s) i (VC.digest m));
  _ ← update (λ s, set_acks s (zset (my_vacks s) i (Some a)) (vacks s));
  send (MAck a) (e_primary e (v s)).

(** Buffered messages for view [vw] move to its NV_info. *)
Definition move_vc (nvi vw i : Z) : M unit :=
  s ← self;
  x ← lift (at_ (last_vcs s) i);
  match x with
  | Some m =>
      if VC.view m =? vw then
        b ← nv_add_vc nvi m true;
        when b (update (λ s, set_vcs s (zset (last_vcs s) i None)))
      else skip
  | None => skip
  end.

Definition take_ack (i j : Z) : M unit :=
  update (λ s, set_acks s (my_vacks s)
    (match zget (vacks s) i with Some a => zset (vacks s) i (mkVca (va_v a) (zset (va_acks a) j None)) | None => vacks s end)).

(** The acknowledgement of [i] for the view-change of [j], if it is for the current view. *)
Definition move_ack (nvi i j : Z) : M unit :=
  s ← self;
  a ← lift (at_ (vacks s) i);
  if va_v a =? v s then
    x ← lift (at_ (va_acks a) j);
    match x with
    | Some m => b ← nv_add_vca nvi m; when b (take_ack i j)
    | None => skip
    end
  else skip.

Definition view_change (vi le : Z) (digest : Z → option Dig.Digest) : M unit :=
  _ ← update (λ s, set_view s vi);
  _ ← discard_old;
  s ← self;
  m ← lift (build_view_change s le digest);
  _ ← update (λ s, set_sent s (e_now e));
  _ ← send (MVc m) (-1);
  _ ← update (λ s, set_views (set_vcs s (zset (last_vcs s) (id s) (Some m))) (zset (last_views s) (id s) vi));
  let primv := e_primary e vi in
  if negb (primv =? id s) then
    for_each (seqZ 0 num_replicas) (λ i,
      s ← self;
      x ← lift (at_ (last_vcs s) i);
      match x with
      | Some lvc => when ((VC.view lvc =? vi) && negb (i =? id s) && negb (i =? primv)) (acknowledge i lvc)
      | None => skip
      end)
  else
    n ← nv_at (id s);
    _ ← assert_ (NVI.v n <=? vi);
    _ ← nv_add_nv (id s) (NV.make vi);
    _ ← for_each (seqZ 0 num_replicas) (move_vc (id s) vi);
    for_each (seqZ 0 num_replicas) (λ i, for_each (seqZ 0 num_replicas) (move_ack (id s) i)).

(** ** Received messages *)
Definition add_vc (m : VC.View_change) : M bool :=
  s ← self;
  let vci := VC.id m in
  let vcv := to_int (VC.view m) in
  if vcv <? v s then mret false
  else
    n ← nv_at (e_primary e vcv);
    let primv := e_primary e (v s) in
    if NVI.v n =? vcv then
      verified ← lift (VC.verify w_hmac_md w_char_signed w_digest_of (e_keys e) m);
      stored ← nv_add_vc (e_primary e vcv) m verified;
      _ ← when (stored && (id s =? primv) && (vcv =? v s))
        (for_each (seqZ 0 num_replicas) (λ i, move_ack (e_primary e vcv) i vci));
      s ← self;
      _ ← (if verified : bool then
             lv ← lift (at_ (last_views s) vci);
             when (lv <? vcv) (update (λ s, set_views s (zset (last_views s) vci vcv)))
           else skip);
      mret stored
    else
      lv ← lift (at_ (last_views s) vci);
      verified ← (if lv <? vcv then lift (VC.verify w_hmac_md w_char_signed w_digest_of (e_keys e) m) else mret false);
      if verified : bool then
        _ ← update (λ s, set_views (set_vcs s (zset (last_vcs s) vci (Some m))) (zset (last_views s) vci vcv));
        _ ← when (negb (id s =? primv) && negb (vci =? primv) && (vcv =? v s))
          (a ← lift (at_ (my_vacks s) vci);
           _ ← assert_ (bool_decide (a = None));
           acknowledge vci m);
        mret true
      else mret false.

Definition add_nv (m : NV.New_view) : M unit :=
  s ← self;
  let nvi := e_primary e (NV.view m) in
  if NV.view m <? v s then skip
  else
    b ← lift (NV.verify (e_keys e) m);
    if negb b then skip
    else
      n ← nv_at nvi;
      if NVI.v n <? NV.view m then
        stored ← nv_add_nv nvi m;
        when stored (for_each (seqZ 0 (zlen (last_vcs s))) (move_vc nvi (NV.view m)))
      else skip.

Definition add_vca (m : View_change_ack) : M unit :=
  s ← self;
  let vci := a_vcid m in
  let vcv := to_int (a_view m) in
  b ← lift (vc_ack_verify w_hmac_md w_char_signed (e_keys e) m);
  if negb b then skip
  else
    let primvcv := e_primary e vcv in
    n ← nv_at primvcv;
    added ← (if NVI.v n =? vcv then nv_add_vca primvcv m else mret false);
    if added : bool then skip
    else if negb (id s =? primvcv) then skip
    else
      s ← self;
      x ← lift (at_ (vacks s) (a_id m));
      when (va_v x <=? vcv)
        (let x := if va_v x <? vcv then vca_clear else x in
         _ ← lift (at_ (va_acks x) vci);
         update (λ s, set_acks s (my_vacks s)
           (zset (vacks s) (a_id m) (mkVca (v s) (zset (va_acks x) vci (Some m)))))).

(** ** Observers *)
Definition k_max (k : Z) (s : View_info) : outcome Z := K_max (S (length (last_views s))) k (last_views s) View_max.
Definition max_view (s : View_info) : outcome Z := k_max (max_faulty + 1) s.
Definition max_maj_view (s : View_info) : outcome Z := k_max threshold s.

Definition has_new_view (primary_of : Z → Z) (s : View_info) (vi : Z) : bool :=
  match zget (last_nvs s) (primary_of vi) with Some n => NVI.is_complete n | None => false end.
Definition has_nv_message (s : View_info) (vi : Z) : bool :=
  match zget (last_nvs s) (e_primary e vi) with Some n => negb (NVI.v n =? 0) | None => false end.

Definition my_view_change (s : View_info) : option VC.View_change :=
  match zget (last_vcs s) (id s) with
  | Some (Some m) => Some m
  | _ => n ← zget (last_nvs s) (e_primary e (v s)); x ← zget (NVI.vcs n) (id s); NVI.vc x
  end.
Definition my_new_view (s : View_info) : option NV.New_view := n ← zget (last_nvs s) (id s); NVI.nv n.
Definition my_vc_ack (s : View_info) (i : Z) : outcome (option View_change_ack) :=
  _ ← th_assert (is_replica i); at_ (my_vacks s) i.

(** The messages that these find are changed in place when the replica sends them again:
    they get new authenticators and the time is kept. *)
Definition resend_view_change (now : Z) : M (option VC.View_change) :=
  s ← self;
  x ← lift (at_ (last_vcs s) (id s));
  match x with
  | Some m =>
      m ← lift (VC.re_authenticate w_hmac_md w_digest_of (e_keys e) m);
      _ ← update (λ s, set_sent (set_vcs s (zset (last_vcs s) (id s) (Some m))) now);
      mret (Some m)
  | None =>
      let p := e_primary e (v s) in
      n ← nv_at p;
      x ← lift (at_ (NVI.vcs n) (id s));
      match NVI.vc x with
      | Some m =>
          m ← lift (VC.re_authenticate w_hmac_md w_digest_of (e_keys e) m);
          let x := NVI.mkVcInfo (Some m) (NVI.ack_count x) (NVI.ack_reps x) (NVI.req_sum x) in
          _ ← update (λ s, set_sent (set_nvs s (zset (last_nvs s) p (NVI.set_vcs n (zset (NVI.vcs n) (id s) x)))) now);
          mret (Some m)
      | None => mret None
      end
  end.

Definition resend_new_view (now : Z) : M (option NV.New_view) :=
  s ← self;
  n ← nv_at (id s);
  match NVI.nv n with
  | Some m =>
      m ← lift (NV.re_authenticate (e_keys e) m);
      _ ← update (λ s, set_nvs s (zset (last_nvs s) (id s) (NVI.set_sent (NVI.set_nv n (Some m)) now)));
      mret (Some m)
  | None => mret None
  end.

Definition resend_ack (p : Principal) (i : Z) : M (option View_change_ack) :=
  s ← self;
  x ← lift (my_vc_ack s i);
  match x with
  | Some a =>
      let a := vc_ack_re_authenticate w_hmac_md a p in
      _ ← update (λ s, set_acks s (zset (my_vacks s) i (Some a)) (vacks s));
      mret (Some a)
  | None => mret None
  end.

Definition resend_pre_prepare (n vw : Z) : M (option PP.Pre_prepare) :=
  s ← self;
  o ← lift (pre_prepare_since (oplog s) n vw);
  match o with
  | Some m =>
      m ← lift (PP.re_authenticate w_hmac_md (principals (e_keys e)) m);
      ri ← oplog_fetch n;
      _ ← oplog_store n (mkOreq (o_lv ri) (o_v ri) (o_d ri) (Some m) (o_ods ri));
      mret (Some m)
  | None => mret None
  end.

(** The replicas and the rows to write in a status for view [vw]. *)
Definition received_vcs (vw : Z) : M (list Z) :=
  s ← self;
  _ ← assert_ (vw =? v s);
  let p := e_primary e (v s) in
  n ← nv_at p;
  if NVI.v n =? v s then with_nv p (NVI.received_vcs e)
  else fold_each (seqZ 0 num_replicas) [] (λ acc i,
    x ← lift (at_ (last_vcs s) i);
    mret (if match x with Some m => VC.view m =? v s | None => false end then acc ++ [i] else acc)).

Definition missing_pps (vw : Z) : M (list (Z * Z * bool)) :=
  s ← self;
  _ ← assert_ (vw =? v s);
  let p := e_primary e (v s) in
  n ← nv_at p;
  match NVI.nv n with Some _ => with_nv p NVI.missing_pps | None => mret [] end.

(** ** Requests of the new view *)
Definition fetch_request (n : Z) : M (PP.Pre_prepare * Dig.Digest) :=
  s ← self; with_nv (e_primary e (v s)) (NVI.fetch_request e n).

Definition add_missing_pp (pp : PP.Pre_prepare) : M unit :=
  s ← self; with_nv (e_primary e (v s)) (NVI.add_missing_pp (pre_prepare (oplog s)) (prepare (oplog s)) e pp).
Definition add_missing_p (p : Prepare) : M unit :=
  s ← self; with_nv (e_primary e (v s)) (NVI.add_missing_p (pre_prepare (oplog s)) (prepare (oplog s)) e p).

(** ** Stability, recovery *)
Definition mark_stable (ls : Z) : M unit :=
  s ← self;
  l ← lift (Log.truncate oreq_clear (oplog s) (ls + 1));
  _ ← update (λ s, set_stable s ls l);
  with_nv (e_primary e (v s)) (NVI.mark_stable e ls).

Definition clear : M unit :=
  s ← self;
  l ← lift (Log.clear oreq_clear (oplog s) (last_stable s + 1));
  _ ← update (λ s, mkVi (v s) (id s) (last_stable s) l (replicate (Z.to_nat num_replicas) (v s)) none_per_replica
        none_per_replica (replicate (Z.to_nat num_replicas) vca_clear) (NVI.clear <$> last_nvs s) 0);
  skip.

Definition enforce_bound (b ks : Z) (corrupt : bool) : M bool :=
  s ← self;
  if corrupt || (b - max_out <? last_stable s) then
    l ← lift (Log.clear oreq_clear (oplog s) (ks + 1));
    _ ← update (λ s, set_stable s ks l);
    mret false
  else
    o ← loop (seqZ b (last_stable s + max_out - b + 1)) tt (λ _ i,
          ri ← oplog_fetch i; mret (if 0 <=? o_v ri then None else Some tt));
    match o with
    | Some _ => mret true
    | None =>
        l ← lift (Log.clear oreq_clear (oplog s) (ks + 1));
        _ ← update (λ s, set_oplog s l);
        mret false
    end.

Definition stale_one (i : Z) : M unit :=
  s ← self;
  _ ← when (negb (i =? id s))
    (_ ← lift (at_ (last_vcs s) i);
     lv ← lift (at_ (last_views s) i);
     _ ← update (λ s, set_vcs s (zset (last_vcs s) i None));
     when (v s <=? lv) (update (λ s, set_views s (zset (last_views s) i (v s)))));
  _ ← update (λ s, set_acks s (zset (my_vacks s) i None) (vacks s));
  o ← with_nv i (NVI.mark_stale (pre_prepare (oplog s)) (prepare (oplog s)) e (id s));
  _ ← (match o with
       | Some m => when (VC.view m =? v s) (update (λ s, set_vcs s (zset (last_vcs s) (id s) (Some m))))
       | None => skip
       end);
  update (λ s, set_acks s (my_vacks s) (zset (vacks s) i vca_clear)).

Definition mark_stale : M unit := for_each (seqZ 0 num_replicas) stale_one.
End view_info.
End VI.
