(* ===== verification/FilesView.v ===== *)
(** * FilesView: saving and restoring the information on view changes
    (View_info::shutdown and restart of src/src/View_info.cc)

    The file holds, for every number of the window, the last prepared request or the last
    pre-prepare that was accepted, and whether the view is complete.  What is read back has to
    be consistent, otherwise the object is left as it is at that point.  The digests of earlier
    views ([o_ods]) are not written. *)
From stdpp Require Import gmap.
From S2P Require Import Prelude Node Bitmap SeqLog Certificate Messages PreparedCert PrePrepare StateMonad Files FilesProps FileMsgs.
From S2P Require Import ViewChange World NewView NVInfo ViewInfo.
Import FileIO FProps HmacModel.

Module FView.
Section files.
Context (junk : Z → Z).
Context `{Config} `{World} `{FileMsg PP.Pre_prepare}.

#[local] Abbreviation View_info := (VI.View_info).

Definition digest_of (b : list Z) : Dig.Digest := Req.digest_at (replicate 8 0 ++ b).

(** The items written, the items that should be, and the result so far. *)
Definition shutdown_entry (s : View_info) (acc : Z * Z * bool) (i : Z) : ST File (Z * Z * bool) :=
  ori ← lift (Log.fetch (VI.oplog s) i);
  n1 ← fwrite [long_bytes (VI.o_lv ori)];
  n2 ← fwrite [long_bytes (VI.o_v ori)];
  n3 ← fwrite [Dig.bytes_of (VI.o_d ori)];
  n4 ← fwrite [bool_bytes (bool_decide (is_Some (VI.o_m ori)))];
  r ← match VI.o_m ori with Some m => Files.message_encode m | None => mret true end;
  mret (acc.1.1 + n1 + n2 + n3 + n4, acc.1.2 + 4, acc.2 && r).

Definition shutdown (prim : Z → Z) (s : View_info) : ST File bool :=
  '(wb, ab, ret) ← fold_each (seqZ (VI.last_stable s + 1) max_out) (0, 0, true) (shutdown_entry s);
  n ← fwrite [bool_bytes (VI.has_new_view prim s (VI.v s))];
  mret (ret && (ab + 1 =? wb + n)).

(** It writes behind what there is. *)
Lemma shutdown_appends prim s : keeps prefix (shutdown prim s).
Proof. unfold shutdown, shutdown_entry. repeat appends_step. Qed.

(** "Check invariants" *)
Definition consistent (ori : VI.OReq_info) : bool :=
  match VI.o_m ori with
  | Some m => Dig.operator_eq (PP.digest m) (VI.o_d ori) && (PP.view m =? VI.o_v ori) && (VI.o_v ori <=? VI.o_lv ori)
  | None => (VI.o_lv ori <? VI.o_v ori) || (VI.o_v ori =? -1)
  end.

Definition read_entry (ori : VI.OReq_info) : ST File (bool * VI.OReq_info * Z) :=
  '(lv, n1) ← fread_field 8 long_of (VI.o_lv ori);
  '(v, n2) ← fread_field 8 long_of (VI.o_v ori);
  '(d, n3) ← fread_field 32 digest_of (VI.o_d ori);
  hasm ← fread_local 1 bool_of;
  '(r, m) ← (if hasm : bool then '(r, m) ← Files.message_decode junk None; mret (r, Some m) else mret (true, None));
  let ori := VI.mkOreq lv v d m (VI.o_ods ori) in
  mret (r && consistent ori, ori, n1 + n2 + n3 + 1).

(** [ori = OReq_info()] copies the pointer to the old digests of a temporary object, which frees
    them: the entry is left without an array. *)
Definition copied_oreq : VI.OReq_info := VI.mkOreq (-1) (-1) Dig.zero None [].

(** The loop over the window; the first result is [false] when the code returns in it. *)
Fixpoint restart_entries (ns : list Z) (s : View_info) (rb ab : Z) : ST File (bool * View_info * Z * Z) :=
  match ns with
  | [] => mret (true, s, rb, ab)
  | i :: ns =>
      ori ← lift (Log.fetch (VI.oplog s) i);
      '(ok, ori, n) ← read_entry ori;
      if ok : bool then restart_entries ns (VI.set_oplog s (Log.store (VI.oplog s) i ori)) (rb + n) (ab + 4)
      else mret (false, VI.set_oplog s (Log.store (VI.oplog s) i copied_oreq), rb + n, ab)
  end.

(** The fields that are set before the file is read. *)
Definition reset (s : View_info) (rv ls : Z) : outcome View_info :=
  l ← Log.clear VI.oreq_clear (VI.oplog s) (ls + 1);
  Ret (VI.mkVi rv node_id ls l (replicate (Z.to_nat num_replicas) rv) (VI.last_vcs s) (VI.my_vacks s) (VI.vacks s)
         (VI.last_nvs s) 0).

Definition make_complete (s : View_info) (p vi : Z) : outcome View_info :=
  n ← NVI.at_ (VI.last_nvs s) p; Ret (VI.set_nvs s (zset (VI.last_nvs s) (to_int p) (NVI.make_complete n vi))).

Definition restart (prim : Z → Z) (s : View_info) (rv ls : Z) (corrupt : bool) : ST File (bool * View_info) :=
  s ← lift (reset s rv ls);
  '(go, s, rb, ab) ← (if corrupt then mret (true, s, 0, 0) else restart_entries (seqZ (ls + 1) max_out) s 0 0);
  if negb go then mret (false, s)
  else
    is_complete ← fread_local 1 bool_of;
    s ← lift (if is_complete : bool then make_complete s (prim rv) rv else Ret s);
    mret (negb corrupt && (ab + 1 =? rb + 1), s).

(** ** What is read back *)

(** An entry as [add_complete] and [add_incomplete] leave it, with numbers of 64 bits. *)
Definition entry_good (ori : VI.OReq_info) : Prop :=
  FMsgs.i64 (VI.o_lv ori) ∧ FMsgs.i64 (VI.o_v ori) ∧ consistent ori = true ∧
  ∀ m, VI.o_m ori = Some m → storable m.

Definition opt_bytes (o : option PP.Pre_prepare) : list Z := match o with Some m => message_bytes m | None => [] end.

Definition entry_bytes (ori : VI.OReq_info) : list Z :=
  long_bytes (VI.o_lv ori) ++ long_bytes (VI.o_v ori) ++ Dig.bytes_of (VI.o_d ori) ++
  bool_bytes (bool_decide (is_Some (VI.o_m ori))) ++ opt_bytes (VI.o_m ori).

Lemma long_of_bytes z : FMsgs.i64 z → long_of (long_bytes z) = z.
Proof. intros Hz. unfold long_of, long_bytes. rewrite from_le_le. by apply (wrapS_mod 64). Qed.

Lemma digest_of_bytes d : digest_of (Dig.bytes_of d) = d.
Proof. unfold digest_of. rewrite <- (app_nil_r (Dig.bytes_of d)). by apply Req.digest_at_bytes. Qed.

Lemma entry_writes s acc i ori : Log.fetch (VI.oplog s) i = Ret ori → entry_good ori →
  writes (shutdown_entry s acc i) (acc.1.1 + 4, acc.1.2 + 4, acc.2) (entry_bytes ori).
Proof.
  intros Hf (_ & _ & _ & Hm). unfold shutdown_entry, entry_bytes. eapply writes_lift; [done|].
  do 4 (eapply writes_bind; [apply fwrite_one|]). rewrite <- (app_nil_r (opt_bytes _)).
  eapply writes_bind with (a := true).
  - destruct (VI.o_m ori) as [m|]; [by apply message_writes, Hm|apply writes_ret].
  - rewrite andb_true_r. replace (acc.1.1 + 1 + 1 + 1 + 1) with (acc.1.1 + 4) by lia. apply writes_ret.
Qed.

(** The entry takes the place of another one, whose old digests it keeps. *)
Definition over (ori old : VI.OReq_info) : VI.OReq_info :=
  VI.mkOreq (VI.o_lv ori) (VI.o_v ori) (VI.o_d ori) (VI.o_m ori) (VI.o_ods old).

Lemma entry_takes ori old : entry_good ori → takes (read_entry old) (entry_bytes ori) (true, over ori old, 4).
Proof.
  intros (Hlv & Hv & Hc & Hm). unfold read_entry, entry_bytes.
  eapply takes_bind; [by apply fread_field_takes, le_len|]. cbn beta iota. rewrite long_of_bytes by done.
  eapply takes_bind; [by apply fread_field_takes, le_len|]. cbn beta iota. rewrite long_of_bytes by done.
  eapply takes_bind; [by apply fread_field_takes, Req.bytes_of_length|]. cbn beta iota. rewrite digest_of_bytes.
  eapply takes_bind; [by apply fread_local_takes|]. rewrite bool_of_bytes.
  rewrite <- (app_nil_r (opt_bytes _)). eapply takes_bind with (a := (true, VI.o_m ori)).
  - destruct (VI.o_m ori) as [m|]; cbn; [|apply takes_ret]. rewrite <- (app_nil_r (message_bytes m)).
    eapply takes_bind; [by apply message_takes, Hm|]. apply takes_ret.
  - cbn beta iota. assert (consistent (over ori old) = true) as Hc' by exact Hc. unfold over in Hc'. rewrite Hc'. apply takes_ret.
Qed.

(** The entries stay consistent as long as the views grow. *)
Lemma complete_consistent pp ri : consistent (VI.oreq_complete pp ri) = true.
Proof.
  unfold consistent, VI.oreq_complete. cbn. rewrite (proj2 (Dig.operator_eq_spec _ _) eq_refl), Z.eqb_refl, Z.leb_refl. done.
Qed.

Lemma incomplete_consistent vw d ri : consistent ri = true → VI.o_lv ri < vw → VI.o_v ri < vw →
  consistent (VI.oreq_incomplete vw d ri) = true.
Proof.
  unfold consistent, VI.oreq_incomplete. intros Hc Hlv Hv. destruct (Dig.operator_eq (VI.o_d ri) d).
  - destruct (VI.o_m ri) as [m|]; cbn; [|by rewrite (proj2 (Z.ltb_lt _ _))].
    apply andb_true_iff in Hc as [-> _]. cbn. apply Z.leb_le. lia.
  - cbn. destruct (VI.o_m ri); by rewrite (proj2 (Z.ltb_lt _ _)).
Qed.

(** *** The loops *)
Definition entry_at (s : View_info) (i : Z) : list Z :=
  match Log.fetch (VI.oplog s) i with Ret ori => entry_bytes ori | Err _ => [] end.

Definition all_good (s : View_info) (ns : list Z) : Prop :=
  ∀ i, i ∈ ns → ∃ ori, Log.fetch (VI.oplog s) i = Ret ori ∧ entry_good ori.

Lemma shutdown_writes s ns acc : all_good s ns →
  writes (fold_each ns acc (shutdown_entry s)) (acc.1.1 + 4 * zlen ns, acc.1.2 + 4 * zlen ns, acc.2) (ns ≫= entry_at s).
Proof.
  revert acc. induction ns as [|i ns IH]; intros acc Hg.
  { destruct acc as [[a b] r]. change (zlen []) with 0. rewrite Z.mul_0_r, !Z.add_0_r. apply writes_ret. }
  destruct (Hg i (list_elem_of_here _ _)) as (ori & Hf & Ho). cbn [fold_each].
  change ((i :: ns) ≫= entry_at s) with (entry_at s i ++ (ns ≫= entry_at s)).
  eapply writes_bind; [unfold entry_at; rewrite Hf; by apply entry_writes|].
  replace (acc.1.1 + 4 * zlen (i :: ns)) with (acc.1.1 + 4 + 4 * zlen ns) by (unfold zlen; cbn [length]; lia).
  replace (acc.1.2 + 4 * zlen (i :: ns)) with (acc.1.2 + 4 + 4 * zlen ns) by (unfold zlen; cbn [length]; lia).
  apply (IH (acc.1.1 + 4, acc.1.2 + 4, acc.2)). intros j Hj. apply Hg. by right.
Qed.

Lemma fetch_store {T} (l : Log.t T) n x : Log.ok l → Log.within_range l n = true →
  Log.ok (Log.store l n x) ∧ ∀ k, Log.within_range l k = true →
    Log.fetch (Log.store l n x) k = if decide (k = n) then Ret x else Log.fetch l k.
Proof.
  intros Hl Hn. destruct (wl_store_ok (WindowLogLaws := Log.window_log_laws id) l n x Hl Hn) as (Hok & _ & Hr & Hs).
  split; [done|]. intros k Hk. specialize (Hs k Hk).
  change (zget (Log.elems (Log.store l n x)) (Log.mod_ (Log.store l n x) k) =
    if decide (k = n) then Some x else zget (Log.elems l) (Log.mod_ l k)) in Hs. unfold Log.fetch.
  change (Log.within_range (Log.store l n x) k) with (Log.within_range l k). rewrite Hk. cbn [th_assert mbind outcome_bind].
  rewrite Hs. by case_decide.
Qed.

Definition reads_back (s : View_info) (g g' : Log.t VI.OReq_info) (ns : list Z) : Prop :=
  Log.ok g' ∧ (∀ k, Log.within_range g' k = Log.within_range g k) ∧
  (∀ i, i ∈ ns → ∃ ori old, Log.fetch (VI.oplog s) i = Ret ori ∧ Log.fetch g i = Ret old ∧ Log.fetch g' i = Ret (over ori old)) ∧
  ∀ i, i ∉ ns → Log.within_range g i = true → Log.fetch g' i = Log.fetch g i.

Lemma restart_takes s ns : NoDup ns → all_good s ns → ∀ w rb ab, Log.ok (VI.oplog w) →
  (∀ i, i ∈ ns → Log.within_range (VI.oplog w) i = true) →
  ∃ g, takes (restart_entries ns w rb ab) (ns ≫= entry_at s) (true, VI.set_oplog w g, rb + 4 * zlen ns, ab + 4 * zlen ns) ∧
    reads_back s (VI.oplog w) g ns.
Proof.
  induction 1 as [|i ns Hi Hnd IH]; intros Hg w rb ab Hok Hr.
  { exists (VI.oplog w). change (zlen []) with 0. rewrite Z.mul_0_r, !Z.add_0_r. split.
    - replace (VI.set_oplog w (VI.oplog w)) with w by (by destruct w). apply takes_ret.
    - split_and!; try done. by intros i ?%elem_of_nil. }
  destruct (Hg i (list_elem_of_here _ _)) as (ori & Hf & Ho).
  pose proof (Hr i (list_elem_of_here _ _)) as Hri.
  destruct (wl_fetch_in (WindowLogLaws := Log.window_log_laws id) (VI.oplog w) i Hok Hri) as (old & _ & Hold). cbn in Hold.
  destruct (fetch_store (VI.oplog w) i (over ori old) Hok Hri) as (Hok1 & Hfs).
  destruct (IH ltac:(intros j Hj; apply Hg; by right) (VI.set_oplog w (Log.store (VI.oplog w) i (over ori old)))
    (rb + 4) (ab + 4) Hok1) as (g & Ht & Hgok & Hgr & Hin & Hout).
  { intros j Hj. apply Hr. by right. }
  exists g. split.
  - cbn [restart_entries]. change ((i :: ns) ≫= entry_at s) with (entry_at s i ++ (ns ≫= entry_at s)).
    eapply takes_lift; [done|]. eapply takes_bind; [unfold entry_at; rewrite Hf; by apply entry_takes|]. cbn beta iota.
    replace (rb + 4 * zlen (i :: ns)) with (rb + 4 + 4 * zlen ns) by (unfold zlen; cbn [length]; lia).
    replace (ab + 4 * zlen (i :: ns)) with (ab + 4 + 4 * zlen ns) by (unfold zlen; cbn [length]; lia). exact Ht.
  - cbn [VI.set_oplog VI.oplog] in *. split; [done|]. split; [by intros k; rewrite Hgr|]. split.
    + intros j [->|Hj]%elem_of_cons.
      * exists ori, old. split_and!; try done. rewrite Hout by done. rewrite Hfs by done. by rewrite decide_True.
      * destruct (Hin j Hj) as (o1 & o2 & E1 & E2 & E3). exists o1, o2. split_and!; try done.
        rewrite Hfs, decide_False in E2; [done|by intros ->|apply Hr; by right].
    + intros j [Hne Hj]%not_elem_of_cons Hrj. rewrite Hout, Hfs, decide_False by done. done.
Qed.

(** *** The object before the file is read *)
Lemma clear_log {T} (c : T → T) (l : Log.t T) h : Log.ok l →
  ∃ l', Log.clear c l h = Ret l' ∧ Log.ok l' ∧ Log.head l' = h ∧ Log.max_size l' = Log.max_size l ∧
    ∀ i x, Log.fetch l' i = Ret x → cleared c x.
Proof.
  intros Hl. pose proof Hl as (Hk & Hm & Hlen). pose proof (Log.size_pos l Hl) as Hpos.
  destruct (clear_slots_spec c (seqZ 0 (Log.max_size l)) (Log.elems l)) as (e & He & Hle & _ & Hin).
  { apply Forall_forall. intros j ?%elem_of_seqZ. lia. }
  unfold Log.clear. rewrite He. cbn. eexists. split; [done|].
  split; [split_and!; cbn; [done|done|congruence]|]. split; [done|]. split; [done|].
  intros i x Hf. apply outcome_bind_Ret in Hf as (u & _ & Hf). apply of_option_Ret in Hf.
  change (zget e (Log.mod_ l i) = Some x) in Hf.
  pose proof (zget_Some_lt _ _ _ Hf). destruct (Hin (Log.mod_ l i)) as (y & Hy & Hc).
  { apply elem_of_seqZ. unfold zlen in *. lia. }
  rewrite Hf in Hy. injection Hy as ->. done.
Qed.

Lemma after_start {T} (l : Log.t T) ls n i : Log.head l = ls + 1 → Log.max_size l = n →
  i ∈ seqZ (ls + 1) n → Log.within_range l i = true.
Proof.
  intros Hh Hm Hi%elem_of_seqZ. unfold Log.within_range. rewrite Hh, Hm, Z.geb_leb.
  by rewrite (proj2 (Z.leb_le _ _)), (proj2 (Z.ltb_lt _ _)) by lia.
Qed.

(** Entries that are the same up to the digests of earlier views, which are forgotten. *)
Definition kept (a b : outcome VI.OReq_info) : Prop :=
  ∃ x y, a = Ret x ∧ b = Ret y ∧ VI.o_lv y = VI.o_lv x ∧ VI.o_v y = VI.o_v x ∧ VI.o_d y = VI.o_d x ∧
    VI.o_m y = VI.o_m x ∧ Forall (λ od, VI.od_v od = -1) (VI.o_ods y).

Lemma completed (prim : Z → Z) (s : View_info) vi : 0 ≤ prim vi < zlen (VI.last_nvs s) → prim vi < 2 ^ 31 →
  ∃ s', make_complete s (prim vi) vi = Ret s' ∧ VI.v s' = VI.v s ∧ VI.last_stable s' = VI.last_stable s ∧
    VI.oplog s' = VI.oplog s ∧ VI.has_new_view prim s' vi = true.
Proof.
  intros Hp Hi. destruct (zget_lookup (VI.last_nvs s) (prim vi) Hp) as (n & Hn). unfold make_complete, NVI.at_.
  rewrite to_int_small by lia. rewrite Hn. cbn. eexists. split; [done|]. split_and!; try done.
  unfold VI.has_new_view. cbn. by rewrite zget_zset_eq.
Qed.

Context `{!ConfigOk}.

End files.

(** *** A replica in view 3 with a window of four numbers *)
Module SampleView.
Definition config : Config := {|
  max_out := 4; checkpoint_interval := 2; Max_num_replicas := 32; max_faulty := 1; num_principals := 5; node_id := 2 |}.

#[local] Existing Instance config.
#[local] Instance config_ok : ConfigOk (H := config).
Proof. split; vm_compute; intuition congruence. Qed.
#[local] Existing Instance FMsgs.pre_prepare_file.

Definition pp : PP.Pre_prepare := PP.mkPp 0 72 3 1 Dig.zero 0 0 (replicate 8 5).

(** The first request has prepared, the second one was accepted, and the new-view is complete. *)
Definition before : VI.View_info :=
  let s := VI.make 2 3 in
  let s := VI.set_oplog s (Log.store (VI.oplog s) 1 (VI.oreq_complete pp VI.new_oreq)) in
  let s := VI.set_oplog s (Log.store (VI.oplog s) 2 (VI.oreq_incomplete 3 (PP.digest pp) VI.new_oreq)) in
  VI.set_nvs s (zset (VI.last_nvs s) 3 (NVI.make_complete NVI.make 3)).

Definition entry (i : Z) : VI.OReq_info :=
  if i =? 1 then VI.oreq_complete pp VI.new_oreq
  else if i =? 2 then VI.oreq_incomplete 3 (PP.digest pp) VI.new_oreq else VI.new_oreq.

Lemma before_good : all_good before (seqZ 1 4).
Proof.
  intros i Hi%elem_of_seqZ. exists (entry i).
  assert (i = 1 ∨ i = 2 ∨ i = 3 ∨ i = 4) as [->|[->|[->| ->]]] by lia; (split; [by vm_compute|]);
    (split; [by split|]); (split; [by split|]); (split; [by vm_compute|]); intros m Hm; try discriminate Hm.
  injection Hm as <-. by apply FMsgs.pre_prepare_storable.
Qed.
End SampleView.

End FView.
