(* ===== verification/FilesState.v ===== *)
(** * FilesState: saving and restoring the state
    (State::shutdown and restart of src/src/State.cc)

    The memory of the service is in a file of its own; what is saved is the bitmap of the blocks
    written since the last checkpoint, the partition tree and the records of the checkpoints.
    [restart] computes the sums of the tree anew, and the digests of its inner partitions, which
    are only read to be compared.  The iteration over a record follows the order of its finite
    map, which is that of the hash map in the code; reading it back does not depend on the order. *)
From stdpp Require Import gmap.
From S2P Require Import Prelude Node Bitmap SeqLog Certificate Messages PrePrepare StateMonad Files FilesProps FileMsgs FilesView.
From S2P Require Import Partition State StateInv StateInit.
Import FileIO FProps HmacModel.
#[local] Open Scope Z_scope.

Module FState.
Import State.
Section files.
Context (junk : Z → Z).
Context `{Config} `{Tree} `{Mpi} (digest_of : list Z → Dig.Digest).

(** ** Bytes of the copies *)
Definition sizeof_Part : nat := 40.
Definition sizeof_BlockCopy : nat := 40 + Z.to_nat Block_size.

Definition part_bytes (p : Part) : list Z := long_bytes (lm p) ++ Dig.bytes_of (d p).
Definition part_of (b : list Z) : Part := mkPart (long_of (take 8 b)) (FView.digest_of (drop 8 b)).

Definition copy_bytes (x : copy) : list Z :=
  match x with PartCopy p => part_bytes p | BlockCopy p b => part_bytes p ++ b end.

(** ** shutdown *)

(** [for (i = 0; i < PLevels; i++) fwrite(ptree[i], sizeof(Part), psize, o)] *)
Definition row_size (s : Store) (l : Z) : Z := if l =? leaf then nb s else PLevelSize l.

(** The row, which has to be long enough. *)
Definition tree_row (s : Store) (l : Z) : outcome (list Part) :=
  row ← of_option Undefined (zget (ptree s) l);
  if zlen row <? row_size s l then Err Undefined else Ret row.

Definition write_level (s : Store) (acc : Z * Z) (l : Z) : ST File (Z * Z) :=
  row ← lift (tree_row s l);
  n ← fwrite (part_bytes <$> take (Z.to_nat (row_size s l)) row);
  mret (acc.1 + n, acc.2 + row_size s l).

(** An entry of a record. *)
Definition write_copy (acc : Z * Z) (x : (Z * Z) * copy) : ST File (Z * Z) :=
  n1 ← fwrite [int_bytes x.1.1];
  n2 ← fwrite [int_bytes x.1.2];
  _ ← lift (match x.2 with
            | PartCopy _ => if x.1.1 =? leaf then Err Undefined else Ret tt
            | BlockCopy _ _ => Ret tt
            end);
  n3 ← fwrite [if x.1.1 =? leaf then copy_bytes x.2 else part_bytes (copy_part x.2)];
  mret (acc.1 + n1 + n2 + n3, acc.2 + 3).

Definition write_record (s : Store) (acc : Z * Z) (i : Z) : ST File (Z * Z) :=
  rec ← lift (Log.fetch (clog s) i);
  if CRec.is_cleared rec then mret acc
  else
    n1 ← fwrite [long_bytes i];
    n2 ← fwrite [Dig.bytes_of (CRec.sd rec)];
    n3 ← fwrite [int_bytes (CRec.num_entries rec)];
    fold_each (map_to_list (CRec.parts rec)) (acc.1 + n1 + n2 + n3, acc.2 + 3) write_copy.

Definition shutdown (fetching keep_ckpts : bool) (s : Store) (ls : Z) : ST File bool :=
  ret ← Files.bitmap_encode (cowb s);
  acc ← fold_each (seqZ 0 PLevels) (0, 0) (write_level s);
  n ← fwrite [long_bytes (lc s)];
  let acc := (acc.1 + n, acc.2 + 1) in
  acc ← (if negb fetching || keep_ckpts then fold_each (seqZ ls (max_out + 1)) acc (write_record s) else mret acc);
  n ← fwrite [long_bytes (-1)];
  mret (ret && (acc.2 + 1 =? acc.1 + n)).

(** ** restart *)
#[local] Abbreviation M := (ST (File * Store)).

(** The parts that the file has replace the first ones of the row. *)
Definition read_level (acc : Z * Z) (l : Z) : M (Z * Z) :=
  s ← this;
  row ← on_obj (lift (tree_row s l));
  items ← on_file (fread_items (Z.to_nat (row_size s l)) sizeof_Part);
  _ ← on_obj (modify (λ s, set_ptree (zset (ptree s) l ((part_of <$> items) ++ drop (length items) row)) s));
  mret (acc.1 + zlen items, acc.2 + row_size s l).

(** The digest of an inner partition; a wrong one is corrected. *)
Definition check_digest (l i : Z) (ret : bool) : ST Store bool :=
  x ← digest digest_of l i;
  p ← part l i;
  if Dig.operator_eq x (d p) then mret ret else _ ← part_to l i (mkPart (lm p) x); mret false.

Definition check_part (l : Z) (ret : bool) (i : Z) : ST Store bool :=
  _ ← when (i `mod` PSize l =? 0) (sum_to (l - 1) (i `div` PSize l) DSum.zero);
  ret ← (if l <? leaf then check_digest l i ret else mret ret);
  p ← part l i;
  _ ← sum_add (l - 1) (i `div` PSize l) (d p);
  mret ret.

Definition check_level (acc : Z * bool) (l : Z) : ST Store (Z * bool) :=
  ret ← fold_each (seqZ 0 acc.1) acc.2 (check_part l);
  mret ((acc.1 + PSize l - 1) `div` PSize l, ret).

Definition check_tree (ret : bool) : ST Store bool :=
  s ← get;
  acc ← fold_each levels_up (nb s, ret) check_level;
  x ← digest digest_of 0 0;
  p ← part 0 0;
  mret (acc.2 && Dig.operator_eq x (d p)).

(** A copy that the file does not hold whole is a new object. *)
Definition new_copy (l : Z) : copy :=
  if l =? leaf then BlockCopy (mkPart 0 Dig.zero) (Files.fill junk Block_size []) else PartCopy (mkPart 0 Dig.zero).
Definition copy_of (l : Z) (b : list Z) : copy :=
  if l =? leaf then BlockCopy (part_of (take sizeof_Part b)) (drop sizeof_Part b) else PartCopy (part_of b).

Definition read_copy (n rb k : Z) : M Z :=
  l ← on_file (fread_local 4 int_of);
  i ← on_file (fread_local 4 int_of);
  '(p, n3) ← on_file (fread_field (if l =? leaf then sizeof_BlockCopy else sizeof_Part) (copy_of l) (new_copy l));
  _ ← on_obj (with_record n (CRec.appendr l i p));
  mret (rb + 1 + 1 + n3).

(** [while (n >= 0)]; [None] when the code returns. *)
Fixpoint read_records (fuel : nat) (ls n rb ab : Z) : M (option (Z * Z)) :=
  match fuel with
  | O => fail OutOfFuel
  | S fuel =>
      if n <? 0 then mret (Some (rb, ab))
      else
        s ← this;
        if (n <? ls) || (lc s <? n) then mret None
        else
          rec ← on_obj (record n);
          '(sd, n1) ← on_file (fread_field 32 FView.digest_of (CRec.sd rec));
          _ ← on_obj (with_record n (λ r, Ret (CRec.set_sd sd r)));
          size ← on_file (fread_local 4 int_of);
          if 2 * nb s <? size then mret None
          else
            rb ← fold_each (seqZ 0 size) (rb + n1 + 1) (read_copy n);
            '(n', n4) ← on_file (fread_field 8 long_of n);
            read_records fuel ls n' (rb + n4) (ab + 2 + 3 * Z.max 0 size + 1)
  end.

Definition restart (ls le : Z) (corrupt : bool) : M bool :=
  s ← this;
  if corrupt then
    l ← on_obj (lift (Log.clear CRec.clear (clog s) ls));
    _ ← on_obj (modify (set_clog l)); _ ← on_obj (modify (set_lc (-1)));
    mret false
  else
    '(ret, b) ← on_file (Files.bitmap_decode junk (cowb s));
    _ ← on_obj (modify (set_cowb b));
    acc ← fold_each (seqZ 0 PLevels) (0, 0) read_level;
    ret ← on_obj (check_tree ret);
    l ← on_obj (lift (Log.clear CRec.clear (clog s) ls)); _ ← on_obj (modify (set_clog l));
    '(c, n1) ← on_file (fread_field 8 long_of (lc s)); _ ← on_obj (modify (set_lc c));
    if (c <? ls) || (le <? c) then mret false
    else
      n ← on_file (fread_local 8 long_of);
      x ← on_file get;
      o ← read_records (S (length x)) ls n (acc.1 + n1 + 1) (acc.2 + 2);
      mret (match o with Some (rb, ab) => ret && (ab =? rb) | None => false end).
End files.
End FState.
