(* ===== verification/FilesTree.v ===== *)
(** * FilesTree: the partition tree after a restart (FilesState.v)

    Whatever the file holds, the sums of the tree are those of the digests of the children once
    [restart] has gone through it, and the inner partitions have the digests of their sums; if
    all were right to begin with, nothing is changed.  The proof follows the loops, from the
    leaves up, as that of StateInit.v does for the first digests. *)
From stdpp Require Import gmap.
From S2P Require Import Prelude Node Bitmap SeqLog Certificate Messages PrePrepare StateMonad Files FilesProps FileMsgs FilesView.
From S2P Require Import Partition State StateInv StateInit FilesState.
Import FileIO FProps.
#[local] Open Scope Z_scope.
Import State SInv FState.

Module FTree.
Section tree.
Context `{Config} `{Tree} `{!TreeOk} `{Mpi} `{!MpiOk} (digest_of : list Z → Dig.Digest).

#[local] Abbreviation state_block := (State.state_block digest_of).
#[local] Abbreviation part_sum := SInit.part_sum.
#[local] Abbreviation upto := SInit.upto.

(** The sizes of the arrays; the bitmap may be any. *)
Record arrays (s : Store) : Prop := {
  ar_nb : 1 ≤ nb s ≤ PLevelSize leaf;
  ar_ptree l i : is_Some (at2 (ptree s) l i) ↔ 0 ≤ l ≤ leaf ∧ 0 ≤ i < row_size s l;
  ar_stree l i : is_Some (at2 (stree s) l i) ↔ 0 ≤ l < leaf ∧ 0 ≤ i < PLevelSize l;
}.

(** The inner partitions have the digests of the sums of their children. *)
Definition clean (s : Store) : Prop := ∀ l i p, live s l i → 0 < l < leaf → at2 (ptree s) l i = Some p →
  d p = state_block (mpi_write (child_sum s l i `mod` DSum.M)) i (lm p).

(** The sum of partition [(l, i)] is computed when level [L] is done up to [k]. *)
Definition done_sum (s : Store) (L k l i : Z) : Prop := L ≤ l ∨ ¬ live s l i ∨ (l + 1 = L ∧ i * PSize L < k).

Record Chk (s0 s : Store) (L k : Z) (r0 r : bool) : Prop := {
  ck_mem : mem s = mem s0;
  ck_nb : nb s = nb s0;
  ck_arrays : arrays s;
  ck_sums l i : 0 ≤ l < leaf → 0 ≤ i < PLevelSize l → done_sum s L k l i →
    at2 (stree s) l i = Some (part_sum s l i (upto s L k l) `mod` DSum.M);
  ck_digests l i : live s l i → l < leaf → (L < l ∨ (l = L ∧ i < k)) → digest_ok digest_of s l i;
  ck_clean : clean s0 → r = r0 ∧ ptree s = ptree s0;
}.

Lemma live_arrays s l i : arrays s → live s l i → ∃ p, at2 (ptree s) l i = Some p.
Proof.
  intros Ha [Hl Hi]. apply (ar_ptree _ Ha). split; [done|].
  assert (0 ≤ nb s ≤ PLevelSize leaf) as Hb by (pose proof (ar_nb _ Ha); lia).
  pose proof (width_level s l Hb Hl). unfold row_size. destruct (l =? leaf) eqn:E; zprop; [|lia].
  rewrite E, width_leaf in Hi. lia.
Qed.

Lemma parent_slot s l i : arrays s → 1 ≤ l → live s l i →
  0 ≤ l - 1 < leaf ∧ 0 ≤ i `div` PSize l < PLevelSize (l - 1) ∧ live s (l - 1) (i `div` PSize l).
Proof.
  intros Ha Hl Hi. pose proof (live_parent _ _ _ Hl Hi) as Hp. destruct Hp as [Hpl Hpw].
  assert (0 ≤ nb s ≤ PLevelSize leaf) as Hb by (pose proof (ar_nb _ Ha); lia).
  pose proof (width_level s (l - 1) Hb Hpl). destruct Hi. split; [lia|]. split; [lia|]. by split.
Qed.

Lemma part_sum_ext s s' l i k : (∀ j, 0 ≤ j < k → at2 (ptree s') (l + 1) j = at2 (ptree s) (l + 1) j) →
  part_sum s' l i k = part_sum s l i k.
Proof. intros Hj. apply zsum_ext. intros j Hk%elem_of_seqZ. case_match; [|done]. by rewrite Hj by lia. Qed.

Lemma part_sum_next s l i k : 0 ≤ k → part_sum s l i (k + 1) =
  part_sum s l i k + (if k `div` PSize (l + 1) =? i then value (at2 (ptree s) (l + 1) k) else 0).
Proof. intros Hk. unfold part_sum. rewrite (Z.add_1_r k), seqZ_snoc, zsum_snoc, Z.add_0_l by lia. done. Qed.

Lemma zsum_zero f l : (∀ j, j ∈ l → f j = 0) → zsum f l = 0.
Proof.
  induction l as [|j l IH]; intros Hf; [done|]. rewrite zsum_cons, Hf, IH by (by left || (intros; apply Hf; by right)). done.
Qed.

(** No child of a parent comes before its first one. *)
Lemma part_sum_first s l P k : 0 < PSize (l + 1) → k = P * PSize (l + 1) → part_sum s l P k = 0.
Proof.
  intros Hp ->. apply zsum_zero. intros j Hj%elem_of_seqZ.
  assert (j `div` PSize (l + 1) < P) by (apply Z.div_lt_upper_bound; lia).
  by rewrite (proj2 (Z.eqb_neq _ _)) by lia.
Qed.

(** ** The parts of one step *)
Lemma zero_first s0 s L k r0 r : 1 ≤ L → Chk s0 s L k r0 r → live s L k →
  let P := k `div` PSize L in
  ∃ t, when (k `mod` PSize L =? 0) (sum_to (L - 1) P DSum.zero) s = Ret (tt, set_stree t s) ∧
    at2 t (L - 1) P = Some (part_sum s (L - 1) P k `mod` DSum.M) ∧
    (∀ l i, is_Some (at2 t l i) ↔ is_Some (at2 (stree s) l i)) ∧
    ∀ l i, ¬ (l = L - 1 ∧ i = P) → at2 t l i = at2 (stree s) l i.
Proof.
  intros HL HC Hi. cbv zeta. destruct (parent_slot s L k (ck_arrays _ _ _ _ _ _ HC) HL Hi) as (Hl & HP & Hlive).
  assert (0 < PSize L) as Hps by (apply tree_siblings; destruct Hi; pose proof leaf_range; lia).
  pose proof (Z_div_mod_eq_full k (PSize L)) as Hd. pose proof (Z.mod_pos_bound k (PSize L) Hps) as Hm.
  destruct (proj2 (ar_stree _ (ck_arrays _ _ _ _ _ _ HC) (L - 1) (k `div` PSize L)) (conj Hl HP)) as [v Hv].
  destruct (k `mod` PSize L =? 0) eqn:E; zprop.
  - exists (set2 (stree s) (L - 1) (k `div` PSize L) 0). split; [by apply (sum_to_run _ _ _ v)|]. split_and!.
    + rewrite at2_set2, decide_True by (done || by eexists).
      rewrite part_sum_first by (replace (L - 1 + 1) with L by lia; lia). done.
    + intros l i. apply at2_set2_is_Some. by eexists.
    + intros l i Hn. rewrite at2_set2, decide_False by (done || by eexists). done.
  - exists (stree s). split; [by destruct s|]. split_and!; try done.
    rewrite (ck_sums _ _ _ _ _ _ HC) by (done || (right; right; split; lia)). do 2 f_equal. unfold upto.
    replace (L - 1 + 1) with L by lia. by rewrite Z.ltb_irrefl, Z.eqb_refl.
Qed.

Lemma inner_digest_run s l i v p : l ≠ leaf → at2 (stree s) l i = Some v → DSum.ok v → at2 (ptree s) l i = Some p →
  digest digest_of l i s = Ret (state_block (mpi_write v) i (lm p), s).
Proof.
  intros Hl Hv Hok Hp. unfold digest. rewrite (proj2 (Z.eqb_neq _ _) Hl).
  rewrite (bind_step _ _ s (mpi_write v) s).
  2:{ rewrite (bind_step _ _ _ _ _ (sum_run _ _ _ _ Hv)). apply lift_run. by apply DSum.bytes_ok. }
  by rewrite (bind_step _ _ _ _ _ (part_run _ _ _ _ Hp)).
Qed.

Lemma check_digest_run s l i v p ret : l ≠ leaf → at2 (stree s) l i = Some v → DSum.ok v → at2 (ptree s) l i = Some p →
  let x := state_block (mpi_write v) i (lm p) in
  check_digest digest_of l i ret s =
    if Dig.operator_eq x (d p) then Ret (ret, s) else Ret (false, set_ptree (set2 (ptree s) l i (mkPart (lm p) x)) s).
Proof.
  intros Hl Hv Hok Hp x. unfold check_digest. rewrite (bind_step _ _ _ _ _ (inner_digest_run s l i v p Hl Hv Hok Hp)).
  rewrite (bind_step _ _ _ _ _ (part_run _ _ _ _ Hp)). fold x. destruct (Dig.operator_eq x (d p)); [done|].
  by rewrite (bind_step _ _ _ _ _ (part_to_run _ _ _ p _ Hp)).
Qed.

(** The tree of [s1] is that of [s] except for the sum of one parent, which is right up to [k]. *)
Lemma check_middle s0 s L k r0 r t : 1 ≤ L → Chk s0 s L k r0 r → live s L k →
  (∀ l i, ¬ (l = L - 1 ∧ i = k `div` PSize L) → at2 t l i = at2 (stree s) l i) →
  ∃ r' p g, (if L <? leaf then check_digest digest_of L k r else mret r) (set_stree t s) =
      Ret (r', set_ptree g (set_stree t s)) ∧
    at2 g L k = Some p ∧
    (∀ l i, is_Some (at2 g l i) ↔ is_Some (at2 (ptree s) l i)) ∧
    (∀ l i, ¬ (l = L ∧ i = k) → at2 g l i = at2 (ptree s) l i) ∧
    (L < leaf → d p = state_block (content s L k) k (lm p)) ∧
    (clean s0 → r' = r0 ∧ g = ptree s0).
Proof.
  intros HL HC Hi Ht. pose proof HC as [Em En Ha Hs Hd Hc]. destruct (live_arrays s L k Ha Hi) as [p Hp].
  destruct (L <? leaf) eqn:E; zprop.
  2:{ exists r, p, (ptree s). split; [by destruct s|]. split_and!; try done. lia. }
  assert (0 ≤ L < leaf ∧ 0 ≤ k < PLevelSize L) as [HLl Hk].
  { split; [lia|]. assert (0 ≤ nb s ≤ PLevelSize leaf) as Hb by (pose proof (ar_nb _ Ha); lia).
    pose proof (width_level s L Hb). destruct Hi. lia. }
  assert (at2 (stree s) L k = Some (child_sum s L k `mod` DSum.M)) as Hv.
  { rewrite Hs by (done || by left). do 2 f_equal. unfold upto. by rewrite (proj2 (Z.ltb_lt L (L + 1))) by lia. }
  assert (at2 (stree (set_stree t s)) L k = Some (child_sum s L k `mod` DSum.M)) as Hv'.
  { cbn [stree set_stree]. rewrite Ht by lia. done. }
  pose proof (check_digest_run (set_stree t s) L k _ p r ltac:(lia) Hv' (DSum.mod_ok _) Hp) as Hrun. cbv zeta in Hrun.
  assert (content s L k = mpi_write (child_sum s L k `mod` DSum.M)) as Hcon.
  { unfold content. rewrite (proj2 (Z.eqb_neq L leaf)), Hv by lia. done. }
  rewrite <- Hcon in Hrun. destruct (Dig.operator_eq (state_block (content s L k) k (lm p)) (d p)) eqn:Eq.
  - apply Dig.operator_eq_spec in Eq. exists r, p, (ptree s). split; [by rewrite Hrun; destruct s|]. by split_and!.
  - exists false, (mkPart (lm p) (state_block (content s L k) k (lm p))).
    eexists. split; [exact Hrun|]. cbn [ptree set_stree]. assert (is_Some (at2 (ptree s) L k)) as Hsome by (by eexists).
    split_and!.
    + by rewrite at2_set2, decide_True.
    + intros l i. by apply at2_set2_is_Some.
    + intros l i Hn. by rewrite at2_set2, decide_False.
    + done.
    + intros Hcl. exfalso. destruct (Hc Hcl) as [_ Hpt].
      assert (Dig.operator_eq (state_block (content s L k) k (lm p)) (d p) = true) as Ht'; [|by rewrite Ht' in Eq].
      apply Dig.operator_eq_spec. symmetry. rewrite Hcon.
      replace (child_sum s L k) with (child_sum s0 L k) by (symmetry; by apply child_sum_same).
      apply Hcl; [|lia|by rewrite <- Hpt]. unfold live, width in *. by rewrite <- En.
Qed.

Lemma check_step s0 s L k r0 r : 1 ≤ L → Chk s0 s L k r0 r → live s L k →
  ∃ r' s', check_part digest_of L r k s = Ret (r', s') ∧ Chk s0 s' L (k + 1) r0 r'.
Proof.
  intros HL HC Hi. destruct (zero_first s0 s L k r0 r HL HC Hi) as (t & Hz & Hv & Hts & Hto).
  destruct (check_middle s0 s L k r0 r t HL HC Hi Hto) as (r' & p & g & Hm & Hp & Hgs & Hgo & Hdig & Hcl).
  pose proof HC as [Em En Ha Hs Hd _]. destruct (parent_slot s L k Ha HL Hi) as (Hl & HP & Hpar).
  set (s2 := set_ptree g (set_stree t s)) in *. set (P := k `div` PSize L) in *.
  assert (at2 (stree s2) (L - 1) P = Some (part_sum s (L - 1) P k `mod` DSum.M)) as Hv2 by exact Hv.
  exists r'. eexists. split.
  { unfold check_part. rewrite (bind_step _ _ _ _ _ Hz), (bind_step _ _ _ _ _ Hm).
    rewrite (bind_step _ _ _ _ _ (part_run s2 L k p Hp)).
    by rewrite (bind_step _ _ _ _ _ (sum_add_run s2 (L - 1) P _ (d p) Hv2 (DSum.mod_ok _))). }
  rewrite Zplus_mod_idemp_l. set (u := set2 (stree s2) _ _ _).
  assert (is_Some (at2 (stree s2) (L - 1) P)) as Hsome by (by eexists).
  assert (∀ l i, ¬ (l = L - 1 ∧ i = P) → at2 u l i = at2 (stree s) l i) as Huo.
  { intros l i Hn. unfold u. rewrite at2_set2, decide_False by done. cbn [stree s2 set_ptree set_stree]. by apply Hto. }
  assert (∀ l, live s l k → live (set_stree u s2) l k) as _ by done.
  split; try done.
  - destruct Ha as [H1' H2' H3']. split; [done| |].
    + intros l i. cbn [ptree set_stree s2 set_ptree]. rewrite Hgs. apply H2'.
    + intros l i. cbn [stree set_stree]. unfold u. rewrite at2_set2_is_Some by done. cbn [stree s2 set_ptree set_stree].
      rewrite Hts. apply H3'.
  - intros l i Hll Hii Hdone. cbn [stree set_stree].
    change (upto (set_stree u s2)) with (upto s).
    destruct (decide (l = L - 1 ∧ i = P)) as [[-> ->]|Hn].
    + unfold u. rewrite at2_set2, decide_True by done. do 2 f_equal. unfold upto. replace (L - 1 + 1) with L by lia.
      rewrite Z.ltb_irrefl, Z.eqb_refl. rewrite part_sum_next by (destruct Hi; lia). replace (L - 1 + 1) with L by lia.
      fold P. rewrite Z.eqb_refl. cbn [ptree set_stree s2 set_ptree]. rewrite Hp. cbn [value]. f_equal.
      symmetry. apply part_sum_ext. intros j Hj. cbn [ptree set_stree s2 set_ptree]. apply Hgo. lia.
    + rewrite Huo by done. change (done_sum s L (k + 1) l i) in Hdone.
      assert (0 < PSize L) as Hps by (apply tree_siblings; pose proof leaf_range; lia).
      assert (done_sum s L k l i) as Hdone'.
      { destruct Hdone as [?|[?|[Hlk Hk]]]; [by left|by right; left|]. right; right. split; [done|].
        destruct (decide (i * PSize L = k)) as [<-|]; [|lia]. destruct Hn. split; [lia|]. unfold P. by rewrite Z.div_mul by lia. }
      rewrite Hs by done. do 2 f_equal. unfold upto. destruct (L <? l + 1) eqn:E1; zprop.
      { symmetry. apply part_sum_ext. intros j _. cbn [ptree set_stree s2 set_ptree]. apply Hgo. lia. }
      destruct (l + 1 =? L) eqn:E2; zprop; [|done]. rewrite part_sum_next by (destruct Hi; lia). rewrite E2. fold P.
      rewrite (proj2 (Z.eqb_neq P i)), Z.add_0_r by (intros ->; apply Hn; lia).
      symmetry. apply part_sum_ext. intros j Hj. cbn [ptree set_stree s2 set_ptree]. apply Hgo. lia.
  - intros l i Hli Hlf Hlk. change (live s l i) in Hli.
    assert (content (set_stree u s2) l i = content s l i) as Hcon.
    { unfold content. rewrite (proj2 (Z.eqb_neq l leaf)) by lia. cbn [stree set_stree]. do 2 f_equal. apply Huo. lia. }
    destruct (decide (l = L ∧ i = k)) as [[-> ->]|Hn].
    + exists p. split; [done|]. rewrite Hcon. by apply Hdig.
    + destruct (Hd l i Hli Hlf) as (q & Hq & Hdq); [lia|]. exists q. split; [|by rewrite Hcon].
      cbn [ptree set_stree s2 set_ptree]. by rewrite Hgo.
Qed.

Lemma check_level_run s0 s L r0 r : 1 ≤ L ≤ leaf → Chk s0 s L 0 r0 r →
  ∃ r' s', check_level digest_of (width s0 L, r) L s = Ret ((width s0 (L - 1), r'), s') ∧ Chk s0 s' (L - 1) 0 r0 r'.
Proof.
  intros HL HC. assert (width s0 L = width s L) as Hw by (unfold width; by rewrite (ck_nb _ _ _ _ _ _ HC)).
  assert (∀ (m : nat) k r s, 0 ≤ k → k + Z.of_nat m = width s0 L → Chk s0 s L k r0 r →
    ∃ r' s', fold_each (seqZ k (Z.of_nat m)) r (check_part digest_of L) s = Ret (r', s') ∧ Chk s0 s' L (width s0 L) r0 r') as G.
  { clear s r HC Hw. induction m as [|m IH]; intros k r s Hk0 Hk HC.
    - replace (width s0 L) with k in * by lia. by exists r, s.
    - destruct (check_step s0 s L k r0 r) as (r1 & s1 & E1 & HC1); [lia|done| |].
      { split; [lia|]. unfold width in *. rewrite (ck_nb _ _ _ _ _ _ HC). lia. }
      destruct (IH (k + 1) r1 s1) as (r' & s' & E' & HC'); [lia|lia|done|]. exists r', s'. split; [|done].
      rewrite seqZ_cons by lia. cbn [fold_each]. rewrite (bind_step _ _ _ _ _ E1).
      replace (Z.pred (Z.of_nat (S m))) with (Z.of_nat m) by lia. by rewrite <- Z.add_1_r. }
  assert (0 ≤ width s0 L) as Hpos.
  { rewrite Hw. assert (0 ≤ nb s ≤ PLevelSize leaf) as Hb by (pose proof (ar_nb _ (ck_arrays _ _ _ _ _ _ HC)); lia).
    apply (width_level s L Hb). lia. }
  destruct (G (Z.to_nat (width s0 L)) 0 r s) as (r' & s' & E & HC'); [lia|lia|done|].
  rewrite Z2Nat.id in E by lia. exists r', s'. split.
  { unfold check_level. cbn [fst snd]. rewrite (bind_step _ _ _ _ _ E). by rewrite width_step by lia. }
  destruct HC' as [Em En Ha Hs Hd Hc]. assert (∀ l, width s' l = width s0 l) as Hww by (intros l; unfold width; by rewrite En).
  split; try done.
  - intros l i Hl Hi Hdone. rewrite Hs; [|done|done|].
    + do 3 f_equal. unfold upto. destruct (L <? l + 1) eqn:E1, (L - 1 <? l + 1) eqn:E2; zprop; try lia.
      * assert (l + 1 = L) as -> by lia. by rewrite Z.eqb_refl, Hww.
      * rewrite (proj2 (Z.eqb_neq (l + 1) L)) by lia. by case_match.
    + destruct Hdone as [Hdone|[Hdone|[? Hdone]]].
      * destruct (decide (L ≤ l)); [by left|]. right. assert (l + 1 = L) as Hl1 by lia.
        destruct (decide (i < width s' l)) as [Hlive|Hdead].
        -- right. split; [done|]. rewrite <- Hww in Hpos |- *. subst L. rewrite <- (Z.add_simpl_r l 1) in Hlive.
           rewrite width_step in Hlive by lia. set (w := width s' (l + 1)) in *.
           assert (0 < PSize (l + 1)) by (apply tree_siblings; pose proof leaf_range; lia).
           set (P := PSize (l + 1)) in *. set (q := (w + P - 1) `div` P) in *.
           assert (P * q ≤ w + P - 1) by (apply Z.mul_div_le; lia). nia.
        -- left. intros [_ ?]. lia.
      * right; left. done.
      * assert (0 < PSize (L - 1)) by (apply tree_siblings; pose proof leaf_range; lia). nia.
  - intros l i Hi Hlf Hlk. apply Hd; [done|done|]. destruct (decide (l = L)) as [->|]; [|destruct Hi; lia]. right.
    split; [done|]. destruct Hi as [_ Hi]. rewrite Hww in Hi. lia.
Qed.

Lemma check_levels_run s0 r0 (k : nat) s r : Z.of_nat k ≤ leaf → Chk s0 s (Z.of_nat k) 0 r0 r →
  ∃ r' s', fold_each (reverse (seqZ 1 (Z.of_nat k))) (width s0 (Z.of_nat k), r) (check_level digest_of) s =
      Ret ((width s0 0, r'), s') ∧ Chk s0 s' 0 0 r0 r'.
Proof.
  revert s r. induction k as [|k IH]; intros s r Hk HC; [by exists r, s|].
  assert (1 ≤ Z.of_nat (S k) ≤ leaf) as Hl by lia.
  destruct (check_level_run s0 s _ r0 r Hl HC) as (r1 & s1 & Hrun & HC1).
  replace (Z.of_nat (S k) - 1) with (Z.of_nat k) in * by lia.
  destruct (IH s1 r1) as (r' & s' & Hrun' & HC'); [lia|done|]. exists r', s'. split; [|done].
  replace (reverse (seqZ 1 (Z.of_nat (S k)))) with (Z.of_nat (S k) :: reverse (seqZ 1 (Z.of_nat k))).
  { cbn [fold_each]. by rewrite (bind_step _ _ _ _ _ Hrun). }
  rewrite Nat2Z.inj_succ, seqZ_snoc, reverse_snoc by lia. f_equal. lia.
Qed.

(** ** The whole tree *)
Definition dead_sums (s : Store) : Prop := ∀ l i, 0 ≤ l < leaf → 0 ≤ i < PLevelSize l → ¬ live s l i → at2 (stree s) l i = Some 0.

Definition root_ok (s : Store) : Prop :=
  ∃ p, at2 (ptree s) 0 0 = Some p ∧ d p = state_block (mpi_write (child_sum s 0 0 `mod` DSum.M)) 0 (lm p).

Lemma root_live s : arrays s → live s 0 0.
Proof.
  intros Ha. pose proof leaf_range. split; [lia|]. assert (1 ≤ width s 0) as Hw; [|lia].
  apply width_pos; [apply (ar_nb _ Ha)|lia].
Qed.

Lemma Chk_start s r : arrays s → dead_sums s → Chk s s leaf 0 r r.
Proof.
  intros Ha Hz. split; try done.
  - intros l i Hl Hi [?|[Hd|[_ Hd]]]; [lia| |].
    + rewrite Hz by done. unfold upto. rewrite (proj2 (Z.ltb_ge leaf (l + 1))) by lia. by case_match.
    + pose proof leaf_range. assert (0 < PSize leaf) by (apply tree_siblings; lia). nia.
  - intros l i [Hl Hi] Hlf [?|[? ?]]; lia.
Qed.

Lemma Chk_sums s0 s r0 r : Chk s0 s 0 0 r0 r → sums s.
Proof.
  intros HC l i Hl Hi. rewrite (ck_sums _ _ _ _ _ _ HC) by (done || (left; lia)). unfold upto.
  by rewrite (proj2 (Z.ltb_lt 0 (l + 1))) by lia.
Qed.

Record rebuilt (s s' : Store) (ret ret' : bool) : Prop := {
  rb_mem : mem s' = mem s;
  rb_nb : nb s' = nb s;
  rb_arrays : arrays s';
  rb_sums : sums s';
  rb_digests : digests digest_of (λ l _, l = leaf ∨ l = 0) s';
  rb_root : ret' = true → digest_ok digest_of s' 0 0;
  rb_clean : clean s → root_ok s → ret' = ret ∧ ptree s' = ptree s;
}.

Lemma check_tree_run s ret : arrays s → dead_sums s →
  ∃ ret' s', check_tree digest_of ret s = Ret (ret', s') ∧ rebuilt s s' ret ret'.
Proof.
  intros Ha Hz. pose proof leaf_range as Hlf. pose proof (Chk_start s ret Ha Hz) as HC.
  rewrite <- (Z2Nat.id leaf) in HC by lia.
  destruct (check_levels_run s ret (Z.to_nat leaf) s ret ltac:(lia) HC) as (r & s' & Hrun & HC').
  rewrite !Z2Nat.id in Hrun by lia. rewrite width_leaf in Hrun.
  pose proof (Chk_sums _ _ _ _ HC') as Hs. pose proof HC' as [Em En Ha' _ Hd Hcl].
  pose proof (root_live s' Ha') as Hroot. destruct (live_arrays s' 0 0 Ha' Hroot) as [p Hp].
  assert (at2 (stree s') 0 0 = Some (child_sum s' 0 0 `mod` DSum.M)) as Hv.
  { apply Hs; [lia|]. rewrite tree_root. lia. }
  pose proof (inner_digest_run s' 0 0 _ p ltac:(lia) Hv (DSum.mod_ok _) Hp) as Hdig.
  eexists _, s'. split.
  { unfold check_tree. rewrite get_step. unfold levels_up. rewrite (bind_step _ _ _ _ _ Hrun). cbn [fst snd].
    rewrite (bind_step _ _ _ _ _ Hdig), (bind_step _ _ _ _ _ (part_run _ _ _ _ Hp)). reflexivity. }
  assert (content s' 0 0 = mpi_write (child_sum s' 0 0 `mod` DSum.M)) as Hcon.
  { unfold content. by rewrite (proj2 (Z.eqb_neq 0 leaf)), Hv by lia. }
  split; try done.
  - intros l i Hi. destruct (decide (l = leaf)); [by left; left|]. destruct (decide (l = 0)); [by left; right|].
    right. destruct Hi as [Hll Hi]. apply Hd; [by split|lia|left; lia].
  - intros [_ Hq]%andb_true_iff. apply Dig.operator_eq_spec in Hq. exists p. split; [done|]. by rewrite Hcon.
  - intros Hc (q & Hq & Hdq). destruct (Hcl Hc) as [-> Hpt]. split; [|done].
    rewrite Hpt, Hq in Hp. injection Hp as <-.
    assert (child_sum s' 0 0 = child_sum s 0 0) as Hcs by (by apply child_sum_same). rewrite Hcs.
    by rewrite (proj2 (Dig.operator_eq_spec _ _) (eq_sym Hdq)), andb_true_r.
Qed.

(** It touches nothing but the tree. *)
Lemma check_tree_keeps ret : keeps (λ s s', cowb s' = cowb s ∧ clog s' = clog s) (check_tree digest_of ret).
Proof.
  assert (Reflexive (λ s s' : Store, cowb s' = cowb s ∧ clog s' = clog s)) as HR by (by intros s).
  assert (Transitive (λ s s' : Store, cowb s' = cowb s ∧ clog s' = clog s)) as HT
    by (intros a b c [A1 A2] [B1 B2]; split; congruence).
  unfold check_tree, check_level, check_part, check_digest, digest, sum_add, sum_to, sum, part_to, part, block.
  keeps_with ltac:(apply keeps_modify; done).
Qed.

(** ** Reading the arrays *)
Definition resized (s s' : Store) : Prop :=
  mem s' = mem s ∧ nb s' = nb s ∧ stree s' = stree s ∧ ∀ l i, is_Some (at2 (ptree s') l i) ↔ is_Some (at2 (ptree s) l i).

#[local] Instance resized_refl : Reflexive resized.
Proof. by intros s. Qed.
#[local] Instance resized_trans : Transitive resized.
Proof.
  intros a b c (A1 & A2 & A3 & A4) (B1 & B2 & B3 & B4). split_and!; try congruence. intros l i. by rewrite B4, A4.
Qed.

Lemma resized_arrays s s' : resized s s' → arrays s → arrays s'.
Proof.
  intros (Em & En & Es & Ep) [Hn Hp Hs]. split; [by rewrite En| |by rewrite Es].
  intros l i. rewrite Ep, Hp. unfold row_size. by rewrite En.
Qed.

Lemma fread_items_len k n f l f' : fread_items k n f = Ret (l, f') → (length l ≤ k)%nat.
Proof.
  revert f l f'. induction k as [|k IH]; intros f l f' E; [by injection E as <- _|]. cbn [fread_items] in E.
  apply bind_inv in E as ([b|] & f1 & _ & E); [|injection E as <- _; cbn; lia].
  apply bind_inv in E as (l1 & f2 & E1 & E). injection E as <- _. apply IH in E1. cbn. lia.
Qed.

Lemma at2_row {A} (a : list (list A)) l row row' l' i : zget a l = Some row → zlen row' = zlen row →
  is_Some (at2 (zset a l row') l' i) ↔ is_Some (at2 a l' i).
Proof.
  intros Hr Hl. pose proof (zget_Some_lt _ _ _ Hr). unfold at2. destruct (decide (l' = l)) as [->|Hne].
  - rewrite zget_zset_eq, Hr by done. cbn. by rewrite !zget_is_Some, Hl.
  - by rewrite zget_zset_ne.
Qed.

#[local] Instance lift_refl (R : Store → Store → Prop) `{!Reflexive R} : Reflexive (λ s s' : File * Store, R s.2 s'.2).
Proof. intros s. reflexivity. Qed.
#[local] Instance lift_trans (R : Store → Store → Prop) `{!Transitive R} : Transitive (λ s s' : File * Store, R s.2 s'.2).
Proof. intros a b c. apply transitivity. Qed.

Lemma read_level_resized acc l : keeps (λ s s', resized s.2 s'.2) (read_level acc l).
Proof.
  intros s a s' E. unfold read_level in E.
  apply bind_inv in E as (x & s1 & E1 & E). apply on_obj_inv in E1 as (r1 & E1 & ->). injection E1 as <- <-.
  apply bind_inv in E as (row & s1 & E1 & E). apply on_obj_inv in E1 as (r1 & E1 & ->). apply lift_inv in E1 as [E1 ->].
  apply bind_inv in E as (items & s1 & E2 & E). apply on_file_inv in E2 as (f1 & E2 & ->). apply fread_items_len in E2.
  apply bind_inv in E as ([] & s1 & E3 & E). apply on_obj_inv in E3 as (r1 & E3 & ->). injection E3 as <-. injection E as _ <-.
  cbn [fst snd]. unfold tree_row in E1. apply outcome_bind_Ret in E1 as (row' & Hrow & E1). apply of_option_Ret in Hrow.
  destruct (zlen row' <? FState.row_size s.2 l) eqn:El; [done|]. injection E1 as ->. zprop.
  split_and!; try done. intros l' i. cbn [ptree set_ptree]. apply at2_row with row; [done|].
  unfold zlen in *. rewrite length_app, length_fmap, length_drop. lia.
Qed.

(** What follows the tree changes the records and [lc] only. *)
Definition same_tree (s s' : Store) : Prop := mem s' = mem s ∧ nb s' = nb s ∧ ptree s' = ptree s ∧ stree s' = stree s.

#[local] Instance same_tree_refl : Reflexive same_tree.
Proof. by intros s. Qed.
#[local] Instance same_tree_trans : Transitive same_tree.
Proof. intros a b c (A1 & A2 & A3 & A4) (B1 & B2 & B3 & B4). split_and!; congruence. Qed.

Lemma with_record_tree n f : keeps same_tree (with_record n f).
Proof. unfold with_record, record. keeps_with ltac:(apply keeps_modify; done). Qed.

Ltac tree_step :=
  match goal with
  | |- keeps _ (on_file _) => apply (keeps_on_file same_tree)
  | |- keeps _ this => apply (keeps_this same_tree)
  | |- keeps _ (on_obj (with_record _ _)) => apply (keeps_on_obj same_tree), with_record_tree
  | |- keeps _ (on_obj (modify _)) => apply (keeps_on_obj same_tree), keeps_modify; done
  | |- keeps _ (on_obj (lift _)) => apply (keeps_on_obj same_tree), keeps_lift; typeclasses eauto
  | |- keeps _ (on_obj (record _)) => apply (keeps_on_obj same_tree); unfold record; keeps_tac
  | |- _ => keeps_step
  end.

Context (junk : Z → Z).

Lemma read_records_tree fuel ls n rb ab : keeps (λ s s', same_tree s.2 s'.2) (read_records junk fuel ls n rb ab).
Proof.
  revert n rb ab. induction fuel as [|fuel IH]; intros n rb ab; [apply keeps_fail|]. cbn [read_records].
  unfold read_copy. repeat first [apply IH | tree_step].
Qed.

(** ** restart *)
Lemma same_tree_facts s s' : same_tree s s' →
  (sums s → sums s') ∧ (∀ dirty, digests digest_of dirty s → digests digest_of dirty s') ∧
  (digest_ok digest_of s 0 0 → digest_ok digest_of s' 0 0).
Proof.
  intros (Em & En & Ep & Es).
  assert (∀ l i, digest_ok digest_of s l i → digest_ok digest_of s' l i) as Hd.
  { intros l i (p & Hp & Hdp). exists p. rewrite Ep. split; [done|]. by rewrite (content_same s s'). }
  split; [by apply sums_same|]. split; [|apply Hd]. intros dirty HD l i Hi.
  destruct (HD l i) as [?|?]; [|by left|right; by apply Hd]. unfold live, width in *. by rewrite <- En.
Qed.

Lemma restart_tree s f ls le b f' s' : arrays s → dead_sums s →
  restart junk digest_of ls le false (f, s) = Ret (b, (f', s')) →
  mem s' = mem s ∧ nb s' = nb s ∧ sums s' ∧ digests digest_of (λ l _, l = leaf ∨ l = 0) s' ∧
  (b = true → digest_ok digest_of s' 0 0).
Proof.
  intros Ha Hz E. unfold restart in E. rewrite this_step in E. cbn beta iota in E.
  apply bind_inv in E as ([ret bm] & x1 & E1 & E). apply on_file_inv in E1 as (f1 & _ & ->).
  apply bind_inv in E as ([] & x2 & E2 & E). apply on_obj_inv in E2 as (s2 & E2 & ->). injection E2 as <-. cbn [fst snd] in E.
  apply bind_inv in E as (acc & [f3 s3] & E3 & E).
  assert (resized (set_cowb bm s) s3) as Hres.
  { assert (keeps (λ s s' : File * Store, resized s.2 s'.2) (fold_each (seqZ 0 PLevels) (0, 0) read_level)) as Hk.
    { apply keeps_fold_each; [typeclasses eauto..|]. intros ? ? _. apply read_level_resized. }
    apply (Hk _ _ _ E3). }
  assert (arrays s3) as Ha3 by (apply (resized_arrays _ _ Hres); destruct Ha; by split).
  pose proof Hres as (Em3 & En3 & Es3 & _).
  assert (dead_sums s3) as Hz3.
  { intros l i Hl Hi Hd. rewrite Es3. apply Hz; [done|done|]. intros Hlive. apply Hd. unfold live, width in *. by rewrite En3. }
  destruct (check_tree_run s3 ret Ha3 Hz3) as (ret' & s4 & Hrun & [Hmem Hnb Ha4 Hs4 Hd4 Hr4 _]).
  rewrite (obj_step _ _ _ _ _ _ Hrun) in E.
  match type of E with ?m ?x = _ => assert (keeps (λ s s' : File * Store, same_tree s.2 s'.2) m) as Hk end.
  { repeat first [apply read_records_tree | tree_step]. }
  pose proof (Hk _ _ _ E) as Hst. cbn [snd] in Hst. destruct (same_tree_facts s4 s' Hst) as (F1 & F2 & F3).
  assert (b = true → ret' = true) as Hb.
  { clear Hk Hst. apply bind_inv in E as (l & x5 & _ & E). apply bind_inv in E as (? & x6 & _ & E).
    apply bind_inv in E as ([c n1] & x7 & _ & E). apply bind_inv in E as (? & x8 & _ & E).
    destruct ((c <? ls) || (le <? c)); [injection E as <- _; done|].
    apply bind_inv in E as (n & x9 & _ & E). apply bind_inv in E as (fl & x10 & _ & E).
    apply bind_inv in E as (o & x11 & _ & E). injection E as <- _. destruct o as [[rb ab]|]; [|done].
    by intros [? _]%andb_true_iff. }
  split; [destruct Hst as (-> & _); rewrite Hmem, Em3; done|].
  split; [destruct Hst as (_ & -> & _); rewrite Hnb, En3; done|]. split; [by apply F1|]. split; [by apply F2|].
  intros Hbt. apply F3, Hr4, Hb, Hbt.
Qed.

(** C27: after a restart the partition tree of the state is consistent, whatever was in the file
    and even if the restart fails behind the tree: every sum is that of the digests of the
    children in the tree, and the digest of every inner partition below the root is that of its
    sum; a restart that succeeds has the digest of the root right as well.  The digests of the
    blocks are those of the file: with these, checking the blocks one by one makes the whole
    tree right. *)
Theorem restart_rebuilds_tree s f ls le b f' s' : shape s → dead_sums s →
  restart junk digest_of ls le false (f, s) = Ret (b, (f', s')) →
  mem s' = mem s ∧ nb s' = nb s ∧ sums s' ∧ digests digest_of (λ l _, l = leaf ∨ l = 0) s' ∧
  (b = true → (∀ i, 0 ≤ i < nb s' → digest_ok digest_of s' leaf i) → digests digest_of (λ _ _, False) s').
Proof.
  intros Hsh Hz E. pose proof (sh_nb _ Hsh) as Hnb.
  assert (arrays s) as Ha by (split; [done|apply (sh_ptree _ Hsh)|apply (sh_stree _ Hsh)]).
  destruct (restart_tree s f ls le b f' s' Ha Hz E) as (Hm & Hn & Hs & Hd & Hb).
  split; [done|]. split; [done|]. split; [done|]. split; [done|].
  intros Hbt Hleaf l i Hi. right. destruct (Hd l i Hi) as [[->| ->]|?]; [| |done].
  - apply Hleaf. destruct Hi as [_ Hi]. by rewrite width_leaf in Hi.
  - assert (i = 0) as ->; [|by apply Hb]. destruct Hi as [Hl Hi].
    assert (0 ≤ nb s' ≤ PLevelSize leaf) as Hr by lia. pose proof (width_level s' 0 Hr Hl). rewrite tree_root in *. lia.
Qed.
End tree.
End FTree.
