(* ===== verification/FilesRound.v ===== *)
(** * FilesRound: the state that a restart finds after a shutdown (FilesState.v)

    A state that keeps its invariant is read back as it was written: the tree, the records of
    the checkpoints and the number of the last one.  Only the bitmap of the written blocks is
    not: as any bitmap (FilesProps.v), it loses its upper half. *)
From stdpp Require Import gmap.
From S2P Require Import Prelude Node Bitmap SeqLog Certificate Messages PrePrepare StateMonad Files FilesProps FileMsgs FilesView.
From S2P Require Import Partition State StateInv StateInit StateHist FilesState FilesTree.
Import FileIO FProps.
#[local] Open Scope Z_scope.
Import State SInv FState FTree.

Module FRound.
Section round.
Context (junk : Z → Z).
Context `{Config} `{Tree} `{!TreeOk} `{Mpi} `{!MpiOk} (digest_of : list Z → Dig.Digest).

(** ** Parts and copies *)
Definition part_good (p : Part) : Prop := FMsgs.i64 (lm p).

Lemma part_len p : length (part_bytes p) = sizeof_Part.
Proof. unfold part_bytes. rewrite length_app, Req.bytes_of_length. unfold long_bytes. by rewrite Msg.le_length. Qed.

Lemma part_read p : part_good p → part_of (part_bytes p) = p.
Proof.
  intros Hp. assert (8%nat = length (long_bytes (lm p))) as H8 by (unfold long_bytes; by rewrite Msg.le_length).
  unfold part_of, part_bytes. rewrite take_app_length', drop_app_length' by done.
  rewrite FView.long_of_bytes, FView.digest_of_bytes by done. by destruct p.
Qed.

(** A copy of the kind of its level. *)
Definition copy_good (x : (Z * Z) * copy) : Prop :=
  FMsgs.i32 x.1.1 ∧ FMsgs.i32 x.1.2 ∧ part_good (copy_part x.2) ∧
  match x.2 with PartCopy _ => x.1.1 ≠ leaf | BlockCopy _ b => x.1.1 = leaf ∧ zlen b = Block_size end.

Definition entry_bytes (x : (Z * Z) * copy) : list Z := int_bytes x.1.1 ++ int_bytes x.1.2 ++ copy_bytes x.2.

Lemma copy_writes acc x : copy_good x → writes (write_copy acc x) (acc.1 + 3, acc.2 + 3) (entry_bytes x).
Proof.
  intros (_ & _ & _ & Hx). unfold entry_bytes. rewrite <- (app_nil_r (copy_bytes _)). unfold write_copy.
  eapply writes_bind; [apply fwrite_one|]. eapply writes_bind; [apply fwrite_one|].
  replace (acc.1 + 3) with (acc.1 + 1 + 1 + 1) by lia.
  destruct x as [[l i] [p|p b]]; cbn [fst snd copy_part] in *.
  - rewrite (proj2 (Z.eqb_neq _ _)) by done. eapply writes_lift; [done|]. eapply writes_bind; [apply fwrite_one|apply writes_ret].
  - destruct Hx as [-> _]. rewrite Z.eqb_refl. eapply writes_lift; [done|]. eapply writes_bind; [apply fwrite_one|apply writes_ret].
Qed.

Lemma copies_writes es acc : Forall copy_good es →
  writes (fold_each es acc write_copy) (acc.1 + 3 * zlen es, acc.2 + 3 * zlen es) (es ≫= entry_bytes).
Proof.
  intros He. revert acc. induction He as [|x es Hx _ IH]; intros acc.
  { destruct acc as [a b]. change (zlen []) with 0. rewrite Z.mul_0_r, !Z.add_0_r. apply writes_ret. }
  cbn [fold_each]. change ((x :: es) ≫= entry_bytes) with (entry_bytes x ++ (es ≫= entry_bytes)).
  eapply writes_bind; [by apply copy_writes|].
  replace (acc.1 + 3 * zlen (x :: es)) with (acc.1 + 3 + 3 * zlen es) by (unfold zlen; cbn [length]; lia).
  replace (acc.2 + 3 * zlen (x :: es)) with (acc.2 + 3 + 3 * zlen es) by (unfold zlen; cbn [length]; lia).
  apply (IH (acc.1 + 3, acc.2 + 3)).
Qed.

Lemma copy_reads l x b : copy_good ((l, x), b) →
  length (copy_bytes b) = (if l =? leaf then sizeof_BlockCopy else sizeof_Part) ∧ copy_of l (copy_bytes b) = b.
Proof.
  intros (_ & _ & Hp & Hb). cbn [fst snd copy_part] in *. unfold copy_of, sizeof_BlockCopy. destruct b as [p|p b]; cbn [copy_bytes] in *.
  - rewrite (proj2 (Z.eqb_neq _ _) Hb). by rewrite part_len, part_read.
  - destruct Hb as [-> Hl]. rewrite Z.eqb_refl, length_app, part_len. unfold zlen in Hl. split; [unfold sizeof_Part; lia|].
    rewrite take_app_length', drop_app_length' by (symmetry; apply part_len). by rewrite part_read.
Qed.

Lemma read_copy_run n rb k l i c x r rest : copy_good ((l, i), c) → Log.fetch (clog x) n = Ret r →
  CRec.parts r !! (l, i) = None →
  read_copy junk n rb k (entry_bytes ((l, i), c) ++ rest, x) =
    Ret (rb + 3, (rest, set_clog (Log.store (clog x) n (CRec.mkRec (CRec.sd r) (<[(l, i) := c]> (CRec.parts r)))) x)).
Proof.
  intros Hg Hr Hn. destruct (copy_reads l i c Hg) as [Hlen Hc]. destruct Hg as (Hl & Hi & _). cbn [fst snd] in *.
  unfold read_copy, entry_bytes. cbn [fst snd]. rewrite <- !app_assoc.
  rewrite (file_step _ _ _ _ _ _ (fread_local_takes 4 int_of (int_bytes l) (le_len _ _))), int_of_bytes by done.
  rewrite (file_step _ _ _ _ _ _ (fread_local_takes 4 int_of (int_bytes i) (le_len _ _))), int_of_bytes by done.
  rewrite (file_step _ _ _ _ _ _ (fread_field_takes _ (copy_of l) (new_copy junk l) _ Hlen)). cbn beta iota. rewrite Hc.
  assert (with_record n (CRec.appendr l i c) x =
    Ret (tt, set_clog (Log.store (clog x) n (CRec.mkRec (CRec.sd r) (<[(l, i) := c]> (CRec.parts r)))) x)) as Hw.
  { apply with_record_run with r; [done|]. unfold CRec.appendr, CRec.append. by rewrite bool_decide_true. }
  rewrite (obj_step _ _ _ _ _ _ Hw). by replace (rb + 3) with (rb + 1 + 1 + 1) by lia.
Qed.

Lemma copies_run n es : Forall copy_good es → NoDup es.*1 → ∀ k rb x r rest, Log.ok (clog x) → Log.fetch (clog x) n = Ret r →
  (∀ key, key ∈ es.*1 → CRec.parts r !! key = None) →
  ∃ g, fold_each (seqZ k (zlen es)) rb (read_copy junk n) ((es ≫= entry_bytes) ++ rest, x) =
      Ret (rb + 3 * zlen es, (rest, set_clog g x)) ∧
    only_record (clog x) g n (CRec.mkRec (CRec.sd r) (list_to_map es ∪ CRec.parts r)).
Proof.
  induction 1 as [|[[l i] c] es Hg _ IH]; intros Hnd k rb x r rest Hok Hr Hn.
  { exists (clog x). split.
    - change (zlen []) with 0. rewrite seqZ_nil, Z.mul_0_r, Z.add_0_r by lia. by destruct x.
    - rewrite list_to_map_nil, (left_id_L ∅ (∪)). apply only_record_refl; [done|]. by destruct r. }
  cbn [fmap list_fmap fst] in Hnd, Hn. apply NoDup_cons in Hnd as [Hni Hnd].
  pose proof (read_copy_run n rb k l i c x r ((es ≫= entry_bytes) ++ rest) Hg Hr ltac:(apply Hn; by left)) as Hrun.
  set (r1 := CRec.mkRec (CRec.sd r) (<[(l, i) := c]> (CRec.parts r))) in *.
  pose proof (only_record_store (clog x) n r r1 Hok Hr) as Hor.
  destruct (IH Hnd (k + 1) (rb + 3) (set_clog (Log.store (clog x) n r1) x) r1 rest) as (g & Hg' & Hor').
  - apply (or_ok _ _ _ _ Hor).
  - apply (or_this _ _ _ _ Hor).
  - intros key Hkey. cbn. rewrite lookup_insert_ne by (intros <-; done). apply Hn. by right.
  - exists g. split.
    + change (((l, i, c) :: es) ≫= entry_bytes) with (entry_bytes ((l, i), c) ++ (es ≫= entry_bytes)). rewrite <- app_assoc.
      replace (zlen ((l, i, c) :: es)) with (Z.succ (zlen es)) by (unfold zlen; cbn [length]; lia).
      rewrite seqZ_cons by (pose proof (zlen_nonneg es); lia). rewrite Z.pred_succ. cbn [fold_each].
      rewrite (bind_step _ _ _ _ _ Hrun). rewrite <- Z.add_1_r.
      replace (rb + 3 * Z.succ (zlen es)) with (rb + 3 + 3 * zlen es) by lia. exact Hg'.
    + eapply only_record_trans; [exact Hor|]. cbn [clog set_clog] in Hor'. cbn [CRec.sd CRec.parts r1] in Hor'.
      rewrite <- insert_union_r in Hor' by (by apply not_elem_of_list_to_map_1). rewrite insert_union_l in Hor'. exact Hor'.
Qed.

(** ** Records *)
Definition body (r : CRec.Checkpoint_rec) : list Z :=
  Dig.bytes_of (CRec.sd r) ++ int_bytes (CRec.num_entries r) ++ (map_to_list (CRec.parts r) ≫= entry_bytes).

Definition rec_at (s : Store) (i : Z) : CRec.Checkpoint_rec := match Log.fetch (clog s) i with Ret r => r | Err _ => CRec.make end.

Definition record_good (s : Store) (ls : Z) (i : Z) : Prop :=
  ls ≤ i ≤ lc s ∧ CRec.num_entries (rec_at s i) ≤ 2 * nb s ∧ 2 * nb s < 2 ^ 31 ∧
  Forall copy_good (map_to_list (CRec.parts (rec_at s i))).

(** The records that are written. *)
Definition live_recs (s : Store) (w : list Z) : list Z := base.filter (λ i, CRec.is_cleared (rec_at s i) = false) w.

Definition stream (s : Store) (ns : list Z) : list Z := ns ≫= λ i, long_bytes i ++ body (rec_at s i).

Lemma entries_len (r : CRec.Checkpoint_rec) : zlen (map_to_list (CRec.parts r)) = CRec.num_entries r.
Proof. unfold zlen, CRec.num_entries. by rewrite length_map_to_list. Qed.

Lemma records_writes s ls w acc : (∀ i, i ∈ w → ∃ r, Log.fetch (clog s) i = Ret r) →
  (∀ i, i ∈ live_recs s w → record_good s ls i) →
  ∃ k, writes (fold_each w acc (write_record s)) (acc.1 + k, acc.2 + k) (stream s (live_recs s w)).
Proof.
  revert acc. induction w as [|i w IH]; intros acc Hf Hg.
  { exists 0. rewrite !Z.add_0_r. destruct acc. apply writes_ret. }
  destruct (Hf i (list_elem_of_here _ _)) as (r & Hr). assert (rec_at s i = r) as Hri by (unfold rec_at; by rewrite Hr).
  cbn [fold_each]. unfold live_recs in *. rewrite filter_cons in *. rewrite Hri in *. destruct (CRec.is_cleared r) eqn:Ec.
  - rewrite decide_False in * by done. destruct (IH acc) as (k & Hk); [intros j Hj; apply Hf; by right|exact Hg|].
    exists k. change (stream s ?l) with ([] ++ stream s l). eapply writes_bind; [|exact Hk].
    unfold write_record. eapply writes_lift; [exact Hr|]. rewrite Ec. apply writes_ret.
  - rewrite decide_True in * by done.
    destruct (IH (acc.1 + 1 + 1 + 1 + 3 * CRec.num_entries r, acc.2 + 3 + 3 * CRec.num_entries r)) as (k & Hk).
    { intros j Hj. apply Hf. by right. } { intros j Hj. apply Hg. by right. }
    destruct (Hg i (list_elem_of_here _ _)) as (_ & _ & _ & He). rewrite Hri in He.
    exists (3 + 3 * CRec.num_entries r + k). cbn [fst snd] in Hk.
    replace (acc.1 + (3 + 3 * CRec.num_entries r + k)) with (acc.1 + 1 + 1 + 1 + 3 * CRec.num_entries r + k) by lia.
    replace (acc.2 + (3 + 3 * CRec.num_entries r + k)) with (acc.2 + 3 + 3 * CRec.num_entries r + k) by lia.
    change (stream s (i :: ?l)) with ((long_bytes i ++ body (rec_at s i)) ++ stream s l). rewrite Hri.
    eapply writes_bind; [|exact Hk]. unfold write_record. eapply writes_lift; [exact Hr|]. rewrite Ec. unfold body.
    eapply writes_bind; [apply fwrite_one|]. eapply writes_bind; [apply fwrite_one|]. eapply writes_bind; [apply fwrite_one|].
    rewrite <- (entries_len r). apply (copies_writes _ (acc.1 + 1 + 1 + 1, acc.2 + 3)). done.
Qed.

(** The number in front of the rest, and what is behind it. *)
Definition next (ns : list Z) : Z := match ns with i :: _ => i | [] => -1 end.
Definition more (s : Store) (ns : list Z) : list Z :=
  match ns with i :: ns => body (rec_at s i) ++ stream s ns ++ long_bytes (-1) | [] => [] end.

Lemma stream_next s ns : stream s ns ++ long_bytes (-1) = long_bytes (next ns) ++ more s ns.
Proof.
  destruct ns as [|i ns]; [done|]. change (stream s (i :: ns)) with ((long_bytes i ++ body (rec_at s i)) ++ stream s ns).
  unfold next, more. by rewrite <- !app_assoc.
Qed.

Lemma records_run s ls ns : 0 ≤ ls → lc s < 2 ^ 63 → NoDup ns → (∀ i, i ∈ ns → record_good s ls i) → ∀ fuel rb x rest,
  (length ns < fuel)%nat → lc x = lc s → nb x = nb s → Log.ok (clog x) →
  (∀ i, i ∈ ns → ∃ r, Log.fetch (clog x) i = Ret r ∧ CRec.parts r = ∅) →
  ∃ k g, read_records junk fuel ls (next ns) rb rb (more s ns ++ rest, x) = Ret (Some (k, k), (rest, set_clog g x)) ∧
    Log.ok g ∧ (∀ i, i ∈ ns → Log.fetch g i = Ret (rec_at s i)) ∧ ∀ i, i ∉ ns → Log.fetch g i = Log.fetch (clog x) i.
Proof.
  intros Hls Hlc. induction 1 as [|i ns Hi Hnd IH]; intros Hg fuel rb x rest Hfuel Hx Hnx Hok Hr.
  { destruct fuel as [|fuel]; [lia|]. exists rb, (clog x). split; [by destruct x|]. split; [done|]. split; [by intros i ?%elem_of_nil|done]. }
  destruct fuel as [|fuel]; [lia|]. cbn [length] in Hfuel.
  destruct (Hg i (list_elem_of_here _ _)) as (Hir & Hsz & Hnb & He). set (q := rec_at s i) in *.
  destruct (Hr i (list_elem_of_here _ _)) as (r & Hri & Hre).
  pose proof (with_record_run x i r (CRec.set_sd (CRec.sd q) r) (λ r, Ret (CRec.set_sd (CRec.sd q) r)) Hri eq_refl) as Hsd.
  pose proof (only_record_store (clog x) i r (CRec.set_sd (CRec.sd q) r) Hok Hri) as Hor1.
  set (x1 := set_clog (Log.store (clog x) i (CRec.set_sd (CRec.sd q) r)) x) in *.
  destruct (copies_run i (map_to_list (CRec.parts q)) He (NoDup_fst_map_to_list _) 0 (rb + 1 + 1) x1 (CRec.set_sd (CRec.sd q) r)
    (stream s ns ++ long_bytes (-1) ++ rest)) as (g1 & Hrun & Hor2).
  { apply (or_ok _ _ _ _ Hor1). } { apply (or_this _ _ _ _ Hor1). }
  { intros key _. cbn. rewrite Hre. apply lookup_empty. }
  cbn [CRec.sd CRec.parts CRec.set_sd] in Hor2. rewrite Hre, (right_id_L ∅ (∪)), list_to_map_to_list in Hor2.
  replace (CRec.mkRec (CRec.sd q) (CRec.parts q)) with q in Hor2 by (by destruct q).
  pose proof (only_record_trans _ _ _ _ _ _ Hor1 Hor2) as Hor.
  destruct (IH ltac:(intros j Hj; apply Hg; by right) fuel (rb + 1 + 1 + 3 * CRec.num_entries q + 1) (set_clog g1 x1) rest)
    as (k & g & Hk & Hgok & Hgin & Hgout); [lia|done|done|apply (or_ok _ _ _ _ Hor)| |].
  { intros j Hj. destruct (Hr j) as (rj & Hrj & Hej); [by right|]. exists rj. split; [|done].
    cbn [clog set_clog]. rewrite (or_other _ _ _ _ Hor); [done|]. by intros ->. }
  exists k, g. split; [|split; [done|split]].
  - change (more s (i :: ns)) with (body q ++ stream s ns ++ long_bytes (-1)). change (next (i :: ns)) with i.
    cbn [read_records]. rewrite (proj2 (Z.ltb_ge i 0)) by lia. rewrite this_step. cbv beta.
    rewrite (proj2 (Z.ltb_ge i ls)), (proj2 (Z.ltb_ge (lc x) i)) by lia. cbn [orb].
    assert (record i x = Ret (r, x)) as Hrec by (unfold record; rewrite get_step; by apply lift_run).
    rewrite (obj_step _ _ _ _ _ _ Hrec). unfold body. rewrite <- !app_assoc.
    rewrite (file_step _ _ _ _ _ _ (fread_field_takes 32 FView.digest_of (CRec.sd r) _ (Req.bytes_of_length _))). cbn beta iota.
    rewrite FView.digest_of_bytes, (obj_step _ _ _ _ _ _ Hsd).
    rewrite (file_step _ _ _ _ _ _ (fread_local_takes 4 int_of (int_bytes _) (le_len _ _))).
    assert (0 ≤ CRec.num_entries q) by (unfold CRec.num_entries; lia).
    rewrite int_of_bytes, (proj2 (Z.ltb_ge _ _)) by lia. rewrite <- entries_len, (bind_step _ _ _ _ _ Hrun), entries_len.
    rewrite (app_assoc (stream s ns)), stream_next, <- app_assoc.
    assert (FMsgs.i64 (next ns)) as Hn64.
    { destruct ns as [|j ns']; [done|]. destruct (Hg j) as (Hj & _); [right; left|]. cbn. unfold FMsgs.i64. lia. }
    rewrite (file_step _ _ _ _ _ _ (fread_field_takes 8 long_of i (long_bytes _) (le_len _ _))). cbn beta iota.
    rewrite FView.long_of_bytes by done. rewrite Z.max_r by lia.
    replace (rb + 2 + 3 * CRec.num_entries q + 1) with (rb + 1 + 1 + 3 * CRec.num_entries q + 1) by lia. exact Hk.
  - intros j [->|Hj]%elem_of_cons; [|by apply Hgin]. rewrite Hgout by done. apply (or_this _ _ _ _ Hor).
  - intros j [Hne Hj]%not_elem_of_cons. rewrite Hgout by done. cbn [clog set_clog]. by rewrite (or_other _ _ _ _ Hor).
Qed.

(** ** The tree *)
Definition row_at (s : Store) (l : Z) : list Part := default [] (zget (ptree s) l).
Definition tree_bytes (s : Store) (l : Z) : list Z := mjoin (part_bytes <$> row_at s l).

Definition parts_good (s : Store) : Prop := ∀ l i p, at2 (ptree s) l i = Some p → part_good p.

Lemma row_spec s l : shape s → 0 ≤ l ≤ leaf → zget (ptree s) l = Some (row_at s l) ∧ zlen (row_at s l) = FState.row_size s l.
Proof.
  intros Hsh Hl. pose proof (sh_nb _ Hsh). assert (0 < FState.row_size s l) as Hp.
  { unfold FState.row_size. destruct (l =? leaf); [lia|]. apply level_pos. pose proof leaf_range. lia. }
  destruct (zget (ptree s) l) as [row|] eqn:E.
  - unfold row_at. rewrite E. change (default [] (Some row)) with row. split; [done|].
    assert (∀ i, is_Some (zget row i) ↔ 0 ≤ i < FState.row_size s l) as Hi.
    { intros i. pose proof (sh_ptree _ Hsh l i) as Hs. unfold at2 in Hs. rewrite E in Hs. cbn in Hs. rewrite Hs.
      change (SInv.row_size s l) with (FState.row_size s l). tauto. }
    setoid_rewrite zget_is_Some in Hi. pose proof (zlen_nonneg row).
    destruct (decide (zlen row = 0)); [destruct (proj2 (Hi 0)); lia|].
    assert (0 ≤ zlen row - 1 < FState.row_size s l) by (apply Hi; lia).
    assert (0 ≤ FState.row_size s l - 1 < zlen row) by (apply Hi; lia). lia.
  - exfalso. destruct (proj2 (sh_ptree _ Hsh l 0)) as [p Hpp]; [split; [done|]; change (SInv.row_size s l) with (FState.row_size s l); lia|].
    unfold at2 in Hpp. by rewrite E in Hpp.
Qed.

Lemma tree_row_run s l : shape s → 0 ≤ l ≤ leaf → tree_row s l = Ret (row_at s l).
Proof.
  intros Hsh Hl. destruct (row_spec s l Hsh Hl) as [Hr Hz]. unfold tree_row. rewrite Hr. cbn. by rewrite Hz, Z.ltb_irrefl.
Qed.

Lemma levels_write s ls acc : shape s → (∀ l, l ∈ ls → 0 ≤ l ≤ leaf) →
  ∃ k, writes (fold_each ls acc (write_level s)) (acc.1 + k, acc.2 + k) (ls ≫= tree_bytes s).
Proof.
  intros Hsh. revert acc. induction ls as [|l ls IH]; intros acc Hl.
  { exists 0. rewrite !Z.add_0_r. destruct acc. apply writes_ret. }
  assert (0 ≤ l ≤ leaf) as Hl0 by (apply Hl; by left). destruct (row_spec s l Hsh Hl0) as [Hr Hz].
  destruct (IH (acc.1 + FState.row_size s l, acc.2 + FState.row_size s l)) as (k & Hk); [intros j Hj; apply Hl; by right|].
  exists (FState.row_size s l + k). rewrite !Z.add_assoc. cbn [fold_each].
  change ((l :: ls) ≫= tree_bytes s) with (tree_bytes s l ++ (ls ≫= tree_bytes s)). eapply writes_bind; [|exact Hk].
  unfold write_level. eapply writes_lift; [by apply tree_row_run|].
  rewrite take_ge by (unfold zlen in Hz; lia). rewrite <- (app_nil_r (tree_bytes s l)).
  eapply writes_bind; [apply fwrite_writes|]. unfold zlen. rewrite length_fmap. fold (zlen (row_at s l)). rewrite Hz. apply writes_ret.
Qed.

Lemma row_reads s l : parts_good s → (part_of <$> (part_bytes <$> row_at s l)) = row_at s l.
Proof.
  intros Hg. rewrite <- list_fmap_compose. apply list_eq. intros i. rewrite list_lookup_fmap.
  destruct (row_at s l !! i) as [p|] eqn:E; [|done]. cbn. f_equal. apply part_read. apply (Hg l (Z.of_nat i)).
  unfold row_at in E. unfold at2. destruct (zget (ptree s) l) as [row|]; [|done]. cbn in *. unfold zget.
  rewrite decide_True, Nat2Z.id by lia. done.
Qed.

Lemma level_read s x l acc rest rowx : parts_good s → nb x = nb s → zget (ptree x) l = Some rowx →
  zlen rowx = FState.row_size s l → zlen (row_at s l) = FState.row_size s l →
  read_level acc l (tree_bytes s l ++ rest, x) =
    Ret ((acc.1 + FState.row_size s l, acc.2 + FState.row_size s l), (rest, set_ptree (zset (ptree x) l (row_at s l)) x)).
Proof.
  intros Hg Hn Hx Hzx Hz. assert (FState.row_size x l = FState.row_size s l) as Hrs by (unfold FState.row_size; by rewrite Hn).
  unfold read_level. rewrite this_step.
  assert (lift (tree_row x l) x = Ret (rowx, x)) as Hrow.
  { apply lift_run. unfold tree_row. rewrite Hx. cbn. by rewrite Hrs, Hzx, Z.ltb_irrefl. }
  rewrite (obj_step _ _ _ _ _ _ Hrow), Hrs.
  assert (takes (fread_items (Z.to_nat (FState.row_size s l)) sizeof_Part) (tree_bytes s l) (part_bytes <$> row_at s l)) as Ht.
  { replace (Z.to_nat (FState.row_size s l)) with (length (part_bytes <$> row_at s l)) by (rewrite length_fmap; unfold zlen in Hz; lia).
    apply fread_items_takes. apply Forall_fmap, Forall_true. intros p. apply part_len. }
  rewrite (file_step _ _ _ _ _ _ Ht). rewrite row_reads by done.
  rewrite drop_ge by (rewrite length_fmap; unfold zlen in *; lia). rewrite app_nil_r.
  unfold zlen at 1. rewrite length_fmap. fold (zlen (row_at s l)). rewrite Hz. done.
Qed.

Lemma levels_read s ls : shape s → parts_good s → NoDup ls → (∀ l, l ∈ ls → 0 ≤ l ≤ leaf) → ∀ x a rest, nb x = nb s →
  (∀ l, l ∈ ls → ∃ row, zget (ptree x) l = Some row ∧ zlen row = FState.row_size s l) →
  ∃ k pt, fold_each ls (a, a) read_level ((ls ≫= tree_bytes s) ++ rest, x) = Ret ((k, k), (rest, set_ptree pt x)) ∧
    (∀ l, l ∈ ls → zget pt l = zget (ptree s) l) ∧ ∀ l, l ∉ ls → zget pt l = zget (ptree x) l.
Proof.
  intros Hsh Hg. induction 1 as [|l ls Hl Hnd IH]; intros Hr x a rest Hn Hx.
  { exists a, (ptree x). split; [by destruct x|]. split; [by intros l ?%elem_of_nil|done]. }
  assert (0 ≤ l ≤ leaf) as Hl0 by (apply Hr; by left). destruct (row_spec s l Hsh Hl0) as [Hrow Hz].
  destruct (Hx l (list_elem_of_here _ _)) as (rowx & Hrx & Hzx).
  pose proof (level_read s x l (a, a) ((ls ≫= tree_bytes s) ++ rest) rowx Hg Hn Hrx Hzx Hz) as Hrun. cbn [fst snd] in Hrun.
  pose proof (zget_Some_lt _ _ _ Hrx) as Hlt.
  destruct (IH ltac:(intros j Hj; apply Hr; by right) (set_ptree (zset (ptree x) l (row_at s l)) x) (a + FState.row_size s l) rest Hn)
    as (k & pt & Hk & Hin & Hout).
  { intros j Hj. cbn [ptree set_ptree]. rewrite zget_zset_ne by (by intros <-). apply Hx. by right. }
  exists k, pt. split; [|split].
  - cbn [fold_each]. change ((l :: ls) ≫= tree_bytes s) with (tree_bytes s l ++ (ls ≫= tree_bytes s)).
    rewrite <- app_assoc, (bind_step _ _ _ _ _ Hrun). exact Hk.
  - intros j [->|Hj]%elem_of_cons; [|by apply Hin]. rewrite Hout by done. cbn [ptree set_ptree]. by rewrite zget_zset_eq.
  - intros j [Hne Hj]%not_elem_of_cons. rewrite Hout by done. cbn [ptree set_ptree]. by rewrite zget_zset_ne.
Qed.

(** *** The same tree in another object *)
Lemma live_as_wide s s' l i : nb s' = nb s → live s' l i → live s l i.
Proof. intros En. unfold live, width. by rewrite En. Qed.

Lemma child_sum_at2 s s' l i : nb s' = nb s → (∀ l i, at2 (ptree s') l i = at2 (ptree s) l i) → child_sum s' l i = child_sum s l i.
Proof.
  intros En Ep. unfold child_sum, width. rewrite En. apply zsum_ext. intros j _. case_match; [|done]. by rewrite Ep.
Qed.

Lemma tree_clean s s' : Inv digest_of s → nb s' = nb s → (∀ l i, at2 (ptree s') l i = at2 (ptree s) l i) →
  clean digest_of s' ∧ root_ok digest_of s'.
Proof.
  intros [Hsh Hs Hd] En Ep. pose proof leaf_range. pose proof (sh_nb _ Hsh) as Hnb.
  assert (∀ l i p, live s l i → l < leaf → at2 (ptree s') l i = Some p →
    d p = State.state_block digest_of (mpi_write (child_sum s' l i `mod` DSum.M)) i (lm p)) as G.
  { intros l i p Hl Hlf Hp. destruct (Hd l i Hl) as [[? _]|(q & Hq & Hdq)]; [lia|].
    rewrite Ep, Hq in Hp. injection Hp as <-. rewrite Hdq. unfold content. rewrite (proj2 (Z.eqb_neq l leaf)) by lia.
    rewrite (child_sum_at2 s s') by done. rewrite Hs; [done|destruct Hl; lia|].
    assert (0 ≤ nb s ≤ PLevelSize leaf) as Hr by lia. destruct Hl as [Hl1 Hl2]. pose proof (width_level s l Hr Hl1). lia. }
  split.
  - intros l i p Hl Hlf. apply G; [by eapply live_as_wide|lia].
  - assert (live s 0 0) as Hl0 by (by apply live_root). destruct (live_part s 0 0 Hsh Hl0) as [p Hp]. exists p.
    split; [by rewrite Ep|]. apply G; [done|lia|by rewrite Ep].
Qed.

(** *** The records before they are read *)
Lemma clear_tidy (g g' : Log.t CRec.Checkpoint_rec) h : Forall SHist.tidy (Log.elems g) → Log.clear CRec.clear g h = Ret g' →
  Forall SHist.tidy (Log.elems g').
Proof.
  intros Hg E. unfold Log.clear in E. apply outcome_bind_Ret in E as (e & E & Eg). injection Eg as <-. cbn.
  revert e E. induction (seqZ 0 (Log.max_size g)) as [|j js IH] using rev_ind; intros e E; [by injection E as <-|].
  unfold clear_slots in *. rewrite foldl_app in E. cbn in E. apply outcome_bind_Ret in E as (e1 & E1 & E).
  unfold clear_slot in E. apply outcome_bind_Ret in E as (x & Ex & E). injection E as <-. apply of_option_Ret in Ex.
  apply Forall_zset; [by apply IH|]. pose proof (Forall_zget _ _ _ _ (IH _ E1) Ex) as Hx.
  unfold CRec.clear. destruct (CRec.is_cleared x); [done|]. by intros _.
Qed.

Lemma cleared_empty r : cleared CRec.clear r → SHist.tidy r → CRec.is_cleared r = true ∧ CRec.parts r = ∅.
Proof.
  intros [y ->] Ht. assert (CRec.is_cleared (CRec.clear y) = true) as Hc.
  { unfold CRec.clear. by destruct (CRec.is_cleared y) eqn:E. }
  split; [done|by apply Ht].
Qed.

(** A state that can be saved at [ls]. *)
Record saving (s : Store) (ls le : Z) : Prop := {
  sa_inv : Inv digest_of s;
  sa_parts : parts_good s;
  sa_lc : 0 ≤ ls ≤ lc s ∧ lc s ≤ le ∧ lc s < 2 ^ 63;
  sa_recs i : ls ≤ i ≤ ls + max_out → ∃ r, Log.fetch (clog s) i = Ret r;
  sa_good i : ls ≤ i ≤ ls + max_out → CRec.is_cleared (rec_at s i) = false → record_good s ls i;
}.

(** The object that a process starts with, on the same memory. *)
Record starting (s t : Store) : Prop := {
  st_shape : shape t;
  st_sums : dead_sums t;
  st_mem : mem t = mem s ∧ nb t = nb s;
  st_log : Log.ok (clog t) ∧ max_out < Log.max_size (clog t) ∧ Forall SHist.tidy (Log.elems (clog t));
}.

Definition same_record (s t : Store) (i : Z) : Prop :=
  if CRec.is_cleared (rec_at s i)
  then ∃ r, Log.fetch (clog t) i = Ret r ∧ CRec.is_cleared r = true ∧ CRec.parts r = ∅
  else Log.fetch (clog t) i = Log.fetch (clog s) i.

Definition state_bytes (s : Store) (ls : Z) : list Z :=
  bitmap_bytes (cowb s) ++ (seqZ 0 PLevels ≫= tree_bytes s) ++ long_bytes (lc s) ++
  stream s (live_recs s (seqZ ls (max_out + 1))) ++ long_bytes (-1).

Lemma live_elem s ls i : i ∈ live_recs s (seqZ ls (max_out + 1)) ↔ CRec.is_cleared (rec_at s i) = false ∧ ls ≤ i ≤ ls + max_out.
Proof. unfold live_recs. rewrite list_elem_of_filter, elem_of_seqZ. split; intros [? ?]; split; (done || lia). Qed.

Lemma level_range l : l ∈ seqZ 0 PLevels → 0 ≤ l ≤ leaf.
Proof. intros ?%elem_of_seqZ. unfold leaf. lia. Qed.

Lemma state_writes s ls le keep : saving s ls le → writes (shutdown false keep s ls) true (state_bytes s ls).
Proof.
  intros [Hinv Hp Hlc Hr Hg]. pose proof (inv_shape _ _ Hinv) as Hsh. unfold shutdown, state_bytes.
  eapply writes_bind; [by apply bitmap_writes, (sh_cowb _ Hsh)|].
  destruct (levels_write s (seqZ 0 PLevels) (0, 0) Hsh level_range) as (k & Hk).
  eapply writes_bind; [exact Hk|]. eapply writes_bind; [apply fwrite_one|].
  destruct (records_writes s ls (seqZ ls (max_out + 1)) ((0, 0).1 + k + 1, (0, 0).2 + k + 1)) as (k2 & Hk2).
  { intros i Hi%elem_of_seqZ. apply Hr. lia. } { intros i Hi%live_elem. apply Hg; tauto. }
  eapply writes_bind; [exact Hk2|]. rewrite <- (app_nil_r (long_bytes (-1))). eapply writes_bind; [apply fwrite_one|].
  cbn [fst snd andb]. rewrite Z.eqb_refl. apply writes_ret.
Qed.

(** The tree of the file in the new object. *)
Lemma tree_read s t : Inv digest_of s → parts_good s → starting s t → ∀ bm rest,
  ∃ k pt, fold_each (seqZ 0 PLevels) (0, 0) read_level ((seqZ 0 PLevels ≫= tree_bytes s) ++ rest, set_cowb bm t) =
      Ret ((k, k), (rest, set_ptree pt (set_cowb bm t))) ∧ ∀ l i, at2 pt l i = at2 (ptree s) l i.
Proof.
  intros Hinv Hg [Hst _ [_ Hn] _] bm rest. pose proof (inv_shape _ _ Hinv) as Hsh.
  assert (∀ l, FState.row_size t l = FState.row_size s l) as Hrs by (intros l; unfold FState.row_size; by rewrite Hn).
  destruct (levels_read s (seqZ 0 PLevels) Hsh Hg ltac:(apply NoDup_seqZ) level_range (set_cowb bm t) 0 rest Hn) as (k & pt & Hk & Hin & Hout).
  { intros l Hl%level_range. destruct (row_spec t l Hst Hl) as [Hr Hz]. exists (row_at t l). by rewrite <- Hrs. }
  exists k, pt. split; [exact Hk|]. intros l i. unfold at2. destruct (decide (l ∈ seqZ 0 PLevels)) as [Hl|Hl].
  - by rewrite (Hin l Hl).
  - rewrite (Hout l Hl). assert (¬ 0 ≤ l ≤ leaf) as Hnl by (intros Hx; apply Hl, elem_of_seqZ; unfold leaf in *; lia).
    assert (∀ x, shape x → at2 (ptree x) l i = None) as Hnone.
    { intros x Hx. destruct (at2 (ptree x) l i) as [q|] eqn:E; [|done]. destruct Hnl. apply (sh_ptree _ Hx l i). by eexists. }
    pose proof (Hnone t Hst) as E1. pose proof (Hnone s Hsh) as E2. unfold at2 in E1, E2. cbn [ptree set_cowb]. by rewrite E1, E2.
Qed.

Lemma body_len r : (0 < length (body r))%nat.
Proof. unfold body. rewrite length_app, Req.bytes_of_length. lia. Qed.

Lemma more_len s ns rest : (length ns < S (length (more s ns ++ rest)))%nat.
Proof.
  assert (∀ ns, length ns ≤ length (stream s ns))%nat as G.
  { intros l. induction l as [|i l IH]; [cbn; lia|].
    change (stream s (i :: l)) with ((long_bytes i ++ body (rec_at s i)) ++ stream s l). rewrite !length_app.
    pose proof (body_len (rec_at s i)). cbn [length]. lia. }
  destruct ns as [|i ns]; cbn [more length]; [lia|]. rewrite !length_app. pose proof (G ns). pose proof (body_len (rec_at s i)). lia.
Qed.

(** C31: a state that is saved at a shutdown and read back by a process that starts on the same
    memory: the restart succeeds, the partition tree has the same parts, with the sums of their
    digests, the last checkpoint is the same, and so is the record of every checkpoint of the
    window.  Of the bitmap of the blocks written since the last checkpoint only the lower half is
    that of the saved state; the upper half is what was in the memory of the new process. *)
Theorem state_file_roundtrip s t ls le keep (junk_byte : ∀ j, HmacModel.byte (junk j)) : saving s ls le → starting s t →
  ∃ l, (∀ f, shutdown false keep s ls f = Ret (true, f ++ l)) ∧
    ∀ rest, ∃ t', restart junk digest_of ls le false (l ++ rest, t) = Ret (true, (rest, t')) ∧
      mem t' = mem s ∧ (∀ l i, at2 (ptree t') l i = at2 (ptree s) l i) ∧ sums t' ∧ lc t' = lc s ∧
      (∀ i, ls ≤ i ≤ ls + max_out → same_record s t' i) ∧
      ∀ i, 0 ≤ i < 64 * BM.nc (cowb s) → BM.bit (cowb t') i =
        if decide (i < 32 * BM.nc (cowb s)) then BM.bit (cowb s) i else Z.testbit (junk (i `div` 8)) (i `mod` 8).
Proof.
  intros Hsa Hstart. exists (state_bytes s ls). split; [by eapply state_writes|]. intros rest.
  pose proof Hsa as [Hinv Hg Hlc Hr Hgood]. pose proof (inv_shape _ _ Hinv) as Hsh. pose proof (sh_cowb _ Hsh) as [Hwf _].
  pose proof Hstart as [Hst Hdead [Hm Hn] (Hok & Hmax & Htidy)].
  set (ns := live_recs s (seqZ ls (max_out + 1))). set (bm := reloaded junk (cowb s)).
  unfold restart, state_bytes. rewrite this_step. cbn beta iota. rewrite <- !app_assoc.
  rewrite (file_step _ _ _ _ _ _ (bitmap_takes junk _ _ Hwf)). cbn beta iota. fold bm.
  rewrite (obj_step (modify (set_cowb bm)) _ _ t tt (set_cowb bm t)) by done.
  destruct (tree_read s t Hinv Hg Hstart bm (long_bytes (lc s) ++ stream s ns ++ long_bytes (-1) ++ rest)) as (k & pt & Hk & Hpt).
  rewrite (bind_step _ _ _ _ _ Hk). set (x1 := set_ptree pt (set_cowb bm t)) in *.
  assert (nb x1 = nb s) as Hn1 by exact Hn.
  assert (arrays x1) as Ha1.
  { split; [rewrite Hn1; apply (sh_nb _ Hsh)| |exact (sh_stree _ Hst)]. intros l i. cbn [ptree x1 set_ptree]. rewrite Hpt.
    unfold FState.row_size. rewrite Hn1. apply (sh_ptree _ Hsh). }
  destruct (tree_clean s x1 Hinv Hn1 Hpt) as [Hclean Hroot].
  destruct (check_tree_run digest_of x1 true Ha1 Hdead) as (r & x2 & Hrun & Hb).
  assert (keeps (λ s s', cowb s' = cowb s ∧ clog s' = clog s) (check_tree digest_of true)) as Hkeep by apply check_tree_keeps.
  destruct (Hkeep _ _ _ Hrun) as [Hcow2 Hlog2]. destruct Hb as [Hm2 Hn2 _ Hs2 _ _ Hc2]. destruct (Hc2 Hclean Hroot) as [-> Hp2].
  rewrite (obj_step _ _ _ _ _ _ Hrun).
  destruct (FView.clear_log CRec.clear (clog t) ls Hok) as (g & Hg1 & Hgok & Hh & Hsize & Hcl).
  pose proof (clear_tidy _ _ _ Htidy Hg1) as Hgt.
  rewrite (obj_step _ _ _ _ _ _ (lift_run _ _ x2 Hg1)).
  rewrite (obj_step (modify (set_clog g)) _ _ x2 tt (set_clog g x2)) by done.
  rewrite (file_step _ _ _ _ _ _ (fread_field_takes 8 long_of (lc t) (long_bytes _) (le_len _ _))). cbn beta iota.
  rewrite FView.long_of_bytes by (unfold FMsgs.i64; lia).
  set (x3 := set_lc (lc s) (set_clog g x2)). rewrite (obj_step (modify (set_lc (lc s))) _ _ (set_clog g x2) tt x3) by done.
  rewrite (proj2 (Z.ltb_ge (lc s) ls)), (proj2 (Z.ltb_ge le (lc s))) by lia. cbn [orb].
  rewrite (app_assoc (stream s ns)), stream_next, <- app_assoc.
  assert (∀ i, i ∈ ns → ls ≤ i ≤ ls + max_out ∧ record_good s ls i) as Hns.
  { intros i [Hc Hi]%live_elem. split; [done|]. by apply Hgood. }
  assert (FMsgs.i64 (next ns)) as Hn64.
  { destruct ns as [|j ns'] eqn:Ens; [done|]. destruct (Hns j) as (_ & Hj & _); [left|]. cbn. unfold FMsgs.i64. lia. }
  rewrite (file_step _ _ _ _ _ _ (fread_local_takes 8 long_of (long_bytes _) (le_len _ _))), FView.long_of_bytes by done.
  rewrite (bind_step _ _ _ _ _ (eq_refl : on_file get (more s ns ++ rest, x3) = Ret (more s ns ++ rest, (more s ns ++ rest, x3)))).
  assert (∀ i, ls ≤ i ≤ ls + max_out → ∃ r, Log.fetch g i = Ret r ∧ CRec.is_cleared r = true ∧ CRec.parts r = ∅) as Hempty.
  { intros i Hi. destruct (wl_fetch_in (WindowLogLaws := Log.window_log_laws id) g i Hgok) as (r & _ & Hgr).
    - cbn. apply SHist.window_range. lia.
    - cbn in Hgr. exists r. split; [done|]. apply cleared_empty; [by eapply Hcl|]. by eapply SHist.fetch_tidy. }
  destruct (records_run s ls ns) with (fuel := S (length (more s ns ++ rest))) (rb := k + 1 + 1) (x := x3) (rest := rest)
    as (k2 & g' & Hrec & Hgok' & Hin & Hout).
  - lia. - lia. - apply NoDup_filter, NoDup_seqZ. - intros i Hi. by apply Hns. - apply more_len. - done.
  - cbn [nb x3 set_lc set_clog]. by rewrite Hn2. - done.
  - intros i Hi. destruct (Hempty i) as (r & ? & _ & ?); [by apply Hns|]. by exists r.
  - exists (set_clog g' x3). cbn [fst snd].
    replace (k + 2) with (k + 1 + 1) by lia. rewrite (bind_step _ _ _ _ _ Hrec). rewrite Z.eqb_refl. split; [done|].
    split; [cbn; by rewrite Hm2|]. split; [intros l i; cbn [ptree set_clog x3 set_lc]; rewrite Hp2; apply Hpt|].
    split; [by apply (sums_same x2)|]. split; [done|]. split.
    + intros i Hi. unfold same_record. cbn [clog set_clog]. destruct (CRec.is_cleared (rec_at s i)) eqn:Ec.
      * rewrite Hout by (intros [? _]%live_elem; congruence). by apply Hempty.
      * rewrite Hin by (by apply live_elem). destruct (Hr i Hi) as (r & Hri). unfold rec_at. by rewrite Hri.
    + intros i Hi. cbn [cowb set_clog x3 set_lc]. rewrite Hcow2. cbn [cowb x1 set_ptree set_cowb].
      by apply reloaded_bit.
Qed.
End round.
End FRound.
