(* ===== verification/FilesSample.v ===== *)
(** * FilesSample: a state that is saved and read back

    The properties of FilesTree.v and FilesRound.v at a state with two checkpoints: four blocks
    under a tree of three levels, of which the second was written between the two, so that the
    record of the first holds copies of every kind. *)
From stdpp Require Import gmap.
From S2P Require Import Prelude Node Bitmap SeqLog Certificate Messages PrePrepare StateMonad Files FilesProps FileMsgs FilesView.
From S2P Require Import Partition State StateInv StateInit StateHist World StateProps FilesState FilesTree FilesRound.
Import FileIO FProps.
#[local] Open Scope Z_scope.

Module FSample.
Import State SInv FState FTree FRound.
Import SProps.
#[local] Existing Instance tree.
#[local] Existing Instance mpi.
#[local] Existing Instance tree_ok.
#[local] Existing Instance mpi_ok.
#[local] Existing Instance sample_config.
#[local] Existing Instance sample_config_ok.

(** ** The state *)
Definition blk (x : Z) : Block := replicate 4096 x.
Definition t0 : Store := make [blk 1; blk 2; blk 3; blk 4].
Definition u0 : Store := after (compute_full_digest sample_digest) t0.
Definition u1 : Store := after (cow 4096 4097) u0.
Definition u2 : Store := after (block_to 1 (blk 20)) u1.
Definition u3 : Store := after (checkpoint sample_digest 4) u2.
Definition σ3 : gmap Z Snap := <[lc u3 := SHist.snap u3]> {[0 := SHist.snap u0]}.

Lemma saved_hist0 : SHist.hist sample_digest u0 {[0 := SHist.snap u0]}.
Proof. apply SHist.hist_first with [blk 1; blk 2; blk 3; blk 4]; [by vm_compute|]. apply after_run. by vm_compute. Qed.
Lemma saved_in0 : SHist.in_memory u0 4096 4097.
Proof. vm_compute. intuition congruence. Qed.
Lemma saved_run1 : cow 4096 4097 u0 = Ret (tt, u1).
Proof. apply after_run. by vm_compute. Qed.
Lemma saved_hist1 : SHist.hist sample_digest u1 {[0 := SHist.snap u0]}.
Proof. exact (SHist.hist_cow sample_digest u0 _ 4096 4097 u1 saved_hist0 saved_in0 saved_run1). Qed.
Lemma saved_in1 : 0 ≤ 1 < nb u1 ∧ BM.bit (cowb u1) 1 = true.
Proof. vm_compute. intuition congruence. Qed.
Lemma saved_run2 : block_to 1 (blk 20) u1 = Ret (tt, u2).
Proof. apply after_run. by vm_compute. Qed.
Lemma saved_hist2 : SHist.hist sample_digest u2 {[0 := SHist.snap u0]}.
Proof. exact (SHist.hist_write sample_digest u1 _ 1 (blk 20) u2 saved_hist1 (proj1 saved_in1) (proj2 saved_in1) saved_run2). Qed.
Lemma saved_run3 : checkpoint sample_digest 4 u2 = Ret (tt, u3).
Proof. apply after_run. by vm_compute. Qed.
Lemma saved_at4 : lc u2 + checkpoint_interval = 4 ∧ Log.within_range (clog u2) 4 = true.
Proof. by vm_compute. Qed.
Lemma saved_hist : SHist.hist sample_digest u3 σ3.
Proof. destruct saved_at4 as [E W]; apply (SHist.hist_checkpoint sample_digest u2 _ u3 saved_hist2); rewrite E; [exact W|exact saved_run3]. Qed.

(** ** Deciding that a state can be saved *)
Definition copy_goodb (x : (Z * Z) * copy) : bool :=
  bool_decide (FMsgs.i32 x.1.1) && bool_decide (FMsgs.i32 x.1.2) && bool_decide (FMsgs.i64 (lm (copy_part x.2))) &&
  match x.2 with PartCopy _ => negb (x.1.1 =? leaf) | BlockCopy _ b => (x.1.1 =? leaf) && (zlen b =? Block_size) end.

Definition rec_goodb (s : Store) (i : Z) : bool :=
  match Log.fetch (clog s) i with
  | Ret r => CRec.is_cleared r ||
      (i <=? lc s) && (CRec.num_entries r <=? 2 * nb s) && forallb copy_goodb (map_to_list (CRec.parts r))
  | Err _ => false
  end.

Definition savableb (s : Store) (ls le : Z) : bool :=
  forallb (forallb (λ p, bool_decide (FMsgs.i64 (lm p)))) (ptree s) &&
  (0 <=? ls) && (ls <=? lc s) && (lc s <=? le) && (lc s <? 2 ^ 63) && (2 * nb s <? 2 ^ 31) &&
  forallb (rec_goodb s) (seqZ ls (max_out + 1)).

Lemma copy_goodb_ok x : copy_goodb x = true → copy_good x.
Proof.
  unfold copy_goodb, copy_good, part_good. intros [[[? ?]%andb_true_iff ?]%andb_true_iff Hx]%andb_true_iff.
  repeat match goal with E : bool_decide _ = true |- _ => apply bool_decide_eq_true in E end. split_and!; try done.
  destruct (x.2); [by apply negb_true_iff, Z.eqb_neq in Hx|]. apply andb_true_iff in Hx as [? ?]. zprop. done.
Qed.

Lemma forallb_in {A} (f : A → bool) l x : forallb f l = true → x ∈ l → f x = true.
Proof. intros Hf Hx%list_elem_of_In. by apply (proj1 (forallb_forall f l) Hf). Qed.

Lemma savableb_ok s ls le : Inv sample_digest s → savableb s ls le = true → saving sample_digest s ls le.
Proof.
  intros HI. unfold savableb. intros [[[[[[Hp ?]%andb_true_iff ?]%andb_true_iff ?]%andb_true_iff ?]%andb_true_iff ?]%andb_true_iff Hr]%andb_true_iff.
  zprop. assert (∀ i, ls ≤ i ≤ ls + max_out → rec_goodb s i = true) as Hi.
  { intros i Hi. apply (forallb_in _ _ _ Hr), elem_of_seqZ. lia. }
  assert (∀ X (l : list X) j x, zget l j = Some x → x ∈ l) as Hel.
  { intros X l j x. apply (Forall_zget (λ x, x ∈ l)). by apply Forall_forall. }
  split; [done| |lia| |].
  - intros l i p Hat. unfold at2 in Hat. destruct (zget (ptree s) l) as [row|] eqn:El; [|done].
    apply Hel in El, Hat. apply (proj1 (bool_decide_eq_true (FMsgs.i64 (lm p)))). apply (forallb_in _ _ _ (forallb_in _ _ _ Hp El) Hat).
  - intros i Hlr. specialize (Hi i Hlr). unfold rec_goodb in Hi. destruct (Log.fetch (clog s) i) as [r|]; [by exists r|done].
  - intros i Hlr Hc. specialize (Hi i Hlr). unfold record_good, rec_goodb, rec_at in *.
    destruct (Log.fetch (clog s) i) as [r|]; [|done]. rewrite Hc in Hi. cbn [orb] in Hi.
    apply andb_true_iff in Hi as [[? ?]%andb_true_iff He]. zprop. split_and!; [lia..|].
    apply Forall_forall. intros x Hx. apply copy_goodb_ok. apply (forallb_in _ _ _ He Hx).
Qed.

Lemma sample_saving : saving sample_digest u3 0 8.
Proof.
  apply savableb_ok; [|by vm_compute].
  destruct (SHist.hist_inv sample_digest sample_digest_nonzero sample_window u3 σ3 saved_hist) as (last & r & HH). apply HH.
Qed.

(** ** The properties *)
Lemma make_starting s : shape s → starting s (make (mem s)).
Proof.
  intros Hsh. pose proof (sh_mem _ Hsh) as Hm. pose proof (sh_nb _ Hsh) as Hnb. rewrite <- Hm in Hnb. pose proof config_max_out. split.
  - by apply SInit.make_shape.
  - intros l i Hl Hi _. cbn [make stree]. rewrite at2_fmap_seqZ, decide_True by lia. by rewrite zget_replicate by lia.
  - done.
  - split; [by apply SInit.make_log, sample_window|]. split; [cbn; lia|]. cbn. apply Forall_replicate. done.
Qed.
Definition junk0 (j : Z) : Z := j mod 256.
Lemma state_file_roundtrip_witness :
  zlen (map_to_list (CRec.parts (rec_at u3 0))) = 5 ∧
  ∃ l, (∀ f, shutdown false true u3 0 f = Ret (true, f ++ l)) ∧
    ∃ t', restart junk0 sample_digest 0 8 false (l ++ [], make (mem u3)) = Ret (true, ([], t')) ∧
      mem t' = mem u3 ∧ lc t' = 4.
Proof.
  split; [by vm_compute|].
  destruct (state_file_roundtrip junk0 sample_digest u3 (make (mem u3)) 0 8 true) as (l & Hl & Hr).
  - intros j. apply Z.mod_pos_bound. lia.
  - exact sample_saving.
  - apply make_starting, sample_saving.
  - exists l. split; [exact Hl|]. destruct (Hr []) as (t' & Hrun & Hm & _ & _ & Hlc & _). exists t'. split; [exact Hrun|].
    split; [exact Hm|]. rewrite Hlc. clear. vm_compute. reflexivity.
Defined.


(** The file of [u3] with a wrong digest in the middle of the tree, and the number of a last
    checkpoint that is too high. *)
Definition bad_tree : Store := set_ptree (set2 (ptree u3) 1 0 (mkPart 0 Dig.zero)) u3.
Definition bad_file : File := bitmap_bytes (cowb u3) ++ (seqZ 0 PLevels ≫= tree_bytes bad_tree) ++ long_bytes 100.

Lemma is_ret_Ret {A} (o : outcome A) : is_ret o = true → ∃ a, o = Ret a.
Proof. destruct o as [a|]; [by exists a|done]. Qed.

Lemma bad_run : is_ret (restart junk0 sample_digest 0 8 false (bad_file, make (mem u3))) = true.
Proof. vm_compute. reflexivity. Qed.

Lemma restart_rebuilds_tree_witness : ∃ b f' s',
  restart junk0 sample_digest 0 8 false (bad_file, make (mem u3)) = Ret (b, (f', s')) ∧
  sums s' ∧ digests sample_digest (λ l _, l = leaf ∨ l = 0) s'.
Proof.
  destruct (is_ret_Ret _ bad_run) as [[b [f' s']] E]. exists b, f', s'. split; [exact E|].
  destruct (make_starting u3) as [Hsh Hz _ _]; [apply sample_saving|].
  destruct (restart_rebuilds_tree sample_digest junk0 _ _ _ _ _ _ _ Hsh Hz E) as (_ & _ & Hs & Hd & _). split; [exact Hs|exact Hd].
Defined.
End FSample.
