(* ===== verification/ViewLog.v ===== *)
(** * ViewLog: what a view-change says is what its sender did

    The log of requests in a View_info (ViewInfo.v), as pre-prepares and prepares of later
    views come in, and the view-change that is built of it.  Together they give the
    hypothesis [NVS.report] under which a new view keeps what was prepared. *)
From stdpp Require Import gmap.
From S2P Require Import Prelude Node SeqLog Certificate Messages Quorum PrePrepare ViewChange StateMonad World NewView NVInfo.
From S2P Require Import NewViewSafety ViewInfo.
Import Auth.

Module VL.
Import VI.
Section log.
Context `{Config} `{World}.

(** ** One entry of the log

    [v0] is a view in which a quorum prepared the digest [d0]; the replica sends nothing
    else for the number from then on.  [vw] is a bound on the views so far. *)
Record entry_ok (v0 : Z) (d0 : Dig.Digest) (vw : Z) (ri : OReq_info) : Prop := {
  eo_views : -1 ≤ o_lv ri < vw ∧ -1 ≤ o_v ri < vw;
  eo_order : is_Some (o_m ri) → o_v ri ≤ o_lv ri;
  eo_prepared : is_Some (o_m ri) → v0 ≤ o_lv ri → o_d ri = d0;
  eo_sent : o_m ri = None → (v0 ≤ o_v ri → o_d ri = d0) ∧ o_lv ri < v0;
}.

(** The entry of a replica that prepared the digest itself. *)
Definition entry_member (v0 : Z) (d0 : Dig.Digest) (ri : OReq_info) : Prop :=
  is_Some (o_m ri) ∧ o_d ri = d0 ∧ v0 ≤ o_v ri.

(** An entry without a request: a new one, or one that [clear] emptied. *)
Definition blank (ri : OReq_info) : Prop := o_lv ri = -1 ∧ o_v ri = -1 ∧ o_m ri = None.

Lemma blank_entry_ok v0 d0 vw ri : 0 ≤ v0 → 0 ≤ vw → blank ri → entry_ok v0 d0 vw ri.
Proof.
  intros Hv0 Hvw (Hlv & Hv & Hm). constructor; rewrite ?Hlv, ?Hv, ?Hm; [lia|by intros [? [=]]|by intros [? [=]]|].
  intros _. split; lia.
Qed.

Lemma cleared_blank ri : blank (oreq_clear ri).
Proof. done. Qed.

Lemma complete_entry_ok v0 d0 pp ri :
  0 ≤ PP.view pp → (v0 ≤ PP.view pp → PP.digest pp = d0) → entry_ok v0 d0 (PP.view pp + 1) (oreq_complete pp ri).
Proof. intros Hv Hd. constructor; cbn; [lia|lia|by intros _|done]. Qed.

Lemma incomplete_entry_ok v0 d0 vw d ri :
  0 ≤ v0 → 0 ≤ vw → entry_ok v0 d0 vw ri → (v0 ≤ vw → d = d0) → entry_ok v0 d0 (vw + 1) (oreq_incomplete vw d ri).
Proof.
  intros Hv0 Hvw [Hviews Horder Hprep Hsent] Hd. unfold oreq_incomplete.
  destruct (Dig.operator_eq (o_d ri) d) eqn:Ed.
  - apply Dig.operator_eq_spec in Ed as <-.
    destruct (o_m ri) as [pp|] eqn:Em; constructor; cbn; rewrite ?Em; try done; try lia; try by intros [? [=]].
    intros _. destruct (Hsent eq_refl). by split.
  - assert (o_d ri ≠ d) as Hne by (by intros Heq%Dig.operator_eq_spec; congruence).
    constructor; cbn; [destruct (o_m ri); lia|by intros [? [=]]|by intros [? [=]]|]. intros _. split; [done|].
    destruct (o_m ri) as [pp|] eqn:Em.
    + destruct (decide (v0 ≤ o_lv ri)) as [Hle|]; [|lia]. exfalso. apply Hne. rewrite Hprep by done.
      symmetry. apply Hd. lia.
    + destruct (decide (v0 ≤ o_v ri)) as [Hle|]; [|lia]. exfalso. apply Hne.
      rewrite (proj1 (Hsent eq_refl) Hle). symmetry. apply Hd. lia.
Qed.

Lemma incomplete_member v0 d0 vw ri : entry_member v0 d0 ri → entry_member v0 d0 (oreq_incomplete vw d0 ri).
Proof.
  intros (Hm & Hd & Hv). unfold oreq_incomplete. rewrite (proj2 (Dig.operator_eq_spec _ _) Hd).
  destruct (o_m ri) as [pp|] eqn:Em; [|by destruct Hm]. split_and!; cbn; rewrite ?Em; [done|done|done].
Qed.

(** ** The message built of the log *)

(** The fields of a view-change that the checkpoints and the authentication leave alone. *)
Definition same_requests (m m' : VC.View_change) : Prop :=
  VC.view m' = VC.view m ∧ VC.ls m' = VC.ls m ∧ VC.id m' = VC.id m ∧ VC.n_reqs m' = VC.n_reqs m ∧
  VC.chunks m' = VC.chunks m ∧ VC.info m' = VC.info m.

#[local] Instance same_requests_trans : Transitive same_requests.
Proof. intros a b c (? & ? & ? & ? & ? & ?) (? & ? & ? & ? & ? & ?). split_and!; congruence. Qed.

Lemma same_requests_says m m' i :
  same_requests m m' → VC.proofs m' i = VC.proofs m i ∧ VC.req m' i = VC.req m i ∧
  VC.last_stable m' = VC.last_stable m ∧ VC.max_seqno m' = VC.max_seqno m.
Proof.
  intros (_ & Hls & _ & Hn & Hc & Hi). unfold VC.proofs, VC.req, VC.last_stable, VC.max_seqno, VC.test.
  by rewrite Hls, Hn, Hc, Hi.
Qed.

Lemma re_authenticate_frame md digest_of k m m' :
  VC.re_authenticate md digest_of k m = Ret m' → same_requests m m' ∧ VC.ckpts m' = VC.ckpts m ∧ VC.n_ckpts m' = VC.n_ckpts m.
Proof. unfold VC.re_authenticate. intros E. invert_outcome. by split_and!. Qed.

Lemma add_checkpoint_frame m n d m' :
  VC.add_checkpoint m n d = Ret m' → VC.vc_ok m → same_requests m m' ∧ VC.vc_ok m'.
Proof.
  unfold VC.add_checkpoint. intros E Hm. invert_outcome. pose proof (VC.vc_ckpts _ Hm) as Hl. pose proof (VC.vc_nck _ Hm).
  match goal with G : zget (VC.ckpts m) ?k = Some _ |- _ => pose proof (zget_Some_lt _ _ _ G) as Hk; set (k' := k) in * end.
  cbn [VC.n_ckpts VC.set_ckpts VC.ckpts]. destruct (VC.n_ckpts m <=? k') eqn:Ek; zprop.
  all: split; [by split_and!|]; constructor; cbn; rewrite ?zlen_zset; try apply Hm; lia.
Qed.

Lemma add_checkpoints_frame digest l m m' :
  add_checkpoints digest l m = Ret m' → VC.vc_ok m → same_requests m m' ∧ VC.vc_ok m'.
Proof.
  unfold add_checkpoints. revert m'. induction l as [|n l IH] using rev_ind; intros m' E Hm.
  { injection E as <-. split; [by split_and!|done]. }
  rewrite foldl_app in E. cbn [foldl] in E. apply outcome_bind_Ret in E as (m1 & E1 & E).
  destruct (IH _ E1 Hm) as [Hs1 Hm1]. destruct (digest n) as [d|]; [|by injection E as <-].
  destruct (add_checkpoint_frame _ _ _ _ E Hm1) as [Hs2 Hm2]. split; [by etrans|done].
Qed.

(** What the log knows of [n], in the form of the message. *)
Definition says (ri : OReq_info) : option (VC.Req_info * bool) :=
  if o_v ri <? 0 then None
  else Some (VC.mkReqInfo (o_lv ri) (o_v ri) (o_d ri), bool_decide (is_Some (o_m ri))).

(** [m] lists the entries of [l] below [k]. *)
Record lists (l : Log.t OReq_info) (k : Z) (m : VC.View_change) : Prop := {
  ls_ok : VC.vc_ok m;
  ls_reqs : VC.n_reqs m ≤ k - VC.ls m - 1;
  ls_fetch n : VC.ls m < n < k → ∃ ri, Log.fetch l n = Ret ri;
  ls_bits j : 0 ≤ j < max_out → VC.prepared_bit m j = true →
    ∃ ri, Log.fetch l (VC.ls m + 1 + j) = Ret ri ∧ 0 ≤ o_v ri ∧ is_Some (o_m ri) ∧ VC.ls m + 1 + j < k;
  ls_entry n ri : VC.ls m < n < k → Log.fetch l n = Ret ri → 0 ≤ o_v ri →
    n - VC.ls m - 1 < VC.n_reqs m ∧ zget (VC.info m) (n - VC.ls m - 1) = Some (VC.mkReqInfo (o_lv ri) (o_v ri) (o_d ri)) ∧
    (is_Some (o_m ri) → VC.prepared_bit m (n - VC.ls m - 1) = true);
  ls_null n ri : VC.ls m < n < k → Log.fetch l n = Ret ri → o_v ri < 0 →
    n - VC.ls m - 1 < VC.n_reqs m → ∃ r, zget (VC.info m) (n - VC.ls m - 1) = Some r ∧ VC.v r < 0;
}.

Lemma lists_step `{!ConfigOk} l k m m' :
  VC.in_window m k → lists l k m →
  (∀ ri, Log.fetch l k = Ret ri → 0 ≤ o_v ri → is_Some (o_m ri) → VC.addressable (k - VC.ls m - 1)) →
  add_requests l [k] m = Ret m' → lists l (k + 1) m' ∧ VC.view m' = VC.view m ∧ VC.ls m' = VC.ls m ∧ VC.id m' = VC.id m.
Proof.
  intros Hk Hm Ha E. unfold add_requests in E. cbn [foldl mbind outcome_bind] in E.
  apply outcome_bind_Ret in E as (ri & Eri & E). destruct Hm as [Hok Hn Hf Hbits Hentry Hnull].
  assert (∀ n, VC.ls m < n < k + 1 → ∃ ri, Log.fetch l n = Ret ri) as Hf'.
  { intros n Hnk. destruct (decide (n = k)) as [->|]; [by exists ri|]. apply Hf. lia. }
  destruct (0 <=? o_v ri) eqn:Ev; zprop.
  - assert (o_v ri < VC.view m ∧ o_lv ri < VC.view m) as [Hv Hlv].
    { unfold VC.add_request in E. invert_outcome. zprop. lia. }
    destruct (VC.add_request_eq m k (o_v ri) (o_lv ri) (o_d ri) (bool_decide (is_Some (o_m ri))) Hok Hk Hv Hlv)
      as (cs & E' & Hcs & Hb).
    { intros Hs%bool_decide_eq_true. by apply (Ha ri). }
    rewrite E in E'. injection E' as ->. destruct (VC.window_index _ _ Hk) as [_ Hi].
    set (m1 := VC.put_request _ _ _ _).
    destruct (VC.put_request_info m (k - VC.ls m - 1) (VC.mkReqInfo (o_lv ri) (o_v ri) (o_d ri)) cs Hok Hi) as (_ & P2 & P3).
    destruct (VC.put_request_other m (k - VC.ls m - 1) (VC.mkReqInfo (o_lv ri) (o_v ri) (o_d ri)) cs)
      as (O1 & O2 & _ & _ & O5 & O6). fold m1 in P2, P3, O1, O2, O5, O6.
    assert (∀ j, 0 ≤ j < max_out → VC.prepared_bit m1 j =
      bool_decide (is_Some (o_m ri)) && bool_decide (j = k - VC.ls m - 1) || VC.prepared_bit m j) as Hbit.
    { intros j Hj. rewrite <- Hb by done. unfold VC.prepared_bit. by rewrite O5. }
    split; [|by split_and!]. constructor; rewrite ?O2, ?P2.
    + by apply VC.put_request_ok.
    + lia.
    + exact Hf'.
    + intros j Hj. rewrite Hbit, orb_true_iff, andb_true_iff, !bool_decide_eq_true by done. intros [[Hs ->]|Hj'].
      * exists ri. replace (VC.ls m + 1 + (k - VC.ls m - 1)) with k by lia. split_and!; done || lia.
      * destruct (Hbits j Hj Hj') as (r & ? & ? & ? & ?). exists r. split_and!; done || lia.
    + intros n r Hnk Er Hr. rewrite P3. destruct (decide (n = k)) as [->|Hne].
      * assert (r = ri) as -> by congruence. rewrite decide_True by done. split_and!; [lia|done|].
        intros Hs. rewrite Hbit by done. by rewrite !bool_decide_true.
      * destruct (Hentry n r) as (? & ? & Hs); [lia|done..|]. rewrite !decide_False by lia. split_and!; [lia|done|].
        intros Hs'. unfold VC.in_window in Hk. rewrite Hbit by lia. by rewrite Hs, orb_true_r.
    + intros n r Hnk Er Hr _. rewrite P3. assert (n ≠ k) by (intros ->; assert (r = ri) as -> by congruence; lia).
      rewrite decide_False by lia. case_decide as Hd; [|apply (Hnull n r); done || lia].
      destruct (zget_lookup (VC.info m) (n - VC.ls m - 1)) as [x ->]; [pose proof (VC.vc_info _ Hok); lia|].
      eexists. split; [done|]. cbn. lia.
  - injection E as <-. split; [|done]. constructor; [done|lia|done| | |].
    + intros j Hj Hj'. destruct (Hbits j Hj Hj') as (r & ? & ? & ? & ?). exists r. split_and!; done || lia.
    + intros n r Hnk Er Hr. apply Hentry; [|done..]. assert (n ≠ k) by (intros ->; assert (r = ri) as -> by congruence; lia). lia.
    + intros n r Hnk Er Hr Hlt. destruct (decide (n = k)) as [->|]; [lia|]. apply (Hnull n r); done || lia.
Qed.

Lemma lists_all `{!ConfigOk} l (cnt : nat) k m m' :
  lists l k m → VC.ls m < k → k + Z.of_nat cnt ≤ VC.ls m + max_out + 1 →
  (∀ n ri, k ≤ n < k + Z.of_nat cnt → Log.fetch l n = Ret ri → 0 ≤ o_v ri → is_Some (o_m ri) → VC.addressable (n - VC.ls m - 1)) →
  add_requests l (seqZ k (Z.of_nat cnt)) m = Ret m' →
  lists l (k + Z.of_nat cnt) m' ∧ VC.view m' = VC.view m ∧ VC.ls m' = VC.ls m ∧ VC.id m' = VC.id m.
Proof.
  intros Hm Hlo. revert m'. induction cnt as [|cnt IH]; intros m' Hhi Ha E.
  { injection E as <-. by rewrite Z.add_0_r. }
  rewrite Nat2Z.inj_succ in *. rewrite seqZ_snoc in E by lia. unfold add_requests in E. rewrite foldl_app in E.
  destruct (foldl _ (Ret m) (seqZ k _)) as [m1|] eqn:E1; [|done].
  destruct (IH m1) as (Hm1 & Hv1 & Hls1 & Hid1); [lia|intros n ri Hn; apply Ha; lia|done|].
  destruct (lists_step l (k + Z.of_nat cnt) m1 m') as (Hm' & Hv' & Hls' & Hid'); [unfold VC.in_window; lia|done| |done|].
  { intros ri Er Hr Hs. rewrite Hls1. apply (Ha _ ri); done || lia. }
  replace (k + Z.succ (Z.of_nat cnt)) with (k + Z.of_nat cnt + 1) by lia.
  split_and!; [done|congruence..].
Qed.

Lemma blank_lists `{!ConfigOk} l vw ls i : 0 < vw → 0 ≤ ls → lists l (ls + 1) (blank_view_change vw ls i).
Proof.
  intros Hv Hls. pose proof config_max_out. pose proof config_interval.
  assert (∀ n, VC.bzero_chunks n (replicate (Z.to_nat VC.prepared_size) 0) = replicate (Z.to_nat VC.prepared_size) 0) as Hz.
  { intros n. generalize (Z.to_nat VC.prepared_size). intros c. revert n.
    induction c as [|c IH]; intros n; [done|]. cbn [replicate VC.bzero_chunks]. rewrite IH. f_equal.
    destruct (8 <=? n); [done|]. destruct (0 <? n) eqn:En; [|done]. zprop. by rewrite Z.mod_0_l by lia. }
  assert (0 ≤ VC.max_ckpts ∧ 0 ≤ VC.prepared_size) as [? ?].
  { unfold VC.max_ckpts, VC.prepared_size. rewrite !Z.quot_div_nonneg by lia.
    pose proof (Z.div_pos max_out checkpoint_interval). pose proof (Z.div_pos (max_out + 64 - 1) 64). lia. }
  unfold blank_view_change, VC.init. rewrite Hz.
  constructor; cbn [VC.ls VC.n_reqs VC.view VC.ckpts VC.n_ckpts VC.chunks VC.info]; [|lia|lia| |lia..].
  - constructor; cbn [VC.ls VC.n_reqs VC.view VC.ckpts VC.n_ckpts VC.chunks VC.info]; rewrite ?zlen_replicate; lia.
  - intros j Hj. unfold VC.prepared_bit. cbn [VC.chunks]. unfold zget. case_decide; [|done].
    destruct (_ !! _) eqn:E; [|done]. apply lookup_replicate_1 in E as [-> _]. by rewrite Z.bits_0.
Qed.

Lemma lists_same l k m m' : same_requests m m' → VC.vc_ok m' → lists l k m → lists l k m'.
Proof.
  intros (_ & Hls & _ & Hn & Hc & Hi) Hok [_ Hr Hf Hb He H0']. constructor; rewrite ?Hls, ?Hn, ?Hi; try done.
  - intros j Hj. unfold VC.prepared_bit. rewrite Hc. by apply Hb.
  - intros n ri Hnk Er Hv. destruct (He n ri Hnk Er Hv) as (? & ? & Hp). split_and!; [done..|].
    intros Hs. unfold VC.prepared_bit. rewrite Hc. by apply Hp.
Qed.

Lemma re_authenticate_ok md digest_of k m m' : VC.re_authenticate md digest_of k m = Ret m' → VC.vc_ok m → VC.vc_ok m'.
Proof.
  intros E [? ? ? ? ? ? ? ?]. destruct (re_authenticate_frame _ _ _ _ _ E) as ((Hv & Hls & _ & Hn & Hc & Hi) & Hck & Hnck).
  constructor; rewrite ?Hv, ?Hls, ?Hn, ?Hc, ?Hi, ?Hck, ?Hnck; done.
Qed.

Lemma build_lists `{!ConfigOk} (e : env) (s : View_info) le digest m :
  0 < v s → 0 ≤ last_stable s →
  (∀ n ri, last_stable s < n ≤ last_stable s + max_out → Log.fetch (oplog s) n = Ret ri → 0 ≤ o_v ri → is_Some (o_m ri) →
     VC.addressable (n - last_stable s - 1)) →
  build_view_change e s le digest = Ret m →
  lists (oplog s) (last_stable s + max_out + 1) m ∧ VC.ls m = last_stable s.
Proof.
  intros Hv Hls Ha E. pose proof config_interval. unfold build_view_change in E.
  apply outcome_bind_Ret in E as (m1 & E1 & E). apply outcome_bind_Ret in E as (m2 & E2 & E).
  pose proof (blank_lists (oplog s) (v s) (last_stable s) (id s) Hv Hls) as Hb.
  destruct (add_checkpoints_frame _ _ _ _ E1 (ls_ok _ _ _ Hb)) as [Hs1 Hok1].
  pose proof (lists_same _ _ _ _ Hs1 Hok1 Hb) as Hl1. assert (VC.ls m1 = last_stable s) as Hls1 by apply Hs1.
  replace max_out with (Z.of_nat (Z.to_nat max_out)) in E2 by lia.
  destruct (lists_all (oplog s) (Z.to_nat max_out) (last_stable s + 1) m1 m2) as (Hl2 & _ & Hls2 & _);
    [done|lia|lia|intros n ri Hn; rewrite Hls1; apply Ha; lia|done|].
  destruct (re_authenticate_frame _ _ _ _ _ E) as (Hs3 & _).
  replace (last_stable s + 1 + _) with (last_stable s + max_out + 1) in Hl2 by lia.
  split; [eapply lists_same; [done|eapply re_authenticate_ok; [done|apply Hl2]|done]|].
  rewrite <- Hls1, <- Hls2. apply Hs3.
Qed.

(** ** Histories *)
Inductive log_event := Prepared (pp : PP.Pre_prepare) | Sent (vw : Z) (d : Dig.Digest).

Definition ev_view (x : log_event) : Z := match x with Prepared pp => PP.view pp | Sent vw _ => vw end.
Definition ev_digest (x : log_event) : Dig.Digest := match x with Prepared pp => PP.digest pp | Sent _ d => d end.

(** [add_complete] and [add_incomplete] on the entry of one number. *)
Definition log_step (ri : OReq_info) (x : log_event) : OReq_info :=
  match x with Prepared pp => oreq_complete pp ri | Sent vw d => oreq_incomplete vw d ri end.
Definition entry (ri : OReq_info) (l : list log_event) : OReq_info := foldl log_step ri l.

(** At most one event in each view, in the order of the views, from [vw] on. *)
Fixpoint ordered (vw : Z) (l : list log_event) : Prop :=
  match l with [] => True | x :: l => vw ≤ ev_view x ∧ ordered (ev_view x + 1) l end.

Definition follows (v0 : Z) (d0 : Dig.Digest) (l : list log_event) : Prop :=
  ∀ x, x ∈ l → v0 ≤ ev_view x → ev_digest x = d0.

Lemma entry_ok_mono v0 d0 vw vw' ri : vw ≤ vw' → entry_ok v0 d0 vw ri → entry_ok v0 d0 vw' ri.
Proof. intros Hle [? ? ? ?]. constructor; (done || lia). Qed.

Lemma history_entry v0 d0 l vw bound ri :
  0 ≤ v0 → 0 ≤ vw → entry_ok v0 d0 vw ri → ordered vw l → Forall (λ x, ev_view x < bound) l → vw ≤ bound → follows v0 d0 l →
  entry_ok v0 d0 bound (foldl log_step ri l) ∧
  (entry_member v0 d0 ri ∨ (∃ pp, Prepared pp ∈ l ∧ v0 ≤ PP.view pp) → entry_member v0 d0 (foldl log_step ri l)).
Proof.
  intros Hv0. revert vw ri. induction l as [|x l IH]; intros vw ri Hvw Hok Ho Hb Hle Hf.
  { split; [by eapply entry_ok_mono|]. intros [?|(pp & Hin & _)]; [done|by apply elem_of_nil in Hin]. }
  destruct Ho as [Hx Ho]. apply Forall_cons in Hb as [Hbx Hb]. cbn [foldl].
  assert (v0 ≤ ev_view x → ev_digest x = d0) as Hd by (apply Hf; left).
  assert (follows v0 d0 l) as Hf' by (intros y Hy; apply Hf; by right).
  assert (entry_ok v0 d0 (ev_view x + 1) (log_step ri x)) as Hok'.
  { destruct x as [pp|vx dx]; cbn in *; [apply complete_entry_ok; [lia|done]|].
    apply incomplete_entry_ok; [done|lia|by eapply entry_ok_mono|done]. }
  assert (ev_view x + 1 ≤ bound) as Hx1 by (cbn in Hbx; lia).
  destruct (IH (ev_view x + 1) (log_step ri x)) as [IH1 IH2]; [lia|done..|]. split; [done|]. intros Hm. apply IH2.
  assert (entry_member v0 d0 ri → entry_member v0 d0 (log_step ri x)) as Hstep.
  { intros Hmem. pose proof Hmem as (_ & _ & Hge). pose proof (eo_views _ _ _ _ Hok).
    destruct x as [pp|vx dx]; cbn in *; [split_and!; cbn; [done|apply Hd; lia|lia]|].
    rewrite Hd by lia. by apply incomplete_member. }
  destruct Hm as [Hm|(pp & [<-|Hin]%elem_of_cons & Hpp)]; [left; by apply Hstep| |right; by exists pp].
  left. split_and!; cbn; [done|by apply Hd|done].
Qed.
End log.

Section report.
Context `{Config} `{World}.
Import NVS.

Lemma lists_report `{!ConfigOk} (s : View_info) m Q i v0 d0 j vw :
  lists (oplog s) (last_stable s + max_out + 1) m → VC.ls m = last_stable s → 0 ≤ last_stable s → last_stable s < i →
  i ≤ last_stable s + max_out → VC.addressable (i - last_stable s - 1) → 0 ≤ v0 →
  (∀ ri, Log.fetch (oplog s) i = Ret ri → entry_ok v0 d0 vw ri ∧ (j ∈ Q → entry_member v0 d0 ri)) →
  report Q i v0 d0 j m.
Proof.
  intros [Hok Hr Hf Hb He Hnull] Hls Hls0 Hlo Hhi Ha Hv0 Hri. rewrite Hls in *.
  assert (VC.in_window m i) as Hw by (unfold VC.in_window; lia).
  destruct (Hf i) as [ri Er]; [lia|]. destruct (Hri ri Er) as [Heo Hmem]. destruct (VC.window_index _ _ Hw) as [_ Hidx].
  rewrite Hls in Hidx. pose proof (VC.proofs_at m i Hok Hw) as Hp. rewrite Hls in Hp. specialize (Hp Ha).
  constructor; [apply Hok| | |].
  - intros (Hs & Hd & Hv)%Hmem. right. destruct (He i ri) as (Hn & Hz & Hbit); [lia|done|lia|].
    split; [unfold VC.max_seqno; lia|]. intros rv rd E. unfold VC.req, VC.last_stable in E.
    rewrite Hls, (proj2 (Z.ltb_lt _ _)) in E by lia. cbn [th_assert mbind outcome_bind] in E.
    rewrite to_int_small, (proj2 (Z.leb_gt _ _)), VC.test_spec, Hbit, Hz in E; try done;
      [by injection E as <- <-|pose proof config_max_out; lia].
  - intros r E Hlv. rewrite Hp in E. destruct (VC.n_reqs m <=? _); [done|].
    destruct (zget (VC.info m) _) as [r'|] eqn:Ez; [|done]. destruct (VC.v r' <? 0); [done|]. injection E as -> Hbit.
    destruct (Hb _ Hidx Hbit) as (ri' & Er' & Hv & Hs & _). replace (last_stable s + 1 + _) with i in Er' by lia.
    assert (ri' = ri) as -> by congruence. destruct (He i ri) as (_ & Hz & _); [lia|done..|].
    assert (r = VC.mkReqInfo (o_lv ri) (o_v ri) (o_d ri)) as -> by congruence. by apply (eo_prepared _ _ _ _ Heo).
  - intros r E. rewrite Hp in E. destruct (VC.n_reqs m <=? _) eqn:En; [done|]. zprop.
    destruct (zget (VC.info m) _) as [r'|] eqn:Ez; [|done]. destruct (VC.v r' <? 0) eqn:Ev; [done|]. zprop.
    injection E as -> Hbit. destruct (decide (o_v ri < 0)) as [Hneg|Hpos].
    { destruct (Hnull i ri) as (r2 & Hz & ?); [lia|done|done|done|]. assert (r2 = r) as -> by congruence. lia. }
    destruct (He i ri) as (_ & Hz & Hs); [lia|done|lia|].
    assert (r = VC.mkReqInfo (o_lv ri) (o_v ri) (o_d ri)) as -> by congruence. apply (eo_sent _ _ _ _ Heo).
    destruct (o_m ri); [|done]. rewrite Hs in Hbit by done. done.
Qed.
End report.

(** C3: the view-change of a correct replica is a report in the sense of [NVS.report].  The
    log's entry for [i] was blank and is the result of the requests that prepared and the pre-prepares
    and prepares that were sent for [i], at most one of them in each view; from view [v0]
    on all of them are for the digest [d0]; and if the replica belongs to the quorum [Q],
    its request prepared in [v0] or later.  Then the view-change that [view_change]
    builds of the log has the request as prepared in [v0] or later when the replica
    belongs to [Q], names no other digest for [v0] or later, and rules out no view from
    [v0] on (for numbers of the window whose bit the shift of an [int] can address). *)
Theorem view_change_reports_history `{Config} `{World} (Hc : ConfigOk) (e : env) (s : View_info) (le : Z)
    (digest : Z → option Dig.Digest) (m : VC.View_change) (Q : gset Z) (i v0 : Z) (d0 : Dig.Digest) (j : Z)
    (ri : OReq_info) (l : list log_event) :
  0 < v s → 0 ≤ last_stable s < i → i ≤ last_stable s + max_out → VC.addressable (i - last_stable s - 1) →
  (∀ n ri, last_stable s < n ≤ last_stable s + max_out → Log.fetch (oplog s) n = Ret ri → 0 ≤ o_v ri → is_Some (o_m ri) →
     VC.addressable (n - last_stable s - 1)) →
  blank ri → Log.fetch (oplog s) i = Ret (entry ri l) → ordered 0 l → Forall (λ x, ev_view x < v s) l →
  0 ≤ v0 → follows v0 d0 l → (j ∈ Q → ∃ pp, Prepared pp ∈ l ∧ v0 ≤ PP.view pp) →
  build_view_change e s le digest = Ret m → NVS.report Q i v0 d0 j m.
Proof.
  intros Hv Hi Hi' Ha Hall Hbl Hl Ho Hb Hv0 Hf HQ E.
  destruct (build_lists e s le digest m) as [Hlist Hls]; [lia|lia|done..|].
  destruct (history_entry v0 d0 l 0 (v s) ri) as [Hok Hmem]; [lia|lia|by apply blank_entry_ok|done|done|lia|done|].
  eapply (lists_report s m Q i v0 d0 j (v s)); [done|done|lia..|done|done|].
  intros x Er. assert (x = entry ri l) as -> by congruence. split; [done|]. intros Hj. apply Hmem. right. by apply HQ.
Qed.

(** *** A concrete log: the request 1 prepared in view 0, and was seen again in view 2 *)
Definition sample_history : list log_event := [Prepared NVS.sample_pp; Sent 2 (NVS.sample_d 2)].

Definition sample_vi : View_info :=
  let s := VI.make (H := SampleNode.config 2) 2 3 in
  VI.set_oplog s (Log.store (oplog s) 1 (entry (new_oreq (H := SampleNode.config 2)) sample_history)).

Definition sample_build : outcome VC.View_change :=
  build_view_change (H := SampleNode.config 2) (H0 := SampleNode.world) NVS.sample_env sample_vi 0 (λ _, Some (NVS.sample_d 1)).
Definition sample_built : VC.View_change := match sample_build with Ret m => m | Err _ => NVS.sample_view_change 0 end.

Lemma sample_build_ok : sample_build = Ret sample_built.
Proof.
  assert (match sample_build with Ret _ => true | Err _ => false end = true) as Hb by (vm_compute; reflexivity).
  unfold sample_built. by destruct sample_build.
Qed.

Lemma view_change_reports_history_witness :
  NVS.report (H := SampleNode.config 2) {[0; 1; 2]} 1 0 (NVS.sample_d 2) 2 sample_built.
Proof.
  refine (view_change_reports_history (H := SampleNode.config 2) (H0 := SampleNode.world) (SampleNode.config_ok 2 _)
    NVS.sample_env sample_vi 0 (λ _, Some (NVS.sample_d 1)) sample_built {[0; 1; 2]} 1 0 (NVS.sample_d 2) 2
    (new_oreq (H := SampleNode.config 2)) sample_history _ _ _ _ _ _ _ _ _ _ _ _ sample_build_ok).
  - lia.
  - done.
  - done.
  - done.
  - done.
  - intros n ri Hn _ _ _. change (last_stable sample_vi) with 0 in *. change (@max_out (SampleNode.config 2)) with 8 in Hn.
    unfold VC.addressable. rewrite Z.rem_small; lia.
  - done.
  - reflexivity.
  - repeat split; cbn; lia.
  - repeat constructor.
  - done.
  - intros x Hx _. apply elem_of_cons in Hx as [->|[->|Hx%elem_of_nil]%elem_of_cons]; done.
  - intros _. exists NVS.sample_pp. split; [left|done].
Defined.
End VL.
