(* ===== verification/ReplicaState.v ===== *)
(** * ReplicaState: the fields of a replica and the interfaces of its parts
    (src/src/Replica.h, constructor in src/src/Replica.cc)

    [Parts] are the components that the replica owns
    but does not look into: the state manager (State.h), the view information
    (View_info.h) and the checkpoint log, which is one of two classes depending on
    ALTERNATIVE_CHECKPOINT_LOG and is used through the interface [WindowLog].  The
    other components are those of the earlier files.  The model is that of the default
    build (no STATIC_LOG_ALLOCATOR; State_defs.h defines NO_STATE_TRANSLATION).

    What the replica does to the outside is appended to the field [out]: messages, timer
    operations and upcalls, in order. *)
From S2P Require Import Prelude Node SeqLog Certificate Messages PreparedCert ReqQueue Support RepInfo.
From S2P Require Import PrePrepare Status NewKey StableEstimator ViewChange StateMonad World NewView.
Import Auth.

#[export] Instance pre_prepare_msg : PrePrepareMsg PP.Pre_prepare :=
  { pp_view := PP.view; pp_seqno := PP.seqno; pp_digest := PP.digest }.

Class Parts := {
  (* messages of the view-change and state-transfer protocols *)
  other_msg : Type;
  (* State: the service state, its checkpoints and their transfer; the replies of
     [Rep_info] are in the memory that it manages *)
  ss : Type;
  in_fetch_state : ss → bool;
  in_check_state : ss → bool;
  st_checkpoint : ss → RI.Rep_info → Z → outcome ss;
  st_digest : ss → Z → Dig.Digest;
  st_rollback : ss → RI.Rep_info → outcome (ss * RI.Rep_info * Z);
  st_start_fetch : ss → RI.Rep_info → Z → Z → option Dig.Digest → bool → outcome (ss * list (other_msg * Z));
  st_discard_checkpoint : ss → Z → Z → outcome ss;
  st_mark_stale : ss → ss;
  st_retrans_fetch : ss → Z → bool;
  st_send_fetch : ss → bool → outcome (ss * list (other_msg * Z));
  st_enforce_bound : ss → Z → Z → bool → outcome (ss * bool);
  st_start_check : ss → RI.Rep_info → Z → outcome (ss * list (other_msg * Z));
  (* the upcall exec_command: command, choices, client, read-only *)
  st_exec : ss → list Z → option (list Z) → Z → bool → ss * list Z * Z;
  (* View_info; the first argument is Node::primary(View), or keys, primary and clock *)
  vinfo : Type;
  vi_has_new_view : (Z → Z) → vinfo → Z → bool;
  vi_add_missing_pp : env → vinfo → PP.Pre_prepare → outcome (vinfo * list (vi_effect other_msg));
  vi_add_missing_p : env → vinfo → Prepare → outcome (vinfo * list (vi_effect other_msg));
  vi_mark_stable : env → vinfo → Z → outcome (vinfo * list (vi_effect other_msg));
  vi_add_complete : vinfo → PP.Pre_prepare → outcome vinfo;
  vi_add_incomplete : vinfo → Z → Dig.Digest → outcome vinfo;
  vi_view_change : env → vinfo → ss → Z → Z → outcome (vinfo * list (vi_effect other_msg));
  vi_add_vc : env → vinfo → VC.View_change → outcome (vinfo * bool * list (vi_effect other_msg));
  vi_add_nv : env → vinfo → NV.New_view → outcome (vinfo * list (vi_effect other_msg));
  vi_add_vca : env → vinfo → View_change_ack → outcome (vinfo * list (vi_effect other_msg));
  vi_fetch_request : env → vinfo → Z → outcome (vinfo * option PP.Pre_prepare * Dig.Digest);
  vi_my_new_view : vinfo → option other_msg;
  vi_max_view : vinfo → outcome Z;
  vi_max_maj_view : vinfo → outcome Z;
  vi_clear : vinfo → outcome vinfo;
  vi_mark_stale : env → vinfo → outcome vinfo;
  vi_enforce_bound : vinfo → Z → Z → bool → outcome (vinfo * bool);
  (* what a status says, and what is sent again; these change the authenticators of the
     stored messages and the times at which they were sent *)
  vi_has_nv_message : env → vinfo → Z → bool;
  vi_received_vcs : env → vinfo → Z → outcome (vinfo * list Z);
  vi_missing_pps : env → vinfo → Z → outcome (vinfo * list (Z * Z * bool));
  vi_my_vc_ack : vinfo → Z → outcome bool;
  vi_resend_view_change : env → vinfo → Z → outcome (vinfo * option other_msg);
  vi_resend_new_view : env → vinfo → Z → outcome (vinfo * option other_msg);
  vi_resend_ack : env → vinfo → Principal → Z → outcome (vinfo * option other_msg);
  vi_resend_pre_prepare : env → vinfo → Z → Z → outcome (vinfo * option PP.Pre_prepare);
  vi_send_proofs : env → vinfo → Z → Z → Z → outcome (vinfo * list (other_msg * Z));
  (* the checkpoint log *)
  elog_t : Type;
  elog_log :: WindowLog (Cert.Certificate Checkpoint) elog_t;
  elog_within_range : elog_t → Z → bool;
  elog_clear : elog_t → Z → outcome elog_t;
  elog_max_seqno : elog_t → Z;
}.

Inductive timer_id := Vtimer | Ntimer | Stimer | Atimer.
Inductive timer_cmd := TStart | TStop | TRestart | TRestop.

Module Rep.
Export NodeSt.

Section state.
Context `{Config} `{World} `{Parts}.

Inductive effect :=
| ESendPp (m : PP.Pre_prepare) (dst : Z)
| ESendPrepare (m : Prepare) (dst : Z)
| ESendCommit (m : Commit) (dst : Z)
| ESendCheckpoint (m : Checkpoint) (dst : Z)
| ESendReply (m : Reply) (dst : Z)
| ESendRequest (m : Req.Request) (dst : Z)
| ESendOther (m : other_msg) (dst : Z)
| ESendStatus (m : Stat.Status) (dst : Z)
| ESendNewKey (m : NK.New_key) (dst : Z)
| ESendQuery (m : SE.Query_stable) (dst : Z)
| ESendReplyStable (m : SE.Reply_stable) (dst : Z)
| ETimer (t : timer_id) (c : timer_cmd)
| EExec (n cid rid : Z) (ro : bool)          (* exec_command for this request of batch [n] *)
| ECallback (r : Reply)                      (* reply_callback *)
| EJoin | ELeave.                            (* join_mcast_group(), leave_mcast_group() *)

(** *** The fields, in five groups *)
Record Counters := mkCounters {
  seqno : Z; last_stable : Z; low_bound : Z;
  last_prepared : Z; last_executed : Z; last_tentative_execute : Z; max_rec_n : Z;
}.

Record Views := mkViews { v : Z; cur_primary : Z; limbo : bool; has_nv_state : bool }.

Record Recovery := mkRecovery {
  recovering : bool; vc_recovering : bool; corrupt : bool; recovery_point : Z;
  rr : option Req.Request; rr_reps : Cert.Certificate Reply; rr_views : list Z;
  qs : option SE.Query_stable; se : SE.Stable_estimator;
}.

Record Stores := mkStores {
  rqueue : @RQ.Req_queue Req.Request; ro_rqueue : @RQ.Req_queue Req.Request;
  plog : Log.t (PCert.Prepared_cert PP.Pre_prepare); clog : Log.t (Cert.Certificate Commit);
  elog : elog_t; sset : ZSet.t (T := Checkpoint); replies : RI.Rep_info;
}.

Record Replica := mkReplica {
  cn : Counters; vw : Views; rc : Recovery; st : Stores;
  state : ss; vi : vinfo; nd : NodeState;
  out : list effect;
}.

(** The state that the constructor builds around its parts. *)
Definition make (max_seq : Z) (s : ss) (w : vinfo) (e : elog_t) (ri : RI.Rep_info)
    (keys : list Principal) (rid : Z) : Replica := mkReplica
  (mkCounters 0 0 0 0 0 0 0) (mkViews 0 0 false true)
  (mkRecovery false false false max_seq None (Cert.make 0) (replicate (Z.to_nat num_replicas) 0) None SE.make)
  (mkStores RQ.make RQ.make (Log.make max_out 1 PCert.make) (Log.make max_out 1 (Cert.make 0)) e
     (ZSet.make num_replicas) ri)
  s w (mkNode keys None rid 0 0 0 0) [].

(** *** Assignments *)
Definition set_cn (r : Replica) (c : Counters) : Replica :=
  mkReplica c (vw r) (rc r) (st r) (state r) (vi r) (nd r) (out r).
Definition set_vw (r : Replica) (x : Views) : Replica :=
  mkReplica (cn r) x (rc r) (st r) (state r) (vi r) (nd r) (out r).
Definition set_rc (r : Replica) (x : Recovery) : Replica :=
  mkReplica (cn r) (vw r) x (st r) (state r) (vi r) (nd r) (out r).
Definition set_st (r : Replica) (x : Stores) : Replica :=
  mkReplica (cn r) (vw r) (rc r) x (state r) (vi r) (nd r) (out r).
Definition set_state (r : Replica) (x : ss) : Replica :=
  mkReplica (cn r) (vw r) (rc r) (st r) x (vi r) (nd r) (out r).
Definition set_vi (r : Replica) (x : vinfo) : Replica :=
  mkReplica (cn r) (vw r) (rc r) (st r) (state r) x (nd r) (out r).
Definition set_nd (r : Replica) (x : NodeState) : Replica :=
  mkReplica (cn r) (vw r) (rc r) (st r) (state r) (vi r) x (out r).
Definition add_out (e : effect) (r : Replica) : Replica :=
  mkReplica (cn r) (vw r) (rc r) (st r) (state r) (vi r) (nd r) (out r ++ [e]).

Definition set_seqno (x : Z) (c : Counters) : Counters :=
  mkCounters x (last_stable c) (low_bound c) (last_prepared c) (last_executed c) (last_tentative_execute c) (max_rec_n c).
Definition set_last_stable (x : Z) (c : Counters) : Counters :=
  mkCounters (seqno c) x (low_bound c) (last_prepared c) (last_executed c) (last_tentative_execute c) (max_rec_n c).
Definition set_low_bound (x : Z) (c : Counters) : Counters :=
  mkCounters (seqno c) (last_stable c) x (last_prepared c) (last_executed c) (last_tentative_execute c) (max_rec_n c).
Definition set_last_prepared (x : Z) (c : Counters) : Counters :=
  mkCounters (seqno c) (last_stable c) (low_bound c) x (last_executed c) (last_tentative_execute c) (max_rec_n c).
Definition set_last_executed (x : Z) (c : Counters) : Counters :=
  mkCounters (seqno c) (last_stable c) (low_bound c) (last_prepared c) x (last_tentative_execute c) (max_rec_n c).
Definition set_tentative (x : Z) (c : Counters) : Counters :=
  mkCounters (seqno c) (last_stable c) (low_bound c) (last_prepared c) (last_executed c) x (max_rec_n c).
Definition set_max_rec_n (x : Z) (c : Counters) : Counters :=
  mkCounters (seqno c) (last_stable c) (low_bound c) (last_prepared c) (last_executed c) (last_tentative_execute c) x.

Definition set_rqueue (x : RQ.Req_queue) (s : Stores) : Stores :=
  mkStores x (ro_rqueue s) (plog s) (clog s) (elog s) (sset s) (replies s).
Definition set_ro_rqueue (x : RQ.Req_queue) (s : Stores) : Stores :=
  mkStores (rqueue s) x (plog s) (clog s) (elog s) (sset s) (replies s).
Definition set_plog (x : Log.t (PCert.Prepared_cert PP.Pre_prepare)) (s : Stores) : Stores :=
  mkStores (rqueue s) (ro_rqueue s) x (clog s) (elog s) (sset s) (replies s).
Definition set_clog (x : Log.t (Cert.Certificate Commit)) (s : Stores) : Stores :=
  mkStores (rqueue s) (ro_rqueue s) (plog s) x (elog s) (sset s) (replies s).
Definition set_elog (x : elog_t) (s : Stores) : Stores :=
  mkStores (rqueue s) (ro_rqueue s) (plog s) (clog s) x (sset s) (replies s).
Definition set_sset (x : ZSet.t (T := Checkpoint)) (s : Stores) : Stores :=
  mkStores (rqueue s) (ro_rqueue s) (plog s) (clog s) (elog s) x (replies s).
Definition set_replies (x : RI.Rep_info) (s : Stores) : Stores :=
  mkStores (rqueue s) (ro_rqueue s) (plog s) (clog s) (elog s) (sset s) x.

Definition M (A : Type) : Type := ST Replica A.

(** [this->x = e] for a counter, a store, ... *)
Definition count_to (f : Counters → Counters) : ST Replica unit := modify (λ r, set_cn r (f (cn r))).
Definition store_to (f : Stores → Stores) : ST Replica unit := modify (λ r, set_st r (f (st r))).
Definition state_to (x : ss) : ST Replica unit := modify (λ r, set_state r x).
Definition vi_to (x : vinfo) : ST Replica unit := modify (λ r, set_vi r x).
Definition view_to (f : Views → Views) : ST Replica unit := modify (λ r, set_vw r (f (vw r))).
Definition recovery_to (f : Recovery → Recovery) : ST Replica unit := modify (λ r, set_rc r (f (rc r))).
Definition emit (e : effect) : ST Replica unit := modify (add_out e).

(** [Node::send] to a destination that a received message names. *)
Definition send_to (dst : Z) (e : effect) : ST Replica unit :=
  _ ← assert_ ((dst =? -1) || ((0 <=? dst) && (dst <? num_principals))); emit e.

Definition All_replicas : Z := -1.

Definition node_to (f : NodeState → NodeState) : ST Replica unit := modify (λ r, set_nd r (f (nd r))).

(** [currentTime()] *)
Definition currentTime : ST Replica Z :=
  t ← gets (λ r, ticks (nd r)); _ ← node_to bump_ticks; mret (w_time t).

(** *** Node *)

(** [Node::primary(View)] of this node. *)
Definition prim (r : Replica) (x : Z) : Z := primary (v (vw r)) (cur_primary (vw r)) x.
Definition is_primary (r : Replica) : bool := cur_primary (vw r) =? node_id.
Definition principals_now (r : Replica) : list Principal := ps (nd r).
Definition keys_of (r : Replica) : keys := mkKeys (principals_now r) (prim r).

(** What the view information sees of the node; it reads the clock at most once. *)
Definition env_of (r : Replica) : env := mkEnv (keys_of r) (w_time (ticks (nd r))).

(** A verification that runs to its end; the buffers of received messages are as long as
    their headers say, so that none stops in a read behind the end ([prepare_verdict] and
    its companions below). *)
Definition verdict (o : outcome bool) : bool := match o with Ret b => b | Err _ => false end.

Definition v_prepare (r : Replica) (m : Prepare) : bool :=
  verdict (prepare_verify w_hmac_md w_char_signed (keys_of r) m).
Definition v_commit (r : Replica) (m : Commit) : bool :=
  verdict (commit_verify w_hmac_md w_char_signed (keys_of r) m).
Definition v_checkpoint (r : Replica) (m : Checkpoint) : bool :=
  verdict (checkpoint_verify w_hmac_md w_char_signed (keys_of r) m).
Definition v_reply (r : Replica) (m : Reply) : bool :=
  verdict (reply_verify w_hmac_md w_char_signed w_digest_of (keys_of r) m).
Definition v_pp (r : Replica) (mode : Z) (m : PP.Pre_prepare) : bool :=
  verdict (PP.verify w_hmac_md w_char_signed w_digest_of w_sig_size w_pk_verify (principals_now r) (prim r)
             (PP.has_req (rqueue (st r))) mode m).
Definition v_vc (r : Replica) (m : VC.View_change) : bool :=
  verdict (VC.verify w_hmac_md w_char_signed w_digest_of (keys_of r) m).

Definition has_new_view (r : Replica) : bool :=
  (v (vw r) =? 0) || (has_nv_state (vw r) && vi_has_new_view (prim r) (vi r) (v (vw r))).

(** [Replica::delay_vc] *)
Definition delay_vc (r : Replica) : bool := in_check_state (state r) || in_fetch_state (state r).

(** *** The logs

    [log.fetch(n).method(...)]: the method runs on the entry in place. *)
#[local] Abbreviation PCertificate := (PCert.Prepared_cert PP.Pre_prepare).

Definition plog_fetch (n : Z) : ST Replica PCertificate := r ← get; lift (Log.fetch (plog (st r)) n).
Definition clog_fetch (n : Z) : ST Replica (Cert.Certificate Commit) := r ← get; lift (Log.fetch (clog (st r)) n).
Definition elog_fetch (n : Z) : ST Replica (Cert.Certificate Checkpoint) := r ← get; lift (wl_fetch (elog (st r)) n).

Definition plog_store (n : Z) (x : PCertificate) : ST Replica unit :=
  store_to (λ s, set_plog (Log.store (plog s) n x) s).
Definition clog_store (n : Z) (x : Cert.Certificate Commit) : ST Replica unit :=
  store_to (λ s, set_clog (Log.store (clog s) n x) s).
Definition elog_store (n : Z) (x : Cert.Certificate Checkpoint) : ST Replica unit :=
  store_to (λ s, set_elog (wl_store (elog s) n x) s).

Definition with_plog {A} (n : Z) (f : PCertificate → outcome (A * PCertificate)) : ST Replica A :=
  x ← plog_fetch n; '(a, x) ← lift (f x); _ ← plog_store n x; mret a.
Definition with_clog {A} (n : Z) (f : Cert.Certificate Commit → outcome (A * Cert.Certificate Commit)) : ST Replica A :=
  x ← clog_fetch n; '(a, x) ← lift (f x); _ ← clog_store n x; mret a.
Definition with_elog {A} (n : Z) (f : Cert.Certificate Checkpoint → outcome (A * Cert.Certificate Checkpoint))
    : ST Replica A :=
  x ← elog_fetch n; '(a, x) ← lift (f x); _ ← elog_store n x; mret a.

Definition with_rqueue {A} (f : @RQ.Req_queue Req.Request → outcome (RQ.Req_queue * A)) : ST Replica A :=
  r ← get; '(q, a) ← lift (f (rqueue (st r))); _ ← store_to (set_rqueue q); mret a.
Definition with_ro_rqueue {A} (f : @RQ.Req_queue Req.Request → outcome (RQ.Req_queue * A)) : ST Replica A :=
  r ← get; '(q, a) ← lift (f (ro_rqueue (st r))); _ ← store_to (set_ro_rqueue q); mret a.
Definition with_sset {A} (f : ZSet.t (T := Checkpoint) → outcome (ZSet.t (T := Checkpoint) * A)) : ST Replica A :=
  r ← get; '(s, a) ← lift (f (sset (st r))); _ ← store_to (set_sset s); mret a.

(** For methods without a result. *)
Definition quietly {T} (f : T → outcome T) (x : T) : outcome (unit * T) := x ← f x; Ret (tt, x).

(** Replica::send_new_key: after the keys of the senders have changed, the incomplete
    certificates drop what the old keys authenticated.  The bounds of the loops are
    [int]s. *)
Definition stale_elog (n : Z) : ST Replica unit :=
  when (Z.rem n checkpoint_interval =? 0) (with_elog n (quietly Cert.mark_stale)).

Definition stale_logs (n : Z) : ST Replica unit :=
  r ← get;
  _ ← with_plog n (quietly (PCert.mark_stale (cur_primary (vw r))));
  with_clog n (quietly Cert.mark_stale).

(** [Node::send_new_key]: the New_key message holds new in-keys for the other replicas. *)
Definition new_key_storage : list Z := replicate (Z.to_nat NK.room) 0.

Definition node_send_new_key : ST Replica unit :=
  r ← get;
  rid ← lift (NK.new_rid (w_secs (ticks (nd r))) (cur_rid (nd r)));
  now ← currentTime;
  '(p, d, m) ← lift (NK.refresh_keys w_rand new_key_storage (ps (nd r)) (draws (nd r)) rid now);
  _ ← node_to (λ n, mkNode p (Some m) rid d (nonces n) (ticks n) (last_status n));
  _ ← emit (ESendNewKey m All_replicas);
  _ ← emit (ETimer Atimer TStop);
  emit (ETimer Atimer TRestart).

Definition send_new_key : ST Replica unit :=
  _ ← node_send_new_key;
  r ← get;
  let max := to_int (last_stable (cn r) + max_out) in
  let min := to_int (last_stable (cn r) + 1) in
  _ ← for_each (seqZ min (max - min + 1)) stale_elog;
  let min := if last_stable (cn r) <? last_executed (cn r) then to_int (last_executed (cn r) + 1) else min in
  _ ← for_each (seqZ min (max - min + 1)) stale_logs;
  r ← get;
  w ← lift (vi_mark_stale (env_of r) (vi r)); _ ← vi_to w;
  modify (λ r, set_state r (st_mark_stale (state r))).

Definition pcert_clear : PCertificate → PCertificate := PCert.clear.
Definition ccert_clear : Cert.Certificate Commit → Cert.Certificate Commit := Cert.clear.
End state.

(** ** The verdicts are those of the verifications

    At a replica that knows all principals, the verification of a message whose buffer is
    not shorter than its header says returns. *)
Section verdicts.
Context `{Config} `{World} `{Parts} (r : Replica).
Hypothesis own_id : 0 ≤ node_id < num_replicas.
Hypothesis known : num_principals ≤ zlen (principals_now r).

Lemma known_principal i : is_replica i = true → num_replicas ≤ num_principals →
  ∃ p, i_to_p (principals_now r) i = Some p.
Proof.
  unfold is_replica, i_to_p. intros Hi Hn. zprop. rewrite (proj2 (Z.ltb_ge i 0)), (proj2 (Z.leb_gt num_principals i)) by lia.
  apply zget_lookup. lia.
Qed.

Lemma verify_authenticator_returns id size rs rep auth : is_replica id = true → size - rs ≤ zlen auth →
  ∃ b, verify_authenticator w_hmac_md w_char_signed (keys_of r) id size rs rep auth = Ret b.
Proof.
  unfold is_replica, verify_authenticator. intros Hi Hl. zprop. destruct (_ <? auth_size id) eqn:Hs; [by eexists|]. zprop.
  unfold verify_auth. rewrite (proj2 (Z.ltb_lt node_id num_replicas)) by lia. cbn.
  destruct (i_to_p _ _) as [p|]; [|by eexists]. case_decide as Hne; [by eexists|].
  assert (zlen (take (Z.to_nat HMAC_size) (drop (Z.to_nat (auth_offset id)) auth)) = HMAC_size) as ->; [|by rewrite andb_false_r; eexists].
  unfold auth_size in Hs. rewrite (proj2 (Z.ltb_ge id 0)), (proj2 (Z.ltb_lt id num_replicas)) in Hs by lia.
  unfold zlen in *. rewrite length_take, length_drop. unfold auth_offset, HMAC_size in *.
  rewrite Z.gtb_ltb. destruct (Z.ltb_spec id node_id); lia.
Qed.

Lemma prepare_verdict m : num_replicas ≤ num_principals → p_size m - sizeof_Prepare_rep ≤ zlen (p_auth m) →
  prepare_verify w_hmac_md w_char_signed (keys_of r) m = Ret (v_prepare r m).
Proof.
  intros Hn Hl. unfold v_prepare. enough (∃ b, prepare_verify w_hmac_md w_char_signed (keys_of r) m = Ret b) as [b ->] by done.
  unfold prepare_verify. destruct (is_replica (p_id m)) eqn:Hi; cbn [negb orb]; [|by eexists].
  destruct (p_id m =? node_id); [by eexists|]. destruct (p_extra m =? 0).
  - destruct (_ =? _); [by eexists|]. by apply verify_authenticator_returns.
  - unfold verify_point_mac. destruct (_ <? _); [by eexists|].
    destruct (known_principal _ Hi Hn) as [p Hp]. cbn [principals keys_of]. rewrite Hp. by eexists.
Qed.

Lemma commit_verdict m : c_size m - sizeof_Commit_rep ≤ zlen (c_auth m) →
  commit_verify w_hmac_md w_char_signed (keys_of r) m = Ret (v_commit r m).
Proof.
  intros Hl. unfold v_commit. enough (∃ b, commit_verify w_hmac_md w_char_signed (keys_of r) m = Ret b) as [b ->] by done.
  unfold commit_verify. destruct (is_replica (c_id m)) eqn:Hi; cbn [negb orb]; [|by eexists].
  destruct (c_id m =? node_id); [by eexists|]. by apply verify_authenticator_returns.
Qed.

Lemma checkpoint_verdict m : k_size m - sizeof_Checkpoint_rep ≤ zlen (k_auth m) →
  checkpoint_verify w_hmac_md w_char_signed (keys_of r) m = Ret (v_checkpoint r m).
Proof.
  intros Hl. unfold v_checkpoint. enough (∃ b, checkpoint_verify w_hmac_md w_char_signed (keys_of r) m = Ret b) as [b ->] by done.
  unfold checkpoint_verify. destruct (is_replica (k_id m)) eqn:Hi; cbn [negb]; [|by eexists].
  by apply verify_authenticator_returns.
Qed.

Lemma reply_verdict m : num_replicas ≤ num_principals →
  reply_verify w_hmac_md w_char_signed w_digest_of (keys_of r) m = Ret (v_reply r m).
Proof.
  intros Hn. unfold v_reply.
  enough (∃ b, reply_verify w_hmac_md w_char_signed w_digest_of (keys_of r) m = Ret b) as [b ->] by done.
  unfold reply_verify. destruct (is_replica (r_replica m)) eqn:Hi; cbn [negb]; [|by eexists].
  destruct (_ <? _); [by eexists|]. destruct (_ && _); [by eexists|].
  destruct (known_principal _ Hi Hn) as [p Hp]. cbn [principals keys_of]. rewrite Hp. by eexists.
Qed.
End verdicts.
End Rep.
