(* ===== verification/ViewParts.v ===== *)
(** * ViewParts: the view information as a part of the replica

    [Parts] (ReplicaState.v) states what the replica uses of the objects it owns; here the
    View_info of ViewInfo.v takes the place of the abstract one, over the other parts.
    The effects of its methods follow them; [mark_stale] decides nothing as long as one
    view-change is not a quorum, so it has none. *)
From S2P Require Import Prelude Node SeqLog Certificate Messages PreparedCert ReqQueue Support RepInfo.
From S2P Require Import PrePrepare ViewChange StateMonad World NewView NVInfo ViewInfo ReplicaState.
Import Auth.

Module VP.
Section parts.
Context `{Config} `{World} (p : Parts).

Definition msg : Type := (vi_msg + @other_msg p)%type.

Definition tell (x : vi_effect vi_msg) : vi_effect msg :=
  match x with VSend m dst => VSend (inl m) dst | VStatus => VStatus | VNewView min d max ms => VNewView min d max ms end.

(** A method on the object alone. *)
Definition run {A} (m : ST VI.St A) (w : VI.View_info) : outcome (VI.View_info * A * list (vi_effect msg)) :=
  '(a, s) ← m (VI.mkSt w []); Ret (VI.me s, a, tell <$> VI.fx s).

Definition run_unit (m : ST VI.St unit) (w : VI.View_info) : outcome (VI.View_info * list (vi_effect msg)) :=
  '(w, _, l) ← run m w; Ret (w, l).

Definition run_quiet (m : ST VI.St unit) (w : VI.View_info) : outcome VI.View_info := '(w, _, _) ← run m w; Ret w.

(** [State::digest] of a checkpoint that the state manager has. *)
Definition known_digest (s : @ss p) (n : Z) : option Dig.Digest :=
  let d := @st_digest p s n in if Dig.is_zero d then None else Some d.

Definition fetch (e : env) (w : VI.View_info) (n : Z) : outcome (VI.View_info * option PP.Pre_prepare * Dig.Digest) :=
  '(w, a, _) ← run (VI.fetch_request e n) w; Ret (w, Some a.1, a.2).

Definition start_fetch (s : @ss p) (ri : RI.Rep_info) (le c : Z) (d : option Dig.Digest) (stable : bool)
    : outcome (@ss p * list (msg * Z)) :=
  match @st_start_fetch p s ri le c d stable with
  | Ret (s, l) => Ret (s, (λ x : @other_msg p * Z, (inr x.1 : msg, x.2)) <$> l)
  | Err x => Err x
  end.

(** The messages among the effects of an observer, which has no others. *)
Definition sent (l : list (vi_effect msg)) : list (msg * Z) :=
  omap (λ x, match x with VSend m dst => Some (m, dst) | _ => None end) l.

Definition observe {A} (m : ST VI.St A) (w : VI.View_info) : outcome (VI.View_info * A) :=
  '(w, a, _) ← run m w; Ret (w, a).

(** A message to send again. *)
Definition resend {A} (tag : A → vi_msg) (m : ST VI.St (option A)) (w : VI.View_info) : outcome (VI.View_info * option msg) :=
  '(w, o) ← observe m w; Ret (w, match o with Some a => Some (inl (tag a)) | None => None end).

Definition start_check (s : @ss p) (ri : RI.Rep_info) (le : Z) : outcome (@ss p * list (msg * Z)) :=
  match @st_start_check p s ri le with
  | Ret (s, l) => Ret (s, (λ x : @other_msg p * Z, (inr x.1 : msg, x.2)) <$> l)
  | Err x => Err x
  end.

Definition send_fetch (s : @ss p) (b : bool) : outcome (@ss p * list (msg * Z)) :=
  match @st_send_fetch p s b with
  | Ret (s, l) => Ret (s, (λ x : @other_msg p * Z, (inr x.1 : msg, x.2)) <$> l)
  | Err x => Err x
  end.

Definition with_view_info : Parts := {|
  other_msg := msg;
  ss := @ss p;
  in_fetch_state := @in_fetch_state p;
  in_check_state := @in_check_state p;
  st_checkpoint := @st_checkpoint p;
  st_digest := @st_digest p;
  st_rollback := @st_rollback p;
  st_start_fetch := start_fetch;
  st_discard_checkpoint := @st_discard_checkpoint p;
  st_mark_stale := @st_mark_stale p;
  st_retrans_fetch := @st_retrans_fetch p;
  st_send_fetch := send_fetch;
  st_enforce_bound := @st_enforce_bound p;
  st_start_check := start_check;
  st_exec := @st_exec p;
  vinfo := VI.View_info;
  vi_has_new_view := VI.has_new_view;
  vi_add_missing_pp := λ e w m, run_unit (VI.add_missing_pp e m) w;
  vi_add_missing_p := λ e w m, run_unit (VI.add_missing_p e m) w;
  vi_mark_stable := λ e w n, run_unit (VI.mark_stable e n) w;
  vi_add_complete := λ w m, run_quiet (VI.add_complete m) w;
  vi_add_incomplete := λ w n d, run_quiet (VI.add_incomplete n d) w;
  vi_view_change := λ e w s v le, run_unit (VI.view_change e v le (known_digest s)) w;
  vi_add_vc := λ e w m, run (VI.add_vc e m) w;
  vi_add_nv := λ e w m, run_unit (VI.add_nv e m) w;
  vi_add_vca := λ e w m, run_unit (VI.add_vca e m) w;
  vi_fetch_request := fetch;
  vi_my_new_view := λ w, (λ m, inl (MNv m)) <$> VI.my_new_view w;
  vi_max_view := VI.max_view;
  vi_max_maj_view := VI.max_maj_view;
  vi_clear := λ w, run_quiet VI.clear w;
  vi_mark_stale := λ e w, run_quiet (VI.mark_stale e) w;
  vi_enforce_bound := λ w b ks corrupt, observe (VI.enforce_bound b ks corrupt) w;
  vi_has_nv_message := VI.has_nv_message;
  vi_received_vcs := λ e w vw, observe (VI.received_vcs e vw) w;
  vi_missing_pps := λ e w vw, observe (VI.missing_pps e vw) w;
  vi_my_vc_ack := λ w i, o ← VI.my_vc_ack w i; Ret (bool_decide (is_Some o));
  vi_resend_view_change := λ e w now, resend MVc (VI.resend_view_change e now) w;
  vi_resend_new_view := λ e w now, resend MNv (VI.resend_new_view e now) w;
  vi_resend_ack := λ e w q i, resend MAck (VI.resend_ack q i) w;
  vi_resend_pre_prepare := λ e w n vw, observe (VI.resend_pre_prepare e n vw) w;
  vi_send_proofs := λ e w n vw dst, '(w, _, l) ← run (VI.send_proofs e n vw dst) w; Ret (w, sent l);
  elog_t := @elog_t p;
  elog_log := @elog_log p;
  elog_within_range := @elog_within_range p;
  elog_clear := @elog_clear p;
  elog_max_seqno := @elog_max_seqno p;
|}.
End parts.
End VP.
