(* ===== verification/ViewInv.v ===== *)
(** * ViewInv: the pre-prepares of a new view carry the numbers under which they are fetched

    [NV_info] keeps the pre-prepares of a new view in rows, whose indices are [int]s.  The
    invariant [nv_ok] says that the pre-prepares of a row have its number, up to multiples
    of 2^32, and that the rows are laid out once per view; every method of NV_info and of
    View_info keeps it.  The class [ViewLaws] states what the replica relies on; at the end
    the view information of ViewParts.v implements it. *)
From S2P Require Import Prelude Node Bitmap KMax Certificate Messages ReqQueue PrePrepare ViewChange StateMonad World.
From S2P Require Import NewView NVInfo SeqLog ViewInfo ReplicaState ViewParts.
Import Auth.

(** The same number, to a program that computes with 32 bits. *)
Definition same_number (a b : Z) : Prop := a `mod` 2 ^ 32 = b `mod` 2 ^ 32.

Lemma same_number_eq a b : a = b → same_number a b.
Proof. by intros ->. Qed.

Lemma row_number b i : same_number (b + to_int (i - b)) i.
Proof.
  unfold same_number, to_int, wrapS. rewrite <- (Z.add_mod_idemp_r b) by done.
  rewrite <- (Zminus_mod_idemp_l _ (2 ^ (32 - 1))), Zmod_mod, Zminus_mod_idemp_l, Z.add_mod_idemp_r by done.
  f_equal. lia.
Qed.

Lemma re_authenticate_seqno `{Config} `{World} ps m m' : PP.re_authenticate w_hmac_md ps m = Ret m' → PP.seqno m' = PP.seqno m.
Proof.
  unfold PP.re_authenticate. intros E. apply outcome_bind_Ret in E as (o & _ & E).
  apply outcome_bind_Ret in E as (a & _ & E). destruct (_ <? _); [done|]. by injection E as <-.
Qed.

Lemma fill_seqno `{Config} md dig nd mx fuel ps msz vw n q pp q' :
  PP.fill md dig nd mx fuel ps msz vw n q = Ret (pp, q') → PP.seqno pp = n.
Proof.
  unfold PP.fill. intros E. apply outcome_bind_Ret in E as ([[[q1 nx] b] ds] & Et & E). by invert_outcome.
Qed.

Lemma elem_of_zset {A} (l : list A) i x y : y ∈ zset l i x → y = x ∨ y ∈ l.
Proof.
  unfold zset. case_decide; [|auto]. intros (k & Hk)%list_elem_of_lookup.
  destruct (decide (k = Z.to_nat i)) as [->|].
  - destruct (decide (Z.to_nat i < length l)%nat) as [Hl|Hl].
    + rewrite list_lookup_insert_eq in Hk by done. injection Hk as ->. auto.
    + rewrite list_insert_ge in Hk by lia. right. by eapply list_elem_of_lookup_2.
  - rewrite list_lookup_insert_ne in Hk by done. right. by eapply list_elem_of_lookup_2.
Qed.

(** ** NV_info *)
Module NVOk.
Import NVI.
Section nv_ok.
Context `{Config} `{World} {msg : Type}.

#[local] Abbreviation St := (St (msg := msg)).

Definition primary_here (x : Z) : bool := Z.rem x num_replicas =? node_id.

Definition pi_ok (i : Z) (x : Req_sum) : Prop := ∀ m, r_pi x = Some m → same_number (PP.seqno m) i.
Definition rows_ok (b : Z) (l : list (list Req_sum)) : Prop :=
  ∀ k row, zget l k = Some row → Forall (pi_ok (b + k)) row.

Record nv_ok (s : NV_info) : Prop := {
  n_view : 0 ≤ v s;
  n_fresh : v s = 0 → nv s = None ∧ chosen_ckpt s < 0;
  n_open : chosen_ckpt s < 0 → reqs s = [];
  n_backup : primary_here (v s) = false → 0 ≤ chosen_ckpt s → vc_target s ≤ vc_cur s;
  n_rows : rows_ok (base s) (reqs s);
}.

Definition I (s : St) : Prop := nv_ok (me s).
(** In the view [w]: there is a new-view message. *)
Definition J (w : Z) (s : St) : Prop := nv_ok (me s) ∧ v (me s) = w ∧ w ≠ 0.

(** What is decided in the view [e] and where the replica is its primary. *)
Context (parent_pp : Z → Dig.Digest → outcome (option PP.Pre_prepare)) (parent_prepare : Z → Dig.Digest → outcome bool).
Context (e : env).
Hypothesis parent_number : ∀ i d m, parent_pp i d = Ret (Some m) → PP.seqno m = i.
Hypothesis primaries : ∀ x, e_primary e x = Z.rem x num_replicas.

Lemma is_primary_here x : is_primary e x = primary_here x.
Proof. unfold is_primary, primary_here. by rewrite primaries. Qed.

Lemma rows_ok_nil b : rows_ok b [].
Proof. intros k row Hk. apply zget_Some_lt in Hk. unfold zlen in Hk. cbn in Hk. lia. Qed.

Lemma nv_make_ok : nv_ok make.
Proof. constructor; cbn; [lia|by split|done|lia|apply rows_ok_nil]. Qed.
Lemma nv_clear_ok s : nv_ok (clear s).
Proof. constructor; cbn; [lia|by split|done|lia|apply rows_ok_nil]. Qed.

(** A computation that ends after reading the new-view message is in a view. *)
Lemma message_J s m s' : I s → message (msg := msg) s = Ret (m, s') → s' = s ∧ J (v (me s)) s ∧ nv (me s) = Some m.
Proof.
  unfold message, self. intros Hs E. run_inv.
  match goal with G : of_option _ _ = Ret _ |- _ => apply of_option_Ret in G as Hm end.
  split; [done|]. split; [|done]. do 2 (split; [done|]). intros [Hn _]%(n_fresh _ Hs). congruence.
Qed.

Lemma change_message_J f s u s' : I s → change_message (msg := msg) f s = Ret (u, s') → J (v (me s)) s'.
Proof.
  unfold change_message, update. intros Hs E. apply bind_inv in E as (m & s1 & E1 & E).
  apply message_J in E1 as (-> & (Hok & _ & Hn) & Hm); [|done]. run_inv. split; [|done]. cbn.
  destruct Hok. by constructor.
Qed.

Section in_view.
Context (w : Z).

(** Changes of the fields that the invariant does not mention. *)
Lemma J_update f :
  (∀ s, v (f s) = v s ∧ chosen_ckpt (f s) = chosen_ckpt s ∧ reqs (f s) = reqs s ∧ base (f s) = base s ∧
        vc_target (f s) = vc_target s ∧ vc_cur (f s) = vc_cur s) →
  posts (J w) (update (msg := msg) f) any.
Proof.
  intros Hf. apply posts_modify. intros s [[Hv Hfr Hop Hb Hr] [<- Hn]]. unfold J. cbn.
  destruct (Hf (me s)) as (E1 & E2 & E3 & E4 & E5 & E6). rewrite ?E1. split; [|done].
  constructor; rewrite ?E1, ?E2, ?E3, ?E4, ?E5, ?E6; done.
Qed.

Lemma J_effect x : posts (J w) (effect (msg := msg) x) any.
Proof. by apply posts_modify. Qed.

Lemma J_I s : J w s → I s.
Proof. by intros [? _]. Qed.

Lemma J_change_message f : posts (J w) (change_message (msg := msg) f) any.
Proof.
  intros s u s' Hs E. split; [|done]. pose proof (change_message_J _ _ _ _ (J_I _ Hs) E) as HJ. destruct Hs as (_ & Hw & _). by rewrite Hw in HJ.
Qed.

Lemma J_message : posts (J w) (message (msg := msg)) any.
Proof. unfold message, self. posts_with ltac:(fail). Qed.
Lemma J_vc_at i : posts (J w) (vc_at (msg := msg) i) any.
Proof. unfold vc_at, self. posts_with ltac:(fail). Qed.
Lemma J_stored_vc i : posts (J w) (stored_vc (msg := msg) i) any.
Proof. unfold stored_vc. pose proof J_vc_at. posts_with ltac:(solve [eauto]). Qed.
Lemma J_vc_to i x : posts (J w) (vc_to (msg := msg) i x) any.
Proof. by apply J_update. Qed.

(** The rows *)
Lemma row_ok s i row : J w s → at_ (reqs (me s)) (i - base (me s)) = Ret row → Forall (pi_ok i) row.
Proof.
  intros [Hok _] E. apply of_option_Ret in E. eapply Forall_impl; [by apply (n_rows _ Hok)|].
  intros x Hx m Hm. unfold same_number. rewrite (Hx m Hm). apply row_number.
Qed.

Lemma J_set_row s i l c n : J w s → Forall (pi_ok i) l →
  J w (mkSt (set_reqs (me s) (zset (reqs (me s)) (to_int (i - base (me s))) l) c n) (fx s)).
Proof.
  intros [[Hv Hfr Hop Hb Hr] [Hw Hn]] Hl. split; [|done]. constructor; cbn; try done.
  - intros Hc. rewrite (Hop Hc). unfold zset. by case_decide.
  - intros k row Hk. rewrite zget_zset in Hk. case_decide as D; [|by apply Hr]. destruct D as [D _]; subst k.
    injection Hk as <-. eapply Forall_impl; [done|]. intros x Hx m Hm. unfold same_number.
    rewrite (Hx m Hm). symmetry. apply row_number.
Qed.

Lemma J_req_at i j : posts (J w) (req_at (msg := msg) i j) (pi_ok i).
Proof.
  unfold req_at, self. intros s x s' Hs E. run_inv. split; [done|].
  match goal with G : at_ (reqs _) _ = Ret _ |- _ => apply row_ok in G as Hrow; [|done] end.
  match goal with G : at_ _ j = Ret _ |- _ => apply of_option_Ret in G end. by eapply Forall_zget.
Qed.

Lemma J_req_to i j x : pi_ok i x → posts (J w) (req_to (msg := msg) i j x) any.
Proof.
  unfold req_to, self, update. intros Hx s u s' Hs E. run_inv. split; [|done]. apply J_set_row; [done|].
  apply Forall_forall. intros y [->|Hy]%elem_of_zset; [done|].
  match goal with G : at_ (reqs _) _ = Ret _ |- _ => apply row_ok in G as Hrow; [|done] end.
  rewrite Forall_forall in Hrow. auto.
Qed.

Lemma J_append_req i x : pi_ok i x → posts (J w) (append_req (msg := msg) i x) any.
Proof.
  unfold append_req, self, update. intros Hx s u s' Hs E. run_inv. split; [|done]. apply J_set_row; [done|].
  match goal with G : at_ (reqs _) _ = Ret _ |- _ => apply row_ok in G as Hrow; [|done] end.
  apply Forall_app. split; [done|by repeat constructor].
Qed.

#[local] Hint Resolve J_effect J_change_message J_message J_vc_at J_stored_vc J_vc_to J_req_at J_req_to J_append_req : posts.
#[local] Hint Extern 1 (posts (J w) (update _) any) => apply J_update; done : posts.
#[local] Ltac j_tac := posts_with ltac:(solve [eauto with posts]).

(** ** Completion *)
Lemma J_known_stable : posts (J w) (known_stable (msg := msg)) any.
Proof. unfold known_stable, self. j_tac. Qed.
#[local] Hint Resolve J_known_stable : posts.

Lemma J_make_new_view : posts (J w) (make_new_view (msg := msg) e) any.
Proof. unfold make_new_view, self. j_tac. Qed.
Lemma J_start_backup : posts (J w) (start_backup (msg := msg)) any.
Proof. unfold start_backup, self. j_tac. Qed.
#[local] Hint Resolve J_make_new_view J_start_backup : posts.

Lemma J_finish : posts (J w) (finish (msg := msg) e) any.
Proof. unfold finish, self. j_tac. Qed.
#[local] Hint Resolve J_finish : posts.

(** A request with the pre-prepare of another is as good. *)
Lemma pi_ok_same i x y : r_pi y = r_pi x → pi_ok i x → pi_ok i y.
Proof. unfold pi_ok. by intros ->. Qed.
Lemma pi_ok_none i x : r_pi x = None → pi_ok i x.
Proof. unfold pi_ok. by intros ->. Qed.

Lemma J_complete_req i j : posts (J w) (complete_req (msg := msg) parent_pp parent_prepare i j) any.
Proof.
  unfold complete_req, self. eapply (posts_bind _ any); [by apply posts_gets|]. intros s0 _.
  eapply posts_bind; [apply J_req_at|]. intros cur Hcur.
  eapply (posts_bind _ (pi_ok i)).
  - destruct (r_pi _) eqn:Hp; [by apply posts_ret|]. eapply posts_bind; [apply posts_lift|]. intros o Ho.
    apply posts_ret. destruct o as [opp|]; [|done]. intros m [= <-]. cbn. by rewrite (parent_number _ _ _ Ho).
  - intros x Hx. j_tac; apply J_req_to; by case_match.
Qed.
#[local] Hint Resolve J_complete_req : posts.

Lemma J_check_comp i j : posts (J w) (check_comp (msg := msg) parent_pp parent_prepare e i j) any.
Proof. unfold check_comp, self. j_tac. Qed.
#[local] Hint Resolve J_check_comp : posts.

(** ** Summaries *)
Lemma get_proofs_pi cur m i x : get_proofs cur m i = Ret x → r_pi x = r_pi cur.
Proof.
  unfold get_proofs. intros E. apply outcome_bind_Ret in E as ([[ri p]|] & _ & E); [|injection E as <-; by destruct (_ && _)].
  repeat match type of E with
  | (if ?b then _ else _) = _ => destruct b
  | _ ≫= _ = _ => apply outcome_bind_Ret in E as (? & _ & E)
  end; by injection E as <-.
Qed.

Lemma J_visit_req m i rv rd acc j : posts (J w) (visit_req (msg := msg) parent_pp parent_prepare e m i rv rd acc j) any.
Proof.
  unfold visit_req, self. destruct acc as [match_ n_le]. eapply posts_bind; [apply J_req_at|]. intros cur Hcur.
  eapply (posts_bind _ any); [|j_tac]. j_tac; apply J_req_to.
  match goal with G : get_proofs _ _ _ = Ret _ |- _ => apply get_proofs_pi in G as Hp end.
  destruct (_ <? _); by eapply pi_ok_same.
Qed.
#[local] Hint Resolve J_visit_req : posts.

Lemma J_summarize_row m i : posts (J w) (summarize_row (msg := msg) parent_pp parent_prepare e m i) any.
Proof.
  unfold summarize_row, self. posts_with ltac:(first [solve [eauto with posts] |
    match goal with |- posts _ (fold_each _ _ _ ≫= _) _ => eapply (posts_bind _ (λ x, r_pi x = None)) end]).
  - apply posts_fold_each; [done|]. intros cur x Hp. destruct (req_sum x); [|by apply posts_ret].
    eapply posts_bind; [apply posts_lift|]. intros m' _. eapply posts_weaken; [apply posts_lift|].
    intros y Hy. by rewrite (get_proofs_pi _ _ _ _ Hy).
  - apply J_append_req. by apply pi_ok_none.
Qed.
#[local] Hint Resolve J_summarize_row : posts.

Lemma J_summarize_reqs o : posts (J w) (summarize_reqs (msg := msg) parent_pp parent_prepare e o) any.
Proof. unfold summarize_reqs, self. j_tac. Qed.
#[local] Hint Resolve J_summarize_reqs : posts.

(** The rows of a view that has none yet. *)
Lemma new_row n k (row : list Req_sum) : zget (replicate n []) k = Some row → row = [].
Proof. unfold zget. case_decide; [|done]. by intros [-> _]%lookup_replicate. Qed.

Lemma rows_ok_app b l n : rows_ok b l → rows_ok b (l ++ replicate n []).
Proof.
  intros Hl k row Hk. rewrite zget_app in Hk. case_decide; [by apply Hl|]. by apply new_row in Hk as ->.
Qed.

Lemma J_open s index lo hi b n cs nc : J w s → chosen_ckpt (me s) < 0 → primary_here w = true → 0 ≤ index →
  J w (mkSt (set_reqs (set_chosen (me s) index lo hi b) (reqs (me s) ++ replicate n []) cs nc) (fx s)).
Proof.
  intros [[Hv Hfr Hop Hb Hr] [<- Hn]] Hc Hp Hi. split; [|done]. rewrite (Hop Hc).
  constructor; cbn; [lia|lia|lia|congruence|]. apply (rows_ok_app _ []), rows_ok_nil.
Qed.

Lemma J_rechoose index lo hi : primary_here w = true → 0 ≤ index →
  posts (J w) (update (msg := msg) (λ s, set_chosen s index (lo s) (hi s) (base s))) any.
Proof.
  intros Hp Hi. apply posts_modify. intros s [[Hv Hfr Hop Hb Hr] [<- Hn]]. split; [|done].
  constructor; cbn; [lia|lia|lia|congruence|done].
Qed.

Lemma J_choose_ckpt index : posts (J w) (choose_ckpt (msg := msg) parent_pp parent_prepare e index) any.
Proof.
  unfold choose_ckpt, self. intros s a s' Hs E. erewrite bind_step in E by done.
  apply bind_inv in E as (? & ? & [Hp%th_assert_Ret ->]%lift_inv & E).
  apply bind_inv in E as (? & ? & [Hi%th_assert_Ret ->]%lift_inv & E).
  do 2 (apply bind_inv in E as (? & ? & [_ ->]%lift_inv & E)).
  rewrite is_primary_here in Hp. apply andb_true_iff in Hi as [Hi%Z.leb_le _].
  assert (primary_here w = true) as Hw by (by destruct Hs as (_ & <- & _)).
  apply bind_inv in E as (o & s1 & E1 & E).
  assert (J w s1) as Hs1; [clear E|split; [|done]; eapply (posts_run (J w) any); [|exact Hs1|exact E]; j_tac].
  destruct (chosen_ckpt (me s) <? 0) eqn:Hc; zprop.
  - unfold update in E1. run_inv. match goal with G : loop _ _ _ _ = Ret _ |- _ =>
      eapply (posts_run (J w) any); [|by apply J_open|exact G] end. j_tac.
  - eapply (posts_run (J w) any); [|exact Hs|exact E1]. j_tac. by apply J_rechoose.
Qed.
#[local] Hint Resolve J_choose_ckpt : posts.

Lemma J_visit_ckpt m vcn vclc acc i :
  posts (J w) (visit_ckpt (msg := msg) parent_pp parent_prepare e m vcn vclc acc i) any.
Proof. unfold visit_ckpt, self. destruct acc as [[match_ n_le] mx]. j_tac. Qed.
#[local] Hint Resolve J_visit_ckpt : posts.

Lemma J_summarize m : posts (J w) (summarize (msg := msg) parent_pp parent_prepare e m) any.
Proof. unfold summarize, self. j_tac. Qed.

(** ** Checking the decision of the primary *)
Lemma J_checked_req i : posts (J w) (checked_req (msg := msg) i) (λ o, ∀ x, o = Some x → r_pi x = None).
Proof.
  unfold checked_req, self. posts_with ltac:(first [solve [eauto with posts] |
    match goal with |- posts _ (fold_each _ _ _ ≫= _) _ => eapply (posts_bind _ (λ x, r_pi x = None)) end]).
  - by apply posts_ret.
  - apply posts_fold_each; [done|]. intros cur y Hp. unfold summed. destruct (vc y) as [m|]; [|by apply posts_ret].
    eapply posts_bind; [apply posts_lift|]. intros c Hc%get_proofs_pi.
    eapply posts_bind; [apply posts_lift|]. intros [v' d'] _. apply posts_ret. destruct (_ <=? _); cbn; congruence.
  - apply posts_ret. by intros x [= <-].
Qed.

Lemma J_check_req i : posts (J w) (check_req (msg := msg) parent_pp parent_prepare e i) any.
Proof.
  unfold check_req. eapply posts_bind; [apply J_checked_req|]. intros [cur|] Hcur; [|by apply posts_ret].
  j_tac. apply J_append_req, pi_ok_none. auto.
Qed.
#[local] Hint Resolve J_check_req : posts.

(** Before the check no rows are laid out. *)
Definition ready (s : St) : Prop := J w s ∧ chosen_ckpt (me s) < 0 ∧ vc_target (me s) ≤ vc_cur (me s).

Lemma J_chosen s i lo hi b : ready s → J w (mkSt (set_chosen (me s) i lo hi b) (fx s)).
Proof.
  intros ([[Hv Hfr Hop Hb Hr] [<- Hn]] & Hc & Ht). split; [|done].
  constructor; cbn; [lia|lia|auto|auto|]. rewrite (Hop Hc). apply rows_ok_nil.
Qed.

Lemma J_check_requests nm n d s a s' : J w s → 0 ≤ chosen_ckpt (me s) →
  check_requests (msg := msg) parent_pp parent_prepare e nm n d s = Ret (a, s') → J w s'.
Proof.
  unfold check_requests. intros Hs Hc E. destruct (_ =? _).
  { eapply (posts_run (J w) any); [|exact Hs|exact E]. j_tac. }
  unfold update in E. run_inv.
  match goal with G : loop _ _ _ _ = Ret _ |- _ => eapply (posts_run (J w) any); [| |exact G] end; [j_tac|].
  destruct Hs as [[Hv Hfr Hop Hb Hr] [<- Hn]]. split; [|done].
  constructor; cbn; [lia|lia|lia|done|]. by apply rows_ok_app.
Qed.

Lemma reads_message : reads (message (msg := msg)).
Proof. intros s m s' E. unfold message, self in E. by run_inv. Qed.
Lemma reads_vc_at i : reads (vc_at (msg := msg) i).
Proof. intros s m s' E. unfold vc_at, self in E. by run_inv. Qed.
Lemma reads_stored_vc i : reads (stored_vc (msg := msg) i).
Proof. intros s m s' E. unfold stored_vc in E. run_inv. by eapply reads_vc_at. Qed.

Lemma reads_count_ckpt cid n d l acc : reads (fold_each l acc (count_ckpt (msg := msg) cid n d)).
Proof.
  intros s a s' E. enough (s' = s ∧ any a) by tauto. revert E. eapply (posts_fold_each (λ t, t = s) any); [done|..|done].
  intros b i _ t x t' -> E. split; [|done]. unfold count_ckpt in E.
  apply bind_inv in E as (y & t1 & ->%reads_vc_at & E). destruct (vc y); [|by run_inv]. destruct (i =? cid); by run_inv.
Qed.

Lemma J_check_new_view s a s' : ready s → check_new_view (msg := msg) parent_pp parent_prepare e s = Ret (a, s') → J w s'.
Proof.
  unfold check_new_view, self. intros Hs E. erewrite bind_step in E by done.
  apply bind_inv in E as (? & ? & [_ ->]%lift_inv & E).
  apply bind_inv in E as (m & ? & ->%reads_message & E).
  apply bind_inv in E as (cid & ? & [_ ->]%lift_inv & E).
  apply bind_inv in E as (y & ? & ->%reads_stored_vc & E).
  pose proof (λ i lo hi b, J_chosen s i lo hi b Hs) as HJ.
  erewrite bind_step in E by done. destruct (negb _); [run_inv; apply HJ|].
  erewrite bind_step in E by done.
  apply bind_inv in E as (o & ? & [_ ->]%lift_inv & E). destruct o as [d|]; [|run_inv; apply HJ].
  apply bind_inv in E as ([np nl] & ? & ->%reads_count_ckpt & E). destruct (_ || _); [run_inv; apply HJ|].
  erewrite bind_step in E by done. destruct (_ <? _); [run_inv; apply HJ|].
  erewrite bind_step in E by done. eapply J_check_requests; [| |exact E]; [apply HJ|done].
Qed.
End in_view.
#[local] Hint Resolve J_effect J_change_message J_message J_vc_at J_stored_vc J_vc_to J_req_at J_req_to J_append_req
  J_check_comp J_summarize : posts.
#[local] Hint Extern 1 (posts (J _) (update _) any) => apply J_update; done : posts.
#[local] Ltac j_tac := posts_with ltac:(solve [eauto with posts]).

(** ** The methods, from any state of the object *)

(** A change of the fields that the invariant does not mention. *)
Lemma I_update s f t :
  I s → v (f (me s)) = v (me s) ∧ nv (f (me s)) = nv (me s) ∧ chosen_ckpt (f (me s)) = chosen_ckpt (me s) ∧
    reqs (f (me s)) = reqs (me s) ∧ base (f (me s)) = base (me s) ∧
    vc_target (f (me s)) = vc_target (me s) ∧ vc_cur (me s) ≤ vc_cur (f (me s)) →
  I (mkSt (f (me s)) t).
Proof.
  intros [Hv Hfr Hop Hb Hr] (E1 & E2 & E3 & E4 & E5 & E6 & E7). constructor; cbn; rewrite ?E1, ?E2, ?E3, ?E4, ?E5, ?E6; try done.
  intros Hp Hc. specialize (Hb Hp Hc). lia.
Qed.

(** A closed object: no checkpoint is chosen. *)
Definition closed (s : St) : Prop := I s ∧ chosen_ckpt (me s) < 0.

Lemma closed_msgs s x o t c l : closed s → 0 < x → closed (mkSt (set_msgs (me s) x o t c l) (fx s)).
Proof. intros [[Hv Hfr Hop Hb Hr] Hc] Hx. split; [|done]. constructor; cbn; [lia|lia|done|lia|done]. Qed.

Lemma add_nv_ok m : posts I (add_nv (msg := msg) e m) any.
Proof.
  unfold add_nv, self. intros s a s' Hs E. split; [|done].
  do 2 (apply bind_inv in E as (? & ? & [_ ->]%lift_inv & E)). erewrite bind_step in E by done.
  destruct (_ <=? _) eqn:Hv; [by run_inv|]. zprop.
  apply bind_inv in E as (? & s1 & E1 & E).
  assert (closed s1) as Hc.
  { destruct (v (me s) =? 0) eqn:Hz; zprop; cbn [negb when] in E1; unfold update in E1; run_inv.
    - split; [done|]. by apply (n_fresh _ Hs).
    - split; [apply nv_clear_ok|done]. }
  erewrite bind_step in E by done. apply (closed_msgs _ (NV.view m) (Some m) (vc_target (me s1)) (vc_cur (me s1)) (vcs (me s1))) in Hc;
    [|pose proof (n_view _ Hs); lia].
  apply bind_inv in E as (? & s2 & E2 & E). run_inv.
  eapply (posts_run closed any) in E2 as [? _]; [done| |exact Hc]. posts_with ltac:(fail).
  apply posts_modify. intros t [Ht Htc]. split; [|done]. destruct Ht as [Hv' Hfr Hop Hb Hr].
  constructor; cbn; [done..|lia|done].
Qed.

Lemma add_vc_ok m b : posts I (add_vc (msg := msg) parent_pp parent_prepare e m b) any.
Proof.
  unfold add_vc, self. intros s a s' Hs E. split; [|done]. erewrite bind_step in E by done.
  apply bind_inv in E as (? & ? & [_ ->]%lift_inv & E).
  apply bind_inv in E as (y & ? & ->%reads_vc_at & E).
  destruct (_ || _); [by run_inv|].
  apply bind_inv in E as (named & s1 & E1 & E).
  assert (s1 = s ∧ (is_primary e (v (me s)) = false → v (me s) ≠ 0)) as [-> Hn].
  { destruct (is_primary _ _); [by run_inv|]. apply bind_inv in E1 as (n & t & E0 & E1).
    apply message_J in E0 as (-> & (_ & _ & Hn) & _); [|done]. run_inv. done. }
  destruct (negb named); [by run_inv|]. destruct (_ && _); [by run_inv|].
  set (p := is_primary e (v (me s))) in *.
  erewrite bind_step in E by done. erewrite bind_step in E by done. cbn [me fx] in E.
  match type of E with _ ?t = _ => set (s2 := t) in E end.
  assert (I s2) as Hs2.
  { apply (I_update s (λ z, set_msgs (set_vcs z _) (v z) (nv z) (vc_target z) (vc_cur z + 1) _)); [done|].
    cbn. split_and!; done || lia. }
  assert (v (me s2) = v (me s) ∧ chosen_ckpt (me s2) = chosen_ckpt (me s) ∧ vc_target (me s2) = vc_target (me s) ∧
          vc_cur (me s2) = vc_cur (me s) + 1) as (Hv2 & Hc2 & Ht2 & Hu2) by done.
  clearbody s2. apply bind_inv in E as (u & s3 & E3 & E). destruct p eqn:Hp; cbn [andb negb when] in *.
  - assert (s' = s3) as -> by (clear E3; by run_inv).
    destruct (_ =? _); cbn [when] in E3; [|by run_inv]. apply bind_inv in E3 as (? & s4 & E3 & E4).
    apply change_message_J in E3; [|done]. eapply J_I. eapply (posts_run (J _) any); [apply J_summarize|exact E3|exact E4].
  - assert (s3 = s2) as -> by (clear E; by run_inv). erewrite bind_step in E by done.
    apply bind_inv in E as (? & s4 & E4 & E). assert (s' = s4) as -> by (clear E4; by run_inv). clear E.
    destruct (_ =? _) eqn:Heq; cbn [when] in E4; [|by run_inv]. zprop.
    apply bind_inv in E4 as (? & s5 & E4 & E5). assert (s4 = s5) as -> by (clear E4; by run_inv).
    assert (primary_here (v (me s)) = false) as Hb by (by rewrite <- is_primary_here).
    apply (J_I (v (me s))). eapply J_check_new_view; [|exact E4]. split; [by split; [done|rewrite Hv2; auto]|].
    pose proof (n_backup _ Hs Hb). lia.
Qed.

Lemma add_vca_ok m : posts I (add_vca (msg := msg) parent_pp parent_prepare e m) any.
Proof.
  unfold add_vca, self. intros s a s' Hs E. split; [|done].
  apply bind_inv in E as (? & ? & [_ ->]%lift_inv & E). erewrite bind_step in E by done.
  apply bind_inv in E as (? & ? & [_ ->]%lift_inv & E). destruct (is_complete _); [by run_inv|].
  apply bind_inv in E as (n & ? & E0 & E). apply message_J in E0 as (-> & HJ & _); [|done].
  eapply J_I. eapply (posts_run (J _) any); [|exact HJ|exact E]. j_tac.
Qed.

(** *** Missing pre-prepares and prepares *)
Lemma reads_open_req n : reads (open_req (msg := msg) n).
Proof. intros s a s' E. unfold open_req, self in E. erewrite bind_step in E by done. destruct (_ && _); by run_inv. Qed.

(** A row with an entry is laid out in some view. *)
Lemma open_req_J n s s' : I s → open_req (msg := msg) n s = Ret (true, s') → s' = s ∧ J (v (me s)) s.
Proof.
  intros Hs E. pose proof (reads_open_req _ _ _ _ E) as ->. split; [done|]. do 2 (split; [done|]). intros Hv.
  destruct (n_fresh _ Hs Hv) as [_ Hc]. unfold open_req, self in E. erewrite bind_step in E by done.
  destruct (0 <=? _) eqn:Hz; zprop; [lia|]. cbn [andb] in E. by run_inv.
Qed.

Lemma J_find_req w n d : posts (J w) (find_req (msg := msg) n d) (λ o, ∀ j x, o = Some (j, x) → pi_ok n x).
Proof.
  unfold find_req, self. intros s o s' Hs E. run_inv. split; [done|]. intros j x Hx.
  match goal with G : at_ (reqs _) _ = Ret _ |- _ => apply (row_ok _ _ _ _ Hs) in G as Hrow end.
  destruct (list_find _ _) as [[k y]|] eqn:Hf; [|done]. injection Hx as _ <-.
  apply list_find_Some in Hf as [Hf _]. by eapply (Forall_lookup_1 _ _ _ _ Hrow).
Qed.

#[local] Hint Resolve J_find_req : posts.

Lemma add_missing_pp_ok pp : posts I (add_missing_pp (msg := msg) parent_pp parent_prepare e pp) any.
Proof.
  unfold add_missing_pp, self. intros s a s' Hs E. split; [|done].
  apply bind_inv in E as ([] & ? & E0 & E); cbn [negb] in E.
  2: { pose proof (reads_open_req _ _ _ _ E0) as ->. by run_inv. }
  apply open_req_J in E0 as [-> HJ]; [|done]. eapply J_I. eapply (posts_run (J _) any); [|exact HJ|exact E].
  j_tac. apply J_req_to. by intros m [= <-].
Qed.

Lemma add_missing_p_ok p : posts I (add_missing_p (msg := msg) parent_pp parent_prepare e p) any.
Proof.
  unfold add_missing_p, self. intros s a s' Hs E. split; [|done].
  apply bind_inv in E as ([] & ? & E0 & E); cbn [negb] in E.
  2: { pose proof (reads_open_req _ _ _ _ E0) as ->. by run_inv. }
  apply open_req_J in E0 as [-> HJ]; [|done]. eapply J_I. eapply (posts_run (J _) any); [|exact HJ|exact E].
  eapply posts_bind; [apply J_find_req|]. intros [[j x]|] Hx; [|j_tac]. j_tac. apply J_req_to.
  exact (Hx _ _ eq_refl).
Qed.

(** The pre-prepare that [fetch_request] returns has the number that was asked for. *)
Lemma fetch_request_ok n : posts I (fetch_request (msg := msg) e n) (λ x, same_number (PP.seqno x.1) n).
Proof.
  unfold fetch_request, self. intros s a s' Hs E. erewrite bind_step in E by done.
  apply bind_inv in E as (? & ? & [_ ->]%lift_inv & E).
  apply bind_inv in E as (m & ? & E0 & E). apply message_J in E0 as (-> & HJ & _); [|done].
  enough (posts (J (v (me s))) _ (λ x : PP.Pre_prepare * Dig.Digest, same_number (PP.seqno x.1) n)) as Hp
    by (destruct (Hp _ _ _ HJ E) as [?%J_I ?]; done).
  clear E. do 3 (eapply posts_bind; [eauto using posts_lift with posts|intros ? _]).
  eapply posts_bind; [apply posts_lift|]. intros [pv d] _.
  eapply (posts_bind _ (λ x : PP.Pre_prepare * Dig.Digest, same_number (PP.seqno x.1) n)).
  - destruct (_ && _).
    + eapply posts_bind; [apply posts_lift|]. intros j _. eapply posts_bind; [apply J_req_at|]. intros cur Hcur.
      eapply posts_bind; [by apply J_req_to, pi_ok_none|]. intros _ _.
      eapply posts_bind; [apply posts_lift|]. intros pp Hp%of_option_Ret. apply posts_ret, Hcur, Hp.
    + eapply posts_bind; [apply posts_lift|]. intros [pp q] Hf%fill_seqno. apply posts_ret. cbn. by rewrite Hf.
  - intros [pp d'] Hpp. destruct (is_primary _ _); [|by apply posts_ret].
    eapply posts_bind; [apply posts_lift|]. intros pp' Hr%re_authenticate_seqno. apply posts_ret. cbn in *. by rewrite Hr.
Qed.

(** *** Observers, stability and stale messages *)
#[local] Ltac i_tac := posts_with ltac:(first [apply posts_reads, reads_message | apply posts_reads, reads_vc_at]).

Lemma received_vcs_ok : posts I (received_vcs (msg := msg) e) any.
Proof. unfold received_vcs, self. i_tac. Qed.
Lemma missing_pps_ok : posts I (missing_pps (msg := msg)) any.
Proof. unfold missing_pps, self. i_tac. Qed.

Lemma mark_stable_ok ls : posts I (mark_stable (msg := msg) e ls) any.
Proof.
  unfold mark_stable, self, update, effect. i_tac; apply posts_modify; [|done].
  intros s Hs. apply (I_update s (λ z, set_complete z true)); [done|]. cbn. split_and!; done || lia.
Qed.

Lemma nv_mark_stale_ok id : posts I (mark_stale (msg := msg) parent_pp parent_prepare e id) any.
Proof.
  unfold mark_stale, self, update. pose proof add_nv_ok. pose proof add_vc_ok.
  posts_with ltac:(first [solve [eauto] | apply posts_reads, reads_vc_at]).
  apply posts_modify. intros s _. apply nv_clear_ok.
Qed.
End nv_ok.
End NVOk.

(** ** View_info *)
Module VIOk.
Import VI.
Section vi_ok.
Context `{Config} `{World}.

(** The objects of all primaries. *)
Definition vi_ok (s : View_info) : Prop := Forall NVOk.nv_ok (last_nvs s).
Definition V (s : St) : Prop := vi_ok (me s).

Lemma vi_make_ok ident vi : vi_ok (make ident vi).
Proof. apply Forall_replicate, NVOk.nv_make_ok. Qed.

Context (e : env).
Hypothesis primaries : ∀ x, e_primary e x = Z.rem x num_replicas.

Lemma V_update f : (∀ s, last_nvs (f s) = last_nvs s) → posts V (update f) any.
Proof. intros Hf. apply posts_modify. intros s Hs. unfold V, vi_ok. cbn. by rewrite Hf. Qed.
Lemma V_effects l : posts V (effects l) any.
Proof. by apply posts_modify. Qed.

Lemma V_nv_at i : posts V (nv_at i) NVOk.nv_ok.
Proof.
  unfold nv_at, self, NVI.at_. intros s n s' Hs E. run_inv. split; [done|].
  match goal with G : of_option _ _ = Ret _ |- _ => apply of_option_Ret in G end. by eapply Forall_zget.
Qed.

Lemma V_with_nv {A} i (m : ST NVI.St A) Q : posts NVOk.I m Q → posts V (with_nv i m) Q.
Proof.
  unfold with_nv, self, update, effects, NVI.at_. intros Hm s a s' Hs E. run_inv.
  match goal with p : _ * _ |- _ => destruct p as [b t] end. run_inv.
  match goal with G : of_option _ _ = Ret _ |- _ => apply of_option_Ret, (Forall_zget _ _ _ _ Hs) in G end.
  match goal with G : m _ = Ret _ |- _ => apply Hm in G as [Ht Hq] end; [|done].
  split; [|done]. by apply Forall_zset.
Qed.

(** What the log of requests finds has the number that is asked for. *)
Lemma pre_prepare_number l i d m : pre_prepare l i d = Ret (Some m) → PP.seqno m = i.
Proof.
  unfold pre_prepare, logged. intros E. destruct (Log.within_range l i); [|done].
  apply outcome_bind_Ret in E as (ri & _ & E). destruct (o_m ri) as [y|]; [|done].
  destruct (Dig.operator_eq _ _); [|done]. apply outcome_bind_Ret in E as (u & Ec%th_assert_Ret & E).
  injection E as <-. zprop. tauto.
Qed.

Lemma V_set_nv i n : NVOk.nv_ok n → posts V (update (λ s, set_nvs s (zset (last_nvs s) (i s) n))) any.
Proof. intros Hn. apply posts_modify. intros s Hs. by apply Forall_zset. Qed.

Lemma V_nv_add_nv i m : posts V (nv_add_nv e i m) any.
Proof. apply V_with_nv. by apply NVOk.add_nv_ok. Qed.
Lemma V_nv_add_vc i m b : posts V (nv_add_vc e i m b) any.
Proof.
  unfold nv_add_vc, self. eapply (posts_bind _ any); [by apply posts_gets|]. intros s _. apply V_with_nv.
  apply NVOk.add_vc_ok; (done || apply pre_prepare_number).
Qed.
Lemma V_nv_add_vca i m : posts V (nv_add_vca e i m) any.
Proof.
  unfold nv_add_vca, self. eapply (posts_bind _ any); [by apply posts_gets|]. intros s _. apply V_with_nv.
  apply NVOk.add_vca_ok; (done || apply pre_prepare_number).
Qed.

Lemma V_send m dst : posts V (send m dst) any.
Proof. apply V_effects. Qed.
Lemma V_oplog_fetch n : posts V (oplog_fetch n) any.
Proof. unfold oplog_fetch, self. posts_with ltac:(fail). Qed.
Lemma V_oplog_store n x : posts V (oplog_store n x) any.
Proof. by apply V_update. Qed.

#[local] Hint Resolve V_effects V_send V_nv_at V_nv_add_nv V_nv_add_vc V_nv_add_vca V_oplog_fetch V_oplog_store : posts.
#[local] Hint Extern 1 (posts V (update _) any) => apply V_update; done : posts.
#[local] Ltac v_tac := posts_with ltac:(solve [eauto with posts]).

Lemma V_add_complete pp : posts V (add_complete pp) any.
Proof. unfold add_complete, self. v_tac. Qed.
Lemma V_add_incomplete n d : posts V (add_incomplete n d) any.
Proof. unfold add_incomplete, self. v_tac. Qed.
Lemma V_send_proofs n vi dst : posts V (send_proofs e n vi dst) any.
Proof. unfold send_proofs, self. v_tac. Qed.

Lemma V_discard_one i : posts V (discard_one i) any.
Proof. unfold discard_one, self. v_tac. apply (V_set_nv (λ _, i)), NVOk.nv_clear_ok. Qed.
#[local] Hint Resolve V_discard_one : posts.

Lemma V_acknowledge i m : posts V (acknowledge e i m) any.
Proof. unfold acknowledge, self. v_tac. Qed.
Lemma V_move_vc nvi vw i : posts V (move_vc e nvi vw i) any.
Proof. unfold move_vc, self. v_tac. Qed.
Lemma V_move_ack nvi i j : posts V (move_ack e nvi i j) any.
Proof. unfold move_ack, take_ack, self. v_tac. Qed.
#[local] Hint Resolve V_acknowledge V_move_vc V_move_ack : posts.

Lemma V_view_change vi le digest : posts V (view_change e vi le digest) any.
Proof. unfold view_change, discard_old, self. v_tac. Qed.

Lemma V_add_vc m : posts V (add_vc e m) any.
Proof. unfold add_vc, self. v_tac. Qed.
Lemma V_add_nv m : posts V (add_nv e m) any.
Proof. unfold add_nv, self. v_tac. Qed.
Lemma V_add_vca m : posts V (add_vca e m) any.
Proof. unfold add_vca, self. v_tac. Qed.

(** *** Messages to send again *)
Lemma set_vcs_ok n l : NVOk.nv_ok n → NVOk.nv_ok (NVI.set_vcs n l).
Proof. intros []. by constructor. Qed.

Lemma new_message_ok n m0 m t : NVI.nv n = Some m0 → NVOk.nv_ok n → NVOk.nv_ok (NVI.set_sent (NVI.set_nv n (Some m)) t).
Proof. intros Hm [Hv Hfr Hop Hb Hr]. constructor; cbn; try done. intros [? _]%Hfr. congruence. Qed.

Lemma V_resend_view_change now : posts V (resend_view_change e now) any.
Proof.
  unfold resend_view_change, self. v_tac. apply posts_modify. intros s Hs. apply Forall_zset; [done|]. by apply set_vcs_ok.
Qed.

Lemma V_resend_new_view now : posts V (resend_new_view e now) any.
Proof.
  unfold resend_new_view, self. eapply (posts_bind _ any); [by apply posts_gets|]. intros s0 _.
  eapply posts_bind; [apply V_nv_at|]. intros n Hn. destruct (NVI.nv n) as [m|] eqn:Hm; [|by apply posts_ret].
  v_tac. by eapply (V_set_nv id), new_message_ok.
Qed.

Lemma V_resend_ack p i : posts V (resend_ack p i) any.
Proof. unfold resend_ack, self. v_tac. Qed.
Lemma V_resend_pre_prepare n vw : posts V (resend_pre_prepare e n vw) any.
Proof. unfold resend_pre_prepare, self. v_tac. Qed.

Lemma V_received_vcs vw : posts V (received_vcs e vw) any.
Proof. unfold received_vcs, self. v_tac. by apply V_with_nv, NVOk.received_vcs_ok. Qed.
Lemma V_missing_pps vw : posts V (missing_pps e vw) any.
Proof. unfold missing_pps, self. v_tac. by apply V_with_nv, NVOk.missing_pps_ok. Qed.

(** *** The new view *)
Lemma V_fetch_request n : posts V (fetch_request e n) (λ x, same_number (PP.seqno x.1) n).
Proof.
  unfold fetch_request, self. eapply (posts_bind _ any); [by apply posts_gets|]. intros s _.
  by apply V_with_nv, NVOk.fetch_request_ok.
Qed.

Lemma V_add_missing_pp pp : posts V (add_missing_pp e pp) any.
Proof.
  unfold add_missing_pp, self. eapply (posts_bind _ any); [by apply posts_gets|]. intros s _.
  apply V_with_nv, NVOk.add_missing_pp_ok; (done || apply pre_prepare_number).
Qed.
Lemma V_add_missing_p p : posts V (add_missing_p e p) any.
Proof.
  unfold add_missing_p, self. eapply (posts_bind _ any); [by apply posts_gets|]. intros s _.
  apply V_with_nv, NVOk.add_missing_p_ok; (done || apply pre_prepare_number).
Qed.

(** *** Stability and recovery *)
Lemma V_mark_stable ls : posts V (mark_stable e ls) any.
Proof. unfold mark_stable, self. v_tac. by apply V_with_nv, NVOk.mark_stable_ok. Qed.

Lemma V_clear : posts V clear any.
Proof.
  unfold clear, self. v_tac. apply posts_modify. intros s Hs. apply Forall_fmap, Forall_true. apply NVOk.nv_clear_ok.
Qed.

Lemma V_enforce_bound b ks corrupt : posts V (enforce_bound b ks corrupt) any.
Proof. unfold enforce_bound, self. v_tac. Qed.

Lemma V_stale_one i : posts V (stale_one e i) any.
Proof.
  unfold stale_one, self. v_tac. apply V_with_nv, NVOk.nv_mark_stale_ok; (done || apply pre_prepare_number).
Qed.
Lemma V_mark_stale : posts V (mark_stale e) any.
Proof. unfold mark_stale. pose proof V_stale_one. v_tac. Qed.
End vi_ok.
End VIOk.

(** ** What the replica relies on *)

(** A replica computes the primary of a view from its number. *)
Definition env_ok `{Config} (e : env) : Prop := ∀ x, e_primary e x = Z.rem x num_replicas.

Class ViewLaws `{Config} `{Parts} := {
  vi_ok : vinfo → Prop;
  ok_add_missing_pp e w m w' l : vi_add_missing_pp e w m = Ret (w', l) → env_ok e → vi_ok w → vi_ok w';
  ok_add_missing_p e w m w' l : vi_add_missing_p e w m = Ret (w', l) → env_ok e → vi_ok w → vi_ok w';
  ok_mark_stable e w n w' l : vi_mark_stable e w n = Ret (w', l) → env_ok e → vi_ok w → vi_ok w';
  ok_add_complete w m w' : vi_add_complete w m = Ret w' → vi_ok w → vi_ok w';
  ok_add_incomplete w n d w' : vi_add_incomplete w n d = Ret w' → vi_ok w → vi_ok w';
  ok_view_change e w s v le w' l : vi_view_change e w s v le = Ret (w', l) → env_ok e → vi_ok w → vi_ok w';
  ok_add_vc e w m w' b l : vi_add_vc e w m = Ret (w', b, l) → env_ok e → vi_ok w → vi_ok w';
  ok_add_nv e w m w' l : vi_add_nv e w m = Ret (w', l) → env_ok e → vi_ok w → vi_ok w';
  ok_add_vca e w m w' l : vi_add_vca e w m = Ret (w', l) → env_ok e → vi_ok w → vi_ok w';
  ok_fetch_request e w i w' o d : vi_fetch_request e w i = Ret (w', o, d) → env_ok e → vi_ok w → vi_ok w';
  ok_fetched e w i w' pp d : vi_fetch_request e w i = Ret (w', Some pp, d) → env_ok e → vi_ok w → same_number (PP.seqno pp) i;
  ok_clear w w' : vi_clear w = Ret w' → vi_ok w → vi_ok w';
  ok_mark_stale e w w' : vi_mark_stale e w = Ret w' → env_ok e → vi_ok w → vi_ok w';
  ok_enforce_bound w b ks c w' o : vi_enforce_bound w b ks c = Ret (w', o) → vi_ok w → vi_ok w';
  ok_received_vcs e w x w' l : vi_received_vcs e w x = Ret (w', l) → env_ok e → vi_ok w → vi_ok w';
  ok_missing_pps e w x w' l : vi_missing_pps e w x = Ret (w', l) → env_ok e → vi_ok w → vi_ok w';
  ok_resend_view_change e w t w' o : vi_resend_view_change e w t = Ret (w', o) → env_ok e → vi_ok w → vi_ok w';
  ok_resend_new_view e w t w' o : vi_resend_new_view e w t = Ret (w', o) → env_ok e → vi_ok w → vi_ok w';
  ok_resend_ack e w p i w' o : vi_resend_ack e w p i = Ret (w', o) → env_ok e → vi_ok w → vi_ok w';
  ok_resend_pre_prepare e w n x w' o : vi_resend_pre_prepare e w n x = Ret (w', o) → env_ok e → vi_ok w → vi_ok w';
  ok_send_proofs e w n x dst w' l : vi_send_proofs e w n x dst = Ret (w', l) → env_ok e → vi_ok w → vi_ok w';
}.

(** The methods of View_info as the replica calls them. *)
Section laws.
Context `{Config} `{World} (p : Parts).

Lemma run_ok {A} (m : ST VI.St A) Q w w' a l :
  posts VIOk.V m Q → VP.run p m w = Ret (w', a, l) → VIOk.vi_ok w → VIOk.vi_ok w' ∧ Q a.
Proof.
  unfold VP.run. intros Hm E Hw. apply outcome_bind_Ret in E as ([b s] & E & Es). injection Es as <- <- _.
  exact (Hm (VI.mkSt w []) _ _ Hw E).
Qed.

Lemma run_unit_ok (m : ST VI.St unit) w w' l :
  posts VIOk.V m any → VP.run_unit p m w = Ret (w', l) → VIOk.vi_ok w → VIOk.vi_ok w'.
Proof.
  unfold VP.run_unit. intros Hm E Hw. apply outcome_bind_Ret in E as ([[w1 a] l1] & E & Es). injection Es as <- _.
  by apply (run_ok _ any) in E as [? _].
Qed.

Lemma run_quiet_ok (m : ST VI.St unit) w w' :
  posts VIOk.V m any → VP.run_quiet p m w = Ret w' → VIOk.vi_ok w → VIOk.vi_ok w'.
Proof.
  unfold VP.run_quiet. intros Hm E Hw. apply outcome_bind_Ret in E as ([[w1 a] l1] & E & Es). injection Es as <-.
  by apply (run_ok _ any) in E as [? _].
Qed.

Lemma observe_ok {A} (m : ST VI.St A) w w' a :
  posts VIOk.V m any → VP.observe p m w = Ret (w', a) → VIOk.vi_ok w → VIOk.vi_ok w'.
Proof.
  unfold VP.observe. intros Hm E Hw. apply outcome_bind_Ret in E as ([[w1 b] l1] & E & Es). injection Es as <- _.
  by apply (run_ok _ any) in E as [? _].
Qed.

Lemma resend_ok {A} (tag : A → vi_msg) (m : ST VI.St (option A)) w w' o :
  posts VIOk.V m any → VP.resend p tag m w = Ret (w', o) → VIOk.vi_ok w → VIOk.vi_ok w'.
Proof.
  unfold VP.resend. intros Hm E Hw. apply outcome_bind_Ret in E as ([w1 b] & E & Es). injection Es as <- _.
  by eapply observe_ok.
Qed.

Lemma fetch_ok e w i w' o d : VP.fetch p e w i = Ret (w', o, d) → env_ok e → VIOk.vi_ok w →
  VIOk.vi_ok w' ∧ ∀ pp, o = Some pp → same_number (PP.seqno pp) i.
Proof.
  unfold VP.fetch. intros E He Hw. apply outcome_bind_Ret in E as ([[w1 [m d1]] l1] & E & Es). injection Es as <- <- _.
  apply (run_ok _ _ _ _ _ _ (VIOk.V_fetch_request e i)) in E as [Hw1 Hn]; [|done]. split; [done|]. by intros pp [= <-].
Qed.

Lemma send_proofs_ok e w n x dst w' l :
  (VP.run p (VI.send_proofs e n x dst) w ≫= λ y, let '(w, _, l) := y in Ret (w, VP.sent p l)) = Ret (w', l) →
  VIOk.vi_ok w → VIOk.vi_ok w'.
Proof.
  intros E Hw. apply outcome_bind_Ret in E as ([[w1 a] l1] & E & Es). injection Es as <- _.
  apply (run_ok _ any) in E as [? _]; [done|apply VIOk.V_send_proofs|done].
Qed.

#[local] Hint Resolve VIOk.V_add_missing_pp VIOk.V_add_missing_p VIOk.V_mark_stable VIOk.V_add_complete VIOk.V_add_incomplete
  VIOk.V_view_change VIOk.V_add_vc VIOk.V_add_nv VIOk.V_add_vca VIOk.V_clear VIOk.V_mark_stale VIOk.V_enforce_bound
  VIOk.V_received_vcs VIOk.V_missing_pps VIOk.V_resend_view_change VIOk.V_resend_new_view VIOk.V_resend_ack
  VIOk.V_resend_pre_prepare : posts.

#[export] Instance view_info_laws : ViewLaws (H0 := VP.with_view_info p).
Proof.
  refine {| vi_ok := VIOk.vi_ok : @vinfo (VP.with_view_info p) → Prop |}; cbn; unfold env_ok; intros;
    lazymatch goal with
    | E : VP.run_unit _ _ _ = _ |- _ => eapply run_unit_ok in E; eauto with posts
    | E : VP.run_quiet _ _ _ = _ |- _ => eapply run_quiet_ok in E; eauto with posts
    | E : VP.observe _ _ _ = _ |- _ => eapply observe_ok in E; eauto with posts
    | E : VP.resend _ _ _ _ = _ |- _ => eapply resend_ok in E; eauto with posts
    | E : VP.fetch _ _ _ _ = _ |- _ => apply fetch_ok in E as [? Hn]; auto
    | E : VP.run _ _ _ = _ |- _ => eapply (run_ok _ any) in E as [? _]; eauto with posts
    | E : _ ≫= _ = _ |- _ => by eapply send_proofs_ok
    end.
Defined.
End laws.
