(* ===== verification/ReplicaStatus.v ===== *)
(** * ReplicaStatus: status messages, retransmission and new keys (src/src/Replica.cc)

    What a replica tells the others about its progress ([send_status]), what it sends again
    to a replica that lacks it ([handle_status]), and the handlers of New_key and
    Query_stable messages.  A message that is sent again is the stored one: it gets a new
    authenticator in place, and the time of sending is kept with it. *)
From S2P Require Import Prelude Node SeqLog Certificate Messages PreparedCert ReqQueue Support RepInfo.
From S2P Require Import PrePrepare Status NewKey StableEstimator ViewChange StateMonad World NewView ReplicaState.
Import Auth Rep.

Module RStatus.
Section status.
Context `{Config} `{World} `{Parts}.

#[local] Abbreviation M := (ST Rep.Replica).

(** ** Sending a status *)
Definition status_storage : list Z := replicate (Z.to_nat (PP.Max_message_size - Stat.sizeof_Status_rep)) 0.

(** The marks of batch [n]; a replica that checks its state says that it has everything. *)
Definition mark_batch (m : Stat.Status) (n : Z) : M Stat.Status :=
  r ← get;
  pc ← plog_fetch n;
  b ← lift (PCert.is_complete pc);
  if b || in_check_state (state r) then
    m ← lift (Stat.mark_prepared m n);
    c ← clog_fetch n;
    if Cert.is_complete c || in_check_state (state r) then lift (Stat.mark_committed m n) else mret m
  else mret m.

(** [~0LL]: no big requests are missing. *)
Definition no_big_requests : Z := -1.

Definition mark_view_changes (m : Stat.Status) (l : list Z) : outcome Stat.Status :=
  foldl (λ o i, m ← o; Stat.mark_vcs m i) (Ret m) l.
Definition append_missing (m : Stat.Status) (l : list (Z * Z * bool)) : outcome Stat.Status :=
  foldl (λ o x, m ← o; Stat.append_pps m x.1.1 x.1.2 no_big_requests x.2) (Ret m) l.

(** What a replica says that waits for the new view. *)
Definition mark_waiting (m : Stat.Status) : M Stat.Status :=
  r ← get;
  '(w, l) ← lift (vi_received_vcs (env_of r) (vi r) (Stat.view m));
  _ ← vi_to w;
  m ← lift (mark_view_changes m l);
  r ← get;
  '(w, l) ← lift (vi_missing_pps (env_of r) (vi r) (Stat.view m));
  _ ← vi_to w;
  lift (append_missing m l).

Definition send_own_status : M unit :=
  r ← get;
  let c := cn r in
  m ← lift (Stat.make status_storage (v (vw r)) (last_stable c) (last_executed c) (has_new_view r)
              (vi_has_nv_message (env_of r) (vi r) (v (vw r))));
  let max := to_int (last_stable c + max_out) in
  m ← (if has_new_view r then fold_each (seqZ (last_executed c + 1) (max - last_executed c)) m mark_batch
       else mark_waiting m);
  m ← lift (Stat.authenticate w_hmac_md (keys_of r) m);
  emit (ESendStatus m All_replicas).

Definition set_last_status (t : Z) (n : NodeState) : NodeState :=
  mkNode (ps n) (last_new_key n) (cur_rid n) (draws n) (nonces n) (ticks n) t.
Definition set_qs (q : option SE.Query_stable) (x : Recovery) : Recovery :=
  mkRecovery (recovering x) (vc_recovering x) (corrupt x) (recovery_point x) (rr x) (rr_reps x) (rr_views x) q (se x).

Definition send_others (l : list (other_msg * Z)) : M unit := for_each l (λ m, emit (ESendOther m.1 m.2)).

(** At most one status in 100 ms; a replica that estimates or fetches repeats that message
    instead. *)
Definition send_status : M unit :=
  now ← currentTime;
  r ← get;
  when (100000 <? RI.diffTime w_clock_mhz now (last_status (nd r)))
    (_ ← node_to (set_last_status now);
     match qs (rc r) with
     | Some q =>
         q ← lift (SE.query_stable_re_authenticate w_hmac_md (keys_of r) q);
         _ ← recovery_to (set_qs (Some q));
         emit (ESendQuery q All_replicas)
     | None =>
         _ ← (match rr (rc r) with Some q => emit (ESendRequest q All_replicas) | None => skip end);
         if st_retrans_fetch (state r) now then
           '(s, l) ← lift (st_send_fetch (state r) true);
           _ ← state_to s; send_others l
         else send_own_status
     end).

(** ** Sending messages again *)
Section answer.
Context (dst now : Z).

Definition resend_checkpoint (n : Z) (m : Checkpoint) : M unit :=
  r ← get;
  m ← lift (checkpoint_re_authenticate w_hmac_md (keys_of r) m false);
  _ ← send_to dst (ESendCheckpoint m dst);
  with_elog n (λ x, Ret (tt, Cert.resend x m now)).

Definition resend_commit (n : Z) (m : Commit) : M unit :=
  r ← get;
  m ← lift (commit_re_authenticate w_hmac_md (keys_of r) m);
  _ ← send_to dst (ESendCommit m dst);
  with_clog n (λ x, Ret (tt, Cert.resend x m now)).

Definition resend_prepare (n : Z) (m : Prepare) : M unit :=
  r ← get;
  m ← lift (prepare_re_authenticate w_hmac_md (keys_of r) m (i_to_p (principals_now r) dst));
  _ ← send_to dst (ESendPrepare m dst);
  with_plog n (λ x, Ret (tt, PCert.with_pc x (Cert.resend (PCert.pc x) m now))).

(** The pre-prepare of the entry that [which] finds; [t] is the time that is kept with it. *)
Definition re_authenticate_pp (ps : list Principal) (which : PCert.Prepared_cert PP.Pre_prepare → option PP.Pre_prepare)
    (t : Z → Z) (x : PCert.Prepared_cert PP.Pre_prepare) : outcome (option PP.Pre_prepare * PCert.Prepared_cert PP.Pre_prepare) :=
  match which x with
  | Some m =>
      m ← PP.re_authenticate w_hmac_md ps m;
      Ret (Some m, PCert.mkPCert (PCert.pc x) (Some m) (t (PCert.t_sent x)) (PCert.primary x))
  | None => Ret (None, x)
  end.

Definition resend_pre_prepare (n : Z) (which : PCert.Prepared_cert PP.Pre_prepare → option PP.Pre_prepare) (t : Z → Z)
    : M unit :=
  r ← get;
  o ← with_plog n (re_authenticate_pp (principals_now r) which t);
  match o with Some m => send_to dst (ESendPp m dst) | None => skip end.

(** A message that the view information holds. *)
Definition resend_vi (f : env → vinfo → outcome (vinfo * option other_msg)) : M bool :=
  r ← get;
  '(w, o) ← lift (f (env_of r) (vi r));
  _ ← vi_to w;
  match o with
  | Some m => _ ← send_to dst (ESendOther m dst); mret true
  | None => mret false
  end.

(** The checkpoint [n] of this replica, for a replica that may lack it. *)
Definition answer_checkpoint (n : Z) : M unit :=
  when (Z.rem n checkpoint_interval =? 0)
    (x ← elog_fetch n;
     match Cert.mine x with
     | Some m =>
         _ ← resend_checkpoint n m;
         r ← get;
         assert_ ((n =? last_stable (cn r)) || negb (checkpoint_stable m))
     | None => skip
     end).

(** The messages of this replica for batch [n]. *)
Definition answer_batch (m : Stat.Status) (n : Z) : M unit :=
  b ← lift (Stat.is_committed m n);
  if b : bool then skip
  else
    c ← clog_fetch n;
    _ ← (match Cert.mine c with Some x => resend_commit n x | None => skip end);
    b ← lift (Stat.is_prepared m n);
    if b : bool then skip
    else
      r ← get;
      if is_primary r then resend_pre_prepare n PCert.my_pre_prepare (λ _, now)
      else
        pc ← plog_fetch n;
        match PCert.my_prepare pc with Some x => resend_prepare n x | None => skip end.

(** The acknowledgement of the view-change of [i]. *)
Definition answer_ack (m : Stat.Status) (i : Z) : M unit :=
  if Stat.id m =? i then skip
  else
    r ← get;
    a ← lift (vi_my_vc_ack (vi r) i);
    b ← (if a : bool then lift (Stat.has_vc m i) else mret true);
    when (negb b)
      (p ← lift (of_option Undefined (i_to_p (principals_now r) dst));
       _ ← resend_vi (λ e w, vi_resend_ack e w p i); skip).

(** A row of the missing pre-prepares: number, least view, and whether proofs are needed. *)
Definition answer_missing (m : Stat.Status) (x : Z * Z * Z * bool) : M unit :=
  let '(ppv, ppn, _, ppp) := x in
  r ← get;
  _ ← (if Stat.id m =? prim r (v (vw r)) then
         '(w, o) ← lift (vi_resend_pre_prepare (env_of r) (vi r) ppn ppv);
         _ ← vi_to w;
         match o with Some pp => send_to dst (ESendPp pp dst) | None => skip end
       else if (prim r (v (vw r)) =? node_id) && Log.within_range (plog (st r)) ppn then
         resend_pre_prepare ppn PCert.pre_prepare (λ t, t)
       else skip);
  when ppp
    (r ← get;
     '(w, l) ← lift (vi_send_proofs (env_of r) (vi r) ppn ppv (Stat.id m));
     _ ← vi_to w; send_others l).

(** For a replica that has the new-view message. *)
Definition answer_new_view (m : Stat.Status) : M unit :=
  r ← get;
  _ ← (if (prim r (v (vw r)) =? node_id) && vi_has_new_view (prim r) (vi r) (v (vw r)) then skip
       else for_each (seqZ 0 num_replicas) (answer_ack m));
  l ← lift (Stat.pps m);
  for_each l (answer_missing m).

(** For a replica that waits in the same view. *)
Definition answer_waiting (m : Stat.Status) : M unit :=
  b ← lift (Stat.has_vc m node_id);
  _ ← when (negb b)
    (b ← resend_vi (λ e w, vi_resend_view_change e w now); assert_ b);
  r ← get;
  if negb (Stat.has_nv_m m) then
    when ((prim r (v (vw r)) =? node_id) && vi_has_new_view (prim r) (vi r) (v (vw r)))
      (_ ← resend_vi (λ e w, vi_resend_new_view e w now); skip)
  else answer_new_view m.
End answer.

(** The body of [handle(Status)] for an authentic message of another replica. *)
Definition answer_status (m : Stat.Status) : M unit :=
  now ← currentTime;
  r ← get;
  let ls := last_stable (cn r) in
  let dst := Stat.id m in
  if Stat.last_stable m + max_out <? ls then
    x ← elog_fetch ls;
    match Cert.mine x with
    | Some c => _ ← assert_ (checkpoint_stable c); resend_checkpoint dst now ls c
    | None => fail AssertFail
    end
  else
    let max := to_int (Z.min ls (Stat.last_stable m) + max_out) in
    let min := to_int (Z.max ls (Stat.last_stable m + 1)) in
    _ ← for_each (seqZ min (max - min + 1)) (answer_checkpoint dst now);
    r ← get;
    if Stat.view m <? v (vw r) then
      _ ← resend_vi dst (λ e w, vi_resend_view_change e w now); skip
    else if Stat.view m =? v (vw r) then
      if Stat.has_nv_info m then
        let min := to_int (Z.max (ls + 1) (Stat.last_executed m + 1)) in
        for_each (seqZ min (max - min + 1)) (answer_batch dst now m)
      else answer_waiting dst now m
    else skip.

Definition send_last_new_key (dst : Z) : M unit :=
  r ← get;
  match last_new_key (nd r) with Some k => send_to dst (ESendNewKey k dst) | None => skip end.

Definition handle_status (m : Stat.Status) : M unit :=
  if Stat.id m =? node_id then skip
  else
    r ← get;
    ok ← lift (Stat.verify w_hmac_md w_char_signed (keys_of r) m);
    if ok && bool_decide (qs (rc r) = None) then answer_status m
    else when (bool_decide (qs (rc r) = None) || negb ok) (send_last_new_key (Stat.id m)).

(** ** Keys and queries *)

(** [verify] installs the key; its result is only reported. *)
Definition handle_new_key (m : NK.New_key) : M unit :=
  if NK.id m =? node_id then skip
  else
    now ← currentTime;
    r ← get;
    '(p, _) ← lift (NK.verify (ps (nd r)) m now);
    node_to (λ n, mkNode p (last_new_key n) (cur_rid n) (draws n) (nonces n) (ticks n) (last_status n)).

Definition last_checkpoint (r : Rep.Replica) : Z :=
  Z.quot (last_executed (cn r)) checkpoint_interval * checkpoint_interval.

Definition handle_query_stable (m : SE.Query_stable) : M unit :=
  r ← get;
  ok ← lift (SE.query_stable_verify w_hmac_md w_char_signed (keys_of r) m);
  if ok : bool then
    p ← lift (of_option Undefined (i_to_p (principals_now r) (SE.qs_id m)));
    send_to (SE.qs_id m) (ESendReplyStable
      (SE.new_reply_stable w_hmac_md (last_checkpoint r) (last_prepared (cn r)) (SE.qs_nonce m) p) (SE.qs_id m))
  else send_last_new_key (SE.qs_id m).
End status.
End RStatus.
