(* ===== verification/ReplicaRecovery.v ===== *)
(** * ReplicaRecovery: the start of a recovery (src/src/Replica.cc, Request.cc)

    After a restart ([begin_recovery]) a replica asks the others for their stable
    checkpoints; with enough answers ([handle_reply_stable]) it bounds its own sequence
    numbers, asks the group for a recovery request and checks its state.  The default build
    does not define RECOVERY, so that no timer starts a recovery; the handlers are there
    all the same.  Writing the replica to a file and reading it back is in FilesReplica.v. *)
From S2P Require Import Prelude Node SeqLog Certificate Messages PreparedCert ReqQueue Support RepInfo.
From S2P Require Import PrePrepare Status NewKey StableEstimator ViewChange StateMonad World NewView ReplicaState ReplicaStatus.
Import Auth Rep RStatus.
#[local] Existing Instance Req.request_msg.

Module Recov.

(** [Request(r)] with the command [cmd], signed; [set_size] clears the bytes that align it. *)
Definition signed_request `{Config} `{World} (r : Z) (cmd : list Z) : outcome Req.Request :=
  _ ← th_assert (zlen cmd <=? to_u64 (PP.Max_message_size - Req.sizeof_Request_rep - w_sig_size node_id));
  let sz := Msg.ALIGNED_SIZE (Req.sizeof_Request_rep + zlen cmd + w_sig_size node_id) in
  _ ← th_assert (sz <=? PP.Max_message_size);
  let q d rest := Req.mkRequest 2 sz d (-1) (zlen cmd) node_id r rest in
  d ← Req.comp_digest w_digest_of (q Dig.zero cmd);
  let sg := NK.signature (Req.header (q d cmd)) in
  Ret (q d (cmd ++ sg ++ replicate (Z.to_nat (sz - Req.sizeof_Request_rep - zlen cmd - zlen sg)) 0)).

Section recovery.
Context `{Config} `{World} `{Parts}.

#[local] Abbreviation M := (ST Rep.Replica).

(** [Node::new_rid] *)
Definition new_rid : M Z :=
  r ← get;
  rid ← lift (NK.new_rid (w_secs (ticks (nd r))) (cur_rid (nd r)));
  _ ← node_to (λ n, mkNode (ps n) (last_new_key n) rid (draws n) (nonces n) (ticks n) (last_status n));
  mret rid.

Definition set_se (s : SE.Stable_estimator) (x : Recovery) : Recovery :=
  mkRecovery (recovering x) (vc_recovering x) (corrupt x) (recovery_point x) (rr x) (rr_reps x) (rr_views x) (qs x) s.
Definition set_corrupt (b : bool) (x : Recovery) : Recovery :=
  mkRecovery (recovering x) (vc_recovering x) b (recovery_point x) (rr x) (rr_reps x) (rr_views x) (qs x) (se x).
Definition set_point (n : Z) (x : Recovery) : Recovery :=
  mkRecovery (recovering x) (vc_recovering x) (corrupt x) n (rr x) (rr_reps x) (rr_views x) (qs x) (se x).
Definition set_rr (q : option Req.Request) (x : Recovery) : Recovery :=
  mkRecovery (recovering x) (vc_recovering x) (corrupt x) (recovery_point x) q (rr_reps x) (rr_views x) (qs x) (se x).

(** [for (i = b + 1; correct && i <= log.max_seqno(); i++)] *)
Definition none_above {A} (b max : Z) (fetch : Z → M A) (empty : A → bool) (correct : bool) : M bool :=
  fold_each (seqZ (b + 1) (max - b)) correct (λ c i, if (c : bool) then x ← fetch i; mret (empty x) else mret false).

Definition enforce_bound (b : Z) : M unit :=
  r ← get;
  let x := rc r in
  let c := cn r in
  _ ← assert_ (recovering x && (0 <=? SE.estimate (se x)));
  let correct := negb (corrupt x) && (last_stable c <=? b - max_out) && (seqno c <=? b) && (low_bound c <=? b) &&
    (last_prepared c <=? b) && (last_tentative_execute c <=? b) && (last_executed c <=? b) &&
    ((last_tentative_execute c =? last_executed c) || (last_tentative_execute c =? last_executed c + 1)) in
  correct ← none_above b (Log.max_seqno (plog (st r))) plog_fetch PCert.is_empty correct;
  correct ← none_above b (Log.max_seqno (clog (st r))) clog_fetch Cert.is_empty correct;
  correct ← none_above b (elog_max_seqno (elog (st r))) elog_fetch Cert.is_empty correct;
  known ← lift (SE.low_estimate (S (length (SE.vals (se x)))) (se x));
  _ ← when (negb correct)
    (_ ← count_to (λ c, mkCounters known known known known 0 0 (max_rec_n c));
     _ ← view_to (λ w, mkViews (v w) (cur_primary w) false (has_nv_state w));
     p ← lift (Log.clear pcert_clear (plog (st r)) (known + 1));
     k ← lift (Log.clear ccert_clear (clog (st r)) (known + 1));
     e ← lift (elog_clear (elog (st r)) known);
     store_to (λ s, set_elog e (set_clog k (set_plog p s))));
  '(w, b1) ← lift (vi_enforce_bound (vi r) b known (negb correct));
  _ ← vi_to w;
  let correct := correct && b1 in
  '(s, b2) ← lift (st_enforce_bound (state r) b known (negb correct));
  _ ← state_to s;
  recovery_to (set_corrupt (negb (correct && b2))).

(** What follows when the estimate is known. *)
Definition end_estimation (r : Rep.Replica) : M unit :=
  _ ← recovery_to (set_qs None);
  let point := SE.estimate (se (rc r)) + max_out in
  _ ← recovery_to (set_point point);
  _ ← enforce_bound point;
  rid ← new_rid;
  q ← lift (signed_request rid (Msg.le 8 point));
  _ ← recovery_to (set_rr (Some q));
  _ ← emit (ESendRequest q (cur_primary (vw r)));
  _ ← emit (ETimer Vtimer TStop);
  r ← get;
  '(s, l) ← lift (st_start_check (state r) (replies (st r)) (last_executed (cn r)));
  _ ← state_to s; _ ← send_others l;
  _ ← emit ELeave;
  _ ← with_rqueue (λ q, q ← RQ.clear q; Ret (q, tt));
  with_ro_rqueue (λ q, q ← RQ.clear q; Ret (q, tt)).

Definition handle_reply_stable (m : SE.Reply_stable) : M unit :=
  r ← get;
  match qs (rc r) with
  | Some q =>
      if SE.qs_nonce q =? SE.rs_nonce m then
        ok ← lift (SE.reply_stable_verify w_hmac_md w_char_signed (keys_of r) m);
        '(s, ready) ← lift (SE.add (se (rc r)) m false ok);
        _ ← recovery_to (set_se s);
        r ← get;
        when ready (end_estimation r)
      else skip
  | None => skip
  end.

(** The keys of the clients become zero. *)
Definition zero_client_key (i : Z) : M unit :=
  r ← get;
  p ← lift (of_option Undefined (i_to_p (ps (nd r)) i));
  now ← currentTime;
  node_to (λ n, mkNode (zset (ps n) i (set_out_key p zero_key (last_tstamp p + 1) now)) (last_new_key n) (cur_rid n)
                  (draws n) (nonces n) (ticks n) (last_status n)).

(** [recover] after [restart], which found the state corrupt or not. *)
Definition begin_recovery (bad : bool) : M unit :=
  _ ← recovery_to (λ x, mkRecovery true false bad Seqno_max None (Cert.clear (rr_reps x))
        (replicate (Z.to_nat num_replicas) 0) None (SE.clear (se x)));
  _ ← send_new_key;
  _ ← for_each (seqZ num_replicas (num_principals - num_replicas)) zero_client_key;
  r ← get;
  let nonce := w_nonce (nonces (nd r)) in
  _ ← node_to (λ n, mkNode (ps n) (last_new_key n) (cur_rid n) (draws n) (nonces n + 1) (ticks n) (last_status n));
  q ← lift (SE.new_query_stable w_hmac_md (keys_of r) nonce);
  _ ← recovery_to (set_qs (Some q));
  _ ← emit (ESendQuery q All_replicas);
  p ← lift (of_option Undefined (i_to_p (principals_now r) node_id));
  let m := SE.new_reply_stable w_hmac_md (last_checkpoint r) (last_prepared (cn r)) nonce p in
  '(s, _) ← lift (SE.add (se (rc r)) m true false);
  recovery_to (set_se s).
End recovery.
End Recov.
