(* ===== verification/Client.v ===== *)
(** * Client: the proxy of a client (src/src/Client.{h,cc}, libbyz.cc, Request.cc)

    A client sends its request to the primary, and to all replicas when it is sent again,
    and waits until the replies in one of two certificates are enough: [f + 1] committed
    or [2f + 1] tentative ones.  The fields of [Node] are those of [NodeState]; what the
    client does to the outside is appended to [out].  While [recv_reply] waits, [Node::recv]
    runs the handlers of expired timers: an [event] is a message that arrives or a timer that
    expires.  A request is a value, so that the application cannot change it
    while it is outstanding.  ADJUST_RTIMEOUT is not defined. *)
From stdpp Require Import gmap.
From S2P Require Import Prelude Node Bitmap Certificate CertLive Messages PrePrepare NewKey StateMonad World RepInfo ReplicaRecovery.
Import Auth NodeSt.

Module Client.
Section client.
Context `{Config} `{World}.

(** ** State *)
Inductive timer_id := Rtimer | Atimer.
Inductive timer_cmd := TStart | TStop | TRestart.

Inductive effect :=
| ESendRequest (q : Req.Request) (dst : Z)
| ESendNewKey (m : NK.New_key) (dst : Z)
| ETimer (t : timer_id) (c : timer_cmd).

Record Client := mkClient {
  nd : NodeState;                       (* the principals, the last new key, identifiers *)
  v : Z; cur_primary : Z;               (* Node::v, Node::cur_primary *)
  out_req : option Req.Request; out_rid : Z; n_retrans : Z; rtimeout : Z;
  t_reps : Cert.Certificate Reply; c_reps : Cert.Certificate Reply;
  out : list effect;
}.

Definition set_nd (n : NodeState) (c : Client) : Client :=
  mkClient n (v c) (cur_primary c) (out_req c) (out_rid c) (n_retrans c) (rtimeout c) (t_reps c) (c_reps c) (out c).
Definition set_view (x p : Z) (c : Client) : Client :=
  mkClient (nd c) x p (out_req c) (out_rid c) (n_retrans c) (rtimeout c) (t_reps c) (c_reps c) (out c).
Definition set_req (q : option Req.Request) (c : Client) : Client :=
  mkClient (nd c) (v c) (cur_primary c) q (out_rid c) (n_retrans c) (rtimeout c) (t_reps c) (c_reps c) (out c).
Definition set_rid (r : Z) (c : Client) : Client :=
  mkClient (nd c) (v c) (cur_primary c) (out_req c) r (n_retrans c) (rtimeout c) (t_reps c) (c_reps c) (out c).
Definition set_retrans (n : Z) (c : Client) : Client :=
  mkClient (nd c) (v c) (cur_primary c) (out_req c) (out_rid c) n (rtimeout c) (t_reps c) (c_reps c) (out c).
Definition set_reps (t k : Cert.Certificate Reply) (c : Client) : Client :=
  mkClient (nd c) (v c) (cur_primary c) (out_req c) (out_rid c) (n_retrans c) (rtimeout c) t k (out c).
Definition add_out (e : effect) (c : Client) : Client :=
  mkClient (nd c) (v c) (cur_primary c) (out_req c) (out_rid c) (n_retrans c) (rtimeout c) (t_reps c) (c_reps c)
    (out c ++ [e]).

#[local] Abbreviation M := (ST Client).

Definition emit (e : effect) : M unit := modify (add_out e).

Definition All_replicas : Z := -1.

(** [Node::send] *)
Definition send (q : Req.Request) (dst : Z) : M unit :=
  _ ← assert_ ((dst =? All_replicas) || ((0 <=? dst) && (dst <? num_principals)));
  emit (ESendRequest q dst).

(** [Node::new_rid] *)
Definition new_rid : M Z :=
  c ← get;
  '(n, rid) ← lift (NodeSt.new_rid (nd c));
  _ ← modify (set_nd n); mret rid.

(** [currentTime()] *)
Definition currentTime : M Z :=
  c ← get; _ ← modify (set_nd (bump_ticks (nd c))); mret (w_time (ticks (nd c))).

(** [Node::send_new_key] *)
Definition node_send_new_key : M unit :=
  rid ← new_rid;
  now ← currentTime;
  c ← get;
  let n := nd c in
  '(p, d, m) ← lift (NK.refresh_keys w_rand (replicate (Z.to_nat NK.room) 0) (ps n) (draws n) rid now);
  _ ← modify (set_nd (mkNode p (Some m) (cur_rid n) d (nonces n) (ticks n) (last_status n)));
  _ ← emit (ESendNewKey m All_replicas);
  _ ← emit (ETimer Atimer TStop);
  emit (ETimer Atimer TRestart).

(** [t_reps.clear(); c_reps.clear();] *)
Definition clear_reps (c : Client) : Client := set_reps (Cert.clear (t_reps c)) (Cert.clear (c_reps c)) c.

Definition send_new_key : M unit := _ ← node_send_new_key; modify clear_reps.

(** ** Sending *)
Definition send_request (q : Req.Request) : M bool :=
  c ← get;
  match out_req c with
  | None =>
      _ ← send q (cur_primary c);
      _ ← modify (set_req (Some q));
      _ ← modify (set_retrans 0);
      _ ← emit (ETimer Rtimer TStart);
      mret true
  | Some _ => mret false
  end.

Definition thresh : Z := 1.
Definition nk_thresh : Z := INT_MAX.
Definition nk_thresh_1 : Z := INT_MAX.

Definition retransmit : M unit :=
  c ← get;
  _ ← match out_req c with
      | Some q =>
          _ ← lift (if n_retrans c <? INT_MAX then Ret tt else Err Undefined);
          let n := n_retrans c + 1 in
          _ ← modify (set_retrans n);
          _ ← when ((n =? nk_thresh) || (Z.rem n nk_thresh_1 =? 0)) send_new_key;
          if thresh <? n then send q All_replicas else send q (cur_primary c)
      | None => skip
      end;
  emit (ETimer Rtimer TRestart).

(** ** Receiving *)

(** [Reply::verify] with the keys of the client. *)
Definition verified (c : Client) (r : Reply) : bool :=
  match reply_verify w_hmac_md w_char_signed w_digest_of (mkKeys (ps (nd c)) (λ _, 0)) r with
  | Ret b => b
  | Err _ => false
  end.

(** The certificate for tentative or committed replies. *)
Definition reps_of (t : bool) (c : Client) : Cert.Certificate Reply := if t then t_reps c else c_reps c.
Definition set_reps_of (t : bool) (x : Cert.Certificate Reply) (c : Client) : Client :=
  if t then set_reps x (c_reps c) c else set_reps (t_reps c) x c.

(** What follows when [rep] is returned. *)
Definition finish (rep : Reply) : M (option Reply) :=
  rid ← new_rid;
  _ ← modify (set_rid rid);
  _ ← emit (ETimer Rtimer TStop);
  _ ← modify (set_req None);
  _ ← modify clear_reps;
  _ ← modify (set_view (r_view rep) (Z.rem (r_view rep) num_replicas));
  mret (Some rep).

(** One reply in the loop of [recv_reply]; [None]: the loop goes on. *)
Definition on_reply (rep : Reply) : M (option Reply) :=
  c ← get;
  if negb (r_rid rep =? out_rid c) then mret None
  else
    let t := reply_is_tentative rep in
    let reps := reps_of t c in
    if Cert.is_complete reps then
      if negb (reply_full rep) || negb (verified c rep) then mret None
      else
        cv ← lift (of_option Undefined (Cert.cvalue reps));
        if negb (reply_match rep cv) then mret None else finish rep
    else
      '(_, reps) ← lift (Cert.add (verified c) reps rep);
      _ ← modify (set_reps_of t reps);
      if Cert.is_complete reps then
        cv ← lift (of_option Undefined (Cert.cvalue reps));
        if reply_full cv then
          let '(rep, reps) := Cert.cvalue_clear reps in
          _ ← modify (set_reps_of t reps);
          match rep with Some rep => finish rep | None => mret None end
        else mret None
      else mret None.

Inductive event :=
| EReply (r : Reply)       (* a message that Reply::convert accepts *)
| EOther                   (* any other message *)
| ERtimer | EAtimer.       (* the timers *)

Definition on_event (e : event) : M (option Reply) :=
  match e with
  | EReply r => on_reply r
  | EOther => mret None
  | ERtimer => _ ← retransmit; mret None
  | EAtimer => _ ← send_new_key; mret None
  end.

(** The result of [recv_reply] when the events are [l]. *)
Inductive received := NoRequest | Waiting | Received (r : Reply).

Fixpoint wait (l : list event) : M received :=
  match l with
  | [] => mret Waiting
  | e :: l => o ← on_event e; match o with Some r => mret (Received r) | None => wait l end
  end.

Definition recv_reply (l : list event) : M received :=
  c ← get; match out_req c with None => mret NoRequest | Some _ => wait l end.

Definition get_rid (c : Client) : Z := out_rid c.

Definition reset (c : Client) : Client :=
  mkClient (nd c) (v c) (cur_primary c) (out_req c) (out_rid c) (n_retrans c) 150 (t_reps c) (c_reps c) (out c).

(** The constructor on the node that [Node::Node] built; [n_retrans] is not initialised. *)
Definition make (n : NodeState) (old : Z) : outcome Client :=
  _ ← th_assert (negb (is_replica node_id));
  let c := mkClient n 0 0 None 0 old 150 (Cert.make (2 * max_faulty + 1)) (Cert.make (max_faulty + 1)) [] in
  '(_, c) ← (rid ← new_rid; _ ← modify (set_rid rid); _ ← send_new_key; emit (ETimer Atimer TStart)) c;
  Ret c.

(** ** The interface of the application (libbyz.cc) *)

(** [Request::store_command]: the room for the command. *)
Definition store_command : Z :=
  Msg.ALIGNED_SIZE PP.Max_message_size - Req.sizeof_Request_rep - Z.max (w_sig_size node_id) (auth_size node_id).

(** [Byz_send_request] with the command [cmd] in the buffer. *)
Definition Byz_send_request (cmd : list Z) : M bool :=
  c ← get;
  q ← lift (Recov.signed_request (get_rid c) cmd);
  send_request q.

(** [Byz_recv_reply]: the data of the reply. *)
Definition Byz_recv_reply (l : list event) : M (option (list Z)) :=
  o ← recv_reply l;
  match o with Received r => mret (Some (RI.reply_data r)) | _ => mret None end.

Definition Byz_invoke (cmd : list Z) (l : list event) : M (option (list Z)) :=
  ok ← Byz_send_request cmd;
  if ok : bool then Byz_recv_reply l else mret None.
End client.
End Client.
