(* ===== verification/ClientProps.v ===== *)
(** * ClientProps: what the client may rely on (src/src/Client.cc)

    The invariant of a client says that its certificates hold only replies to the
    outstanding request that arrived since it was sent and are authenticated with the present
    keys.  A reply that [recv_reply] returns is therefore backed by a quorum; and it is returned
    when enough correct replicas have answered, whatever the faulty ones send. *)
From stdpp Require Import gmap.
From S2P Require Import Prelude Node Bitmap Certificate CertLive Messages PrePrepare NewKey StateMonad World RepInfo ReplicaRecovery Client.
Import Auth NodeSt.

Module ClientProps.
Import Client.

(** ** Certificates that were cleared *)
Section cleared.
Context `{Config} `{!ConfigOk}.
#[local] Abbreviation cert := (Cert.Certificate Reply).

Definition empty (x : cert) : Prop :=
  Cert.cur_size x = 0 ∧ Cert.c x = None ∧ ∀ q, is_replica q = true → BM.bit (Cert.bmap x) q = false.

Lemma clear_empty (x : cert) : empty (Cert.clear x).
Proof.
  split; [done|]. split; [done|]. intros q [Hq _]%is_replica_spec. by apply BM.bit_clear.
Qed.

(** A cleared certificate is well-formed for all keys and all messages. *)
Lemma cleared_ok ver ver' hs hs' (x : cert) S : Cert.cert_ok ver hs x S → Cert.cert_ok ver' hs' (Cert.clear x) (λ _, ∅).
Proof.
  intros Hok. destruct (Cert.clear_ok _ _ _ _ Hok) as [H1 H2 H3 H4 H5 H6 H7 H8 H9].
  split; try done. intros i Hi. cbn in Hi. lia.
Qed.

Context (ver : Reply → bool) (P : Reply → Prop).

(** The messages that the slots hold. *)
Definition slots_from (x : cert) : Prop :=
  ∀ i y mg, zget (Cert.vals x) i = Some y → Cert.m y = Some mg → P mg.

Lemma slots_from_zset (l : list (Cert.Message_val Reply)) i y :
  (∀ j y mg, zget l j = Some y → Cert.m y = Some mg → P mg) → (∀ mg, Cert.m y = Some mg → P mg) →
  ∀ j y' mg, zget (zset l i y) j = Some y' → Cert.m y' = Some mg → P mg.
Proof.
  intros Hl Hy j y' mg E. rewrite zget_zset in E. case_decide; [injection E as <-; apply Hy|by eapply Hl].
Qed.

Lemma slots_from_clear (x : cert) hs S : Cert.cert_ok ver hs x S → slots_from (Cert.clear x).
Proof.
  intros Hok. destruct (Cert.clear_ok _ _ _ _ Hok) as [_ _ (Hm & _ & Hl) _ _ Hrest _ _ _].
  intros i y mg E Em. pose proof (zget_Some_lt _ _ _ E) as Hi. rewrite (Hrest i) in E by (cbn in *; lia).
  by injection E as <-.
Qed.

Lemma count_vote_slots (x : cert) mg r x' hs S : Cert.cert_ok ver hs x S → slots_from x → P mg →
  Cert.count_vote x mg = Ret (r, x') → slots_from x'.
Proof.
  intros Hok Hx Hmg E.
  assert (∀ old, P old → ∀ m, Some (Cert.keep_full old mg) = Some m → P m) as Hkeep.
  { intros old Ho m Hm. injection Hm as <-. by destruct (Cert.keep_full_cases old mg) as [-> | ->]. }
  unfold Cert.count_vote, Cert.val_at, Cert.msg_of in E. destruct (Cert.c x) as [i|].
  - apply outcome_bind_Ret in E as (y & Ey%of_option_Ret & E). apply outcome_bind_Ret in E as (cm & Ecm%of_option_Ret & E).
    injection E as _ <-. unfold slots_from. cbn. apply slots_from_zset; [exact Hx|]. cbn. apply Hkeep. by eapply Hx.
  - apply outcome_bind_Ret in E as ([i|] & _ & E).
    + apply outcome_bind_Ret in E as (y & Ey%of_option_Ret & E). apply outcome_bind_Ret in E as (cm & Ecm%of_option_Ret & E).
      injection E as _ <-. unfold slots_from. cbn. apply slots_from_zset; [exact Hx|]. cbn. apply Hkeep. by eapply Hx.
    + destruct (_ <? _) in E.
      * apply outcome_bind_Ret in E as (y & _ & E). injection E as _ <-. unfold slots_from. cbn.
        apply slots_from_zset; [exact Hx|]. cbn. intros m Hm. by injection Hm as <-.
      * injection E as _ <-. by eapply slots_from_clear.
Qed.

Lemma add_slots (x : cert) mg r x' hs S : Cert.cert_ok ver hs x S → slots_from x →
  (is_replica (r_replica mg) = true → ver mg = true → P mg) → Cert.add ver x mg = Ret (r, x') → slots_from x'.
Proof.
  intros Hok Hx Hmg E. unfold Cert.add in E. change (msg_id mg) with (r_replica mg) in E.
  destruct (is_replica (r_replica mg)) eqn:Hrep; [|by injection E as _ <-].
  apply outcome_bind_Ret in E as (t & _ & E). destruct t; [by injection E as _ <-|].
  apply outcome_bind_Ret in E as (a & _ & E). destruct (ver mg) eqn:Ever; rewrite ?andb_true_r, ?andb_false_r in E;
    [|by injection E as _ <-].
  destruct a.
  - apply outcome_bind_Ret in E as (u & _ & E). apply outcome_bind_Ret in E as (b & Eb & E).
    eapply (count_vote_slots (Cert.with_bmap x b)); [by eapply Cert.extra_vote_ok|exact Hx|by apply Hmg|exact E].
  - apply outcome_bind_Ret in E as (b & _ & E). by injection E as _ <-.
Qed.
End cleared.

(** ** The invariant *)
Section invariant.
Context `{Config} `{!ConfigOk} `{World}.

(** The thresholds of the two certificates. *)
Definition needed (t : bool) : Z := if t then 2 * max_faulty + 1 else max_faulty + 1.

(** The replies among [hs] that may be in the certificate. *)
Definition admissible (t : bool) (c : Client) (m : Reply) : Prop :=
  r_rid m = out_rid c ∧ reply_is_tentative m = t ∧ is_replica (r_replica m) = true.
#[global] Instance admissible_dec t c m : Decision (admissible t c m).
Proof. unfold admissible. apply _. Defined.
Definition counted (t : bool) (c : Client) (hs : list Reply) : list Reply := filter (admissible t c) hs.

Record cert_inv (t : bool) (c : Client) (hs : list Reply) (x : Cert.Certificate Reply) : Prop := {
  ci_ok : ∃ S, Cert.cert_ok (verified c) (counted t c hs) x S;
  ci_complete : Cert.complete x = needed t;
  ci_slots : slots_from (λ m, m ∈ counted t c hs ∧ verified c m = true) x;
}.

(** [hs]: the replies that arrived since the present identifier was chosen. *)
Record client_inv (hs : list Reply) (c : Client) : Prop := {
  cl_certs t : cert_inv t c hs (reps_of t c);
  cl_idle : out_req c = None → ∀ t, empty (reps_of t c);
}.

(** Two clients with the same keys and the same identifier. *)
Definition same_view (c c' : Client) : Prop := ps (nd c') = ps (nd c) ∧ out_rid c' = out_rid c.

Lemma same_view_verified c c' : same_view c c' → verified c' = verified c.
Proof. intros [E _]. unfold verified. by rewrite E. Qed.

Lemma same_view_counted t c c' hs : same_view c c' → counted t c' hs = counted t c hs.
Proof.
  intros [_ E]. unfold counted. apply list_filter_iff. intros m. unfold admissible. by rewrite E.
Qed.

Lemma cert_inv_same t c c' hs x : same_view c c' → cert_inv t c hs x → cert_inv t c' hs x.
Proof.
  intros Hs [[S Hok] Hcomp Hslots]. pose proof (same_view_verified c c' Hs) as Ever. pose proof (same_view_counted t c c' hs Hs) as Ecnt.
  split; [exists S; by rewrite Ever, Ecnt|done|by rewrite Ever, Ecnt].
Qed.

Lemma cert_inv_more t c hs x m : cert_inv t c hs x → cert_inv t c (m :: hs) x.
Proof.
  intros [[S Hok] Hcomp Hslots].
  assert (∀ y, y ∈ counted t c hs → y ∈ counted t c (m :: hs)) as Hm.
  { intros y [? ?]%list_elem_of_filter. apply list_elem_of_filter. split; [done|by right]. }
  split; [exists S; by eapply Cert.cert_ok_mono|done|].
  intros i y mg E Em. destruct (Hslots i y mg E Em) as [? ?]. auto.
Qed.

(** The certificate after [clear], with any keys and identifier. *)
Lemma cert_inv_clear t c c' hs hs' x : cert_inv t c hs x → cert_inv t c' hs' (Cert.clear x).
Proof.
  intros [[S Hok] Hcomp Hslots]. split; [exists (λ _, ∅); by eapply cleared_ok|done|by eapply slots_from_clear].
Qed.

(** A reply that [add] takes. *)
Lemma cert_inv_add t c hs x m r x' : cert_inv t c hs x → r_rid m = out_rid c → reply_is_tentative m = t →
  Cert.add (verified c) x m = Ret (r, x') → cert_inv t c (m :: hs) x'.
Proof.
  intros Hx Hrid Ht E. pose proof (cert_inv_more _ _ _ _ m Hx) as Hx'.
  destruct (is_replica (r_replica m)) eqn:Hrep; cycle 1.
  { unfold Cert.add in E. change (msg_id m) with (r_replica m) in E. rewrite Hrep in E. by injection E as _ <-. }
  assert (counted t c (m :: hs) = m :: counted t c hs) as Ec.
  { unfold counted. rewrite filter_cons, decide_True; [done|]. done. }
  destruct Hx as [[S Hok] Hcomp Hslots]. destruct (Cert.add_ok _ _ _ _ _ _ _ Hok E) as [S' Hok'].
  split; [exists S'; by rewrite Ec|by rewrite (Cert.add_complete _ _ _ _ _ E)|].
  rewrite Ec. eapply add_slots; [exact Hok| | |exact E].
  - intros i y mg Ey Em. destruct (Hslots i y mg Ey Em) as [? ?]. split; [by right|done].
  - intros _ Hv. split; [by left|done].
Qed.

(** The quorum behind the value of a complete certificate. *)
Definition backed (t : bool) (c : Client) (hs : list Reply) (d : Dig.Digest) (Q : gset Z) : Prop :=
  needed t ≤ Z.of_nat (size Q) ∧
  ∀ q, q ∈ Q → is_replica q = true ∧ ∃ m, m ∈ hs ∧ r_replica m = q ∧ verified c m = true ∧
    r_rid m = out_rid c ∧ reply_is_tentative m = t ∧ r_digest m = d.

Lemma cert_backed t c hs x : is_replica node_id = false → cert_inv t c hs x → Cert.is_complete x = true →
  ∃ v Q, Cert.cvalue x = Some v ∧ v ∈ hs ∧ admissible t c v ∧ verified c v = true ∧ backed t c hs (r_digest v) Q.
Proof.
  intros Hclient [[S Hok] Hcomp Hslots] Hc. unfold Cert.is_complete in Hc. rewrite Hcomp, Z.geb_leb in Hc. apply Z.leb_le in Hc.
  pose proof config_faulty as Hf. destruct (Cert.cvalue_backed (verified c) _ _ _ Hok) as (v & Q & Ev & Hsz & HQ).
  { unfold needed in Hc. destruct t; lia. }
  assert (v ∈ counted t c hs ∧ verified c v = true) as [Hin Hv].
  { unfold Cert.cvalue in Ev. destruct (Cert.c x) as [i|]; [|done].
    destruct (zget (Cert.vals x) i) as [y|] eqn:Ey; [|done]. by apply (Hslots i y v). }
  apply list_elem_of_filter in Hin as [Hadm Hin].
  exists v, Q. do 4 (split; [done|]). split; [lia|]. intros q Hq.
  destruct (HQ q Hq) as (m & Hm & Hid & Hval & Hauth). apply list_elem_of_filter in Hm as [(Hr & Ht & Hrep) Hm].
  change (msg_id m) with (r_replica m) in *. rewrite Hid in Hrep. split; [done|]. exists m.
  do 2 (split; [done|]). split; [|done].
  destruct Hauth as [[_ Hver]|Hself]; [done|]. congruence.
Qed.

(** ** The operations keep it *)

(** What the sending of new keys leaves alone. *)
Record frame (c c' : Client) : Prop := {
  fr_rid : out_rid c' = out_rid c; fr_req : out_req c' = out_req c;
  fr_reps t : reps_of t c' = reps_of t c;
  fr_view : v c' = v c; fr_primary : cur_primary c' = cur_primary c;
}.
#[global] Instance frame_refl : Reflexive frame.
Proof. done. Qed.
#[global] Instance frame_trans : Transitive frame.
Proof. intros a b c [] []. split; congruence. Qed.

Lemma frame_set_nd n : keeps frame (modify (set_nd n)).
Proof. apply keeps_modify. done. Qed.
Lemma frame_emit e : keeps frame (emit e).
Proof. apply keeps_modify. done. Qed.
#[local] Hint Resolve frame_set_nd frame_emit : keeps.

Lemma frame_new_rid : keeps frame new_rid.
Proof. unfold new_rid. keeps_tac. Qed.
#[local] Hint Resolve frame_new_rid : keeps.

Lemma frame_node_send_new_key : keeps frame node_send_new_key.
Proof. unfold node_send_new_key, currentTime. keeps_tac. Qed.

Lemma send_new_key_inv c u c' : send_new_key c = Ret (u, c') → ∃ c1, frame c c1 ∧ c' = clear_reps c1.
Proof.
  unfold send_new_key. intros (? & c1 & E1 & E2)%bind_inv. injection E2 as _ <-.
  exists c1. split; [by eapply frame_node_send_new_key|done].
Qed.

Lemma reps_of_clear t c : reps_of t (clear_reps c) = Cert.clear (reps_of t c).
Proof. by destruct t. Qed.

Lemma reps_of_set t t' x c : reps_of t (set_reps_of t' x c) = if bool_decide (t = t') then x else reps_of t c.
Proof. by destruct t, t'. Qed.

Lemma send_inv q dst c u c' : send q dst c = Ret (u, c') →
  (dst = -1 ∨ 0 ≤ dst < num_principals) ∧ c' = add_out (ESendRequest q dst) c.
Proof.
  unfold send, emit. intros (u' & c1 & [Ha%th_assert_Ret ->]%lift_inv & E)%bind_inv. injection E as _ <-.
  split; [|done]. apply orb_true_iff in Ha as [Ha|[Ha Hb]%andb_true_iff]; unfold All_replicas in *; zprop; lia.
Qed.

Definition inv_kept (hs : list Reply) (c c' : Client) : Prop := client_inv hs c → client_inv hs c'.
#[global] Instance inv_kept_refl hs : Reflexive (inv_kept hs).
Proof. by intros c Hc. Qed.
#[global] Instance inv_kept_trans hs : Transitive (inv_kept hs).
Proof. unfold inv_kept. intros a b c. auto. Qed.

Lemma inv_frame hs c c' : frame c c' → same_view c c' → inv_kept hs c c'.
Proof.
  intros [E1 E2 E3 _ _] Hs [Hc1 Hc2]. split.
  - intros t. rewrite E3. by eapply cert_inv_same.
  - intros E t. rewrite E3. apply Hc2. congruence.
Qed.

Lemma inv_cleared hs hs' c c' : (∀ t, reps_of t c' = Cert.clear (reps_of t c)) → client_inv hs c → client_inv hs' c'.
Proof.
  intros E [Hc1 _]. split; intros; rewrite E; [by eapply cert_inv_clear|apply clear_empty].
Qed.

Lemma kept_send_new_key hs : keeps (inv_kept hs) send_new_key.
Proof.
  intros c u c' (c1 & [_ _ E _ _] & ->)%send_new_key_inv. unfold inv_kept. apply inv_cleared.
  intros t. by rewrite reps_of_clear, E.
Qed.
#[local] Hint Resolve kept_send_new_key : keeps.

Lemma kept_modify hs f : (∀ c, frame c (f c) ∧ same_view c (f c)) → keeps (inv_kept hs) (modify f).
Proof. intros Hf. apply keeps_modify. intros c. destruct (Hf c). by apply inv_frame. Qed.

Lemma kept_retransmit hs : keeps (inv_kept hs) retransmit.
Proof.
  unfold retransmit, send, emit, assert_.
  keeps_with ltac:(idtac; lazymatch goal with |- keeps _ (modify _) => apply kept_modify; done end).
Qed.

Lemma send_request_inv q c b c' : send_request q c = Ret (b, c') →
  (b = false ∧ c' = c ∧ out_req c ≠ None) ∨
  (b = true ∧ out_req c = None ∧ (cur_primary c = -1 ∨ 0 ≤ cur_primary c < num_principals) ∧
   frame (set_req (Some q) c) c' ∧ ps (nd c') = ps (nd c) ∧ n_retrans c' = 0 ∧ nd c' = nd c ∧
   out c' = out c ++ [ESendRequest q (cur_primary c); ETimer Rtimer TStart]).
Proof.
  unfold send_request, emit. intros (? & ? & E1 & E)%bind_inv. injection E1 as <- <-.
  destruct (out_req c) eqn:Er; [injection E as <- <-; by left|]. right.
  apply bind_inv in E as (u & c1 & [Hdst ->]%send_inv & E). run_inv. do 3 (split; [done|]). do 4 (split; [done|]).
  cbn. by rewrite <- app_assoc.
Qed.

Lemma send_request_kept hs q c b c' : send_request q c = Ret (b, c') → client_inv hs c → client_inv hs c'.
Proof.
  intros [(_ & -> & _)|(_ & Hreq & _ & [E1 E2 E3 _ _] & Eps & _)]%send_request_inv [Hc1 Hc2]; [done|].
  split.
  - intros t. rewrite E3. eapply cert_inv_same; [split; [exact Eps|exact E1]|]. apply Hc1.
  - intros E. cbn in *. congruence.
Qed.

(** ** Receiving *)
Lemma finish_inv rep c o c' : finish rep c = Ret (o, c') →
  o = Some rep ∧ out_req c' = None ∧ (∀ t, reps_of t c' = Cert.clear (reps_of t c)) ∧
  v c' = r_view rep ∧ cur_primary c' = Z.rem (r_view rep) num_replicas.
Proof.
  unfold finish, emit. intros (rid & c1 & E1 & E)%bind_inv. apply frame_new_rid in E1 as [_ _ E1 _ _]. run_inv.
  split; [done|]. split; [done|]. split; [|done]. intros t. rewrite <- E1. by destruct t.
Qed.

(** The cases of [on_reply]. *)
Inductive reply_case (rep : Reply) (c : Client) (o : option Reply) (c' : Client) : Prop :=
| case_other : r_rid rep ≠ out_rid c → o = None → c' = c → reply_case rep c o c'
| case_dropped : r_rid rep = out_rid c → Cert.is_complete (reps_of (reply_is_tentative rep) c) = true →
    o = None → c' = c → reply_case rep c o c'
| case_late cv : r_rid rep = out_rid c → Cert.is_complete (reps_of (reply_is_tentative rep) c) = true →
    reply_full rep = true → verified c rep = true → Cert.cvalue (reps_of (reply_is_tentative rep) c) = Some cv →
    reply_match rep cv = true → finish rep c = Ret (o, c') → reply_case rep c o c'
| case_added r x : r_rid rep = out_rid c →
    Cert.add (verified c) (reps_of (reply_is_tentative rep) c) rep = Ret (r, x) →
    (Cert.is_complete x = true → ∃ cv, Cert.cvalue x = Some cv ∧ reply_full cv = false) →
    o = None → c' = set_reps_of (reply_is_tentative rep) x c → reply_case rep c o c'
| case_completed r x cv : r_rid rep = out_rid c →
    Cert.add (verified c) (reps_of (reply_is_tentative rep) c) rep = Ret (r, x) →
    Cert.is_complete x = true → Cert.cvalue x = Some cv → reply_full cv = true →
    finish cv (set_reps_of (reply_is_tentative rep) (Cert.clear x) c) = Ret (o, c') → reply_case rep c o c'.

Lemma on_reply_inv rep c o c' : on_reply rep c = Ret (o, c') → reply_case rep c o c'.
Proof.
  unfold on_reply. intros (? & ? & E1 & E)%bind_inv. injection E1 as <- <-.
  destruct (r_rid rep =? out_rid c) eqn:Erid; zprop; cbn [negb] in E; [|by injection E as <- <-; apply case_other].
  set (t := reply_is_tentative rep) in *.
  destruct (Cert.is_complete (reps_of t c)) eqn:Ec.
  - destruct (reply_full rep) eqn:Ef; cbn [negb orb] in E; [|by injection E as <- <-; apply case_dropped].
    destruct (verified c rep) eqn:Ev; cbn [negb] in E; [|by injection E as <- <-; apply case_dropped].
    apply bind_inv in E as (cv & c1 & [Ecv%of_option_Ret ->]%lift_inv & E).
    destruct (reply_match rep cv) eqn:Em; cbn [negb] in E; [|by injection E as <- <-; apply case_dropped].
    by eapply case_late.
  - apply bind_inv in E as ([r x] & c1 & [Ea ->]%lift_inv & E). apply bind_inv in E as (u & c2 & E1 & E).
    injection E1 as _ <-. destruct (Cert.is_complete x) eqn:Ecx; cycle 1.
    { injection E as <- <-. eapply case_added; [done|done|congruence|done|done]. }
    apply bind_inv in E as (cv & c3 & [Ecv%of_option_Ret ->]%lift_inv & E).
    destruct (reply_full cv) eqn:Ef; [|injection E as <- <-; eapply case_added; eauto].
    unfold Cert.cvalue_clear in E. destruct (Cert.c x) as [i|] eqn:Ei; [|by unfold Cert.cvalue in Ecv; rewrite Ei in Ecv].
    apply bind_inv in E as (u' & c4 & E1 & E). injection E1 as _ <-. rewrite Ecv in E.
    eapply case_completed; [done..|]. rewrite <- E. fold t. f_equal. by destruct t.
Qed.

Definition hear (e : event) (hs : list Reply) : list Reply := match e with EReply m => m :: hs | _ => hs end.

Lemma client_inv_more hs c m : client_inv hs c → client_inv (m :: hs) c.
Proof. intros [Hc1 Hc2]. split; [intros t; apply cert_inv_more, Hc1|done]. Qed.

(** The certificate of the reply is updated, the other one is not. *)
Lemma client_inv_set hs c t x : out_req c ≠ None → client_inv hs c → cert_inv t c hs x → client_inv hs (set_reps_of t x c).
Proof.
  intros Hreq [Hc1 Hc2] Hx. assert (same_view c (set_reps_of t x c)) as Hs by by destruct t.
  split.
  - intros t'. rewrite reps_of_set. apply (cert_inv_same _ _ _ _ _ Hs). case_bool_decide; [by subst|apply Hc1].
  - intros E. destruct t; by cbn in E.
Qed.

Lemma on_event_kept e hs c o c' : out_req c ≠ None → on_event e c = Ret (o, c') → client_inv hs c →
  match o with Some _ => client_inv [] c' | None => client_inv (hear e hs) c' end.
Proof.
  intros Hreq E Hinv. destruct e as [m| | |]; cbn [on_event hear] in *.
  - assert (∀ x, cert_inv (reply_is_tentative m) c (m :: hs) x → client_inv (m :: hs) (set_reps_of (reply_is_tentative m) x c))
      as Hset by (intros; apply client_inv_set; [done|by apply client_inv_more|done]).
    assert (∀ rep c1, client_inv (m :: hs) c1 → finish rep c1 = Ret (o, c') → o = Some rep ∧ client_inv [] c') as Hfin.
    { intros rep c1 Hc1 Ef. apply finish_inv in Ef as (-> & _ & Ef & _). split; [done|]. by eapply inv_cleared. }
    apply on_reply_inv in E as [_ -> ->|_ _ -> ->|cv _ _ _ _ _ _ E|r x Hrid Ea _ -> ->|r x cv Hrid Ea _ _ _ E].
    + by apply client_inv_more.
    + by apply client_inv_more.
    + apply Hfin in E as [-> ?]; [done|]. by apply client_inv_more.
    + apply Hset. eapply cert_inv_add; [apply Hinv|done..].
    + apply Hfin in E as [-> ?]; [done|]. apply Hset. eapply cert_inv_clear, cert_inv_add; [apply Hinv|done..].
  - by injection E as <- <-.
  - apply bind_inv in E as (u & c1 & E1 & E). injection E as <- <-. by eapply kept_retransmit.
  - apply bind_inv in E as (u & c1 & E1 & E). injection E as <- <-. by eapply kept_send_new_key.
Qed.

(** ** Reachable clients, with the replies to the outstanding request *)
Inductive reaches : list Reply → Client → Prop :=
| reach_make n old c : make n old = Ret c → reaches [] c
| reach_send hs c q b c' : reaches hs c → send_request q c = Ret (b, c') → reaches hs c'
| reach_wait hs c e c' : reaches hs c → out_req c ≠ None → on_event e c = Ret (None, c') → reaches (hear e hs) c'
| reach_answer hs c e r c' : reaches hs c → out_req c ≠ None → on_event e c = Ret (Some r, c') → reaches [] c'
| reach_reset hs c : reaches hs c → reaches hs (reset c).

Lemma make_inv n old c : make n old = Ret c → is_replica node_id = false ∧ client_inv [] c ∧ v c = 0 ∧ cur_primary c = 0.
Proof.
  unfold make, emit. intros ([] & Ha%th_assert_Ret & E)%outcome_bind_Ret. apply negb_true_iff in Ha. split; [done|].
  apply outcome_bind_Ret in E as ([u c1] & E & Ec). injection Ec as <-.
  apply bind_inv in E as (rid & c2 & E1 & E). apply frame_new_rid in E1 as [_ _ E1 Ev1 Ep1].
  apply bind_inv in E as (u1 & c3 & E2 & E). injection E2 as _ <-.
  apply bind_inv in E as (u2 & c4 & (c5 & [_ _ E3 Ev2 Ep2] & ->)%send_new_key_inv & E). injection E as _ <-.
  cbn in *. split; [|split; [congruence|congruence]].
  assert (∀ t, reps_of t (add_out (ETimer Atimer TStart) (clear_reps c5)) = Cert.clear (Cert.make (needed t))) as Er.
  { intros t. transitivity (reps_of t (clear_reps c5)); [by destruct t|]. rewrite reps_of_clear, E3.
    specialize (E1 t). destruct t; cbn in *; by rewrite E1. }
  split; [|intros _ t; rewrite Er; apply clear_empty]. intros t. rewrite Er.
  split.
  - exists (λ _, ∅). eapply (cleared_ok (λ _, false)). by apply Cert.make_ok.
  - cbn. pose proof config_faulty. rewrite (proj2 (Z.eqb_neq _ _)); [done|]. unfold needed. destruct t; lia.
  - eapply (slots_from_clear (λ _, false)). by apply Cert.make_ok.
Qed.

Lemma reaches_inv hs c : reaches hs c → is_replica node_id = false ∧ client_inv hs c.
Proof.
  induction 1 as [n old c E|hs c q b c' _ [Hc IH] E|hs c e c' _ [Hc IH] Hreq E|hs c e r c' _ [Hc IH] Hreq E|hs c _ [Hc IH]].
  - by destruct (make_inv n old c E) as (? & ? & _).
  - split; [done|]. by eapply send_request_kept.
  - split; [done|]. exact (on_event_kept e hs c None c' Hreq E IH).
  - split; [done|]. exact (on_event_kept e hs c (Some r) c' Hreq E IH).
  - split; [done|]. revert IH. apply inv_frame; [split; try done; by intros []|done].
Qed.

Lemma match_digest a b : reply_match a b = true → r_digest a = r_digest b.
Proof. unfold reply_match. intros [E _]%andb_true_iff. by apply Dig.operator_eq_spec. Qed.

(** A returned reply with the quorum behind it. *)
Lemma answer_backed hs c e rep c' : is_replica node_id = false → client_inv hs c → out_req c ≠ None →
  on_event e c = Ret (Some rep, c') →
  (r_rid rep = out_rid c ∧ reply_full rep = true ∧ verified c rep = true ∧
   ∃ Q, backed (reply_is_tentative rep) c (hear e hs) (r_digest rep) Q) ∧
  v c' = r_view rep ∧ cur_primary c' = Z.rem (r_view rep) num_replicas ∧ out_req c' = None.
Proof.
  intros Hclient Hinv Hreq E.
  destruct e as [m| | |]; cbn [on_event hear] in E |- *; [|by injection E|by apply bind_inv in E as (? & ? & _ & E); injection E..].
  apply on_reply_inv in E as [_ ? _|_ _ ? _|cv Hrid Hc Hf Hv Hcv Hm E|r x Hrid Ea _ ? _|r x cv Hrid Ea Hc Hcv Hf E]; [done|done| |done|].
  - apply finish_inv in E as ([= <-] & Ereq & _ & Ev & Ep). split; [|done]. do 3 (split; [done|]).
    destruct (cert_backed _ c (rep :: hs) _ Hclient (cert_inv_more _ _ _ _ rep (cl_certs _ _ Hinv _)) Hc) as (cv' & Q & Hcv' & _ & _ & _ & HQ).
    rewrite Hcv in Hcv'. injection Hcv' as <-. exists Q. by rewrite (match_digest _ _ Hm).
  - apply finish_inv in E as ([= <-] & Ereq & _ & Ev & Ep). split; [|done].
    pose proof (cert_inv_add _ _ _ _ _ _ _ (cl_certs _ _ Hinv _) Hrid eq_refl Ea) as Hx.
    destruct (cert_backed _ c (m :: hs) x Hclient Hx Hc) as (cv' & Q & Hcv' & _ & (Hr & Ht & _) & Hver & HQ).
    rewrite Hcv in Hcv'. injection Hcv' as <-. do 3 (split; [done|]). exists Q. by rewrite Ht.
Qed.
End invariant.

(** The data of an authenticated full reply have the digest that the reply names. *)
Lemma verified_data `{Config} `{World} c r : verified c r = true → reply_full r = true →
  w_digest_of (RI.reply_data r) = r_digest r.
Proof.
  unfold verified, reply_verify, RI.reply_data. intros Hv Hf. rewrite Hf in Hv. cbn [andb] in Hv.
  destruct (negb (is_replica _)) in Hv; [done|]. destruct (_ <? _) in Hv; [done|].
  destruct (Dig.operator_eq _ _) eqn:E in Hv; [|done]. by apply Dig.operator_eq_spec in E.
Qed.

(** Whether an idle client can send. *)
Lemma send_when_idle `{Config} `{World} c : out_req c = None →
  (cur_primary c < -1 → ∀ q, send_request q c = Err AssertFail) ∧
  (-1 ≤ cur_primary c < num_principals → ∀ q, ∃ c', send_request q c = Ret (true, c')).
Proof.
  intros Er. split; intros Hp q; unfold send_request, send, All_replicas; rewrite (get_step _ c), Er.
  - apply bind_fails, bind_fails. unfold assert_, lift.
    rewrite (proj2 (Z.eqb_neq _ _)), (proj2 (Z.leb_gt _ _)) by lia. done.
  - assert ((cur_primary c =? -1) || (0 <=? cur_primary c) && (cur_primary c <? num_principals) = true) as Ha.
    { apply orb_true_iff. destruct (decide (cur_primary c = -1)) as [->|]; [by left|]. right.
      apply andb_true_iff. split; [apply Z.leb_le|apply Z.ltb_lt]; lia. }
    rewrite Ha. by eexists.
Qed.

(** C7: a reply that the client returns is right.  It answers the outstanding request, is full
    and authenticated with the present keys, and its data have the digest of authenticated replies to
    this request by at least [f + 1] distinct replicas, or [2f + 1] when it is tentative, all
    received since the identifier of the request was chosen; hence a replica outside of any set of [f]
    replicas has sent this digest. *)
Theorem returned_reply_certified `{Config} `{!ConfigOk} `{World} hs c e rep c' :
  reaches hs c → out_req c ≠ None → on_event e c = Ret (Some rep, c') →
  r_rid rep = out_rid c ∧ reply_full rep = true ∧ verified c rep = true ∧
  w_digest_of (RI.reply_data rep) = r_digest rep ∧
  ∃ Q : gset Z, (if reply_is_tentative rep then 2 * max_faulty + 1 else max_faulty + 1) ≤ Z.of_nat (size Q) ∧
    (∀ q, q ∈ Q → is_replica q = true ∧ ∃ m, m ∈ hear e hs ∧ r_replica m = q ∧ verified c m = true ∧
       r_rid m = out_rid c ∧ reply_is_tentative m = reply_is_tentative rep ∧ r_digest m = r_digest rep) ∧
    ∀ F : gset Z, Z.of_nat (size F) ≤ max_faulty → ∃ q, q ∈ Q ∧ q ∉ F.
Proof.
  intros [Hclient Hinv]%reaches_inv Hreq E.
  destruct (answer_backed hs c e rep c' Hclient Hinv Hreq E) as [(Hrid & Hf & Hv & Q & Hsz & HQ) _].
  do 3 (split; [done|]). split; [by eapply verified_data|]. exists Q. split; [exact Hsz|]. split; [exact HQ|]. intros F HF.
  destruct (decide (Q ⊆ F)) as [Hsub|Hsub].
  - apply subseteq_size in Hsub. pose proof config_faulty. unfold needed in Hsz. destruct (reply_is_tentative rep); lia.
  - destruct (set_choose_L (Q ∖ F)) as [q Hq]; [|exists q; by apply elem_of_difference in Hq].
    intros E0. apply Hsub. intros q Hq. destruct (decide (q ∈ F)); [done|]. exfalso.
    apply (not_elem_of_empty (C := gset Z) q). rewrite <- E0. by apply elem_of_difference.
Qed.

(** The view of the returned reply, which one replica chooses, decides whether the client
    can go on.  The client takes it as its view and its remainder as the primary; when the
    remainder of a negative view is less than -1, every later [send_request] fails the assertion
    of [Node::send], and only then. *)
Theorem replied_view_stops_client `{Config} `{!ConfigOk} `{World} hs c e rep c' :
  reaches hs c → out_req c ≠ None → on_event e c = Ret (Some rep, c') →
  v c' = r_view rep ∧ cur_primary c' = Z.rem (r_view rep) num_replicas ∧
  (Z.rem (r_view rep) num_replicas < -1 → ∀ q, send_request q c' = Err AssertFail) ∧
  (-1 ≤ Z.rem (r_view rep) num_replicas → ∀ q, ∃ c'', send_request q c' = Ret (true, c'')).
Proof.
  intros [Hclient Hinv]%reaches_inv Hreq E.
  destruct (answer_backed hs c e rep c' Hclient Hinv Hreq E) as (_ & Ev & Ep & Er).
  do 2 (split; [done|]). pose proof (send_when_idle c' Er) as [Hbad Hgood]. rewrite Ep in *.
  split; [exact Hbad|]. intros Hrem. apply Hgood. split; [done|].
  pose proof config_principals. pose proof config_faulty. unfold num_replicas in *.
  pose proof (Z.rem_bound_abs (r_view rep) (3 * max_faulty + 1) ltac:(lia)). lia.
Qed.

(** ** A client of four replicas *)
Module SampleClient.
#[local] Existing Instance SampleNode.world.
#[local] Instance config : Config := SampleNode.config 4.
#[local] Instance config_ok : ConfigOk := SampleNode.config_ok 4 ltac:(lia).

Definition of_outcome {A} (d : A) (o : outcome A) : A := match o with Ret a => a | Err _ => d end.

Definition node : NodeState := mkNode sample_principals None 100 0 0 0 0.
Definition start : Client := Eval vm_compute in
  of_outcome (mkClient node 0 0 None 0 0 0 (Cert.make 0) (Cert.make 0) []) (make node 7).

Definition request : Req.Request := Req.mkRequest 2 64 Dig.zero (-1) 0 4 (out_rid start) (replicate 8 0).
Definition asked : Client := Eval vm_compute in (of_outcome (true, start) (send_request request start)).2.

(** A reply of replica [i] to the request, authenticated for the client. *)
Definition reply_of (i view : Z) (tent full : bool) : Reply :=
  let data := if full then [1; 2; 3] else [] in
  let r := mkReply (if tent then 1 else 0) 104 view (out_rid start) (w_digest_of [1; 2; 3]) i
    (if full then 3 else -1) data in
  let k := match zget (ps (nd start)) i with Some p => HmacModel.key (hmac_in p) | None => [] end in
  RI.with_body r (data ++ sample_md k (reply_bytes r)).

(** Replica 1 names the view -2. *)
Definition heard_one : Client := Eval vm_compute in
  (of_outcome (None, asked) (on_event (EReply (reply_of 1 (-2) false true)) asked)).2.
Definition answered : Client := Eval vm_compute in
  (of_outcome (None, asked) (on_event (EReply (reply_of 2 0 false false)) heard_one)).2.

Lemma heard_one_reaches : reaches [reply_of 1 (-2) false true] heard_one.
Proof.
  apply (reach_wait [] asked (EReply (reply_of 1 (-2) false true)));
    [|discriminate|vm_compute; reflexivity].
  apply (reach_send [] start request true); [|vm_compute; reflexivity].
  apply (reach_make node 7). vm_compute. reflexivity.
Qed.

Lemma answered_eq : on_event (EReply (reply_of 2 0 false false)) heard_one = Ret (Some (reply_of 1 (-2) false true), answered).
Proof. vm_compute. reflexivity. Qed.

Lemma returned_reply_certified_witness :
  let rep := reply_of 1 (-2) false true in
  let hs := [reply_of 2 0 false false; rep] in
  r_rid rep = out_rid heard_one ∧ reply_full rep = true ∧ verified heard_one rep = true ∧
  w_digest_of (RI.reply_data rep) = r_digest rep ∧
  ∃ Q : gset Z, (if reply_is_tentative rep then 2 * max_faulty + 1 else max_faulty + 1) ≤ Z.of_nat (size Q) ∧
    (∀ q, q ∈ Q → is_replica q = true ∧ ∃ m, m ∈ hs ∧ r_replica m = q ∧ verified heard_one m = true ∧
       r_rid m = out_rid heard_one ∧ reply_is_tentative m = reply_is_tentative rep ∧ r_digest m = r_digest rep) ∧
    ∀ F : gset Z, Z.of_nat (size F) ≤ max_faulty → ∃ q, q ∈ Q ∧ q ∉ F.
Proof.
  exact (returned_reply_certified [reply_of 1 (-2) false true] heard_one (EReply (reply_of 2 0 false false))
    (reply_of 1 (-2) false true) answered heard_one_reaches ltac:(discriminate) answered_eq).
Defined.

(** The client accepts the reply of replica 1, which names the view -2; it can send no request
    after that. *)
Lemma replied_view_stops_client_witness :
  v answered = -2 ∧ cur_primary answered = -2 ∧
  (-2 < -1 → ∀ q, send_request q answered = Err AssertFail) ∧
  (-1 ≤ -2 → ∀ q, ∃ c'', send_request q answered = Ret (true, c'')).
Proof.
  exact (replied_view_stops_client [reply_of 1 (-2) false true] heard_one (EReply (reply_of 2 0 false false))
    (reply_of 1 (-2) false true) answered heard_one_reaches ltac:(discriminate) answered_eq).
Defined.
End SampleClient.
End ClientProps.
