(* ===== verification/ClientLive.v ===== *)
(** * ClientLive: the client is answered (src/src/Client.cc)

    When the correct replicas have replied to the outstanding request, the client returns
    their reply: the replies of faulty replicas, messages that are no replies and
    retransmissions do not keep its certificates from becoming complete (CertLive.v), and a
    full reply ends the wait. *)
From stdpp Require Import gmap.
From S2P Require Import Prelude Node Bitmap Certificate CertLive Messages PrePrepare NewKey StateMonad World RepInfo ReplicaRecovery Client ClientProps.
Import Auth NodeSt.

Module ClientLive.
Import Client ClientProps.

Section live.
Context `{Config} `{!ConfigOk} `{World}.

(** The time of day fits the type of [new_tstamp]. *)
Context (Hclock : ∀ s, w_secs s ≤ INT_MAX).

Definition kind (t : bool) (m : Reply) : Prop := reply_is_tentative m = t.

(** Replies of one kind match when their digests are equal: the views are not compared. *)
Lemma kind_match t (a b : Reply) : kind t a → kind t b →
  msg_match a b = Ret (bool_decide (msg_val a = msg_val b)).
Proof.
  unfold kind. intros Ha Hb. cbn. f_equal. unfold reply_match.
  assert (negb (reply_is_tentative a) || reply_is_tentative b || (r_view a =? r_view b) = true) as ->.
  { rewrite Ha, Hb. by destruct t. }
  rewrite andb_true_r. destruct (Dig.operator_eq (r_digest a) (r_digest b)) eqn:E; symmetry.
  - apply bool_decide_eq_true. by apply Dig.operator_eq_spec.
  - apply bool_decide_eq_false. intros Ed. by rewrite (proj2 (Dig.operator_eq_spec _ _) Ed) in E.
Qed.

Lemma verified_other c m : is_replica node_id = false → verified c m = true → msg_id m ≠ node_id.
Proof.
  intros Hc Hv E. change (r_replica m = node_id) in E. unfold verified, reply_verify in Hv.
  rewrite E, Hc in Hv. done.
Qed.

Lemma new_rid_total n : ∃ n' r, NodeSt.new_rid n = Ret (n', r) ∧ ps n' = ps n.
Proof.
  unfold NodeSt.new_rid, NK.new_rid. destruct (_ =? _).
  - unfold NK.new_tstamp. rewrite (proj2 (Z.leb_le _ _)) by apply Hclock. cbn. by do 2 eexists.
  - cbn. by do 2 eexists.
Qed.

Lemma finish_total rep c : ∃ c', finish rep c = Ret (Some rep, c').
Proof.
  unfold finish, new_rid. destruct (new_rid_total (nd c)) as (n & r & E & _).
  unfold mbind, ST_bind, get, lift. rewrite E. cbn. by eexists.
Qed.

(** ** The votes that have been received *)
Definition ballots := bool → list (Z * Dig.Digest).

Record progress (F : gset Z) (d : Dig.Digest) (c : Client) (B : ballots) : Prop := {
  pr_follows t : CertLive.follows (verified c) (kind t) (needed t) d (reps_of t c) (B t);
  pr_fair t : CertLive.fair F d (B t);
}.

Context (F G : gset Z) (d : Dig.Digest) (t : bool).
Context (Hclient : is_replica node_id = false) (Hf1 : 1 ≤ max_faulty) (HF : Z.of_nat (size F) ≤ max_faulty).

(** Replica [q] has been counted. *)
Definition arrived (c : Client) (B : ballots) (q : Z) : Prop :=
  q ∈ (B t).*1 ∨ Cert.is_complete (reps_of t c) = true.

Definition sent_by (c : Client) (q : Z) (m : Reply) : Prop :=
  r_replica m = q ∧ r_rid m = out_rid c ∧ reply_is_tentative m = t ∧ verified c m = true.

Definition honest (c : Client) (m : Reply) : Prop :=
  r_rid m = out_rid c → verified c m = true → r_replica m ∈ F ∨ r_digest m = d.

(** The clients between two events of the wait. *)
Record waits (c c' : Client) (k : Z) : Prop := {
  wt_same : same_view c c';
  wt_req : out_req c' = out_req c; wt_primary : cur_primary c' = cur_primary c;
  wt_retrans : n_retrans c ≤ n_retrans c' ≤ n_retrans c + k;
}.

Lemma needed_ge t' : max_faulty + 1 ≤ needed t'.
Proof. unfold needed. destruct t'; lia. Qed.

Lemma progress_set c B t' x b :
  progress F d c B → CertLive.follows (verified c) (kind t') (needed t') d x b → CertLive.fair F d b →
  progress F d (set_reps_of t' x c) (λ t, if bool_decide (t = t') then b else B t).
Proof.
  intros [Hfo Hfa] Hx Hb. assert (verified (set_reps_of t' x c) = verified c) as Ev by by destruct t'.
  split; intros t0; [rewrite reps_of_set, Ev|]; case_bool_decide; subst; done.
Qed.

(** A reply either ends the wait with the right digest or is counted. *)
Lemma on_reply_live c B m : progress F d c B → honest c m →
  ∃ o c', on_reply m c = Ret (o, c') ∧
    match o with
    | Some r => r_digest r = d ∧ reply_full r = true
    | None => waits c c' 0 ∧ ∃ B', progress F d c' B' ∧ (∀ q, arrived c B q → arrived c' B' q) ∧
        ∀ q, is_replica q = true → sent_by c q m → arrived c' B' q
    end.
Proof.
  intros Hpr Hh. pose proof Hpr as [Hfo Hfa]. unfold on_reply. rewrite (get_step _ c).
  assert (waits c c 0) as Hw by (split; [done..|lia]).
  destruct (r_rid m =? out_rid c) eqn:Erid; zprop; cbn [negb]; cycle 1.
  { exists None, c. split; [done|]. split; [done|]. exists B. split; [done|]. split; [done|]. by intros q _ (_ & ? & _). }
  set (k := reply_is_tentative m).
  destruct (Cert.is_complete (reps_of k c)) eqn:Ec.
  - assert (∀ q, is_replica q = true → sent_by c q m → arrived c B q) as Harr.
    { intros q _ (_ & _ & Et & _). right. by rewrite <- Et. }
    assert (∃ o c', (mret None : ST Client (option Reply)) c = Ret (o, c') ∧
      match o with Some r => r_digest r = d ∧ reply_full r = true | None => waits c c' 0 ∧ ∃ B', progress F d c' B' ∧
        (∀ q, arrived c B q → arrived c' B' q) ∧ ∀ q, is_replica q = true → sent_by c q m → arrived c' B' q end) as Hdrop.
    { exists None, c. split; [done|]. split; [done|]. by exists B. }
    destruct (reply_full m) eqn:Ef; cbn [negb orb]; [|done]. destruct (verified c m) eqn:Ev; cbn [negb]; [|done].
    destruct (CertLive.follows_value _ _ d _ _ _ (needed_ge k) (Hfo k) Ec) as (cv & Ecv & Hk & Hd).
    rewrite (bind_step _ _ c cv c); [|apply lift_run; by rewrite Ecv].
    destruct (reply_match m cv) eqn:Em; cbn [negb]; [|done].
    destruct (finish_total m c) as (c' & Efin). exists (Some m), c'. split; [done|]. split; [|done].
    rewrite (match_digest _ _ Em). exact Hd.
  - destruct (CertLive.add_follows (verified c) (kind k) (kind_match k) (λ m, verified_other c m Hclient) F d HF Hf1
      (needed k) (reps_of k c) (B k) m (Hfo k) (Hfa k) eq_refl (Hh Erid)) as (r & x & Ea & Hx).
    pose proof (CertLive.cast_fair (verified c) F d (B k) m (Hfa k) (Hh Erid)) as Hb.
    rewrite (bind_step _ _ c (r, x) c); [|by apply lift_run].
    rewrite (bind_step _ _ c tt (set_reps_of k x c)); [|done].
    pose proof (progress_set c B k x _ Hpr Hx Hb) as Hpr'.
    assert (waits c (set_reps_of k x c) 0) as Hw'.
    { split; [by destruct k|by destruct k|by destruct k|]. destruct k; cbn; lia. }
    assert (∀ q, arrived c B q → arrived (set_reps_of k x c) (λ t, if bool_decide (t = k) then CertLive.cast (verified c) (B k) m else B t) q) as Hmono.
    { intros q [Hq|Hq]; unfold arrived; rewrite reps_of_set; case_bool_decide as Ek; [|by left| |by right].
      - left. subst. by apply CertLive.cast_mono.
      - rewrite Ek in Hq. congruence. }
    assert (∀ q, is_replica q = true → sent_by c q m →
      arrived (set_reps_of k x c) (λ t, if bool_decide (t = k) then CertLive.cast (verified c) (B k) m else B t) q) as Hnew.
    { intros q Hrep (Eq & _ & Et & Ev). left. rewrite bool_decide_true by done. rewrite <- Eq in *.
      exact (CertLive.cast_voter (verified c) (B k) m Hrep Ev). }
    destruct (Cert.is_complete x) eqn:Ecx; [|exists None, (set_reps_of k x c); split; [done|]; split; [done|]; by eexists].
    destruct (CertLive.follows_value _ _ d _ _ _ (needed_ge k) Hx Ecx) as (cv & Ecv & Hk & Hd).
    rewrite (bind_step _ _ _ cv (set_reps_of k x c)); [|apply lift_run; by rewrite Ecv].
    destruct (reply_full cv) eqn:Ef; [|exists None, (set_reps_of k x c); split; [done|]; split; [done|]; by eexists].
    unfold Cert.cvalue_clear. destruct (Cert.c x) as [i|] eqn:Ei; [|by unfold Cert.cvalue in Ecv; rewrite Ei in Ecv].
    rewrite (bind_step _ _ _ tt (set_reps_of k (Cert.clear x) (set_reps_of k x c))); [|done]. rewrite Ecv.
    destruct (finish_total cv (set_reps_of k (Cert.clear x) (set_reps_of k x c))) as (c' & Efin).
    exists (Some cv), c'. split; [done|]. by split.
Qed.

(** A retransmission changes neither the keys nor the certificates. *)
Lemma retransmit_total c q : out_req c = Some q → 0 ≤ n_retrans c → n_retrans c + 1 < INT_MAX →
  -1 ≤ cur_primary c < num_principals →
  ∃ c', retransmit c = Ret (tt, c') ∧ waits c c' 1 ∧ ∀ t, reps_of t c' = reps_of t c.
Proof.
  intros Er Hn Hmax Hp. unfold retransmit. rewrite (get_step _ c), Er.
  set (c1 := set_retrans (n_retrans c + 1) c).
  assert (∀ dst, -1 ≤ dst < num_principals → ∃ c2, send q dst c1 = Ret (tt, c2) ∧ c2 = add_out (ESendRequest q dst) c1) as Hsend.
  { intros dst Hd. unfold send, assert_. rewrite (bind_step _ _ c1 tt c1); [by eexists|].
    apply lift_run. assert ((dst =? All_replicas) || (0 <=? dst) && (dst <? num_principals) = true) as ->; [|done].
    apply orb_true_iff. destruct (decide (dst = -1)) as [->|]; [by left|right].
    apply andb_true_iff. split; [apply Z.leb_le|apply Z.ltb_lt]; lia. }
  assert (∃ dst, -1 ≤ dst < num_principals ∧
    (if thresh <? n_retrans c + 1 then send q All_replicas else send q (cur_primary c)) = send q dst) as (dst & Hd & Edst).
  { pose proof config_principals. pose proof config_faulty. unfold num_replicas in *.
    destruct (thresh <? _); [exists All_replicas; unfold All_replicas; split; [lia|done]|by exists (cur_primary c)]. }
  destruct (Hsend dst Hd) as (c2 & E2 & ->). exists (add_out (ETimer Rtimer TRestart) (add_out (ESendRequest q dst) c1)).
  split; [|split; [split; try done; cbn; lia|by intros []]].
  rewrite (bind_step _ _ c tt (add_out (ESendRequest q dst) c1)); [done|].
  rewrite (bind_step _ _ c tt c); [|apply lift_run; by rewrite (proj2 (Z.ltb_lt _ _)) by lia].
  rewrite (bind_step _ _ c tt c1); [|done]. rewrite (bind_step _ _ c1 tt c1); [by rewrite Edst|].
  assert ((n_retrans c + 1 =? nk_thresh) || (Z.rem (n_retrans c + 1) nk_thresh_1 =? 0) = false) as ->; [|done].
  unfold nk_thresh, nk_thresh_1. rewrite Z.rem_small, !(proj2 (Z.eqb_neq _ _)) by lia. done.
Qed.

Lemma waits_more c c1 c2 k k' : waits c c1 k → waits c1 c2 k' → waits c c2 (k + k').
Proof.
  intros [[H1a H1b] H2 H3 H4] [[H1a' H1b'] H2' H3' H4']. split; [split; congruence|congruence|congruence|lia].
Qed.

Lemma progress_same c c' B : same_view c c' → (∀ t, reps_of t c' = reps_of t c) → progress F d c B → progress F d c' B.
Proof.
  intros Hs Er [Hfo Hfa]. split; [|done]. intros t0. rewrite (same_view_verified c c' Hs), Er. apply Hfo.
Qed.

(** One event: the end of the wait, or progress. *)
Lemma on_event_live c B e : e ≠ EAtimer → (∀ m, e = EReply m → honest c m) →
  out_req c ≠ None → 0 ≤ n_retrans c → n_retrans c + 1 < INT_MAX → -1 ≤ cur_primary c < num_principals → progress F d c B →
  ∃ o c', on_event e c = Ret (o, c') ∧
    match o with
    | Some r => r_digest r = d ∧ reply_full r = true
    | None => waits c c' 1 ∧ ∃ B', progress F d c' B' ∧ (∀ q, arrived c B q → arrived c' B' q) ∧
        ∀ q m, is_replica q = true → e = EReply m → sent_by c q m → arrived c' B' q
    end.
Proof.
  intros He Hh Hreq Hn Hmax Hp Hpr. destruct e as [m| | |]; [..|done]; cbn [on_event].
  - destruct (on_reply_live c B m Hpr (Hh m eq_refl)) as (o & c' & E & Ho). exists o, c'. split; [done|].
    destruct o as [r|]; [done|]. destruct Ho as (Hw & B' & Hpr' & Hmono & Hnew). pose proof Hw as [H2 H3 H4 H5].
    split; [split; [done..|lia]|]. exists B'. split; [done|]. split; [done|]. intros q m' Hrep Em. injection Em as <-. by apply Hnew.
  - exists None, c. split; [done|]. split; [split; [done..|lia]|]. by exists B.
  - destruct (out_req c) as [q|] eqn:Er; [|done].
    destruct (retransmit_total c q Er Hn Hmax Hp) as (c' & E & Hw & Ereps). exists None, c'.
    split; [by rewrite (bind_step _ _ c tt c')|]. split; [done|]. exists B.
    split; [eapply progress_same; [apply Hw|done|done]|]. split; [|done].
    intros q0 [?|?]; [by left|right; by rewrite Ereps].
Qed.

Lemma honest_same c c' m : same_view c c' → honest c m → honest c' m.
Proof. intros Hs Hh. unfold honest. rewrite (same_view_verified c c' Hs), (proj2 Hs). exact Hh. Qed.

Lemma sent_by_same c c' q m : same_view c c' → sent_by c q m ↔ sent_by c' q m.
Proof. intros Hs. unfold sent_by. by rewrite (same_view_verified c c' Hs), (proj2 Hs). Qed.

(** A full reply with the right digest ends the wait on a complete certificate. *)
Lemma full_reply_ends c B m : progress F d c B → (∃ q, sent_by c q m) → reply_full m = true → r_digest m = d →
  Cert.is_complete (reps_of t c) = true → ∃ c', on_reply m c = Ret (Some m, c').
Proof.
  intros [Hfo Hfa] (q & _ & Hrid & Et & Ev) Ef Ed Ec. unfold on_reply.
  rewrite (get_step _ c), (proj2 (Z.eqb_eq _ _)), Et, Ec, Ef, Ev by done. cbn [negb orb].
  destruct (CertLive.follows_value _ _ d _ _ _ (needed_ge t) (Hfo t) Ec) as (cv & Ecv & Hk & Hd).
  rewrite (bind_step _ _ c cv c); [|apply lift_run; by rewrite Ecv].
  pose proof (kind_match t m cv Et Hk) as Em. cbn in Em. rewrite bool_decide_true in Em by (change (r_digest m = msg_val cv); congruence).
  injection Em as ->. apply finish_total.
Qed.

(** The rest of the wait; [l] holds the replies that are missing. *)
Lemma wait_live l : ∀ c B m,
  progress F d c B → out_req c ≠ None → 0 ≤ n_retrans c → n_retrans c + zlen l + 1 < INT_MAX →
  -1 ≤ cur_primary c < num_principals → EAtimer ∉ l → (∀ m, EReply m ∈ l → honest c m) →
  needed t ≤ Z.of_nat (size G) →
  (∀ q, q ∈ G → (q ∉ F) ∧ is_replica q = true ∧ (arrived c B q ∨ ∃ m, EReply m ∈ l ∧ sent_by c q m)) →
  (∃ q, sent_by c q m) → reply_full m = true → r_digest m = d →
  ∃ r c', wait (l ++ [EReply m]) c = Ret (Received r, c') ∧ r_digest r = d ∧ reply_full r = true.
Proof.
  induction l as [|e l IH]; intros c B m Hpr Hreq Hn Hmax Hp Hat Hh HG Harr Hm Hfull Hd; cbn [app wait].
  - assert (Cert.is_complete (reps_of t c) = true) as Ec.
    { destruct (Cert.is_complete (reps_of t c)) eqn:Ec; [done|]. rewrite <- Ec.
      eapply CertLive.follows_complete; [apply needed_ge|apply Hpr|]. etrans; [exact HG|].
      eapply CertLive.tally_reaches; [apply Hpr|]. intros q Hq.
      destruct (Harr q Hq) as (HqF & _ & [[Ha|Ha]|(m' & Hin & _)]); [done|congruence|by apply elem_of_nil in Hin]. }
    destruct (full_reply_ends c B m Hpr Hm Hfull Hd Ec) as (c' & E).
    exists m, c'. cbn [on_event]. by rewrite (bind_step _ _ c _ c' E).
  - assert (zlen (e :: l) = zlen l + 1) as El by (unfold zlen; cbn; lia). pose proof (zlen_nonneg l).
    destruct (on_event_live c B e) as (o & c1 & E & Ho); [|..|done|].
    + intros ->. apply Hat. by left.
    + intros m' ->. apply Hh. by left.
    + done.
    + lia.
    + lia.
    + done.
    + rewrite (bind_step _ _ c _ c1 E). destruct o as [r|]; [by exists r, c1|].
      destruct Ho as ([Hs Er Ep Hr] & B' & Hpr' & Hmono & Hnew).
      apply (IH c1 B'); [done|congruence|lia|lia|lia| | |done| | |done|done].
      * intros Hin. apply Hat. by right.
      * intros m' Hin. eapply honest_same; [done|]. apply Hh. by right.
      * intros q Hq. destruct (Harr q Hq) as (HqF & Hrep & Hq'). do 2 (split; [done|]).
        destruct Hq' as [Ha|(m' & Hin & Hsent)]; [left; by apply Hmono|].
        apply elem_of_cons in Hin as [Heq|Hin]; [left; by apply (Hnew q m')|].
        right. exists m'. split; [done|]. by apply (sent_by_same c c1).
      * destruct Hm as (q & Hq). exists q. by apply (sent_by_same c c1).
Qed.
End live.

(** The certificates of a client that has just sent its request. *)
Lemma progress_start `{Config} `{!ConfigOk} `{World} F d hs c : client_inv hs c →
  (∀ t, empty (reps_of t c)) → progress F d c (λ _, []).
Proof.
  intros Hinv He. split; intros t.
  - destruct (cl_certs _ _ Hinv t) as [[S Hok] Hc _]. destruct (He t) as (E1 & E2 & E3).
    by eapply CertLive.follows_start.
  - split; [constructor|]. by intros q w ?%elem_of_nil.
Qed.

(** C17: the client is answered.  Let at most [f] replicas be faulty, and let the other
    replies to the request, as far as they arrive, carry the digest [d].  When as many correct
    replicas as the certificate requires ([f + 1] committed or [2f + 1] tentative ones) have
    replied, a full reply with this digest lets [recv_reply] return a full reply
    with the digest [d], if it has not done so before; whatever else the client has received
    in between, in any order, and however often it has sent the request again.  The views of the replies are of no importance. *)
Theorem correct_replies_are_returned `{Config} `{!ConfigOk} `{World} (F G : gset Z) (t : bool) d hs c q c1 l m :
  (∀ s, w_secs s ≤ INT_MAX) → 1 ≤ max_faulty → Z.of_nat (size F) ≤ max_faulty →
  reaches hs c → send_request q c = Ret (true, c1) → EAtimer ∉ l → zlen l + 1 < INT_MAX →
  (∀ m, EReply m ∈ l → r_rid m = out_rid c1 → verified c1 m = true → r_replica m ∈ F ∨ r_digest m = d) →
  (if t then 2 * max_faulty + 1 else max_faulty + 1) ≤ Z.of_nat (size G) →
  (∀ q, q ∈ G → (q ∉ F) ∧ is_replica q = true ∧ ∃ m, EReply m ∈ l ∧ r_replica m = q ∧ r_rid m = out_rid c1 ∧
     reply_is_tentative m = t ∧ verified c1 m = true) →
  r_rid m = out_rid c1 → reply_is_tentative m = t → verified c1 m = true → reply_full m = true → r_digest m = d →
  ∃ r c', recv_reply (l ++ [EReply m]) c1 = Ret (Received r, c') ∧ r_digest r = d ∧ reply_full r = true.
Proof.
  intros Hclock Hf1 HF [Hclient Hinv]%reaches_inv E Hat Hlen Hh HG Harr Hrid Ht Hv Hfull Hd.
  pose proof (send_request_kept hs q c true c1 E Hinv) as Hinv1.
  destruct (send_request_inv q c true c1 E) as [(? & _)|(_ & Hidle & Hp & [E1 E2 E3 E4 E5] & _ & En & _)]; [done|].
  assert (progress F d c1 (λ _, [])) as Hpr.
  { eapply progress_start; [exact Hinv1|]. intros t'. rewrite E3. by apply (cl_idle _ _ Hinv). }
  assert (out_req c1 ≠ None) as Hreq by by rewrite E2.
  unfold recv_reply. rewrite (get_step _ c1). destruct (out_req c1) eqn:Er; [|done].
  apply (wait_live Hclock F G d t Hclient Hf1 HF l c1 (λ _, []) m); try done.
  - by rewrite Er.
  - lia.
  - lia.
  - rewrite E5. cbn. pose proof config_id. lia.
  - intros q' Hq'. destruct (Harr q' Hq') as (? & ? & m' & ? & ? & ? & ? & ?). do 2 (split; [done|]). right. by exists m'.
  - by exists (r_replica m).
Qed.

(** Replica 1 is faulty: it replies twice, with wrong digests. *)
Module SampleRun.
Import SampleClient.
#[local] Existing Instance SampleNode.world.
#[local] Existing Instance config.
#[local] Existing Instance config_ok.

Definition lie (n : Z) : Reply :=
  let r := reply_of 1 0 false false in
  RI.with_body (mkReply 0 (r_size r) 0 (r_rid r) (w_digest_of [n]) 1 (-1) [])
    (sample_md (match zget (ps (nd start)) 1 with Some p => HmacModel.key (hmac_in p) | None => [] end)
       (reply_bytes (mkReply 0 (r_size r) 0 (r_rid r) (w_digest_of [n]) 1 (-1) []))).

Definition events : list event :=
  [EReply (lie 9); EReply (reply_of 2 0 false false); ERtimer; EReply (lie 8); EOther; EReply (reply_of 3 7 false false)].

Lemma correct_replies_are_returned_witness :
  ∃ r c', recv_reply (events ++ [EReply (reply_of 2 0 false true)]) asked = Ret (Received r, c') ∧
    r_digest r = w_digest_of [1; 2; 3] ∧ reply_full r = true.
Proof.
  refine (correct_replies_are_returned {[1]} {[2; 3]} false (w_digest_of [1; 2; 3]) [] start request asked events
    (reply_of 2 0 false true) _ _ _ _ _ _ _ _ _ _ _ _ _ _ _).
  - intros s. cbn. lia.
  - cbn. lia.
  - vm_compute. discriminate.
  - apply (reach_make node 7). vm_compute. reflexivity.
  - vm_compute. reflexivity.
  - unfold events. intros Hin. repeat (apply elem_of_cons in Hin as [Hin|Hin]; [discriminate Hin|]). by apply elem_of_nil in Hin.
  - vm_compute. reflexivity.
  - unfold events. intros m Hin _ _.
    repeat (apply elem_of_cons in Hin as [Hin|Hin]; [first [discriminate Hin|injection Hin as ->;
      first [right; vm_compute; reflexivity|left; apply elem_of_singleton; reflexivity]]|]).
    by apply elem_of_nil in Hin.
  - vm_compute. discriminate.
  - intros q [->%elem_of_singleton| ->%elem_of_singleton]%elem_of_union.
    + split; [by intros ?%elem_of_singleton|]. split; [done|]. exists (reply_of 2 0 false false).
      split; [right; left|]. by vm_compute.
    + split; [by intros ?%elem_of_singleton|]. split; [done|]. exists (reply_of 3 7 false false).
      split; [do 5 right; left|]. by vm_compute.
  - reflexivity.
  - reflexivity.
  - vm_compute. reflexivity.
  - reflexivity.
  - vm_compute. reflexivity.
Defined.
End SampleRun.
End ClientLive.
