(* ===== verification/ClientRequest.v ===== *)
(** * ClientRequest: from the application to the replicas (src/src/libbyz.cc, Request.cc)

    What [Byz_send_request] makes of a command, and that every replica accepts it. *)
From S2P Require Import Prelude Node Messages PrePrepare NewKey StateMonad World RepInfo ReplicaRecovery Client ClientProps.
Import Auth NodeSt.

Module ClientReq.
Import Client ClientProps.

(** The fields of a signed request. *)
Lemma signed_request_inv (c1 : Config) (w1 : World) rid cmd q :
  Recov.signed_request (H := c1) (H0 := w1) rid cmd = Ret q →
  ∃ sz d pad, Req.comp_digest (@w_digest_of w1) (Req.mkRequest 2 sz Dig.zero (-1) (zlen cmd) (@node_id c1) rid cmd) = Ret d ∧
    sz = Msg.ALIGNED_SIZE (56 + zlen cmd + @w_sig_size w1 (@node_id c1)) ∧ sz ≤ PP.Max_message_size ∧
    let h := Req.header (Req.mkRequest 2 sz d (-1) (zlen cmd) (@node_id c1) rid cmd) in
    let sg := NK.signature (H := c1) (H0 := @w_pk w1) h in
    q = Req.mkRequest 2 sz d (-1) (zlen cmd) (@node_id c1) rid (cmd ++ sg ++ pad) ∧
    pad = replicate (Z.to_nat (sz - 56 - zlen cmd - zlen sg)) 0.
Proof.
  unfold Recov.signed_request. intros (u & _ & E)%outcome_bind_Ret.
  apply outcome_bind_Ret in E as (u' & Hsz%th_assert_Ret & E). apply outcome_bind_Ret in E as (d & Ed & E).
  injection E as <-. zprop. eexists _, d, _. split; [exact Ed|]. split; [done|]. split; [exact Hsz|]. by split.
Qed.

(** The digest covers the command and not what follows it. *)
Lemma comp_digest_tail digest_of e sz d od rp i r e' sz' d' rp' cmd tail : zlen cmd < 2 ^ 31 →
  Req.comp_digest digest_of (Req.mkRequest e sz d rp (zlen cmd) i r cmd) = Ret od →
  Req.comp_digest digest_of (Req.mkRequest e' sz' d' rp' (zlen cmd) i r (cmd ++ tail)) = Ret od.
Proof.
  intros Hlt. pose proof (zlen_nonneg cmd). unfold Req.comp_digest. cbn [Req.command_size Req.cid Req.rid Req.rest].
  assert (to_u64 (4 + 8 + zlen cmd) = 12 + zlen cmd) as ->.
  { unfold to_u64, wrapU. rewrite Z.mod_small by lia. lia. }
  assert (∀ t, zlen (Msg.le 4 i ++ Msg.le 8 r ++ cmd ++ t) = 12 + zlen cmd + zlen t) as Hl.
  { intros t. unfold zlen. rewrite !length_app, !Msg.le_length. lia. }
  assert (∀ t, take (Z.to_nat (12 + zlen cmd)) (Msg.le 4 i ++ Msg.le 8 r ++ cmd ++ t) = Msg.le 4 i ++ Msg.le 8 r ++ cmd) as Ht.
  { intros t. rewrite !app_assoc. apply take_app_length'. rewrite !length_app, !Msg.le_length. unfold zlen. lia. }
  pose proof (Hl []) as Hl0. pose proof (Ht []) as Ht0. rewrite app_nil_r in Hl0, Ht0.
  change (zlen (@nil Z)) with 0 in Hl0. pose proof (zlen_nonneg tail).
  rewrite Hl0, Hl, Ht0, Ht, !(proj2 (Z.leb_le _ _)) by lia. done.
Qed.

Lemma aligned_size_ge sz : 0 ≤ sz → sz ≤ Msg.ALIGNED_SIZE sz.
Proof.
  intros Hsz. unfold Msg.ALIGNED_SIZE, Msg.ALIGNMENT. destruct (Msg.ALIGNED sz); [lia|].
  pose proof (Z.rem_bound_pos sz 8 Hsz ltac:(lia)). lia.
Qed.

(** C19: the request that a client makes of a command is accepted.  If [Byz_send_request]
    does not fail, the request names the client and the outstanding identifier and carries the
    command; it is sent to the primary and is outstanding from then on, unless another
    one is, in which case nothing happens.  From the bytes of the message, also
    inside of a larger message, every node reads this request, and the
    check of its digest and signature succeeds. *)
Theorem client_request_accepted (c1 c2 : Config) (w1 w2 : World) cmd (c : Client) b c' :
  ConfigOk (H := c1) → same_group c1 c2 → NK.matching c1 c2 (@w_pk w1) (@w_pk w2) → @w_digest_of w2 = @w_digest_of w1 →
  @num_principals c1 ≤ INT_MAX → @node_id c1 ≠ @node_id c2 →
  0 ≤ out_rid c < 2 ^ 64 → Byz_send_request (H := c1) (H0 := w1) cmd c = Ret (b, c') →
  ∃ q, Req.well_formed q ∧ Req.cid q = @node_id c1 ∧ Req.rid q = out_rid c ∧ Req.command q = Ret cmd ∧
    Req.is_read_only q = false ∧
    (if b then out_req c' = Some q ∧ out c' = out c ++ [ESendRequest q (cur_primary c); ETimer Rtimer TStart]
     else c' = c ∧ out_req c ≠ None) ∧
    ∀ more, Req.convert 0 (Req.contents q ++ more) (Req.size q) = Ret (Some (Req.followed_by q more)) ∧
      Req.verify (H := c2) (@w_digest_of w2) (@w_sig_size w2) (@w_pk_verify w2) (Req.followed_by q more) = Ret true.
Proof.
  intros Hc1 [Hf Hnp] Hm Hdig Hnum Hne Hrid E. unfold Byz_send_request, get_rid in E.
  apply bind_inv in E as (? & ? & E1 & E). injection E1 as <- <-.
  apply bind_inv in E as (q & ? & [Eq ->]%lift_inv & E). exists q.
  apply signed_request_inv in Eq as (sz & d & pad & Ed & Hsize & Hmax & Eq & Hpad).
  pose proof (NK.k_pk _ _ _ _ Hm (@node_id c1)) as Hpk. pose proof (NK.k_sig _ _ _ _ Hm) as Hsig.
  pose proof (zlen_nonneg cmd) as Hcmd. unfold PP.Max_message_size in Hmax.
  set (h := Req.header _) in Eq, Hpad. set (sg := NK.signature h) in *. cbn zeta in Eq, Hpad.
  assert (zlen sg = @NK.sig_size (@w_pk w1) (@node_id c1)) as Hsg.
  { apply NK.signature_length; [done|apply (NK.k_sign _ _ _ _ Hm)|done]. }
  unfold w_sig_size in Hsize. rewrite <- Hsg in Hsize. pose proof (zlen_nonneg sg) as Hsg0.
  pose proof (aligned_size_ge (56 + zlen cmd + zlen sg) ltac:(lia)) as Hge. rewrite <- Hsize in Hge.
  destruct (Msg.aligned_size_spec (56 + zlen cmd + zlen sg)) as [Hb1 Hb2]; [lia|]. rewrite <- Hsize in Hb1, Hb2.
  pose proof (config_id (ConfigOk := Hc1)) as Hid. unfold INT_MAX in Hnum.
  rewrite Eq in *. clear Eq q. set (q := Req.mkRequest 2 sz d (-1) (zlen cmd) (@node_id c1) (out_rid c) (cmd ++ sg ++ pad)) in *.
  assert (zlen (cmd ++ sg ++ pad) = sz - 56) as Hrest.
  { rewrite Hpad. unfold zlen in *. rewrite !length_app, length_replicate. lia. }
  assert (Req.well_formed q) as Hwf by (split; cbn [Req.extra Req.size Req.replier Req.command_size Req.cid Req.rid Req.rest q]; first [exact Hrest|lia]).
  split; [exact Hwf|]. do 2 (split; [done|]). split; [|split; [done|split]].
  - unfold Req.command. cbn. rewrite Hrest, !(proj2 (Z.leb_le _ _)) by lia. cbn. f_equal.
    unfold zlen. rewrite Nat2Z.id. apply take_app_length.
  - apply send_request_inv in E as [(-> & -> & ?)|(-> & _ & _ & [_ Er _ _ _] & _ & _ & _ & Eo)]; [done|by split].
  - intros more. split; [apply Req.convert_contents; [done|done|cbn [Req.size q]; lia]|]. rewrite Hdig.
    unfold Req.verify, Req.followed_by. cbn [Req.extra Req.size Req.od Req.replier Req.command_size Req.cid Req.rid Req.rest q].
    assert (zlen cmd < 2 ^ 31) as Hc31 by lia.
    rewrite <- (app_assoc cmd), (comp_digest_tail _ _ _ _ d _ _ _ _ _ _ _ _ _ Hc31 Ed).
    cbn [mbind outcome_bind]. rewrite <- Hnp, (proj2 (Z.leb_le 0 _)), (proj2 (Z.ltb_lt _ (@num_principals c1))) by lia.
    rewrite (proj2 (Dig.operator_eq_spec d d) eq_refl). cbn [andb]. unfold w_sig_size.
    rewrite (NK.k_sig2 _ _ _ _ Hm), <- Hsg.
    assert (to_u64 (sz - to_u64 (Req.sizeof_Request_rep + zlen cmd)) = sz - 56 - zlen cmd) as ->.
    { unfold to_u64, wrapU, Req.sizeof_Request_rep. rewrite (Z.mod_small (56 + _)) by lia. rewrite Z.mod_small by lia. lia. }
    rewrite (proj2 (Z.leb_le (zlen sg) _)), (proj2 (Z.leb_le 0 (zlen cmd))) by lia.
    assert (zlen (cmd ++ (sg ++ pad) ++ more) = sz - 56 + zlen more) as ->.
    { rewrite app_assoc. unfold zlen in *. rewrite length_app. lia. }
    pose proof (zlen_nonneg more). rewrite (proj2 (Z.leb_le (zlen cmd) _)) by lia. cbn [andb].
    assert (drop (Z.to_nat (zlen cmd)) (cmd ++ (sg ++ pad) ++ more) = sg ++ (pad ++ more)) as ->.
    { unfold zlen. rewrite Nat2Z.id, drop_app_length. by rewrite <- app_assoc. }
    by apply NK.signature_verifies.
Qed.

(** A client and a replica with the public-key operations of NewKey.v. *)
Definition sample_world : World := {|
  w_hmac_md := sample_md; w_char_signed := true; w_digest_of := PP.sample_digest_of;
  w_pk := NK.sample_public; w_non_det := λ _, replicate 8 3; w_max_nd_bytes := 8;
  w_clock_mhz := 1000; w_time := λ n, n; w_secs := λ _, 1; w_rand := NK.sample_rand;
  w_nonce := λ n, n; w_lrand := λ n, n |}.

Definition sample_sent : bool * Client := Eval vm_compute in
  SampleClient.of_outcome (false, SampleClient.start)
    (Byz_send_request (H := SampleNode.config 4) (H0 := sample_world) [7; 8; 9] SampleClient.start).

Lemma client_request_accepted_witness :
  ∃ q, Req.cid q = 4 ∧ Req.command q = Ret [7; 8; 9] ∧ out_req sample_sent.2 = Some q ∧
    Req.convert 0 (Req.contents q) (Req.size q) = Ret (Some (Req.followed_by q [])) ∧
    Req.verify (H := SampleNode.config 2) (@w_digest_of sample_world) (@w_sig_size sample_world)
      (@w_pk_verify sample_world) (Req.followed_by q []) = Ret true.
Proof.
  destruct (client_request_accepted (SampleNode.config 4) (SampleNode.config 2) sample_world sample_world [7; 8; 9]
    SampleClient.start sample_sent.1 sample_sent.2) as (q & _ & Hcid & _ & Hcmd & _ & Hout & Hmore).
  - exact (SampleNode.config_ok 4 ltac:(lia)).
  - split; reflexivity.
  - exact (NK.sample_matching (SampleNode.config 4) (SampleNode.config 2)).
  - reflexivity.
  - vm_compute. discriminate.
  - discriminate.
  - vm_compute. split; [discriminate|reflexivity].
  - vm_compute. reflexivity.
  - exists q. destruct (Hmore []) as [Hc Hv]. rewrite app_nil_r in Hc.
    split; [exact Hcid|]. split; [exact Hcmd|]. split; [exact (proj1 Hout)|]. split; [exact Hc|exact Hv].
Defined.
End ClientReq.
