(* ===== verification/Replica.v ===== *)
(** * Replica: the handlers of the normal case (src/src/Replica.cc)

    The methods follow the code from the leaves to the handlers.  [mark_stable] and
    [process_new_view] call each other (the latter through [View_info::mark_stable]);
    the recursion carries fuel, and so does the loop of [execute_committed].  The
    properties are in the files after this one. *)
From S2P Require Import Prelude Node SeqLog KMax Certificate Messages PreparedCert ReqQueue Support RepInfo.
From S2P Require Import PrePrepare Status NewKey StableEstimator ViewChange StateMonad World NewView ReplicaState.
From S2P Require Import ReplicaStatus ReplicaRecovery.
Import Auth Rep RStatus Recov.
#[local] Existing Instance Req.request_msg.

Module Replica.
Section replica.
Context `{Config} `{World} `{Parts}.

#[local] Abbreviation M := (ST Rep.Replica).

(** ** Sending *)
Definition congestion_window : Z := 1.

Definition send_pre_prepare : M unit :=
  r ← get;
  _ ← assert_ (is_primary r);
  let c := cn r in
  if (0 <? RQ.size (rqueue (st r))) && (seqno c + 1 <=? last_executed c + congestion_window) &&
     (seqno c + 1 <=? max_out + last_stable c) && has_new_view r
  then
    _ ← count_to (λ c, set_seqno (seqno c + 1) c);
    let n := seqno c + 1 in
    pp ← with_rqueue (λ q, '(pp, q) ← PP.fill w_hmac_md w_digest_of w_non_det w_max_nd_bytes
                             (S (Z.to_nat (RQ.size q))) (principals_now r) PP.Max_message_size (v (vw r)) n q;
                           Ret (q, pp));
    _ ← emit (ESendPp pp All_replicas);
    now ← currentTime;
    _ ← with_plog n (λ x, PCert.add_mine_pp (prim r) x pp now);
    skip
  else skip.

(** [in_w] and [in_wv] on the numbers of a message and its verification. *)
Definition in_w (ms : Z) (verify : Rep.Replica → bool) : M bool :=
  r ← get;
  let offset := ms - last_stable (cn r) in
  if (0 <? offset) && (offset <=? max_out) then mret true
  else
    _ ← when ((max_out <? offset) && verify r) send_status;
    mret false.

Definition in_wv (ms mv : Z) (verify : Rep.Replica → bool) : M bool :=
  r ← get;
  let offset := ms - last_stable (cn r) in
  if (0 <? offset) && (offset <=? max_out) && (mv =? v (vw r)) then mret true
  else
    _ ← when (((v (vw r) <? mv) || (max_out <? offset)) && verify r) send_status;
    mret false.

(** [send_prepare(pc)] on the certificate of [n]. *)
Definition send_prepare (n : Z) : M unit :=
  r ← get;
  pc ← plog_fetch n;
  if bool_decide (PCert.my_prepare pc = None) && PCert.is_pp_complete pc then
    pp ← lift (of_option Undefined (PCert.pre_prepare pc));
    p ← lift (new_prepare w_hmac_md (keys_of r) (v (vw r)) (PP.seqno pp) (PP.digest pp) None);
    _ ← emit (ESendPrepare p All_replicas);
    now ← currentTime;
    _ ← with_plog n (λ x, PCert.add_mine_prepare (prim r) x p now);
    skip
  else skip.

(** ** Which batches are prepared and committed *)
Definition prepared (n : Z) : M (option PP.Pre_prepare) :=
  pc ← plog_fetch n;
  b ← lift (PCert.is_complete pc);
  mret (if b : bool then PCert.pre_prepare pc else None).

Definition committed (n : Z) : M (option PP.Pre_prepare) :=
  pp ← prepared n;
  c ← clog_fetch n;
  mret (if Cert.is_complete c then pp else None).

(** ** Execution *)

(** The upcall, with the state of the service that it changes. *)
Definition exec_command (n : Z) (q : Req.Request) (cmd : list Z) (nd : option (list Z)) (ro : bool) : M (list Z * Z) :=
  r ← get;
  let '(s, o, error) := st_exec (state r) cmd nd (Req.cid q) ro in
  _ ← state_to s;
  _ ← emit (EExec n (Req.cid q) (Req.rid q) ro);
  mret (o, error).

Definition replies_to (x : RI.Rep_info) : M unit := store_to (set_replies x).

(** A reply is sent in full if it is short, or if this replica was chosen. *)
Definition full_reply (q : Req.Request) (sz : Z) : bool :=
  (sz <? 50) || (Req.replier q =? node_id) || (Req.replier q <? 0).

Definition execute_read_only (req : Req.Request) : M bool :=
  r ← get;
  if (last_tentative_execute (cn r) =? last_executed (cn r)) && negb (in_fetch_state (state r)) &&
     negb (in_check_state (state r))
  then
    cmd ← lift (Req.command req);
    cp ← lift (of_option Undefined (i_to_p (principals_now r) (Req.cid req)));
    '(o, error) ← exec_command 0 req cmd None true;
    _ ← when (error =? 0)
      (let rep := RI.new_full_reply (v (vw r)) (Req.rid req) node_id in
       rep ← lift (reply_authenticate w_hmac_md w_digest_of cp PP.Max_message_size (RI.with_body rep o) (zlen o) true);
       emit (ESendReply (if full_reply req (zlen o) then rep
             else RI.new_empty_reply w_hmac_md (v (vw r)) (Req.rid req) node_id (r_digest rep) cp true) (Req.cid req)));
    mret true
  else mret false.

(** [for (m = ro_rqueue.remove(); m != 0; m = ro_rqueue.remove())] *)
Fixpoint drain_loop (fuel : nat) : M unit :=
  match fuel with
  | O => fail OutOfFuel
  | S fuel =>
      o ← with_ro_rqueue RQ.remove;
      match o with
      | None => skip
      | Some m => _ ← execute_read_only m; drain_loop fuel
      end
  end.
Definition drain_read_only : M unit :=
  r ← get; drain_loop (S (Z.to_nat (RQ.size (ro_rqueue (st r))))).

(** [Rep_info::send_reply]; its reply to this node itself is handled by [handle_reply]
    below, which [own] stands for. *)
Definition send_reply (own : Reply → M unit) (cid : Z) (tentative : bool) : M unit :=
  r ← get;
  now ← currentTime;
  '(x, e) ← lift (RI.send_reply w_hmac_md w_clock_mhz (principals_now r) (replies (st r)) cid (v (vw r)) node_id
                    tentative now);
  _ ← replies_to x;
  match e with
  | Some (RI.ESend m pid) => emit (ESendReply m pid)
  | Some (RI.EHandle m) => own m
  | None => skip
  end.

Definition le8 (n : Z) : list Z := Msg.le 8 n.

(** The answer to a request of the batch that is being executed: a recovery request is answered by
    its number, unless it is malformed ([None]: the code goes on to the next request); any other
    request is executed. *)
Definition run_request (pp : PP.Pre_prepare) (req : Req.Request) : M (option (list Z)) :=
  r ← get;
  let n := last_tentative_execute (cn r) in
  '(o, len) ← lift (PP.choices pp);
  if is_replica (Req.cid req) && Req.is_recovery req then
    if negb (Req.command_size req =? 8) then mret None
    else
      _ ← when (negb (Req.cid req =? node_id)) send_new_key;
      _ ← count_to (set_max_rec_n n);
      mret (Some (le8 n))
  else
    inb ← lift (Req.command req);
    nd ← lift (PP.bytes_at pp o len);
    '(outb, _) ← exec_command n req inb (Some nd) false;
    mret (Some outb).

Definition execute_request (own : Reply → M unit) (committed : bool) (pp : PP.Pre_prepare)
    (req : Req.Request) : M unit :=
  let cid := Req.cid req in
  r ← get;
  last ← lift (RI.req_id (replies (st r)) cid);
  if Req.rid req <=? last then send_reply own cid true
  else
    '(x, _) ← lift (RI.new_reply (replies (st r)) cid);
    _ ← replies_to x;
    o ← run_request pp req;
    match o with
    | None => skip
    | Some outb =>
        r ← get;
        x ← lift (RI.end_reply w_digest_of (replies (st r)) cid (Req.rid req) outb);
        _ ← replies_to x;
        when (negb (zlen outb =? 0) && negb (is_replica cid))
          (if full_reply req (zlen outb) then send_reply own cid (negb committed)
           else
             r ← get;
             d ← lift (RI.digest (replies (st r)) cid);
             p ← lift (of_option Undefined (i_to_p (principals_now r) cid));
             emit (ESendReply (RI.new_empty_reply w_hmac_md (v (vw r)) (Req.rid req) node_id d p (negb committed)) cid))
    end.

Definition checkpoint (n : Z) : M unit :=
  r ← get; s ← lift (st_checkpoint (state r) (replies (st r)) n); state_to s.

Definition execute_prepared (own : Reply → M unit) (committed : bool) : M unit :=
  r ← get;
  let c := cn r in
  let n := last_executed c + 1 in
  if (last_tentative_execute c <? n) && (last_executed c <? last_stable c + max_out) &&
     negb (in_fetch_state (state r)) && negb (in_check_state (state r)) && has_new_view r
  then
    o ← prepared n;
    match o with
    | Some pp =>
        if PP.view pp =? v (vw r) then
          _ ← count_to (λ c, set_tentative (last_executed c + 1) c);
          _ ← assert_ (PP.seqno pp =? n);
          reqs ← lift (PP.Requests_iter pp);
          _ ← for_each reqs (execute_request own committed pp);
          r ← get;
          when (Z.rem (last_executed (cn r) + 1) checkpoint_interval =? 0) (checkpoint (last_executed (cn r) + 1))
        else skip
    | None => skip
    end
  else skip.

(** ** Recovery *)

(** [update_max_rec]: the replies to recovery requests hold the batch of the request. *)
Definition update_max_rec : M unit :=
  change ← fold_each (seqZ 0 num_replicas) false (λ change i,
    r ← get;
    m ← lift (RI.reply (replies (st r)) i);
    let nr := wrapS 64 (rd 0 8 (r_body m)) in
    if (r_reply_size m =? 8) && (max_rec_n (cn r) <? nr)
    then _ ← count_to (set_max_rec_n nr); mret true
    else mret change);
  when change send_new_key.

Definition try_end_recovery : M unit :=
  r ← get;
  when (recovering (rc r) && (recovery_point (rc r) <=? last_stable (cn r)) && negb (in_check_state (state r)) &&
        Cert.is_complete (rr_reps (rc r)))
    (_ ← emit EJoin;
     _ ← recovery_to (λ x, mkRecovery false (vc_recovering x) (corrupt x) (recovery_point x) (rr x) (rr_reps x) (rr_views x) (qs x) (se x));
     drain_read_only).

(** ** Stable checkpoints *)

(** [replies.new_state(&rqueue)] *)
Definition new_state_replies : M bool :=
  r ← get;
  '(x, b) ← with_rqueue (λ q, '(x, q, b) ← RI.new_state (replies (st r)) q; Ret (q, (x, b)));
  _ ← replies_to x; mret b.

(** The counters, when [n] is known to be stable; [have_state] if this replica has it. *)
Definition raise_stable (n : Z) (have_state : bool) : M unit :=
  _ ← count_to (λ c, set_low_bound (Z.max (low_bound c) n) (set_last_stable n c));
  r ← get;
  _ ← when (have_state && (last_executed (cn r) <? n))
    (_ ← count_to (λ c, set_tentative n (set_last_executed n c));
     _ ← new_state_replies;
     _ ← update_max_rec;
     count_to (λ c, set_last_prepared (Z.max (last_prepared c) n) c));
  count_to (λ c, set_seqno (Z.max (seqno c) n) c).

(** Messages of the batches up to [last_stable] are discarded... *)
Definition truncate_messages : M unit :=
  r ← get;
  let n := last_stable (cn r) + 1 in
  p ← lift (Log.truncate pcert_clear (plog (st r)) n);
  c ← lift (Log.truncate ccert_clear (clog (st r)) n);
  store_to (λ s, set_clog c (set_plog p s)).

(** ... and the checkpoints below it, with the copies of the state. *)
Definition truncate_checkpoints : M unit :=
  r ← get;
  e ← lift (wl_truncate (elog (st r)) (last_stable (cn r)));
  _ ← store_to (set_elog e);
  s ← lift (st_discard_checkpoint (state r) (last_stable (cn r)) (last_executed (cn r)));
  state_to s.

Definition own_checkpoint : M unit :=
  r ← get;
  let n := last_stable (cn r) in
  x ← elog_fetch n;
  match Cert.mine x with
  | None =>
      c ← lift (new_checkpoint w_hmac_md (keys_of r) n (st_digest (state r) n) true);
      now ← currentTime;
      _ ← with_elog n (λ x, Cert.add_mine x c now);
      with_elog n (λ x, Ret (tt, Cert.make_complete x))
  | Some c =>
      c ← lift (checkpoint_re_authenticate w_hmac_md (keys_of r) c true);
      with_elog n (λ x, Ret (tt, Cert.resend x c (Cert.t_sent x)))
  end.

(** The checkpoints that were above the window move from [sset] to [elog]; the result
    is the highest sequence number that this makes stable. *)
Definition transfer_one (new_ls i : Z) : M Z :=
  r ← get;
  o ← lift (ZSet.fetch (sset (st r)) i);
  match o with
  | None => mret new_ls
  | Some c =>
      let n := k_seqno c in
      if n <? last_stable (cn r) then
        _ ← with_sset (λ s, ZSet.remove s i); mret new_ls
      else if n <=? last_stable (cn r) + max_out then
        _ ← elog_fetch n;
        _ ← with_sset (λ s, ZSet.remove s i);
        _ ← with_elog n (λ x, Cert.add (v_checkpoint r) x c);
        x ← elog_fetch n;
        mret (if Cert.is_complete x && (new_ls <? n) then n else new_ls)
      else mret new_ls
  end.

Definition transfer_checkpoints : M Z :=
  r ← get; fold_each (seqZ 0 num_replicas) (last_stable (cn r)) transfer_one.

(** [elog.within_range(n) && elog.fetch(n).mine()] *)
Definition have_checkpoint (n : Z) : M bool :=
  r ← get;
  if elog_within_range (elog (st r)) n then x ← elog_fetch n; mret (bool_decide (is_Some (Cert.mine x)))
  else mret false.

Definition start_fetch (le c : Z) (d : option Dig.Digest) (stable : bool) : M unit :=
  r ← get;
  '(s, l) ← lift (st_start_fetch (state r) (replies (st r)) le c d stable);
  _ ← state_to s;
  for_each l (λ m, emit (ESendOther m.1 m.2)).

(** ** New views *)
Definition set_limbo (b : bool) (x : Views) : Views := mkViews (v x) (cur_primary x) b (has_nv_state x).
Definition set_nv_state (b : bool) (x : Views) : Views := mkViews (v x) (cur_primary x) (limbo x) b.
Definition set_vc_recovering (x : Recovery) : Recovery :=
  mkRecovery (recovering x) true (corrupt x) (recovery_point x) (rr x) (rr_reps x) (rr_views x) (qs x) (se x).

(** The pre-prepare and the prepare of the new view for [i]. *)
Definition install_request (i : Z) : M unit :=
  r ← get;
  '(w, pp, d) ← lift (vi_fetch_request (env_of r) (vi r) i);
  _ ← vi_to w;
  _ ← plog_fetch i;
  now ← currentTime;
  pp ← lift (of_option Undefined pp);
  if is_primary r then
    _ ← with_plog i (λ x, PCert.add_mine_pp (prim r) x pp now); skip
  else
    p ← lift (new_prepare w_hmac_md (keys_of r) (v (vw r)) i d None);
    _ ← with_plog i (λ x, PCert.add_mine_prepare (prim r) x p now);
    _ ← emit (ESendPrepare p All_replicas);
    _ ← assert_ (Dig.operator_eq (PP.digest pp) (p_digest p));
    with_plog i (quietly (λ x, PCert.add_old x pp)).

Section new_view.
Context (mark : Z → bool → M unit).

Definition process_new_view (min : Z) (d : Dig.Digest) (max ms : Z) : M unit :=
  _ ← assert_ ((0 <=? ms) && (ms <=? min));
  _ ← emit (ETimer Vtimer TRestop);
  _ ← view_to (set_limbo false);
  _ ← recovery_to set_vc_recovering;
  r ← get;
  _ ← when (prim r (v (vw r)) =? node_id)
    (nv ← lift (of_option Undefined (vi_my_new_view (vi r))); emit (ESendOther nv All_replicas));
  _ ← count_to (λ c, set_low_bound (Z.max (last_stable c) min) (set_seqno (max - 1) c));
  let min := Z.max (last_stable (cn r)) min in
  _ ← when (last_stable (cn r) <? ms) (mark ms (ms <=? last_executed (cn r)));
  r ← get;
  _ ← assert_ ((last_stable (cn r) <=? min) && (max - last_stable (cn r) - 1 <=? max_out));
  _ ← for_each (seqZ (min + 1) (max - (min + 1))) install_request;
  _ ← when (is_primary r) (_ ← send_pre_prepare; emit (ETimer Ntimer TStart));
  r ← get;
  _ ← (if last_executed (cn r) <? min
       then _ ← view_to (set_nv_state false); start_fetch (last_executed (cn r)) min (Some d) (min <=? ms)
       else _ ← view_to (set_nv_state true); drain_read_only);
  r ← get;
  when (negb (is_primary r) && (0 <? RQ.size (rqueue (st r)))) (emit (ETimer Vtimer TRestart)).

Definition run_vi (l : list (vi_effect other_msg)) : M unit :=
  for_each l (λ e, match e with
    | VSend m dst => emit (ESendOther m dst)
    | VStatus => send_status
    | VNewView min d max ms => process_new_view min d max ms
    end).
End new_view.

Fixpoint mark_stable (fuel : nat) (n : Z) (have_state : bool) : M unit :=
  match fuel with
  | O => fail OutOfFuel
  | S fuel =>
      r ← get;
      if n <=? last_stable (cn r) then skip
      else
        _ ← raise_stable n have_state;
        _ ← truncate_messages;
        r ← get;
        '(w, l) ← lift (vi_mark_stable (env_of r) (vi r) (last_stable (cn r)));
        _ ← vi_to w;
        _ ← run_vi (mark_stable fuel) l;
        _ ← truncate_checkpoints;
        _ ← when have_state (_ ← own_checkpoint; try_end_recovery);
        new_ls ← transfer_checkpoints;
        r ← get;
        _ ← when (last_stable (cn r) <? new_ls) (b ← have_checkpoint new_ls; mark_stable fuel new_ls b);
        r ← get;
        when (is_primary r) send_pre_prepare
  end.

(** The nesting of [mark_stable]: each call of itself follows the removal of a message
    from [sset]. *)
Definition stable_fuel : nat := S (S (Z.to_nat num_replicas)).
Definition mark (n : Z) (have_state : bool) : M unit := mark_stable stable_fuel n have_state.

(** ** View changes *)
Definition rollback : M unit :=
  r ← get;
  _ ← assert_ (negb (in_fetch_state (state r)));
  '(s, x, n) ← lift (st_rollback (state r) (replies (st r)));
  _ ← state_to s; _ ← replies_to x;
  count_to (λ c, set_tentative n (set_last_executed n c)).

(** What the view information has to know of the batch [i], which is then forgotten. *)
Definition retire (i : Z) : M unit :=
  pc ← plog_fetch i;
  _ ← clog_fetch i;
  b ← lift (PCert.is_complete pc);
  r ← get;
  _ ← (if b : bool then
         pp ← lift (of_option Undefined (PCert.rem_pre_prepare pc).1);
         w ← lift (vi_add_complete (vi r) pp); vi_to w
       else
         match PCert.my_prepare pc with
         | Some p => w ← lift (vi_add_incomplete (vi r) i (p_digest p)); vi_to w
         | None =>
             match PCert.my_pre_prepare pc with
             | Some pp => w ← lift (vi_add_incomplete (vi r) i (PP.digest pp)); vi_to w
             | None => skip
             end
         end);
  _ ← with_plog i (λ x, Ret (tt, pcert_clear x));
  with_clog i (λ x, Ret (tt, ccert_clear x)).

Definition send_view_change : M unit :=
  _ ← view_to (λ x, mkViews (v x + 1) (Z.rem (v x + 1) num_replicas) true (has_nv_state x));
  _ ← emit (ETimer Vtimer TStop);
  _ ← emit (ETimer Ntimer TRestop);
  r ← get;
  _ ← when (last_executed (cn r) <? last_tentative_execute (cn r)) rollback;
  _ ← count_to (λ c, set_last_prepared (last_executed c) c);
  _ ← for_each (seqZ (last_stable (cn r) + 1) max_out) retire;
  r ← get;
  '(w, l) ← lift (vi_view_change (env_of r) (vi r) (state r) (v (vw r)) (last_executed (cn r)));
  _ ← vi_to w;
  run_vi mark l.

Definition set_view (x : Z) (w : Views) : Views := mkViews x (cur_primary w) (limbo w) (has_nv_state w).

Definition enforce_view (rec_view : Z) : M unit :=
  r ← get;
  _ ← assert_ (recovering (rc r));
  if (v (vw r) <=? rec_view) || vc_recovering (rc r) || (limbo (vw r) && (rec_view + 1 =? v (vw r))) then skip
  else
    _ ← recovery_to (λ x, mkRecovery (recovering x) (vc_recovering x) true (recovery_point x) (rr x) (rr_reps x) (rr_views x) (qs x) (se x));
    w ← lift (vi_clear (vi r)); _ ← vi_to w;
    _ ← view_to (set_view (rec_view - 1));
    send_view_change.

Definition handle_view_change (m : VC.View_change) : M unit :=
  r ← get;
  _ ← when ((VC.id m =? cur_primary (vw r)) && (v (vw r) <? VC.view m) && v_vc r m) send_view_change;
  r ← get;
  '(w, modified, l) ← lift (vi_add_vc (env_of r) (vi r) m);
  _ ← vi_to w; _ ← run_vi mark l;
  if negb modified then skip
  else
    r ← get;
    maxv ← lift (vi_max_view (vi r));
    if v (vw r) <? maxv then
      _ ← view_to (set_view (maxv - 1)); _ ← recovery_to set_vc_recovering; send_view_change
    else if limbo (vw r) && negb (is_primary r) then
      maxv ← lift (vi_max_maj_view (vi r));
      _ ← assert_ (maxv <=? v (vw r));
      when (maxv =? v (vw r))
        (_ ← emit (ETimer Vtimer TRestart); _ ← view_to (set_limbo false); recovery_to set_vc_recovering)
    else skip.

Definition handle_new_view (m : NV.New_view) : M unit :=
  r ← get;
  '(w, l) ← lift (vi_add_nv (env_of r) (vi r) m);
  _ ← vi_to w; run_vi mark l.

Definition handle_vc_ack (m : View_change_ack) : M unit :=
  r ← get;
  '(w, l) ← lift (vi_add_vca (env_of r) (vi r) m);
  _ ← vi_to w; run_vi mark l.

(** *** Replies to the recovery request of this replica *)
Definition reps_to (c : Cert.Certificate Reply) : M unit :=
  recovery_to (λ x, mkRecovery (recovering x) (vc_recovering x) (corrupt x) (recovery_point x) (rr x) c (rr_views x) (qs x) (se x)).
Definition rr_done : M unit :=
  recovery_to (λ x, mkRecovery (recovering x) (vc_recovering x) (corrupt x) (recovery_point x) None (rr_reps x) (rr_views x) (qs x) (se x)).

Definition add_reply (m : Reply) (mine : bool) : M bool :=
  r ← get;
  now ← currentTime;
  '(b, c) ← lift (if mine then Cert.add_mine (rr_reps (rc r)) m now else Cert.add (v_reply r) (rr_reps (rc r)) m);
  _ ← reps_to c; mret b.

Definition handle_own_reply (m : Reply) (mine : bool) : M unit :=
  r ← get;
  added ← (if mine && bool_decide (is_Some (Cert.mine (rr_reps (rc r)))) then mret false else add_reply m mine);
  r ← get;
  when (added && Cert.is_complete (rr_reps (rc r)))
    (rep ← lift (of_option Undefined (Cert.cvalue (rr_reps (rc r))));
     _ ← assert_ (reply_full rep);
     _ ← reps_to (Cert.cvalue_clear (rr_reps (rc r))).2;
     _ ← rr_done;
     emit (ECallback rep)).

Definition recovery_replies : M unit :=
  r ← get;
  rep ← lift (of_option Undefined (Cert.cvalue (rr_reps (rc r))));
  _ ← assert_ (r_reply_size rep =? 8);
  let rec_seqno := wrapS 64 (rd 0 8 (r_body rep)) in
  let new_rp := Z.quot rec_seqno checkpoint_interval * checkpoint_interval + max_out in
  _ ← recovery_to (λ x, mkRecovery (recovering x) (vc_recovering x) (corrupt x) (Z.max (recovery_point x) new_rp)
                          (rr x) (rr_reps x) (rr_views x) (qs x) (se x));
  rec_view ← lift (K_max (S (length (rr_views (rc r)))) (max_faulty + 1) (rr_views (rc r)) View_max);
  _ ← enforce_view rec_view;
  _ ← try_end_recovery;
  rr_done.

Definition handle_reply (m : Reply) (mine : bool) : M unit :=
  r ← get;
  match rr (rc r) with
  | None => skip
  | Some q =>
      if negb (Req.rid q =? r_rid m) then skip
      else if negb (Req.is_recovery q) then handle_own_reply m mine
      else if mine || reply_is_tentative m then
        added ← add_reply m mine;
        if added : bool then
          let mv := to_int (r_view m) in
          _ ← lift (of_option Undefined (zget (rr_views (rc r)) (r_replica m)));
          _ ← recovery_to (λ x, mkRecovery (recovering x) (vc_recovering x) (corrupt x) (recovery_point x) (rr x) (rr_reps x)
                 (match zget (rr_views x) (r_replica m) with
                  | Some old => zset (rr_views x) (r_replica m) (Z.max old mv) | None => rr_views x end) (qs x) (se x));
          r ← get;
          when (Cert.is_complete (rr_reps (rc r))) recovery_replies
        else skip
      else skip
  end.

Definition own_reply (m : Reply) : M unit := handle_reply m true.

(** ** Committing *)

(** What happens to a request of a committed batch. *)
Definition commit_request (req : Req.Request) : M unit :=
  let cid := Req.cid req in
  r ← get;
  x ← lift (RI.commit_reply (replies (st r)) cid);
  _ ← replies_to x;
  _ ← when (is_replica cid)
    (if negb (cid =? node_id) then send_reply own_reply cid false
     else
       m ← lift (RI.reply x cid);
       own_reply (if Req.is_recovery req then RI.reply_copy m cid else m));
  b ← with_rqueue (λ q, RQ.remove_client q cid (Req.rid req));
  when b (emit (ETimer Vtimer TStop)).

(** The checkpoint message for the state after batch [n]. *)
Definition send_checkpoint (n : Z) : M unit :=
  r ← get;
  e ← lift (new_checkpoint w_hmac_md (keys_of r) n (st_digest (state r) n) false);
  now ← currentTime;
  _ ← with_elog n (λ x, Cert.add_mine x e now);
  x ← elog_fetch n;
  _ ← when (Cert.is_complete x) (mark n true);
  emit (ESendCheckpoint e All_replicas).

(** The body of the loop of [execute_committed] for the batch [pp]. *)
Definition commit_batch (pp : PP.Pre_prepare) : M unit :=
  _ ← execute_prepared own_reply true;
  _ ← count_to (λ c, set_last_executed (last_executed c + 1) c);
  r ← get;
  _ ← assert_ (PP.seqno pp =? last_executed (cn r));
  _ ← drain_read_only;
  reqs ← lift (PP.Requests_iter pp);
  _ ← for_each reqs commit_request;
  r ← get;
  when (Z.rem (last_executed (cn r)) checkpoint_interval =? 0) (send_checkpoint (last_executed (cn r))).

(** The loop; [false] if the code returns from within it. *)
Fixpoint commit_loop (fuel : nat) : M bool :=
  match fuel with
  | O => fail OutOfFuel
  | S fuel =>
      r ← get;
      let c := cn r in
      if (last_stable c + max_out <=? last_executed c) || (last_executed c <? last_stable c) then mret false
      else
        o ← committed (last_executed c + 1);
        match o with
        | Some pp => if PP.view pp =? v (vw r) then _ ← commit_batch pp; commit_loop fuel else mret true
        | None => mret true
        end
  end.

(** Each turn commits a batch of the window. *)
Definition commit_fuel : nat := S (Z.to_nat max_out).

Definition execute_committed : M unit :=
  r ← get;
  if negb (in_fetch_state (state r)) && negb (in_check_state (state r)) && has_new_view r then
    b ← commit_loop commit_fuel;
    r ← get;
    when (b && (0 <? RQ.size (rqueue (st r))))
      (if is_primary r then send_pre_prepare else emit (ETimer Vtimer TStart))
  else skip.

(** ** Agreement *)
Definition send_commit (n : Z) : M unit :=
  r ← get;
  _ ← when (n =? last_executed (cn r) + 1) (execute_prepared own_reply false);
  r ← get;
  c ← lift (new_commit w_hmac_md (keys_of r) (v (vw r)) n);
  _ ← emit (ESendCommit c All_replicas);
  _ ← count_to (λ c, set_last_prepared (Z.max (last_prepared c) n) c);
  now ← currentTime;
  added ← with_clog n (λ x, Cert.add_mine x c now);
  cs ← clog_fetch n;
  when (added && Cert.is_complete cs) execute_committed.

Definition vi_add_missing (f : env → vinfo → outcome (vinfo * list (vi_effect other_msg))) : M unit :=
  r ← get; '(w, l) ← lift (f (env_of r) (vi r)); _ ← vi_to w; run_vi mark l.

Definition handle_pre_prepare (m : PP.Pre_prepare) : M unit :=
  let ms := PP.seqno m in
  _ ← lift (PP.choices m);
  w ← in_wv ms (PP.view m) (λ r, v_pp r 0 m);
  r ← get;
  if w && (low_bound (cn r) <? ms) && has_new_view r then
    added ← with_plog ms (λ x, PCert.add_pp (v_pp r 0) (v_pp r PP.NRC) x m);
    when added
      (_ ← send_prepare ms;
       pc ← plog_fetch ms;
       b ← lift (PCert.is_complete pc);
       when b (send_commit ms))
  else if negb (has_new_view r) then vi_add_missing (λ p w, vi_add_missing_pp p w m)
  else skip.

Definition handle_prepare (m : Prepare) : M unit :=
  let ms := p_seqno m in
  w ← in_wv ms (p_view m) (λ r, v_prepare r m);
  r ← get;
  if w && (low_bound (cn r) <? ms) && negb (cur_primary (vw r) =? p_id m) && has_new_view r then
    added ← with_plog ms (λ x, PCert.add_prepare (v_prepare r) x m);
    pc ← plog_fetch ms;
    b ← (if added : bool then lift (PCert.is_complete pc) else mret false);
    when b (send_commit ms)
  else if prepare_is_proof m && negb (has_new_view r) then vi_add_missing (λ p w, vi_add_missing_p p w m)
  else skip.

Definition handle_commit (m : Commit) : M unit :=
  let ms := c_seqno m in
  w ← in_wv ms (c_view m) (λ r, v_commit r m);
  r ← get;
  if w && (low_bound (cn r) <? ms) then
    added ← with_clog ms (λ x, Cert.add (v_commit r) x m);
    cs ← clog_fetch ms;
    when (added && Cert.is_complete cs) execute_committed
  else skip.

(** Is [m] a sign that this replica missed messages that were discarded? *)
Definition late (m : Checkpoint) : M bool :=
  r ← get;
  let le := last_executed (cn r) in
  let b := checkpoint_stable m && (le <? k_seqno m) in
  if Log.within_range (clog (st r)) le then
    c ← clog_fetch le;
    match Cert.mine c with
    | None => mret b
    | Some _ => now ← currentTime; mret (b && (200000 <? RI.diffTime w_clock_mhz now (Cert.t_sent c)))
    end
  else mret b.

(** A checkpoint message in the window that is not late. *)
Definition add_checkpoint (m : Checkpoint) : M unit :=
  r ← get;
  added ← with_elog (k_seqno m) (λ x, Cert.add (v_checkpoint r) x m);
  x ← elog_fetch (k_seqno m);
  when (added && bool_decide (is_Some (Cert.mine x)) && Cert.is_complete x) (mark (k_seqno m) true).

(** A stable checkpoint message above the window: the state is fetched when [f + 1]
    replicas have sent one. *)
Definition buffer_checkpoint (m : Checkpoint) : M unit :=
  r ← get;
  o ← lift (ZSet.fetch (sset (st r)) (k_id m));
  if match o with None => true | Some c => k_seqno c <? k_seqno m end then
    _ ← with_sset (λ s, ZSet.remove s (k_id m));
    _ ← with_sset (λ s, ZSet.store k_id s m);
    r ← get;
    when (max_faulty <? ZSet.size (sset (st r)))
      (_ ← when (last_executed (cn r) <? last_tentative_execute (cn r)) rollback;
       _ ← emit (ETimer Vtimer TStop);
       r ← get;
       start_fetch (last_executed (cn r)) (-1) None false)
  else skip.

Definition handle_checkpoint (m : Checkpoint) : M unit :=
  let ms := k_seqno m in
  r ← get;
  if last_stable (cn r) <? ms then
    l ← (if ms <=? last_stable (cn r) + max_out then late m else mret true);
    if negb l then add_checkpoint m
    else
      r ← get;
      when (v_checkpoint r m) (if negb (checkpoint_stable m) then send_status else buffer_checkpoint m)
  else skip.

(** ** Requests *)

(** The branches of [handle(Request)] for a request that is not read-only. *)
Definition new_request (m : Req.Request) : M unit :=
  r ← get;
  let cid := Req.cid m in
  if is_primary r then
    busy ← with_rqueue (λ q, RQ.in_progress q cid (Req.rid m) (v (vw r)));
    if busy : bool then skip
    else
      b ← with_rqueue (λ q, RQ.append q m);
      when b send_pre_prepare
  else
    b ← with_rqueue (λ q, RQ.append q m);
    when (b && negb (limbo (vw r))) (_ ← emit (ESendRequest m (cur_primary (vw r))); emit (ETimer Vtimer TStart)).

Definition old_request (m : Req.Request) : M unit :=
  let cid := Req.cid m in
  _ ← send_reply own_reply cid true;
  r ← get;
  b ← (if is_primary r then mret false
       else c ← lift (RI.is_committed (replies (st r)) cid); mret (negb c));
  when b
    (b ← with_rqueue (λ q, RQ.append q m);
     when b (emit (ETimer Vtimer TStart))).

Definition handle_request (m : Req.Request) : M unit :=
  let cid := Req.cid m in
  let ro := Req.is_read_only m in
  r ← get;
  ok ← (if has_new_view r then lift (Req.verify w_digest_of w_sig_size w_pk_verify m) else mret false);
  if negb ok || (is_replica cid && ro) then skip
  else if ro then
    b ← execute_read_only m;
    when (negb b) (_ ← with_ro_rqueue (λ q, RQ.append q m); skip)
  else
    last ← lift (RI.req_id (replies (st r)) cid);
    if last <? Req.rid m then new_request m
    else when (last =? Req.rid m) (old_request m).

(** ** State transfer *)
Definition newer_checkpoint (n : Z) (count i : Z) : M Z :=
  r ← get;
  o ← lift (ZSet.fetch (sset (st r)) i);
  match o with
  | Some c => if n <=? k_seqno c then _ ← assert_ (checkpoint_stable c); mret (count + 1) else mret count
  | None => mret count
  end.

(** The state of checkpoint [n] has been fetched. *)
Definition adopt_state (n : Z) : M unit :=
  _ ← count_to (λ c, set_tentative n (set_last_executed n c));
  b ← new_state_replies;
  _ ← when b (emit (ETimer Vtimer TStop));
  _ ← update_max_rec;
  _ ← count_to (λ c, set_last_prepared (Z.max (last_prepared c) n) c);
  r ← get;
  _ ← when (last_stable (cn r) + max_out <? n) (b ← have_checkpoint (n - max_out); mark (n - max_out) b);
  r ← get;
  ck ← lift (new_checkpoint w_hmac_md (keys_of r) n (st_digest (state r) n) false);
  now ← currentTime;
  _ ← with_elog n (λ x, Cert.add_mine x ck now);
  emit (ESendCheckpoint ck All_replicas).

Definition new_state (n : Z) : M unit :=
  r ← get;
  _ ← when (vi_has_new_view (prim r) (vi r) (v (vw r)) && (low_bound (cn r) <=? n)) (view_to (set_nv_state true));
  _ ← when (last_executed (cn r) <? n) (adopt_state n);
  scount ← fold_each (seqZ 0 num_replicas) 0 (newer_checkpoint n);
  _ ← when (max_faulty <? scount) (mark n true);
  _ ← count_to (λ c, set_seqno (Z.max (seqno c) n) c);
  _ ← execute_committed;
  _ ← drain_read_only;
  r ← get;
  when (0 <? RQ.size (rqueue (st r)))
    (if is_primary r then send_pre_prepare else emit (ETimer Vtimer TRestart)).

(** ** Null requests and timers *)
Definition send_null : M unit :=
  r ← get;
  _ ← assert_ (is_primary r);
  let c := cn r in
  let max_rec_point := max_out + Z.quot (max_rec_n c + checkpoint_interval - 1) checkpoint_interval * checkpoint_interval in
  _ ← when (negb (max_rec_n c =? 0) && (last_stable c <? max_rec_point) && has_new_view r &&
            (RQ.size (rqueue (st r)) =? 0) && (seqno c <=? last_executed c) && (seqno c + 1 <=? max_out + last_stable c))
    (let n := seqno c + 1 in
     _ ← count_to (set_seqno n);
     '(pp, _) ← lift (PP.fill w_hmac_md w_digest_of w_non_det w_max_nd_bytes 1 (principals_now r) PP.Max_message_size
                        (v (vw r)) n RQ.make);
     _ ← emit (ESendPp pp All_replicas);
     now ← currentTime;
     _ ← with_plog n (λ x, PCert.add_mine_pp (prim r) x pp now);
     skip);
  emit (ETimer Ntimer TRestart).

Definition vtimer_handler : M unit :=
  r ← get; if delay_vc r then emit (ETimer Vtimer TRestart) else send_view_change.
Definition stimer_handler : M unit := _ ← send_status; emit (ETimer Stimer TRestart).
Definition atimer_handler : M unit := send_new_key.
Definition ntimer_handler : M unit := send_null.

(** [send_request]: this replica's own request, once it is ready to recover. *)
Definition send_request (rec_ready : bool) (m : Req.Request) : M bool :=
  r ← get;
  if bool_decide (is_Some (rr (rc r))) then mret false
  else
    _ ← when rec_ready (emit (ESendRequest m (cur_primary (vw r))));
    _ ← recovery_to (λ x, mkRecovery (recovering x) (vc_recovering x) (corrupt x) (recovery_point x) (Some m) (rr_reps x) (rr_views x) (qs x) (se x));
    mret true.

(** ** The event loop *)
Inductive event :=
| Recv_request (m : Req.Request)
| Recv_pre_prepare (m : PP.Pre_prepare)
| Recv_prepare (m : Prepare)
| Recv_commit (m : Commit)
| Recv_checkpoint (m : Checkpoint)
| Recv_reply (m : Reply)
| Recv_view_change (m : VC.View_change)
| Recv_new_view (m : NV.New_view)
| Recv_vc_ack (m : View_change_ack)
| Recv_status (m : Stat.Status)
| Recv_new_key (m : NK.New_key)
| Recv_query_stable (m : SE.Query_stable)
| Recv_reply_stable (m : SE.Reply_stable)
| State_fetched (n : Z)      (* the state manager calls new_state *)
| Vtimer_expired | Ntimer_expired | Stimer_expired | Atimer_expired.

(** While it estimates, a replica handles only some messages; while the state is checked,
    [recv] drops the messages with the tags from that of requests to that of commits,
    replies excepted. *)
Definition dropped (estimating checking : bool) (e : event) : bool :=
  (estimating && match e with
                 | Recv_new_key _ | Recv_query_stable _ | Recv_reply_stable _ | Recv_status _ => false
                 | State_fetched _ | Vtimer_expired | Ntimer_expired | Stimer_expired | Atimer_expired => false
                 | _ => true
                 end) ||
  (checking && match e with
               | Recv_request _ | Recv_pre_prepare _ | Recv_prepare _ | Recv_commit _ => true
               | _ => false
               end).

Definition handle (e : event) : M unit :=
  match e with
  | Recv_request m => handle_request m
  | Recv_pre_prepare m => handle_pre_prepare m
  | Recv_prepare m => handle_prepare m
  | Recv_commit m => handle_commit m
  | Recv_checkpoint m => handle_checkpoint m
  | Recv_reply m => handle_reply m false
  | Recv_view_change m => handle_view_change m
  | Recv_new_view m => handle_new_view m
  | Recv_vc_ack m => handle_vc_ack m
  | Recv_status m => handle_status m
  | Recv_new_key m => handle_new_key m
  | Recv_query_stable m => handle_query_stable m
  | Recv_reply_stable m => handle_reply_stable m
  | State_fetched n => new_state n
  | Vtimer_expired => vtimer_handler
  | Ntimer_expired => ntimer_handler
  | Stimer_expired => stimer_handler
  | Atimer_expired => atimer_handler
  end.

Definition recv (e : event) : M unit :=
  r ← get;
  if dropped (bool_decide (is_Some (qs (rc r)))) (in_check_state (state r)) e then skip else handle e.

(** What [recv] does before its loop, without the digests of the state. *)
Definition begin : M unit :=
  _ ← node_send_new_key;
  _ ← emit (ETimer Stimer TStart);
  _ ← emit (ETimer Atimer TStart);
  r ← get;
  _ ← when (is_primary r) (emit (ETimer Ntimer TStart));
  match rr (rc r) with Some q => emit (ESendRequest q (cur_primary (vw r))) | None => skip end.
End replica.
End Replica.
