(* ===== verification/ReplicaSample.v ===== *)
(** * ReplicaSample: a concrete world and concrete parts

    The witnesses of the replica's properties run the handlers on these: codes, digests
    and signatures are the sample functions of the earlier files, the service is a list
    of the executed commands, and the view information stays in view 0. *)
From S2P Require Import Prelude Node SeqLog Certificate Messages PreparedCert ReqQueue Support RepInfo.
From S2P Require Import PrePrepare Status NewKey StableEstimator ViewChange StateMonad World NewView ReplicaState.
From S2P Require Import ReplicaStatus ReplicaRecovery Replica.
Import Auth Rep Replica.
#[local] Existing Instance Req.request_msg.

Module Sample.
(** The log of the executed commands, whether the state is being fetched, and what the
    last checkpoint saved: the log and the replies. *)
Record service := mkService {
  commands : list (list Z); fetching : bool;
  saved : list (list Z) * RI.Rep_info * Z;
}.

Definition replies : RI.Rep_info :=
  RI.mkRi 5 (replicate 5 RI.null_reply) (replicate 5 (RI.mkRinfo true 0)).

Definition new_service : service := mkService [] false ([], replies, 0).

Definition null_pp (n : Z) : PP.Pre_prepare := PP.mkPp 0 200 1 n Dig.zero 0 0 (replicate 136 0).

Definition parts (c : Config) : Parts := {|
  other_msg := Z;
  ss := service;
  in_fetch_state := fetching;
  in_check_state := λ _, false;
  st_checkpoint := λ s x n, Ret (mkService (commands s) (fetching s) (commands s, x, n));
  st_digest := λ s n, PP.sample_digest_of [1; n];
  st_rollback := λ s _, Ret (mkService (saved s).1.1 (fetching s) (saved s), (saved s).1.2, (saved s).2);
  st_start_fetch := λ s _ le _ _ _, Ret (mkService (commands s) true (saved s), [(le, -1)]);
  st_discard_checkpoint := λ s _ _, Ret s;
  st_mark_stale := λ s, s;
  st_retrans_fetch := λ s _, fetching s;
  st_send_fetch := λ s _, Ret (s, [(0, -1)]);
  st_enforce_bound := λ s _ _ _, Ret (s, true);
  st_start_check := λ s _ _, Ret (s, []);
  st_exec := λ s cmd _ _ ro, (if ro : bool then s else mkService (commands s ++ [cmd]) (fetching s) (saved s), take 1 cmd, 0);
  vinfo := list (Z * Dig.Digest);
  vi_has_new_view := λ _ _ _, true;
  vi_add_missing_pp := λ _ w _, Ret (w, []);
  vi_add_missing_p := λ _ w _, Ret (w, []);
  vi_mark_stable := λ _ w _, Ret (w, []);
  vi_add_complete := λ w m, Ret (w ++ [(PP.seqno m, PP.digest m)]);
  vi_add_incomplete := λ w n d, Ret (w ++ [(n, d)]);
  vi_view_change := λ _ w _ vw _, Ret (w, [VSend vw (-1)]);
  vi_add_vc := λ _ w _, Ret (w, false, []);
  vi_add_nv := λ _ w _, Ret (w, []);
  vi_add_vca := λ _ w _, Ret (w, []);
  vi_fetch_request := λ _ w n, Ret (w, Some (null_pp n), Dig.zero);
  vi_my_new_view := λ _, Some 0;
  vi_max_view := λ _, Ret 0;
  vi_max_maj_view := λ _, Ret 0;
  vi_clear := λ w, Ret w;
  vi_mark_stale := λ _ w, Ret w;
  vi_enforce_bound := λ w _ _ _, Ret (w, true);
  vi_has_nv_message := λ _ _ _, true;
  vi_received_vcs := λ _ w _, Ret (w, []);
  vi_missing_pps := λ _ w _, Ret (w, []);
  vi_my_vc_ack := λ _ _, Ret false;
  vi_resend_view_change := λ _ w _, Ret (w, None);
  vi_resend_new_view := λ _ w _, Ret (w, None);
  vi_resend_ack := λ _ w _ _, Ret (w, None);
  vi_resend_pre_prepare := λ _ w _ _, Ret (w, None);
  vi_send_proofs := λ _ w _ _ _, Ret (w, []);
  elog_t := CheckpointLog.t (Cert.Certificate Checkpoint);
  elog_log := CheckpointLog.window_log (H := c) Cert.clear;
  elog_within_range := CheckpointLog.within_range (H := c);
  elog_clear := CheckpointLog.clear (H := c) Cert.clear;
  elog_max_seqno := CheckpointLog.max_seqno (H := c);
|}.

Definition start (c : Config) : @Rep.Replica (parts c) :=
  Rep.make (H := c) (H1 := parts c) Seqno_max new_service []
    (CheckpointLog.make (H := c) (Cert.make (H := c) 0)) replies sample_principals 100.

(** A request of client 4 with a valid digest. *)
Definition request (rid x : Z) : Req.Request :=
  let q d := Req.mkRequest 0 72 d (-1) 8 4 rid (PP.sample_command x) in
  match Req.comp_digest PP.sample_digest_of (q Dig.zero) with Ret d => q d | Err _ => q Dig.zero end.

(** The state and the outcome of a series of events. *)
Fixpoint run (c : Config) (r : @Rep.Replica (parts c)) (l : list event) : outcome (@Rep.Replica (parts c)) :=
  match l with
  | [] => Ret r
  | e :: l => match recv (H := c) (H0 := SampleNode.world) (H1 := parts c) e r with Ret (_, r) => run c r l | Err e => Err e end
  end.

(** The state a handler leaves, or [d] when it aborts. *)
Definition result {S} (d : S) (o : outcome (unit * S)) : S := match o with Ret (_, r) => r | Err _ => d end.
Definition returned {A} (o : outcome A) : bool := match o with Ret _ => true | Err _ => false end.

Lemma result_of {S} (d : S) o : returned o = true → o = Ret (tt, result d o).
Proof. by destruct o as [[[] r]|]. Qed.
End Sample.
