(* ===== verification/FilesReplica.v ===== *)
(** * FilesReplica: saving a replica at a shutdown and restoring it
    (shutdown, restart and the start of recover in src/src/Replica.cc)

    The file holds the view, the counters, the certificates of the window, the state and the
    information on view changes; the last two are written by their objects ([FileParts]).  The
    properties say how far this gets: a shutdown needs a pre-prepare for every number of the
    window, and a restart never succeeds. *)
From stdpp Require Import gmap.
From S2P Require Import Prelude Node Bitmap SeqLog Certificate Messages PreparedCert ReqQueue PrePrepare StateMonad Files FilesProps.
From S2P Require Import FileMsgs World FilesView ReplicaState ReplicaRecovery Replica ReplicaSample.
Import FileIO FProps Auth Rep Recov.

(** What the replica uses of its parts, besides [Parts]: shutdown and restart of the state
    ([State], with the last stable and the last executed number) and of the information on view
    changes ([View_info], with [Node::primary(View)], the view and the last stable number). *)
Class FileParts `{Parts} := {
  st_shutdown : ss → Z → ST File bool;
  st_restart : ss → Z → Z → bool → ST File (bool * ss);
  vi_shutdown : (Z → Z) → vinfo → ST File bool;
  vi_restart : (Z → Z) → vinfo → Z → Z → bool → ST File (bool * vinfo);
}.

(** They write behind what there is. *)
Class FilePartsLaws `{FileParts} : Prop := {
  st_shutdown_appends s ls : keeps prefix (st_shutdown s ls);
  vi_shutdown_appends p w : keeps prefix (vi_shutdown p w);
}.
Arguments FilePartsLaws {_ _}.

Module FRep.
Section files.
Context (junk : Z → Z).
Context `{Config} `{World} `{Parts} `{!FileParts}.
Context `{FileMsg Prepare} `{FileMsg Commit} `{FileMsg Checkpoint} `{FileMsg PP.Pre_prepare}.

(** ** shutdown *)

(** [for (i = from; ...; i++) ret &= fetch(i).encode(o)] *)
Definition encode_log {A} (fetch : Z → outcome A) (encode : A → ST File bool) (ns : list Z) (ret : bool) : ST File bool :=
  fold_each ns ret (λ ret i, x ← lift (fetch i); r ← encode x; mret (ret && r)).

(** The numbers of the window above the last stable one. *)
Definition window (ls : Z) : list Z := seqZ (ls + 1) max_out.

Definition write_replica (r : Rep.Replica) : ST File bool :=
  let c := cn r in
  n1 ← fwrite [long_bytes (v (vw r))];
  n2 ← fwrite [bool_bytes (limbo (vw r))];
  n3 ← fwrite [bool_bytes (has_nv_state (vw r))];
  n4 ← fwrite [long_bytes (seqno c)];
  n5 ← fwrite [long_bytes (last_stable c)];
  n6 ← fwrite [long_bytes (low_bound c)];
  n7 ← fwrite [long_bytes (last_prepared c)];
  n8 ← fwrite [long_bytes (last_executed c)];
  n9 ← fwrite [long_bytes (last_tentative_execute c)];
  ret ← encode_log (Log.fetch (plog (st r))) Files.pcert_encode (window (last_stable c)) true;
  ret ← encode_log (Log.fetch (clog (st r))) Files.cert_encode (window (last_stable c)) ret;
  ret ← encode_log (wl_fetch (elog (st r))) Files.cert_encode (seqZ (last_stable c) (max_out + 1)) ret;
  a ← st_shutdown (state r) (last_stable c);
  b ← vi_shutdown (prim r) (vi r);
  mret (ret && a && b && (n1 + n2 + n3 + n4 + n5 + n6 + n7 + n8 + n9 =? 9)).

(** The result and the file, which is made anew. *)
Definition shutdown : ST Rep.Replica (bool * File) :=
  _ ← emit (ETimer Vtimer TStop);
  r ← get;
  _ ← (if in_fetch_state (state r) then skip
       else
         '(s, x, n) ← lift (st_rollback (state r) (replies (st r)));
         _ ← state_to s; _ ← Replica.replies_to x;
         count_to (λ c, set_tentative n (set_last_executed n c)));
  r ← get;
  _ ← when (is_primary r) Replica.send_view_change;
  r ← get;
  lift (write_replica r []).

(** ** restart, on the file and the replica *)
#[local] Abbreviation M := (ST (File * Rep.Replica)).

Definition read_view : M (Z * bool) :=
  r ← this;
  let w := vw r in
  '(v', n1) ← on_file (fread_field 8 long_of (v w));
  '(l, n2) ← on_file (fread_field 1 bool_of (limbo w));
  '(h, n3) ← on_file (fread_field 1 bool_of (has_nv_state w));
  let p := Z.rem v' num_replicas in
  if (v' <? 0) || (node_id =? p) then
    _ ← on_obj (view_to (λ _, mkViews 0 p false true)); mret (n1 + n2 + n3, false)
  else _ ← on_obj (view_to (λ _, mkViews v' p l h)); mret (n1 + n2 + n3, true).

Definition read_counters (sz : Z) (ret : bool) : M (Z * bool) :=
  r ← this;
  let c := cn r in
  '(s, n4) ← on_file (fread_field 8 long_of (seqno c));
  '(ls, n5) ← on_file (fread_field 8 long_of (last_stable c));
  '(lb, n6) ← on_file (fread_field 8 long_of (low_bound c));
  '(lp, n7) ← on_file (fread_field 8 long_of (last_prepared c));
  '(le, n8) ← on_file (fread_field 8 long_of (last_executed c));
  '(lt, n9) ← on_file (fread_field 8 long_of (last_tentative_execute c));
  let ret := ret && (ls <=? lb) && (le <=? lt) && (lt <=? lp) in
  _ ← on_obj (count_to (λ c, if ret then mkCounters s ls lb lp le lt (max_rec_n c) else mkCounters s 0 0 0 0 0 (max_rec_n c)));
  mret (sz + n4 + n5 + n6 + n7 + n8 + n9, ret).

(** [for (i = from; ret && ...; i++) ret &= fetch(i).decode(in)] *)
Definition decode_log {A} (fetch : Z → ST Rep.Replica A) (store : Z → A → ST Rep.Replica unit)
    (decode : A → ST File (bool * A)) (ns : list Z) (ret : bool) : M bool :=
  fold_each ns ret (λ ret i,
    if (ret : bool) then
      x ← on_obj (fetch i);
      '(b, x) ← on_file (decode x);
      _ ← on_obj (store i x); mret b
    else mret false).

Definition restart : M bool :=
  '(sz, ret) ← read_view;
  '(sz, ret) ← read_counters sz ret;
  r ← this;
  let ls := last_stable (cn r) in
  l ← on_obj (lift (Log.clear pcert_clear (plog (st r)) (ls + 1))); _ ← on_obj (store_to (set_plog l));
  ret ← decode_log plog_fetch plog_store (Files.pcert_decode junk) (window ls) ret;
  l ← on_obj (lift (Log.clear ccert_clear (clog (st r)) (ls + 1))); _ ← on_obj (store_to (set_clog l));
  ret ← decode_log clog_fetch clog_store (Files.cert_decode junk) (window ls) ret;
  l ← on_obj (lift (elog_clear (elog (st r)) ls)); _ ← on_obj (store_to (set_elog l));
  ret ← decode_log elog_fetch elog_store (Files.cert_decode junk) (seqZ ls (max_out + 1)) ret;
  r ← this;
  '(a, s) ← on_file (st_restart (state r) ls (last_tentative_execute (cn r)) (negb ret)); _ ← on_obj (state_to s);
  let ret := ret && a in
  r ← this;
  '(b, w) ← on_file (vi_restart (prim r) (vi r) (v (vw r)) ls (negb ret)); _ ← on_obj (vi_to w);
  mret (ret && b && (sz =? 9)).

(** [recover]; [None] when the file cannot be opened. *)
Definition recover (o : option File) : ST Rep.Replica unit :=
  _ ← recovery_to (set_corrupt false);
  ok ← match o with
       | Some f => r ← get; '(b, s) ← lift (restart (f, r)); _ ← modify (λ _, s.2); mret b
       | None => mret false
       end;
  begin_recovery (negb ok).

(** ** What the counters decide *)

Definition same_stores (r r' : Rep.Replica) : Prop := st r' = st r.

#[local] Instance same_stores_refl : Reflexive same_stores.
Proof. done. Qed.
#[local] Instance same_stores_trans : Transitive (λ s s' : File * Rep.Replica, same_stores s.2 s'.2).
Proof. intros a b c H1' H2'. unfold same_stores in *. congruence. Qed.
#[local] Instance same_stores_refl2 : Reflexive (λ s s' : File * Rep.Replica, same_stores s.2 s'.2).
Proof. intros s. reflexivity. Qed.

Ltac stores_tac :=
  keeps_with ltac:(first [apply (keeps_on_file same_stores) | apply (keeps_this same_stores)
    | apply (keeps_on_obj same_stores); apply keeps_modify; done]).

Lemma read_view_stores : keeps (λ s s', same_stores s.2 s'.2) read_view.
Proof. unfold read_view. stores_tac. Qed.

Lemma read_counters_stores sz ret : keeps (λ s s', same_stores s.2 s'.2) (read_counters sz ret).
Proof. unfold read_counters. stores_tac. Qed.

(** Once a step has failed, the loops do nothing. *)
Lemma decode_log_skipped {A} fetch store (decode : A → ST File (bool * A)) ns s b s' :
  decode_log fetch store decode ns false s = Ret (b, s') → b = false.
Proof. revert s. induction ns as [|n ns IH]; intros s E; [by injection E as <- _|]. exact (IH s E). Qed.

(** A prepared certificate that has been cleared cannot be read. *)
Lemma cleared_undecodable x f : Files.pcert_decode junk (pcert_clear x) f = Err AssertFail.
Proof. done. Qed.

Context `{!ConfigOk}.

(** What [restart] does once the counters are read. *)
Definition restart_rest (sz : Z) (ret : bool) : M bool :=
  r ← this;
  let ls := last_stable (cn r) in
  l ← on_obj (lift (Log.clear pcert_clear (plog (st r)) (ls + 1))); _ ← on_obj (store_to (set_plog l));
  ret ← decode_log plog_fetch plog_store (Files.pcert_decode junk) (window ls) ret;
  l ← on_obj (lift (Log.clear ccert_clear (clog (st r)) (ls + 1))); _ ← on_obj (store_to (set_clog l));
  ret ← decode_log clog_fetch clog_store (Files.cert_decode junk) (window ls) ret;
  l ← on_obj (lift (elog_clear (elog (st r)) ls)); _ ← on_obj (store_to (set_elog l));
  ret ← decode_log elog_fetch elog_store (Files.cert_decode junk) (seqZ ls (max_out + 1)) ret;
  r ← this;
  '(a, s) ← on_file (st_restart (state r) ls (last_tentative_execute (cn r)) (negb ret)); _ ← on_obj (state_to s);
  let ret := ret && a in
  r ← this;
  '(b, w) ← on_file (vi_restart (prim r) (vi r) (v (vw r)) ls (negb ret)); _ ← on_obj (vi_to w);
  mret (ret && b && (sz =? 9)).

Lemma restart_split : restart = ('(sz, ret) ← read_view; '(sz, ret) ← read_counters sz ret; restart_rest sz ret).
Proof. done. Qed.

Lemma window_first ls : ∃ ns, window ls = ls + 1 :: ns.
Proof. pose proof config_interval. unfold window. rewrite seqZ_cons by lia. by eexists. Qed.

(** With consistent counters the first number of the window is read into an empty certificate. *)
Lemma restart_rest_stops sz s : Log.ok (plog (st s.2)) → restart_rest sz true s = Err AssertFail.
Proof.
  intros Hok. unfold restart_rest. destruct s as [f r].
  set (ls := last_stable (cn r)).
  destruct (FView.clear_log pcert_clear (plog (st r)) (ls + 1) Hok) as (l & Hl & Hlok & Hh & Hm & Hc).
  destruct (window_first ls) as (ns & Hw).
  destruct (wl_fetch_in (WindowLogLaws := Log.window_log_laws id) l (ls + 1) Hlok) as (x & _ & Hx).
  { cbn. unfold Log.within_range. rewrite Hh, Z.geb_leb, Z.leb_refl. cbn. apply Z.ltb_lt. pose proof (Log.size_pos l Hlok). lia. }
  cbn in Hx. destruct (Hc _ _ Hx) as (y & ->).
  rewrite (bind_step _ _ _ r (f, r)) by done. cbn zeta. fold ls.
  rewrite (bind_step _ _ _ l (f, r)) by (unfold on_obj; cbn; by rewrite Hl).
  rewrite (bind_step _ _ _ tt (f, set_st r (set_plog l (st r)))) by done.
  apply bind_fails. unfold decode_log. rewrite Hw. cbn [fold_each]. apply bind_fails.
  rewrite (bind_step _ _ _ (pcert_clear y) (f, set_st r (set_plog l (st r)))).
  - by apply bind_fails.
  - assert (plog_fetch (ls + 1) (set_st r (set_plog l (st r))) = Ret (pcert_clear y, set_st r (set_plog l (st r)))) as Hp.
    { unfold plog_fetch. rewrite get_step. apply lift_run. exact Hx. }
    unfold on_obj. cbn [snd fst]. by rewrite Hp.
Qed.

Lemma restart_false s b s' : Log.ok (plog (st s.2)) → restart s = Ret (b, s') → b = false.
Proof.
  intros Hok. rewrite restart_split. intros E.
  apply bind_inv in E as ([sz ret] & s1 & E1 & E). apply read_view_stores in E1. unfold same_stores in E1.
  apply bind_inv in E as ([sz2 ret2] & s2 & E2 & E). apply read_counters_stores in E2. unfold same_stores in E2.
  destruct ret2; [rewrite restart_rest_stops in E; [done|congruence]|].
  unfold restart_rest in E. do 3 (apply bind_inv in E as (? & ? & _ & E)).
  apply bind_inv in E as (b1 & ? & Hb1 & E). apply decode_log_skipped in Hb1 as ->.
  do 2 (apply bind_inv in E as (? & ? & _ & E)).
  apply bind_inv in E as (b2 & ? & Hb2 & E). apply decode_log_skipped in Hb2 as ->.
  do 2 (apply bind_inv in E as (? & ? & _ & E)).
  apply bind_inv in E as (b3 & ? & Hb3 & E). apply decode_log_skipped in Hb3 as ->.
  apply bind_inv in E as (? & ? & _ & E). apply bind_inv in E as ([? ?] & ? & _ & E).
  do 2 (apply bind_inv in E as (? & ? & _ & E)). apply bind_inv in E as ([? ?] & ? & _ & E).
  apply bind_inv in E as (? & ? & _ & E). by injection E as <- _.
Qed.

(** ** Recovery *)
Definition same_flag (r r' : Rep.Replica) : Prop := corrupt (rc r') = corrupt (rc r).

#[local] Instance same_flag_refl : Reflexive same_flag.
Proof. done. Qed.
#[local] Instance same_flag_trans : Transitive same_flag.
Proof. intros a b c H1' H2'. unfold same_flag in *. congruence. Qed.

Ltac flag_tac := keeps_with ltac:(first [apply keeps_modify; done]).

Lemma send_new_key_flag : keeps same_flag send_new_key.
Proof.
  unfold send_new_key, node_send_new_key, stale_elog, stale_logs, with_plog, with_clog, with_elog, plog_fetch, clog_fetch,
    elog_fetch, plog_store, clog_store, elog_store, currentTime, vi_to, emit, node_to, store_to.
  flag_tac.
Qed.

Lemma zero_client_key_flag i : keeps same_flag (zero_client_key i).
Proof. unfold zero_client_key, currentTime, node_to. flag_tac. Qed.

Lemma begin_recovery_flag bad s a s' : begin_recovery bad s = Ret (a, s') → corrupt (rc s') = bad.
Proof.
  unfold begin_recovery. intros E. apply bind_inv in E as ([] & s1 & E1 & E). injection E1 as <-.
  match type of E with ?m ?s = _ => assert (keeps same_flag m) as Hk end.
  { unfold node_to, recovery_to, emit. keeps_with ltac:(first [apply send_new_key_flag | apply zero_client_key_flag | apply keeps_modify; done]). }
  by rewrite (Hk _ _ _ E).
Qed.

Lemma recover_corrupt o r r' : Log.ok (plog (st r)) → recover o r = Ret (tt, r') → corrupt (rc r') = true.
Proof.
  intros Hok E. unfold recover in E. apply bind_inv in E as ([] & r1 & E1 & E). injection E1 as <-.
  apply bind_inv in E as (ok & r2 & E2 & E). apply begin_recovery_flag in E. rewrite E.
  destruct o as [f|]; [|by injection E2 as <- _].
  rewrite get_step in E2. apply bind_inv in E2 as ([b s] & r3 & E3 & E2). apply lift_inv in E3 as [E3 ->].
  apply restart_false in E3 as ->; [|done]. apply bind_inv in E2 as ([] & r4 & E4 & E2). by injection E2 as <- _.
Qed.

(** ** What a shutdown writes *)
(** The numbers in front of the certificates. *)
Definition head_bytes (r : Rep.Replica) : list Z :=
  long_bytes (v (vw r)) ++ bool_bytes (limbo (vw r)) ++ bool_bytes (has_nv_state (vw r)) ++
  long_bytes (seqno (cn r)) ++ long_bytes (last_stable (cn r)) ++ long_bytes (low_bound (cn r)) ++
  long_bytes (last_prepared (cn r)) ++ long_bytes (last_executed (cn r)) ++ long_bytes (last_tentative_execute (cn r)).

Context `{!FilePartsLaws}.

Lemma pcert_appends (x : PCert.Prepared_cert PP.Pre_prepare) : keeps prefix (Files.pcert_encode x).
Proof.
  unfold Files.pcert_encode. apply keeps_bind; [typeclasses eauto|apply cert_appends|]. intros ret. repeat appends_step.
Qed.

Lemma encode_log_appends {A} fetch (encode : A → ST File bool) ns ret :
  (∀ x, keeps prefix (encode x)) → keeps prefix (encode_log fetch encode ns ret).
Proof. intros He. unfold encode_log. keeps_with ltac:(apply He). Qed.

(** Every number of the loop has an entry that could be written. *)
Lemma encode_log_all {A} fetch (encode : A → ST File bool) ns ret f b f' : encode_log fetch encode ns ret f = Ret (b, f') →
  ∀ i, i ∈ ns → ∃ x g c g', fetch i = Ret x ∧ encode x g = Ret (c, g').
Proof.
  revert ret f. induction ns as [|n ns IH]; intros ret f E i Hi; [by apply elem_of_nil in Hi|].
  unfold encode_log in E. cbn [fold_each] in E. apply bind_inv in E as (ret1 & f1 & E1 & E).
  apply elem_of_cons in Hi as [->|Hi]; [|by eapply IH]. apply bind_inv in E1 as (x & f2 & E1 & E2).
  apply lift_inv in E1 as [E1 ->]. apply bind_inv in E2 as (c & f3 & E2 & _). by exists x, f, c, f3.
Qed.

Lemma pcert_encode_some x f b f' : Files.pcert_encode x f = Ret (b, f') → is_Some (PCert.pp x).
Proof.
  unfold Files.pcert_encode. intros E. apply bind_inv in E as (r & f1 & _ & E). apply bind_inv in E as (m & f2 & E & _).
  apply lift_inv in E as [E _]. apply of_option_Ret in E. by exists m.
Qed.

(** What [write_replica] does behind the numbers. *)
Definition write_rest (r : Rep.Replica) (n : Z) : ST File bool :=
  let c := cn r in
  ret ← encode_log (Log.fetch (plog (st r))) Files.pcert_encode (window (last_stable c)) true;
  ret ← encode_log (Log.fetch (clog (st r))) Files.cert_encode (window (last_stable c)) ret;
  ret ← encode_log (wl_fetch (elog (st r))) Files.cert_encode (seqZ (last_stable c) (max_out + 1)) ret;
  a ← st_shutdown (state r) (last_stable c);
  b ← vi_shutdown (prim r) (vi r);
  mret (ret && a && b && (n =? 9)).

Lemma write_replica_split r f : write_replica r f = write_rest r 9 (f ++ head_bytes r).
Proof.
  unfold write_replica, head_bytes. do 9 (rewrite (bind_step _ _ _ _ _ (fwrite_one _ _)), ?app_assoc). done.
Qed.

Lemma write_rest_appends r n : keeps prefix (write_rest r n).
Proof.
  unfold write_rest. keeps_with ltac:(first [apply st_shutdown_appends | apply vi_shutdown_appends | apply encode_log_appends; apply pcert_appends
    | apply encode_log_appends; apply cert_appends]).
Qed.

(** ** What a restart reads of it *)
(** The numbers of a replica that is not the primary of its view, and whose counters are in order. *)
Record in_order (r : Rep.Replica) : Prop := {
  io_view : 0 ≤ v (vw r) < 2 ^ 63 ∧ Z.rem (v (vw r)) num_replicas ≠ node_id;
  io_longs : Forall FMsgs.i64 [seqno (cn r); last_stable (cn r); low_bound (cn r); last_prepared (cn r); last_executed (cn r);
    last_tentative_execute (cn r)];
  io_order : last_stable (cn r) ≤ low_bound (cn r) ∧ last_executed (cn r) ≤ last_tentative_execute (cn r) ≤ last_prepared (cn r);
}.

Lemma long_step (old z : Z) {B} (k : Z * Z → M B) rest r : FMsgs.i64 z →
  (on_file (fread_field 8 long_of old) ≫= k) (long_bytes z ++ rest, r) = k (z, 1) (rest, r).
Proof.
  intros Hz. rewrite (file_step _ _ _ _ _ _ (fread_field_takes 8 long_of old (long_bytes z) (le_len _ _))).
  by rewrite FView.long_of_bytes.
Qed.

Lemma bool_step (old b : bool) {B} (k : bool * Z → M B) rest r :
  (on_file (fread_field 1 bool_of old) ≫= k) (bool_bytes b ++ rest, r) = k (b, 1) (rest, r).
Proof.
  rewrite (file_step _ _ _ _ _ _ (fread_field_takes 1 bool_of old (bool_bytes b) eq_refl)). by rewrite bool_of_bytes.
Qed.

Lemma restart_reads r0 r rest : in_order r0 →
  ∃ r1, restart (head_bytes r0 ++ rest, r) = restart_rest 9 true (rest, r1) ∧ st r1 = st r.
Proof.
  intros [[Hv Hp] Hl (Ho1 & Ho2 & Ho3)]. rewrite !Forall_cons in Hl. destruct Hl as (Hl1 & Hl2 & Hl3 & Hl4 & Hl5 & Hl6 & _).
  rewrite restart_split. unfold head_bytes. rewrite <- !app_assoc.
  set (r1 := set_vw r (mkViews (v (vw r0)) (Z.rem (v (vw r0)) num_replicas) (limbo (vw r0)) (has_nv_state (vw r0)))).
  assert (∀ more, read_view (long_bytes (v (vw r0)) ++ bool_bytes (limbo (vw r0)) ++ bool_bytes (has_nv_state (vw r0)) ++ more, r) =
    Ret ((3, true), (more, r1))) as Hview.
  { intros more. unfold read_view. rewrite this_step. cbn zeta.
    rewrite long_step by (unfold FMsgs.i64; lia). cbn beta iota. rewrite bool_step. cbn beta iota. rewrite bool_step. cbn beta iota.
    rewrite (proj2 (Z.ltb_ge _ _)), (proj2 (Z.eqb_neq node_id _)) by (lia || congruence). done. }
  rewrite (bind_step _ _ _ _ _ (Hview _)). cbn beta iota.
  set (c0 := cn r0) in *.
  set (r2 := set_cn r1 (mkCounters (seqno c0) (last_stable c0) (low_bound c0) (last_prepared c0) (last_executed c0)
    (last_tentative_execute c0) (max_rec_n (cn r)))).
  exists r2. split; [|done].
  assert (∀ more, read_counters 3 true (long_bytes (seqno c0) ++ long_bytes (last_stable c0) ++ long_bytes (low_bound c0) ++
    long_bytes (last_prepared c0) ++ long_bytes (last_executed c0) ++ long_bytes (last_tentative_execute c0) ++ more, r1) =
    Ret ((9, true), (more, r2))) as Hcount.
  { intros more. unfold read_counters. rewrite this_step. cbn zeta.
    do 6 (rewrite long_step by done; cbn beta iota).
    rewrite (proj2 (Z.leb_le _ (low_bound c0))), (proj2 (Z.leb_le _ (last_tentative_execute c0))), (proj2 (Z.leb_le _ (last_prepared c0))) by lia.
    done. }
  by rewrite (bind_step _ _ _ _ _ (Hcount _)).
Qed.

(** ** The properties *)

(** C34: a recovery never uses the state that was saved.  Whatever the file holds, and also when
    there is none, [recover] only goes on with the replica marked as corrupt: [restart] clears the
    log of prepared certificates and then requires a pre-prepare in the first of them, so that it
    fails, or stops the process. *)
Theorem recovery_never_restores o r r' : Log.ok (plog (st r)) → recover o r = Ret (tt, r') → corrupt (rc r') = true.
Proof. apply recover_corrupt. Qed.

(** C37: a shutdown that comes to its end has had a pre-prepare for every number of the window: the
    code encodes the pre-prepare of every certificate, and the behaviour for a missing one is
    undefined.  And when the replica is a backup of its view, with its counters in order, the file
    stops every replica that restarts from it with a failed assertion. *)
Theorem shutdown_file_stops_restart r b f r' : shutdown r = Ret ((b, f), r') →
  (∀ i, last_stable (cn r') < i ≤ last_stable (cn r') + max_out →
     ∃ x, Log.fetch (plog (st r')) i = Ret x ∧ is_Some (PCert.pp x)) ∧
  (in_order r' → ∀ r2, Log.ok (plog (st r2)) → restart (f, r2) = Err AssertFail).
Proof.
  unfold shutdown. intros E. do 5 (apply bind_inv in E as (? & ? & _ & E)).
  apply bind_inv in E as (r1 & s1 & E1 & E). injection E1 as -> ->. rename s1 into r1. apply lift_inv in E as [E ->].
  rewrite write_replica_split in E. change ([] ++ head_bytes r1) with (head_bytes r1) in E.
  pose proof (write_rest_appends _ _ _ _ _ E) as (rest & ->). split.
  - intros i Hi. unfold write_rest in E. apply bind_inv in E as (ret & f1 & E & _).
    destruct (encode_log_all _ _ _ _ _ _ _ E i) as (pc & g & k & g' & Hx & He); [apply elem_of_seqZ; lia|].
    exists pc. split; [done|]. by eapply pcert_encode_some.
  - intros Hr r2 Hok. destruct (restart_reads r1 r2 rest Hr) as (r3 & Hrun & Hs). etransitivity; [exact Hrun|].
    apply restart_rest_stops. cbn [snd]. by rewrite Hs.
Qed.
End files.

(** ** A group with a log of checkpoint certificates *)
Module SampleFiles.
Definition parts (c : Config) : Parts := let p := Sample.parts c in {|
  other_msg := @other_msg p; ss := @ss p; in_fetch_state := @in_fetch_state p; in_check_state := @in_check_state p;
  st_checkpoint := @st_checkpoint p; st_digest := @st_digest p; st_rollback := @st_rollback p;
  st_start_fetch := @st_start_fetch p; st_discard_checkpoint := @st_discard_checkpoint p; st_mark_stale := @st_mark_stale p;
  st_retrans_fetch := @st_retrans_fetch p; st_send_fetch := @st_send_fetch p; st_enforce_bound := @st_enforce_bound p;
  st_start_check := @st_start_check p; st_exec := @st_exec p;
  vinfo := @vinfo p; vi_has_new_view := @vi_has_new_view p; vi_add_missing_pp := @vi_add_missing_pp p;
  vi_add_missing_p := @vi_add_missing_p p; vi_mark_stable := @vi_mark_stable p; vi_add_complete := @vi_add_complete p;
  vi_add_incomplete := @vi_add_incomplete p; vi_view_change := @vi_view_change p; vi_add_vc := @vi_add_vc p;
  vi_add_nv := @vi_add_nv p; vi_add_vca := @vi_add_vca p; vi_fetch_request := @vi_fetch_request p;
  vi_my_new_view := @vi_my_new_view p; vi_max_view := @vi_max_view p; vi_max_maj_view := @vi_max_maj_view p;
  vi_clear := @vi_clear p; vi_mark_stale := @vi_mark_stale p; vi_enforce_bound := @vi_enforce_bound p;
  vi_has_nv_message := @vi_has_nv_message p; vi_received_vcs := @vi_received_vcs p; vi_missing_pps := @vi_missing_pps p;
  vi_my_vc_ack := @vi_my_vc_ack p; vi_resend_view_change := @vi_resend_view_change p;
  vi_resend_new_view := @vi_resend_new_view p; vi_resend_ack := @vi_resend_ack p;
  vi_resend_pre_prepare := @vi_resend_pre_prepare p; vi_send_proofs := @vi_send_proofs p;
  elog_t := Log.t (Cert.Certificate Checkpoint); elog_log := Log.window_log Cert.clear;
  elog_within_range := Log.within_range; elog_clear := Log.clear Cert.clear; elog_max_seqno := Log.max_seqno;
|}.

Definition config : Config := SampleNode.config 2.
#[local] Existing Instance config.
#[local] Existing Instance SampleNode.world.
#[local] Instance sample_parts : Parts := parts config.

(** The service is in memory that outlives the process, the view information starts afresh. *)
#[export] Instance file_parts : FileParts := {
  st_shutdown := λ _ n, (k ← fwrite [long_bytes n]; mret (k =? 1));
  st_restart := λ s _ _ corrupt, mret (negb corrupt, s);
  vi_shutdown := λ _ _, mret true;
  vi_restart := λ _ w _ _ corrupt, mret (negb corrupt, w);
}.

#[export] Instance file_parts_laws : FilePartsLaws.
Proof.
  split; intros; cbn.
  - keeps_with ltac:(apply fwrite_appends).
  - keeps_tac.
Qed.

#[local] Existing Instance FMsgs.commit_file.
#[local] Existing Instance FMsgs.prepare_file.
#[local] Existing Instance FMsgs.checkpoint_file.
#[local] Existing Instance FMsgs.pre_prepare_file.

(** A backup that has accepted a pre-prepare for every number of the window. *)
Definition backup : Rep.Replica :=
  let r := Rep.make Seqno_max Sample.new_service [] (Log.make 16 0 (Cert.make 0)) Sample.replies sample_principals 100 in
  let pc := PCert.with_pp PCert.make (Some (Sample.null_pp 1)) in
  set_st r (set_plog (Log.mkLog 1 8 (replicate 8 pc) 7) (st r)).

Definition after_shutdown : bool * File * Rep.Replica :=
  match shutdown backup with Ret p => p | Err _ => (false, [], backup) end.

Lemma shutdown_runs : shutdown backup = Ret (after_shutdown.1.1, after_shutdown.1.2, after_shutdown.2).
Proof.
  assert (Sample.returned (shutdown backup) = true) as Hr by (vm_compute; reflexivity).
  unfold after_shutdown. by destruct (shutdown backup) as [[[b f] r]|].
Qed.

(** A file of a view before the first. *)
Definition recovered : Rep.Replica := Sample.result backup (recover (λ _, 0) (Some (long_bytes (-1))) backup).
Lemma recover_runs : recover (λ _, 0) (Some (long_bytes (-1))) backup = Ret (tt, recovered).
Proof. apply Sample.result_of. vm_compute. reflexivity. Qed.

Lemma backup_log : Log.ok (plog (st backup)).
Proof. split_and!; cbn; [by exists 3|done|done]. Qed.

(** Its numbers; the records themselves are not compared. *)
Definition numbers (r : Rep.Replica) : list Z :=
  let c := cn r in
  [v (vw r); seqno c; last_stable c; low_bound c; last_prepared c; last_executed c; last_tentative_execute c].

Lemma after_numbers : numbers after_shutdown.2 = [0; 0; 0; 0; 0; 0; 0].
Proof. vm_compute. reflexivity. Qed.

Lemma after_stable : last_stable (cn after_shutdown.2) = 0.
Proof. exact (f_equal (λ l, nth 2 l 0) after_numbers). Qed.

Lemma after_in_order : in_order after_shutdown.2.
Proof.
  pose proof after_numbers as Hn. unfold numbers in Hn. revert Hn. generalize after_shutdown.2. intros r [= Hv H1 H2 H3 H4 H5 H6].
  split; rewrite ?Hv, ?H1, ?H2, ?H3, ?H4, ?H5, ?H6; [split; done| |done]. repeat constructor; done.
Qed.
End SampleFiles.

#[local] Existing Instance SampleFiles.file_parts.
#[local] Existing Instance SampleFiles.file_parts_laws.
#[local] Existing Instance FMsgs.commit_file.
#[local] Existing Instance FMsgs.prepare_file.
#[local] Existing Instance FMsgs.checkpoint_file.
#[local] Existing Instance FMsgs.pre_prepare_file.

Lemma recovery_never_restores_witness : corrupt (rc SampleFiles.recovered) = true.
Proof.
  exact (recovery_never_restores (H := SampleFiles.config) (H0 := SampleNode.world) (H1 := SampleFiles.sample_parts)
    (H7 := SampleNode.config_ok 2 ltac:(lia)) (λ _, 0) (Some (long_bytes (-1))) SampleFiles.backup SampleFiles.recovered
    SampleFiles.backup_log SampleFiles.recover_runs).
Defined.

Lemma shutdown_file_stops_restart_witness :
  (∃ x, Log.fetch (plog (st SampleFiles.after_shutdown.2)) 1 = Ret x ∧ is_Some (PCert.pp x)) ∧
  restart (H := SampleFiles.config) (H1 := SampleFiles.sample_parts) (H3 := FMsgs.prepare_file) (H4 := FMsgs.commit_file)
    (H5 := FMsgs.checkpoint_file) (H6 := FMsgs.pre_prepare_file) (λ _, 0)
    (SampleFiles.after_shutdown.1.2, SampleFiles.backup) = Err AssertFail.
Proof.
  destruct (shutdown_file_stops_restart (H := SampleFiles.config) (H0 := SampleNode.world) (H1 := SampleFiles.sample_parts)
    (H7 := SampleNode.config_ok 2 ltac:(lia)) (λ _, 0) SampleFiles.backup SampleFiles.after_shutdown.1.1 SampleFiles.after_shutdown.1.2
    SampleFiles.after_shutdown.2 SampleFiles.shutdown_runs) as [Hpp Hstop].
  split; [apply (Hpp 1); rewrite SampleFiles.after_stable; split; [reflexivity|discriminate]|].
  exact (Hstop SampleFiles.after_in_order SampleFiles.backup SampleFiles.backup_log).
Defined.
End FRep.
