(* ===== verification/RecoveryErrors.v ===== *)
(** * RecoveryErrors: a recovery does not end

    [Request::is_recovery] tests a bit of the request that no code sets.  The theorem is about
    the request with which a recovering replica asks the group for its recovery. *)
From S2P Require Import Prelude Node SeqLog Certificate Messages PreparedCert ReqQueue Support RepInfo.
From S2P Require Import PrePrepare Status NewKey StableEstimator ViewChange StateMonad World NewView ReplicaState.
From S2P Require Import ReplicaStatus ReplicaRecovery Replica ReplicaSample.
Import Auth Rep RStatus Recov.

Module RecErr.
Section recovery.
Context `{Config} `{World} `{Parts}.

(** ** The request of a recovering replica *)
Definition same_rr (r r' : Rep.Replica) : Prop := rr (rc r') = rr (rc r).

#[export] Instance same_rr_refl : Reflexive same_rr.
Proof. done. Qed.
#[export] Instance same_rr_trans : Transitive same_rr.
Proof. intros a b c H1' H2'. unfold same_rr in *. congruence. Qed.

Lemma rr_emit e : keeps same_rr (emit e).
Proof. by apply keeps_modify. Qed.
Lemma rr_state x : keeps same_rr (state_to x).
Proof. by apply keeps_modify. Qed.
Lemma rr_store f : keeps same_rr (store_to f).
Proof. by apply keeps_modify. Qed.
#[local] Hint Resolve rr_emit rr_state rr_store : keeps.

Lemma signed_request_plain rid cmd q : signed_request rid cmd = Ret q → Req.is_recovery q = false.
Proof. unfold signed_request. intros E. by invert_outcome. Qed.

(** Nothing marks the request of a recovering replica as a recovery request.  When the
    answers of the others complete the estimate, the replica leaves the group, starts to
    check its state and waits for the answer to a request that, at every replica, is not
    the recovery request that [execute_prepared] and [handle(Reply)] look for: it is
    executed by the service like a client's, and [recovering] never ends. *)
Theorem recovery_request_unmarked m r u r' q :
  qs (rc r) = Some q → handle_reply_stable m r = Ret (u, r') → qs (rc r') ≠ Some q →
  ∃ x, rr (rc r') = Some x ∧ Req.is_recovery x = false.
Proof.
  intros Hq E Hd. unfold handle_reply_stable in E. apply bind_inv in E as (r0 & r1 & E0 & E). injection E0 as <- <-.
  rewrite Hq in E. destruct (_ =? _); [|run_inv; congruence].
  apply bind_inv in E as (ok & r1 & Ev & E). apply lift_inv in Ev as [_ ->].
  apply bind_inv in E as ([s ready] & r1 & Es & E). apply lift_inv in Es as [_ ->].
  apply bind_inv in E as (u1 & r1 & E1 & E). injection E1 as _ <-.
  apply bind_inv in E as (r2 & r1 & E2 & E). injection E2 as <- <-.
  destruct ready; cbn [when] in E; [|run_inv; cbn in Hd; congruence]. unfold end_estimation in E.
  do 2 (apply bind_inv in E as (? & ? & _ & E)).
  apply bind_inv in E as (? & r3 & _ & E). apply bind_inv in E as (rid & r4 & _ & E).
  apply bind_inv in E as (req & r5 & Ex & E). apply lift_inv in Ex as [Ex ->].
  apply bind_inv in E as (? & r6 & Er & E). injection Er as _ <-.
  exists req. split; [|by eapply signed_request_plain].
  match type of E with ?m ?s = _ => assert (keeps same_rr m) as Hk
    by (unfold with_rqueue, with_ro_rqueue, send_others; keeps_tac); change (Some req) with (rr (rc s)) end.
  by eapply Hk.
Qed.
End recovery.

(** Replica 2 begins its recovery, and then replica 0 answers after replica 1. *)
Definition c2 : Config := SampleNode.config 2.
Definition replica : Type := @Rep.Replica (Sample.parts c2).
Definition recovering : replica :=
  Sample.result (Sample.start c2) (begin_recovery (H := c2) (H0 := SampleNode.world) (H1 := Sample.parts c2) false (Sample.start c2)).
Definition nonce (r : replica) : Z := match qs (rc r) with Some q => SE.qs_nonce q | None => 0 end.

(** The answer of [i] under the key that replica 2 sent to it. *)
Definition answer_of (i : Z) (r : replica) : SE.Reply_stable :=
  match zget (ps (nd r)) i with
  | Some p => SE.new_reply_stable (H := SampleNode.config i) sample_md 0 0 (nonce r)
                (mkPrincipal 2 0 0 0 (hmac_in p) (hmac_in p))
  | None => SE.mkReplyStable 0 0 0 0 0 0 []
  end.
#[local] Abbreviation handle i r :=
  (handle_reply_stable (H := c2) (H0 := SampleNode.world) (H1 := Sample.parts c2) (answer_of i r) r).
Definition one_answer : replica := Sample.result recovering (handle 1 recovering).
Definition estimated : replica := Sample.result recovering (handle 0 one_answer).

Lemma recovery_request_unmarked_witness :
  bool_decide (is_Some (qs (rc one_answer))) = true ∧ qs (rc estimated) = None ∧
  ∃ x, rr (rc estimated) = Some x ∧ Req.is_recovery x = false.
Proof.
  assert (bool_decide (is_Some (qs (rc one_answer))) = true) as Hb by (vm_compute; reflexivity).
  assert (bool_decide (is_Some (qs (rc estimated))) = false) as Hn by (vm_compute; reflexivity).
  assert (Sample.returned (handle 0 one_answer) = true) as Hr by (vm_compute; reflexivity).
  split; [exact Hb|]. destruct (bool_decide_eq_true_1 _ Hb) as [q Hq]. pose proof (bool_decide_eq_false_1 _ Hn) as Hn'.
  pose proof (proj2 (eq_None_not_Some (qs (rc estimated))) Hn') as Hnone.
  split; [exact Hnone|].
  refine (recovery_request_unmarked (H := c2) (H0 := SampleNode.world) (H1 := Sample.parts c2) (answer_of 0 one_answer)
    one_answer tt estimated q Hq (Sample.result_of recovering (handle 0 one_answer) Hr) _).
  intros Hs. pose proof (eq_trans (eq_sym Hnone) Hs) as Hbad. discriminate Hbad.
Defined.
End RecErr.
