(* ===== verification/ViewErrors.v ===== *)
(** * ViewErrors: messages that stop a replica before they are authenticated

    A Status or Query_stable that does not verify is answered with the last New_key, to
    the principal that the message names, and [Node::send] asserts that there is one.

    [View_info::add] keeps the view of a received view-change in an [int] and looks for the
    new-view information of that view, but [NV_info::add] asserts that the view itself is
    the one of the information.  The theorem is about the whole replica, with the real
    view information as a part (ViewParts.v). *)
From S2P Require Import Prelude Node SeqLog Certificate Messages PreparedCert ReqQueue Support RepInfo.
From S2P Require Import PrePrepare Status NewKey StableEstimator ViewChange StateMonad World NewView NVInfo ViewInfo.
From S2P Require Import ReplicaState ViewParts ReplicaStatus ReplicaRecovery Replica ReplicaSample.
Import Auth Rep RStatus Recov Replica.

Module VE.
Section stops.
Context `{Config} `{World}.

Lemma to_int_high x k : 0 ≤ x < 2 ^ 31 → to_int (x + 2 ^ 32 * k) = x.
Proof.
  intros Hx. unfold to_int, wrapS. replace (x + 2 ^ 32 * k + 2 ^ (32 - 1)) with (x + 2 ^ 31 + k * 2 ^ 32) by lia.
  rewrite Z.mod_add by lia. rewrite Z.mod_small by lia. lia.
Qed.

(** The call of [NV_info::add] with a view-change for another view. *)
Lemma nv_add_vc_asserts e i m ok (s : VI.St) n :
  NVI.at_ (VI.last_nvs (VI.me s)) i = Ret n → NVI.v n ≠ VC.view m → VI.nv_add_vc e i m ok s = Err AssertFail.
Proof.
  intros Hn Hv. unfold VI.nv_add_vc, VI.with_nv, VI.self. erewrite bind_step by done. erewrite bind_step by done.
  erewrite bind_step by (unfold lift; rewrite Hn; done). apply bind_fails. unfold lift, NVI.add_vc, NVI.self.
  erewrite bind_step by done. erewrite bind_fails; [done|]. cbn [NVI.me].
  unfold assert_, lift. by rewrite (proj2 (Z.eqb_neq _ _)).
Qed.
End stops.

(** C20: one view-change message that nobody has authenticated stops a replica: if its view
    exceeds the replica's by a multiple of [2^32], and the replica has the information on
    the new view of its current view (as it has in view 0, and after every view change
    that succeeded) and is not estimating its state, the handler ends in a failed assertion, whatever else the message
    holds and from whoever it comes. *)
Theorem long_view_stops_replica `{Config} `{World} (p : Parts) (r : @Rep.Replica (VP.with_view_info p))
    (m : VC.View_change) (n : NVI.NV_info) (k : Z) :
  qs (rc r) = None → 0 ≤ VI.v (vi r) < 2 ^ 31 → 1 ≤ k → VC.view m = VI.v (vi r) + 2 ^ 32 * k →
  VC.verify w_hmac_md w_char_signed w_digest_of (keys_of r) m = Ret false →
  NVI.at_ (VI.last_nvs (vi r)) (prim r (VI.v (vi r))) = Ret n → NVI.v n = VI.v (vi r) →
  recv (H1 := VP.with_view_info p) (Recv_view_change m) r = Err AssertFail.
Proof.
  intros Hqs Hv Hk Hm Hver Hn Hnv. unfold recv. erewrite bind_step by done. unfold dropped. rewrite Hqs, andb_false_r, bool_decide_eq_false_2 by by intros []. cbn [andb orb].
  cbn [handle]. unfold handle_view_change. erewrite bind_step by done.
  assert (v_vc (H1 := VP.with_view_info p) r m = false) as -> by (unfold v_vc; by rewrite Hver).
  rewrite andb_false_r. erewrite bind_step by done. erewrite bind_step by done. apply bind_fails.
  cbn [vi_add_vc VP.with_view_info]. unfold lift, VP.run.
  assert (VI.add_vc (env_of r) m (VI.mkSt (vi r) []) = Err AssertFail) as ->; [|done].
  unfold VI.add_vc, VI.self. erewrite bind_step by done. cbn [VI.me]. rewrite Hm, to_int_high by done.
  rewrite Z.ltb_irrefl. change (e_primary (env_of r)) with (prim (H1 := VP.with_view_info p) r).
  erewrite bind_step; [|unfold VI.nv_at, VI.self; erewrite bind_step by done; unfold lift; cbn [VI.me]; by rewrite Hn].
  rewrite Hnv, Z.eqb_refl. erewrite bind_step by (unfold lift; cbn [e_keys env_of]; rewrite Hver; done).
  apply bind_fails. eapply nv_add_vc_asserts; [exact Hn|]. rewrite Hm, Hnv. lia.
Qed.

(** Replica 2 in its initial state, and an empty message. *)
Definition sample_parts : Parts :=
  VP.with_view_info (H := SampleNode.config 2) (H0 := SampleNode.world) (Sample.parts (SampleNode.config 2)).
Definition sample_start : @Rep.Replica sample_parts :=
  Rep.make (H := SampleNode.config 2) (H1 := sample_parts) Seqno_max Sample.new_service
    (VI.make (H := SampleNode.config 2) 2 0)
    (CheckpointLog.make (H := SampleNode.config 2) (Cert.make (H := SampleNode.config 2) 0)) Sample.replies sample_principals 100.
Definition sample_message : VC.View_change := VC.mkVc 0 0 (2 ^ 32) 0 [] 3 0 0 [] Dig.zero [] [].

Lemma long_view_stops_replica_witness :
  recv (H := SampleNode.config 2) (H0 := SampleNode.world) (H1 := sample_parts) (Recv_view_change sample_message) sample_start
    = Err AssertFail.
Proof.
  apply (long_view_stops_replica (H := SampleNode.config 2) (H0 := SampleNode.world) (Sample.parts (SampleNode.config 2))
    sample_start sample_message (NVI.make (H := SampleNode.config 2)) 1); [reflexivity|cbn; lia|lia|reflexivity..].
Defined.

(** No principal has this number, and it does not stand for all replicas. *)
Definition stray `{Config} (i : Z) : Prop := i < -1 ∨ num_principals ≤ i.

Lemma stray_not_replica `{Config} i : ConfigOk → stray i → is_replica i = false.
Proof.
  intros Hc Hi. pose proof config_principals. unfold is_replica, num_replicas, stray in *. zify.
  apply andb_false_iff. rewrite Z.leb_gt, Z.ltb_ge. lia.
Qed.

Lemma new_key_to_stray `{Config} `{World} `{Parts} r k i :
  ConfigOk → last_new_key (nd r) = Some k → stray i → send_last_new_key i r = Err AssertFail.
Proof.
  intros Hc Hk Hi. pose proof config_id. unfold send_last_new_key. erewrite bind_step by done. rewrite Hk. unfold send_to. apply bind_fails.
  unfold assert_, lift. unfold stray in Hi.
  assert ((i =? -1) || ((0 <=? i) && (i <? num_principals)) = false) as ->; [|done].
  apply orb_false_iff. rewrite Z.eqb_neq, andb_false_iff, Z.leb_gt, Z.ltb_ge. lia.
Qed.

(** Nobody has to be authenticated to stop a replica that has sent a New_key message
    (each of them sends one before its event loop): a Status or a Query_stable message
    with a sender that is no principal ends in a failed assertion, whatever the rest of
    the message is.  The replica answers a message that it cannot verify with its last
    New_key, and the sender that the message names is not checked before. *)
Theorem stray_sender_stops_replica `{Config} `{World} `{Parts} (Hc : ConfigOk) r k s q :
  last_new_key (nd r) = Some k → stray (Stat.id s) → stray (SE.qs_id q) →
  recv (Recv_status s) r = Err AssertFail ∧ recv (Recv_query_stable q) r = Err AssertFail.
Proof.
  intros Hk Hs Hq. unfold recv. rewrite !(bind_step get _ r r r eq_refl). unfold dropped.
  rewrite !andb_false_r. cbn [orb handle]. pose proof (config_id). split.
  - unfold handle_status. rewrite (proj2 (Z.eqb_neq (Stat.id s) node_id)) by (unfold stray in Hs; lia).
    erewrite bind_step by done. unfold Stat.verify. rewrite (stray_not_replica _ Hc Hs). cbn [negb orb].
    erewrite bind_step by done. cbn [andb negb]. rewrite orb_true_r. by apply (new_key_to_stray r k).
  - unfold handle_query_stable. erewrite bind_step by done. unfold SE.query_stable_verify.
    rewrite (stray_not_replica _ Hc Hq). cbn [negb]. erewrite bind_step by done. by apply (new_key_to_stray r k).
Qed.

(** Replica 2 before its event loop, and messages of sender 100. *)
Definition sample_ready : @Rep.Replica sample_parts :=
  Sample.result sample_start (begin (H := SampleNode.config 2) (H0 := SampleNode.world) (H1 := sample_parts) sample_start).
Definition stray_status : Stat.Status := Stat.mkStatus 1 40 0 0 0 100 0 0 [].
Definition stray_query : SE.Query_stable := SE.mkQueryStable 0 16 100 0 [].

Lemma stray_sender_stops_replica_witness :
  recv (H := SampleNode.config 2) (H0 := SampleNode.world) (H1 := sample_parts) (Recv_status stray_status) sample_ready
    = Err AssertFail ∧
  recv (H := SampleNode.config 2) (H0 := SampleNode.world) (H1 := sample_parts) (Recv_query_stable stray_query) sample_ready
    = Err AssertFail.
Proof.
  assert (bool_decide (is_Some (last_new_key (nd sample_ready))) = true) as Hk by (vm_compute; reflexivity).
  apply bool_decide_eq_true in Hk as [k Hk].
  assert (0 ≤ 2 < 5) as Hid by lia.
  apply (stray_sender_stops_replica (H := SampleNode.config 2) (H0 := SampleNode.world) (H1 := sample_parts)
    (SampleNode.config_ok 2 Hid) sample_ready k stray_status stray_query Hk); right; vm_compute; discriminate.
Defined.
End VE.
