(* ===== verification/Group.v ===== *)
(** * Group: four replicas and the network between them

    The replicas of Replica.v with the real view information (ViewParts.v), run together:
    what one sends is delivered, in order, to the others, unless the network or a crash
    loses it.  The runs are closed computations, examples and not general statements: a
    request and then a change of view that succeed, the repair of losses, and a change of
    view that does not succeed.  [seen_by] is what one replica receives in a run like the first. *)
From S2P Require Import Prelude Node SeqLog Certificate Messages PreparedCert ReqQueue Support RepInfo.
From S2P Require Import PrePrepare ViewChange StateMonad World NewView NVInfo ViewInfo ReplicaState ViewParts Replica ReplicaSample.
Import Auth Rep Replica.

Module Group.
Definition conf (i : Z) : Config := SampleNode.config i.
Definition parts (i : Z) : Parts :=
  VP.with_view_info (H := conf i) (H0 := SampleNode.world) (Sample.parts (conf i)).
Definition node (i : Z) : Type := @Rep.Replica (parts i).

Definition start (i : Z) : node i :=
  Rep.make (H := conf i) (H1 := parts i) Seqno_max Sample.new_service (VI.make (H := conf i) i 0)
    (CheckpointLog.make (H := conf i) (Cert.make (H := conf i) 0)) Sample.replies sample_principals 100.

(** What the receiver of an effect observes, with the receiver. *)
Definition delivered {i} (x : @effect (parts i)) : list (Z * event) :=
  match x with
  | ESendPp m d => [(d, Recv_pre_prepare m)]
  | ESendPrepare m d => [(d, Recv_prepare m)]
  | ESendCommit m d => [(d, Recv_commit m)]
  | ESendCheckpoint m d => [(d, Recv_checkpoint m)]
  | ESendStatus m d => [(d, Recv_status m)]
  | ESendNewKey m d => [(d, Recv_new_key m)]
  | ESendOther (inl (MVc m)) d => [(d, Recv_view_change m)]
  | ESendOther (inl (MNv m)) d => [(d, Recv_new_view m)]
  | ESendOther (inl (MAck m)) d => [(d, Recv_vc_ack m)]
  | ESendOther (inl (MPrepare m)) d => [(d, Recv_prepare m)]
  | _ => []
  end.

(** One event at a replica: its state afterwards, and what it sends. *)
Definition step (i : Z) (r : node i) (e : event) : outcome (node i * list (Z * event)) :=
  let r := mkReplica (cn r) (vw r) (rc r) (st r) (state r) (vi r) (nd r) [] in
  '(_, r) ← recv (H := conf i) (H0 := SampleNode.world) (H1 := parts i) e r;
  Ret (r, out r ≫= delivered).

(** The group, the packets under way (sender, receiver, event) and the replicas that
    stopped in an assertion. *)
Record net := mkNet { n0 : node 0; n1 : node 1; n2 : node 2; n3 : node 3; wire : list (Z * Z * event); stopped : list Z }.

Definition initial : net := mkNet (start 0) (start 1) (start 2) (start 3) [] [].

Definition packets (src : Z) (l : list (Z * event)) : list (Z * Z * event) :=
  l ≫= λ '(d, e), if d =? -1 then (λ t, (src, t, e)) <$> filter (λ t, t ≠ src) [0; 1; 2; 3] else [(src, d, e)].

Definition with_step {i} (n : net) (o : outcome (node i * list (Z * event))) (put : node i → net → net) : net :=
  match o with
  | Ret (r, l) => let n := put r n in mkNet (n0 n) (n1 n) (n2 n) (n3 n) (wire n ++ packets i l) (stopped n)
  | Err _ => mkNet (n0 n) (n1 n) (n2 n) (n3 n) (wire n) (stopped n ++ [i])
  end.

Definition put0 (r : node 0) (n : net) : net := mkNet r (n1 n) (n2 n) (n3 n) (wire n) (stopped n).
Definition put1 (r : node 1) (n : net) : net := mkNet (n0 n) r (n2 n) (n3 n) (wire n) (stopped n).
Definition put2 (r : node 2) (n : net) : net := mkNet (n0 n) (n1 n) r (n3 n) (wire n) (stopped n).
Definition put3 (r : node 3) (n : net) : net := mkNet (n0 n) (n1 n) (n2 n) r (wire n) (stopped n).

Definition deliver (n : net) (dst : Z) (e : event) : net :=
  if dst =? 0 then with_step n (step 0 (n0 n) e) put0
  else if dst =? 1 then with_step n (step 1 (n1 n) e) put1
  else if dst =? 2 then with_step n (step 2 (n2 n) e) put2
  else if dst =? 3 then with_step n (step 3 (n3 n) e) put3
  else n.

(** The oldest packet arrives, or is lost. *)
Definition advance (lost : Z → event → bool) (n : net) : net :=
  match wire n with
  | [] => n
  | (_, dst, e) :: rest =>
      let n := mkNet (n0 n) (n1 n) (n2 n) (n3 n) rest (stopped n) in
      if lost dst e then n else deliver n dst e
  end.

Fixpoint run (steps : nat) (lost : Z → event → bool) (n : net) : net :=
  match steps with O => n | S k => run k lost (advance lost n) end.

(** Events from outside of the group. *)
Definition inject (l : list (Z * event)) (n : net) : net :=
  mkNet (n0 n) (n1 n) (n2 n) (n3 n) (wire n ++ ((λ p, (4, p.1, p.2)) <$> l)) (stopped n).

(** View, whether its new view is complete, and the last batch executed and committed. *)
Definition view_of {i} (r : node i) : Z * bool * Z * Z :=
  (v (vw r), has_new_view (H := conf i) (H1 := parts i) r, last_tentative_execute (cn r), last_executed (cn r)).
Definition views (n : net) := (view_of (n0 n), view_of (n1 n), view_of (n2 n), view_of (n3 n)).
Definition quiet (n : net) : bool := bool_decide (length (wire n) = O) && bool_decide (length (stopped n) = O).

(** The keys with which a replica authenticates its messages. *)
Definition out_keys {i} (r : node i) : list (list Z) := (λ p, HmacModel.key (hmac_out p)) <$> ps (nd r).

(** *** The runs *)
Definition client_request : list (Z * event) := (λ i, (i, Recv_request (Sample.request 9 5))) <$> [0; 1; 2; 3].
Definition timeouts : list (Z * event) := (λ i, (i, Vtimer_expired)) <$> [1; 2; 3].
Definition statuses : list (Z * event) := (λ i, (i, Stimer_expired)) <$> [0; 1; 2; 3].
Definition key_changes : list (Z * event) := (λ i, (i, Atimer_expired)) <$> [0; 1; 2; 3].

Definition no_loss (_ : Z) (_ : event) : bool := false.
Definition crashed (i dst : Z) (_ : event) : bool := dst =? i.
(** No message of the agreement arrives. *)
Definition jammed (_ : Z) (e : event) : bool :=
  match e with Recv_pre_prepare _ | Recv_prepare _ | Recv_commit _ => true | _ => false end.
(** Only replica 3 receives prepares, and nobody receives commits. *)
Definition bad_links (dst : Z) (e : event) : bool :=
  match e with Recv_prepare _ => negb (dst =? 3) | Recv_commit _ => true | _ => false end.

Definition executed : net := run 100 no_loss (inject client_request initial).
Definition changed : net := run 100 (crashed 0) (inject timeouts executed).

Definition rekeyed : net := run 100 no_loss (inject key_changes initial).
Definition all_lost : net := run 100 jammed (inject client_request rekeyed).
Definition repaired : net := run 200 no_loss (inject statuses all_lost).

(** The timers for a view change, and then those for the statuses. *)
Definition next_view (n : net) : net :=
  run 200 (crashed 0) (inject statuses (run 100 (crashed 0) (inject timeouts n))).
Definition prepared_at_3 : net := run 100 bad_links (inject client_request initial).
Definition view1 : net := next_view prepared_at_3.
Definition view2 : net := next_view view1.
Definition view3 : net := next_view view2.

(** The events that a replica observes in a run. *)
Fixpoint seen (steps : nat) (i : Z) (lost : Z → event → bool) (n : net) : list event :=
  match steps with
  | O => []
  | S k =>
      match wire n with
      | (_, dst, e) :: _ => if (dst =? i) && negb (lost dst e) then [e] else []
      | [] => []
      end ++ seen k i lost (advance lost n)
  end.

(** The same with the start of the event loops, in which the replicas exchange keys. *)
Definition boot (i : Z) (r : node i) : outcome (node i * list (Z * event)) :=
  '(_, r) ← begin (H := conf i) (H0 := SampleNode.world) (H1 := parts i) r;
  Ret (r, out r ≫= delivered).
Definition booted : net :=
  with_step (with_step (with_step (with_step initial (boot 0 (start 0)) put0) (boot 1 (start 1)) put1)
    (boot 2 (start 2)) put2) (boot 3 (start 3)) put3.
Definition keyed : net := run 50 no_loss booted.
Definition served : net := run 100 no_loss (inject client_request keyed).

(** What replica [i] receives: keys, a request and its agreement, and a change of view. *)
Definition seen_by (i : Z) : list event :=
  seen 50 i no_loss booted ++ seen 100 i no_loss (inject client_request keyed) ++
  seen 100 i (crashed 0) (inject timeouts served).

(** The normal case and a change of view, end to end: with no losses a request is
    executed and committed by all four replicas as batch 1; when the timers of replicas
    1, 2 and 3 then expire and replica 0 no longer answers, the view-changes, their
    acknowledgements, the new-view message and the prepares of the new view lead all
    three into view 1 with its new view complete and the batch still executed.  Nobody
    stops and no packet is left. *)
Example request_survives_view_change :
  views executed = ((0, true, 1, 1), (0, true, 1, 1), (0, true, 1, 1), (0, true, 1, 1)) ∧
  views changed = ((0, true, 1, 1), (1, true, 1, 1), (1, true, 1, 1), (1, true, 1, 1)) ∧
  quiet executed = true ∧ quiet changed = true.
Proof. vm_compute. done. Qed.

(** What a replica lost it gets again.  All replicas change their session keys, and
    accept the keys of the others.  Then every message of the agreement on a request is
    lost, so that no replica has even executed it tentatively.  One round of statuses is
    enough: the replicas find out what the others lack and send it again with codes under
    the new keys, and all four commit the request.  Nobody stops. *)
Example statuses_repair_losses :
  views rekeyed = ((0, true, 0, 0), (0, true, 0, 0), (0, true, 0, 0), (0, true, 0, 0)) ∧
  views all_lost = ((0, true, 0, 0), (0, true, 0, 0), (0, true, 0, 0), (0, true, 0, 0)) ∧
  views repaired = ((0, true, 1, 1), (0, true, 1, 1), (0, true, 1, 1), (0, true, 1, 1)) ∧
  out_keys (n1 rekeyed) ≠ out_keys (n1 initial) ∧
  quiet rekeyed = true ∧ quiet all_lost = true ∧ quiet repaired = true.
Proof. vm_compute. done. Qed.

(** One crash can stop the group for good.  A request prepares at replica 3 only,
    because the links to the others lose prepares and commits; then replica 0 crashes and
    no packet between the other three is ever lost again.  They time out together, and
    exchange view-changes, acknowledgements and then their statuses: view 1 stays
    incomplete, and so do view 2 and view 3, each with a primary that works and all three
    view-changes at hand (see [NVL.late_report_uncounted]); nothing is sent again that
    would help, and the request is not committed. *)
Example crash_blocks_view_changes :
  views prepared_at_3 = ((0, true, 0, 0), (0, true, 0, 0), (0, true, 0, 0), (0, true, 1, 0)) ∧
  views view1 = ((0, true, 0, 0), (1, false, 0, 0), (1, false, 0, 0), (1, false, 0, 0)) ∧
  views view2 = ((0, true, 0, 0), (2, false, 0, 0), (2, false, 0, 0), (2, false, 0, 0)) ∧
  views view3 = ((0, true, 0, 0), (3, false, 0, 0), (3, false, 0, 0), (3, false, 0, 0)) ∧
  quiet view1 = true ∧ quiet view2 = true ∧ quiet view3 = true.
Proof. vm_compute. done. Qed.
End Group.
