(* ===== verification/ReplicaInv.v ===== *)
(** * ReplicaInv: the invariant of a replica

    [inv] relates the counters of a replica to its logs and says that its queues and sets
    are well formed.  [keeps K] is shown for every method of Replica.v, bottom up: the
    primitives are in the hint database [keeps], and [keeps_tac] follows the code of a
    method.  [mark_stable] raises [last_stable] before it truncates the logs; [core h] is
    the invariant with the heads of the logs at [h], which holds in between. *)
From S2P Require Import Prelude Node SeqLog KMax Certificate Messages PreparedCert ReqQueue Support RepInfo.
From S2P Require Import PrePrepare Status NewKey StableEstimator ViewChange StateMonad World NewView ReplicaState.
From S2P Require Import ReplicaStatus ReplicaRecovery Replica ViewInfo ViewParts ViewInv ReplicaSample Group.
Import Auth Rep RStatus Recov Replica.
#[local] Existing Instance Req.request_msg.

Module Inv.
Section inv.
Context `{Config} `{World} `{Parts} `{!ViewLaws}.

(** The pre-prepare in the entry of [n] is that of batch [n], to a program that computes
    with [int]s. *)
Definition pp_at (n : Z) (x : PCert.Prepared_cert PP.Pre_prepare) : Prop :=
  ∀ m, PCert.pp x = Some m → same_number (PP.seqno m) n.

Definition queue_ok (q : @RQ.Req_queue Req.Request) : Prop := ∃ l, RQ.queue_rep q l.

Definition log_ok {T} (l : Log.t T) (h : Z) : Prop := Log.ok l ∧ Log.max_size l = max_out ∧ Log.head l = h.

(** The certificates for commits wait for a quorum. *)
Definition quorum_cert (x : Cert.Certificate Commit) : Prop := Cert.complete x = 2 * max_faulty + 1.
Definition clog_ok (l : Log.t (Cert.Certificate Commit)) (h : Z) : Prop := log_ok l h ∧ Forall quorum_cert (Log.elems l).

Definition stores_ok (h : Z) (s : Stores) : Prop :=
  log_ok (plog s) h ∧ clog_ok (clog s) h ∧
  (∀ n x, Log.fetch (plog s) n = Ret x → pp_at n x) ∧
  queue_ok (rqueue s) ∧ queue_ok (ro_rqueue s) ∧
  ZSet.ok k_id (sset s) ∧ ZSet.max_size (sset s) = num_replicas ∧
  (∀ i c, ZSet.lookup (sset s) i = Some c → checkpoint_stable c = true).

Record core (h : Z) (r : Rep.Replica) : Prop := {
  c_stable : 0 ≤ last_stable (cn r) ≤ low_bound (cn r);
  c_head : 0 ≤ h ≤ last_stable (cn r) + 1;
  c_exec : last_tentative_execute (cn r) ≤ last_executed (cn r) + 1;
  c_stores : stores_ok h (st r);
}.

Definition inv (r : Rep.Replica) : Prop := core (last_stable (cn r) + 1) r.

(** The node knows the primary of its view, and the view information keeps its promises. *)
Definition view_inv (r : Rep.Replica) : Prop :=
  cur_primary (vw r) = Z.rem (v (vw r)) num_replicas ∧ vi_ok (vi r).

(** The relations that the methods keep: [K0] those that leave the window alone, [K] all. *)
Definition R0 (r r' : Rep.Replica) : Prop :=
  (∀ h, core h r → core h r') ∧ last_stable (cn r') = last_stable (cn r) ∧
  (qs (rc r) = None → qs (rc r') = None) ∧ ∃ l, out r' = out r ++ l.

Definition in_bounds (r : Rep.Replica) : Prop := last_stable (cn r) < 2 ^ 31 - 1.

Definition R (r r' : Rep.Replica) : Prop :=
  (in_bounds r' → inv r → inv r') ∧ last_stable (cn r) ≤ last_stable (cn r') ∧
  (qs (rc r) = None → qs (rc r') = None) ∧ ∃ l, out r' = out r ++ l.

Definition K0 : Rep.Replica → Rep.Replica → Prop := within view_inv R0.
Definition K : Rep.Replica → Rep.Replica → Prop := within view_inv R.

#[export] Instance R0_refl : Reflexive R0.
Proof. intros r. do 3 (split; [done|]). exists []. by rewrite app_nil_r. Qed.
#[export] Instance R0_trans : Transitive R0.
Proof.
  intros a b c (Ha1 & Ha2 & Ha3 & l & Ha4) (Hb1 & Hb2 & Hb3 & l' & Hb4).
  split; [auto|]. split; [congruence|]. split; [auto|]. exists (l ++ l'). by rewrite Hb4, Ha4, app_assoc.
Qed.
#[export] Instance R_refl : Reflexive R.
Proof. intros r. do 3 (split; [done|]). exists []. by rewrite app_nil_r. Qed.
#[export] Instance R_trans : Transitive R.
Proof.
  intros a b c (Ha1 & Ha2 & Ha3 & l & Ha4) (Hb1 & Hb2 & Hb3 & l' & Hb4). split; [|split; [lia|split; [auto|]]].
  - intros Hb Ha. apply Hb1; [done|]. apply Ha1; [|done]. unfold in_bounds in *. lia.
  - exists (l ++ l'). by rewrite Hb4, Ha4, app_assoc.
Qed.
#[export] Instance K0_refl : Reflexive K0 := within_refl _ _.
#[export] Instance K0_trans : Transitive K0 := within_trans _ _.
#[export] Instance K_refl : Reflexive K := within_refl _ _.
#[export] Instance K_trans : Transitive K := within_trans _ _.

Lemma K0_K r r' : K0 r r' → K r r'.
Proof.
  intros HK Hv. destruct (HK Hv) as (Hv' & Hc & Hs & Hrest). split; [done|].
  split; [|split; [lia|done]]. intros _ Hi. unfold inv. rewrite Hs. by apply Hc.
Qed.

Lemma keeps_K0_K {A} (m : ST Rep.Replica A) : keeps K0 m → keeps K m.
Proof. intros Hm r a r' E. by eapply K0_K, Hm. Qed.

(** What a method reads satisfies [view_inv], so that the laws of the view information
    apply to what it computes. *)
Lemma K0_get {A} (f : Rep.Replica → ST Rep.Replica A) : (∀ r, view_inv r → keeps K0 (f r)) → keeps K0 (get ≫= f).
Proof. apply keeps_get_within. typeclasses eauto. Qed.
Lemma K_get {A} (f : Rep.Replica → ST Rep.Replica A) : (∀ r, view_inv r → keeps K (f r)) → keeps K (get ≫= f).
Proof. apply keeps_get_within. typeclasses eauto. Qed.

Lemma view_inv_env r : view_inv r → env_ok (env_of r).
Proof.
  intros [Hp _] x. unfold env_of, e_primary, keys_of, prim, primary. cbn. case_match; zprop; [|done]. by subst x.
Qed.
Lemma view_inv_vi r : view_inv r → vi_ok (vi r).
Proof. by intros [_ ?]. Qed.

Create HintDb laws discriminated.
#[local] Hint Resolve view_inv_env view_inv_vi ok_add_missing_pp ok_add_missing_p ok_mark_stable ok_add_complete
  ok_add_incomplete ok_view_change ok_add_vc ok_add_nv ok_add_vca ok_fetch_request ok_clear ok_mark_stale
  ok_enforce_bound ok_received_vcs ok_missing_pps ok_resend_view_change ok_resend_new_view ok_resend_ack
  ok_resend_pre_prepare ok_send_proofs : laws.

#[local] Ltac view_step :=
  match goal with
  | |- keeps K0 (mbind _ get) => apply K0_get
  | |- keeps K (mbind _ get) => apply K_get
  | |- keeps _ (mbind _ (lift _)) => apply keeps_lift_bind
  end.
#[local] Ltac keeps_tac := keeps_with ltac:(first [view_step]).

(** *** The queues and logs *)
Lemma queue_remove_client q cid rid q' b : queue_ok q → RQ.remove_client q cid rid = Ret (q', b) → queue_ok q'.
Proof.
  intros [l Hl] E. assert (0 ≤ cid < num_principals) as Hc.
  { unfold RQ.remove_client, RQ.node_at in E. destruct (zget (RQ.reqs q) cid) eqn:G; [|done].
    rewrite <- (RQ.rep_len _ _ Hl). by apply zget_Some_lt in G. }
  destruct (RQ.remove_client_rep q l cid rid Hl Hc) as (q1 & b1 & E1 & Hq & _).
  rewrite E in E1. injection E1 as <- _. by eexists.
Qed.

Lemma queue_append q m q' b : queue_ok q → RQ.append q m = Ret (q', b) → queue_ok q'.
Proof.
  intros [l Hl] E. assert (0 ≤ client_id m < num_principals) as Hc.
  { unfold RQ.append, RQ.node_at in E. destruct (zget (RQ.reqs q) (client_id m)) eqn:G; [|done].
    rewrite <- (RQ.rep_len _ _ Hl). by apply zget_Some_lt in G. }
  destruct (RQ.append_rep q l m Hl Hc) as (q1 & E1 & Hq). rewrite E in E1. injection E1 as <- _. by eexists.
Qed.

Lemma queue_remove q q' o : queue_ok q → RQ.remove q = Ret (q', o) → queue_ok q'.
Proof.
  intros [l Hl] E. destruct (RQ.remove_rep q l Hl) as (q1 & E1 & Hq). rewrite E in E1. injection E1 as <- _.
  by eexists.
Qed.

Lemma queue_in_progress q cid rid vw q' b : queue_ok q → RQ.in_progress q cid rid vw = Ret (q', b) → queue_ok q'.
Proof.
  intros [l Hl] E. unfold RQ.in_progress, RQ.node_at in E.
  destruct (zget (RQ.reqs q) cid) as [n|] eqn:G; [|done]. cbn in E.
  destruct (_ || _); injection E as <- <-; exists l; [|done].
  constructor; cbn; try apply Hl.
  - rewrite zlen_zset. apply Hl.
  - apply RQ.lseg_marks; [done|apply Hl].
  - intros c x y. rewrite zget_zset. case_decide as D; [|apply (RQ.rep_only _ _ Hl)].
    destruct D as [-> _]. intros [= <-]. cbn. by apply (RQ.rep_only _ _ Hl).
Qed.

Lemma queue_new_state x q f l x' q' b : queue_ok q → RI.new_state_loop x q f l = Ret (x', q', b) → queue_ok q'.
Proof.
  revert x q f. induction l as [|i l IH]; intros x q f Hq E; cbn in E; [by injection E as <- <- <-|].
  invert_outcome.
  match goal with E : (let '(_, _) := ?p in _) = Ret _ |- _ => destruct p as [q1 b1] end.
  eapply IH; [|done]. by eapply queue_remove_client.
Qed.

Lemma queue_take fuel q nx mx b ds q' nx' b' ds' : queue_ok q →
  PP.take_requests fuel q nx mx b ds = Ret (q', nx', b', ds') → queue_ok q'.
Proof.
  revert q nx b ds. induction fuel as [|fuel IH]; intros q nx b ds Hq E; cbn in E; [done|].
  apply outcome_bind_Ret in E as ([m|] & _ & E); [|by injection E as <- <- <- <-].
  destruct (_ <? _); [by injection E as <- <- <- <-|].
  apply outcome_bind_Ret in E as (? & _ & E). apply outcome_bind_Ret in E as ([q1 ?] & E1 & E).
  eapply IH; [|done]. by eapply queue_remove.
Qed.

(** What [fill] does to the queue, and the number it writes. *)
Lemma fill_inv md dig nd mx fuel ps msz vw n q pp q' : PP.fill md dig nd mx fuel ps msz vw n q = Ret (pp, q') →
  PP.seqno pp = n ∧ PP.view pp = vw ∧ (queue_ok q → queue_ok q').
Proof.
  unfold PP.fill. intros E. apply outcome_bind_Ret in E as ([[[q1 nx] b] ds] & Et & E).
  invert_outcome. cbn. split; [done|]. split; [done|]. intros Hq. by eapply queue_take.
Qed.

Lemma log_store {T} (l : Log.t T) h n (x : T) : log_ok l h → log_ok (Log.store l n x) h.
Proof.
  intros ((Hk & Hm & Hl) & Hs & Hh). split_and!; cbn; try done. split_and!; cbn; [done|done|by rewrite zlen_zset].
Qed.

Lemma fetch_range {T} (l : Log.t T) n x : Log.fetch l n = Ret x → Log.within_range l n = true.
Proof. unfold Log.fetch. by destruct (Log.within_range l n). Qed.

Lemma store_fetch {T} (l : Log.t T) h n (x : T) k : log_ok l h → Log.within_range l n = true →
  Log.within_range l k = true → Log.fetch (Log.store l n x) k = if decide (k = n) then Ret x else Log.fetch l k.
Proof.
  intros (Hl & _) Hn Hk.
  destruct (wl_store_ok (WindowLogLaws := Log.window_log_laws (λ y, y)) l n x Hl Hn) as (Hok & _ & Hin & Hsl).
  specialize (Hsl k Hk). cbn in Hsl. unfold Log.fetch.
  change (Log.within_range (Log.store l n x) k) with (Log.within_range l k). rewrite Hk. cbn.
  change (Log.mod_ (Log.store l n x)) with (Log.mod_ l) in *.
  cbn in Hsl. rewrite Hsl. by case_decide.
Qed.

(** ** The primitives *)
Lemma K0_count f :
  (∀ c, last_stable (f c) = last_stable c) →
  (∀ c, last_stable c ≤ low_bound c → last_tentative_execute c ≤ last_executed c + 1 →
     last_stable c ≤ low_bound (f c) ∧ last_tentative_execute (f c) ≤ last_executed (f c) + 1) →
  keeps K0 (count_to f).
Proof.
  intros Hs Hf. apply keeps_modify. intros r Hv. split; [done|].
  split; [|split; [apply Hs|split; [done|]]]; cycle 1.
  { exists []. by rewrite app_nil_r. }
  intros h [H1' H2' H3' H4']. destruct (Hf (cn r)) as [? ?]; [lia|done|].
  constructor; cbn; rewrite ?Hs; [lia..|done].
Qed.

Lemma K0_store r s : (∀ h, stores_ok h (st r) → stores_ok h s) → K0 r (set_st r s).
Proof.
  intros Hs Hv. split; [done|]. split; [|split; [done|split; [done|exists []; by rewrite app_nil_r]]].
  intros h []. constructor; cbn; auto.
Qed.

Lemma K0_same r r' : (view_inv r → view_inv r') → cn r' = cn r → st r' = st r → qs (rc r') = qs (rc r) →
  (∃ l, out r' = out r ++ l) → K0 r r'.
Proof.
  intros Hv Hc Hs Hq Ho Hr. split; [auto|]. split; [|split; [by rewrite Hc|split; [by rewrite Hq|done]]].
  intros h []. constructor; rewrite ?Hc, ?Hs; auto.
Qed.

Lemma K0_emit e : keeps K0 (emit e).
Proof. apply keeps_modify. intros r. apply K0_same; [done..|by eexists]. Qed.

(** Changes of the fields that the invariant does not mention. *)
Lemma K0_frame f : (∀ r, view_inv r → view_inv (f r)) → (∀ r, cn (f r) = cn r) → (∀ r, st (f r) = st r) →
  (∀ r, qs (rc (f r)) = qs (rc r)) → (∀ r, out (f r) = out r) → keeps K0 (modify f).
Proof.
  intros Hv Hc Hs Hq Ho. apply keeps_modify. intros r. apply K0_same; [auto|done..|]. exists []. by rewrite Ho, app_nil_r.
Qed.

Lemma K0_state x : keeps K0 (state_to x).
Proof. by apply K0_frame. Qed.
Lemma K0_vi x : vi_ok x → keeps K0 (vi_to x).
Proof. intros Hx. apply K0_frame; [|done..]. by intros r [? _]. Qed.
Lemma K0_view f : (∀ w, cur_primary w = Z.rem (v w) num_replicas → cur_primary (f w) = Z.rem (v (f w)) num_replicas) →
  keeps K0 (view_to f).
Proof. intros Hf. apply K0_frame; [|done..]. intros r [? ?]. split; [by apply Hf|done]. Qed.
Lemma K0_recovery f : (∀ x, qs (f x) = qs x) → keeps K0 (recovery_to f).
Proof. intros Hq. apply K0_frame; [done..| |done]. intros r. apply Hq. Qed.
Lemma K0_node f : keeps K0 (node_to f).
Proof. by apply K0_frame. Qed.
Lemma K0_clock : keeps K0 currentTime.
Proof. unfold currentTime. pose proof K0_node. keeps_tac. Qed.
Lemma K0_replies x : keeps K0 (replies_to x).
Proof. apply keeps_modify. intros r. by apply K0_store. Qed.

Lemma K0_stable_state (f : ss → ss) : keeps K0 (modify (λ r, set_state r (f (state r)))).
Proof. by apply K0_frame. Qed.

(** A method of an entry of [plog] must keep the number of the pre-prepare. *)
Lemma K0_with_plog {A} n (f : PCert.Prepared_cert PP.Pre_prepare → outcome (A * _)) :
  (∀ x a x', pp_at n x → f x = Ret (a, x') → pp_at n x') → keeps K0 (with_plog n f).
Proof.
  intros Hf r a r' E. unfold with_plog, plog_fetch, plog_store, store_to in E. run_inv.
  match goal with p : _ * _ |- _ => destruct p as [b x'] end. run_inv.
  apply K0_store. intros h (Hp & Hc & Hpp & Hrest).
  match goal with Hx : Log.fetch _ _ = Ret _ |- _ => pose proof (fetch_range _ _ _ Hx) as Hin; pose proof (Hpp _ _ Hx) end.
  split; [by apply log_store|]. split; [done|]. split; [|done]. cbn.
  intros k y Hy. pose proof (fetch_range _ _ _ Hy) as Hk. rewrite (store_fetch _ h) in Hy by done.
  case_decide; [|by apply Hpp]. subst k. injection Hy as <-. by eapply Hf.
Qed.

(** A method of an entry of [clog] must keep what the certificate waits for. *)
Lemma fetch_entry {T} (P : T → Prop) (l : Log.t T) n x : Forall P (Log.elems l) → Log.fetch l n = Ret x → P x.
Proof.
  unfold Log.fetch. intros HP E. apply outcome_bind_Ret in E as (? & _ & E). apply of_option_Ret in E.
  by eapply Forall_zget.
Qed.

Lemma K0_with_clog {A} n (f : Cert.Certificate Commit → outcome (A * _)) :
  (∀ x a x', f x = Ret (a, x') → Cert.complete x' = Cert.complete x) → keeps K0 (with_clog n f).
Proof.
  intros Hf r a r' E. unfold with_clog, clog_fetch, clog_store, store_to in E. run_inv.
  match goal with p : _ * _ |- _ => destruct p as [b x'] end. run_inv.
  apply K0_store. intros h (Hp & [Hc Hq] & Hrest). split; [done|]. split; [|done].
  split; [by apply log_store|]. apply Forall_zset; [done|]. unfold quorum_cert.
  match goal with G : f _ = Ret _, Hx : Log.fetch _ _ = Ret _ |- _ =>
    rewrite (Hf _ _ _ G); exact (fetch_entry quorum_cert _ _ _ Hq Hx) end.
Qed.

Lemma quiet_stale_complete (x : Cert.Certificate Commit) b x' :
  quietly Cert.mark_stale x = Ret (b, x') → Cert.complete x' = Cert.complete x.
Proof.
  unfold quietly. intros E. apply outcome_bind_Ret in E as (y & E & Ey). injection Ey as _ <-.
  by apply Cert.mark_stale_complete in E.
Qed.

Lemma K0_clog_stale n : keeps K0 (with_clog n (quietly Cert.mark_stale)).
Proof. apply K0_with_clog. intros x a x'. apply quiet_stale_complete. Qed.
Lemma K0_clog_clear n : keeps K0 (with_clog n (λ x, Ret (tt, ccert_clear x))).
Proof. apply K0_with_clog. intros x a x' E. by injection E as _ <-. Qed.
Lemma K0_clog_resend n m t : keeps K0 (with_clog n (λ x, Ret (tt, Cert.resend x m t))).
Proof. apply K0_with_clog. intros x a x' E. by injection E as _ <-. Qed.
Lemma K0_clog_mine n c t : keeps K0 (with_clog n (λ x, Cert.add_mine x c t)).
Proof. apply K0_with_clog. intros x a x'. apply Cert.add_mine_complete. Qed.
Lemma K0_clog_add n ver m : keeps K0 (with_clog n (λ x, Cert.add ver x m)).
Proof. apply K0_with_clog. intros x a x'. apply Cert.add_complete. Qed.

Lemma K0_with_elog {A} n (f : Cert.Certificate Checkpoint → outcome (A * _)) : keeps K0 (with_elog n f).
Proof.
  intros r a r' E. unfold with_elog, elog_fetch, elog_store, store_to in E. run_inv.
  match goal with p : _ * _ |- _ => destruct p as [b x'] end. run_inv. by apply K0_store.
Qed.

Lemma K0_fetch_plog n : keeps K0 (plog_fetch n).
Proof. intros r a r' E. unfold plog_fetch in E. run_inv. reflexivity. Qed.
Lemma K0_fetch_clog n : keeps K0 (clog_fetch n).
Proof. intros r a r' E. unfold clog_fetch in E. run_inv. reflexivity. Qed.
Lemma K0_fetch_elog n : keeps K0 (elog_fetch n).
Proof. intros r a r' E. unfold elog_fetch in E. run_inv. reflexivity. Qed.

#[local] Hint Resolve K0_emit K0_state K0_node K0_clock K0_replies K0_stable_state
  K0_clog_stale K0_clog_clear K0_clog_resend K0_clog_mine K0_clog_add K0_with_elog K0_fetch_plog K0_fetch_clog K0_fetch_elog : keeps.
#[local] Hint Extern 1 (keeps _ (assert_ _)) => apply keeps_lift : keeps.
#[local] Hint Extern 1 (keeps K0 (recovery_to _)) => apply K0_recovery; reflexivity : keeps.
#[local] Hint Extern 1 (keeps K0 (vi_to _)) => apply K0_vi; solve [eauto with laws] : keeps.
#[local] Hint Extern 1 (keeps K0 (view_to _)) => apply K0_view; solve [auto] : keeps.
#[local] Hint Extern 1 (keeps _ skip) => apply keeps_ret : keeps.
#[local] Hint Extern 2 (keeps K0 (count_to _)) =>
  apply K0_count; [reflexivity|cbn; intros; lia] : keeps.

(** *** The entries of [plog] *)
Lemma pp_at_with_pc n x c : pp_at n x → pp_at n (PCert.with_pc x c).
Proof. done. Qed.

Lemma mark_stale_pp n p x a x' : pp_at n x → quietly (PCert.mark_stale p) x = Ret (a, x') → pp_at n x'.
Proof.
  unfold quietly, PCert.mark_stale. intros Hx E. apply outcome_bind_Ret in E as (y & E & Ey). injection Ey as _ <-.
  apply outcome_bind_Ret in E as ([] & _ & E); [by injection E as <-|]. invert_outcome.
  intros m. cbn. destruct (_ =? _); [apply Hx|done].
Qed.

Lemma add_mine_prepare_pp n pr p now x a x' :
  pp_at n x → PCert.add_mine_prepare pr x p now = Ret (a, x') → pp_at n x'.
Proof.
  unfold PCert.add_mine_prepare. intros Hx E. invert_outcome.
  match goal with E : (let '(_, _) := ?p in _) = Ret _ |- _ => destruct p end. by invert_outcome.
Qed.

Lemma add_prepare_pp n ver m x a x' : pp_at n x → PCert.add_prepare ver x m = Ret (a, x') → pp_at n x'.
Proof.
  unfold PCert.add_prepare. intros Hx E. invert_outcome.
  match goal with E : (let '(_, _) := ?p in _) = Ret _ |- _ => destruct p end. by invert_outcome.
Qed.

Lemma add_mine_pp_pp n pr m now x a x' : same_number (PP.seqno m) n →
  PCert.add_mine_pp pr x m now = Ret (a, x') → pp_at n x'.
Proof. unfold PCert.add_mine_pp. intros Hn E. invert_outcome. by intros y [= <-]. Qed.

Lemma add_old_pp n m x a x' : same_number (PP.seqno m) n → quietly (λ x, PCert.add_old x m) x = Ret (a, x') → pp_at n x'.
Proof. unfold quietly, PCert.add_old. intros Hn E. invert_outcome. by intros y [= <-]. Qed.

Lemma add_pp_pp n v1 v2 m x a x' : same_number (PP.seqno m) n → pp_at n x → PCert.add_pp v1 v2 x m = Ret (a, x') → pp_at n x'.
Proof.
  intros Hn Hx E. assert (x' = x ∨ x' = PCert.with_pp x (Some m)) as [->| ->]; [|done|by intros y [= <-]].
  unfold PCert.add_pp in E. destruct (PCert.pp x); [injection E as _ <-; by left|].
  destruct (Cert.mine _).
  - apply outcome_bind_Ret in E as (b & _ & E). destruct (_ && _); injection E as _ <-; auto.
  - destruct (v1 m); [injection E as _ <-; by right|].
    destruct (v2 m); [|injection E as _ <-; by left].
    apply outcome_bind_Ret in E as (b & _ & E). destruct b; injection E as _ <-; auto.
Qed.

(** *** The queues and [sset] *)
Lemma K0_with_rqueue {A} (f : @RQ.Req_queue Req.Request → outcome (RQ.Req_queue * A)) :
  (∀ q q' a, queue_ok q → f q = Ret (q', a) → queue_ok q') → keeps K0 (with_rqueue f).
Proof.
  intros Hf r a r' E. unfold with_rqueue, store_to in E. run_inv.
  match goal with p : _ * _ |- _ => destruct p as [q b] end. run_inv.
  apply K0_store. intros h (Hp & Hc & Hpp & Hq & Hrest). do 3 (split; [done|]). split; [|done]. by eapply Hf.
Qed.

Lemma K0_with_ro_rqueue {A} (f : @RQ.Req_queue Req.Request → outcome (RQ.Req_queue * A)) :
  (∀ q q' a, queue_ok q → f q = Ret (q', a) → queue_ok q') → keeps K0 (with_ro_rqueue f).
Proof.
  intros Hf r a r' E. unfold with_ro_rqueue, store_to in E. run_inv.
  match goal with p : _ * _ |- _ => destruct p as [q b] end. run_inv.
  apply K0_store. intros h (Hp & Hc & Hpp & Hq & Hro & Hrest). do 4 (split; [done|]). split; [|done]. by eapply Hf.
Qed.

Definition sset_ok (s : ZSet.t (T := Checkpoint)) : Prop :=
  ZSet.ok k_id s ∧ ZSet.max_size s = num_replicas ∧ ∀ i c, ZSet.lookup s i = Some c → checkpoint_stable c = true.

Lemma K0_with_sset {A} (f : ZSet.t (T := Checkpoint) → outcome (ZSet.t * A)) :
  (∀ s s' a, sset_ok s → f s = Ret (s', a) → sset_ok s') → keeps K0 (with_sset f).
Proof.
  intros Hf r a r' E. unfold with_sset, store_to in E. run_inv.
  match goal with p : _ * _ |- _ => destruct p as [q b] end. run_inv.
  apply K0_store. intros h (Hp & Hc & Hpp & Hq & Hro & Hs). do 5 (split; [done|]). by eapply Hf.
Qed.

Lemma sset_remove s i s' o : sset_ok s → ZSet.remove s i = Ret (s', o) → sset_ok s'.
Proof.
  intros (Hs & Hm & Hst) E. destruct (ZSet.remove_ok k_id s i Hs) as (s1 & E1 & Hok & Hm1 & Hl & _).
  rewrite E in E1. injection E1 as <- _. split; [done|]. split; [congruence|].
  intros j c. rewrite Hl. case_decide; [done|apply Hst].
Qed.

Lemma sset_store s m s' b : checkpoint_stable m = true → sset_ok s → ZSet.store k_id s m = Ret (s', b) → sset_ok s'.
Proof.
  intros Hstm (Hs & Hm & Hst) E. destruct (ZSet.store_ok k_id s m Hs) as (s1 & E1 & Hok & Hm1 & Hl).
  rewrite E in E1. injection E1 as <- _. split; [done|]. split; [congruence|].
  intros j c. rewrite Hl. case_decide; [by intros [= <-]|apply Hst].
Qed.

Lemma K0_sset_remove i : keeps K0 (with_sset (λ s, ZSet.remove s i)).
Proof. apply K0_with_sset. intros s s' o. apply sset_remove. Qed.

Lemma K0_append m : keeps K0 (with_rqueue (λ q, RQ.append q m)).
Proof. apply K0_with_rqueue. intros q q' b. apply queue_append. Qed.
Lemma K0_append_ro m : keeps K0 (with_ro_rqueue (λ q, RQ.append q m)).
Proof. apply K0_with_ro_rqueue. intros q q' b. apply queue_append. Qed.
Lemma K0_remove_ro : keeps K0 (with_ro_rqueue RQ.remove).
Proof. apply K0_with_ro_rqueue. intros q q' b. apply queue_remove. Qed.
Lemma K0_remove_client cid rid : keeps K0 (with_rqueue (λ q, RQ.remove_client q cid rid)).
Proof. apply K0_with_rqueue. intros q q' b. apply queue_remove_client. Qed.
Lemma K0_in_progress cid rid x : keeps K0 (with_rqueue (λ q, RQ.in_progress q cid rid x)).
Proof. apply K0_with_rqueue. intros q q' b. apply queue_in_progress. Qed.

Lemma K0_new_state_replies : keeps K0 new_state_replies.
Proof.
  unfold new_state_replies. keeps_tac. apply K0_with_rqueue. intros q q' b Hq E.
  apply outcome_bind_Ret in E as ([[x q1] c] & E & Ei). injection Ei as <- <-. by eapply queue_new_state.
Qed.

#[local] Hint Resolve K0_sset_remove K0_append K0_append_ro K0_remove_ro K0_remove_client K0_in_progress
  K0_new_state_replies : keeps.

(** ** The methods that leave the window alone *)
Lemma K0_send_to dst e : keeps K0 (send_to dst e).
Proof. unfold send_to. keeps_tac. Qed.
#[local] Hint Resolve K0_send_to : keeps.

Lemma K0_node_send_new_key : keeps K0 node_send_new_key.
Proof. unfold node_send_new_key. keeps_tac. Qed.
#[local] Hint Resolve K0_node_send_new_key : keeps.

Lemma K0_send_new_key : keeps K0 send_new_key.
Proof.
  unfold send_new_key, stale_elog, stale_logs. keeps_tac; apply K0_with_plog; intros ???; apply mark_stale_pp.
Qed.


(** The pre-prepare of the queue, added to the log under its number. *)
Lemma K0_add_own_pp pr pp n now : same_number (PP.seqno pp) n →
  keeps K0 (with_plog n (λ x, PCert.add_mine_pp pr x pp now)).
Proof. intros Hn. apply K0_with_plog. intros x a x' _. by apply add_mine_pp_pp. Qed.

Lemma K0_fill ps vw n fuel : keeps K0 (with_rqueue (λ q,
  '(pp, q) ← PP.fill w_hmac_md w_digest_of w_non_det w_max_nd_bytes (fuel q) ps PP.Max_message_size vw n q;
  Ret (q, pp))).
Proof.
  apply K0_with_rqueue. intros q q' pp Hq E. apply outcome_bind_Ret in E as ([m q1] & E & Ei).
  injection Ei as <- <-. apply fill_inv in E as (_ & _ & Hf). auto.
Qed.

Lemma filled_number ps vw n fuel r pp r' : with_rqueue (λ q,
    '(pp, q) ← PP.fill w_hmac_md w_digest_of w_non_det w_max_nd_bytes (fuel q) ps PP.Max_message_size vw n q;
    Ret (q, pp)) r = Ret (pp, r') →
  PP.seqno pp = n ∧ PP.view pp = vw.
Proof.
  unfold with_rqueue, store_to. intros E. run_inv.
  match goal with p : _ * _ |- _ => destruct p as [q b] end. run_inv.
  match goal with G : _ = Ret (q, _) |- _ => apply outcome_bind_Ret in G as ([m q1] & E & Ei) end.
  injection Ei as <- <-. apply fill_inv in E. tauto.
Qed.

Lemma K0_filled {A} ps vw n fuel (f : PP.Pre_prepare → ST Rep.Replica A) :
  (∀ pp, PP.seqno pp = n → keeps K0 (f pp)) →
  keeps K0 (with_rqueue (λ q,
    '(pp, q) ← PP.fill w_hmac_md w_digest_of w_non_det w_max_nd_bytes (fuel q) ps PP.Max_message_size vw n q;
    Ret (q, pp)) ≫= f).
Proof.
  intros Hf. eapply keeps_bind_post; [typeclasses eauto|intros s pp s'; apply filled_number|apply K0_fill|].
  intros pp [Hn _]. by apply Hf.
Qed.

Lemma K0_send_pre_prepare : keeps K0 send_pre_prepare.
Proof.
  unfold send_pre_prepare. keeps_with ltac:(apply K0_filled). by apply K0_add_own_pp, same_number_eq.
Qed.

(** A status changes what the view information and the state manager know, no more. *)
Lemma K0_send_others l : keeps K0 (send_others l).
Proof. unfold send_others. keeps_tac. Qed.
#[local] Hint Resolve K0_send_others : keeps.

Lemma K0_send_own_status : keeps K0 send_own_status.
Proof. unfold send_own_status, mark_batch, mark_waiting. keeps_tac. Qed.
#[local] Hint Resolve K0_send_own_status : keeps.

Lemma K0_send_status : keeps K0 send_status.
Proof.
  unfold send_status. keeps_step; [keeps_tac..|]. intros now. apply keeps_get_bind. intros r u r'.
  destruct (100000 <? _); [|intros E; injection E as _ <-; reflexivity].
  destruct (qs (rc r)) as [q|] eqn:Hq; cbn [when]; intros E.
  - unfold node_to, recovery_to, emit in E. run_inv. intros Hv. split; [exact Hv|].
    split; [intros h []; by constructor|]. split; [done|]. split; [by rewrite Hq|]. by eexists.
  - match type of E with ?m r = _ => assert (keeps K0 m) as Hk by keeps_tac end. by eapply Hk.
Qed.
#[local] Hint Resolve K0_send_status : keeps.

Lemma K0_in_w ms ver : keeps K0 (in_w ms ver).
Proof. unfold in_w. keeps_tac. Qed.
Lemma K0_in_wv ms mv ver : keeps K0 (in_wv ms mv ver).
Proof. unfold in_wv. keeps_tac. Qed.

Lemma K0_send_prepare n : keeps K0 (send_prepare n).
Proof. unfold send_prepare. keeps_tac. apply K0_with_plog. intros x b x'. apply add_mine_prepare_pp. Qed.

Lemma K0_prepared n : keeps K0 (prepared n).
Proof. unfold prepared. keeps_tac. Qed.
Lemma K0_committed n : keeps K0 (committed n).
Proof. unfold committed. pose proof K0_prepared. keeps_tac. Qed.

Lemma K0_exec_command n q cmd nd ro : keeps K0 (exec_command n q cmd nd ro).
Proof. unfold exec_command. keeps_tac. Qed.
#[local] Hint Resolve K0_send_new_key K0_send_pre_prepare K0_in_w K0_in_wv K0_send_prepare K0_prepared K0_committed
  K0_exec_command : keeps.

Lemma K0_execute_read_only q : keeps K0 (execute_read_only q).
Proof. unfold execute_read_only. keeps_tac. Qed.
#[local] Hint Resolve K0_execute_read_only : keeps.

Lemma K0_drain_read_only : keeps K0 drain_read_only.
Proof.
  assert (∀ n, keeps K0 (drain_loop n)) as Hl; [|unfold drain_read_only; keeps_tac].
  induction n as [|n IH]; cbn [drain_loop]; keeps_tac.
Qed.

Lemma K0_update_max_rec : keeps K0 update_max_rec.
Proof. unfold update_max_rec. keeps_tac. Qed.
#[local] Hint Resolve K0_drain_read_only K0_update_max_rec : keeps.

Lemma K0_try_end_recovery : keeps K0 try_end_recovery.
Proof. unfold try_end_recovery. keeps_tac. Qed.

Lemma K0_own_checkpoint : keeps K0 own_checkpoint.
Proof. unfold own_checkpoint. keeps_tac. Qed.

Lemma K0_transfer_checkpoints : keeps K0 transfer_checkpoints.
Proof. unfold transfer_checkpoints, transfer_one. keeps_tac. Qed.

Lemma K0_have_checkpoint n : keeps K0 (have_checkpoint n).
Proof. unfold have_checkpoint. keeps_tac. Qed.

Lemma K0_start_fetch le c d b : keeps K0 (start_fetch le c d b).
Proof. unfold start_fetch. keeps_tac. Qed.

Lemma K0_checkpoint n : keeps K0 (checkpoint n).
Proof. unfold checkpoint. keeps_tac. Qed.

Lemma K0_run_request pp q : keeps K0 (run_request pp q).
Proof. unfold run_request. keeps_tac. Qed.

Lemma K0_rollback : keeps K0 rollback.
Proof. unfold rollback. keeps_tac. Qed.

Lemma K0_retire i : keeps K0 (retire i).
Proof. unfold retire. keeps_tac. apply K0_with_plog. intros x b x' _ E. by injection E as _ <-. Qed.
#[local] Hint Resolve K0_try_end_recovery K0_own_checkpoint K0_transfer_checkpoints K0_have_checkpoint K0_start_fetch
  K0_checkpoint K0_run_request K0_rollback K0_retire : keeps.

Lemma K0_install_request i : keeps K0 (install_request i).
Proof.
  unfold install_request. apply K0_get. intros r Hr. apply keeps_lift_bind. intros [[w pp] d] E.
  keeps_tac; subst; try match goal with G : of_option _ pp = Ret _ |- _ => apply of_option_Ret in G; subst pp end;
    pose proof (ok_fetched _ _ _ _ _ _ E (view_inv_env _ Hr) (view_inv_vi _ Hr)).
  - by apply K0_add_own_pp.
  - apply K0_with_plog. intros x b x'. apply add_mine_prepare_pp.
  - apply K0_with_plog. intros x b x' _. by apply add_old_pp.
Qed.
#[local] Hint Resolve K0_install_request : keeps.
#[local] Hint Extern 5 (keeps K _) => apply keeps_K0_K : keeps.

(** ** Stable checkpoints *)

(** Truncation of a log that satisfies the invariant. *)
Lemma log_truncate {T} (clear : T → T) (l l' : Log.t T) h nh : log_ok l h → 0 ≤ h → nh < 2 ^ 31 →
  Log.truncate clear l nh = Ret l' → log_ok l' (Z.max h nh) ∧
  ∀ n x, Log.fetch l' n = Ret x → Log.fetch l n = Ret x ∨ cleared clear x.
Proof.
  intros (Hl & Hs & Hh) H0' Hn E. assert (Log.step l nh) as Hst by (apply Log.step_small; lia).
  destruct (Log.truncate_spec clear l nh Hl Hst) as (l1 & E1 & Hok & Hsz & Hhd & Hold & Hnew).
  rewrite E in E1. injection E1 as <-. split; [split_and!; [done|congruence|lia]|].
  intros n x Hx. pose proof (fetch_range _ _ _ Hx) as Hin. unfold Log.fetch in *. rewrite Hin in Hx. cbn in Hx.
  apply of_option_Ret in Hx. destruct (Log.within_range l n) eqn:Hr; cbn.
  - rewrite Hold in Hx by done. left. by rewrite Hx.
  - right. destruct (Hnew n Hin Hr) as (y & Ey & Hy). congruence.
Qed.

Lemma truncate_messages_inv h r u r' : truncate_messages r = Ret (u, r') → in_bounds r → core h r → inv r'.
Proof.
  unfold truncate_messages, store_to, in_bounds. intros E Hb [Hs Hh Hx (Hp & [Hc Hqc] & Hpp & Hrest)]. run_inv.
  match goal with G : Log.truncate pcert_clear _ _ = Ret _ |- _ =>
    apply (log_truncate _ _ _ h) in G as [Hp' Hpf]; [|done|lia|lia] end.
  match goal with G : Log.truncate ccert_clear _ _ = Ret _ |- _ =>
    pose proof (Log.truncate_entries ccert_clear quorum_cert _ _ _ (λ x Hx, Hx) Hqc G) as Hqc';
    apply (log_truncate _ _ _ h) in G as [Hc' _]; [|done|lia|lia] end.
  rewrite Z.max_r in Hp', Hc' by lia. constructor; cbn; [lia|lia|done|].
  split; [done|]. split; [done|]. split; [|done].
  intros n x [Hf|[y ->]]%Hpf; [by apply Hpp|]. by intros m.
Qed.

Lemma K_raise_truncate n hs r u r' :
  (_ ← raise_stable n hs; truncate_messages) r = Ret (u, r') → last_stable (cn r) < n → K r r'.
Proof.
  intros E Hn Hv. apply bind_inv in E as (u1 & r2 & E & Et). apply bind_inv in E as (u2 & r1 & E1 & E).
  assert (view_inv r1) as Hv1 by (by injection E1 as _ <-).
  assert (K0 r1 r2) as HK.
  { match type of E with ?m r1 = _ => assert (keeps K0 m) as Hk by keeps_tac end. by eapply Hk. }
  destruct (HK Hv1) as (Hv2 & Hc & Hs & Hqs & l & Ho). injection E1 as _ <-.
  assert (cn r' = cn r2 ∧ out r' = out r2 ∧ rc r' = rc r2 ∧ (view_inv r2 → view_inv r')) as (Hcn & Hout & Hrc & Hv').
  { unfold truncate_messages, store_to in Et. by run_inv. }
  split; [by apply Hv'|]. split; [|split; [|split; [by rewrite Hrc|]]].
  - unfold in_bounds. rewrite Hcn. intros Hb Hi. eapply (truncate_messages_inv (last_stable (cn r) + 1)); [exact Et|done|].
    apply Hc. destruct Hi. constructor; cbn in *; [lia|lia|done|done].
  - rewrite Hcn, Hs. cbn. lia.
  - exists l. by rewrite Hout, Ho.
Qed.

Lemma K0_truncate_checkpoints : keeps K0 truncate_checkpoints.
Proof.
  unfold truncate_checkpoints. keeps_tac.
  - apply keeps_modify. intros t. apply K0_store. by intros h (? & ? & ? & ?).
Qed.
#[local] Hint Resolve K0_truncate_checkpoints : keeps.

(** ** New views *)
Section new_view.
Context (mark : Z → bool → ST Rep.Replica unit) (Hmark : ∀ n b, keeps K (mark n b)).

Lemma K_process_new_view min d max ms : keeps K (process_new_view mark min d max ms).
Proof.
  unfold process_new_view. keeps_tac.
Qed.

Lemma K_run_vi l : keeps K (run_vi mark l).
Proof. unfold run_vi. pose proof K_process_new_view. keeps_tac. Qed.
End new_view.

Lemma K_mark_stable fuel n b : keeps K (mark_stable fuel n b).
Proof.
  revert n b. induction fuel as [|fuel IH]; intros n b; cbn [mark_stable]; [apply keeps_fail|].
  pose proof (K_run_vi _ IH) as Hvi.
  apply keeps_get_bind. intros r u r'. destruct (n <=? last_stable (cn r)) eqn:Hn; zprop.
  { intros E. run_inv. reflexivity. }
  intros E. apply bind_inv in E as (u1 & r1 & E1 & E). apply bind_inv in E as (u2 & r2 & E2 & E).
  transitivity r2.
  { eapply K_raise_truncate; [|exact Hn]. rewrite (bind_step _ _ _ _ _ E1). exact E2. }
  match type of E with ?m r2 = _ => assert (keeps K m) as Hk by keeps_tac end. by eapply Hk.
Qed.

Lemma K_mark n b : keeps K (mark n b).
Proof. apply K_mark_stable. Qed.

Lemma K_run_vi_mark l : keeps K (run_vi mark l).
Proof. apply K_run_vi, K_mark. Qed.
#[local] Hint Resolve K_mark K_run_vi_mark : keeps.

(** ** View changes and recovery *)
Lemma K_send_view_change : keeps K send_view_change.
Proof. unfold send_view_change. keeps_tac. Qed.
#[local] Hint Resolve K_send_view_change : keeps.

(** [send_view_change] sets the view and its primary together, whatever they were. *)
Lemma K_jump_view x : keeps K (_ ← view_to (set_view x); send_view_change).
Proof.
  intros r u r' E. unfold send_view_change in E.
  match type of E with (_ ≫= (λ _, _ ≫= ?f)) r = _ =>
    assert (keeps K (view_to (λ y, mkViews (x + 1) (Z.rem (x + 1) num_replicas) true (has_nv_state y)) ≫= f)) as Hk by keeps_tac
  end. by apply (Hk r u r').
Qed.

Lemma K_jump_recovering x : keeps K (_ ← view_to (set_view x); _ ← recovery_to set_vc_recovering; send_view_change).
Proof.
  intros r u r' E. pose proof (K_jump_view x) as Hj.
  assert (keeps K (_ ← recovery_to set_vc_recovering; _ ← view_to (set_view x); send_view_change)) as Hk.
  { apply keeps_bind; [typeclasses eauto|apply keeps_K0_K; by apply K0_recovery|]. intros _. exact Hj. }
  by apply (Hk r u r').
Qed.

#[local] Ltac jump_step :=
  match goal with
  | |- keeps K (mbind _ (view_to (set_view _))) => first [exact (K_jump_view _) | exact (K_jump_recovering _)]
  end.
#[local] Ltac jump_tac := keeps_with ltac:(first [jump_step | view_step]).

Lemma K_enforce_view x : keeps K (enforce_view x).
Proof. unfold enforce_view. jump_tac. Qed.
#[local] Hint Resolve K_enforce_view : keeps.

Lemma K_handle_view_change m : keeps K (handle_view_change m).
Proof. unfold handle_view_change. jump_tac. Qed.

Lemma K_handle_new_view m : keeps K (handle_new_view m).
Proof. unfold handle_new_view. keeps_tac. Qed.

Lemma K_handle_vc_ack m : keeps K (handle_vc_ack m).
Proof. unfold handle_vc_ack. keeps_tac. Qed.

Lemma K_recovery_replies : keeps K recovery_replies.
Proof. unfold recovery_replies, rr_done. keeps_tac. Qed.
#[local] Hint Resolve K_recovery_replies : keeps.

Lemma K_handle_reply m b : keeps K (handle_reply m b).
Proof. unfold handle_reply, handle_own_reply, add_reply, reps_to, rr_done. keeps_tac. Qed.
#[local] Hint Resolve K_handle_reply : keeps.

(** ** Execution *)
Lemma K_send_reply cid b : keeps K (send_reply own_reply cid b).
Proof. unfold send_reply, own_reply. keeps_tac. Qed.
#[local] Hint Resolve K_send_reply : keeps.

Lemma K_execute_request b pp q : keeps K (execute_request own_reply b pp q).
Proof. unfold execute_request. keeps_tac. Qed.
#[local] Hint Resolve K_execute_request : keeps.

Lemma K_execute_prepared b : keeps K (execute_prepared own_reply b).
Proof. unfold execute_prepared. keeps_tac. Qed.
#[local] Hint Resolve K_execute_prepared : keeps.

Lemma K_commit_request q : keeps K (commit_request q).
Proof. unfold commit_request, own_reply. keeps_tac. Qed.
Lemma K_send_checkpoint n : keeps K (send_checkpoint n).
Proof. unfold send_checkpoint. keeps_tac. Qed.
#[local] Hint Resolve K_commit_request K_send_checkpoint : keeps.

Lemma K_commit_batch pp : keeps K (commit_batch pp).
Proof. unfold commit_batch. keeps_tac. Qed.
#[local] Hint Resolve K_commit_batch : keeps.

Lemma K_commit_loop fuel : keeps K (commit_loop fuel).
Proof. induction fuel as [|fuel IH]; cbn [commit_loop]; keeps_tac. Qed.
#[local] Hint Resolve K_commit_loop : keeps.

Lemma K_execute_committed : keeps K execute_committed.
Proof. unfold execute_committed. keeps_tac. Qed.
#[local] Hint Resolve K_execute_committed : keeps.

(** ** The handlers *)
Lemma K_send_commit n : keeps K (send_commit n).
Proof. unfold send_commit. keeps_tac. Qed.
#[local] Hint Resolve K_send_commit : keeps.

Lemma K_vi_add_missing f : (∀ e w w' l, f e w = Ret (w', l) → env_ok e → vi_ok w → vi_ok w') → keeps K (vi_add_missing f).
Proof. intros Hf. unfold vi_add_missing. keeps_tac. Qed.
#[local] Hint Extern 1 (keeps K (vi_add_missing _)) => apply K_vi_add_missing; solve [eauto with laws] : keeps.

Lemma K_handle_pre_prepare m : keeps K (handle_pre_prepare m).
Proof.
  unfold handle_pre_prepare. keeps_tac. apply keeps_K0_K, K0_with_plog. intros x b x' Hx E. by eapply add_pp_pp.
Qed.

Lemma K_handle_prepare m : keeps K (handle_prepare m).
Proof.
  unfold handle_prepare. keeps_tac. apply keeps_K0_K, K0_with_plog. intros x b x'. apply add_prepare_pp.
Qed.

Lemma K_handle_commit m : keeps K (handle_commit m).
Proof. unfold handle_commit. keeps_tac. Qed.

Lemma K_handle_checkpoint m : keeps K (handle_checkpoint m).
Proof.
  assert (checkpoint_stable m = true → keeps K (buffer_checkpoint m)) as Hb.
  { intros Hm. unfold buffer_checkpoint. keeps_tac. apply keeps_K0_K, K0_with_sset. intros s s' b.
    by apply sset_store. }
  unfold handle_checkpoint, late, add_checkpoint. destruct (checkpoint_stable m); cbn [negb]; keeps_tac.
Qed.

Lemma K_handle_request m : keeps K (handle_request m).
Proof. unfold handle_request, new_request, old_request. keeps_tac. Qed.

Lemma K_adopt_state n : keeps K (adopt_state n).
Proof. unfold adopt_state. keeps_tac. Qed.
#[local] Hint Resolve K_adopt_state : keeps.

Lemma K_new_state n : keeps K (new_state n).
Proof. unfold new_state, newer_checkpoint. keeps_tac. Qed.

Lemma K0_fill_null {A} ps vw n fuel q (f : PP.Pre_prepare * RQ.Req_queue → ST Rep.Replica A) :
  (∀ x, PP.seqno x.1 = n → keeps K0 (f x)) →
  keeps K0 (lift (PP.fill w_hmac_md w_digest_of w_non_det w_max_nd_bytes fuel ps PP.Max_message_size vw n q) ≫= f).
Proof.
  intros Hf. apply (keeps_bind_post K0 (λ x, PP.seqno x.1 = n)); [|keeps_tac|done].
  intros s [pp q'] s' [(? & _)%fill_inv _]%lift_inv. done.
Qed.

Lemma K_send_null : keeps K send_null.
Proof.
  apply keeps_K0_K. unfold send_null. keeps_with ltac:(apply K0_fill_null).
  by apply K0_add_own_pp, same_number_eq.
Qed.

(** *** Statuses, keys and queries *)
Lemma K0_resend_pp dst n which t : (∀ x m, which x = Some m → PCert.pp x = Some m) →
  keeps K0 (RStatus.resend_pre_prepare dst n which t).
Proof.
  intros Hw. unfold RStatus.resend_pre_prepare. keeps_tac. apply K0_with_plog. intros x b x' Hx E.
  unfold re_authenticate_pp in E. destruct (which x) as [m|] eqn:Em; [|by injection E as _ <-].
  apply outcome_bind_Ret in E as (m' & Em' & E). injection E as _ <-. intros y [= <-].
  rewrite (re_authenticate_seqno _ _ _ Em'). by apply Hx, Hw.
Qed.

Lemma my_pre_prepare_pp x m : PCert.my_pre_prepare (PP := PP.Pre_prepare) x = Some m → PCert.pp x = Some m.
Proof. unfold PCert.my_pre_prepare. by destruct (PCert.primary x). Qed.

Lemma K0_resend_my_pp dst n t : keeps K0 (RStatus.resend_pre_prepare dst n PCert.my_pre_prepare t).
Proof. apply K0_resend_pp, my_pre_prepare_pp. Qed.
Lemma K0_resend_any_pp dst n t : keeps K0 (RStatus.resend_pre_prepare dst n PCert.pre_prepare t).
Proof. by apply K0_resend_pp. Qed.

Lemma K0_resend_prepare dst now n m : keeps K0 (resend_prepare dst now n m).
Proof. unfold resend_prepare. keeps_tac. apply K0_with_plog. intros x b x' Hx E. by injection E as _ <-. Qed.
#[local] Hint Resolve K0_resend_my_pp K0_resend_any_pp K0_resend_prepare : keeps.

Lemma K0_answer_checkpoint dst now n : keeps K0 (answer_checkpoint dst now n).
Proof. unfold answer_checkpoint, resend_checkpoint. keeps_tac. Qed.
Lemma K0_answer_batch dst now m n : keeps K0 (answer_batch dst now m n).
Proof. unfold answer_batch, resend_commit. keeps_tac. Qed.
Lemma K0_resend_vi dst f : (∀ e w w' o, f e w = Ret (w', o) → env_ok e → vi_ok w → vi_ok w') → keeps K0 (resend_vi dst f).
Proof. intros Hf. unfold resend_vi. keeps_tac. Qed.
#[local] Hint Extern 1 (keeps K0 (resend_vi _ _)) => apply K0_resend_vi; solve [eauto with laws] : keeps.
#[local] Hint Resolve K0_answer_checkpoint K0_answer_batch : keeps.

Lemma K0_answer_waiting dst now m : keeps K0 (answer_waiting dst now m).
Proof. unfold answer_waiting, answer_new_view, answer_ack, answer_missing. keeps_tac. Qed.
#[local] Hint Resolve K0_answer_waiting : keeps.

Lemma K0_handle_status m : keeps K0 (handle_status m).
Proof. unfold handle_status, answer_status, resend_checkpoint, send_last_new_key. keeps_tac. Qed.
Lemma K0_handle_new_key m : keeps K0 (handle_new_key m).
Proof. unfold handle_new_key. keeps_tac. Qed.
Lemma K0_handle_query_stable m : keeps K0 (handle_query_stable m).
Proof. unfold handle_query_stable, send_last_new_key. keeps_tac. Qed.

(** Without a query of its own the replica ignores the answers. *)
Lemma K0_handle_reply_stable m r u r' : qs (rc r) = None → handle_reply_stable m r = Ret (u, r') → K0 r r'.
Proof. unfold handle_reply_stable. intros Hq E. erewrite bind_step in E by done. rewrite Hq in E. run_inv. done. Qed.

Lemma K_recv e r u r' : qs (rc r) = None → recv e r = Ret (u, r') → K r r'.
Proof.
  pose proof K_handle_request. pose proof K_handle_pre_prepare. pose proof K_handle_prepare.
  pose proof K_handle_commit. pose proof K_handle_checkpoint. pose proof K_handle_view_change.
  pose proof K_new_state. pose proof K_send_null. pose proof K_handle_new_view. pose proof K_handle_vc_ack.
  pose proof K0_handle_status. pose proof K0_handle_new_key. pose proof K0_handle_query_stable.
  intros Hq. unfold recv. intros E. erewrite bind_step in E by done.
  destruct (dropped _ _ e); [by run_inv|].
  destruct e as [m|m|m|m|m|m|m|m|m|m|m|m|m|n| | | |]; cbn [handle] in E;
    try (by apply K0_K; eapply K0_handle_reply_stable);
    match type of E with ?m r = _ => assert (keeps K m) as Hk
      by (unfold vtimer_handler, stimer_handler, ntimer_handler, atimer_handler; keeps_tac) end; by eapply Hk.
Qed.

Lemma K0_begin : keeps K0 begin.
Proof. unfold begin. keeps_tac. Qed.

(** ** The initial state *)
Lemma inv_make mx s w e ri ks rid : ConfigOk → (∃ k, 0 ≤ k < 31 ∧ max_out = 2 ^ k) → inv (make mx s w e ri ks rid).
Proof.
  intros Hc (k & Hk & Hm). pose proof config_faulty. unfold make.
  assert (∀ T (x : T), log_ok (Log.make max_out 1 x) 1) as Hl.
  { intros T x. split; [rewrite Hm; by apply Log.log_make_ok|done]. }
  constructor; cbn; [lia..|]. split; [apply Hl|]. split.
  { split; [apply Hl|]. apply Forall_replicate. unfold quorum_cert, Cert.make. cbn. lia. }
  split.
  { intros n x Hx m. unfold Log.fetch in Hx. destruct (Log.within_range _ n); [|done]. cbn in Hx.
    apply of_option_Ret in Hx. unfold zget in Hx. case_decide; [|done].
    by apply lookup_replicate_1 in Hx as [-> _]. }
  assert (queue_ok RQ.make) as Hq by (exists []; apply RQ.make_represents; pose proof config_principals; unfold num_replicas in *; lia).
  split; [done|]. split; [done|]. split; [|split; [done|]].
  - apply ZSet.zset_make_ok. unfold num_replicas. lia.
  - intros i c. unfold ZSet.lookup, ZSet.entry, zget. cbn. case_decide; [|done].
    destruct (_ !! _) eqn:E; [|done]. apply lookup_replicate_1 in E as [-> _]. done.
Qed.

(** The states of a run: [recv] until its loop, and then its turns. *)
Inductive reaches (r0 : Rep.Replica) : Rep.Replica → Prop :=
| reach_start r : begin r0 = Ret (tt, r) → reaches r0 r
| reach_event r e r' : reaches r0 r → recv e r = Ret (tt, r') → reaches r0 r'.

Lemma reaches_K r0 r : qs (rc r0) = None → view_inv r0 → reaches r0 r → K r0 r.
Proof.
  intros Hq Hv. induction 1 as [r E|r e r' _ IH E]; [by eapply K0_K, K0_begin|].
  etrans; [exact IH|]. eapply K_recv; [|exact E]. by apply (IH Hv).
Qed.

Lemma view_inv_make mx s w e ri ks rid : vi_ok w → view_inv (make mx s w e ri ks rid).
Proof. by split. Qed.
End inv.

(** C6: in every state that the event loop of a replica reaches with its view information,
    as long as sequence numbers stay below [2^31 - 1]: the message logs hold exactly the
    batches of the window above the stable checkpoint; every pre-prepare is stored under
    its own number, also those that a new view installs (which are found through [int]
    indices, hence up to multiples of 2^32); nothing below the window is acceptable; the
    tentative execution is at most one batch ahead; the request queues are well-formed
    lists; the set of buffered checkpoints holds only stable ones, filed under their
    senders; and the node knows the primary of its view. *)
Theorem replica_window_invariant `{Config} `{World} (Hc : ConfigOk) (p : Parts) mx s e ri ks rid r :
  let P := VP.with_view_info p in
  (∃ k, 0 ≤ k < 31 ∧ max_out = 2 ^ k) → reaches (H1 := P) (make (H1 := P) mx s (VI.make node_id 0) e ri ks rid) r →
  last_stable (cn r) < 2 ^ 31 - 1 →
  0 ≤ last_stable (cn r) ≤ low_bound (cn r) ∧
  last_tentative_execute (cn r) ≤ last_executed (cn r) + 1 ∧
  (∀ n, Log.within_range (plog (st r)) n = true ↔ last_stable (cn r) < n ≤ last_stable (cn r) + max_out) ∧
  (∀ n, Log.within_range (clog (st r)) n = true ↔ last_stable (cn r) < n ≤ last_stable (cn r) + max_out) ∧
  (∀ n x m, Log.fetch (plog (st r)) n = Ret x → PCert.pre_prepare x = Some m → PP.seqno m `mod` 2 ^ 32 = n `mod` 2 ^ 32) ∧
  (∃ l, RQ.queue_rep (rqueue (st r)) l) ∧ (∃ l, RQ.queue_rep (ro_rqueue (st r)) l) ∧
  (∀ i c, ZSet.lookup (sset (st r)) i = Some c → checkpoint_stable c = true ∧ k_id c = i) ∧
  cur_primary (vw r) = Z.rem (v (vw r)) num_replicas.
Proof.
  intros P Hk Hr Hb. pose proof (view_inv_make (H2 := view_info_laws p) mx s (VI.make node_id 0) e ri ks rid (VIOk.vi_make_ok _ _)) as Hv.
  destruct (reaches_K (H2 := view_info_laws p)
    (make (H1 := P) mx s (VI.make node_id 0) e ri ks rid) r eq_refl Hv Hr Hv) as ([Hp _] & Hi & _).
  destruct (Hi Hb) as [Hs _ Hx (Hpl & [Hcl _] & Hpp & Hq & Hro & Hz & _ & Hst)]; [by apply inv_make|].
  assert (∀ T (l : Log.t T), log_ok l (last_stable (cn r) + 1) → ∀ n,
    Log.within_range l n = true ↔ last_stable (cn r) < n ≤ last_stable (cn r) + max_out) as Hw.
  { intros T l (_ & Hsz & Hh) n. unfold Log.within_range. rewrite andb_true_iff, Z.geb_leb, Z.leb_le, Z.ltb_lt. lia. }
  split; [done|]. split; [done|]. split; [by apply Hw|]. split; [by apply Hw|].
  split; [intros n x m Hf; by apply Hpp|]. split; [done|]. split; [done|]. split; [|done].
  intros i c Hc'. split; [by eapply Hst|]. by eapply ZSet.ok_id.
Qed.

(** Events one after the other. *)
Fixpoint run_events `{Config} `{World} `{Parts} (l : list event) (r : Rep.Replica) : outcome (unit * Rep.Replica) :=
  match l with
  | [] => Ret (tt, r)
  | e :: l => match recv e r with Ret (_, r) => run_events l r | Err x => Err x end
  end.

Lemma reach_run `{Config} `{World} `{Parts} l r0 r r' : reaches r0 r → run_events l r = Ret (tt, r') → reaches r0 r'.
Proof.
  revert r. induction l as [|e l IH]; intros r Hr E; cbn in E; [by injection E as <-|].
  destruct (recv e r) as [[[] r1]|] eqn:Er; [|done]. eapply IH; [by eapply reach_event|done].
Qed.

(** Replica 1 of the group of Group.v after all that it receives while a request is
    executed and the view then changes: it is the primary of view 1 and has installed
    batch 1 of the new view. *)
Definition sample_state : Group.node 1 :=
  let r0 := Group.start 1 in
  let r1 := Sample.result r0 (begin (H := Group.conf 1) (H0 := SampleNode.world) (H1 := Group.parts 1) r0) in
  Sample.result r0 (run_events (H := Group.conf 1) (H0 := SampleNode.world) (H1 := Group.parts 1) (Group.seen_by 1) r1).

(** The view and the number of the pre-prepare of batch [n]. *)
Definition batch_entry `{Config} `{Parts} (r : Rep.Replica) (n : Z) : option (Z * Z) :=
  match Log.fetch (plog (st r)) n with
  | Ret x => match PCert.pre_prepare x with Some m => Some (PP.view m, PP.seqno m) | None => None end
  | Err _ => None
  end.

Lemma replica_window_invariant_witness :
  let c := Group.conf 1 in let r := sample_state in
  v (vw r) = 1 ∧ batch_entry (H := c) (H0 := Group.parts 1) r 1 = Some (1, 1) ∧
  0 ≤ last_stable (cn r) ≤ low_bound (cn r) ∧
  last_tentative_execute (cn r) ≤ last_executed (cn r) + 1 ∧
  (∀ n, Log.within_range (plog (st r)) n = true ↔ last_stable (cn r) < n ≤ last_stable (cn r) + 8) ∧
  (∀ n, Log.within_range (clog (st r)) n = true ↔ last_stable (cn r) < n ≤ last_stable (cn r) + 8) ∧
  (∀ n x m, Log.fetch (plog (st r)) n = Ret x → PCert.pre_prepare x = Some m → PP.seqno m `mod` 2 ^ 32 = n `mod` 2 ^ 32) ∧
  (∃ l, RQ.queue_rep (H := c) (rqueue (st r)) l) ∧ (∃ l, RQ.queue_rep (H := c) (ro_rqueue (st r)) l) ∧
  (∀ i k, ZSet.lookup (sset (st r)) i = Some k → checkpoint_stable k = true ∧ k_id k = i) ∧
  cur_primary (vw r) = Z.rem (v (vw r)) (num_replicas (H := c)).
Proof.
  split; [vm_compute; reflexivity|]. split; [vm_compute; reflexivity|].
  refine (replica_window_invariant (H := Group.conf 1) (H0 := SampleNode.world) (SampleNode.config_ok 1 _) (Sample.parts (Group.conf 1))
    Seqno_max Sample.new_service (CheckpointLog.make (H := Group.conf 1) (Cert.make (H := Group.conf 1) 0)) Sample.replies
    sample_principals 100 sample_state _ _ _).
  - lia.
  - exists 3. split; [lia|done].
  - eapply (reach_run (H := Group.conf 1) (H0 := SampleNode.world) (H1 := Group.parts 1) (Group.seen_by 1));
      [apply reach_start|]; apply Sample.result_of; vm_compute; reflexivity.
  - vm_compute. reflexivity.
Defined.
End Inv.
