(* ===== verification/ReplicaExec.v ===== *)
(** * ReplicaExec: the execution of a batch, as a function of the replicated state

    The replies that a replica stores are part of its service state.  [run_batch] says
    what a batch of client requests does to the service and to the table of replies
    without any reference to the replica: node number, keys, view, queues and clock do
    not occur in it.  The refinement theorem shows that [execute_prepared]'s loop
    implements it at every replica; that each request is executed at most once follows. *)
From S2P Require Import Prelude Node SeqLog KMax Certificate Messages PreparedCert ReqQueue Support RepInfo.
From S2P Require Import PrePrepare ViewChange StateMonad World NewView ReplicaState ReplicaStatus ReplicaRecovery Replica.
From S2P Require Import ReplicaSample.
Import Auth Rep RStatus Recov Replica.
#[local] Existing Instance Req.request_msg.

Lemma fmap_zset {A B} (f : A → B) (l : list A) i a : f <$> zset l i a = zset (f <$> l) i (f a).
Proof. unfold zset. case_decide; [by rewrite list_fmap_insert|done]. Qed.

Lemma zget_fmap {A B} (f : A → B) (l : list A) i : zget (f <$> l) i = f <$> zget l i.
Proof. unfold zget. case_decide; [by rewrite list_lookup_fmap|done]. Qed.

Module Exec.
Section exec.
Context `{Config} `{World} `{Parts}.

(** ** Specification *)

(** What a stored reply says: the request it answers, and the answer. *)
Definition entry : Type := Z * Dig.Digest * Z * list Z.
Definition entry_of (r : Reply) : entry := (r_rid r, r_digest r, r_reply_size r, RI.reply_data r).
Definition table (r : Rep.Replica) : list entry := entry_of <$> RI.reps (replies (st r)).
Definition answered_rid (e : entry) : Z := e.1.1.1.

Definition answer (rid : Z) (o : list Z) : entry := (rid, w_digest_of o, zlen o, o).

(** The choices of the batch. *)
Definition batch_choices (pp : PP.Pre_prepare) : outcome (list Z) :=
  '(o, len) ← PP.choices pp; PP.bytes_at pp o len.

Definition run_one (pp : PP.Pre_prepare) (s : ss) (t : list entry) (q : Req.Request)
    : outcome (ss * list entry * list (Z * Z)) :=
  e ← of_option AssertFail (zget t (Req.cid q));
  if Req.rid q <=? answered_rid e then Ret (s, t, [])
  else
    cmd ← Req.command q;
    nd ← batch_choices pp;
    let '(s, o, _) := st_exec s cmd (Some nd) (Req.cid q) false in
    Ret (s, zset t (Req.cid q) (answer (Req.rid q) o), [(Req.cid q, Req.rid q)]).

Fixpoint run_batch (pp : PP.Pre_prepare) (s : ss) (t : list entry) (reqs : list Req.Request)
    : outcome (ss * list entry * list (Z * Z)) :=
  match reqs with
  | [] => Ret (s, t, [])
  | q :: reqs =>
      '(s, t, l) ← run_one pp s t q;
      '(s, t, l') ← run_batch pp s t reqs;
      Ret (s, t, l ++ l')
  end.

(** The upcalls for requests among the effects. *)
Definition executed (l : list effect) : list (Z * Z) :=
  omap (λ e, match e with EExec _ cid rid false => Some (cid, rid) | _ => None end) l.

Lemma executed_app l l' : executed (l ++ l') = executed l ++ executed l'.
Proof. apply omap_app. Qed.

(** ** The methods *)

(** The memory of a reply holds as many bytes as the reply says. *)
Definition bodies_ok (x : RI.Rep_info) : Prop := Forall (λ r, r_reply_size r ≤ zlen (r_body r)) (RI.reps x).

(** Nothing is executed, and the service and the table stay as they are. *)
Definition quiet (r r' : Rep.Replica) : Prop :=
  state r' = state r ∧ (bodies_ok (replies (st r)) → bodies_ok (replies (st r')) ∧ table r' = table r) ∧
  ∃ l, out r' = out r ++ l ∧ executed l = [].

#[export] Instance quiet_refl : Reflexive quiet.
Proof. intros r. split; [done|]. split; [done|]. exists []. by rewrite app_nil_r. Qed.
#[export] Instance quiet_trans : Transitive quiet.
Proof.
  intros a b c (Ha & Hb & l & Hl & He) (Ha' & Hb' & l' & Hl' & He'). split; [congruence|]. split.
  - intros Hok. destruct (Hb Hok) as [Hok' ->%symmetry]. by apply Hb'.
  - exists (l ++ l'). by rewrite Hl', Hl, app_assoc, executed_app, He, He'.
Qed.

Lemma quiet_emit e : match e with EExec _ _ _ false => False | _ => True end → keeps quiet (emit e).
Proof.
  intros He. apply keeps_modify. intros r. split; [done|]. split; [done|]. exists [e]. split; [done|].
  destruct e; try done. match goal with b : bool |- _ => by destruct b end.
Qed.
Lemma quiet_clock : keeps quiet currentTime.
Proof.
  intros r a r' E. unfold currentTime, node_to in E. run_inv. split; [done|]. split; [done|]. exists [].
  by rewrite app_nil_r.
Qed.

Lemma send_reply_entries md clock ps x pid vw id t now x' e :
  RI.send_reply md clock ps x pid vw id t now = Ret (x', e) → bodies_ok x →
  bodies_ok x' ∧ entry_of <$> RI.reps x' = entry_of <$> RI.reps x.
Proof.
  unfold RI.send_reply. intros E Hok. apply outcome_bind_Ret in E as (r & Er & E).
  apply outcome_bind_Ret in E as (? & Hsz & E). apply outcome_bind_Ret in E as (? & _ & E).
  apply outcome_bind_Ret in E as (i & _ & E).
  match type of E with (if ?c then _ else _) = _ => destruct c; [by injection E as <- _|] end.
  apply outcome_bind_Ret in E as (p & _ & E). injection E as <- _.
  unfold RI.reply in Er. apply of_option_Ret in Er. pose proof (Forall_zget _ _ _ _ Hok Er) as Hr. cbn in Hr.
  unfold bodies_ok. cbn [RI.set_reply RI.reps].
  match goal with |- context [zset (RI.reps ?y) _ _] => assert (RI.reps y = RI.reps x) as -> by (by case_match) end.
  assert (zlen (RI.reply_data r) = Z.max 0 (r_reply_size r)) as Hd.
  { unfold RI.reply_data, zlen in *. rewrite length_take. lia. }
  split.
  - apply Forall_zset; [done|]. cbn. unfold zlen in *. rewrite length_app. lia.
  - rewrite fmap_zset. apply RI.zset_same. rewrite zget_fmap, Er. cbn. f_equal. unfold entry_of. cbn. f_equal.
    unfold RI.reply_data at 2. cbn. unfold zlen in Hd. rewrite take_app_le by lia.
    symmetry. apply take_ge. lia.
Qed.

Lemma quiet_send_reply own cid b : cid ≠ node_id → keeps quiet (send_reply own cid b).
Proof.
  intros Hne r u r' E. unfold send_reply in E. apply bind_inv in E as (r0 & r1 & E0 & E). injection E0 as <- <-.
  apply bind_inv in E as (now & r1 & Ec & E). apply bind_inv in E as ([x e] & r2 & El & E).
  apply lift_inv in El as [El ->]. cbn in E. unfold replies_to, store_to in E.
  apply bind_inv in E as (u' & r2 & Es & E). injection Es as _ <-.
  assert (quiet r r1) as Hc by by eapply quiet_clock.
  assert (st r1 = st r) as Hst by (unfold currentTime, node_to in Ec; by run_inv).
  etrans; [exact Hc|]. transitivity (set_st r1 (set_replies x (st r1))).
  - split; [done|]. split; [|exists []; by rewrite app_nil_r]. rewrite Hst. intros Hok.
    unfold table. cbn. rewrite Hst. by eapply send_reply_entries.
  - destruct e as [[m pid|m]|].
    + eapply quiet_emit; [|exact E]. done.
    + exfalso. unfold RI.send_reply in El.
      repeat (apply outcome_bind_Ret in El as (? & _ & El)).
      match type of El with (if ?c then _ else _) = _ => destruct c; [done|] end.
      apply outcome_bind_Ret in El as (p & _ & El). injection El as _ El. by rewrite (proj2 (Z.eqb_neq _ _)) in El.
    + injection E as _ <-. reflexivity.
Qed.

Lemma executed_exec n cid rid : executed [EExec n cid rid false] = [(cid, rid)].
Proof. done. Qed.

Lemma zset_zset {A} (l : list A) i a b : zset (zset l i a) i b = zset l i b.
Proof. unfold zset. case_decide; [apply list_insert_insert_eq|done]. Qed.

(** The upcall of [run_request] for a request of a client. *)
Lemma run_request_client pp q r o r' : is_replica (Req.cid q) = false → run_request pp q r = Ret (o, r') →
  ∃ cmd nd out1 err, Req.command q = Ret cmd ∧ batch_choices pp = Ret nd ∧
    st_exec (state r) cmd (Some nd) (Req.cid q) false = (state r', out1, err) ∧ o = Some out1 ∧
    st r' = st r ∧ ∃ n, out r' = out r ++ [EExec n (Req.cid q) (Req.rid q) false].
Proof.
  intros Hcl E. unfold run_request in E. apply bind_inv in E as (r0 & r1 & E0 & E). injection E0 as <- <-.
  apply bind_inv in E as ([co len] & r1 & Ech & E). apply lift_inv in Ech as [Ech ->].
  rewrite Hcl in E. cbn [andb] in E.
  apply bind_inv in E as (cmd & r1 & Ecmd & E). apply lift_inv in Ecmd as [Ecmd ->].
  apply bind_inv in E as (nd & r1 & End & E). apply lift_inv in End as [End ->].
  apply bind_inv in E as ([out1 err] & r1 & Ex & E). injection E as <- <-.
  unfold exec_command, state_to, emit in Ex. apply bind_inv in Ex as (r0 & r2 & E0 & Ex). injection E0 as <- <-.
  destruct (st_exec (state r) cmd (Some nd) (Req.cid q) false) as [[s o'] er] eqn:Est. cbn beta iota in Ex.
  apply bind_inv in Ex as (? & r2 & Es & Ex). injection Es as _ <-.
  apply bind_inv in Ex as (? & r2 & Es & Ex). injection Es as _ <-. injection Ex as <- <- <-.
  exists cmd, nd, o', er. split; [done|]. split; [unfold batch_choices; by rewrite Ech|].
  split; [done|]. split; [done|]. split; [done|]. by eexists.
Qed.

(** The answer of a request is stored and, unless it is empty, sent. *)
Lemma finish_quiet own b q (outb : list Z) : Req.cid q ≠ node_id →
  keeps quiet (when (negb (zlen outb =? 0) && negb (is_replica (Req.cid q)))
    (if full_reply q (zlen outb) then send_reply own (Req.cid q) (negb b)
     else
       r ← get;
       d ← lift (RI.digest (replies (st r)) (Req.cid q));
       p ← lift (of_option Undefined (i_to_p (principals_now r) (Req.cid q)));
       emit (ESendReply (RI.new_empty_reply w_hmac_md (v (vw r)) (Req.rid q) node_id d p (negb b)) (Req.cid q)))).
Proof.
  intros Hne. pose proof (quiet_send_reply own (Req.cid q) (negb b) Hne). keeps_tac. by apply quiet_emit.
Qed.

Lemma new_end_reply x cid rid o x1 room x2 : bodies_ok x → RI.new_reply x cid = Ret (x1, room) →
  RI.end_reply w_digest_of x1 cid rid o = Ret x2 →
  bodies_ok x2 ∧ entry_of <$> RI.reps x2 = zset (entry_of <$> RI.reps x) cid (answer rid o).
Proof.
  unfold RI.new_reply, RI.end_reply, RI.reply. intros Hok E1 E2.
  apply outcome_bind_Ret in E1 as (r1 & Er1 & E1). apply outcome_bind_Ret in E1 as (? & _ & E1).
  injection E1 as <- _. apply outcome_bind_Ret in E2 as (r2 & Er2 & E2).
  apply outcome_bind_Ret in E2 as (? & _ & E2). injection E2 as <-. unfold bodies_ok.
  cbn [RI.set_reply RI.set_info RI.reps]. rewrite zset_zset, fmap_zset. split.
  - apply Forall_zset; [done|]. cbn. unfold zlen. rewrite length_app. lia.
  - f_equal. unfold entry_of, answer. cbn. f_equal. unfold RI.reply_data. cbn. unfold zlen. rewrite Nat2Z.id.
    by rewrite take_app_length.
Qed.

(** [execute_request] implements [run_one]. *)
Lemma execute_request_refines own b pp q r u r' :
  is_replica node_id = true → is_replica (Req.cid q) = false → bodies_ok (replies (st r)) →
  execute_request own b pp q r = Ret (u, r') →
  ∃ l, run_one pp (state r) (table r) q = Ret (state r', table r', executed l) ∧ out r' = out r ++ l ∧
    bodies_ok (replies (st r')).
Proof.
  intros Hn Hcl Hok E. assert (Req.cid q ≠ node_id) as Hne by congruence.
  unfold execute_request in E. apply bind_inv in E as (r0 & r1 & E0 & E). injection E0 as <- <-.
  apply bind_inv in E as (last & r1 & El & E). apply lift_inv in El as [El ->].
  unfold RI.req_id, RI.reply in El. apply outcome_bind_Ret in El as (rp & Erp & El). injection El as <-.
  apply of_option_Ret in Erp.
  assert (zget (table r) (Req.cid q) = Some (entry_of rp)) as Et by (unfold table; by rewrite zget_fmap, Erp).
  unfold run_one. rewrite Et. cbn [of_option mbind outcome_bind]. change (answered_rid (entry_of rp)) with (r_rid rp).
  destruct (Req.rid q <=? r_rid rp).
  { destruct (quiet_send_reply own (Req.cid q) true Hne r u r' E) as (Hs & Ht & l & Ho & He).
    destruct (Ht Hok) as [Hok' ->]. exists l. by rewrite Hs, He. }
  apply bind_inv in E as ([x1 room] & r1 & E1 & E). apply lift_inv in E1 as [E1 ->]. unfold replies_to, store_to in E.
  apply bind_inv in E as (? & r1 & Eu & E). injection Eu as _ <-.
  apply bind_inv in E as (o & r2 & Eo & E). apply run_request_client in Eo; [|done].
  destruct Eo as (cmd & nd & o1 & err & -> & -> & Est & -> & Hst & n & Hout). cbn [mbind outcome_bind].
  cbn in Est. rewrite Est.
  apply bind_inv in E as (r0 & r3 & E0 & E). injection E0 as <- <-.
  apply bind_inv in E as (x2 & r3 & E2 & E). apply lift_inv in E2 as [E2 ->]. rewrite Hst in E2. cbn in E2.
  apply bind_inv in E as (? & r3 & Eu & E). injection Eu as _ <-.
  destruct (new_end_reply _ _ _ _ _ _ _ Hok E1 E2) as [Hok2 Ht2].
  destruct (finish_quiet own b q o1 Hne _ _ _ E) as (Hs & Ht & l & Ho & He). cbn in Hs.
  destruct (Ht Hok2) as [Hok' Ht']. exists ([EExec n (Req.cid q) (Req.rid q) false] ++ l).
  rewrite executed_app, He, executed_exec, app_nil_r, Hs, Ht'.
  match goal with |- context [table (set_st ?a ?y)] =>
    replace (table (set_st a y)) with (zset (table r) (Req.cid q) (answer (Req.rid q) o1)) by (symmetry; exact Ht2) end.
  split; [done|]. split; [|done]. rewrite Ho. cbn. by rewrite Hout, <- app_assoc.
Qed.

(** *** A whole batch *)
Lemma execute_batch_refines own b pp reqs r u r' :
  is_replica node_id = true → Forall (λ q, is_replica (Req.cid q) = false) reqs → bodies_ok (replies (st r)) →
  for_each reqs (execute_request own b pp) r = Ret (u, r') →
  ∃ l, run_batch pp (state r) (table r) reqs = Ret (state r', table r', executed l) ∧ out r' = out r ++ l ∧
    bodies_ok (replies (st r')).
Proof.
  intros Hn. revert r. induction reqs as [|q reqs IH]; intros r Hcl Hok E.
  { injection E as _ <-. exists []. by rewrite app_nil_r. }
  apply Forall_cons in Hcl as [Hq Hcl]. cbn [for_each] in E. apply bind_inv in E as (u1 & r1 & E1 & E).
  destruct (execute_request_refines own b pp q r u1 r1 Hn Hq Hok E1) as (l1 & H1' & Ho1 & Hok1).
  destruct (IH r1 Hcl Hok1 E) as (l2 & H2' & Ho2 & Hok2).
  exists (l1 ++ l2). cbn [run_batch]. rewrite H1'. cbn [mbind outcome_bind]. rewrite H2'. cbn.
  by rewrite executed_app, Ho2, Ho1, app_assoc.
Qed.

(** ** At most once *)

(** The answers in the table only become newer. *)
Definition newer (t t' : list entry) : Prop :=
  ∀ c e, zget t c = Some e → ∃ e', zget t' c = Some e' ∧ answered_rid e ≤ answered_rid e'.

#[export] Instance newer_refl : Reflexive newer.
Proof. intros t c e He. by exists e. Qed.
#[export] Instance newer_trans : Transitive newer.
Proof.
  intros a b c H1' H2' i e He. destruct (H1' i e He) as (e1 & He1 & ?). destruct (H2' i e1 He1) as (e2 & He2 & ?).
  exists e2. split; [done|lia].
Qed.

Lemma run_one_newer pp s t q s' t' l : run_one pp s t q = Ret (s', t', l) →
  newer t t' ∧ (∃ e', zget t' (Req.cid q) = Some e' ∧ Req.rid q ≤ answered_rid e') ∧
  ∀ c rid, (c, rid) ∈ l → (c, rid) = (Req.cid q, Req.rid q) ∧ ∃ e, zget t c = Some e ∧ answered_rid e < rid.
Proof.
  unfold run_one. intros E. apply outcome_bind_Ret in E as (e & Ee & E). apply of_option_Ret in Ee.
  destruct (Req.rid q <=? answered_rid e) eqn:Er; zprop.
  { injection E as <- <- <-. split; [done|]. split; [by exists e|]. by intros c rid ?%elem_of_nil. }
  apply outcome_bind_Ret in E as (cmd & _ & E). apply outcome_bind_Ret in E as (nd & _ & E).
  destruct (st_exec s cmd (Some nd) (Req.cid q) false) as [[s1 o] err]. injection E as <- <- <-.
  pose proof (zget_Some_lt _ _ _ Ee) as Hlt. split; [|split].
  - intros c e0 He0. rewrite zget_zset. case_decide as D; [|by exists e0].
    destruct D as [<- _]. eexists. split; [done|]. cbn. assert (e0 = e) as -> by congruence. lia.
  - eexists. rewrite zget_zset_eq by done. split; [done|]. cbn. lia.
  - intros c rid Hin%list_elem_of_singleton. split; [done|]. injection Hin as -> ->. by exists e.
Qed.

Lemma run_batch_once pp s t reqs s' t' l : run_batch pp s t reqs = Ret (s', t', l) →
  newer t t' ∧ NoDup l ∧
  (∀ q, q ∈ reqs → ∃ e', zget t' (Req.cid q) = Some e' ∧ Req.rid q ≤ answered_rid e') ∧
  ∀ c rid, (c, rid) ∈ l → ∃ e, zget t c = Some e ∧ answered_rid e < rid.
Proof.
  revert s t l. induction reqs as [|q reqs IH]; intros s t l E.
  { injection E as <- <- <-. split; [done|]. split; [constructor|]. split; [by intros ? ?%elem_of_nil|].
    by intros ?? ?%elem_of_nil. }
  cbn [run_batch] in E. apply outcome_bind_Ret in E as ([[s1 t1] l1] & E1 & E).
  apply outcome_bind_Ret in E as ([[s2 t2] l2] & E2 & E). injection E as <- <- <-.
  destruct (run_one_newer _ _ _ _ _ _ _ E1) as (Hn1 & (e1 & He1 & Hle1) & Hl1).
  destruct (IH _ _ _ E2) as (Hn2 & Hnd & Hall & Hl2). split; [by etrans|]. split; [|split].
  - assert (NoDup l1) as Hnd1.
    { unfold run_one in E1. apply outcome_bind_Ret in E1 as (e & _ & E1).
      destruct (_ <=? _); [injection E1 as <- <- <-; constructor|].
      apply outcome_bind_Ret in E1 as (? & _ & E1). apply outcome_bind_Ret in E1 as (? & _ & E1).
      destruct (st_exec _ _ _ _ _) as [[??]?]. injection E1 as <- <- <-. apply NoDup_singleton. }
    apply NoDup_app. split; [done|]. split; [|done].
    intros [c rid] H1' H2'. apply Hl1 in H1' as [Heq _]. injection Heq as -> ->.
    destruct (Hl2 _ _ H2') as (e & He & Hlt). assert (e = e1) as -> by congruence. lia.
  - intros q' [->|Hin]%elem_of_cons; [|by apply Hall].
    destruct (Hn2 _ _ He1) as (e2 & He2 & ?). exists e2. split; [done|lia].
  - intros c rid [Hin|Hin]%elem_of_app; [by destruct (Hl1 _ _ Hin)|].
    destruct (Hl2 _ _ Hin) as (e & He & Hlt).
    assert (zget t1 c ≠ None) as _ by by rewrite He.
    unfold run_one in E1. apply outcome_bind_Ret in E1 as (e0 & Ee0 & E1). apply of_option_Ret in Ee0.
    destruct (Req.rid q <=? answered_rid e0) eqn:Er; [injection E1 as <- <- <-; by exists e|]. zprop.
    apply outcome_bind_Ret in E1 as (? & _ & E1). apply outcome_bind_Ret in E1 as (? & _ & E1).
    destruct (st_exec _ _ _ _ _) as [[??]?]. injection E1 as <- <- <-. rewrite zget_zset in He.
    case_decide as D; [|by exists e]. destruct D as [<- _]. injection He as <-. cbn in Hlt. exists e0.
    split; [done|lia].
Qed.

(** A batch all of whose requests are answered executes nothing. *)
Lemma run_batch_again pp s t reqs :
  (∀ q, q ∈ reqs → ∃ e', zget t (Req.cid q) = Some e' ∧ Req.rid q ≤ answered_rid e') →
  run_batch pp s t reqs = Ret (s, t, []).
Proof.
  induction reqs as [|q reqs IH]; intros Ha; [done|]. cbn [run_batch].
  destruct (Ha q) as (e & He & Hle); [by left|]. unfold run_one at 1. rewrite He. cbn [of_option mbind outcome_bind].
  zbool. cbn [mbind outcome_bind]. rewrite IH; [done|].
  intros q' Hq'. apply Ha. by right.
Qed.
End exec.

(** C8: the loop of [execute_prepared] over the client requests of a batch implements
    [run_batch]: whatever the replica's number, keys, view, queues and clock are, the
    service and the table of replies end in the state that is determined by the state
    before and the batch, and exactly the requests that [run_batch] lists are executed. *)
Theorem batch_execution_refines `{Config} `{World} `{Parts} (own : Reply → ST Rep.Replica unit) (committed : bool)
    (pp : PP.Pre_prepare) (reqs : list Req.Request) (r r' : Rep.Replica) :
  is_replica node_id = true → Forall (λ q, is_replica (Req.cid q) = false) reqs → bodies_ok (replies (st r)) →
  for_each reqs (execute_request own committed pp) r = Ret (tt, r') →
  ∃ l, out r' = out r ++ l ∧
    run_batch pp (state r) (table r) reqs = Ret (state r', table r', executed l) ∧
    bodies_ok (replies (st r')).
Proof.
  intros Hn Hcl Hok E. destruct (execute_batch_refines own committed pp reqs r tt r' Hn Hcl Hok E) as (l & ? & ? & ?).
  by exists l.
Qed.

(** C9: a request is executed at most once: a request that is executed is newer than the
    last answer to its client and is executed once in the batch; afterwards every request
    of the batch is answered, and executing the batch again, as after a state transfer or
    with the batch in a later view, executes nothing and leaves service and replies alone. *)
Theorem requests_execute_once `{Config} `{World} `{Parts} (own own' : Reply → ST Rep.Replica unit)
    (committed committed' : bool) (pp pp' : PP.Pre_prepare) (reqs : list Req.Request) (r r1 r2 : Rep.Replica) :
  is_replica node_id = true → Forall (λ q, is_replica (Req.cid q) = false) reqs → bodies_ok (replies (st r)) →
  for_each reqs (execute_request own committed pp) r = Ret (tt, r1) →
  for_each reqs (execute_request own' committed' pp') r1 = Ret (tt, r2) →
  ∃ l1 l2, out r1 = out r ++ l1 ∧ out r2 = out r1 ++ l2 ∧
    NoDup (executed l1) ∧
    (∀ cid rid, (cid, rid) ∈ executed l1 → ∃ e, zget (table r) cid = Some e ∧ answered_rid e < rid) ∧
    (∀ q, q ∈ reqs → ∃ e, zget (table r1) (Req.cid q) = Some e ∧ Req.rid q ≤ answered_rid e) ∧
    executed l2 = [] ∧ state r2 = state r1 ∧ table r2 = table r1.
Proof.
  intros Hn Hcl Hok E1 E2.
  destruct (execute_batch_refines own committed pp reqs r tt r1 Hn Hcl Hok E1) as (l1 & Hb1 & Ho1 & Hok1).
  destruct (execute_batch_refines own' committed' pp' reqs r1 tt r2 Hn Hcl Hok1 E2) as (l2 & Hb2 & Ho2 & _).
  destruct (run_batch_once _ _ _ _ _ _ _ Hb1) as (_ & Hnd & Hall & Hnew).
  rewrite (run_batch_again _ _ _ _ Hall) in Hb2. injection Hb2 as Hs Ht Hx.
  exists l1, l2. split; [done|]. split; [done|]. split; [done|]. split; [done|]. split; [done|].
  split; [done|]. split; congruence.
Qed.

(** *** Concrete inputs: a batch with a request twice, at replica 2 *)
Definition sample_batch : list Req.Request := [Sample.request 9 5; Sample.request 9 5; Sample.request 11 6].

Definition sample_run (committed : bool) (r : @Rep.Replica (Sample.parts (SampleNode.config 2))) :=
  for_each sample_batch (execute_request (H := SampleNode.config 2) (H0 := SampleNode.world) (λ _, skip) committed
    (Sample.null_pp 1)) r.

Definition sample_after : @Rep.Replica (Sample.parts (SampleNode.config 2)) :=
  Sample.result (Sample.start (SampleNode.config 2)) (sample_run false (Sample.start (SampleNode.config 2))).

Definition sample_again : @Rep.Replica (Sample.parts (SampleNode.config 2)) :=
  Sample.result sample_after (sample_run true sample_after).

Lemma sample_bodies : bodies_ok (replies (st (Sample.start (SampleNode.config 2)))).
Proof. apply Forall_replicate. vm_compute. congruence. Qed.

Lemma batch_execution_refines_witness :
  let r := Sample.start (SampleNode.config 2) in
  ∃ l, out sample_after = out r ++ l ∧
    run_batch (H0 := SampleNode.world) (Sample.null_pp 1) (state r) (table r) sample_batch =
      Ret (state sample_after, table sample_after, executed l) ∧
    bodies_ok (replies (st sample_after)).
Proof.
  apply (batch_execution_refines (H := SampleNode.config 2) (H0 := SampleNode.world) (λ _, skip) false (Sample.null_pp 1)
    sample_batch (Sample.start (SampleNode.config 2)) sample_after).
  - reflexivity.
  - repeat constructor.
  - exact sample_bodies.
  - by apply (Sample.result_of (Sample.start (SampleNode.config 2))).
Defined.

Lemma requests_execute_once_witness :
  ∃ l1 l2, out sample_after = out (Sample.start (SampleNode.config 2)) ++ l1 ∧ out sample_again = out sample_after ++ l2 ∧
    NoDup (executed l1) ∧
    (∀ cid rid, (cid, rid) ∈ executed l1 →
       ∃ e, zget (table (Sample.start (SampleNode.config 2))) cid = Some e ∧ answered_rid e < rid) ∧
    (∀ q, q ∈ sample_batch → ∃ e, zget (table sample_after) (Req.cid q) = Some e ∧ Req.rid q ≤ answered_rid e) ∧
    executed l2 = [] ∧ state sample_again = state sample_after ∧ table sample_again = table sample_after.
Proof.
  apply (requests_execute_once (H := SampleNode.config 2) (H0 := SampleNode.world) (λ _, skip) (λ _, skip) false true
    (Sample.null_pp 1) (Sample.null_pp 1) sample_batch (Sample.start (SampleNode.config 2)) sample_after sample_again).
  - reflexivity.
  - repeat constructor.
  - exact sample_bodies.
  - by apply (Sample.result_of (Sample.start (SampleNode.config 2))).
  - by apply (Sample.result_of sample_after).
Defined.
End Exec.
